(* ===== verification/_CoqProject ===== *)
-Q . S2P
Prelude.v
MathUtil.v
Hash.v
Admission.v
Dll.v
Lru.v
Lfu.v
Shard.v
Eviction.v
Cache.v
Sections.v
CacheInv.v
CacheSpec.v
CacheTheorems.v
Hlc.v
Rendezvous.v
Lease.v
KeyCodec.v
Membership.v
Heap.v
Heat.v
Handoff.v
HandoffInv.v
HandoffSpec.v
HandoffTheorems.v
Replay.v
CacheIface.v
PatternIndex.v
Http.v
Middleware.v
MiddlewareTheorems.v
Manager.v
Node.v
NodeTheorems.v
Replication.v
Client.v
Repair.v
Transport.v
Load.v
Gossip.v
Float.v
Weights.v
Rates.v
Serve.v
ServeTheorems.v
Dispatch.v
Config.v
Peers.v
Lifecycle.v
Adapter.v
Cluster.v
Recovery.v
Env.v
BenchNode.v
Runner.v
UserApi.v
MiddlewareApp.v
Errors.v
Compress.v
