(* ===== verification/Prelude.v ===== *)
(** * Kioshun, a sharded in-memory cache and its cluster layer

    The program has two layers.  The root package is a cache: keys are hashed to shards, each
    shard has a map, a doubly linked list, optional LFU buckets and an optional admission
    filter under one lock.  The package [cluster] puts nodes around such caches: membership
    gossip and rendezvous hashing decide which nodes own a key, a hybrid logical clock orders
    writes, leases make loads single-flight, hot keys are detected by a space-saving counter,
    and writes a peer has missed wait in hint queues until they are replayed.

    ** Files

    - [Prelude]: machine integers ([u64], [i64], ...) with their wrap-around, bit lemmas, the
      tactic [word] with its hint database, and [rangeOrder], the order in which Go happens to
      iterate over a map, which every loop over a map takes as an argument.
    - [MathUtil], [Hash]: [src/internal/mathutil], [src/hash.go], [src/fnv.go].
    - [Admission]: [src/admission.go], the Bloom doorkeeper, the packed 4-bit sketch, scan
      detection and the admission decision.
    - [Dll], [Lru], [Lfu]: linked nodes in a store and the two lists of [src/shard.go] and
      [src/lfu.go], each with a representation predicate.
    - [Shard], [Eviction], [Cache]: state and operations of [src/shard.go],
      [src/eviction.go], [src/cache.go] and [src/snapshot.go].  A critical section is a
      function from memory and shard to memory, shard and result; calls compose them the way
      the code takes and releases locks.  Clock readings, [sync.Pool] choices and map orders
      are arguments.
    - [Sections], [CacheInv], [CacheSpec], [CacheTheorems]: what each section does to the
      abstract contents of a shard, the invariant of the whole cache, the abstract
      specification with the refinement, and the theorems users care about.
    - [Hlc], [Rendezvous], [Lease], [KeyCodec], [Membership] (with the limiter): the files of
      the same names in [src/cluster]; [Heat] is [src/cluster/heat.go].
    - [Heap]: the sift loops that [heat.go] and Go's [container/heap] share, over an interface
      ([HeapStore], [HeapLaws]) that [Heat] and [Handoff] implement.
    - [Handoff], [HandoffInv], [HandoffSpec], [HandoffTheorems]: the hint queues of
      [src/cluster/handoff.go] with hints as shared objects, their invariant, the
      specification of each operation and the theorems.
    - [Replay]: the handoff manager of the same file: a queue per peer, submission, the replay
      loop with its rate, backoff, housekeeping and pauses.
    - [CacheIface]: the classes [CacheOps] and [CacheLaws], what the cache promises to its
      clients, with the instance for [Cache].  The middleware and the cluster node are proved
      against the classes.
    - [PatternIndex], [Http], [Middleware], [MiddlewareTheorems]: the path tree of
      [src/internal/httpcache/index.go], what is used of net/http (header maps, response
      writers, handlers as lists of actions), and [src/middleware.go].
    - [Manager]: [src/manager.go] and the errors of [src/errors.go]; [GetCache] is cut into
      its atomic steps so that calls can interleave.
    - [Node], [NodeTheorems]: the inbound handlers of [src/cluster/node.go] with the messages
      of [src/cluster/wire.go] and the version table.
    - [Replication]: [src/cluster/replication.go], one call as a sequence of events of the
      caller and its sends, over the handoff manager of [Replay].
    - [Client]: [Get], [Set] and [Delete] of [src/cluster/client.go], the hedged read as an
      event loop.
    - [Transport]: frames, the matching of replies to requests, timeout penalties
      ([src/cluster/transport.go]) and the pool of read buffers ([bufpool.go]).
    - [Load]: [GetOrLoad] and [rpcLeaseLoad] as interleaved state machines over the local
      cache, the leases of [Lease] and the version table.
    - [Gossip]: [sendGossip], [ingestGossip] and the tick of [weightLoop] in [node.go], over
      the store of [Membership].
    - [Repair]: digests, paging, import and migration of [src/cluster/bf_rpc.go],
      [bf_join.go], [bf_msg.go] and [migrate.go].
    - [Float]: Go's binary64 over [SpecFloat], with error bounds for its operations on
      non-negative numbers; [Weights]: [src/cluster/weights.go]; [Rates]: the rates that the
      admission filter and the cache report.
    - [Serve], [ServeTheorems]: [acceptLoop] and [serveConn] of [node.go]: a server of many
      connections, each with a reader, a queue and workers that advance in interleaved steps,
      over the classes [Wire] (the codec) and [NodeOps] (the node), with [NodeLaws], what the
      server needs of a node.
    - [Dispatch]: the instance of [NodeOps] and [NodeLaws]: the handlers of [Node], [Load],
      [Gossip] and [Repair] on one node, cut at their critical sections.
    - [Config]: [src/cluster/config.go], [initTLS], the handshake gate, the periods of the
      loops and the loop of [bf_join.go].
    - [Peers]: outbound connections: the hello of [transport.go], and the table that
      [ensurePeer], [ensureSeed], [resetPeer] and [closePeers] share, as interleaved tasks.
    - [Lifecycle]: [NewNode], [Start], [Stop] and the gossip message, on a record of all the
      parts of a node; [Adapter]: [src/cluster/adapter.go] over it, with the client calls and
      their replication put together; [Cluster]: several such nodes, the sends of a write and
      the legs of a read being messages to the handlers of the others; [Recovery]: what
      acknowledgements and replayed hints mean in such a cluster.
    - [Env]: how the programs under [src/_benchmarks/cluster] and [src/_examples/clustered_api]
      configure their nodes; [BenchNode]: the HTTP handlers of the benchmark node over
      [Cluster]; [Runner]: counters, percentiles and checks of the load generators; [UserApi]:
      the web service of the clustered example, over the class [Shared] of what it uses of its
      node; [MiddlewareApp]: the server of the middleware example.
    - [Errors]: [src/cluster/errors.go] and [src/errors.go] over error chains; [Compress]: the
      buffers and the inflation loop of [node.go].

    ** What the theorems show

    Cache: every public call refines a step of the abstract specification, the data structures
    agree in every reachable state, the size bound holds, reads return exactly the live values,
    each policy evicts what it says.  Admission: the sketch never underestimates, the
    doorkeeper has no false negatives, the filter stays well formed.  Cluster: issued
    timestamps increase and dominate observed ones, owners are the best-ranked nodes and the
    single-pass ownership test agrees with them, leases are single-flight and close once,
    membership yields rings of distinct nodes, the hot-key list misses no heavy hitter, hint
    queues keep one newest hint per key within their caps and replay in order, and the
    handoff manager keeps them so through any network outcomes.  Data plane: a node keeps the
    value of the newest version whatever the order of delivery, so replicas converge; a
    replicated write that reports success has its write concern, every owner acknowledges or
    gets a hint; a hedged read answers what a sequential one would, and ends; backfill pages
    cover a bucket exactly and exchange nothing between replicas in sync; rebalancing drops
    nothing unacknowledged; replies on a connection reach exactly their requests; loads of a
    key are single-flight and followers get the leader's result; gossip spreads what the
    sender knows and the ring is always one of distinct, recently seen members.  Front ends:
    the manager hands out one instance per name under any interleaving; the middleware
    replays the recorded response and invalidates exactly the matching paths, the path tree
    being a set of pairs.  Server: connections that do not present the token change nothing,
    peers' requests are only served to authenticated peers, every request is answered once and
    the output parses, every read buffer has one owner, and a node built by [NewNode] and
    started by [Start] serves anything without a panic.  Connections: both sides agree on the
    hello, open connections are accounted for, closing is safe unless a read loop fails at the
    same time; stopping closes everything once.  Numbers: weights stay in their range and
    reported rates are accurate under rounding.  Whole node: a cluster of one is the cache, and
    calls return by their deadline.  Whole cluster: while messages get through, calls on any
    nodes behave as on one map, and a write is read back everywhere; when they do not, success
    still means that the write concern holds the data, missed owners get hints, and replay
    brings them up to date.  Programs: whatever the environment holds the nodes come up and
    serve; a value posted to one node is fetched from another; the user API answers with the
    present state of its database while requests follow one another (and a load that an update
    overtakes undoes it); the summary of a benchmark does not depend on how its workers
    interleave and adds up; the pages of the middleware example are replayed for the time of
    their group and their callbacks never index out of range.

    ** Bounds

    Loops that are not structural carry fuel that is computed from the data they consume
    (bytes left, hints queued, heap size); the specifications are proved for that fuel and
    show that the loops end by their own condition.

    A read or replication call takes the list of events that happen to it, and the theorems
    hold for all lists; progress theorems say which events are enough.  [pull_bucket] takes
    fuel for the pages; one more than the number of live keys of the donor is enough.  A
    task of [Lifecycle] that closes the table takes two steps for each connection and two more;
    reading a stream to its end takes some fuel for every stream that ends ([Compress]).

    ** Parameters

    Code outside the repository is an argument: MD5, time formatting and parsing, gzip, the
    value codec, CBOR (the classes [Wire] and [HelloWire]), XXH64 as used by the key codecs,
    certificate loading, memory statistics, the conversion of floats out of range, peers'
    answers and which connections come up; for the programs the JSON codec, the texts of
    errors and what is drawn at random.

    ** Not modelled

    Goroutine scheduling other than as an order of critical sections or events (theorems of
    [CacheTheorems], [NodeTheorems] and [Peers] show interleavings that go wrong); the sockets
    themselves, TLS records and their options; [CBORCodec], which calls the encoder;
    what the programs print and how long they pause; the scripts [src/_examples/basic] and
    [src/_examples/advanced] and the driver [benchmark_runner.go], which print what the library
    returns or run other programs. *)
From Stdlib Require Import ZArith Lia Btauto.
From stdpp Require Import base gmap list strings sorting.
#[global] Set Default Goal Selector "!".
#[global] Unset Program Cases.
Local Open Scope Z_scope.

(** ** Machine integers

    A w-bit Go integer is a [Z]; the wrap-around of each width is written out. *)
Definition u64 (z : Z) : Z := z mod 2 ^ 64.
Definition u32 (z : Z) : Z := z mod 2 ^ 32.
Definition u16 (z : Z) : Z := z mod 2 ^ 16.
Definition u8 (z : Z) : Z := z mod 2 ^ 8.
Definition i64 (z : Z) : Z := (z + 2 ^ 63) mod 2 ^ 64 - 2 ^ 63.
Definition i32 (z : Z) : Z := (z + 2 ^ 31) mod 2 ^ 32 - 2 ^ 31.

Declare Scope word_scope.
Delimit Scope word_scope with W.
Notation "x +w y" := (u64 (x + y)) (at level 50, left associativity) : word_scope.
Notation "x -w y" := (u64 (x - y)) (at level 50, left associativity) : word_scope.
Notation "x *w y" := (u64 (x * y)) (at level 40, left associativity) : word_scope.
Notation "x ^w y" := (Z.lxor x y) (at level 47, left associativity) : word_scope.
Notation "x >>w k" := (Z.shiftr x k) (at level 45, left associativity) : word_scope.
Notation "x <<w k" := (u64 (Z.shiftl x k)) (at level 45, left associativity) : word_scope.
Notation "x &w y" := (Z.land x y) (at level 46, left associativity) : word_scope.
Notation "x |w y" := (Z.lor x y) (at level 48, left associativity) : word_scope.

(** [bits.RotateLeft64]. *)
Definition rotl64 (x k : Z) : Z := Z.lor (u64 (Z.shiftl x k)) (Z.shiftr x (64 - k)).

Definition is_u64 (x : Z) : Prop := 0 ≤ x < 2 ^ 64.
Definition is_i64 (x : Z) : Prop := - 2 ^ 63 ≤ x < 2 ^ 63.

(** Boolean comparisons of the code, split into the propositions they decide. *)
Ltac zcase :=
  match goal with
  | |- context [Z.ltb ?a ?b] => destruct (Z.ltb_spec a b)
  | |- context [Z.leb ?a ?b] => destruct (Z.leb_spec a b)
  | |- context [Z.eqb ?a ?b] => destruct (Z.eqb_spec a b)
  | |- context [Z.gtb ?a ?b] => rewrite (Z.gtb_ltb a b)
  | |- context [Z.geb ?a ?b] => rewrite (Z.geb_leb a b)
  | H : context [Z.ltb ?a ?b] |- _ => destruct (Z.ltb_spec a b)
  | H : context [Z.leb ?a ?b] |- _ => destruct (Z.leb_spec a b)
  | H : context [Z.eqb ?a ?b] |- _ => destruct (Z.eqb_spec a b)
  | H : context [Z.gtb ?a ?b] |- _ => rewrite (Z.gtb_ltb a b) in H
  | H : context [Z.geb ?a ?b] |- _ => rewrite (Z.geb_leb a b) in H
  end.
Ltac zcases := repeat (zcase; simpl in *; try lia; try discriminate).

Create HintDb word discriminated.

Section Words.
Implicit Types x y z k m p q : Z.

Lemma pow2_pos k : 0 ≤ k → 0 < 2 ^ k.
Proof. intros. apply Z.pow_pos_nonneg; lia. Qed.

Lemma u64_range z : is_u64 (u64 z).
Proof. apply Z.mod_pos_bound. lia. Qed.
Lemma u64_id x : is_u64 x → u64 x = x.
Proof. apply Z.mod_small. Qed.
Lemma u32_range z : 0 ≤ u32 z < 2 ^ 32.
Proof. apply Z.mod_pos_bound. lia. Qed.
Lemma u32_id x : 0 ≤ x < 2 ^ 32 → u32 x = x.
Proof. apply Z.mod_small. Qed.
Lemma u16_range z : 0 ≤ u16 z < 2 ^ 16.
Proof. apply Z.mod_pos_bound. lia. Qed.
Lemma u16_id x : 0 ≤ x < 2 ^ 16 → u16 x = x.
Proof. apply Z.mod_small. Qed.
Lemma i64_range z : is_i64 (i64 z).
Proof.
  unfold is_i64, i64. pose proof (Z.mod_pos_bound (z + 2 ^ 63) (2 ^ 64)). lia.
Qed.
Lemma i64_id x : is_i64 x → i64 x = x.
Proof. unfold is_i64, i64. intros. rewrite Z.mod_small; lia. Qed.
Lemma i64_add_l x y : i64 (i64 x + y) = i64 (x + y).
Proof.
  unfold i64. replace ((x + 2 ^ 63) mod 2 ^ 64 - 2 ^ 63 + y + 2 ^ 63) with ((x + 2 ^ 63) mod 2 ^ 64 + y) by lia.
  rewrite Z.add_mod_idemp_l by lia. do 2 f_equal. lia.
Qed.
Lemma u64_i64 x : u64 (i64 x) = u64 x.
Proof.
  unfold u64, i64.
  rewrite Zminus_mod, Z.mod_mod, <-Zminus_mod by lia. f_equal. lia.
Qed.
Lemma u64_i64_inj x y : is_i64 x → is_i64 y → u64 x = u64 y → x = y.
Proof.
  unfold is_i64, u64. intros Hx Hy E.
  pose proof (Z.div_mod x (2 ^ 64)). pose proof (Z.div_mod y (2 ^ 64)). nia.
Qed.

(** Nonnegative numbers below [2^k] are those whose bits from [k] on are off. *)
Lemma bits_bounded k x :
  0 ≤ k → 0 ≤ x → (∀ i, k ≤ i → Z.testbit x i = false) → x < 2 ^ k.
Proof.
  intros Hk Hx Hb.
  assert (x = x mod 2 ^ k) as ->; [|apply Z.mod_pos_bound; lia].
  apply Z.bits_inj'. intros i Hi.
  destruct (decide (i < k)).
  - by rewrite Z.mod_pow2_bits_low.
  - rewrite Z.mod_pow2_bits_high by lia. apply Hb. lia.
Qed.
Lemma bounded_bits k x i : 0 ≤ x < 2 ^ k → 0 ≤ k ≤ i → Z.testbit x i = false.
Proof.
  intros Hx Hk. rewrite <-(Z.mod_small x (2 ^ k)) by lia.
  apply Z.mod_pow2_bits_high. lia.
Qed.

Lemma lxor_bound k x y :
  0 ≤ k → 0 ≤ x < 2 ^ k → 0 ≤ y < 2 ^ k → 0 ≤ Z.lxor x y < 2 ^ k.
Proof.
  intros. assert (0 ≤ Z.lxor x y) by (apply Z.lxor_nonneg; lia).
  split; [done|]. apply bits_bounded; [lia..|]. intros i Hi.
  rewrite Z.lxor_spec, !(bounded_bits k) by lia. done.
Qed.
Lemma lor_bound k x y :
  0 ≤ k → 0 ≤ x < 2 ^ k → 0 ≤ y < 2 ^ k → 0 ≤ Z.lor x y < 2 ^ k.
Proof.
  intros. assert (0 ≤ Z.lor x y) by (apply Z.lor_nonneg; lia).
  split; [done|]. apply bits_bounded; [lia..|]. intros i Hi.
  rewrite Z.lor_spec, !(bounded_bits k) by lia. done.
Qed.
Lemma land_bound_r x m : 0 ≤ m → 0 ≤ Z.land x m ≤ m.
Proof.
  intros. split; [apply Z.land_nonneg; lia|].
  assert (m - Z.land x m = Z.ldiff m (Z.land x m)) as E.
  { apply Z.sub_nocarry_ldiff. apply Z.bits_inj'. intros i Hi.
    rewrite Z.ldiff_spec, Z.land_spec, Z.bits_0. btauto. }
  assert (0 ≤ Z.ldiff m (Z.land x m)) by (apply Z.ldiff_nonneg; lia). lia.
Qed.
Lemma shiftr_bound k x s : 0 ≤ s → 0 ≤ x < 2 ^ k → 0 ≤ Z.shiftr x s < 2 ^ k.
Proof.
  intros Hs Hx. rewrite Z.shiftr_div_pow2 by lia.
  pose proof (pow2_pos s Hs). split; [apply Z.div_pos; lia|].
  apply Z.div_lt_upper_bound; nia.
Qed.
Lemma lxor_u64 x y : is_u64 x → is_u64 y → is_u64 (Z.lxor x y).
Proof. apply (lxor_bound 64). lia. Qed.
Lemma lor_u64 x y : is_u64 x → is_u64 y → is_u64 (Z.lor x y).
Proof. apply (lor_bound 64). lia. Qed.
Lemma shiftr_u64 x s : 0 ≤ s → is_u64 x → is_u64 (Z.shiftr x s).
Proof. apply shiftr_bound. Qed.
Lemma rotl64_u64 x k : 0 ≤ k ≤ 64 → is_u64 x → is_u64 (rotl64 x k).
Proof.
  intros. apply lor_u64; [apply u64_range|]. apply shiftr_u64; [lia|done].
Qed.

(** Appending low bits is addition. *)
Lemma lor_add a b n : 0 ≤ n → 0 ≤ b < 2 ^ n → Z.lor (Z.shiftl a n) b = a * 2 ^ n + b.
Proof.
  intros Hn Hb. rewrite <-Z.shiftl_mul_pow2 by done.
  assert (Z.land (Z.shiftl a n) b = 0) as H0.
  { apply Z.bits_inj'. intros i Hi. rewrite Z.land_spec, Z.bits_0, Z.shiftl_spec by done.
    destruct (Z.ltb_spec i n); [rewrite Z.testbit_neg_r by lia; done|].
    destruct (decide (b = 0)) as [->|]; [by rewrite Z.bits_0, andb_false_r|].
    rewrite (Z.bits_above_log2 b i); [apply andb_false_r|lia|].
    apply Z.lt_le_trans with n; [apply Z.log2_lt_pow2; lia|lia]. }
  by rewrite Z.add_nocarry_lxor, Z.lxor_lor.
Qed.

(** The xor-shift step of every mixer of the program loses nothing. *)
Lemma xorshift_inj k x y :
  1 ≤ k → 0 ≤ x → 0 ≤ y →
  Z.lxor x (Z.shiftr x k) = Z.lxor y (Z.shiftr y k) → x = y.
Proof.
  intros Hk Hx Hy E.
  assert (Z.lxor x y = Z.shiftr (Z.lxor x y) k) as Hd.
  { rewrite Z.shiftr_lxor. apply (f_equal (Z.lxor (Z.lxor y (Z.shiftr x k)))) in E.
    rewrite (Z.lxor_comm x (Z.shiftr x k)), <-!Z.lxor_assoc in E.
    rewrite (Z.lxor_assoc y _ (Z.shiftr x k)), Z.lxor_nilpotent, Z.lxor_0_r in E.
    rewrite (Z.lxor_comm y x) in E. rewrite E.
    rewrite (Z.lxor_comm y (Z.shiftr x k)), (Z.lxor_assoc _ y y).
    by rewrite Z.lxor_nilpotent, Z.lxor_0_r. }
  assert (0 ≤ Z.lxor x y) as Hn by (apply Z.lxor_nonneg; lia).
  rewrite Z.shiftr_div_pow2 in Hd by lia.
  assert (2 ≤ 2 ^ k) by (change 2 with (2 ^ 1) at 1; apply Z.pow_le_mono_r; lia).
  apply Z.lxor_eq.
  destruct (decide (Z.lxor x y = 0)) as [|Hne]; [done|].
  assert (Z.lxor x y / 2 ^ k < Z.lxor x y) by (apply Z.div_lt; lia). lia.
Qed.

(** Multiplication by a constant that has an inverse modulo [2^64]. *)
Lemma mulw_inj p q x y :
  u64 (p * q) = 1 → is_u64 x → is_u64 y → u64 (x * p) = u64 (y * p) → x = y.
Proof.
  intros Hpq Hx Hy E.
  assert (∀ t, is_u64 t → u64 (u64 (t * p) * q) = t) as Hinv.
  { intros t Ht. unfold u64 in *.
    rewrite Z.mul_mod_idemp_l, <-Z.mul_assoc, <-Z.mul_mod_idemp_r, Hpq by lia.
    rewrite Z.mul_1_r. by apply Z.mod_small. }
  rewrite <-(Hinv x Hx), E. by apply Hinv.
Qed.
End Words.

#[export] Hint Resolve u64_range u32_range u16_range i64_range : word.
#[export] Hint Resolve lxor_u64 lor_u64 shiftr_u64 rotl64_u64 : word.
#[export] Hint Extern 1 (0 ≤ _) => lia : word.
#[export] Hint Extern 1 (_ ≤ _ ≤ _) => lia : word.
#[export] Hint Extern 1 (is_u64 _) => progress (unfold is_u64); lia : word.
Ltac word := eauto with word.

(** ** Map iteration

    Go leaves the order of [range] over a map open, and it may differ from one loop to the
    next.  A loop over a map takes the order of its iteration as an argument: some
    rearrangement of the map's entries. *)
Record rangeOrder := RangeOrder {
  range : ∀ {A : Type}, list A → list A;
  range_perm : ∀ {A : Type} (l : list A), range l ≡ₚ l }.

Definition inOrder : rangeOrder := RangeOrder (λ _ l, l) (λ _ l, reflexivity l).
Definition reverseOrder : rangeOrder := RangeOrder (λ A l, rev l) (λ A l, symmetry (Permutation_rev l)).

Lemma elem_of_range o {A} (l : list A) x : x ∈ range o l ↔ x ∈ l.
Proof. by rewrite range_perm. Qed.

(** ** Lists *)
Lemma filter_all {A} (P : A → Prop) `{!∀ a, Decision (P a)} (l : list A) :
  (∀ a, a ∈ l → P a) → filter P l = l.
Proof.
  induction l as [|a l IH]; intros HP; [done|].
  rewrite filter_cons_True by (apply HP; left). f_equal. apply IH. intros b Hb. apply HP. by right.
Qed.
