(* ===== verification/MathUtil.v ===== *)
(** * Power-of-two sizing ([src/internal/mathutil/mathutil.go])

    [NextPowerOf2] sizes the shard array, the doorkeeper and the sketch.  [bits.Len] is
    the number of bits of an unsigned word, and the shift is that of a 64-bit [int]. *)
From Stdlib Require Import ZArith Lia.
From stdpp Require Import base numbers.
From S2P Require Import Prelude.
Local Open Scope Z_scope.

Module MathUtil.

(** [bits.Len]: 0 for 0, otherwise one more than the index of the highest bit set. *)
Definition bitsLen (x : Z) : Z := if x =? 0 then 0 else Z.log2 x + 1.

Definition NextPowerOf2 (n : Z) : Z :=
  if n <=? 1 then 1 else i64 (Z.shiftl 1 (bitsLen (u64 (n - 1)))).

Definition pow2 (x : Z) : Prop := ∃ k, 0 ≤ k ∧ x = 2 ^ k.

Lemma pow2_1 : pow2 1.
Proof. by exists 0. Qed.

(** Inside the range of a 64-bit [int] the result is the least power of two at or above
    the argument. *)
Lemma NextPowerOf2_spec n :
  n ≤ 2 ^ 62 →
  pow2 (NextPowerOf2 n) ∧ n ≤ NextPowerOf2 n ∧
  (∀ k, 0 ≤ k → n ≤ 2 ^ k → NextPowerOf2 n ≤ 2 ^ k).
Proof.
  intros Hn. unfold NextPowerOf2. destruct (Z.leb_spec n 1) as [H1|H1].
  { split; [apply pow2_1|]. split; [done|]. intros k Hk _.
    pose proof (pow2_pos k Hk). lia. }
  rewrite u64_id by (unfold is_u64; lia). unfold bitsLen.
  destruct (Z.eqb_spec (n - 1) 0); [lia|].
  pose proof (Z.log2_spec (n - 1)) as [Hlo Hhi]; [lia|].
  set (e := Z.log2 (n - 1)) in *. unfold Z.succ in Hhi.
  assert (0 ≤ e) by apply Z.log2_nonneg.
  assert (e < 62) by (apply (Z.pow_lt_mono_r_iff 2); lia).
  assert (2 ^ (e + 1) ≤ 2 ^ 62) by (apply Z.pow_le_mono_r; lia).
  assert (i64 (Z.shiftl 1 (e + 1)) = 2 ^ (e + 1)) as ->.
  { rewrite Z.shiftl_mul_pow2, Z.mul_1_l by lia. apply i64_id.
    pose proof (pow2_pos (e + 1)). unfold is_i64. lia. }
  split; [by exists (e + 1); split; [lia|]|]. split; [lia|].
  intros k Hk Hnk. apply Z.pow_le_mono_r; [lia|].
  assert (e < k); [|lia]. apply (Z.pow_lt_mono_r_iff 2); lia.
Qed.

Lemma NextPowerOf2_pos n : n ≤ 2 ^ 62 → 1 ≤ NextPowerOf2 n.
Proof.
  intros H. destruct (NextPowerOf2_spec n H) as [(k & Hk & ->) _].
  pose proof (pow2_pos k Hk). lia.
Qed.

Lemma NextPowerOf2_pow2 x : pow2 x → x ≤ 2 ^ 62 → NextPowerOf2 x = x.
Proof.
  intros [k [Hk ->]] Hle. destruct (NextPowerOf2_spec (2 ^ k) Hle) as (_ & Hge & Hmin).
  pose proof (Hmin k Hk ltac:(lia)). lia.
Qed.

(** Powers of two are ordered by divisibility. *)
Lemma pow2_le_divide a b : pow2 a → pow2 b → a ≤ b → (a | b).
Proof.
  intros (i & Hi & ->) (j & Hj & ->) Hle.
  assert (i ≤ j) by (apply (Z.pow_le_mono_r_iff 2); lia).
  exists (2 ^ (j - i)). rewrite <-Z.pow_add_r by lia. f_equal. lia.
Qed.

(** Masking with [size - 1] is reduction modulo a power-of-two size. *)
Lemma land_pow2_mask h n : pow2 n → Z.land h (n - 1) = h mod n.
Proof.
  intros (k & Hk & ->). rewrite <-Z.land_ones by done. f_equal.
  rewrite Z.ones_equiv. lia.
Qed.

End MathUtil.
