(* ===== verification/Hash.v ===== *)
(** * Key hashing ([src/hash.go], [src/fnv.go])

    Strings are lists of byte values, as the loops over [[]byte] read them.  The three
    loops of xxHash64 consume their input by slices of 32, 8 and 1 bytes; they run on
    fuel, the length of the input, and [lanes_rest] and [finalize8_rest] show that this is enough. *)
From Stdlib Require Import ZArith Lia Ascii.
From stdpp Require Import base numbers list strings.
From S2P Require Import Prelude.
Local Open Scope Z_scope.
Local Open Scope word_scope.

Module Hash.

Definition prime64_1 : Z := 0x9E3779B185EBCA87.
Definition prime64_2 : Z := 0xC2B2AE3D27D4EB4F.
Definition prime64_3 : Z := 0x165667B19E3779F9.
Definition prime64_4 : Z := 0x85EBCA77C2B2AE63.
Definition prime64_5 : Z := 0x27D4EB2F165667C5.
Definition seed64_1 : Z := 0x60EA27EEADC0B5D6.
Definition seed64_4 : Z := 0x61C8864E7A143579.
Definition fnvOffset64 : Z := 14695981039346656037.
Definition fnvPrime64 : Z := 1099511628211.

(** A Go string as the values of its bytes. *)
Definition byte_val (a : ascii) : Z := Z.of_N (N_of_ascii a).
Definition string_bytes (s : string) : list Z := byte_val <$> String.list_ascii_of_string s.

(** [binary.LittleEndian.Uint64] and [Uint32] of a slice. *)
Definition le_bytes (bs : list Z) : Z := foldr (λ b acc, Z.lor b (Z.shiftl acc 8)) 0 bs.

Definition xxHash64Avalanche (h64 : Z) : Z :=
  let h64 := h64 ^w (h64 >>w 33) in
  let h64 := h64 *w prime64_2 in
  let h64 := h64 ^w (h64 >>w 29) in
  let h64 := h64 *w prime64_3 in
  h64 ^w (h64 >>w 32).

Definition xxHash64Round (acc input : Z) : Z :=
  let acc := acc +w (input *w prime64_2) in
  let acc := rotl64 acc 31 in
  acc *w prime64_1.

Definition xxHash64MergeRound (h64 val : Z) : Z :=
  let val := xxHash64Round 0 val in
  let h64 := h64 ^w val in
  (h64 *w prime64_1) +w prime64_4.

(** The loop of [xxHash64Finalize] over 8-byte words. *)
Fixpoint finalize8 (fuel : nat) (data : list Z) (h64 : Z) : list Z * Z :=
  match fuel with
  | O => (data, h64)
  | S fuel =>
      if bool_decide (8 ≤ length data)%nat then
        let k1 := xxHash64Round 0 (le_bytes (take 8 data)) in
        let h64 := h64 ^w k1 in
        let h64 := (rotl64 h64 27 *w prime64_1) +w prime64_4 in
        finalize8 fuel (drop 8 data) h64
      else (data, h64)
  end.

(** The loop over the last bytes. *)
Fixpoint finalize1 (data : list Z) (h64 : Z) : Z :=
  match data with
  | [] => h64
  | b :: data =>
      let h64 := h64 ^w (b *w prime64_5) in
      finalize1 data (rotl64 h64 11 *w prime64_1)
  end.

Definition xxHash64Finalize (data : list Z) (h64 : Z) : Z :=
  let '(data, h64) := finalize8 (length data) data h64 in
  if bool_decide (4 ≤ length data)%nat then
    let k1 := le_bytes (take 4 data) in
    let h64 := h64 ^w (k1 *w prime64_1) in
    let h64 := (rotl64 h64 23 *w prime64_2) +w prime64_3 in
    finalize1 (drop 4 data) h64
  else finalize1 data h64.

Definition lanes : Type := Z * Z * Z * Z.

(** The 32-byte loop of [xxHash64Large]. *)
Fixpoint xxHash64Lanes (fuel : nat) (data : list Z) (v : lanes) : list Z * lanes :=
  match fuel with
  | O => (data, v)
  | S fuel =>
      if bool_decide (32 ≤ length data)%nat then
        let '(v1, v2, v3, v4) := v in
        let v1 := xxHash64Round v1 (le_bytes (take 8 data)) in
        let v2 := xxHash64Round v2 (le_bytes (take 8 (drop 8 data))) in
        let v3 := xxHash64Round v3 (le_bytes (take 8 (drop 16 data))) in
        let v4 := xxHash64Round v4 (le_bytes (take 8 (drop 24 data))) in
        xxHash64Lanes fuel (drop 32 data) (v1, v2, v3, v4)
      else (data, v)
  end.

Definition xxHash64Large (data : list Z) (len : Z) : Z :=
  let '(data, (v1, v2, v3, v4)) :=
    xxHash64Lanes (length data) data (seed64_1, prime64_2, 0, seed64_4) in
  let h64 := rotl64 v1 1 +w rotl64 v2 7 +w rotl64 v3 12 +w rotl64 v4 18 in
  let h64 := xxHash64MergeRound h64 v1 in
  let h64 := xxHash64MergeRound h64 v2 in
  let h64 := xxHash64MergeRound h64 v3 in
  let h64 := xxHash64MergeRound h64 v4 in
  let h64 := h64 +w len in
  xxHash64Finalize data h64.

Definition xxHash64Small (data : list Z) (h64 : Z) : Z := xxHash64Finalize data h64.

Definition xxHash64 (data : list Z) : Z :=
  let len := Z.of_nat (length data) in
  let h64 :=
    if 32 <=? len then xxHash64Large data len
    else xxHash64Small data (prime64_5 +w len) in
  xxHash64Avalanche h64.

Definition fnvHash64 (s : list Z) : Z :=
  let h := foldl (λ h b, (h ^w b) *w fnvPrime64) fnvOffset64 s in
  h ^w (h >>w 32).

Definition hashString (s : list Z) : Z :=
  if Z.of_nat (length s) <=? 8 then fnvHash64 s else xxHash64 s.

(** The key types [hasher.hash] distinguishes.  Every other type goes through
    [fmt.Sprintf], whose text is an argument of the constructor. *)
Inductive goKey : Type :=
  | KString (s : list Z)
  | KInt (z : Z) | KInt32 (z : Z) | KInt64 (z : Z)
  | KUint (z : Z) | KUint32 (z : Z) | KUint64 (z : Z)
  | KOther (formatted : list Z).

Definition hash (k : goKey) : Z :=
  match k with
  | KString s => hashString s
  | KInt z | KInt32 z | KInt64 z | KUint z | KUint32 z => xxHash64Avalanche (u64 z)
  | KUint64 z => xxHash64Avalanche z
  | KOther f => hashString f
  end.

(** ** The published description of XXH64 with seed 0

    The input is cut into whole stripes; each is folded in, then the rest. *)
Definition stripes (n : nat) (l : list Z) : list (list Z) :=
  (λ i, take n (drop (n * i) l)) <$> seq 0 (length l / n).

Definition stripe_round (v : lanes) (s : list Z) : lanes :=
  let '(v1, v2, v3, v4) := v in
  (xxHash64Round v1 (le_bytes (take 8 s)),
   xxHash64Round v2 (le_bytes (take 8 (drop 8 s))),
   xxHash64Round v3 (le_bytes (take 8 (drop 16 s))),
   xxHash64Round v4 (le_bytes (take 8 (drop 24 s)))).

Definition word_round (h s : Z) : Z :=
  (rotl64 (h ^w xxHash64Round 0 s) 27 *w prime64_1) +w prime64_4.

Definition tail_from (n : nat) (l : list Z) : list Z := drop (n * (length l / n)) l.

Definition xxh64_tail (data : list Z) (h : Z) : Z :=
  let h := foldl word_round h (le_bytes <$> stripes 8 data) in
  let rest := tail_from 8 data in
  if bool_decide (4 ≤ length rest)%nat then
    finalize1 (drop 4 rest)
      ((rotl64 (h ^w (le_bytes (take 4 rest) *w prime64_1)) 23 *w prime64_2) +w prime64_3)
  else finalize1 rest h.

Definition xxh64_reference (data : list Z) : Z :=
  let len := Z.of_nat (length data) in
  xxHash64Avalanche
    (if bool_decide (32 ≤ length data)%nat then
       let '(v1, v2, v3, v4) :=
         foldl stripe_round (u64 (prime64_1 + prime64_2), prime64_2, 0, u64 (- prime64_1))
           (stripes 32 data) in
       let h := rotl64 v1 1 +w rotl64 v2 7 +w rotl64 v3 12 +w rotl64 v4 18 in
       let h := foldl xxHash64MergeRound h [v1; v2; v3; v4] in
       xxh64_tail (tail_from 32 data) (h +w len)
     else xxh64_tail data (prime64_5 +w len)).

Section Stripes.
Context (n : nat) (Hn : (0 < n)%nat).
Implicit Types l : list Z.

Lemma div_step l : (n ≤ length l)%nat → (length l / n = S (length (drop n l) / n))%nat.
Proof using Hn.
  intros. rewrite length_drop.
  replace (length l) with ((length l - n) + 1 * n)%nat at 1 by lia.
  rewrite Nat.div_add by lia. lia.
Qed.
Lemma stripes_step l :
  (n ≤ length l)%nat → stripes n l = take n l :: stripes n (drop n l).
Proof using Hn.
  intros. unfold stripes. rewrite (div_step l) by done. cbn [seq fmap list_fmap].
  rewrite Nat.mul_0_r, drop_0. f_equal.
  rewrite <-seq_shift, <-list_fmap_compose. apply list_fmap_ext.
  intros i x _. cbn. rewrite drop_drop. do 2 f_equal. lia.
Qed.
Lemma stripes_short l : (length l < n)%nat → stripes n l = [].
Proof using Hn. intros. unfold stripes. by rewrite Nat.div_small. Qed.
Lemma tail_from_step l : (n ≤ length l)%nat → tail_from n l = tail_from n (drop n l).
Proof using Hn.
  intros. unfold tail_from. rewrite (div_step l), drop_drop by done. f_equal. lia.
Qed.
Lemma tail_from_short l : (length l < n)%nat → tail_from n l = l.
Proof using Hn. intros. unfold tail_from. by rewrite Nat.div_small, Nat.mul_0_r. Qed.
Lemma tail_from_length l : (length (tail_from n l) < n)%nat.
Proof using Hn.
  unfold tail_from. rewrite length_drop.
  pose proof (Nat.div_mod (length l) n). pose proof (Nat.mod_upper_bound (length l) n).
  lia.
Qed.
End Stripes.

(** Any fuel at or above the length runs the 32-byte loop to its end: the lanes are the
    fold over the whole stripes and fewer than 32 bytes are left. *)
Lemma lanes_rest fuel data v :
  (length data ≤ fuel)%nat →
  xxHash64Lanes fuel data v = (tail_from 32 data, foldl stripe_round v (stripes 32 data)).
Proof.
  revert data v. induction fuel as [|fuel IH]; intros data v Hf; cbn [xxHash64Lanes].
  { destruct data; [done|simpl in Hf; lia]. }
  case_bool_decide as Hl.
  - destruct v as [[[v1 v2] v3] v4].
    rewrite IH by (rewrite length_drop; lia).
    rewrite (stripes_step 32 ltac:(lia) data), (tail_from_step 32 ltac:(lia) data) by lia. cbn [foldl stripe_round].
    by rewrite take_take, !skipn_firstn_comm, !take_take.
  - by rewrite (tail_from_short 32), (stripes_short 32) by lia.
Qed.

Lemma finalize8_rest fuel data h :
  (length data ≤ fuel)%nat →
  finalize8 fuel data h = (tail_from 8 data, foldl word_round h (le_bytes <$> stripes 8 data)).
Proof.
  revert data h. induction fuel as [|fuel IH]; intros data h Hf; cbn [finalize8].
  { destruct data; [done|simpl in Hf; lia]. }
  case_bool_decide as Hl.
  - rewrite IH by (rewrite length_drop; lia).
    by rewrite (stripes_step 8 ltac:(lia) data), (tail_from_step 8 ltac:(lia) data) by lia.
  - by rewrite (tail_from_short 8), (stripes_short 8) by lia.
Qed.

Lemma Finalize_tail data h : xxHash64Finalize data h = xxh64_tail data h.
Proof. unfold xxHash64Finalize, xxh64_tail. by rewrite finalize8_rest. Qed.

(** ** Ranges *)
Lemma Avalanche_u64 h : is_u64 h → is_u64 (xxHash64Avalanche h).
Proof. unfold xxHash64Avalanche. word. Qed.
#[local] Hint Resolve Avalanche_u64 : word.

Lemma finalize1_u64 data h : is_u64 h → is_u64 (finalize1 data h).
Proof. revert h. induction data; simpl; word. Qed.

Lemma foldl_word_round_u64 ws h : is_u64 h → is_u64 (foldl word_round h ws).
Proof. revert h. induction ws; simpl; [done|]. intros. apply IHws, u64_range. Qed.

Lemma Finalize_u64 data h : is_u64 h → is_u64 (xxHash64Finalize data h).
Proof.
  intros. rewrite Finalize_tail. unfold xxh64_tail.
  case_bool_decide; apply finalize1_u64; [word|by apply foldl_word_round_u64].
Qed.

Lemma xxHash64_u64 data : is_u64 (xxHash64 data).
Proof.
  unfold xxHash64. apply Avalanche_u64. zcase.
  - unfold xxHash64Large. destruct (xxHash64Lanes _ _ _) as [d [[[v1 v2] v3] v4]].
    apply Finalize_u64. word.
  - apply Finalize_u64. word.
Qed.

Lemma fnvHash64_u64 s : is_u64 (fnvHash64 s).
Proof.
  unfold fnvHash64.
  assert (∀ h, is_u64 h → is_u64 (foldl (λ h b, (h ^w b) *w fnvPrime64) h s)) as Hf.
  { induction s; simpl; [done|]. intros. apply IHs, u64_range. }
  specialize (Hf fnvOffset64 ltac:(unfold is_u64, fnvOffset64; lia)). word.
Qed.

Lemma hashString_u64 s : is_u64 (hashString s).
Proof. unfold hashString. zcase; [apply fnvHash64_u64|apply xxHash64_u64]. Qed.

(** ** Injectivity of the integer path *)
Lemma Avalanche_inj x y :
  is_u64 x → is_u64 y → xxHash64Avalanche x = xxHash64Avalanche y → x = y.
Proof.
  intros Hx Hy E. unfold xxHash64Avalanche in E.
  apply xorshift_inj in E; [|lia|apply u64_range..].
  apply (mulw_inj _ 0xe9e9f4c41d6df849) in E; [|vm_compute; reflexivity|word..].
  apply xorshift_inj in E; [|lia|apply u64_range..].
  apply (mulw_inj _ 0xba79078168d4baf) in E; [|vm_compute; reflexivity|word..].
  apply xorshift_inj in E; unfold is_u64 in *; lia.
Qed.

Lemma hash_u64 k : (∀ z, k = KUint64 z → is_u64 z) → is_u64 (hash k).
Proof.
  intros Hk. destruct k; simpl; auto using Avalanche_u64, u64_range, hashString_u64.
Qed.


(** Two different integer keys of the same type never share a 64-bit hash: the
    avalanche chain is a permutation of the 64-bit words, and the conversion of a signed
    key to [uint64] loses nothing. *)
Theorem hash_int_injective :
  (∀ a b, is_i64 a → is_i64 b → hash (KInt64 a) = hash (KInt64 b) → a = b) ∧
  (∀ a b, is_i64 a → is_i64 b → hash (KInt a) = hash (KInt b) → a = b) ∧
  (∀ a b, is_u64 a → is_u64 b → hash (KUint64 a) = hash (KUint64 b) → a = b).
Proof.
  split_and!; intros a b Ha Hb E; simpl in E; apply Avalanche_inj in E;
    auto using u64_i64_inj, u64_range.
Qed.

(** Published test vectors, and the hash of short keys, evaluated. *)
Example xxHash64_vectors :
  xxHash64 (string_bytes "Nobody inspects the spammish repetition") = 0xFBCEA83C8A378BF1 ∧
  xxHash64 (string_bytes "abc") = 0x44BC2CF5AD770999 ∧
  hash (KString (string_bytes "abc")) = fnvHash64 [97; 98; 99].
Proof. by vm_compute. Qed.

End Hash.
