(* ===== verification/Admission.v ===== *)
(** * Adaptive admission filter ([src/admission.go])

    The doorkeeper is a Bloom filter over a bitset of 64-bit words, the sketch a
    Count-Min sketch of 4-bit counters packed sixteen to a word, and the filter joins
    them with a scan detector and a feedback-driven probability.

    [time.Now().UnixNano()] is read several times in one decision; each reading is an
    argument ([clock]).  A word array is a list of [Z]; [word_at] reads 0 out of range,
    and the [_index] lemmas show that a well-formed filter never reads or writes there. *)
From Stdlib Require Import ZArith Lia Btauto.
From stdpp Require Import base numbers list.
From S2P Require Import Prelude MathUtil Hash.
Local Open Scope Z_scope.
Local Open Scope word_scope.
Import MathUtil.

Module Admission.

Definition bloomMixPrime1 : Z := 0xff51afd7ed558ccd.
Definition bloomMixPrime2 : Z := 0xc4ceb9fe1a85ec53.
Definition frequencyThreshold : Z := 3.
Definition highEvictionRateThreshold : Z := 100.
Definition lowEvictionRateThreshold : Z := 10.
Definition admissionProbabilityStep : Z := 5.
Definition maxFrequency : Z := 15.
Definition second : Z := 1000000000.
Definition millisecond : Z := 1000000.
Definition defaultScanAdmissionThreshold : Z := 100.
Definition defaultScanMissThreshold : Z := 50.
Definition defaultScanRecencyThreshold : Z := 100 * millisecond.
Definition defaultRecencyTieBreak : Z := 1 * second.
Definition evictionPressureInterval : Z := second.

Definition hashN (hash mask rotate : Z) : Z :=
  let h := rotl64 hash rotate in
  let h := h ^w (h >>w 33) in
  let h := h *w bloomMixPrime1 in
  let h := h ^w (h >>w 29) in
  let h := h *w bloomMixPrime2 in
  let h := h ^w (h >>w 32) in
  h &w mask.

Definition acceptWithProb (hash prob : Z) : bool :=
  if 100 <=? prob then true
  else if prob =? 0 then false
  else
    let r := u32 (Hash.xxHash64Avalanche hash >>w 32) in
    let thr := u32 ((prob *w (2 ^ 32)) / 100) in
    r <? thr.

(** Word arrays. *)
Definition word_at (ws : list Z) (i : Z) : Z := default 0 (ws !! Z.to_nat i).
Definition word_set (ws : list Z) (i w : Z) : list Z := <[Z.to_nat i := w]> ws.

(** ** Doorkeeper *)
Record bloomFilter := BF { bf_bits : list Z; bf_size : Z; bf_mask : Z }.

Definition newBloomFilter (n : Z) : bloomFilter :=
  let n := u64 (NextPowerOf2 (i64 n)) in
  let arrN := n / 64 in
  let arrN := if arrN =? 0 then 1 else arrN in
  BF (replicate (Z.to_nat arrN) 0) n (n -w 1).

Definition set_bit (bits : list Z) (h : Z) : list Z :=
  word_set bits (h / 64) (word_at bits (h / 64) |w (1 <<w (h mod 64))).

Definition bit_on (bits : list Z) (h : Z) : bool :=
  negb ((word_at bits (h / 64) &w (1 <<w (h mod 64))) =? 0).

Definition bf_add (bf : bloomFilter) (keyHash : Z) : bloomFilter :=
  let h1 := hashN keyHash (bf_mask bf) 0 in
  let h2 := hashN keyHash (bf_mask bf) 17 in
  let h3 := hashN keyHash (bf_mask bf) 31 in
  BF (set_bit (set_bit (set_bit (bf_bits bf) h1) h2) h3) (bf_size bf) (bf_mask bf).

Definition bf_contains (bf : bloomFilter) (keyHash : Z) : bool :=
  let h1 := hashN keyHash (bf_mask bf) 0 in
  let h2 := hashN keyHash (bf_mask bf) 17 in
  let h3 := hashN keyHash (bf_mask bf) 31 in
  bit_on (bf_bits bf) h1 && bit_on (bf_bits bf) h2 && bit_on (bf_bits bf) h3.

Definition bf_reset (bf : bloomFilter) : bloomFilter :=
  BF ((λ _, 0) <$> bf_bits bf) (bf_size bf) (bf_mask bf).

(** ** Frequency sketch *)
Record frequencyBloomFilter := FBF {
  counters : list Z;
  fbf_size : Z;
  fbf_mask : Z;
  totalIncrements : Z;
  agingThreshold : Z }.

Definition newFrequencyBloomFilter (n : Z) : frequencyBloomFilter :=
  let sz := u64 (NextPowerOf2 (i64 n)) in
  let arrN := sz / 16 in
  let arrN := if arrN =? 0 then 1 else arrN in
  FBF (replicate (Z.to_nat arrN) 0) sz (sz -w 1) 0 (sz *w 10).

Definition getCounterValue (cs : list Z) (index : Z) : Z :=
  let ai := index / 16 in
  let ci := index mod 16 in
  let sh := ci * 4 in
  (word_at cs ai >>w sh) &w 15.

Definition incrementCounter (cs : list Z) (index : Z) : list Z :=
  let ai := index / 16 in
  let ci := index mod 16 in
  let sh := ci * 4 in
  let cur := word_at cs ai in
  let v := (cur >>w sh) &w 15 in
  if v <? maxFrequency then word_set cs ai (cur +w (1 <<w sh)) else cs.

Definition halfMask : Z := 0x7777777777777777.

Definition age (f : frequencyBloomFilter) : frequencyBloomFilter :=
  FBF ((λ cur, (cur >>w 1) &w halfMask) <$> counters f)
    (fbf_size f) (fbf_mask f) 0 (agingThreshold f).

Definition estimateFrequency (f : frequencyBloomFilter) (keyHash : Z) : Z :=
  let h1 := hashN keyHash (fbf_mask f) 0 in
  let h2 := hashN keyHash (fbf_mask f) 17 in
  let h3 := hashN keyHash (fbf_mask f) 31 in
  let h4 := hashN keyHash (fbf_mask f) 47 in
  let v := getCounterValue (counters f) h1 in
  let f2 := getCounterValue (counters f) h2 in
  let v := if f2 <? v then f2 else v in
  let f3 := getCounterValue (counters f) h3 in
  let v := if f3 <? v then f3 else v in
  let f4 := getCounterValue (counters f) h4 in
  if f4 <? v then f4 else v.

(** The new sketch and the returned estimate. *)
Definition increment (f : frequencyBloomFilter) (keyHash : Z) : frequencyBloomFilter * Z :=
  let h1 := hashN keyHash (fbf_mask f) 0 in
  let h2 := hashN keyHash (fbf_mask f) 17 in
  let h3 := hashN keyHash (fbf_mask f) 31 in
  let h4 := hashN keyHash (fbf_mask f) 47 in
  let v := getCounterValue (counters f) h1 in
  let f2 := getCounterValue (counters f) h2 in
  let v := if f2 <? v then f2 else v in
  let f3 := getCounterValue (counters f) h3 in
  let v := if f3 <? v then f3 else v in
  let f4 := getCounterValue (counters f) h4 in
  let v := if f4 <? v then f4 else v in
  let '(cs, v) :=
    if v <? maxFrequency then
      (incrementCounter (incrementCounter (incrementCounter
         (incrementCounter (counters f) h1) h2) h3) h4, v + 1)
    else (counters f, v) in
  let f := FBF cs (fbf_size f) (fbf_mask f) (totalIncrements f +w 1) (agingThreshold f) in
  ((if agingThreshold f <=? totalIncrements f then age f else f), v).

(** ** Scan detector *)
Record workloadDetector := WD {
  recentAdmissions : Z;
  recentAdmissionTime : Z;
  admissionRate : Z;
  consecutiveMisses : Z;
  admissionRateThreshold : Z;
  missThreshold : Z }.

Definition newWorkloadDetector (now rateThreshold missThr : Z) : workloadDetector :=
  WD 0 now 0 0 rateThreshold missThr.

Definition detectScan (now : Z) (wd : workloadDetector) : workloadDetector * bool :=
  let dt := i64 (now - recentAdmissionTime wd) in
  let wd :=
    if second <? dt then
      let r := (recentAdmissions wd *w second) / u64 dt in
      WD 0 now r (consecutiveMisses wd) (admissionRateThreshold wd) (missThreshold wd)
    else wd in
  (wd,
   ((0 <? admissionRateThreshold wd) && (admissionRateThreshold wd <? admissionRate wd))
   || ((0 <? missThreshold wd) && (missThreshold wd <? consecutiveMisses wd))).

Definition recordAdmission (wd : workloadDetector) : workloadDetector :=
  WD (recentAdmissions wd +w 1) (recentAdmissionTime wd) (admissionRate wd) 0
    (admissionRateThreshold wd) (missThreshold wd).

Definition recordRejection (wd : workloadDetector) : workloadDetector :=
  WD (recentAdmissions wd) (recentAdmissionTime wd) (admissionRate wd)
    (consecutiveMisses wd +w 1) (admissionRateThreshold wd) (missThreshold wd).

(** ** The filter *)
Record adaptiveAdmissionFilter := AAF {
  frequencyFilter : frequencyBloomFilter;
  doorkeeper : bloomFilter;
  detector : workloadDetector;
  admissionProbability : Z;
  minProbability : Z;
  maxProbability : Z;
  recentEvictions : Z;
  evictionWindow : Z;
  resetInterval : Z;
  lastReset : Z;
  admissionRequests : Z;
  admissionGrants : Z;
  scanRejections : Z;
  scanRecencyThreshold : Z;
  recencyTieBreak : Z }.

(** The clock readings of one call, in the order the code takes them. *)
Record clock := Clock { tScan : Z; tDecide : Z; tAdjust : Z; tReset : Z }.
Definition clock_at (t : Z) : clock := Clock t t t t.

Definition newAdaptiveAdmissionFilter
    (c : clock) (n ri scanRateThreshold scanMissThreshold scanRecency recencyTie : Z)
    : adaptiveAdmissionFilter :=
  let scanRateThreshold :=
    if scanRateThreshold =? 0 then defaultScanAdmissionThreshold else scanRateThreshold in
  let scanMissThreshold :=
    if scanMissThreshold =? 0 then defaultScanMissThreshold else scanMissThreshold in
  let scanRecency :=
    if scanRecency <=? 0 then defaultScanRecencyThreshold else scanRecency in
  let recencyTie :=
    if recencyTie <=? 0 then defaultRecencyTieBreak else recencyTie in
  {| frequencyFilter := newFrequencyBloomFilter n;
     doorkeeper := newBloomFilter (n / 8);
     detector := newWorkloadDetector (tScan c) scanRateThreshold scanMissThreshold;
     admissionProbability := 70;
     minProbability := 5;
     maxProbability := 95;
     recentEvictions := 0;
     evictionWindow := tAdjust c;
     resetInterval := ri;
     lastReset := tReset c;
     admissionRequests := 0;
     admissionGrants := 0;
     scanRejections := 0;
     scanRecencyThreshold := scanRecency;
     recencyTieBreak := recencyTie |}.

(** Functional updates of the fields the methods assign. *)
Definition with_frequencyFilter f a := {|
  frequencyFilter := f; doorkeeper := doorkeeper a; detector := detector a;
  admissionProbability := admissionProbability a; minProbability := minProbability a;
  maxProbability := maxProbability a; recentEvictions := recentEvictions a;
  evictionWindow := evictionWindow a; resetInterval := resetInterval a;
  lastReset := lastReset a; admissionRequests := admissionRequests a;
  admissionGrants := admissionGrants a; scanRejections := scanRejections a;
  scanRecencyThreshold := scanRecencyThreshold a; recencyTieBreak := recencyTieBreak a |}.
Definition with_doorkeeper d a := {|
  frequencyFilter := frequencyFilter a; doorkeeper := d; detector := detector a;
  admissionProbability := admissionProbability a; minProbability := minProbability a;
  maxProbability := maxProbability a; recentEvictions := recentEvictions a;
  evictionWindow := evictionWindow a; resetInterval := resetInterval a;
  lastReset := lastReset a; admissionRequests := admissionRequests a;
  admissionGrants := admissionGrants a; scanRejections := scanRejections a;
  scanRecencyThreshold := scanRecencyThreshold a; recencyTieBreak := recencyTieBreak a |}.
Definition with_detector d a := {|
  frequencyFilter := frequencyFilter a; doorkeeper := doorkeeper a; detector := d;
  admissionProbability := admissionProbability a; minProbability := minProbability a;
  maxProbability := maxProbability a; recentEvictions := recentEvictions a;
  evictionWindow := evictionWindow a; resetInterval := resetInterval a;
  lastReset := lastReset a; admissionRequests := admissionRequests a;
  admissionGrants := admissionGrants a; scanRejections := scanRejections a;
  scanRecencyThreshold := scanRecencyThreshold a; recencyTieBreak := recencyTieBreak a |}.
Definition with_counts req gr scan a := {|
  frequencyFilter := frequencyFilter a; doorkeeper := doorkeeper a; detector := detector a;
  admissionProbability := admissionProbability a; minProbability := minProbability a;
  maxProbability := maxProbability a; recentEvictions := recentEvictions a;
  evictionWindow := evictionWindow a; resetInterval := resetInterval a;
  lastReset := lastReset a; admissionRequests := req; admissionGrants := gr;
  scanRejections := scan;
  scanRecencyThreshold := scanRecencyThreshold a; recencyTieBreak := recencyTieBreak a |}.
Definition with_pressure prob ev win a := {|
  frequencyFilter := frequencyFilter a; doorkeeper := doorkeeper a; detector := detector a;
  admissionProbability := prob; minProbability := minProbability a;
  maxProbability := maxProbability a; recentEvictions := ev; evictionWindow := win;
  resetInterval := resetInterval a; lastReset := lastReset a;
  admissionRequests := admissionRequests a; admissionGrants := admissionGrants a;
  scanRejections := scanRejections a;
  scanRecencyThreshold := scanRecencyThreshold a; recencyTieBreak := recencyTieBreak a |}.
Definition with_lastReset t a := {|
  frequencyFilter := frequencyFilter a; doorkeeper := doorkeeper a; detector := detector a;
  admissionProbability := admissionProbability a; minProbability := minProbability a;
  maxProbability := maxProbability a; recentEvictions := recentEvictions a;
  evictionWindow := evictionWindow a; resetInterval := resetInterval a; lastReset := t;
  admissionRequests := admissionRequests a; admissionGrants := admissionGrants a;
  scanRejections := scanRejections a;
  scanRecencyThreshold := scanRecencyThreshold a; recencyTieBreak := recencyTieBreak a |}.

Definition bumpRequests a :=
  with_counts (admissionRequests a +w 1) (admissionGrants a) (scanRejections a) a.
Definition bumpGrants a :=
  with_counts (admissionRequests a) (admissionGrants a +w 1) (scanRejections a) a.
Definition bumpScan a :=
  with_counts (admissionRequests a) (admissionGrants a) (scanRejections a +w 1) a.

Definition admitDuringScan (now : Z) (a : adaptiveAdmissionFilter) (keyHash vAge : Z) : bool :=
  if (0 <? vAge) && (0 <? scanRecencyThreshold a)
     && (scanRecencyThreshold a <? i64 (now - vAge))
  then true else acceptWithProb keyHash (minProbability a).

Definition makeAdmissionDecision (now : Z) (a : adaptiveAdmissionFilter)
    (keyHash nf vFreq vAge : Z) : bool :=
  if frequencyThreshold <=? nf then true
  else if vFreq <? nf then true
  else if (nf =? vFreq) && (0 <? nf) then
    if (0 <? vAge) && (0 <? recencyTieBreak a)
    then recencyTieBreak a <? i64 (now - vAge)
    else acceptWithProb keyHash 50
  else
    let prob := admissionProbability a in
    let vf := if 5 <? vFreq then 5 else vFreq in
    let adjustedProb := prob - i64 (vf *w 10) in
    let adjustedProb :=
      if adjustedProb <? minProbability a then minProbability a else adjustedProb in
    acceptWithProb keyHash (u32 adjustedProb).

Definition adjustAdmissionProbability (now : Z) (a : adaptiveAdmissionFilter)
    : adaptiveAdmissionFilter :=
  if evictionPressureInterval <? i64 (now - evictionWindow a) then
    let ev := recentEvictions a in
    let p := admissionProbability a in
    let p' :=
      if highEvictionRateThreshold <? ev then
        let np := if admissionProbabilityStep <? p then p - admissionProbabilityStep else p in
        if np <? minProbability a then minProbability a else np
      else if ev <? lowEvictionRateThreshold then
        let np := u32 (p + admissionProbabilityStep) in
        if maxProbability a <? np then maxProbability a else np
      else p in
    with_pressure p' 0 now a
  else a.

Definition checkPeriodicReset (now : Z) (a : adaptiveAdmissionFilter)
    : adaptiveAdmissionFilter :=
  if resetInterval a <? i64 (now - lastReset a) then
    with_lastReset now (with_doorkeeper (bf_reset (doorkeeper a)) a)
  else a.

(** The last step of both the scan and the normal branch. *)
Definition recordOutcome (grant : bool) (a : adaptiveAdmissionFilter)
    : adaptiveAdmissionFilter :=
  if grant then bumpGrants (with_detector (recordAdmission (detector a)) a)
  else with_detector (recordRejection (detector a)) a.

Definition shouldAdmit (c : clock) (a : adaptiveAdmissionFilter) (keyHash vFreq vAge : Z)
    : adaptiveAdmissionFilter * bool :=
  let a := bumpRequests a in
  if bf_contains (doorkeeper a) keyHash then
    let a := with_doorkeeper (bf_add (doorkeeper a) keyHash) a in
    let a := with_frequencyFilter (increment (frequencyFilter a) keyHash).1 a in
    let a := with_detector (recordAdmission (detector a)) a in
    (bumpGrants a, true)
  else
    let '(wd, scan) := detectScan (tScan c) (detector a) in
    let a := with_detector wd a in
    if scan then
      let a := bumpScan a in
      let grant := admitDuringScan (tDecide c) a keyHash vAge in
      (recordOutcome grant a, grant)
    else
      let '(ff, nf) := increment (frequencyFilter a) keyHash in
      let a := with_frequencyFilter ff a in
      let a := with_doorkeeper (bf_add (doorkeeper a) keyHash) a in
      let grant := makeAdmissionDecision (tDecide c) a keyHash nf vFreq vAge in
      let a := adjustAdmissionProbability (tAdjust c) a in
      let a := checkPeriodicReset (tReset c) a in
      (recordOutcome grant a, grant).

Definition RecordEviction (a : adaptiveAdmissionFilter) : adaptiveAdmissionFilter :=
  with_pressure (admissionProbability a) (recentEvictions a +w 1) (evictionWindow a) a.

Definition GetFrequencyEstimate (a : adaptiveAdmissionFilter) (keyHash : Z) : Z :=
  estimateFrequency (frequencyFilter a) keyHash.

Definition Reset (a : adaptiveAdmissionFilter) : adaptiveAdmissionFilter :=
  with_frequencyFilter (age (frequencyFilter a))
    (with_doorkeeper (bf_reset (doorkeeper a)) a).

(** ** Packed words *)
Section PackedWords.
Implicit Types w c k h : Z.

Lemma mask15 x : Z.land x 15 = x mod 16.
Proof. apply (Z.land_ones x 4). lia. Qed.

Lemma pow16 c : 0 ≤ c → 2 ^ (c * 4) = 16 ^ c.
Proof. intros. rewrite Z.mul_comm, Z.pow_mul_r by lia. done. Qed.

(** The nibble [c] of a word. *)
Definition nib w c : Z := (w / 16 ^ c) mod 16.

Lemma nib_code w c : 0 ≤ c → Z.land (Z.shiftr w (c * 4)) 15 = nib w c.
Proof. intros. by rewrite mask15, Z.shiftr_div_pow2, pow16 by lia. Qed.

Lemma nib_range w c : 0 ≤ nib w c ≤ 15.
Proof. unfold nib. pose proof (Z.mod_pos_bound (w / 16 ^ c) 16). lia. Qed.

Lemma pow16_split c d : 0 ≤ c < d → 16 ^ d = 16 ^ c * (16 * 16 ^ (d - c - 1)).
Proof.
  intros. rewrite <-Z.pow_succ_r by lia. rewrite <-Z.pow_add_r by lia. f_equal. lia.
Qed.

(** Adding one to a nibble that is not saturated carries nowhere. *)
Lemma nib_add w c d :
  0 ≤ w → 0 ≤ c → 0 ≤ d → nib w c < 15 →
  nib (w + 16 ^ c) d = if decide (c = d) then nib w c + 1 else nib w d.
Proof.
  intros Hw Hc Hd Hlt.
  assert (0 < 16 ^ c) as Hpc by (apply Z.pow_pos_nonneg; lia).
  assert (0 < 16 ^ d) as Hpd by (apply Z.pow_pos_nonneg; lia).
  unfold nib in *. case_decide as E; [subst d|].
  - replace (w + 16 ^ c) with (w + 1 * 16 ^ c) by lia. rewrite Z.div_add by lia.
    rewrite <-Z.add_mod_idemp_l by lia. rewrite Z.mod_small; [lia|].
    pose proof (Z.mod_pos_bound (w / 16 ^ c) 16). lia.
  - destruct (decide (c < d)).
    + f_equal. rewrite (pow16_split c d) by lia.
      assert (0 < 16 ^ (d - c - 1)) by (apply Z.pow_pos_nonneg; lia).
      rewrite <-!Z.div_div by lia. f_equal.
      replace (w + 16 ^ c) with (w + 1 * 16 ^ c) by lia. rewrite Z.div_add by lia.
      pose proof (Z.div_mod (w / 16 ^ c) 16).
      symmetry. apply Z.div_unique with (r := (w / 16 ^ c) mod 16 + 1); [|lia].
      pose proof (Z.mod_pos_bound (w / 16 ^ c) 16). lia.
    + rewrite (pow16_split d c) by lia. rewrite Z.mul_comm.
      rewrite Z.div_add by lia.
      rewrite Z.mul_comm, Z.add_comm, (Z.mul_comm (16 ^ _)), Z.add_comm.
      rewrite <-(Z.mul_comm (16 ^ _) 16). by rewrite Z.mod_add by lia.
Qed.

Lemma nib_add_bound w c : is_u64 w → 0 ≤ c < 16 → nib w c < 15 → w + 16 ^ c < 2 ^ 64.
Proof.
  unfold is_u64, nib. intros Hw Hc Hlt.
  assert (0 < 16 ^ c) by (apply Z.pow_pos_nonneg; lia).
  change (2 ^ 64) with (16 ^ 16) in *. rewrite (pow16_split c 16) in * by lia.
  set (P := 16 ^ (16 - c - 1)) in *. set (m := w / 16 ^ c) in *.
  assert (16 ^ c * m ≤ w < 16 ^ c * m + 16 ^ c) as Hm.
  { pose proof (Z.div_mod w (16 ^ c)). pose proof (Z.mod_pos_bound w (16 ^ c)). lia. }
  assert (m < 16 * P) by nia.
  pose proof (Z.div_mod m 16). pose proof (Z.mod_pos_bound m 16).
  assert (m + 2 ≤ 16 * P); [|nia]. nia.
Qed.

Lemma pow16_shift c : 0 ≤ c < 16 → u64 (Z.shiftl 1 (c * 4)) = 16 ^ c.
Proof.
  intros. rewrite Z.shiftl_mul_pow2, Z.mul_1_l, pow16 by lia. apply u64_id.
  split; [apply Z.pow_nonneg; lia|]. change (2 ^ 64) with (16 ^ 16).
  apply Z.pow_lt_mono_r; lia.
Qed.

Lemma nib_testbit w c i :
  0 ≤ c → 0 ≤ i → Z.testbit (nib w c) i = (i <? 4) && Z.testbit w (i + c * 4).
Proof.
  intros. unfold nib. rewrite <-pow16, <-Z.shiftr_div_pow2 by lia.
  change 16 with (2 ^ 4). zcase.
  - rewrite Z.mod_pow2_bits_low, Z.shiftr_spec by lia. done.
  - by rewrite Z.mod_pow2_bits_high by lia.
Qed.

Lemma halfMask_bit n : 0 ≤ n < 64 → Z.testbit halfMask n = negb (n mod 4 =? 3).
Proof.
  intros Hn.
  assert (forallb (λ j, Bool.eqb (Z.testbit halfMask (Z.of_nat j))
                          (negb (Z.of_nat j mod 4 =? 3))) (seq 0 64) = true) as H by done.
  rewrite forallb_forall in H. specialize (H (Z.to_nat n)).
  rewrite Z2Nat.id in H by lia. apply Bool.eqb_prop, H, in_seq. lia.
Qed.

Lemma nib_half w c :
  is_u64 w → 0 ≤ c < 16 → nib (Z.land (Z.shiftr w 1) halfMask) c = nib w c / 2.
Proof.
  intros Hw Hc. rewrite <-Z.div2_div. apply Z.bits_inj'. intros i Hi.
  rewrite Z.div2_spec, Z.shiftr_spec, !nib_testbit by lia.
  rewrite Z.land_spec, Z.shiftr_spec by lia.
  destruct (Z.ltb_spec i 4); simpl; [|by destruct (Z.ltb_spec (i + 1) 4); [lia|]].
  rewrite halfMask_bit by lia. rewrite Z.mod_add by lia. rewrite Z.mod_small by lia.
  replace (i + c * 4 + 1) with (i + 1 + c * 4) by lia.
  destruct (Z.eqb_spec i 3), (Z.ltb_spec (i + 1) 4); try lia;
    by destruct (Z.testbit w _).
Qed.

(** One bit of a bitset word. *)
Lemma shift1_id k : 0 ≤ k < 64 → u64 (Z.shiftl 1 k) = 2 ^ k.
Proof.
  intros. rewrite Z.shiftl_mul_pow2, Z.mul_1_l by lia. apply u64_id.
  split; [apply Z.pow_nonneg; lia|]. apply Z.pow_lt_mono_r; lia.
Qed.

Lemma land_pow2_test w k :
  0 ≤ k → negb (Z.land w (2 ^ k) =? 0) = Z.testbit w k.
Proof.
  intros Hk. destruct (Z.testbit w k) eqn:E.
  - destruct (Z.eqb_spec (Z.land w (2 ^ k)) 0) as [E0|]; [|done].
    apply (f_equal (λ x, Z.testbit x k)) in E0. revert E0.
    rewrite Z.land_spec, Z.pow2_bits_true, E, Z.bits_0 by lia. done.
  - assert (Z.land w (2 ^ k) = 0) as ->; [|done].
    apply Z.bits_inj'. intros i Hi. rewrite Z.land_spec, Z.bits_0.
    destruct (decide (i = k)) as [->|]; [by rewrite E|].
    rewrite Z.pow2_bits_false by lia. apply andb_false_r.
Qed.
End PackedWords.

Section Arrays.
Implicit Types ws : list Z.

Lemma word_at_set ws i j w :
  0 ≤ i → 0 ≤ j → (Z.to_nat i < length ws)%nat →
  word_at (word_set ws i w) j = if decide (i = j) then w else word_at ws j.
Proof.
  intros Hi Hj Hl. unfold word_at, word_set. case_decide as E.
  - subst. by rewrite list_lookup_insert_eq.
  - rewrite list_lookup_insert_ne; [done|]. intros E'. apply E. lia.
Qed.

Lemma word_set_u64 ws i w : is_u64 w → Forall is_u64 ws → Forall is_u64 (word_set ws i w).
Proof. intros. by apply Forall_insert. Qed.

Lemma word_at_u64 ws i : Forall is_u64 ws → is_u64 (word_at ws i).
Proof.
  intros H. unfold word_at. destruct (ws !! Z.to_nat i) eqn:E; simpl.
  - by eapply Forall_lookup_1.
  - unfold is_u64. lia.
Qed.

(** An index below a power-of-two size falls inside the packed array of that size. *)
Lemma packed_index size per h :
  pow2 size → pow2 per → 0 ≤ h < size →
  (Z.to_nat (h / per) < Z.to_nat (if (size / per =? 0)%Z then 1 else size / per)%Z)%nat.
Proof.
  intros Hs Hp Hh. pose proof Hs as (a & Ha & Es). pose proof Hp as (b & Hb & Ep).
  assert (0 < per) by (subst per; apply pow2_pos; lia).
  assert (h / per < (if size / per =? 0 then 1 else size / per)).
  { zcase.
    - destruct (decide (per ≤ size)).
      + apply Z.div_small_iff in e; lia.
      + rewrite Z.div_small; lia.
    - apply Z.div_lt_upper_bound; [lia|].
      assert (per ≤ size).
      { destruct (decide (per ≤ size)); [done|]. rewrite Z.div_small in n; lia. }
      destruct (pow2_le_divide per size Hp Hs) as [q Hq]; [done|].
      rewrite Hq, Z.div_mul by lia. nia. }
  pose proof (Z.div_pos h per). lia.
Qed.
End Arrays.

#[global] Arguments hashN : simpl never.
#[global] Arguments getCounterValue : simpl never.
#[global] Arguments incrementCounter : simpl never.
#[global] Arguments set_bit : simpl never.
#[global] Arguments bit_on : simpl never.

Lemma hashN_range h mask r : 0 ≤ mask → 0 ≤ hashN h mask r ≤ mask.
Proof. intros. by apply land_bound_r. Qed.

Lemma pow2_64 : pow2 64.
Proof. by exists 6. Qed.
Lemma pow2_16 : pow2 16.
Proof. by exists 4. Qed.

(** ** Doorkeeper lemmas *)
Definition packed (size per : Z) (ws : list Z) : Prop :=
  pow2 size ∧
  length ws = Z.to_nat (if size / per =? 0 then 1 else size / per) ∧
  Forall is_u64 ws.

Definition bf_wf (bf : bloomFilter) : Prop :=
  packed (bf_size bf) 64 (bf_bits bf) ∧ bf_mask bf = bf_size bf - 1.

Definition fbf_wf (f : frequencyBloomFilter) : Prop :=
  packed (fbf_size f) 16 (counters f) ∧ fbf_mask f = fbf_size f - 1 ∧
  is_u64 (totalIncrements f) ∧ is_u64 (agingThreshold f).

Lemma packed_new n per :
  n ≤ 2 ^ 62 →
  packed (u64 (NextPowerOf2 n)) per
    (replicate (Z.to_nat (let k := u64 (NextPowerOf2 n) / per in if k =? 0 then 1 else k)) 0)
  ∧ u64 (u64 (NextPowerOf2 n) - 1) = u64 (NextPowerOf2 n) - 1.
Proof.
  intros Hn. destruct (NextPowerOf2_spec n Hn) as (Hp & _ & Hmin).
  pose proof (NextPowerOf2_pos n Hn). pose proof (Hmin 62 ltac:(lia) Hn).
  rewrite (u64_id (NextPowerOf2 n)) by (unfold is_u64; lia).
  split; [|apply u64_id; unfold is_u64; lia].
  split; [done|]. split; [by rewrite length_replicate|].
  apply Forall_replicate. unfold is_u64. lia.
Qed.

Lemma newBloomFilter_wf n : 0 ≤ n ≤ 2 ^ 62 → bf_wf (newBloomFilter n).
Proof.
  intros Hn. unfold newBloomFilter, bf_wf. simpl.
  rewrite (i64_id n) by (unfold is_i64; lia). apply packed_new. lia.
Qed.

Lemma newFrequencyBloomFilter_wf n : 0 ≤ n ≤ 2 ^ 62 → fbf_wf (newFrequencyBloomFilter n).
Proof.
  intros Hn. unfold newFrequencyBloomFilter, fbf_wf. simpl.
  rewrite (i64_id n) by (unfold is_i64; lia).
  destruct (packed_new n 16) as [Hp Hm]; [lia|]. split; [exact Hp|].
  split; [exact Hm|]. split; [unfold is_u64; lia|apply u64_range].
Qed.

Lemma packed_size_pos size per ws : packed size per ws → 1 ≤ size.
Proof. intros [(k & Hk & ->) _]. pose proof (pow2_pos k Hk). lia. Qed.

Lemma packed_in size per ws h r :
  pow2 per → packed size per ws →
  let i := hashN h (size - 1) r in
  0 ≤ i ∧ (Z.to_nat (i / per) < length ws)%nat.
Proof.
  intros Hper Hp. pose proof (packed_size_pos _ _ _ Hp). destruct Hp as (Hs & -> & _).
  pose proof (hashN_range h (size - 1) r ltac:(lia)).
  simpl. split; [lia|]. apply packed_index; [done..|lia].
Qed.

Lemma set_bit_packed size ws h : packed size 64 ws → packed size 64 (set_bit ws h).
Proof.
  intros (Hs & Hl & Hu). split; [done|]. unfold set_bit, word_set.
  rewrite length_insert. split; [done|]. apply word_set_u64; [|done].
  apply lor_u64; [by apply word_at_u64|apply u64_range].
Qed.

Lemma bit_on_set ws h h' :
  0 ≤ h → 0 ≤ h' → (Z.to_nat (h / 64) < length ws)%nat →
  bit_on (set_bit ws h) h' = (h =? h') || bit_on ws h'.
Proof.
  intros Hh Hh' Hl. unfold bit_on, set_bit.
  pose proof (Z.mod_pos_bound h 64 ltac:(lia)). pose proof (Z.mod_pos_bound h' 64 ltac:(lia)).
  rewrite !shift1_id, !land_pow2_test by lia.
  pose proof (Z.div_pos h 64). pose proof (Z.div_pos h' 64).
  rewrite word_at_set by lia. pose proof (Z.div_mod h 64). pose proof (Z.div_mod h' 64).
  case_decide as E.
  - rewrite Z.lor_spec, Z.pow2_bits_eqb by lia. rewrite <-E.
    zcase; zcase; try lia; by destruct (Z.testbit _ _).
  - zcase; [subst; lia|done].
Qed.

(** The three positions a key occupies. *)
Definition bf_positions (bf : bloomFilter) (k : Z) : list Z :=
  [hashN k (bf_mask bf) 0; hashN k (bf_mask bf) 17; hashN k (bf_mask bf) 31].

Lemma contains_positions bf k :
  bf_contains bf k = forallb (bit_on (bf_bits bf)) (bf_positions bf k).
Proof. unfold bf_contains. simpl. by rewrite andb_true_r, andb_assoc. Qed.

Lemma bf_add_wf bf k : bf_wf bf → bf_wf (bf_add bf k).
Proof. intros [Hp Hm]. split; [|done]. by do 3 apply set_bit_packed. Qed.

Lemma bf_add_bits bf k h :
  bf_wf bf → 0 ≤ h →
  bit_on (bf_bits (bf_add bf k)) h
  = existsb (Z.eqb h) (bf_positions bf k) || bit_on (bf_bits bf) h.
Proof.
  intros [Hp Hm] Hh. unfold bf_add, bf_positions. rewrite Hm.
  destruct (packed_in _ _ _ k 0 pow2_64 Hp) as [? ?].
  destruct (packed_in _ _ _ k 17 pow2_64 (set_bit_packed _ _ (hashN k (bf_size bf - 1) 0) Hp))
    as [? ?].
  destruct (packed_in _ _ _ k 31 pow2_64
     (set_bit_packed _ _ (hashN k (bf_size bf - 1) 17)
       (set_bit_packed _ _ (hashN k (bf_size bf - 1) 0) Hp))) as [? ?].
  cbn [bf_bits]. rewrite !bit_on_set by done. cbn [existsb].
  rewrite !(Z.eqb_sym h). btauto.
Qed.

Lemma positions_nonneg bf k : bf_wf bf → Forall (Z.le 0) (bf_positions bf k).
Proof.
  intros [Hp Hm]. unfold bf_positions. rewrite Hm.
  repeat constructor; by apply (packed_in _ _ _ _ _ pow2_64 Hp).
Qed.

Lemma bf_contains_add bf k j :
  bf_wf bf → bf_contains (bf_add bf k) j
    = forallb (λ h, existsb (Z.eqb h) (bf_positions bf k) || bit_on (bf_bits bf) h)
        (bf_positions bf j).
Proof.
  intros Hwf. rewrite contains_positions.
  change (bf_positions (bf_add bf k) j) with (bf_positions bf j).
  pose proof (positions_nonneg bf j Hwf) as Hpos.
  induction Hpos as [|h l Hh _ IH]; cbn [forallb]; [done|].
  by rewrite bf_add_bits, IH by done.
Qed.

Lemma bf_add_self bf k : bf_wf bf → bf_contains (bf_add bf k) k = true.
Proof.
  intros Hwf. rewrite bf_contains_add by done. apply forallb_forall. intros h Hin.
  apply orb_true_iff. left. apply existsb_exists. exists h. by rewrite Z.eqb_refl.
Qed.

Lemma bf_add_mono bf k j :
  bf_wf bf → bf_contains bf j = true → bf_contains (bf_add bf k) j = true.
Proof.
  intros Hwf. rewrite bf_contains_add, contains_positions by done.
  rewrite !forallb_forall. intros H h Hin. rewrite H by done. apply orb_true_r.
Qed.

Lemma bf_reset_wf bf : bf_wf bf → bf_wf (bf_reset bf).
Proof.
  intros [(Hs & Hl & Hu) Hm]. split; [|done]. split; [done|]. simpl.
  rewrite length_fmap. split; [done|]. apply Forall_fmap, Forall_true.
  intros. simpl. unfold is_u64. lia.
Qed.

Lemma bf_reset_empty bf k : bf_contains (bf_reset bf) k = false.
Proof.
  unfold bf_contains. simpl. unfold bit_on at 1, word_at. rewrite list_lookup_fmap.
  by destruct (bf_bits bf !! _).
Qed.

(** ** Sketch lemmas *)
Lemma getCounterValue_nib cs i : getCounterValue cs i = nib (word_at cs (i / 16)) (i mod 16).
Proof.
  unfold getCounterValue. apply nib_code.
  pose proof (Z.mod_pos_bound i 16). lia.
Qed.

Lemma getCounterValue_range cs i : 0 ≤ getCounterValue cs i ≤ 15.
Proof. rewrite getCounterValue_nib. apply nib_range. Qed.

Lemma getCounterValue_inc cs i j :
  Forall is_u64 cs → 0 ≤ i → 0 ≤ j → (Z.to_nat (i / 16) < length cs)%nat →
  getCounterValue (incrementCounter cs i) j
  = if decide (i = j) then Z.min 15 (getCounterValue cs i + 1) else getCounterValue cs j.
Proof.
  intros Hu Hi Hj Hl. unfold incrementCounter, maxFrequency.
  pose proof (Z.mod_pos_bound i 16 ltac:(lia)). pose proof (Z.mod_pos_bound j 16 ltac:(lia)).
  rewrite nib_code by lia. rewrite !getCounterValue_nib.
  pose proof (nib_range (word_at cs (i / 16)) (i mod 16)).
  pose proof (Z.div_pos i 16). pose proof (Z.div_pos j 16).
  pose proof (Z.div_mod i 16). pose proof (Z.div_mod j 16).
  zcase; [|case_decide; [subst; lia|done]].
  pose proof (word_at_u64 cs (i / 16) Hu) as Hw.
  pose proof (nib_add_bound _ (i mod 16) Hw ltac:(lia) ltac:(lia)).
  rewrite pow16_shift by lia. rewrite u64_id.
  2:{ unfold is_u64 in *. pose proof (Z.pow_nonneg 16 (i mod 16)). lia. }
  rewrite word_at_set by lia.
  case_decide as E; case_decide as E'; subst; try done.
  - rewrite nib_add by (unfold is_u64 in *; lia). rewrite decide_True by done. lia.
  - rewrite nib_add by (unfold is_u64 in *; lia).
    rewrite decide_False by lia. by rewrite E.
Qed.

Lemma incrementCounter_packed size cs i :
  packed size 16 cs → packed size 16 (incrementCounter cs i).
Proof.
  intros (Hs & Hl & Hu). unfold incrementCounter. zcase; [|done].
  split; [done|]. unfold word_set. rewrite length_insert. split; [done|].
  apply word_set_u64; [apply u64_range|done].
Qed.

Definition fbf_positions (f : frequencyBloomFilter) (k : Z) : list Z :=
  [hashN k (fbf_mask f) 0; hashN k (fbf_mask f) 17;
   hashN k (fbf_mask f) 31; hashN k (fbf_mask f) 47].

Lemma estimate_min f k :
  estimateFrequency f k
  = foldr Z.min 15 (getCounterValue (counters f) <$> fbf_positions f k).
Proof.
  unfold estimateFrequency, fbf_positions. cbn [fmap list_fmap foldr].
  pose proof (getCounterValue_range (counters f) (hashN k (fbf_mask f) 47)).
  repeat zcase; lia.
Qed.

Lemma foldr_min_le (l : list Z) x : x ∈ l → foldr Z.min 15 l ≤ x.
Proof. induction 1; simpl; lia. Qed.
Lemma foldr_min_ge (l : list Z) b : b ≤ 15 → (∀ x, x ∈ l → b ≤ x) → b ≤ foldr Z.min 15 l.
Proof.
  intros Hb. induction l as [|y l IH]; simpl; intros H; [done|].
  pose proof (H y ltac:(left)). specialize (IH ltac:(intros; apply H; by right)). lia.
Qed.

Lemma estimate_le f k h :
  h ∈ fbf_positions f k → estimateFrequency f k ≤ getCounterValue (counters f) h.
Proof.
  intros. rewrite estimate_min. apply foldr_min_le. by apply list_elem_of_fmap_2.
Qed.
Lemma estimate_ge f k b :
  b ≤ 15 → (∀ h, h ∈ fbf_positions f k → b ≤ getCounterValue (counters f) h) →
  b ≤ estimateFrequency f k.
Proof.
  intros Hb H. rewrite estimate_min. apply foldr_min_ge; [done|].
  intros x (h & -> & Hh)%list_elem_of_fmap. by apply H.
Qed.
Lemma estimate_range f k : 0 ≤ estimateFrequency f k ≤ 15.
Proof.
  split.
  - apply estimate_ge; [lia|]. intros. apply getCounterValue_range.
  - etrans; [by apply (estimate_le f k); left|]. apply getCounterValue_range.
Qed.

Definition incrementAll (cs : list Z) (hs : list Z) : list Z := foldl incrementCounter cs hs.

Lemma increment_unfold f k :
  increment f k =
  let e := estimateFrequency f k in
  let cs := if e <? 15 then incrementAll (counters f) (fbf_positions f k) else counters f in
  let f' := FBF cs (fbf_size f) (fbf_mask f) (totalIncrements f +w 1) (agingThreshold f) in
  ((if agingThreshold f <=? totalIncrements f' then age f' else f'),
   (if e <? 15 then e + 1 else e)).
Proof.
  unfold increment. change (let e := estimateFrequency f k in _) with
    (let '(cs, v) := if estimateFrequency f k <? 15
        then (incrementAll (counters f) (fbf_positions f k), estimateFrequency f k + 1)
        else (counters f, estimateFrequency f k) in
     let e := estimateFrequency f k in
     let cs := if e <? 15 then incrementAll (counters f) (fbf_positions f k) else counters f in
     let f' := FBF cs (fbf_size f) (fbf_mask f) (totalIncrements f +w 1) (agingThreshold f) in
     ((if agingThreshold f <=? totalIncrements f' then age f' else f'),
      (if e <? 15 then e + 1 else e))).
  unfold estimateFrequency, maxFrequency, incrementAll, fbf_positions. cbn [foldl].
  by destruct (_ <? 15).
Qed.

Section SketchStep.
Context (size : Z).
Implicit Types cs hs : list Z.

(** Raising counters lowers none, and raises the ones listed. *)
Lemma incrementAll_ge cs hs j :
  packed size 16 cs → 0 ≤ j →
  Forall (λ h, 0 ≤ h ∧ (Z.to_nat (h / 16) < length cs)%nat) hs →
  packed size 16 (incrementAll cs hs) ∧
  getCounterValue cs j ≤ getCounterValue (incrementAll cs hs) j ∧
  (j ∈ hs → Z.min 15 (getCounterValue cs j + 1) ≤ getCounterValue (incrementAll cs hs) j).
Proof.
  revert cs. induction hs as [|h hs IH]; intros cs Hp Hj Hhs.
  { split_and!; [done..|]. intros []%elem_of_nil. }
  apply Forall_cons in Hhs as [[Hh Hl] Hhs]. unfold incrementAll in *. cbn [foldl].
  pose proof (incrementCounter_packed size cs h Hp) as Hp'.
  assert (length (incrementCounter cs h) = length cs) as Hlen.
  { destruct Hp as (_ & -> & _). by destruct Hp' as (_ & -> & _). }
  destruct (IH (incrementCounter cs h) Hp' Hj) as (Hp2 & Hge & Hin).
  { by rewrite Hlen. }
  destruct Hp as (_ & _ & Hu).
  pose proof (getCounterValue_inc cs h j Hu Hh Hj Hl) as Einc.
  pose proof (getCounterValue_range cs j).
  split_and!; [done| |].
  - case_decide; subst; lia.
  - intros [->|Hj']%elem_of_cons.
    + rewrite decide_True in Einc by done. lia.
    + specialize (Hin Hj'). case_decide; subst; lia.
Qed.
End SketchStep.

Lemma fbf_positions_in f k :
  fbf_wf f →
  Forall (λ h, 0 ≤ h ∧ (Z.to_nat (h / 16) < length (counters f))%nat) (fbf_positions f k).
Proof.
  intros (Hp & Hm & _). unfold fbf_positions. rewrite Hm.
  repeat constructor; by apply (packed_in _ _ _ _ _ pow2_16 Hp).
Qed.

Lemma age_counter f i : fbf_wf f → 
  getCounterValue (counters (age f)) i = getCounterValue (counters f) i / 2.
Proof.
  intros ((_ & _ & Hu) & _). rewrite !getCounterValue_nib.
  pose proof (Z.mod_pos_bound i 16 ltac:(lia)).
  rewrite <-nib_half by (try apply word_at_u64; done || lia). f_equal.
  unfold word_at. simpl. rewrite list_lookup_fmap.
  by destruct (counters f !! _).
Qed.

Lemma age_wf f : fbf_wf f → fbf_wf (age f).
Proof.
  intros ((Hs & Hl & Hu) & Hm & Ht & Ha).
  split; [|split; [done|split; [unfold is_u64; simpl; lia|done]]].
  split; [done|]. simpl. rewrite length_fmap. split; [done|].
  apply Forall_fmap. eapply Forall_impl; [exact Hu|]. intros w Hw. simpl.
  pose proof (land_bound_r (Z.shiftr w 1) halfMask ltac:(by vm_compute)) as Hb.
  unfold is_u64. unfold halfMask in *. lia.
Qed.

Lemma increment_wf f k : fbf_wf f → fbf_wf (increment f k).1.
Proof.
  intros Hwf. rewrite increment_unfold.
  assert (fbf_wf (FBF (if estimateFrequency f k <? 15
     then incrementAll (counters f) (fbf_positions f k) else counters f)
     (fbf_size f) (fbf_mask f) (totalIncrements f +w 1) (agingThreshold f))) as H.
  { pose proof (fbf_positions_in f k Hwf). destruct Hwf as (Hp & Hm & Ht & Ha).
    split; [|split; [done|split; [apply u64_range|done]]]. cbn [counters fbf_size]. zcase; [|done].
    by apply (incrementAll_ge _ _ _ 0). }
  cbn zeta. cbn [fst]. destruct (agingThreshold f <=? _); [by apply age_wf|done].
Qed.

(** ** The filter as a whole *)
Definition aaf_wf (a : adaptiveAdmissionFilter) : Prop :=
  fbf_wf (frequencyFilter a) ∧ bf_wf (doorkeeper a) ∧
  minProbability a = 5 ∧ maxProbability a = 95 ∧ 5 ≤ admissionProbability a ≤ 95.

Lemma recordOutcome_parts b a :
  frequencyFilter (recordOutcome b a) = frequencyFilter a ∧
  doorkeeper (recordOutcome b a) = doorkeeper a ∧
  minProbability (recordOutcome b a) = minProbability a ∧
  maxProbability (recordOutcome b a) = maxProbability a ∧
  admissionProbability (recordOutcome b a) = admissionProbability a.
Proof. by destruct b. Qed.

Lemma recordOutcome_wf b a : aaf_wf a → aaf_wf (recordOutcome b a).
Proof.
  unfold aaf_wf. by destruct (recordOutcome_parts b a) as (-> & -> & -> & -> & ->).
Qed.

Lemma adjust_wf now a : aaf_wf a → aaf_wf (adjustAdmissionProbability now a).
Proof.
  unfold adjustAdmissionProbability. zcase; [|done].
  intros (Hf & Hd & Hmin & Hmax & Hp). split_and!; [done..| |];
    cbn [with_pressure admissionProbability]; rewrite Hmin, Hmax;
    unfold highEvictionRateThreshold, lowEvictionRateThreshold, admissionProbabilityStep;
    rewrite u32_id by lia; repeat zcase; lia.
Qed.

Lemma checkPeriodicReset_wf now a : aaf_wf a → aaf_wf (checkPeriodicReset now a).
Proof.
  unfold checkPeriodicReset. zcase; [|done].
  intros (Hf & Hd & Hpr). split; [done|]. split; [by apply bf_reset_wf|done].
Qed.

Lemma shouldAdmit_wf c a k vf va : aaf_wf a → aaf_wf (shouldAdmit c a k vf va).1.
Proof.
  intros (Hf & Hd & Hpr). unfold shouldAdmit.
  change (doorkeeper (bumpRequests a)) with (doorkeeper a).
  destruct (bf_contains (doorkeeper a) k).
  { split; [by apply increment_wf|]. split; [by apply bf_add_wf|done]. }
  destruct (detectScan _ _) as [wd scan]. destruct scan.
  { by apply recordOutcome_wf. }
  cbn [frequencyFilter with_detector bumpRequests with_counts].
  destruct (increment (frequencyFilter a) k) as [ff nf] eqn:E.
  apply recordOutcome_wf, checkPeriodicReset_wf, adjust_wf.
  split; [|split; [by apply bf_add_wf|done]].
  change ff with (ff, nf).1. rewrite <-E. by apply increment_wf.
Qed.

Lemma Reset_wf a : aaf_wf a → aaf_wf (Reset a).
Proof.
  intros (Hf & Hd & Hpr). split; [by apply age_wf|]. split; [by apply bf_reset_wf|done].
Qed.

(** Every filter the cache can hold: built by the constructor, then driven by decisions,
    eviction feedback and administrative resets in any order. *)
Inductive reachable : adaptiveAdmissionFilter → Prop :=
  | reach_new c n ri srt smt sr rt :
      0 ≤ n ≤ 2 ^ 62 → reachable (newAdaptiveAdmissionFilter c n ri srt smt sr rt)
  | reach_admit c a k vf va : reachable a → reachable (shouldAdmit c a k vf va).1
  | reach_evict a : reachable a → reachable (RecordEviction a)
  | reach_reset a : reachable a → reachable (Reset a).

Lemma reachable_wf a : reachable a → aaf_wf a.
Proof.
  induction 1.
  - split; [by apply newFrequencyBloomFilter_wf|]. split; [|cbn; lia].
    apply newBloomFilter_wf. split; [by apply Z.div_pos; lia|].
    apply Z.div_le_upper_bound; lia.
  - by apply shouldAdmit_wf.
  - done.
  - by apply Reset_wf.
Qed.

(** A decision in normal mode. *)
Definition scanning (c : clock) (a : adaptiveAdmissionFilter) : bool :=
  (detectScan (tScan c) (detector a)).2.

Lemma shouldAdmit_normal c a k vf va :
  bf_contains (doorkeeper a) k = false → scanning c a = false →
  let a1 := with_doorkeeper (bf_add (doorkeeper a) k)
    (with_frequencyFilter (increment (frequencyFilter a) k).1
      (with_detector (detectScan (tScan c) (detector a)).1 (bumpRequests a))) in
  let grant := makeAdmissionDecision (tDecide c) a1 k (increment (frequencyFilter a) k).2 vf va in
  shouldAdmit c a k vf va =
  (recordOutcome grant (checkPeriodicReset (tReset c) (adjustAdmissionProbability (tAdjust c) a1)),
   grant).
Proof.
  intros Hd Hs. unfold shouldAdmit, scanning in *.
  change (doorkeeper (bumpRequests a)) with (doorkeeper a). rewrite Hd.
  change (detector (bumpRequests a)) with (detector a).
  destruct (detectScan _ _) as [wd scan]. simpl in Hs. subst scan.
  cbn [frequencyFilter with_detector bumpRequests with_counts fst].
  by destruct (increment (frequencyFilter a) k) as [ff nf].
Qed.

Lemma adjust_doorkeeper now a : doorkeeper (adjustAdmissionProbability now a) = doorkeeper a.
Proof. unfold adjustAdmissionProbability. by zcase. Qed.
Lemma adjust_reset_fields now a :
  resetInterval (adjustAdmissionProbability now a) = resetInterval a ∧
  lastReset (adjustAdmissionProbability now a) = lastReset a.
Proof. unfold adjustAdmissionProbability. by zcase. Qed.

Lemma if_min x y : (if y <? x then y else x) = Z.min x y.
Proof. zcase; lia. Qed.
Lemma min_half x y : Z.min (x / 2) (y / 2) = Z.min x y / 2.
Proof.
  destruct (Z.min_spec x y) as [[H ->]|[H ->]];
    pose proof (Z.div_le_mono x y 2); pose proof (Z.div_le_mono y x 2); lia.
Qed.

(** ** Properties *)

(** Number of occurrences of a hash in a history. *)
Definition occurrences (k : Z) (ks : list Z) : Z := Z.of_nat (length (filter (eq k) ks)).

Lemma occurrences_cons k j ks :
  occurrences k (j :: ks) = (if decide (k = j) then 1 else 0) + occurrences k ks.
Proof. unfold occurrences. rewrite filter_cons. case_decide; simpl; lia. Qed.

(** One increment without aging, seen through the estimate of any key. *)
Lemma increment_estimate f k j :
  fbf_wf f → totalIncrements f + 1 < agingThreshold f →
  let f' := (increment f k).1 in
  totalIncrements f' = totalIncrements f + 1 ∧ agingThreshold f' = agingThreshold f ∧
  Z.min 15 (estimateFrequency f j + (if decide (j = k) then 1 else 0)) ≤ estimateFrequency f' j.
Proof.
  intros Hwf Hlt. pose proof Hwf as (Hp & Hm & Ht & Ha). unfold is_u64 in Ht, Ha.
  rewrite increment_unfold. cbn zeta. cbn [fst].
  assert (totalIncrements f +w 1 = totalIncrements f + 1) as Et by (apply u64_id; unfold is_u64; lia).
  rewrite Et. cbn [totalIncrements].
  rewrite (proj2 (Z.leb_gt (agingThreshold f) (totalIncrements f + 1))) by lia.
  split; [done|]. split; [done|].
  pose proof (estimate_range f j). pose proof (fbf_positions_in f j Hwf) as Hpj.
  apply estimate_ge; [lia|].
  change (fbf_positions _ j) with (fbf_positions f j) at 1. cbn [counters]. intros h Hh.
  pose proof (estimate_le f j h Hh) as Hle.
  rewrite Forall_forall in Hpj. destruct (Hpj h Hh) as [Hh0 Hhl].
  destruct (Z.ltb_spec (estimateFrequency f k) 15) as [Hlt15|Hge15].
  - destruct (incrementAll_ge _ (counters f) (fbf_positions f k) h Hp Hh0 (fbf_positions_in f k Hwf))
      as (_ & Hge & Hin).
    case_decide; subst; [specialize (Hin Hh)|]; lia.
  - case_decide; subst; lia.
Qed.

(** The sketch never underestimates: as long as no halving is due, the estimate of a
    key is at least its earlier estimate plus the number of times it was recorded, up to
    the saturation value 15 of the 4-bit counters, whatever other keys were recorded in between. *)
Theorem sketch_never_underestimates (f : frequencyBloomFilter) (ks : list Z) (k : Z) :
  fbf_wf f → totalIncrements f + Z.of_nat (length ks) < agingThreshold f →
  Z.min 15 (estimateFrequency f k + occurrences k ks)
  ≤ estimateFrequency (foldl (λ f k, (increment f k).1) f ks) k.
Proof.
  revert f. induction ks as [|j ks IH]; intros f Hwf Hlt; cbn [foldl length] in *.
  { unfold occurrences. simpl. pose proof (estimate_range f k). lia. }
  destruct (increment_estimate f j k Hwf) as (Et & Ea & Hest); [lia|].
  specialize (IH (increment f j).1 (increment_wf f j Hwf)).
  rewrite Et, Ea in IH. specialize (IH ltac:(lia)).
  rewrite occurrences_cons. pose proof (estimate_range f k).
  assert (0 ≤ occurrences k ks) by (unfold occurrences; lia). case_decide; lia.
Qed.

Lemma sketch_never_underestimates_witness :
  fbf_wf (newFrequencyBloomFilter 16) ∧
  3 ≤ estimateFrequency
        (foldl (λ f k, (increment f k).1) (newFrequencyBloomFilter 16) [7; 9; 7; 7]) 7.
Proof.
  pose proof (newFrequencyBloomFilter_wf 16 ltac:(lia)) as Hwf. split; [exact Hwf|].
  apply (Z.le_trans _ (Z.min 15 (estimateFrequency (newFrequencyBloomFilter 16) 7
           + occurrences 7 [7; 9; 7; 7]))).
  - vm_compute. discriminate.
  - apply sketch_never_underestimates; [exact Hwf|vm_compute; reflexivity].
Defined.

(** Aging halves: after the shift-and-mask over the packed words, the estimate of
    every key is exactly half of what it was (rounded down), so no counter leaks a bit
    into its neighbour. *)
Theorem aging_halves_estimates (f : frequencyBloomFilter) (k : Z) :
  fbf_wf f → estimateFrequency (age f) k = estimateFrequency f k / 2.
Proof.
  intros Hwf. unfold estimateFrequency.
  change (fbf_mask (age f)) with (fbf_mask f). rewrite !age_counter by done.
  rewrite !if_min, !min_half. reflexivity.
Qed.

Lemma aging_halves_estimates_witness :
  let f := (increment (increment (increment (newFrequencyBloomFilter 16) 7).1 7).1 7).1 in
  estimateFrequency f 7 = 3 ∧ estimateFrequency (age f) 7 = 3 / 2.
Proof.
  split; [vm_compute; reflexivity|].
  rewrite aging_halves_estimates.
  - reflexivity.
  - do 3 apply increment_wf. apply newFrequencyBloomFilter_wf. lia.
Defined.

(** The doorkeeper has no false negatives: every key added since the filter was built
    or last reset is reported as present, whatever else was added. *)
Theorem doorkeeper_no_false_negatives (bf : bloomFilter) (ks : list Z) (k : Z) :
  bf_wf bf → k ∈ ks → bf_contains (foldl bf_add (bf_reset bf) ks) k = true.
Proof.
  intros Hwf. apply bf_reset_wf in Hwf. revert Hwf. generalize (bf_reset bf) as b.
  assert (∀ b l, bf_wf b → bf_contains b k = true → bf_contains (foldl bf_add b l) k = true)
    as Hmono.
  { intros b l. revert b. induction l; simpl; [done|]. intros.
    apply IHl; [by apply bf_add_wf|by apply bf_add_mono]. }
  induction ks as [|j ks IH]; intros b Hwf; [intros []%elem_of_nil|].
  intros [->|Hin]%elem_of_cons; simpl.
  - apply Hmono; [by apply bf_add_wf|by apply bf_add_self].
  - apply IH; [by apply bf_add_wf|done].
Qed.

Lemma doorkeeper_no_false_negatives_witness :
  bf_contains (foldl bf_add (bf_reset (newBloomFilter 128)) [5; 11; 42]) 11 = true.
Proof.
  apply doorkeeper_no_false_negatives.
  - apply newBloomFilter_wf. lia.
  - right. left.
Defined.

(** Safety of the filter over its whole life: after any sequence of admission
    decisions, eviction feedback and resets the admission probability lies in [5..95],
    the configured bounds are unchanged, and both packed arrays keep the length and the
    word range that make every index computed from a hash fall inside them. *)
Theorem admission_filter_invariant (a : adaptiveAdmissionFilter) (k r : Z) :
  reachable a →
  5 ≤ admissionProbability a ≤ 95 ∧ minProbability a = 5 ∧ maxProbability a = 95 ∧
  (Z.to_nat (hashN k (bf_mask (doorkeeper a)) r / 64) < length (bf_bits (doorkeeper a)))%nat ∧
  (Z.to_nat (hashN k (fbf_mask (frequencyFilter a)) r / 16)
     < length (counters (frequencyFilter a)))%nat.
Proof.
  intros (Hf & Hd & Hmin & Hmax & Hp)%reachable_wf. split_and!; [lia..| |].
  - destruct Hd as [Hd ->]. by apply (packed_in _ _ _ k r pow2_64 Hd).
  - destruct Hf as (Hf & -> & _). by apply (packed_in _ _ _ k r pow2_16 Hf).
Qed.

Lemma admission_filter_invariant_witness :
  let a := RecordEviction
    (shouldAdmit (clock_at 7) (newAdaptiveAdmissionFilter (clock_at 5) 1024 60 0 0 0 0) 99 1 3).1 in
  5 ≤ admissionProbability a ≤ 95.
Proof.
  intros a. apply (admission_filter_invariant a 0 0). apply reach_evict, reach_admit, reach_new. lia.
Defined.

(** A key that was turned down is admitted when it comes back: in normal mode the
    decision records the key in the doorkeeper before answering, so unless the periodic
    reset fired in that very call the next request for the same key is granted, whatever
    the victim, the clock and the scan detector say by then. *)
Theorem second_request_admitted (c c' : clock) (a : adaptiveAdmissionFilter)
    (k vf va vf' va' : Z) :
  reachable a → scanning c a = false →
  i64 (tReset c - lastReset a) ≤ resetInterval a →
  (shouldAdmit c' (shouldAdmit c a k vf va).1 k vf' va').2 = true.
Proof.
  intros (Hf & Hd & _)%reachable_wf Hs Hr.
  enough (bf_contains (doorkeeper (shouldAdmit c a k vf va).1) k = true) as Hin.
  { unfold shouldAdmit at 1. change (doorkeeper (bumpRequests ?x)) with (doorkeeper x).
    by rewrite Hin. }
  destruct (bf_contains (doorkeeper a) k) eqn:Hc.
  { unfold shouldAdmit. change (doorkeeper (bumpRequests ?x)) with (doorkeeper x).
    rewrite Hc. cbn. by apply bf_add_self. }
  rewrite shouldAdmit_normal by done. cbn zeta. cbn [fst].
  destruct (recordOutcome_parts (makeAdmissionDecision (tDecide c)
    (with_doorkeeper (bf_add (doorkeeper a) k)
    (with_frequencyFilter (increment (frequencyFilter a) k).1
      (with_detector (detectScan (tScan c) (detector a)).1 (bumpRequests a))))
      k (increment (frequencyFilter a) k).2 vf va)
    (checkPeriodicReset (tReset c) (adjustAdmissionProbability (tAdjust c)
    (with_doorkeeper (bf_add (doorkeeper a) k)
    (with_frequencyFilter (increment (frequencyFilter a) k).1
      (with_detector (detectScan (tScan c) (detector a)).1 (bumpRequests a))))))) as (_ & -> & _).
  unfold checkPeriodicReset.
  match goal with |- context [adjustAdmissionProbability ?t ?x] =>
    destruct (adjust_reset_fields t x) as [-> ->] end.
  cbn [resetInterval lastReset with_doorkeeper with_frequencyFilter with_detector bumpRequests
       with_counts].
  rewrite (proj2 (Z.ltb_ge (resetInterval a) (i64 (tReset c - lastReset a)))) by lia.
  rewrite adjust_doorkeeper. by apply bf_add_self.
Qed.

Lemma second_request_admitted_witness :
  let a := newAdaptiveAdmissionFilter (clock_at 0) 1024 60000000000 0 0 0 0 in
  (shouldAdmit (clock_at 10) a 1234 9 1).2 = false ∧
  (shouldAdmit (clock_at 20) (shouldAdmit (clock_at 10) a 1234 9 1).1 1234 9 1).2 = true.
Proof.
  intros a. split; [vm_compute; reflexivity|].
  apply second_request_admitted.
  - apply reach_new. lia.
  - vm_compute. reflexivity.
  - vm_compute. discriminate.
Defined.

(** Scan resistance: a request for a key not in the doorkeeper that arrives while a
    scan is detected leaves no trace in the doorkeeper, in the sketch or in the admission
    probability, and it is granted only to replace a victim idle for longer than the
    recency threshold or by the 5% lottery. *)
Theorem scan_leaves_no_trace (c : clock) (a : adaptiveAdmissionFilter) (k vf va : Z) :
  bf_contains (doorkeeper a) k = false → scanning c a = true →
  let '(a', grant) := shouldAdmit c a k vf va in
  doorkeeper a' = doorkeeper a ∧ frequencyFilter a' = frequencyFilter a ∧
  admissionProbability a' = admissionProbability a ∧
  (grant = true →
     (0 < va ∧ scanRecencyThreshold a < i64 (tDecide c - va)) ∨
     acceptWithProb k (minProbability a) = true).
Proof.
  intros Hd Hs. unfold shouldAdmit, scanning in *.
  change (doorkeeper (bumpRequests a)) with (doorkeeper a). rewrite Hd.
  change (detector (bumpRequests a)) with (detector a).
  destruct (detectScan _ _) as [wd scan]. simpl in Hs. subst scan.
  match goal with |- context [recordOutcome ?b ?x] =>
    destruct (recordOutcome_parts b x) as (-> & -> & _ & _ & ->) end.
  split_and!; [done..|]. unfold admitDuringScan. cbn.
  repeat zcase; cbn; intros; auto.
Qed.

Lemma scan_leaves_no_trace_witness :
  let a := with_detector (WD 0 0 0 51 100 50)
             (newAdaptiveAdmissionFilter (clock_at 0) 1024 60000000000 0 0 0 0) in
  doorkeeper (shouldAdmit (clock_at 10) a 1234 1 1).1 = doorkeeper a.
Proof.
  intros a. pose proof (scan_leaves_no_trace (clock_at 10) a 1234 1 1) as H.
  destruct (shouldAdmit (clock_at 10) a 1234 1 1) as [a' b]. apply H; vm_compute; reflexivity.
Defined.

(** The lottery is monotone in the probability: a hash accepted at some percentage is
    accepted at every higher one, from never at 0 to always at 100. *)
Theorem acceptWithProb_monotone (h p q : Z) :
  0 ≤ p ≤ q → q < 2 ^ 32 → acceptWithProb h p = true → acceptWithProb h q = true.
Proof.
  intros Hpq Hq. unfold acceptWithProb.
  destruct (Z.leb_spec 100 q); [done|]. destruct (Z.leb_spec 100 p); [lia|].
  destruct (Z.eqb_spec p 0); [done|]. destruct (Z.eqb_spec q 0); [lia|].
  rewrite !u64_id by (unfold is_u64; lia).
  assert (∀ x, 0 ≤ x < 100 → u32 (x * 2 ^ 32 / 100) = x * 2 ^ 32 / 100) as Hid.
  { intros x Hx. apply u32_id. split; [apply Z.div_pos; lia|].
    apply Z.div_lt_upper_bound; lia. }
  rewrite !Hid, !Z.ltb_lt by lia.
  pose proof (Z.div_le_mono (p * 2 ^ 32) (q * 2 ^ 32) 100). lia.
Qed.

Lemma acceptWithProb_monotone_witness :
  acceptWithProb 0 5 = true ∧ acceptWithProb 0 70 = true.
Proof.
  split; [vm_compute; reflexivity|].
  apply (acceptWithProb_monotone 0 5 70); [lia|lia|vm_compute; reflexivity].
Defined.

(** The penalty for a frequent victim is capped: for a candidate seen at most twice,
    every victim frequency from 5 up leads to the same decision, so the probability is
    lowered by 50 points at most. *)
Theorem victim_penalty_capped (now : Z) (a : adaptiveAdmissionFilter) (k nf v v' va : Z) :
  nf < frequencyThreshold → 5 ≤ v → 5 ≤ v' →
  makeAdmissionDecision now a k nf v va = makeAdmissionDecision now a k nf v' va.
Proof.
  unfold frequencyThreshold. intros Hnf Hv Hv'. unfold makeAdmissionDecision, frequencyThreshold.
  destruct (Z.leb_spec 3 nf), (Z.ltb_spec v nf), (Z.ltb_spec v' nf),
    (Z.eqb_spec nf v), (Z.eqb_spec nf v'); try lia. cbn [andb].
  assert (∀ x, 5 ≤ x → (if 5 <? x then 5 else x) = 5) as Hcap by (intros; zcase; lia).
  by rewrite !Hcap.
Qed.

Lemma victim_penalty_capped_witness :
  let a := newAdaptiveAdmissionFilter (clock_at 0) 1024 60 0 0 0 0 in
  makeAdmissionDecision 1 a 33 1 9 0 = makeAdmissionDecision 1 a 33 1 5 0.
Proof. intros a. apply victim_penalty_capped; unfold frequencyThreshold; lia. Defined.
End Admission.
