(* ===== verification/Dll.v ===== *)
(** * Doubly linked nodes in a store

    Both intrusive lists of the program, the recency list of a shard ([src/shard.go]) and the
    frequency buckets of the LFU index ([src/lfu.go]), are nodes with a [prev] and a [next]
    pointer.  Pointers are locations of a store; [nil] is [None].  This file states what the
    two share: a node interface, the pointer writes, and the chain predicate with its two
    splicing lemmas, from which the components derive their list operations. *)
From stdpp Require Import base gmap list.
From S2P Require Import Prelude.

Abbreviation loc := positive.

(** What a node type offers: its two links, and their assignment. *)
Class Linked (node : Type) := {
  nprev : node → option loc;
  nnext : node → option loc;
  put_prev : option loc → node → node;
  put_next : option loc → node → node }.

Class LinkedLaws (node : Type) `{!Linked node} := {
  nprev_put_prev p n : nprev (put_prev p n) = p;
  nnext_put_prev p n : nnext (put_prev p n) = nnext n;
  nprev_put_next p n : nprev (put_next p n) = nprev n;
  nnext_put_next p n : nnext (put_next p n) = p;
  put_prev_next p q n : put_prev p (put_next q n) = put_next q (put_prev p n) }.

(** ** Lists of locations *)
Section Lists.
Implicit Types a b x l : loc.

Lemma elem_of_removelast (ls : list loc) l : l ∈ removelast ls → l ∈ ls.
Proof.
  induction ls as [|c [|d ls] IH]; simpl; [done|intros []%elem_of_nil|].
  intros [->|Hl]%elem_of_cons; [left|right; by apply IH].
Qed.

Lemma elem_of_tail (ls : list loc) l : l ∈ tail ls → l ∈ ls.
Proof. destruct ls; [done|]. by right. Qed.

Lemma removelast_snoc (ls : list loc) l : removelast (ls ++ [l]) = ls.
Proof. apply removelast_last. Qed.

(** The lists may be circular, so the first and the last node may coincide: what matters is
    that no other node is repeated. *)
Lemma elem_of_split_ne (ls1 ls2 : list loc) a x b l :
  NoDup (removelast (ls1 ++ a :: x :: b :: ls2)) → NoDup (tail (ls1 ++ a :: x :: b :: ls2)) →
  a ≠ x ∧ b ≠ x ∧
  (l ∈ ls1 ∨ l ∈ removelast (b :: ls2) → l ≠ a ∧ l ≠ x) ∧
  (l ∈ tail (ls1 ++ [a]) ∨ l ∈ ls2 → l ≠ b ∧ l ≠ x).
Proof.
  rewrite removelast_app by done. intros H1 H2.
  change (removelast (a :: x :: b :: ls2)) with (a :: x :: removelast (b :: ls2)) in H1.
  apply NoDup_app in H1 as (_ & H1d & H1). apply NoDup_cons in H1 as [Ha H1].
  apply NoDup_cons in H1 as [Hx _].
  assert (tail (ls1 ++ a :: x :: b :: ls2) = tail (ls1 ++ [a]) ++ x :: b :: ls2) as E.
  { destruct ls1; simpl; [done|]. by rewrite <-app_assoc. }
  rewrite E in H2. apply NoDup_app in H2 as (_ & H2d & H2). apply NoDup_cons in H2 as [Hx' H2].
  apply NoDup_cons in H2 as [Hb _]. set_solver.
Qed.

Lemma NoDup_removelast_tail (ls : list loc) : NoDup ls → NoDup (removelast ls) ∧ NoDup (tail ls).
Proof.
  intros Hnd. split.
  - destruct ls as [|a ls] using rev_ind; [done|]. rewrite removelast_last.
    by apply NoDup_app in Hnd as [? _].
  - destruct ls; [done|]. by apply NoDup_cons in Hnd as [_ ?].
Qed.
End Lists.

Section Store.
Context {node : Type} `{Hlinked : !Linked node, Hlaws : !LinkedLaws node}.
Abbreviation store := (gmap loc node).
Implicit Types h : store.
Implicit Types a b x l : loc.
Implicit Types ls : list loc.

(** Reads and writes through a pointer that is not [nil]. *)
Definition get_prev (h : store) (l : loc) : option loc := h !! l ≫= nprev.
Definition get_next (h : store) (l : loc) : option loc := h !! l ≫= nnext.
Definition set_prev (h : store) (l : loc) (p : option loc) : store := alter (put_prev p) l h.
Definition set_next (h : store) (l : loc) (p : option loc) : store := alter (put_next p) l h.

(** The guarded writes [if p != nil { p.next = q }]. *)
Definition set_next_opt (h : store) (p q : option loc) : store :=
  match p with Some l => set_next h l q | None => h end.
Definition set_prev_opt (h : store) (p q : option loc) : store :=
  match p with Some l => set_prev h l q | None => h end.

Lemma get_next_set_next h l p l' :
  is_Some (h !! l) → get_next (set_next h l p) l' = if decide (l' = l) then p else get_next h l'.
Proof.
  intros [n Hn]. unfold get_next, set_next. case_decide; subst.
  - rewrite lookup_alter_eq, Hn. simpl. apply nnext_put_next.
  - by rewrite lookup_alter_ne by congruence.
Qed.
Lemma get_prev_set_prev h l p l' :
  is_Some (h !! l) → get_prev (set_prev h l p) l' = if decide (l' = l) then p else get_prev h l'.
Proof.
  intros [n Hn]. unfold get_prev, set_prev. case_decide; subst.
  - rewrite lookup_alter_eq, Hn. simpl. apply nprev_put_prev.
  - by rewrite lookup_alter_ne by congruence.
Qed.
Lemma get_next_set_prev h l p l' : get_next (set_prev h l p) l' = get_next h l'.
Proof.
  unfold get_next, set_prev. destruct (decide (l' = l)) as [->|].
  - rewrite lookup_alter_eq. destruct (h !! l); simpl; [apply nnext_put_prev|done].
  - by rewrite lookup_alter_ne by congruence.
Qed.
Lemma get_prev_set_next h l p l' : get_prev (set_next h l p) l' = get_prev h l'.
Proof.
  unfold get_prev, set_next. destruct (decide (l' = l)) as [->|].
  - rewrite lookup_alter_eq. destruct (h !! l); simpl; [apply nprev_put_next|done].
  - by rewrite lookup_alter_ne by congruence.
Qed.
Lemma set_next_is_Some h l p l' : is_Some (set_next h l p !! l') ↔ is_Some (h !! l').
Proof. apply lookup_alter_is_Some. Qed.
Lemma set_prev_is_Some h l p l' : is_Some (set_prev h l p !! l') ↔ is_Some (h !! l').
Proof. apply lookup_alter_is_Some. Qed.

(** ** Chains *)

(** [b] follows [a]: the links agree in both directions. *)
Definition edge (h : store) (a b : loc) : Prop :=
  get_next h a = Some b ∧ get_prev h b = Some a.

Fixpoint chain (h : store) (ls : list loc) : Prop :=
  match ls with
  | a :: (b :: _) as t => edge h a b ∧ chain h t
  | _ => True
  end.

Lemma chain_cons h a b ls : chain h (a :: b :: ls) ↔ edge h a b ∧ chain h (b :: ls).
Proof. done. Qed.

Lemma chain_app h ls a ls' : chain h (ls ++ a :: ls') ↔ chain h (ls ++ [a]) ∧ chain h (a :: ls').
Proof.
  induction ls as [|b ls IH]; [by simpl; destruct ls'; intuition|].
  destruct ls as [|c ls]; simpl in *.
  - tauto.
  - rewrite IH. tauto.
Qed.

(** A chain only looks at the [next] link of every node but the last, and at the [prev]
    link of every node but the first. *)
Lemma chain_frame h h' ls :
  (∀ l, l ∈ removelast ls → get_next h' l = get_next h l) →
  (∀ l, l ∈ tail ls → get_prev h' l = get_prev h l) →
  chain h ls → chain h' ls.
Proof.
  induction ls as [|a [|b ls] IH]; [done..|].
  intros Hn Hp [[Ha Hb] Hc]. split.
  - split.
    + rewrite Hn; [done|]. simpl. left.
    + rewrite Hp; [done|]. simpl. left.
  - apply IH; [|intros; apply Hp; simpl; by right|done].
    intros l Hl. apply Hn. simpl. by right.
Qed.

(** The general splice: any store in which the four links around [x] are right and all
    others of the chain are as before. *)
Lemma chain_splice h h' ls1 a x b ls2 :
  chain h (ls1 ++ a :: b :: ls2) →
  edge h' a x → edge h' x b →
  (∀ l, l ∈ ls1 ∨ l ∈ removelast (b :: ls2) → get_next h' l = get_next h l) →
  (∀ l, l ∈ tail (ls1 ++ [a]) ∨ l ∈ ls2 → get_prev h' l = get_prev h l) →
  chain h' (ls1 ++ a :: x :: b :: ls2).
Proof.
  rewrite chain_app, (chain_app h'), !chain_cons. intros (Hc1 & _ & Hc2) Eax Exb Hn Hp.
  split_and!; [|done..|].
  - eapply chain_frame, Hc1; [|naive_solver].
    intros l. rewrite removelast_snoc. naive_solver.
  - eapply chain_frame, Hc2; [naive_solver|]. intros l Hl. apply Hp. by right.
Qed.

Lemma chain_unsplice h h' ls1 a x b ls2 :
  chain h (ls1 ++ a :: x :: b :: ls2) →
  edge h' a b →
  (∀ l, l ∈ ls1 ∨ l ∈ removelast (b :: ls2) → get_next h' l = get_next h l) →
  (∀ l, l ∈ tail (ls1 ++ [a]) ∨ l ∈ ls2 → get_prev h' l = get_prev h l) →
  chain h' (ls1 ++ a :: b :: ls2).
Proof.
  rewrite chain_app, (chain_app h'), !chain_cons. intros (Hc1 & _ & _ & Hc2) Eab Hn Hp.
  split_and!; [|done|].
  - eapply chain_frame, Hc1; [|naive_solver].
    intros l. rewrite removelast_snoc. naive_solver.
  - eapply chain_frame, Hc2; [naive_solver|]. intros l Hl. apply Hp. by right.
Qed.

(** Where a node of a chain sits. *)
Lemma chain_split_at h ls1 a b ls2 :
  chain h (ls1 ++ a :: b :: ls2) → get_next h a = Some b ∧ get_prev h b = Some a.
Proof. rewrite chain_app, chain_cons. by intros (_ & E & _). Qed.

(** ** Unlinking and linking

    The two guarded writes that take [x] out of its list, and the four writes that put it
    behind [a]. *)
Definition unlink (h : store) (x : loc) : store :=
  let h := set_next_opt h (get_prev h x) (get_next h x) in
  set_prev_opt h (get_next h x) (get_prev h x).

Definition link_after (h : store) (a x : loc) : store :=
  let nxt := get_next h a in
  let h := set_next h a (Some x) in
  let h := set_prev h x (Some a) in
  let h := set_next h x nxt in
  set_prev_opt h nxt (Some x).

Lemma set_prev_next_comm h x p q : set_prev (set_next h x p) x q = set_next (set_prev h x q) x p.
Proof.
  apply map_eq. intros l. unfold set_prev, set_next. rewrite !lookup_alter.
  repeat case_decide; subst; [|done..]. destruct (h !! l); simpl; [|done]. by rewrite put_prev_next.
Qed.

Lemma chain_around h ls1 a x b ls2 :
  chain h (ls1 ++ a :: x :: b :: ls2) → get_prev h x = Some a ∧ get_next h x = Some b.
Proof.
  intros Hc. split; [by apply chain_split_at in Hc as [_ ?]|].
  change (a :: x :: b :: ls2) with ([a] ++ x :: b :: ls2) in Hc.
  rewrite app_assoc in Hc. by apply chain_split_at in Hc as [? _].
Qed.
End Store.

(** Evaluate a link after a series of writes; the locations written to are in the store. *)
Ltac dll_some :=
  repeat first [apply set_next_is_Some | apply set_prev_is_Some]; eauto.
Ltac dll_simpl :=
  repeat first
    [ rewrite get_next_set_prev | rewrite get_prev_set_next
    | rewrite get_next_set_next by dll_some | rewrite get_prev_set_prev by dll_some ].

Section Splice.
Context {node : Type} `{Hlinked : !Linked node, Hlaws : !LinkedLaws node}.
Implicit Types h : gmap loc node.

Lemma chain_unlink h ls1 a x b ls2 :
  chain h (ls1 ++ a :: x :: b :: ls2) →
  NoDup (removelast (ls1 ++ a :: x :: b :: ls2)) → NoDup (tail (ls1 ++ a :: x :: b :: ls2)) →
  is_Some (h !! a) → is_Some (h !! b) →
  chain (unlink h x) (ls1 ++ a :: b :: ls2).
Proof.
  intros Hc N1 N2 Ha Hb. destruct (chain_around _ _ _ _ _ _ Hc) as [Hp Hn].
  pose proof (λ l, elem_of_split_ne ls1 ls2 a x b l N1 N2) as Hne.
  destruct (Hne a) as (Hax & Hbx & _).
  assert (unlink h x = set_prev (set_next h a (Some b)) b (Some a)) as ->.
  { unfold unlink. rewrite Hp, Hn. cbn [set_next_opt]. dll_simpl.
    rewrite decide_False by congruence. by rewrite Hn, Hp. }
  apply (chain_unsplice h _ _ _ x); [done|..].
  - unfold edge. dll_simpl. by rewrite !decide_True.
  - intros l Hl. destruct (Hne l) as (_ & _ & Hl' & _). dll_simpl. rewrite decide_False; naive_solver.
  - intros l Hl. destruct (Hne l) as (_ & _ & _ & Hl'). dll_simpl. rewrite decide_False; naive_solver.
Qed.

Lemma chain_link h ls1 a x b ls2 :
  chain h (ls1 ++ a :: b :: ls2) →
  NoDup (removelast (ls1 ++ a :: x :: b :: ls2)) → NoDup (tail (ls1 ++ a :: x :: b :: ls2)) →
  is_Some (h !! a) → is_Some (h !! x) → is_Some (h !! b) →
  chain (link_after h a x) (ls1 ++ a :: x :: b :: ls2).
Proof.
  intros Hc N1 N2 Ha Hx Hb. destruct (chain_split_at _ _ _ _ _ Hc) as [Hn _].
  pose proof (λ l, elem_of_split_ne ls1 ls2 a x b l N1 N2) as Hne.
  destruct (Hne a) as (Hax & Hbx & _). unfold link_after. rewrite Hn. cbn [set_prev_opt].
  apply (chain_splice h); [done|..].
  - unfold edge. dll_simpl. rewrite (decide_False (P := a = x)), (decide_False (P := x = b)) by congruence.
    by rewrite !decide_True.
  - unfold edge. dll_simpl. by rewrite !decide_True.
  - intros l Hl. destruct (Hne l) as (_ & _ & Hl' & _). dll_simpl. rewrite !decide_False; naive_solver.
  - intros l Hl. destruct (Hne l) as (_ & _ & _ & Hl'). dll_simpl. rewrite !decide_False; naive_solver.
Qed.

Lemma unlink_frame h ls1 a x b ls2 l :
  chain h (ls1 ++ a :: x :: b :: ls2) → a ≠ x → is_Some (h !! a) → l ≠ a → l ≠ b →
  unlink h x !! l = h !! l.
Proof.
  intros Hc Hax Ha Hl1 Hl2. destruct (chain_around _ _ _ _ _ _ Hc) as [Hp Hn].
  unfold unlink. rewrite Hp, Hn. cbn [set_next_opt]. dll_simpl. rewrite decide_False by congruence.
  rewrite Hn, Hp. cbn [set_prev_opt]. unfold set_prev, set_next.
  by rewrite !lookup_alter_ne by congruence.
Qed.

Lemma link_after_frame h ls1 a x b ls2 l :
  chain h (ls1 ++ a :: b :: ls2) → l ≠ a → l ≠ x → l ≠ b → link_after h a x !! l = h !! l.
Proof.
  intros Hc Hl1 Hl2 Hl3. destruct (chain_split_at _ _ _ _ _ Hc) as [Hn _].
  unfold link_after. rewrite Hn. cbn [set_prev_opt]. unfold set_prev, set_next.
  by rewrite !lookup_alter_ne by congruence.
Qed.

End Splice.
