(* ===== verification/Lru.v ===== *)
(** * Items and the intrusive recency list ([src/cache.go] [cacheItem], [src/shard.go])

    [cacheItem] nodes live in one store shared by all shards of a cache (they are recycled
    through one pool); a shard's list runs between its two sentinels.  [lru] relates the
    pointers to the sequence of items they stand for, most recent first, and the lemmas
    show what each pointer routine does to that sequence. *)
From Stdlib Require Import ZArith Lia.
From stdpp Require Import base numbers gmap list.
From S2P Require Import Prelude Dll.
Local Open Scope Z_scope.

Record cacheItem (K V : Type) := Item {
  value : V;
  expireTime : Z;
  lastAccess : Z;
  frequency : Z;
  prev : option loc;
  next : option loc;
  key : option K }.
Arguments Item {K V}.
Arguments value {K V}.
Arguments expireTime {K V}.
Arguments lastAccess {K V}.
Arguments frequency {K V}.
Arguments prev {K V}.
Arguments next {K V}.
Arguments key {K V}.

#[export] Instance cacheItem_linked K V : Linked (cacheItem K V) := {|
  nprev := prev;
  nnext := next;
  put_prev p it := Item (value it) (expireTime it) (lastAccess it) (frequency it) p (next it) (key it);
  put_next p it := Item (value it) (expireTime it) (lastAccess it) (frequency it) (prev it) p (key it) |}.
#[export] Instance cacheItem_laws K V : LinkedLaws (cacheItem K V).
Proof. done. Qed.

Section Lru.
Context {K V : Type} {zeroV : Inhabited V}.
Abbreviation item := (cacheItem K V).
Abbreviation heap := (gmap loc item).
Implicit Types h : heap.
Implicit Types x head tail : loc.
Implicit Types L : list loc.

(** [&cacheItem[V]{}]: the zero value of every field. *)
Definition zeroItem : item := Item inhabitant 0 0 0 None None None.

Definition alloc (h : heap) (it : item) : heap * loc :=
  let l := fresh (dom h) in (<[l := it]> h, l).

(** The new store and the two sentinels. *)
Definition initLRU (h : heap) : heap * loc * loc :=
  let '(h, head) := alloc h zeroItem in
  let '(h, tail) := alloc h zeroItem in
  let h := set_next h head (Some tail) in
  let h := set_prev h tail (Some head) in
  (h, head, tail).

Definition addToLRUHead (h : heap) (head item : loc) : heap :=
  let oldNext := get_next h head in
  let h := set_next h head (Some item) in
  let h := set_next h item oldNext in
  let h := set_prev h item (Some head) in
  set_prev_opt h oldNext (Some item).

Definition removeFromLRU (h : heap) (item : loc) : heap :=
  let h := set_next_opt h (get_prev h item) (get_next h item) in
  let h := set_prev_opt h (get_next h item) (get_prev h item) in
  let h := set_prev h item None in
  set_next h item None.

Definition moveToLRUHead (h : heap) (head item : loc) : heap :=
  if bool_decide (get_next h head = Some item) then h
  else
    let h := set_next_opt h (get_prev h item) (get_next h item) in
    let h := set_prev_opt h (get_next h item) (get_prev h item) in
    let oldNext := get_next h head in
    let h := set_next h head (Some item) in
    let h := set_prev h item (Some head) in
    let h := set_next h item oldNext in
    set_prev_opt h oldNext (Some item).

(** ** The list the pointers stand for *)
Definition lru (h : heap) (head tail : loc) (L : list loc) : Prop :=
  chain h (head :: L ++ [tail]) ∧ NoDup (head :: L ++ [tail]) ∧
  ∀ l, l ∈ head :: L ++ [tail] → is_Some (h !! l).

(** Same contents up to the links. *)
Definition payload (it : item) : V * Z * Z * Z * option K :=
  (value it, expireTime it, lastAccess it, frequency it, key it).
Definition same_payload (h h' : heap) : Prop := ∀ l, payload <$> h' !! l = payload <$> h !! l.

#[global] Instance same_payload_refl : Reflexive same_payload.
Proof. by intros ? ?. Qed.
#[global] Instance same_payload_trans : Transitive same_payload.
Proof. intros a b c H1 H2 l. by rewrite H2. Qed.

Lemma set_next_payload h l p : same_payload h (set_next h l p).
Proof.
  intros l'. unfold set_next. rewrite lookup_alter. case_decide; subst; [|done].
  by destruct (h !! l').
Qed.
Lemma set_prev_payload h l p : same_payload h (set_prev h l p).
Proof.
  intros l'. unfold set_prev. rewrite lookup_alter. case_decide; subst; [|done].
  by destruct (h !! l').
Qed.
Lemma set_next_opt_payload h o p : same_payload h (set_next_opt h o p).
Proof. destruct o; [apply set_next_payload|done]. Qed.
Lemma set_prev_opt_payload h o p : same_payload h (set_prev_opt h o p).
Proof. destruct o; [apply set_prev_payload|done]. Qed.
Hint Resolve set_next_payload set_prev_payload set_next_opt_payload set_prev_opt_payload : core.

Lemma addToLRUHead_payload h head x : same_payload h (addToLRUHead h head x).
Proof. unfold addToLRUHead. repeat (etrans; [|by eauto]). done. Qed.
Lemma removeFromLRU_payload h x : same_payload h (removeFromLRU h x).
Proof. unfold removeFromLRU. repeat (etrans; [|by eauto]). done. Qed.
Lemma moveToLRUHead_payload h head x : same_payload h (moveToLRUHead h head x).
Proof. unfold moveToLRUHead. case_bool_decide; [done|]. repeat (etrans; [|by eauto]). done. Qed.

Lemma same_payload_is_Some h h' l : same_payload h h' → is_Some (h' !! l) ↔ is_Some (h !! l).
Proof. intros E. specialize (E l). destruct (h !! l), (h' !! l); naive_solver. Qed.

(** ** What the routines do to the list *)
Lemma alloc_spec h it h' l :
  alloc h it = (h', l) → h !! l = None ∧ h' = <[l := it]> h.
Proof.
  unfold alloc. intros [= <- <-]. split; [|done].
  apply not_elem_of_dom. apply is_fresh.
Qed.

Lemma initLRU_spec h h' head tail :
  initLRU h = (h', head, tail) →
  h !! head = None ∧ h !! tail = None ∧ lru h' head tail [] ∧
  ∀ l, l ≠ head → l ≠ tail → h' !! l = h !! l.
Proof.
  unfold initLRU. destruct (alloc h zeroItem) as [h1 a] eqn:E1.
  destruct (alloc h1 zeroItem) as [h2 b] eqn:E2. intros [= <- <- <-].
  apply alloc_spec in E1 as [Ha ->]. apply alloc_spec in E2 as [Hb ->].
  apply lookup_insert_None in Hb as [Hb Hab].
  assert (is_Some ((<[b:=zeroItem]> (<[a:=zeroItem]> h) : heap) !! a)) as Ia.
  { rewrite lookup_insert_ne, lookup_insert_eq by done. eauto. }
  assert (is_Some ((<[b:=zeroItem]> (<[a:=zeroItem]> h) : heap) !! b)) as Ib.
  { rewrite lookup_insert_eq. eauto. }
  split; [done|]. split; [done|]. split; [split; [|split]|].
  - simpl. split; [|done]. unfold edge. dll_simpl. by rewrite !decide_True.
  - simpl. repeat constructor; set_solver.
  - intros l. simpl. rewrite !elem_of_cons, elem_of_nil.
    intros [->|[->|[]]]; dll_some.
  - intros l Hla Hlb. unfold set_prev, set_next.
    by rewrite !lookup_alter_ne, !lookup_insert_ne by congruence.
Qed.

Lemma lru_first h head tail L :
  lru h head tail L → ∃ b rest, L ++ [tail] = b :: rest ∧ get_next h head = Some b.
Proof.
  intros [Hc _]. destruct (L ++ [tail]) as [|b rest] eqn:E.
  { by destruct L. }
  exists b, rest. split; [done|]. by apply (chain_split_at h [] head b rest).
Qed.

Lemma addToLRUHead_link h head x : addToLRUHead h head x = link_after h head x.
Proof. unfold addToLRUHead, link_after. by rewrite set_prev_next_comm. Qed.

Lemma lru_add h head tail L x :
  lru h head tail L → is_Some (h !! x) → x ∉ head :: L ++ [tail] →
  lru (addToLRUHead h head x) head tail (x :: L).
Proof.
  intros Hlru Hx Hnx. destruct (lru_first _ _ _ _ Hlru) as (b & rest & E & Hb).
  destruct Hlru as (Hc & Hnd & Hdom). unfold lru. cbn [app]. rewrite E in *.
  assert (NoDup (head :: x :: b :: rest)) as Hnd'.
  { apply NoDup_cons in Hnd as [Hh Hnd]. apply NoDup_cons. split; [set_solver|].
    apply NoDup_cons. split; [set_solver|done]. }
  split; [|split; [done|]].
  - rewrite addToLRUHead_link. apply NoDup_removelast_tail in Hnd' as [N1 N2].
    apply (chain_link h []); try done; apply Hdom; set_solver.
  - intros l Hl. apply (same_payload_is_Some h); [apply addToLRUHead_payload|].
    apply elem_of_cons in Hl as [->|[->|Hl]%elem_of_cons]; [|done|]; apply Hdom; [left|by right].
Qed.

(** An element of the list has a predecessor and a successor among the nodes. *)
Lemma lru_around h head tail L1 x L2 :
  lru h head tail (L1 ++ x :: L2) →
  ∃ ls1 a b ls2,
    head :: L1 = ls1 ++ [a] ∧ L2 ++ [tail] = b :: ls2 ∧
    head :: (L1 ++ x :: L2) ++ [tail] = ls1 ++ a :: x :: b :: ls2 ∧
    head :: (L1 ++ L2) ++ [tail] = ls1 ++ a :: b :: ls2 ∧
    get_prev h x = Some a ∧ get_next h x = Some b.
Proof.
  intros (Hc & _).
  destruct (exists_last (l := head :: L1)) as (ls1 & a & E1); [done|].
  destruct (L2 ++ [tail]) as [|b ls2] eqn:E2; [by destruct L2|].
  assert (head :: (L1 ++ x :: L2) ++ [tail] = ls1 ++ a :: x :: b :: ls2) as E.
  { rewrite <-!app_assoc. cbn. rewrite E2.
    change (head :: L1 ++ x :: b :: ls2) with ((head :: L1) ++ x :: b :: ls2).
    by rewrite E1, <-app_assoc. }
  exists ls1, a, b, ls2. split_and!; try done.
  - rewrite <-app_assoc, E2. change (head :: L1 ++ b :: ls2) with ((head :: L1) ++ b :: ls2).
    by rewrite E1, <-app_assoc.
  - rewrite E in Hc. by apply chain_split_at in Hc as [_ ?].
  - rewrite E in Hc. change (a :: x :: b :: ls2) with ([a] ++ x :: b :: ls2) in Hc.
    rewrite app_assoc in Hc. by apply chain_split_at in Hc as [? _].
Qed.

Lemma unlink_payload h x : same_payload h (unlink h x).
Proof. unfold unlink. repeat (etrans; [|by eauto]). done. Qed.

Lemma lru_unlink h head tail L1 x L2 :
  lru h head tail (L1 ++ x :: L2) → lru (unlink h x) head tail (L1 ++ L2).
Proof.
  intros Hlru. destruct (lru_around _ _ _ _ _ _ Hlru) as (ls1 & a & b & ls2 & E1 & E2 & E & E' & Hp & Hn).
  destruct Hlru as (Hc & Hnd & Hdom). unfold lru. rewrite E' in *. rewrite E in Hc, Hnd, Hdom.
  split; [|split].
  - apply NoDup_removelast_tail in Hnd as [N1 N2].
    apply chain_unlink; try done; apply Hdom; set_solver.
  - change (a :: x :: b :: ls2) with ([a] ++ x :: b :: ls2) in Hnd.
    rewrite app_assoc, <-Permutation_middle, <-app_assoc in Hnd. by apply NoDup_cons in Hnd as [_ ?].
  - intros l Hl. apply (same_payload_is_Some h); [apply unlink_payload|].
    apply Hdom. set_solver.
Qed.

(** The list only depends on the links of its own nodes. *)
Lemma lru_frame h h' head tail L :
  (∀ l, l ∈ head :: L ++ [tail] → get_next h' l = get_next h l ∧ get_prev h' l = get_prev h l ∧
     (is_Some (h !! l) → is_Some (h' !! l))) →
  lru h head tail L → lru h' head tail L.
Proof.
  intros Hf (Hc & Hnd & Hdom). split; [|split; [done|]].
  - eapply chain_frame, Hc.
    + intros l Hl%elem_of_removelast. by apply Hf.
    + intros l Hl. apply Hf. right. exact Hl.
  - intros l Hl. apply Hf; [done|]. by apply Hdom.
Qed.

Lemma NoDup_lru_elem (head tail : loc) L1 x L2 :
  NoDup (head :: (L1 ++ x :: L2) ++ [tail]) →
  (x ∉ head :: (L1 ++ L2) ++ [tail]) ∧ x ≠ head ∧ x ≠ tail.
Proof.
  intros Hnd. assert (head :: (L1 ++ x :: L2) ++ [tail] ≡ₚ x :: head :: (L1 ++ L2) ++ [tail]) as HP.
  { rewrite <-(Permutation_middle L1 L2 x). simpl. apply Permutation_swap. }
  rewrite HP in Hnd. apply NoDup_cons in Hnd as [Hx _]. split; [done|]. set_solver.
Qed.

Lemma lru_remove h head tail L1 x L2 :
  lru h head tail (L1 ++ x :: L2) → lru (removeFromLRU h x) head tail (L1 ++ L2).
Proof.
  intros Hlru. pose proof (lru_unlink _ _ _ _ _ _ Hlru) as Hu.
  destruct Hlru as (_ & Hnd & Hdom). apply NoDup_lru_elem in Hnd as [Hx _].
  assert (is_Some (unlink h x !! x)).
  { apply (same_payload_is_Some h); [apply unlink_payload|]. apply Hdom. set_solver. }
  eapply lru_frame, Hu. change (removeFromLRU h x) with (set_next (set_prev (unlink h x) x None) x None).
  intros l Hl. assert (l ≠ x) by (intros ->; done). dll_simpl. rewrite !decide_False by done.
  split; [done|]. split; [done|]. intros. apply set_next_is_Some, set_prev_is_Some. done.
Qed.

Lemma moveToLRUHead_eq h head x :
  get_next h head ≠ Some x → moveToLRUHead h head x = addToLRUHead (unlink h x) head x.
Proof.
  intros Hne. unfold moveToLRUHead, addToLRUHead. rewrite bool_decide_eq_false_2 by done.
  by rewrite set_prev_next_comm.
Qed.

Lemma lru_move h head tail L1 x L2 :
  lru h head tail (L1 ++ x :: L2) → lru (moveToLRUHead h head x) head tail (x :: L1 ++ L2).
Proof.
  intros Hlru. destruct (decide (get_next h head = Some x)) as [E|E].
  - unfold moveToLRUHead. rewrite bool_decide_eq_true_2 by done.
    destruct (lru_first _ _ _ _ Hlru) as (b & rest & E1 & E2). simplify_eq.
    destruct L1 as [|y L1]; [done|]. simpl in E1. injection E1 as -> _.
    destruct Hlru as (_ & Hnd & _). apply NoDup_cons in Hnd as [_ Hnd].
    simpl in Hnd. apply NoDup_cons in Hnd as [Hnd _]. set_solver.
  - rewrite moveToLRUHead_eq by done. pose proof (lru_unlink _ _ _ _ _ _ Hlru) as Hu.
    destruct Hlru as (_ & Hnd & Hdom). apply lru_add; [done|..].
    + apply (same_payload_is_Some h); [apply unlink_payload|]. apply Hdom. set_solver.
    + by apply NoDup_lru_elem in Hnd as [? _].
Qed.

(** [tail.prev] is the oldest item, or [head] when there is none. *)
Lemma lru_last h head tail L :
  lru h head tail L →
  get_prev h tail = match last L with Some x => Some x | None => Some head end.
Proof.
  intros (Hc & _). destruct L as [|y L'] using rev_ind.
  - by apply (chain_split_at h [] head tail []) in Hc as [_ ?].
  - rewrite last_snoc, <-app_assoc in *. simpl in Hc.
    by apply (chain_split_at h (head :: L') y tail []) in Hc as [_ ?].
Qed.

(** ** Frames: the routines write to nodes of the list and to the item only *)
Lemma set_next_frame h l p l' : l' ≠ l → set_next h l p !! l' = h !! l'.
Proof. intros. unfold set_next. by rewrite lookup_alter_ne by congruence. Qed.
Lemma set_prev_frame h l p l' : l' ≠ l → set_prev h l p !! l' = h !! l'.
Proof. intros. unfold set_prev. by rewrite lookup_alter_ne by congruence. Qed.

Lemma addToLRUHead_frame h head tail L x l :
  lru h head tail L → (l ∉ head :: L ++ [tail]) → l ≠ x → addToLRUHead h head x !! l = h !! l.
Proof.
  intros Hlru Hl Hx. destruct (lru_first _ _ _ _ Hlru) as (b & rest & E1 & E2).
  destruct Hlru as (Hc & _). rewrite E1 in Hl, Hc. rewrite addToLRUHead_link.
  apply (link_after_frame h [] head x b rest); [done|set_solver..].
Qed.

Lemma unlink_lru_frame h head tail L1 x L2 l :
  lru h head tail (L1 ++ x :: L2) → (l ∉ head :: (L1 ++ x :: L2) ++ [tail]) →
  unlink h x !! l = h !! l.
Proof.
  intros Hlru Hl. destruct (lru_around _ _ _ _ _ _ Hlru) as (ls1 & a & b & ls2 & _ & _ & E & _ & Hp & Hn).
  destruct Hlru as (Hc & Hnd & Hdom). rewrite E in Hl, Hc, Hnd, Hdom.
  apply NoDup_removelast_tail in Hnd as [N1 N2].
  destruct (elem_of_split_ne ls1 ls2 a x b l N1 N2) as (Hax & _).
  apply (unlink_frame h ls1 a x b ls2); try done; [apply Hdom|..]; set_solver.
Qed.

Lemma removeFromLRU_frame h head tail L1 x L2 l :
  lru h head tail (L1 ++ x :: L2) → (l ∉ head :: (L1 ++ x :: L2) ++ [tail]) →
  removeFromLRU h x !! l = h !! l.
Proof.
  intros Hlru Hl. change (removeFromLRU h x) with (set_next (set_prev (unlink h x) x None) x None).
  assert (l ≠ x) by set_solver. rewrite set_next_frame, set_prev_frame by done.
  by eapply unlink_lru_frame.
Qed.

Lemma moveToLRUHead_frame h head tail L1 x L2 l :
  lru h head tail (L1 ++ x :: L2) → (l ∉ head :: (L1 ++ x :: L2) ++ [tail]) →
  moveToLRUHead h head x !! l = h !! l.
Proof.
  intros Hlru Hl. destruct (decide (get_next h head = Some x)) as [E|E].
  { unfold moveToLRUHead. by rewrite bool_decide_eq_true_2. }
  rewrite moveToLRUHead_eq by done. erewrite addToLRUHead_frame.
  - by eapply unlink_lru_frame.
  - by eapply lru_unlink.
  - set_solver.
  - set_solver.
Qed.
End Lru.
