(* ===== verification/Lfu.v ===== *)
(** * The LFU index ([src/lfu.go])

    A circular, doubly linked list of frequency buckets in ascending order behind a sentinel,
    a map from frequencies to buckets and a map from items to buckets.  [freqNode]s are
    locations of the list's own store [fnodes]; items are locations of the shared item store.
    The component's contract is that the whole structure is a finite map from items to
    frequencies ([lfu_rep l F]); each operation is a map operation on [F], and the victim of
    [removeLFU] is an item of least frequency. *)
From Stdlib Require Import ZArith Lia Sorted.
From stdpp Require Import base numbers gmap list sets sorting.
From S2P Require Import Prelude Dll Lru.
Local Open Scope Z_scope.

Record freqNode := FreqNode {
  freq : Z;
  items : gset loc;
  fprev : option loc;
  fnext : option loc }.

#[export] Instance freqNode_linked : Linked freqNode := {|
  nprev := fprev;
  nnext := fnext;
  put_prev p n := FreqNode (freq n) (items n) p (fnext n);
  put_next p n := FreqNode (freq n) (items n) (fprev n) p |}.
#[export] Instance freqNode_laws : LinkedLaws freqNode.
Proof. done. Qed.

Record lfuList := LfuList {
  lhead : loc;
  fnodes : gmap loc freqNode;
  freqMap : gmap Z loc;
  itemFreq : gmap loc loc }.

(** Reads of [node.freq] and [node.items]. *)
Definition fq (fn : gmap loc freqNode) (b : loc) : Z := from_option freq 0 (fn !! b).
Definition its (fn : gmap loc freqNode) (b : loc) : gset loc := from_option items ∅ (fn !! b).
(** [node.items[item] = struct{}{}] and [delete(node.items, item)]. *)
Definition put_item (fn : gmap loc freqNode) (b x : loc) : gmap loc freqNode :=
  alter (λ n, FreqNode (freq n) ({[x]} ∪ items n) (fprev n) (fnext n)) b fn.
Definition del_item (fn : gmap loc freqNode) (b x : loc) : gmap loc freqNode :=
  alter (λ n, FreqNode (freq n) (items n ∖ {[x]}) (fprev n) (fnext n)) b fn.

Definition newLFUList : lfuList :=
  let head := 1%positive in
  let fn := {[head := FreqNode 0 ∅ None None]} in
  let fn := set_next fn head (Some head) in
  let fn := set_prev fn head (Some head) in
  LfuList head fn ∅ ∅.

Definition ensureIndex (l : lfuList) (prev : loc) (f : Z) : lfuList * loc :=
  match freqMap l !! f with
  | Some node => (l, node)
  | None =>
      let newNode := fresh (dom (fnodes l)) in
      let fn := <[newNode := FreqNode f ∅ None None]> (fnodes l) in
      let nxt := get_next fn prev in
      let fn := set_next fn prev (Some newNode) in
      let fn := set_prev fn newNode (Some prev) in
      let fn := set_next fn newNode nxt in
      let fn := set_prev_opt fn nxt (Some newNode) in
      (LfuList (lhead l) fn (<[f := newNode]> (freqMap l)) (itemFreq l), newNode)
  end.

(** [None]: the previous bucket is missing and the code dereferences [nil]. *)
Definition getOrCreateFreqNode (l : lfuList) (f : Z) : option (lfuList * loc) :=
  if f =? 1 then Some (ensureIndex l (lhead l) 1)
  else
    match freqMap l !! i64 (f - 1) with
    | Some prev => Some (ensureIndex l prev f)
    | None => match freqMap l !! f with Some node => Some (l, node) | None => None end
    end.

Definition removeFreqNode (l : lfuList) (node : loc) : lfuList :=
  let fn := fnodes l in
  let fn := set_next_opt fn (get_prev fn node) (get_next fn node) in
  let fn := set_prev_opt fn (get_next fn node) (get_prev fn node) in
  LfuList (lhead l) fn (delete (fq fn node) (freqMap l)) (itemFreq l).

Section Ops.
Context {K V : Type}.
Abbreviation heap := (gmap loc (cacheItem K V)).

(** [item.frequency = f]. *)
Definition set_frequency (h : heap) (x : loc) (f : Z) : heap :=
  alter (λ it, Item (value it) (expireTime it) (lastAccess it) f (prev it) (next it) (key it)) x h.

Definition add (h : heap) (l : lfuList) (item : loc) : heap * lfuList :=
  let f := 1 in
  let h := set_frequency h item f in
  match getOrCreateFreqNode l f with
  | Some (l, node) =>
      (h, LfuList (lhead l) (put_item (fnodes l) node item) (freqMap l) (<[item := node]> (itemFreq l)))
  | None => (h, l)
  end.

Definition increment (h : heap) (l : lfuList) (item : loc) : heap * lfuList :=
  match itemFreq l !! item with
  | None => add h l item
  | Some cur =>
      let newFreq := i64 (fq (fnodes l) cur + 1) in
      let l := LfuList (lhead l) (del_item (fnodes l) cur item) (freqMap l) (itemFreq l) in
      let '(l, target) :=
        match get_next (fnodes l) cur with
        | Some nxt =>
            if negb (bool_decide (nxt = lhead l)) && (fq (fnodes l) nxt =? newFreq)
            then (l, nxt)
            else ensureIndex l cur newFreq
        | None => ensureIndex l cur newFreq
        end in
      let l := LfuList (lhead l) (put_item (fnodes l) target item) (freqMap l)
                 (<[item := target]> (itemFreq l)) in
      let h := set_frequency h item newFreq in
      let l :=
        if bool_decide (its (fnodes l) cur = ∅) && negb (fq (fnodes l) cur =? 0)
        then removeFreqNode l cur else l in
      (h, l)
  end.
End Ops.

Definition removeLFU (o : rangeOrder) (l : lfuList) : lfuList * option loc :=
  match get_next (fnodes l) (lhead l) with
  | None => (l, None)
  | Some node =>
      if bool_decide (node = lhead l) then (l, None)
      else
        let victim := head (range o (elements (its (fnodes l) node))) in
        let l :=
          match victim with
          | Some v => LfuList (lhead l) (del_item (fnodes l) node v) (freqMap l) (delete v (itemFreq l))
          | None => l
          end in
        let l := if bool_decide (its (fnodes l) node = ∅) then removeFreqNode l node else l in
        (l, victim)
  end.

Definition remove (l : lfuList) (item : loc) : lfuList :=
  match itemFreq l !! item with
  | None => l
  | Some node =>
      let l := LfuList (lhead l) (del_item (fnodes l) node item) (freqMap l) (delete item (itemFreq l)) in
      if bool_decide (its (fnodes l) node = ∅) && negb (fq (fnodes l) node =? 0)
      then removeFreqNode l node else l
  end.

(** ** Reads after writes *)
Section Reads.
Implicit Types fn : gmap loc freqNode.
Implicit Types b x : loc.

Lemma fq_set_next fn l p b : fq (set_next fn l p) b = fq fn b.
Proof. unfold fq, set_next. rewrite lookup_alter. case_decide; subst; [|done]. by destruct (fn !! b). Qed.
Lemma fq_set_prev fn l p b : fq (set_prev fn l p) b = fq fn b.
Proof. unfold fq, set_prev. rewrite lookup_alter. case_decide; subst; [|done]. by destruct (fn !! b). Qed.
Lemma its_set_next fn l p b : its (set_next fn l p) b = its fn b.
Proof. unfold its, set_next. rewrite lookup_alter. case_decide; subst; [|done]. by destruct (fn !! b). Qed.
Lemma its_set_prev fn l p b : its (set_prev fn l p) b = its fn b.
Proof. unfold its, set_prev. rewrite lookup_alter. case_decide; subst; [|done]. by destruct (fn !! b). Qed.
Lemma fq_put_item fn l x b : fq (put_item fn l x) b = fq fn b.
Proof. unfold fq, put_item. rewrite lookup_alter. case_decide; subst; [|done]. by destruct (fn !! b). Qed.
Lemma fq_del_item fn l x b : fq (del_item fn l x) b = fq fn b.
Proof. unfold fq, del_item. rewrite lookup_alter. case_decide; subst; [|done]. by destruct (fn !! b). Qed.
Lemma its_put_item fn l x b :
  is_Some (fn !! l) → its (put_item fn l x) b = if decide (b = l) then {[x]} ∪ its fn b else its fn b.
Proof.
  intros [n Hn]. unfold its, put_item. rewrite lookup_alter.
  repeat case_decide; subst; try done. by rewrite Hn.
Qed.
Lemma its_del_item fn l x b :
  its (del_item fn l x) b = if decide (b = l) then its fn b ∖ {[x]} else its fn b.
Proof.
  unfold its, del_item. rewrite lookup_alter.
  repeat case_decide; subst; try done. destruct (fn !! b); simpl; [done|set_solver].
Qed.
Lemma get_next_put_item fn l x b : get_next (put_item fn l x) b = get_next fn b.
Proof. unfold get_next, put_item. rewrite lookup_alter. case_decide; subst; [|done]. by destruct (fn !! b). Qed.
Lemma get_prev_put_item fn l x b : get_prev (put_item fn l x) b = get_prev fn b.
Proof. unfold get_prev, put_item. rewrite lookup_alter. case_decide; subst; [|done]. by destruct (fn !! b). Qed.
Lemma get_next_del_item fn l x b : get_next (del_item fn l x) b = get_next fn b.
Proof. unfold get_next, del_item. rewrite lookup_alter. case_decide; subst; [|done]. by destruct (fn !! b). Qed.
Lemma get_prev_del_item fn l x b : get_prev (del_item fn l x) b = get_prev fn b.
Proof. unfold get_prev, del_item. rewrite lookup_alter. case_decide; subst; [|done]. by destruct (fn !! b). Qed.
End Reads.
Create Rewrite HintDb fnodes.
#[export] Hint Rewrite fq_set_next fq_set_prev its_set_next its_set_prev fq_put_item fq_del_item
  get_next_put_item get_prev_put_item get_next_del_item get_prev_del_item : fnodes.

(** ** The bucket list *)

(** The buckets, in list order, without what they hold. *)
Record buckets (l : lfuList) (B : list loc) : Prop := {
  bk_chain : chain (fnodes l) (lhead l :: B ++ [lhead l]);
  bk_nodup : NoDup (lhead l :: B);
  bk_some : ∀ b, b ∈ lhead l :: B → is_Some (fnodes l !! b);
  bk_head : fq (fnodes l) (lhead l) = 0;
  bk_pos : ∀ b, b ∈ B → 0 < fq (fnodes l) b;
  bk_map : ∀ f b, freqMap l !! f = Some b ↔ b ∈ B ∧ fq (fnodes l) b = f;
  bk_sorted : StronglySorted (λ a b, fq (fnodes l) a < fq (fnodes l) b) B }.

(** What the buckets hold: the map [F] from items to frequencies. *)
Record holds (l : lfuList) (B : list loc) (F : gmap loc Z) : Prop := {
  h_items : ∀ x b, itemFreq l !! x = Some b ↔ b ∈ B ∧ x ∈ its (fnodes l) b;
  h_freq : ∀ x, F !! x = fq (fnodes l) <$> itemFreq l !! x }.

(** What the list promises: it is [F], and no bucket is empty. *)
Definition lfu_rep (l : lfuList) (F : gmap loc Z) : Prop :=
  ∃ B, buckets l B ∧ holds l B F ∧ ∀ b, b ∈ B → its (fnodes l) b ≠ ∅.

Lemma bk_nodups l B : NoDup (lhead l :: B) →
  NoDup (removelast (lhead l :: B ++ [lhead l])) ∧ NoDup (tail (lhead l :: B ++ [lhead l])).
Proof.
  intros Hnd. split.
  - by rewrite (removelast_last (A := loc) (lhead l :: B) (lhead l) : removelast (lhead l :: B ++ [lhead l]) = _).
  - simpl. apply NoDup_cons in Hnd as [Hh Hnd]. apply NoDup_app. split; [done|].
    split; [set_solver|]. apply NoDup_singleton.
Qed.

(** Writes to links leave contents alone. *)
Definition same_content (fn fn' : gmap loc freqNode) : Prop :=
  ∀ b, fq fn' b = fq fn b ∧ its fn' b = its fn b ∧ (is_Some (fn' !! b) ↔ is_Some (fn !! b)).
#[global] Instance same_content_refl : Reflexive same_content.
Proof. by intros fn b. Qed.
#[global] Instance same_content_trans : Transitive same_content.
Proof. intros f1 f2 f3 H1 H2 b. specialize (H1 b). specialize (H2 b). naive_solver congruence. Qed.
Lemma set_next_content fn l p : same_content fn (set_next fn l p).
Proof. intros b. autorewrite with fnodes. split_and!; try done; apply set_next_is_Some. Qed.
Lemma set_prev_content fn l p : same_content fn (set_prev fn l p).
Proof. intros b. autorewrite with fnodes. split_and!; try done; apply set_prev_is_Some. Qed.
Lemma set_prev_opt_content fn o p : same_content fn (set_prev_opt fn o p).
Proof. destruct o; [apply set_prev_content|done]. Qed.
Lemma set_next_opt_content fn o p : same_content fn (set_next_opt fn o p).
Proof. destruct o; [apply set_next_content|done]. Qed.
Lemma unlink_content fn x : same_content fn (unlink fn x).
Proof. unfold unlink. etrans; [apply set_next_opt_content|apply set_prev_opt_content]. Qed.
Lemma link_after_content fn a x : same_content fn (link_after fn a x).
Proof.
  unfold link_after. etrans; [apply set_next_content|]. etrans; [apply set_prev_content|].
  etrans; [apply set_next_content|apply set_prev_opt_content].
Qed.

Lemma StronglySorted_impl {A} (R R' : A → A → Prop) (xs : list A) :
  (∀ a b, a ∈ xs → b ∈ xs → R a b → R' a b) → StronglySorted R xs → StronglySorted R' xs.
Proof.
  induction xs as [|a xs IH]; intros HR Hs; [constructor|].
  apply StronglySorted_inv in Hs as [Hs Hf]. constructor.
  - apply IH; [|done]. intros b c Hb Hc. apply HR; by right.
  - rewrite Forall_forall in Hf |- *. intros b Hb. apply HR; [left|by right|]. by apply Hf.
Qed.

Lemma removeFreqNode_spec l B1 n B2 :
  buckets l (B1 ++ n :: B2) →
  let l' := removeFreqNode l n in
  buckets l' (B1 ++ B2) ∧ lhead l' = lhead l ∧ itemFreq l' = itemFreq l ∧
  same_content (fnodes l) (fnodes l').
Proof.
  intros Hb l'. pose proof (unlink_content (fnodes l) n : same_content (fnodes l) (fnodes l')) as HC.
  split; [|done]. destruct Hb as [Hc Hnd Hs Hh Hp Hm Hso].
  pose proof (bk_nodups _ _ Hnd) as [N1 N2].
  destruct (exists_last (l := lhead l :: B1)) as (ls1 & a & E1); [done|].
  destruct (B2 ++ [lhead l]) as [|b ls2] eqn:E2; [by destruct B2|].
  assert (lhead l :: (B1 ++ n :: B2) ++ [lhead l] = ls1 ++ a :: n :: b :: ls2) as E.
  { rewrite <-!app_assoc. cbn. rewrite E2.
    change (lhead l :: B1 ++ n :: b :: ls2) with ((lhead l :: B1) ++ n :: b :: ls2).
    by rewrite E1, <-app_assoc. }
  assert (lhead l :: (B1 ++ B2) ++ [lhead l] = ls1 ++ a :: b :: ls2) as E'.
  { rewrite <-app_assoc, E2. change (lhead l :: B1 ++ b :: ls2) with ((lhead l :: B1) ++ b :: ls2).
    by rewrite E1, <-app_assoc. }
  assert (∀ x, x ∈ ls1 ++ a :: n :: b :: ls2 → is_Some (fnodes l !! x)) as Hsome.
  { intros x Hx. rewrite <-E in Hx. apply Hs. set_solver. }
  assert (n ∉ B1 ++ B2 ∧ NoDup (lhead l :: B1 ++ B2)) as [Hn Hnd'].
  { rewrite <-Permutation_middle, Permutation_swap in Hnd. apply NoDup_cons in Hnd as [? ?].
    split; [set_solver|done]. }
  split.
  - change (lhead l') with (lhead l). rewrite E'. rewrite E in Hc, N1, N2.
    apply chain_unlink; try done; apply Hsome; set_solver.
  - done.
  - intros x Hx. apply HC, Hs. change (lhead l') with (lhead l) in Hx. set_solver.
  - by rewrite (proj1 (HC _)).
  - intros x Hx. rewrite (proj1 (HC _)). apply Hp. set_solver.
  - intros f x. rewrite (proj1 (HC x)).
    change (freqMap l') with (delete (fq (fnodes l') n) (freqMap l)).
    rewrite (proj1 (HC n)), lookup_delete_Some, Hm.
    assert (freqMap l !! fq (fnodes l) n = Some n) as Hfn by (apply Hm; set_solver).
    split.
    + intros (Hne & Hx & <-). split; [|done]. assert (x ≠ n) by congruence. set_solver.
    + intros (Hx & <-). assert (x ≠ n) by (intros ->; set_solver). split; [|set_solver].
      intros Heq. assert (freqMap l !! fq (fnodes l) x = Some x) by (apply Hm; set_solver). congruence.
  - apply (StronglySorted_impl (λ a b, fq (fnodes l) a < fq (fnodes l) b)).
    + intros x y _ _. by rewrite (proj1 (HC x)), (proj1 (HC y)).
    + rewrite StronglySorted_app, StronglySorted_cons in Hso. apply StronglySorted_app.
      split_and!; [|naive_solver..]. intros x y Hx Hy. apply Hso; [done|by right].
Qed.

(** A new bucket [t] of frequency [f] between the buckets below and above [f]. *)
Lemma buckets_insert l l' Q t P f :
  buckets l (Q ++ P) → lhead l' = lhead l → (t ∉ lhead l :: Q ++ P) →
  chain (fnodes l') (lhead l :: (Q ++ t :: P) ++ [lhead l]) →
  (∀ b, b ∈ lhead l :: Q ++ P → is_Some (fnodes l' !! b) ∧ fq (fnodes l') b = fq (fnodes l) b) →
  is_Some (fnodes l' !! t) → fq (fnodes l') t = f → 0 < f →
  freqMap l !! f = None → freqMap l' = <[f := t]> (freqMap l) →
  (∀ b, b ∈ Q → fq (fnodes l) b < f) → (∀ b, b ∈ P → f < fq (fnodes l) b) →
  buckets l' (Q ++ t :: P).
Proof.
  intros [_ Hnd Hs Hh Hp Hm Hso] Ehd Hnt Hch Hold Ht Eft Hpos Hf Efm HQ HP.
  assert (∀ b, b ∈ Q ∨ b ∈ P → b ≠ t) as Hne.
  { intros b Hb ->. apply Hnt. right. by apply elem_of_app. }
  assert (∀ b, b ∈ Q ∨ b ∈ P → fq (fnodes l') b = fq (fnodes l) b) as Hfq.
  { intros b Hb. apply Hold. right. by apply elem_of_app. }
  split; rewrite ?Ehd, ?Efm.
  - done.
  - rewrite <-Permutation_middle, Permutation_swap. by apply NoDup_cons.
  - intros b Hb. destruct (decide (b = t)) as [->|Hnb]; [done|]. apply Hold.
    rewrite elem_of_cons, elem_of_app, elem_of_cons in Hb. rewrite elem_of_cons, elem_of_app. naive_solver.
  - destruct (Hold (lhead l)) as [_ ->]; [left|done].
  - intros b [Hb|[->|Hb]%elem_of_cons]%elem_of_app; [|by rewrite Eft|];
      (rewrite Hfq by auto; apply Hp, elem_of_app; auto).
  - intros g b. rewrite lookup_insert_Some, Hm, !elem_of_app, elem_of_cons. split.
    + intros [[-> <-]|(_ & Hb & <-)]; [auto|]. rewrite Hfq by done. naive_solver.
    + intros [[Hb|[->|Hb]] <-]; [|by left|]; (rewrite Hfq by auto; right; split; [|by auto]);
        intros ->; assert (freqMap l !! fq (fnodes l) b = Some b) by (apply Hm; rewrite elem_of_app; auto);
        congruence.
  - apply StronglySorted_app in Hso as (S1 & S2 & S3). apply StronglySorted_app. split; [|split].
    + intros x y Hx [->|Hy]%elem_of_cons; rewrite ?Eft, !Hfq by auto; [by apply HQ|by apply S1].
    + eapply StronglySorted_impl, S2. intros x y Hx Hy. by rewrite !Hfq by auto.
    + apply StronglySorted_cons. split.
      * apply Forall_forall. intros y Hy. rewrite Eft, Hfq by auto. by apply HP.
      * eapply StronglySorted_impl, S3. intros x y Hx Hy. by rewrite !Hfq by auto.
Qed.

(** The predecessor [p] splits the buckets in those up to it and those behind it. *)
Lemma buckets_split l B P1 p P2 :
  buckets l B → lhead l :: B = P1 ++ p :: P2 →
  ∃ Q, B = Q ++ P2 ∧ lhead l :: Q = P1 ++ [p] ∧ 0 ≤ fq (fnodes l) p ∧
       ∀ b, b ∈ Q → fq (fnodes l) b ≤ fq (fnodes l) p.
Proof.
  intros [_ _ _ Hh Hp _ Hso] E. destruct P1 as [|y P1]; simplify_eq/=.
  { exists []. split_and!; [done..|lia|]. by intros b Hb%elem_of_nil. }
  exists (P1 ++ [p]). split_and!.
  - by rewrite <-app_assoc.
  - done.
  - apply Z.lt_le_incl, Hp, elem_of_app. right. left.
  - intros b [Hb|Hb%list_elem_of_singleton]%elem_of_app; [|by subst].
    apply StronglySorted_app in Hso as (Hso & _). apply Z.lt_le_incl, Hso; [done|left].
Qed.

Lemma buckets_link l Q P1 p P2 t n :
  buckets l (Q ++ P2) → lhead l :: Q = P1 ++ [p] → fnodes l !! t = None →
  chain (link_after (<[t := n]> (fnodes l)) p t) (lhead l :: (Q ++ t :: P2) ++ [lhead l]).
Proof.
  intros [Hc Hnd Hs _ _ _ _] EQ Ht.
  assert (∀ M, lhead l :: (Q ++ M) ++ [lhead l] = P1 ++ p :: M ++ [lhead l]) as EM.
  { intros M. rewrite <-app_assoc, app_comm_cons, EQ. by rewrite <-app_assoc. }
  assert (NoDup (lhead l :: Q ++ t :: P2)) as Hnd'.
  { rewrite <-Permutation_middle, Permutation_swap. apply NoDup_cons. split; [|done].
    intros Hin%Hs. rewrite Ht in Hin. by destruct Hin. }
  pose proof (bk_nodups (LfuList (lhead l) ∅ ∅ ∅) _ Hnd') as [N1 N2]. cbn [lhead] in N1, N2.
  assert (∀ x, x ∈ lhead l :: (Q ++ P2) ++ [lhead l] → is_Some (fnodes l !! x)) as Hs'.
  { intros x. rewrite app_comm_cons, elem_of_app.
    intros [Hx|Hx%list_elem_of_singleton]; apply Hs; [done|subst; left]. }
  rewrite EM in *. cbn [app] in *.
  destruct (P2 ++ [lhead l]) as [|b ls2] eqn:E2; [by destruct P2|].
  assert (∀ x, x ∈ P1 ++ p :: b :: ls2 → (<[t := n]> (fnodes l) : gmap _ _) !! x = fnodes l !! x) as Hfn0.
  { intros x Hx%Hs'. rewrite lookup_insert_ne; [done|]. intros ->. rewrite Ht in Hx. by destruct Hx. }
  apply chain_link; [|done..|rewrite Hfn0; [apply Hs'|]|rewrite lookup_insert_eq; eauto
      |rewrite Hfn0; [apply Hs'|]]; try (apply elem_of_app; right; set_solver-).
  eapply chain_frame, Hc.
  + intros x Hx%elem_of_removelast. unfold get_next. by rewrite Hfn0.
  + intros x Hx%elem_of_tail. unfold get_prev. by rewrite Hfn0.
Qed.

Lemma ensureIndex_new_spec l P1 p P2 f B :
  buckets l B → lhead l :: B = P1 ++ p :: P2 → freqMap l !! f = None →
  fq (fnodes l) p < f → (∀ b, b ∈ P2 → f ≤ fq (fnodes l) b) →
  let '(l', t) := ensureIndex l p f in
  (∃ Q, B = Q ++ P2 ∧ buckets l' (Q ++ t :: P2)) ∧ lhead l' = lhead l ∧ itemFreq l' = itemFreq l ∧
  fnodes l !! t = None ∧ fq (fnodes l') t = f ∧ its (fnodes l') t = ∅ ∧
  ∀ b, b ≠ t → fq (fnodes l') b = fq (fnodes l) b ∧ its (fnodes l') b = its (fnodes l) b.
Proof.
  intros Hb E Hf Hlt Hge. unfold ensureIndex. rewrite Hf.
  set (t := fresh (dom (fnodes l))).
  assert (fnodes l !! t = None) as Ht by (apply not_elem_of_dom, is_fresh).
  set (fn0 := <[t := FreqNode f ∅ None None]> (fnodes l)).
  change (set_prev_opt _ _ _) with (link_after fn0 p t).
  pose proof (link_after_content fn0 p t) as HC.
  assert (∀ b, b ≠ t → fn0 !! b = fnodes l !! b) as Hfn0.
  { intros b Hne. unfold fn0. by rewrite lookup_insert_ne by congruence. }
  assert (∀ b, b ≠ t → fq (link_after fn0 p t) b = fq (fnodes l) b ∧
            its (link_after fn0 p t) b = its (fnodes l) b) as Hsame.
  { intros b Hne. destruct (HC b) as (-> & -> & _). unfold fq, its. by rewrite Hfn0. }
  assert (fn0 !! t = Some (FreqNode f ∅ None None)) as Ht0 by apply lookup_insert_eq.
  destruct (HC t) as (Eft & Eit & Est). unfold fq in Eft at 2. unfold its in Eit at 2.
  rewrite Ht0 in Eft, Eit, Est. simpl in Eft, Eit.
  split; [|by split_and!].
  destruct (buckets_split _ _ _ _ _ Hb E) as (Q & -> & EQ & Hp0 & HQ). exists Q. split; [done|].
  assert (∀ b, b ∈ lhead l :: Q ++ P2 → b ≠ t) as Hnt.
  { intros b Hin ->. apply (bk_some _ _ Hb) in Hin. rewrite Ht in Hin. by destruct Hin. }
  apply (buckets_insert l _ Q t P2 f); cbn [lhead fnodes freqMap]; try done.
  - intros Hin. by apply Hnt in Hin.
  - by apply (buckets_link l Q P1).
  - intros b Hin. split; [|by apply Hsame, Hnt]. apply HC. rewrite Hfn0 by auto. by apply (bk_some _ _ Hb).
  - apply Est. eauto.
  - lia.
  - intros b Hin. specialize (HQ b Hin). lia.
  - intros b Hin. specialize (Hge b Hin). assert (fq (fnodes l) b ≠ f); [|lia]. intros Hbf.
    assert (freqMap l !! f = Some b) by (apply (bk_map _ _ Hb); rewrite elem_of_app; auto). congruence.
Qed.

(** ** Contents *)

(** The contents apart from one item: between its deletion from one bucket and its insertion
    into another. *)
Definition holds_but (x : loc) (l : lfuList) (B : list loc) (F : gmap loc Z) : Prop :=
  (∀ y b, y ≠ x → itemFreq l !! y = Some b ↔ b ∈ B ∧ y ∈ its (fnodes l) b) ∧
  (∀ b, b ∈ B → x ∉ its (fnodes l) b) ∧
  (∀ y, y ≠ x → F !! y = fq (fnodes l) <$> itemFreq l !! y).

Lemma buckets_items l fn B m :
  (∀ b, get_next fn b = get_next (fnodes l) b ∧ get_prev fn b = get_prev (fnodes l) b ∧
        fq fn b = fq (fnodes l) b ∧ (is_Some (fnodes l !! b) → is_Some (fn !! b))) →
  buckets l B → buckets (LfuList (lhead l) fn (freqMap l) m) B.
Proof.
  intros Hf [Hc Hnd Hs Hh Hp Hm Hso]. split; cbn [lhead fnodes freqMap].
  - eapply chain_frame, Hc; intros b _; apply Hf.
  - done.
  - intros b Hb. by apply Hf, Hs.
  - by rewrite (proj1 (proj2 (proj2 (Hf _)))).
  - intros b Hb. rewrite (proj1 (proj2 (proj2 (Hf _)))). by apply Hp.
  - intros f b. rewrite (proj1 (proj2 (proj2 (Hf _)))). apply Hm.
  - eapply StronglySorted_impl, Hso. intros a b _ _. by rewrite !(proj1 (proj2 (proj2 (Hf _)))).
Qed.

Lemma buckets_del l B n x m :
  buckets l B → buckets (LfuList (lhead l) (del_item (fnodes l) n x) (freqMap l) m) B.
Proof.
  apply buckets_items. intros b. autorewrite with fnodes. split_and!; try done.
  intros. by apply lookup_alter_is_Some.
Qed.
Lemma buckets_put l B n x m :
  buckets l B → buckets (LfuList (lhead l) (put_item (fnodes l) n x) (freqMap l) m) B.
Proof.
  apply buckets_items. intros b. autorewrite with fnodes. split_and!; try done.
  intros. by apply lookup_alter_is_Some.
Qed.

Lemma holds_del l B F x n m :
  holds l B F → itemFreq l !! x = Some n → (∀ y, y ≠ x → m !! y = itemFreq l !! y) →
  holds_but x (LfuList (lhead l) (del_item (fnodes l) n x) (freqMap l) m) B F.
Proof.
  intros [Hi Hf] Hx Hm. split; [|split]; cbn [fnodes itemFreq].
  - intros y b Hy. rewrite Hm, Hi, its_del_item by done. case_decide; set_solver.
  - intros b Hb. rewrite its_del_item. case_decide; [set_solver|]. intros Hin.
    assert (itemFreq l !! x = Some b) by by apply Hi. congruence.
  - intros y Hy. rewrite Hm, Hf by done. destruct (itemFreq l !! y); simpl; [|done].
    by autorewrite with fnodes.
Qed.

Lemma holds_untracked l B F x : holds l B F → itemFreq l !! x = None → holds_but x l B F.
Proof.
  intros [Hi Hf] Hx. split; [|split]; [naive_solver| |naive_solver].
  intros b Hb Hin. assert (itemFreq l !! x = Some b) by by apply Hi. congruence.
Qed.

Lemma holds_gone l B F x :
  holds_but x l B F → itemFreq l !! x = None → holds l B (delete x F).
Proof.
  intros (H1 & H2 & H3) Hx. split.
  - intros y b. destruct (decide (y = x)) as [->|Hne]; [|by apply H1]. split; [congruence|].
    intros [Hb Hin]. by apply H2 in Hin.
  - intros y. destruct (decide (y = x)) as [->|Hne].
    + by rewrite lookup_delete_eq, Hx.
    + rewrite lookup_delete_ne by congruence. by apply H3.
Qed.

Lemma holds_put l B F x t :
  holds_but x l B F → t ∈ B → is_Some (fnodes l !! t) →
  holds (LfuList (lhead l) (put_item (fnodes l) t x) (freqMap l) (<[x := t]> (itemFreq l))) B
        (<[x := fq (fnodes l) t]> F).
Proof.
  intros (H1 & H2 & H3) Ht Hs. split; cbn [fnodes itemFreq].
  - intros y b. rewrite its_put_item by done. destruct (decide (y = x)) as [->|Hne].
    + rewrite lookup_insert_eq. specialize (H2 b). case_decide; set_solver.
    + rewrite lookup_insert_ne, H1 by congruence. case_decide; set_solver.
  - intros y. destruct (decide (y = x)) as [->|Hne].
    + rewrite !lookup_insert_eq. simpl. by autorewrite with fnodes.
    + rewrite !lookup_insert_ne, H3 by congruence. destruct (itemFreq l !! y); simpl; [|done].
      by autorewrite with fnodes.
Qed.

(** Dropping the bucket an item has just left, if that was its last. *)
Lemma drop_empty l B F n :
  buckets l B → holds l B F → n ∈ B → (∀ b, b ∈ B → b ≠ n → its (fnodes l) b ≠ ∅) →
  lfu_rep (if bool_decide (its (fnodes l) n = ∅) then removeFreqNode l n else l) F.
Proof.
  intros Hb [Hi Hf] Hn Hfull. case_bool_decide as He.
  - apply list_elem_of_split in Hn as (B1 & B2 & ->).
    destruct (removeFreqNode_spec _ _ _ _ Hb) as (Hb' & Ehd & Eif & HC).
    exists (B1 ++ B2). split; [done|]. split.
    + split.
      * intros x b. rewrite Eif, Hi, (proj1 (proj2 (HC b))). set_solver.
      * intros x. rewrite Eif, Hf. destruct (itemFreq l !! x); simpl; [|done]. by rewrite (proj1 (HC _)).
    + intros b Hin. rewrite (proj1 (proj2 (HC b))). apply Hfull; [set_solver|]. intros ->.
      apply bk_nodup in Hb. apply NoDup_cons in Hb as [_ Hb].
      rewrite <-Permutation_middle in Hb. apply NoDup_cons in Hb as [? _]. done.
  - exists B. split; [done|]. split; [by split|]. intros b Hin. destruct (decide (b = n)) as [->|]; auto.
Qed.

(** [ensureIndex] returns the bucket of [f] and changes nothing else. *)
Lemma ensureIndex_spec l P1 p P2 f B x F l' t :
  buckets l B → lhead l :: B = P1 ++ p :: P2 →
  fq (fnodes l) p < f → (∀ b, b ∈ P2 → f ≤ fq (fnodes l) b) →
  holds_but x l B F → ensureIndex l p f = (l', t) →
  ∃ B', buckets l' B' ∧ holds_but x l' B' F ∧ t ∈ B' ∧ fq (fnodes l') t = f ∧
    lhead l' = lhead l ∧ itemFreq l' = itemFreq l ∧
    (∀ b, b ∈ B' ↔ b = t ∨ b ∈ B) ∧ (∀ b, b ∈ B → its (fnodes l') b = its (fnodes l) b).
Proof.
  intros Hb E Hlt Hge HB El. destruct (freqMap l !! f) as [t'|] eqn:Hf.
  - unfold ensureIndex in El. rewrite Hf in El. injection El as <- <-.
    apply (bk_map _ _ Hb) in Hf as [Hin Hfq]. exists B. split_and!; try done; naive_solver.
  - pose proof (ensureIndex_new_spec _ _ _ _ _ _ Hb E Hf Hlt Hge) as Hnew. rewrite El in Hnew.
    destruct Hnew as ((Q & -> & Hb') & Ehd & Eif & Ht & Eft & Eit & Hsame).
    assert (∀ b, b ∈ Q ++ P2 → b ≠ t) as Hnt.
    { intros b Hin ->. destruct (bk_some _ _ Hb t) as [? ?]; [by right|congruence]. }
    exists (Q ++ t :: P2). split_and!; try done.
    + destruct HB as (H1 & H2 & H3). split; [|split].
      * intros y b Hy. rewrite Eif, H1 by done.
        destruct (decide (b = t)) as [->|Hne].
        { rewrite Eit. split; [intros [Hin _]; by apply Hnt in Hin|set_solver]. }
        rewrite (proj2 (Hsame _ Hne)). rewrite !elem_of_app, elem_of_cons. naive_solver.
      * intros b Hin. destruct (decide (b = t)) as [->|Hne]; [rewrite Eit; set_solver|].
        rewrite (proj2 (Hsame _ Hne)). apply H2. rewrite elem_of_app, elem_of_cons in Hin.
        rewrite elem_of_app. naive_solver.
      * intros y Hy. rewrite Eif, H3 by done. destruct (itemFreq l !! y) as [b|] eqn:Hyb; simpl; [|done].
        apply H1 in Hyb as [Hin _]; [|done]. by rewrite (proj1 (Hsame b (Hnt b Hin))).
    + apply elem_of_app. right. left.
    + intros b. rewrite !elem_of_app, elem_of_cons. naive_solver.
    + intros b Hin. by apply Hsame, Hnt.
Qed.

Section Specs.
Context {K V : Type}.
Implicit Types h : gmap loc (cacheItem K V).

Lemma lfu_rep_None l F x : lfu_rep l F → F !! x = None ↔ itemFreq l !! x = None.
Proof. intros (B & _ & [_ Hf] & _). rewrite Hf. by destruct (itemFreq l !! x). Qed.

Lemma lfu_rep_unique l F F' : lfu_rep l F → lfu_rep l F' → F' = F.
Proof.
  intros (B & _ & [_ Hf] & _) (B' & _ & [_ Hf'] & _). apply map_eq. intros x. by rewrite Hf, Hf'.
Qed.

Lemma lfu_rep_pos l F x f : lfu_rep l F → F !! x = Some f → 0 < f.
Proof.
  intros (B & Hb & Hh & _) Hx. rewrite (h_freq _ _ _ Hh) in Hx. apply fmap_Some in Hx as (b & Hxb & ->).
  apply (h_items _ _ _ Hh) in Hxb as [Hin _]. by apply (bk_pos _ _ Hb).
Qed.

Lemma newLFUList_spec : lfu_rep newLFUList ∅.
Proof.
  exists []. split; [|split].
  - split; cbn [lhead fnodes freqMap newLFUList app].
    + simpl. split; [|done]. by split.
    + apply NoDup_singleton.
    + intros b Hb%list_elem_of_singleton. subst. eexists. done.
    + done.
    + by intros b Hb%elem_of_nil.
    + intros f b. rewrite lookup_empty. split; [done|]. by intros [Hb%elem_of_nil _].
    + constructor.
  - split; [|done]. intros x b. cbn [itemFreq newLFUList]. rewrite lookup_empty.
    split; [done|]. by intros [Hb%elem_of_nil _].
  - by intros b Hb%elem_of_nil.
Qed.

Lemma add_spec h l F x h' l' :
  lfu_rep l F → F !! x = None → add h l x = (h', l') →
  h' = set_frequency h x 1 ∧ lfu_rep l' (<[x := 1]> F).
Proof.
  intros Hrep Hx. pose proof (proj1 (lfu_rep_None _ _ x Hrep) Hx) as Hix.
  destruct Hrep as (B & Hb & Hh & Hfull).
  unfold add, getOrCreateFreqNode. cbn -[set_frequency ensureIndex].
  destruct (ensureIndex l (lhead l) 1) as [l1 t] eqn:E. intros [= <- <-]. split; [done|].
  destruct (ensureIndex_spec l [] (lhead l) B 1 B x F l1 t) as
    (B' & Hb' & HB' & Ht & Eft & Ehd & Eif & HBB & Hits); try done.
  - by rewrite (bk_head _ _ Hb).
  - intros b Hin%(bk_pos _ _ Hb). lia.
  - by apply holds_untracked.
  - exists B'. split; [by apply buckets_put|]. rewrite <-Eft.
    assert (is_Some (fnodes l1 !! t)) by (apply (bk_some _ _ Hb'); by right).
    split; [by apply holds_put|]. cbn [fnodes]. intros b Hin. rewrite its_put_item by done.
    case_decide as Hbt; [set_solver|]. apply HBB in Hin as [->|Hin]; [done|].
    rewrite Hits by done. by apply Hfull.
Qed.

Lemma remove_spec l F x : lfu_rep l F → lfu_rep (remove l x) (delete x F).
Proof.
  intros Hrep. unfold remove. destruct (itemFreq l !! x) as [n|] eqn:Hx.
  2: { apply (lfu_rep_None _ _ _ Hrep) in Hx. by rewrite delete_id. }
  destruct Hrep as (B & Hb & Hh & Hfull).
  set (l1 := LfuList _ _ _ _). assert (n ∈ B) as Hn by (by apply (h_items _ _ _ Hh) in Hx as [? _]).
  assert (buckets l1 B) as Hb1 by by apply buckets_del.
  assert (negb (fq (fnodes l1) n =? 0) = true) as ->.
  { pose proof (bk_pos _ _ Hb1 n Hn). destruct (Z.eqb_spec (fq (fnodes l1) n) 0); [lia|done]. }
  rewrite andb_true_r. apply (drop_empty l1 B); try done.
  - apply holds_gone; [|apply lookup_delete_eq]. apply holds_del; try done.
    intros y Hy. by rewrite lookup_delete_ne by congruence.
  - intros b Hin Hne. unfold l1. cbn [fnodes]. rewrite its_del_item, decide_False by done. by apply Hfull.
Qed.

(** The bucket behind the sentinel has the least frequency. *)
Lemma buckets_first l B n :
  buckets l B → get_next (fnodes l) (lhead l) = Some n → n ≠ lhead l →
  n ∈ B ∧ ∀ b, b ∈ B → fq (fnodes l) n ≤ fq (fnodes l) b.
Proof.
  intros Hb Hn Hne. destruct B as [|n' B].
  { pose proof (bk_chain _ _ Hb) as Hc. apply (chain_split_at _ [] _ _ []) in Hc as [Hc _]. congruence. }
  pose proof (bk_chain _ _ Hb) as Hc. apply (chain_split_at _ [] (lhead l) n' (B ++ [lhead l])) in Hc as [Hc _].
  simplify_eq. split; [left|]. pose proof (bk_sorted _ _ Hb) as Hso. apply StronglySorted_inv in Hso as [_ Hso].
  rewrite Forall_forall in Hso. intros b [->|Hin]%elem_of_cons; [lia|]. specialize (Hso b Hin). lia.
Qed.

Lemma removeLFU_spec o l F l' v :
  lfu_rep l F → removeLFU o l = (l', v) →
  match v with
  | None => F = ∅ ∧ l' = l
  | Some x => ∃ f, F !! x = Some f ∧ (∀ y g, F !! y = Some g → f ≤ g) ∧ lfu_rep l' (delete x F)
  end.
Proof.
  intros (B & Hb & Hh & Hfull). unfold removeLFU.
  destruct (get_next (fnodes l) (lhead l)) as [n|] eqn:Hn.
  2: { destruct (B ++ [lhead l]) as [|b ls] eqn:E; [by destruct B|].
       pose proof (bk_chain _ _ Hb) as Hc. rewrite E in Hc.
       apply (chain_split_at _ [] _ b ls) in Hc as [Hc _]. congruence. }
  case_bool_decide as Hnh.
  { intros [= <- <-]. split; [|done]. destruct B as [|b B].
    - apply map_eq. intros x. rewrite (h_freq _ _ _ Hh), lookup_empty.
      destruct (itemFreq l !! x) eqn:Hx; [|done].
      by apply (h_items _ _ _ Hh) in Hx as [Hx%elem_of_nil _].
    - pose proof (bk_chain _ _ Hb) as Hc. apply (chain_split_at _ [] _ b (B ++ [lhead l])) in Hc as [Hc _].
      pose proof (bk_nodup _ _ Hb) as Hnd. apply NoDup_cons in Hnd as [Hnd _].
      assert (b = lhead l) as -> by congruence. exfalso. apply Hnd. left. }
  destruct (buckets_first _ _ _ Hb Hn Hnh) as [HnB Hmin].
  destruct (range o (elements (its (fnodes l) n))) as [|x xs] eqn:Er.
  { exfalso. apply (Hfull n HnB). pose proof (range_perm o (elements (its (fnodes l) n))) as HP.
    rewrite Er in HP. symmetry in HP. apply Permutation_nil_r in HP. by apply elements_empty_inv, leibniz_equiv in HP. }
  cbn [head]. assert (x ∈ its (fnodes l) n) as Hx.
  { apply elem_of_elements, (elem_of_range o). rewrite Er. left. }
  assert (itemFreq l !! x = Some n) as Hxn by by apply (h_items _ _ _ Hh).
  intros [= <- <-]. exists (fq (fnodes l) n). split; [by rewrite (h_freq _ _ _ Hh), Hxn|]. split.
  - intros y g Hy. rewrite (h_freq _ _ _ Hh) in Hy. apply fmap_Some in Hy as (b & Hyb & ->).
    apply (h_items _ _ _ Hh) in Hyb as [Hyb _]. by apply Hmin.
  - apply (drop_empty (LfuList _ (del_item (fnodes l) n x) _ (delete x (itemFreq l))) B); try done.
    + by apply buckets_del.
    + apply holds_gone; [|apply lookup_delete_eq]. apply holds_del; try done.
      intros y Hy. by rewrite lookup_delete_ne by congruence.
    + intros b Hin Hne. cbn [fnodes]. rewrite its_del_item, decide_False by done. by apply Hfull.
Qed.

(** The bucket an incremented item moves to: the next one or a new one. *)
Lemma target_spec l B F x cur f l' t :
  buckets l B → holds_but x l B F → cur ∈ B → f = fq (fnodes l) cur + 1 →
  match get_next (fnodes l) cur with
  | Some nxt =>
      if negb (bool_decide (nxt = lhead l)) && (fq (fnodes l) nxt =? f) then (l, nxt)
      else ensureIndex l cur f
  | None => ensureIndex l cur f
  end = (l', t) →
  ∃ B', buckets l' B' ∧ holds_but x l' B' F ∧ t ∈ B' ∧ fq (fnodes l') t = f ∧
    lhead l' = lhead l ∧ itemFreq l' = itemFreq l ∧
    (∀ b, b ∈ B' ↔ b = t ∨ b ∈ B) ∧ (∀ b, b ∈ B → its (fnodes l') b = its (fnodes l) b).
Proof.
  intros Hb HB Hcur Hf. destruct (list_elem_of_split _ _ Hcur) as (B1 & B2 & EB).
  assert (∀ b, b ∈ B2 → f ≤ fq (fnodes l) b) as Hge.
  { pose proof (bk_sorted _ _ Hb) as Hso. rewrite EB, StronglySorted_app, StronglySorted_cons, Forall_forall in Hso.
    destruct Hso as (_ & _ & Hso & _). intros b Hin. specialize (Hso b Hin). lia. }
  assert (ensureIndex l cur f = (l', t) →
    ∃ B', buckets l' B' ∧ holds_but x l' B' F ∧ t ∈ B' ∧ fq (fnodes l') t = f ∧
      lhead l' = lhead l ∧ itemFreq l' = itemFreq l ∧
      (∀ b, b ∈ B' ↔ b = t ∨ b ∈ B) ∧ (∀ b, b ∈ B → its (fnodes l') b = its (fnodes l) b)) as Hens.
  { apply (ensureIndex_spec l (lhead l :: B1) cur B2); try done; [by rewrite EB|lia]. }
  destruct (get_next (fnodes l) cur) as [nxt|] eqn:Hn; [|done].
  destruct (bool_decide (nxt = lhead l)) eqn:Hnl; [done|]. apply bool_decide_eq_false in Hnl.
  destruct (Z.eqb_spec (fq (fnodes l) nxt) f) as [Hnf|]; [|done]. intros [= <- <-].
  assert (nxt ∈ B) as HnB.
  { destruct B2 as [|b B2]; pose proof (bk_chain _ _ Hb) as Hc; rewrite EB in Hc.
    - rewrite <-app_assoc, app_comm_cons in Hc. apply chain_split_at in Hc as [Hc _]. congruence.
    - rewrite <-app_assoc, app_comm_cons in Hc. cbn [app] in Hc. 
      apply (chain_split_at _ (lhead l :: B1)) in Hc as [Hc _]. rewrite EB. simplify_eq. apply elem_of_app. right. right. left. }
  exists B. split_and!; try done. naive_solver.
Qed.

Lemma increment_spec h l F x f h' l' :
  lfu_rep l F → F !! x = Some f → f < 2 ^ 63 - 1 → increment h l x = (h', l') →
  h' = set_frequency h x (f + 1) ∧ lfu_rep l' (<[x := f + 1]> F).
Proof.
  intros (B & Hb & Hh & Hfull) Hx Hmax. rewrite (h_freq _ _ _ Hh) in Hx.
  apply fmap_Some in Hx as (cur & Hxc & ->). unfold increment. rewrite Hxc.
  assert (cur ∈ B) as Hcur by (by apply (h_items _ _ _ Hh) in Hxc as [? _]).
  assert (0 < fq (fnodes l) cur) by by apply (bk_pos _ _ Hb).
  rewrite i64_id by (unfold is_i64; lia).
  set (l1 := LfuList (lhead l) (del_item (fnodes l) cur x) (freqMap l) (itemFreq l)).
  destruct (match get_next (fnodes l1) cur with Some _ => _ | None => _ end) as [l2 t] eqn:Et.
  assert (fq (fnodes l1) cur = fq (fnodes l) cur) as Efq by apply fq_del_item.
  destruct (target_spec l1 B F x cur (fq (fnodes l) cur + 1) l2 t) as
    (B' & Hb2 & HB2 & Ht & Eft & Ehd & Eif & HBB & Hits); try done.
  { by apply buckets_del. }
  { by apply holds_del. }
  { by rewrite Efq. }
  set (l3 := LfuList (lhead l2) (put_item (fnodes l2) t x) (freqMap l2) (<[x := t]> (itemFreq l2))).
  intros [= <- <-]. split; [done|].
  change (lfu_rep (if bool_decide (its (fnodes l3) cur = ∅) && negb (fq (fnodes l3) cur =? 0)
    then removeFreqNode l3 cur else l3) (<[x := fq (fnodes l) cur + 1]> F)).
  assert (buckets l3 B') as Hb3 by by apply buckets_put.
  assert (is_Some (fnodes l2 !! t)) by (apply (bk_some _ _ Hb2); by right).
  assert (cur ∈ B') as Hcur' by (apply HBB; by right).
  assert (negb (fq (fnodes l3) cur =? 0) = true) as ->.
  { pose proof (bk_pos _ _ Hb3 cur Hcur'). destruct (Z.eqb_spec (fq (fnodes l3) cur) 0); [lia|done]. }
  rewrite andb_true_r. apply (drop_empty l3 B'); try done.
  - rewrite <-Eft. by apply holds_put.
  - intros b Hin Hne. unfold l3. cbn [fnodes]. rewrite its_put_item by done.
    case_decide as Hbt; [set_solver|]. apply HBB in Hin as [->|Hin]; [done|].
    rewrite Hits by done. unfold l1. cbn [fnodes]. rewrite its_del_item, decide_False by done.
    by apply Hfull.
Qed.
End Specs.
