(* ===== verification/Shard.v ===== *)
(** * Shards ([src/shard.go]) and the block of statements that removes an item

    A shard is the record of [src/shard.go]; the items it points to live in the store of the
    whole cache, next to the pool of recycled items ([mem]).  Every function below is one
    critical section: the caller holds the shard's lock.  [shard_inv] ties the map, the
    recency list, the LFU index and the counters of one shard together; [local] says which
    part of the store a critical section may touch, which is what makes shards independent
    of one another. *)
From Stdlib Require Import ZArith Lia.
From stdpp Require Import base numbers gmap list sets.
From S2P Require Import Prelude Admission Dll Lru Lfu.
Local Open Scope Z_scope.

(** [EvictionPolicy] is an [int] with four named values; any other value is possible too. *)
Inductive EvictionPolicy := LRU | LFU | FIFO | AdmissionLFU | OtherPolicy (n : Z).
#[export] Instance EvictionPolicy_eq_dec : EqDecision EvictionPolicy.
Proof. solve_decision. Defined.

Section Shard.
Context {K V : Type} `{EqDecision K, !Countable K} {zeroV : Inhabited V}.
Abbreviation item := (cacheItem K V).
Abbreviation heap := (gmap loc item).

(** The store: items, and the pool [itemPool] of the cache. *)
Record mem := Mem { cells : heap; pool : list loc }.

Record shard := Shard {
  data : gmap K loc;
  head : loc;
  tail : loc;
  lfuIdx : option lfuList;
  size : Z;
  hits : Z;
  misses : Z;
  evictions : Z;
  expirations : Z;
  admission : option Admission.adaptiveAdmissionFilter;
  lastVictimFrequency : Z }.

(** Assignments to single fields. *)
Definition with_data d s := Shard d (head s) (tail s) (lfuIdx s) (size s) (hits s) (misses s)
  (evictions s) (expirations s) (admission s) (lastVictimFrequency s).
Definition with_lfu l s := Shard (data s) (head s) (tail s) l (size s) (hits s) (misses s)
  (evictions s) (expirations s) (admission s) (lastVictimFrequency s).
Definition add_size n s := Shard (data s) (head s) (tail s) (lfuIdx s) (i64 (size s + n)) (hits s)
  (misses s) (evictions s) (expirations s) (admission s) (lastVictimFrequency s).
(** The four statistics counters, bumped only if statistics are on. *)
Definition bump_stats (on : bool) (h m e x : Z) s :=
  if on then Shard (data s) (head s) (tail s) (lfuIdx s) (size s) (i64 (hits s + h)) (i64 (misses s + m))
    (i64 (evictions s + e)) (i64 (expirations s + x)) (admission s) (lastVictimFrequency s)
  else s.
Definition with_admission a s := Shard (data s) (head s) (tail s) (lfuIdx s) (size s) (hits s)
  (misses s) (evictions s) (expirations s) a (lastVictimFrequency s).
Definition with_victim f s := Shard (data s) (head s) (tail s) (lfuIdx s) (size s) (hits s)
  (misses s) (evictions s) (expirations s) (admission s) f.

(** Reading the item behind a pointer, and assigning its payload fields. *)
Definition rd (m : mem) (x : loc) : item := default zeroItem (cells m !! x).
Definition wr (m : mem) (x : loc) (f : item → item) : mem := Mem (alter f x (cells m)) (pool m).
Definition put_value v (it : item) : item :=
  Item v (expireTime it) (lastAccess it) (frequency it) (prev it) (next it) (key it).
Definition put_expire e (it : item) : item :=
  Item (value it) e (lastAccess it) (frequency it) (prev it) (next it) (key it).
Definition put_access a (it : item) : item :=
  Item (value it) (expireTime it) a (frequency it) (prev it) (next it) (key it).
Definition put_freq f (it : item) : item :=
  Item (value it) (expireTime it) (lastAccess it) f (prev it) (next it) (key it).
Definition put_key k (it : item) : item :=
  Item (value it) (expireTime it) (lastAccess it) (frequency it) (prev it) (next it) k.

Definition expired (now : Z) (it : item) : bool := (0 <? expireTime it) && (expireTime it <? now).

(** [itemPool.Put] and [itemPool.Get]: the pool may hand out any item it holds (its index is
    an argument) or call [New]. *)
Definition pool_put (m : mem) (x : loc) : mem := Mem (cells m) (x :: pool m).
Definition pool_get (choice : option nat) (m : mem) : mem * loc :=
  match choice ≫= λ i, pool m !! i with
  | Some x => (Mem (cells m) (match choice with Some i => delete i (pool m) | None => pool m end), x)
  | None => let '(h, x) := alloc (cells m) zeroItem in (Mem h (pool m), x)
  end.

(** Recency list and LFU index on the store. *)
Definition removeFromList (m : mem) (x : loc) : mem := Mem (removeFromLRU (cells m) x) (pool m).
Definition addToHead (m : mem) (s : shard) (x : loc) : mem :=
  Mem (addToLRUHead (cells m) (head s) x) (pool m).
Definition moveToHead (m : mem) (s : shard) (x : loc) : mem :=
  Mem (moveToLRUHead (cells m) (head s) x) (pool m).
Definition lfu_remove (s : shard) (x : loc) : shard := with_lfu ((λ l, remove l x) <$> lfuIdx s) s.
Definition lfu_add (m : mem) (s : shard) (x : loc) : mem * shard :=
  match lfuIdx s with
  | Some l => let '(h, l) := add (cells m) l x in (Mem h (pool m), with_lfu (Some l) s)
  | None => (m, s)
  end.
Definition lfu_increment (m : mem) (s : shard) (x : loc) : mem * shard :=
  match lfuIdx s with
  | Some l => let '(h, l) := increment (cells m) l x in (Mem h (pool m), with_lfu (Some l) s)
  | None => (m, s)
  end.

(** The statements shared by [get], [Delete], [Exists] and [cleanup]: drop the map entry,
    unlink, forget in the LFU index, recycle, and count down. *)
Definition dropItem (pol : EvictionPolicy) (m : mem) (s : shard) (k : K) (x : loc) : mem * shard :=
  let s := with_data (delete k (data s)) s in
  let m := removeFromList m x in
  let s := if bool_decide (pol = LFU) then lfu_remove s x else s in
  let m := pool_put m x in
  (m, add_size (-1) s).

(** ** [cleanup] *)

(** First pass over the map: the expired keys, and the aging of the others. *)
Definition cleanup_visit (now : Z) (pol : EvictionPolicy) (st : mem * list K) (e : K * loc)
    : mem * list K :=
  let '(m, keysToDelete) := st in
  let '(k, x) := e in
  if expired now (rd m x) then (m, keysToDelete ++ [k])
  else if bool_decide (pol = AdmissionLFU) && (1 <? frequency (rd m x))
    then (wr m x (put_freq (Z.shiftr (frequency (rd m x)) 1)), keysToDelete)
    else (m, keysToDelete).

(** Second pass: the keys are looked up again before they are deleted. *)
Definition cleanup_drop (pol : EvictionPolicy) (statsEnabled : bool) (st : mem * shard) (k : K)
    : mem * shard :=
  let '(m, s) := st in
  match data s !! k with
  | Some x =>
      let '(m, s) := dropItem pol m s k x in
      (m, bump_stats statsEnabled 0 0 0 1 s)
  | None => (m, s)
  end.

Definition cleanup (o : rangeOrder) (m : mem) (s : shard) (now : Z) (pol : EvictionPolicy)
    (statsEnabled : bool) : mem * shard :=
  let '(m, keysToDelete) := foldl (cleanup_visit now pol) (m, []) (range o (map_to_list (data s))) in
  foldl (cleanup_drop pol statsEnabled) (m, s) keysToDelete.

(** ** The invariant of a shard *)

(** Everything a shard points to. *)
Definition nodes (s : shard) (L : list loc) : list loc := head s :: L ++ [tail s].

(** With the LFU policy the index covers exactly the items of the shard, and a bucket's
    frequency is the [frequency] field of its items, at most [B]; without it there is none. *)
Definition lfu_ok (pol : EvictionPolicy) (B : Z) (m : mem) (s : shard) (L : list loc) : Prop :=
  match lfuIdx s with
  | Some l => pol = LFU ∧ ∃ F, lfu_rep l F ∧ (∀ x, x ∈ L ↔ is_Some (F !! x)) ∧
                ∀ x f, F !! x = Some f → f ≤ B ∧ frequency (rd m x) = f
  | None => pol ≠ LFU
  end.

(** [L] is the recency list, most recent first. *)
Record shard_inv (pol : EvictionPolicy) (B : Z) (m : mem) (s : shard) (L : list loc) : Prop := {
  si_lru : lru (cells m) (head s) (tail s) L;
  si_data : ∀ k x, data s !! k = Some x ↔ x ∈ L ∧ key (rd m x) = Some k;
  si_keys : ∀ x, x ∈ L → is_Some (key (rd m x));
  si_size : size s = i64 (Z.of_nat (length L));
  si_lfu : lfu_ok pol B m s L;
  si_adm : from_option Admission.aaf_wf True (admission s);
  si_sep : NoDup (nodes s L ++ pool m);
  si_pool : ∀ x, x ∈ pool m → is_Some (cells m !! x) }.

(** What a critical section on one shard leaves alone: every allocated item that is neither
    in the shard nor in the pool; and what it may own afterwards. *)
Record local (m : mem) (s : shard) (L : list loc) (m' : mem) (s' : shard) (L' : list loc) : Prop := {
  lc_frame : ∀ y, (y ∉ nodes s L ++ pool m) → is_Some (cells m !! y) → cells m' !! y = cells m !! y;
  lc_owned : ∀ y, y ∈ nodes s' L' ++ pool m' → y ∈ nodes s L ++ pool m ∨ cells m !! y = None;
  lc_dom : ∀ y, is_Some (cells m !! y) → is_Some (cells m' !! y) }.

Implicit Types m : mem.
Implicit Types s : shard.
Implicit Types L : list loc.
Implicit Types x y : loc.
Implicit Types k : K.

Lemma local_refl m s L : local m s L m s L.
Proof. split; auto. Qed.
Lemma local_trans m1 s1 L1 m2 s2 L2 m3 s3 L3 :
  local m1 s1 L1 m2 s2 L2 → local m2 s2 L2 m3 s3 L3 → local m1 s1 L1 m3 s3 L3.
Proof.
  intros [F1 O1 D1] [F2 O2 D2]. split.
  - intros y Hy Hs. rewrite F2; [by apply F1| |by apply D1].
    intros [Hin|Hn]%O1; [done|]. rewrite Hn in Hs. by destruct Hs.
  - intros y [Hy|Hn]%O2; [by apply O1|]. right. destruct (cells m1 !! y) eqn:E; [|done].
    destruct (D1 y); [by rewrite E|congruence].
  - auto.
Qed.

(** ** Abstraction: the entries of a shard, most recent first *)
Record entry := Entry { e_key : K; e_value : V; e_expire : Z; e_access : Z; e_freq : Z }.

Definition entry_of (it : item) : option entry :=
  (λ k, Entry k (value it) (expireTime it) (lastAccess it) (frequency it)) <$> key it.
Definition view (m : mem) (L : list loc) : list entry := omap (λ x, entry_of (rd m x)) L.

Lemma view_app m L1 L2 : view m (L1 ++ L2) = view m L1 ++ view m L2.
Proof. apply omap_app. Qed.

Lemma view_ext m m' L : (∀ x, x ∈ L → payload (rd m' x) = payload (rd m x)) → view m' L = view m L.
Proof.
  induction L as [|x L IH]; intros HE; [done|]. unfold view in *. cbn.
  rewrite IH by (intros y Hy; apply HE; by right).
  specialize (HE x ltac:(left)). unfold payload in HE. unfold entry_of.
  injection HE as -> -> -> -> ->. done.
Qed.

Lemma rd_payload m m' x :
  same_payload (cells m) (cells m') → payload (rd m' x) = payload (rd m x).
Proof. intros E. specialize (E x). unfold rd. destruct (cells m !! x), (cells m' !! x); cbn in *; congruence. Qed.

Lemma payload_key it it' : payload it = payload it' → key (it : item) = key it'.
Proof. unfold payload. congruence. Qed.
Lemma payload_freq it it' : payload it = payload it' → frequency (it : item) = frequency it'.
Proof. unfold payload. congruence. Qed.

(** ** Reads after writes *)
Lemma rd_wr m x f y :
  is_Some (cells m !! x) → rd (wr m x f) y = if decide (y = x) then f (rd m x) else rd m y.
Proof.
  intros [it Hit]. unfold rd, wr. cbn [cells]. rewrite lookup_alter. repeat case_decide; subst; try done.
  by rewrite Hit.
Qed.

Lemma inv_some pol B m s L x : shard_inv pol B m s L → x ∈ nodes s L → is_Some (cells m !! x).
Proof. intros Hi Hx. by apply (si_lru _ _ _ _ _ Hi). Qed.
Lemma inv_in pol B m s L k x : shard_inv pol B m s L → data s !! k = Some x → x ∈ L.
Proof. intros Hi Hx. by apply (si_data _ _ _ _ _ Hi) in Hx as [? _]. Qed.
Lemma elem_of_nodes s L x : x ∈ L → x ∈ nodes s L.
Proof. intros. right. apply elem_of_app. by left. Qed.

(** ** Taking an item out *)
Lemma inv_nodup pol B m s L : shard_inv pol B m s L → NoDup L.
Proof.
  intros Hi. destruct (si_lru _ _ _ _ _ Hi) as (_ & Hnd & _).
  apply NoDup_cons in Hnd as [_ Hnd]. by apply NoDup_app in Hnd as [? _].
Qed.

Lemma NoDup_without (L1 L2 : list loc) x : NoDup (L1 ++ x :: L2) → x ∉ L1 ++ L2.
Proof. rewrite <-Permutation_middle. by intros [? _]%NoDup_cons. Qed.

Lemma inv_key_ne pol B m s L1 L2 k x y :
  shard_inv pol B m s (L1 ++ x :: L2) → data s !! k = Some x → y ∈ L1 ++ L2 → key (rd m y) ≠ Some k.
Proof.
  intros Hi Hx Hy Hk. assert (data s !! k = Some y) as Hy'.
  { apply (si_data _ _ _ _ _ Hi). split; [|done]. set_solver. }
  assert (y = x) as -> by congruence. apply inv_nodup in Hi. by apply NoDup_without in Hi.
Qed.

Lemma view_without pol B m s L1 L2 k x :
  shard_inv pol B m s (L1 ++ x :: L2) → data s !! k = Some x →
  view m (L1 ++ L2) = filter (λ e, e_key e ≠ k) (view m (L1 ++ x :: L2)).
Proof.
  intros Hi Hx. pose proof (proj1 (si_data _ _ _ _ _ Hi k x) Hx) as [_ Hk].
  assert (∀ L, (∀ y, y ∈ L → key (rd m y) ≠ Some k) → filter (λ e, e_key e ≠ k) (view m L) = view m L) as HF.
  { intros L. induction L as [|y L IH]; intros Hne; [done|]. unfold view in *. cbn.
    destruct (entry_of (rd m y)) as [e|] eqn:Ee; [|apply IH; intros z Hz; apply Hne; by right].
    rewrite filter_cons_True; [f_equal; apply IH; intros z Hz; apply Hne; by right|].
    unfold entry_of in Ee. apply fmap_Some in Ee as (k' & Hk' & ->). cbn. intros ->. by apply (Hne y); [left|]. }
  assert (∀ y, y ∈ L1 ++ L2 → key (rd m y) ≠ Some k) as Hne by (intros y; by apply (inv_key_ne _ _ _ _ _ _ _ x _ Hi)).
  change (x :: L2) with ([x] ++ L2). rewrite !view_app, !filter_app.
  rewrite (HF L1), (HF L2) by (intros y Hy; apply Hne; apply elem_of_app; auto).
  assert (view m [x] = [Entry k (value (rd m x)) (expireTime (rd m x)) (lastAccess (rd m x))
                          (frequency (rd m x))]) as -> by (unfold view, entry_of; cbn; by rewrite Hk).
  rewrite filter_cons_False by (cbn; tauto). done.
Qed.

Lemma drop_core pol B m s L1 L2 k x s' :
  shard_inv pol B m s (L1 ++ x :: L2) → data s !! k = Some x →
  data s' = delete k (data s) → head s' = head s → tail s' = tail s →
  size s' = i64 (size s + -1) → from_option Admission.aaf_wf True (admission s') →
  let m' := pool_put (removeFromList m x) x in
  lfu_ok pol B m' s' (L1 ++ L2) →
  shard_inv pol B m' s' (L1 ++ L2) ∧ local m s (L1 ++ x :: L2) m' s' (L1 ++ L2) ∧
  view m' (L1 ++ L2) = filter (λ e, e_key e ≠ k) (view m (L1 ++ x :: L2)).
Proof.
  intros Hi Hx Ed Eh Et Es Ha m' Hl.
  pose proof (removeFromLRU_payload (cells m) x) as Hpl.
  assert (∀ y, payload (rd m' y) = payload (rd m y)) as Hrd by (intros y; by apply rd_payload).
  assert (nodes s' (L1 ++ L2) ++ pool m' ≡ₚ nodes s (L1 ++ x :: L2) ++ pool m) as HP.
  { unfold nodes. rewrite Eh, Et. cbn. rewrite <-(Permutation_middle L1 L2 x).
    cbn. f_equiv. rewrite <-!app_assoc. cbn. rewrite Permutation_swap. by rewrite <-!Permutation_middle. }
  split; [|split].
  - destruct Hi as [Hlru Hd Hk Hs _ _ Hsep Hpool]. split; try done.
    + rewrite Eh, Et. by apply lru_remove.
    + intros k' y. rewrite Ed, (payload_key _ _ (Hrd y)), lookup_delete_Some, Hd.
      rewrite !elem_of_app, elem_of_cons. split.
      * intros (Hne & Hy & Hky). assert (y ≠ x); [|naive_solver]. intros ->.
        apply Hd in Hx as [_ Hx]. congruence.
      * intros (Hy & Hky). split; [|naive_solver]. intros <-.
        apply Hd in Hx as Hx'. destruct Hx' as [_ Hx'].
        assert (data s !! k = Some y) by (apply Hd; split; [set_solver|done]).
        assert (y = x) as -> by congruence.
        destruct Hlru as (_ & Hnd & _). apply NoDup_cons in Hnd as [_ Hnd].
        apply NoDup_app in Hnd as (Hnd & _). apply NoDup_without in Hnd. set_solver.
    + intros y Hy. rewrite (payload_key _ _ (Hrd y)). apply Hk. set_solver.
    + rewrite Es, Hs, i64_add_l, !length_app. cbn. f_equal. lia.
    + by rewrite HP.
    + intros y Hy. apply (same_payload_is_Some (cells m)); [done|]. cbn in Hy.
      apply elem_of_cons in Hy as [->|Hy]; [|by apply Hpool]. apply Hlru. set_solver.
  - split.
    + intros y Hy _. cbn. eapply removeFromLRU_frame; [apply Hi|]. set_solver.
    + intros y Hy. rewrite HP in Hy. by left.
    + intros y Hy. by apply (same_payload_is_Some (cells m)).
  - rewrite (view_ext m m') by auto. by apply (view_without _ _ _ _ _ _ _ _ Hi).
Qed.

(** What the index promises about the items of the list, with its abstract map. *)
Definition covers (B : Z) (F : gmap loc Z) (m : mem) (L : list loc) : Prop :=
  (∀ x, x ∈ L ↔ is_Some (F !! x)) ∧ ∀ x f, F !! x = Some f → f ≤ B ∧ frequency (rd m x) = f.

Lemma covers_drop B F m m' L1 x L2 :
  covers B F m (L1 ++ x :: L2) → NoDup (L1 ++ x :: L2) →
  (∀ y, frequency (rd m' y) = frequency (rd m y)) → covers B (delete x F) m' (L1 ++ L2).
Proof.
  intros [H1 H2] Hnd Hf. apply NoDup_without in Hnd. split.
  - intros y. destruct (decide (y = x)) as [->|Hne].
    + rewrite lookup_delete_eq. split; [done|]. by intros [? ?].
    + rewrite lookup_delete_ne, <-H1 by congruence. set_solver.
  - intros y f. rewrite lookup_delete_Some, Hf. intros [_ ?]. auto.
Qed.

Lemma dropItem_spec pol B m s L k x m' s' :
  shard_inv pol B m s L → data s !! k = Some x → dropItem pol m s k x = (m', s') →
  ∃ L', shard_inv pol B m' s' L' ∧ local m s L m' s' L' ∧
    view m' L' = filter (λ e, e_key e ≠ k) (view m L).
Proof.
  intros Hi Hx. pose proof (inv_in _ _ _ _ _ _ _ Hi Hx) as HxL.
  apply list_elem_of_split in HxL as (L1 & L2 & ->).
  unfold dropItem. intros [= <- <-]. exists (L1 ++ L2).
  eapply (drop_core pol B m s L1 L2 k x); try done; try (by case_bool_decide).
  - pose proof (si_adm _ _ _ _ _ Hi). by case_bool_decide.
  - pose proof (inv_nodup _ _ _ _ _ Hi) as Hnd. pose proof (si_lfu _ _ _ _ _ Hi) as Hl.
    unfold lfu_ok in *. destruct (lfuIdx s) as [l|] eqn:El.
    + destruct Hl as (-> & F & HF & Hc). rewrite bool_decide_eq_true_2 by done. cbn. rewrite El. cbn.
      split; [done|]. exists (delete x F). split; [by apply remove_spec|].
      eapply covers_drop; [exact Hc|done|]. intros y. apply payload_freq, rd_payload, removeFromLRU_payload.
    + rewrite bool_decide_eq_false_2 by done. cbn. by rewrite El.
Qed.

(** Statistics are independent of everything else. *)
Lemma inv_stats pol B m s L on a b c d :
  shard_inv pol B m s L → shard_inv pol B m (bump_stats on a b c d s) L.
Proof. intros [????? ? ?]. by destruct on; split. Qed.
Lemma local_stats m s L m' s' L' on a b c d :
  local m s L m' s' L' → local m s L m' (bump_stats on a b c d s') L'.
Proof. intros [???]. by destruct on; split. Qed.

(** The invariant reads the payload of an item only through its key and, for LFU, its
    frequency. *)
Lemma inv_wr pol B m s L x f :
  shard_inv pol B m s L → x ∈ nodes s L ++ pool m →
  (∀ it, prev (f it) = prev it ∧ next (f it) = next it ∧ (x ∈ L → key (f it) = key it)) →
  (pol = LFU → ∀ it, frequency (f it) = frequency it) →
  shard_inv pol B (wr m x f) s L ∧ local m s L (wr m x f) s L.
Proof.
  intros Hi Hx Hf Hq. pose proof Hi as [Hlru Hd Hk Hs Hl Ha Hsep Hpool].
  assert (is_Some (cells m !! x)) as Hxs.
  { apply elem_of_app in Hx as [Hx|Hx]; [by eapply inv_some|by apply Hpool]. }
  assert (∀ y, y ∈ L → key (rd (wr m x f) y) = key (rd m y)) as Hkey.
  { intros y Hy. rewrite rd_wr by done. case_decide; [|done]. subst. by apply Hf. }
  assert (∀ y, is_Some (cells (wr m x f) !! y) ↔ is_Some (cells m !! y)) as Hsome.
  { intros y. apply lookup_alter_is_Some. }
  split; [split; try done|].
  - eapply lru_frame, Hlru. intros y _. rewrite Hsome. unfold get_next, get_prev, wr. cbn.
    rewrite lookup_alter. case_decide; subst; [|done]. destruct (cells m !! y); cbn; [|done].
    split; [|split]; [apply Hf..|done].
  - intros k y. rewrite Hd. split; intros [Hy Hky]; (split; [done|]); by rewrite ?Hkey in *.
  - intros y Hy. rewrite Hkey by done. by apply Hk.
  - unfold lfu_ok in *. destruct (lfuIdx s); [|done]. destruct Hl as (-> & F & HF & Hdom & Hfr).
    split; [done|]. exists F. split; [done|]. split; [done|]. intros y g Hy.
    rewrite rd_wr by done. destruct (Hfr y g Hy). case_decide; subst; [|done]. by rewrite Hq.
  - intros y Hy. apply Hsome. by apply Hpool.
  - split; [|auto|intros y; by rewrite Hsome].
    intros y Hy _. unfold wr. cbn. rewrite lookup_alter_ne; [done|]. intros ->. done.
Qed.

Lemma inv_move pol B m s L1 x L2 :
  shard_inv pol B m s (L1 ++ x :: L2) →
  let m' := moveToHead m s x in
  shard_inv pol B m' s (x :: L1 ++ L2) ∧ local m s (L1 ++ x :: L2) m' s (x :: L1 ++ L2) ∧
  (∀ y, payload (rd m' y) = payload (rd m y)).
Proof.
  intros Hi m'. pose proof Hi as [Hlru Hd Hk Hs Hl Ha Hsep Hpool].
  pose proof (moveToLRUHead_payload (cells m) (head s) x) as Hpl.
  assert (∀ y, payload (rd m' y) = payload (rd m y)) as Hrd by (intros y; by apply rd_payload).
  assert (L1 ++ x :: L2 ≡ₚ x :: L1 ++ L2) as HP by by rewrite Permutation_middle.
  assert (nodes s (L1 ++ x :: L2) ++ pool m ≡ₚ nodes s (x :: L1 ++ L2) ++ pool m') as HN.
  { unfold nodes. by rewrite HP. }
  split; [|split; [split|done]].
  - split; try done.
    + by apply lru_move.
    + intros k y. by rewrite (payload_key _ _ (Hrd y)), Hd, HP.
    + intros y Hy. rewrite (payload_key _ _ (Hrd y)). apply Hk. by rewrite HP.
    + rewrite Hs. by rewrite HP.
    + unfold lfu_ok in *. destruct (lfuIdx s); [|done]. destruct Hl as (-> & F & HF & Hdom & Hfr).
      split; [done|]. exists F. split; [done|]. split; [intros y; by rewrite <-Hdom, HP|].
      intros y g Hy. rewrite (payload_freq _ _ (Hrd y)). auto.
    + by rewrite <-HN.
    + intros y Hy. apply (same_payload_is_Some (cells m)); [done|]. by apply Hpool.
  - intros y Hy _. cbn. eapply moveToLRUHead_frame; [apply Hlru|]. set_solver.
  - intros y Hy. left. by rewrite HN.
  - intros y Hy. by apply (same_payload_is_Some (cells m)).
Qed.

(** ** Putting an item in *)

(** The invariant of a shard only depends on its own nodes. *)
Lemma inv_frame pol B m m' s L :
  (∀ y, y ∈ nodes s L → cells m' !! y = cells m !! y) →
  NoDup (nodes s L ++ pool m') → (∀ y, y ∈ pool m' → is_Some (cells m' !! y)) →
  shard_inv pol B m s L → shard_inv pol B m' s L.
Proof.
  intros Hf Hnd Hp [Hlru Hd Hk Hs Hl Ha Hsep Hpool].
  assert (∀ y, y ∈ L → rd m' y = rd m y) as Hrd.
  { intros y Hy. unfold rd. by rewrite Hf by by apply elem_of_nodes. }
  split; try done.
  - eapply lru_frame, Hlru. intros y Hy. unfold get_next, get_prev. by rewrite Hf.
  - intros k y. rewrite Hd. split; intros [Hy Hky]; (split; [done|]); by rewrite ?Hrd in *.
  - intros y Hy. rewrite Hrd by done. by apply Hk.
  - unfold lfu_ok in *. destruct (lfuIdx s); [|done]. destruct Hl as (-> & F & HF & Hdom & Hfr).
    split; [done|]. exists F. split; [done|]. split; [done|]. intros y g Hy.
    rewrite Hrd; [by apply Hfr|]. apply Hdom. eauto.
Qed.

(** [pool.Get] returns an item nobody uses. *)
Lemma pool_get_spec pol B c m s L m1 x :
  shard_inv pol B m s L → pool_get c m = (m1, x) →
  shard_inv pol B m1 s L ∧ (x ∉ nodes s L ++ pool m1) ∧ is_Some (cells m1 !! x) ∧
  (∀ y, is_Some (cells m !! y) → cells m1 !! y = cells m !! y) ∧
  (x ∈ pool m ∨ cells m !! x = None) ∧ (∀ y, y ∈ pool m1 → y ∈ pool m).
Proof.
  intros Hi. pose proof Hi as [_ _ _ _ _ _ Hsep Hpool]. unfold pool_get.
  destruct (c ≫= λ i, pool m !! i) as [x'|] eqn:Ec.
  - destruct c as [j|]; [|done]. cbn in Ec. intros [= <- <-].
    pose proof (delete_Permutation _ _ _ Ec) as HP.
    rewrite HP, <-Permutation_middle in Hsep. apply NoDup_cons in Hsep as [Hx Hnd].
    split_and!; try done.
    + eapply inv_frame, Hi; [done..|]. cbn. intros y Hy. apply Hpool. rewrite HP. by right.
    + apply Hpool. rewrite HP. left.
    + left. rewrite HP. left.
    + cbn. intros y Hy. rewrite HP. by right.
  - destruct (alloc (cells m) zeroItem) as [h x'] eqn:Ea. intros [= <- <-].
    apply alloc_spec in Ea as [Hn ->].
    assert (∀ y, is_Some (cells m !! y) → (<[x' := zeroItem]> (cells m) : heap) !! y = cells m !! y) as Hfr.
    { intros y Hy. rewrite lookup_insert_ne; [done|]. intros ->. rewrite Hn in Hy. by destruct Hy. }
    assert (x' ∉ nodes s L ++ pool m) as Hx.
    { rewrite elem_of_app. intros [Hy|Hy]; [apply (inv_some _ _ _ _ _ _ Hi) in Hy|apply Hpool in Hy];
        rewrite Hn in Hy; by destruct Hy. }
    split_and!; try done; cbn; try (by auto).
    + eapply inv_frame, Hi; cbn; try done.
      * intros y Hy. by apply Hfr, (inv_some _ _ _ _ _ _ Hi).
      * intros y Hy. rewrite Hfr by by apply Hpool. by apply Hpool.
    + rewrite lookup_insert_eq. eauto.
Qed.

(** Linking a detached item that carries the new key. *)
Lemma insert_core pol B m s L x k s' :
  shard_inv pol B m s L → is_Some (cells m !! x) → (x ∉ nodes s L ++ pool m) →
  data s !! k = None → key (rd m x) = Some k →
  data s' = <[k := x]> (data s) → head s' = head s → tail s' = tail s →
  size s' = i64 (size s + 1) → admission s' = admission s →
  let m' := addToHead m s x in
  lfu_ok pol B m' s' (x :: L) → shard_inv pol B m' s' (x :: L).
Proof.
  intros [Hlru Hd Hk Hs _ Ha Hsep Hpool] Hx Hnx Hdk Hkx Ed Eh Et Es Ea m' Hl.
  pose proof (addToLRUHead_payload (cells m) (head s) x) as Hpl.
  assert (∀ y, payload (rd m' y) = payload (rd m y)) as Hrd by (intros y; by apply rd_payload).
  assert (x ∉ L) as HxL. { intros HL. apply Hnx, elem_of_app. left. by apply elem_of_nodes. }
  split; try done.
  - rewrite Eh, Et. apply lru_add; [done..|]. intros HN. apply Hnx, elem_of_app. by left.
  - intros k' y. rewrite Ed, (payload_key _ _ (Hrd y)), lookup_insert_Some, Hd, elem_of_cons. split.
    + intros [[<- <-]|(Hne & Hy & Hky)]; [by auto|]. auto.
    + intros [[->|Hy] Hky]; [left; split; congruence|]. right. split; [|done]. intros ->.
      assert (data s !! k' = Some y) by by apply Hd. congruence.
  - intros y [->|Hy]%elem_of_cons; rewrite (payload_key _ _ (Hrd _)); [eauto|by apply Hk].
  - rewrite Es, Hs, i64_add_l. cbn [length]. f_equal. lia.
  - by rewrite Ea.
  - unfold nodes. rewrite Eh, Et. cbn. apply NoDup_cons in Hsep as Hsep'. destruct Hsep' as [Hh Hsep'].
    apply NoDup_cons. split; [|apply NoDup_cons; split; [|done]].
    + intros [Heq|Hin]%elem_of_cons; [|done]. apply Hnx. rewrite <-Heq. left.
    + intros Hin. apply Hnx. by right.
  - intros y Hy. apply (same_payload_is_Some (cells m)); [done|]. by apply Hpool.
Qed.

(** Two tests that agree on the elements of a list filter it alike. *)
Lemma filter_ext_in {A} (P Q : A → Prop) `{!∀ a, Decision (P a), !∀ a, Decision (Q a)} (l : list A) :
  (∀ a, a ∈ l → P a ↔ Q a) → filter P l = filter Q l.
Proof.
  induction l as [|a l IH]; intros HE; [done|]. rewrite !filter_cons.
  rewrite IH by (intros b Hb; apply HE; by right). specialize (HE a ltac:(left)).
  repeat case_decide; tauto.
Qed.

(** ** [cleanup] removes exactly the expired entries *)
Definition aged (pol : EvictionPolicy) (now : Z) (it : item) : item :=
  if expired now it then it
  else if bool_decide (pol = AdmissionLFU) && (1 <? frequency it)
    then put_freq (Z.shiftr (frequency it) 1) it else it.

Lemma cleanup_visit_spec now pol m ks k x :
  is_Some (cells m !! x) →
  ∃ m', cleanup_visit now pol (m, ks) (k, x) = (m', if expired now (rd m x) then ks ++ [k] else ks) ∧
    (∀ y, rd m' y = if decide (y = x) then aged pol now (rd m x) else rd m y) ∧
    (m' = m ∨ pol = AdmissionLFU ∧ ∃ f, m' = wr m x (put_freq f)).
Proof.
  intros Hx. unfold aged, cleanup_visit. destruct (expired now (rd m x)).
  { exists m. split_and!; [done| |by left]. intros y. by case_decide; subst. }
  case_bool_decide as Hp; cbn [andb].
  - destruct (1 <? frequency (rd m x)).
    + eexists. split; [done|]. split; [|eauto 6]. intros y. by rewrite rd_wr.
    + exists m. split_and!; [done| |by left]. intros y. by case_decide; subst.
  - exists m. split_and!; [done| |by left]. intros y. by case_decide; subst.
Qed.

Lemma cleanup_scan_spec now pol B s L (es : list (K * loc)) m ks0 m' ks :
  shard_inv pol B m s L → NoDup es.*2 → (∀ x, x ∈ es.*2 → x ∈ L) →
  foldl (cleanup_visit now pol) (m, ks0) es = (m', ks) →
  shard_inv pol B m' s L ∧ local m s L m' s L ∧
  (∀ y, rd m' y = if decide (y ∈ es.*2) then aged pol now (rd m y) else rd m y) ∧
  ks = ks0 ++ (filter (λ p, expired now (rd m p.2) = true) es).*1.
Proof.
  revert m ks0. induction es as [|[k x] es IH]; intros m ks0 Hi Hnd Hin; cbn [foldl].
  { intros [= <- <-]. split_and!; [done|apply local_refl| |by rewrite app_nil_r].
    intros y. rewrite decide_False; [done|]. apply not_elem_of_nil. }
  assert (x ∈ L) as HxL by (apply Hin; left).
  destruct (cleanup_visit_spec now pol m ks0 k x) as (m1 & -> & Hrd & Hm1).
  { eapply inv_some; [done|]. by apply elem_of_nodes. }
  assert (shard_inv pol B m1 s L ∧ local m s L m1 s L) as [Hi1 Hl1].
  { destruct Hm1 as [->|[-> [f ->]]]; [split; [done|apply local_refl]|].
    apply inv_wr; try done. apply elem_of_app. left. by apply elem_of_nodes. }
  cbn in Hnd. apply NoDup_cons in Hnd as [Hx Hnd]. intros E.
  apply IH in E as (Hi' & Hl' & Hrd' & ->); [|done..|intros y Hy; apply Hin; by right].
  split_and!; [done|by eapply local_trans| |].
  - intros y. rewrite Hrd', Hrd. cbn [fmap list_fmap snd]. destruct (decide (y = x)) as [->|Hne].
    + rewrite (decide_False (P := x ∈ es.*2)) by done. rewrite decide_True; [done|left].
    + repeat case_decide; try done; set_solver.
  - rewrite filter_cons. cbn [snd].
    assert (filter (λ p : K * loc, expired now (rd m1 p.2) = true) es =
            filter (λ p : K * loc, expired now (rd m p.2) = true) es) as ->.
    { apply filter_ext_in. intros [k' y] Hy. cbn.
      rewrite Hrd, decide_False; [done|]. intros ->. apply Hx. by apply (list_elem_of_fmap_2 snd) in Hy. }
    destruct (expired now (rd m x)) eqn:Ex; cbn.
    + by rewrite <-app_assoc.
    + done.
Qed.

Lemma entry_of_Some (it : item) e : entry_of it = Some e → key it = Some (e_key e).
Proof. unfold entry_of. intros (k & -> & ->)%fmap_Some. done. Qed.

Lemma elem_of_view m L e : e ∈ view m L ↔ ∃ x, x ∈ L ∧ entry_of (rd m x) = Some e.
Proof. apply list_elem_of_omap. Qed.

Lemma view_absent pol B m s L k :
  shard_inv pol B m s L → data s !! k = None → filter (λ e, e_key e ≠ k) (view m L) = view m L.
Proof.
  intros Hi Hk. apply filter_all. intros e (x & Hx & He)%elem_of_view <-.
  assert (data s !! e_key e = Some x); [|congruence].
  apply (si_data _ _ _ _ _ Hi). by apply entry_of_Some in He.
Qed.

Lemma cleanup_drops_spec pol B on ks m s L m' s' :
  shard_inv pol B m s L → foldl (cleanup_drop pol on) (m, s) ks = (m', s') →
  ∃ L', shard_inv pol B m' s' L' ∧ local m s L m' s' L' ∧
    view m' L' = filter (λ e, e_key e ∉ ks) (view m L).
Proof.
  revert m s L. induction ks as [|k ks IH]; intros m s L Hi; cbn [foldl].
  { intros [= <- <-]. exists L. split_and!; [done|apply local_refl|].
    symmetry. apply filter_all. intros e _. apply not_elem_of_nil. }
  assert (∃ L1, shard_inv pol B (cleanup_drop pol on (m, s) k).1 (cleanup_drop pol on (m, s) k).2 L1 ∧
    local m s L (cleanup_drop pol on (m, s) k).1 (cleanup_drop pol on (m, s) k).2 L1 ∧
    view (cleanup_drop pol on (m, s) k).1 L1 = filter (λ e, e_key e ≠ k) (view m L)) as (L1 & Hi1 & Hl1 & Hv1).
  { unfold cleanup_drop. destruct (data s !! k) as [x|] eqn:Ek; cbn [fst snd].
    - destruct (dropItem pol m s k x) as [m1 s1] eqn:Ed. cbn [fst snd].
      destruct (dropItem_spec _ _ _ _ _ _ _ _ _ Hi Ek Ed) as (L1 & ? & ? & ?).
      exists L1. split_and!; [by apply inv_stats|by apply local_stats|done].
    - exists L. split_and!; [done|apply local_refl|]. symmetry. by eapply view_absent. }
  destruct (cleanup_drop pol on (m, s) k) as [m1 s1]. cbn in *. intros E.
  destruct (IH _ _ _ Hi1 E) as (L' & Hi' & Hl' & Hv'). exists L'.
  split_and!; [done|by eapply local_trans|]. rewrite Hv', Hv1, list_filter_filter.
  apply filter_ext_in. intros e _. rewrite not_elem_of_cons. tauto.
Qed.

Definition entry_expired (now : Z) (e : entry) : Prop := 0 < e_expire e < now.
#[global] Instance entry_expired_dec now e : Decision (entry_expired now e).
Proof. unfold entry_expired. apply _. Defined.
Definition entry_aged (pol : EvictionPolicy) (e : entry) : entry :=
  if bool_decide (pol = AdmissionLFU) && (1 <? e_freq e)
  then Entry (e_key e) (e_value e) (e_expire e) (e_access e) (Z.shiftr (e_freq e) 1) else e.

Lemma expired_entry now it e : entry_of it = Some e → expired now it = true ↔ entry_expired now e.
Proof.
  unfold entry_of, expired, entry_expired. intros (k & _ & ->)%fmap_Some. cbn.
  rewrite andb_true_iff, !Z.ltb_lt. tauto.
Qed.

Lemma data_entries pol B m s L :
  shard_inv pol B m s L → NoDup (map_to_list (data s)).*2 ∧ ∀ x, x ∈ (map_to_list (data s)).*2 ↔ x ∈ L.
Proof.
  intros Hi. split.
  - apply NoDup_fmap_2_strong; [|apply NoDup_map_to_list].
    intros [k x] [k' x'] Hk%elem_of_map_to_list Hk'%elem_of_map_to_list. cbn. intros ->.
    apply (si_data _ _ _ _ _ Hi) in Hk as [_ Hk]. apply (si_data _ _ _ _ _ Hi) in Hk' as [_ Hk'].
    congruence.
  - intros x. rewrite list_elem_of_fmap. split.
    + intros ([k x'] & -> & Hk%elem_of_map_to_list). by eapply inv_in.
    + intros Hx. destruct (si_keys _ _ _ _ _ Hi x Hx) as [k Hk]. exists (k, x). split; [done|].
      apply elem_of_map_to_list. by apply (si_data _ _ _ _ _ Hi).
Qed.

Lemma view_cleaned now pol m m' L (ks : list K) :
  (∀ x, x ∈ L → rd m' x = aged pol now (rd m x)) →
  (∀ x k, x ∈ L → key (rd m x) = Some k → k ∈ ks ↔ expired now (rd m x) = true) →
  filter (λ e, e_key e ∉ ks) (view m' L) =
  entry_aged pol <$> filter (λ e, ¬ entry_expired now e) (view m L).
Proof.
  induction L as [|x L IH]; intros Hrd Hks; [done|]. unfold view in *. cbn.
  rewrite Hrd by left. specialize (IH ltac:(intros y Hy; apply Hrd; by right)
    ltac:(intros y k Hy; apply Hks; by right)).
  destruct (entry_of (rd m x)) as [e|] eqn:Ee.
  - pose proof (entry_of_Some _ _ Ee) as Hke. specialize (Hks x (e_key e) ltac:(left) Hke).
    rewrite (expired_entry now _ _ Ee) in Hks.
    assert (∃ e', entry_of (aged pol now (rd m x)) = Some e' ∧ e_key e' = e_key e ∧
      (¬ entry_expired now e → e' = entry_aged pol e)) as (e' & -> & Eke & Eag).
    { pose proof (expired_entry now _ _ Ee) as Hex. unfold aged.
      destruct (expired now (rd m x)); [exists e; naive_solver|].
      unfold entry_of in Ee. apply fmap_Some in Ee as (k & Hk & ->). unfold entry_aged. cbn.
      destruct (bool_decide (pol = AdmissionLFU) && (1 <? frequency (rd m x))); unfold entry_of; cbn; rewrite Hk; eauto. }
    rewrite !filter_cons, Eke, IH. repeat case_decide; try tauto. cbn. by rewrite Eag.
  - assert (entry_of (aged pol now (rd m x)) = None) as ->; [|done].
    unfold entry_of in *. apply fmap_None in Ee. apply fmap_None. unfold aged.
    destruct (expired now (rd m x)); [done|].
    by destruct (bool_decide (pol = AdmissionLFU) && (1 <? frequency (rd m x))).
Qed.

Lemma cleanup_spec o pol B now on m s L m' s' :
  shard_inv pol B m s L → cleanup o m s now pol on = (m', s') →
  ∃ L', shard_inv pol B m' s' L' ∧ local m s L m' s' L' ∧
    view m' L' = entry_aged pol <$> filter (λ e, ¬ entry_expired now e) (view m L).
Proof.
  intros Hi. unfold cleanup.
  destruct (foldl (cleanup_visit now pol) _ _) as [m1 ks] eqn:E1. intros E2.
  destruct (data_entries _ _ _ _ _ Hi) as [Hnd Hin].
  pose proof (range_perm o (map_to_list (data s))) as HP.
  apply (cleanup_scan_spec now pol B s L) in E1 as (Hi1 & Hl1 & Hrd & ->); [|done|by rewrite HP|].
  2: { intros x. rewrite HP. apply Hin. }
  destruct (cleanup_drops_spec _ _ _ _ _ _ _ _ _ Hi1 E2) as (L' & Hi' & Hl' & Hv).
  exists L'. split_and!; [done|by eapply local_trans|]. rewrite Hv. apply view_cleaned.
  - intros x Hx. rewrite Hrd, decide_True; [done|]. rewrite HP. by apply Hin.
  - intros x k Hx Hk. cbn [app]. rewrite list_elem_of_fmap. split.
    + intros ([k' y] & -> & [Hy Hin']%list_elem_of_filter). cbn in *.
      rewrite HP in Hin'. apply elem_of_map_to_list, (si_data _ _ _ _ _ Hi) in Hin'.
      assert (data s !! k' = Some x) by by apply (si_data _ _ _ _ _ Hi).
      assert (data s !! k' = Some y) by by apply (si_data _ _ _ _ _ Hi). by simplify_eq.
    + intros Hex. exists (k, x). split; [done|]. apply list_elem_of_filter. split; [done|].
      rewrite HP. by apply elem_of_map_to_list, (si_data _ _ _ _ _ Hi).
Qed.
End Shard.
Arguments mem : clear implicits.
Arguments shard _ {_ _}.
