(* ===== verification/Eviction.v ===== *)
(** * Replacement policies ([src/eviction.go])

    [evict] is the dispatch through the interface [evictor]; [createEvictor] chooses the
    implementation.  [Evictor] states what the cache relies on (a successful eviction removes
    exactly one entry, chosen by the policy's rule; it fails only on an empty shard), and the
    four implementations are its instances. *)
From Stdlib Require Import ZArith Lia.
From stdpp Require Import base numbers gmap list sets.
From S2P Require Import Prelude Admission Dll Lru Lfu Shard.
Local Open Scope Z_scope.

Definition defaultAdmissionLFUSampleSize : Z := 5.
Definition maxAdmissionLFUSampleSize : Z := 20.

Inductive evictor := lruEvictor | lfuEvictor | fifoEvictor | admissionLFUEvictor (sampleSize : Z).

Definition createEvictor (policy : EvictionPolicy) : evictor :=
  match policy with
  | LRU => lruEvictor
  | LFU => lfuEvictor
  | FIFO => fifoEvictor
  | AdmissionLFU => admissionLFUEvictor defaultAdmissionLFUSampleSize
  | OtherPolicy _ => admissionLFUEvictor defaultAdmissionLFUSampleSize
  end.

Section Eviction.
Context {K V : Type} `{EqDecision K, !Countable K} {zeroV : Inhabited V}.
Abbreviation mem := (mem K V).
Abbreviation shard := (shard K).
Implicit Types m : mem.
Implicit Types s : shard.
Implicit Types L : list loc.

(** [if key, ok := it.key.(K); ok { delete(s.data, key) }]. *)
Definition deleteKeyOf (m : mem) (s : shard) (x : loc) : shard :=
  match key (rd m x) with
  | Some k => with_data (delete k (data s)) s
  | None => s
  end.

Definition lru_evict (m : mem) (s : shard) (statsEnabled : bool) : mem * shard * bool :=
  if bool_decide (get_prev (cells m) (tail s) = Some (head s)) then (m, s, false)
  else
    match get_prev (cells m) (tail s) with
    | Some lru =>
        if bool_decide (is_Some (key (rd m lru))) then
          let s := deleteKeyOf m s lru in
          let m := removeFromList m lru in
          let m := pool_put m lru in
          let s := add_size (-1) s in
          (m, bump_stats statsEnabled 0 0 1 0 s, true)
        else (m, s, false)
    | None => (m, s, false)
    end.

Definition lfu_evict (o : rangeOrder) (m : mem) (s : shard) (statsEnabled : bool) : mem * shard * bool :=
  match lfuIdx s with
  | None => (m, s, false)
  | Some l =>
      let '(l, victim) := removeLFU o l in
      let s := with_lfu (Some l) s in
      match victim with
      | None => (m, s, false)
      | Some lfu =>
          if bool_decide (is_Some (key (rd m lfu))) then
            let s := deleteKeyOf m s lfu in
            let m := removeFromList m lfu in
            let m := pool_put m lfu in
            let s := add_size (-1) s in
            (m, bump_stats statsEnabled 0 0 1 0 s, true)
          else (m, s, false)
      end
  end.

Definition fifo_evict (m : mem) (s : shard) (statsEnabled : bool) : mem * shard * bool :=
  if bool_decide (get_prev (cells m) (tail s) = Some (head s)) then (m, s, false)
  else
    match get_prev (cells m) (tail s) with
    | Some oldest =>
        if bool_decide (is_Some (key (rd m oldest))) then
          let s := deleteKeyOf m s oldest in
          let m := removeFromList m oldest in
          let s := lfu_remove s oldest in
          let m := pool_put m oldest in
          let s := add_size (-1) s in
          (m, bump_stats statsEnabled 0 0 1 0 s, true)
        else (m, s, false)
    | None => (m, s, false)
    end.

(** The number of items [pickVictim] looks at. *)
Definition sampleCount (sampleSize : Z) (s : shard) : Z :=
  let n := if sampleSize <=? 0 then defaultAdmissionLFUSampleSize
           else if maxAdmissionLFUSampleSize <? sampleSize then maxAdmissionLFUSampleSize
           else sampleSize in
  let len := Z.of_nat (base.size (data s)) in
  if len <? n then len else n.

(** [worse m it victim]: [it] replaces [victim] as the candidate. *)
Definition worse (m : mem) (it victim : loc) : bool :=
  (frequency (rd m it) <? frequency (rd m victim))
  || ((frequency (rd m it) =? frequency (rd m victim))
      && (lastAccess (rd m it) <? lastAccess (rd m victim))).

(** The scan: [cnt] items seen, stop once [n] are. *)
Fixpoint pickVictim_loop (m : mem) (n cnt : Z) (victim : option loc) (its : list loc) : option loc :=
  match its with
  | [] => victim
  | it :: its =>
      let victim :=
        match victim with
        | None => Some it
        | Some v => if worse m it v then Some it else Some v
        end in
      let cnt := cnt + 1 in
      if n <=? cnt then victim else pickVictim_loop m n cnt victim its
  end.

Definition pickVictim (sampleSize : Z) (o : rangeOrder) (m : mem) (s : shard) : option loc :=
  if bool_decide (base.size (data s) = 0%nat) then None
  else pickVictim_loop m (sampleCount sampleSize s) 0 None (range o (map_to_list (data s))).*2.

Definition removeVictim (m : mem) (s : shard) (victim : loc) (statsEnabled : bool) : mem * shard :=
  let s := deleteKeyOf m s victim in
  let m := removeFromList m victim in
  let m := pool_put m victim in
  let s := add_size (-1) s in
  (m, bump_stats statsEnabled 0 0 1 0 s).

Definition admissionLFU_evict (sampleSize : Z) (o : rangeOrder) (m : mem) (s : shard)
    (statsEnabled : bool) : mem * shard * bool :=
  match pickVictim sampleSize o m s with
  | None => (m, s, false)
  | Some victim =>
      let s :=
        match admission s with
        | Some _ => with_victim (u64 (frequency (rd m victim))) s
        | None => s
        end in
      (removeVictim m s victim statsEnabled, true)
  end.

Definition evictWithAdmission (sampleSize : Z) (o : rangeOrder) (c : Admission.clock) (m : mem) (s : shard)
    (statsEnabled : bool) (adm : Admission.adaptiveAdmissionFilter) (keyHash : Z) : mem * shard * bool :=
  match pickVictim sampleSize o m s with
  | None => (m, s, false)
  | Some victim =>
      let freq := u64 (frequency (rd m victim)) in
      let victimAge := lastAccess (rd m victim) in
      let s := with_victim freq s in
      let '(adm, grant) := Admission.shouldAdmit c adm keyHash freq victimAge in
      let s := with_admission (Some adm) s in
      if negb grant then (m, s, false)
      else
        let '(m, s) := removeVictim m s victim statsEnabled in
        let s := with_admission (Some (Admission.RecordEviction adm)) s in
        (m, s, true)
  end.

Definition evict (ev : evictor) (o : rangeOrder) (m : mem) (s : shard) (statsEnabled : bool)
    : mem * shard * bool :=
  match ev with
  | lruEvictor => lru_evict m s statsEnabled
  | lfuEvictor => lfu_evict o m s statsEnabled
  | fifoEvictor => fifo_evict m s statsEnabled
  | admissionLFUEvictor n => admissionLFU_evict n o m s statsEnabled
  end.

(** ** The contract of the interface *)

(** The least frequent entry of some sample of [n] entries, ties broken by age. *)
Definition sampled (n : nat) (es : list (@entry K V)) (e : entry) : Prop :=
  ∃ sample, sample ⊆+ es ∧ length sample = Nat.min n (length es) ∧ e ∈ sample ∧
    ∀ e', e' ∈ sample → e_freq e < e_freq e' ∨ (e_freq e = e_freq e' ∧ e_access e ≤ e_access e').

Definition victim_rule (pol : EvictionPolicy) (es : list (@entry K V)) (e : entry) : Prop :=
  match pol with
  | LRU | FIFO => last es = Some e
  | LFU => ∀ e', e' ∈ es → e_freq e ≤ e_freq e'
  | AdmissionLFU | OtherPolicy _ => sampled 5 es e
  end.

(** One entry [e] is gone, everything else is as it was. *)
Definition evicted (pol : EvictionPolicy) (B : Z) m s L m' s' (e : entry) : Prop :=
  e ∈ view m L ∧ ∃ L', shard_inv pol B m' s' L' ∧ local m s L m' s' L' ∧
    length L = S (length L') ∧ view m' L' = filter (λ e', e_key e' ≠ e_key e) (view m L).

Class Evictor (pol : EvictionPolicy) (ev : rangeOrder → mem → shard → bool → mem * shard * bool) :=
  evict_step : ∀ o B m s L on m' s' (ok : bool),
    shard_inv pol B m s L → ev o m s on = (m', s', ok) →
    if ok then ∃ e, victim_rule pol (view m L) e ∧ evicted pol B m s L m' s' e
    else L = [] ∧ m' = m ∧ shard_inv pol B m s' L ∧ local m s L m' s' L.

(** ** What the implementations share *)
Lemma deleteKeyOf_Some m s x k :
  key (rd m x) = Some k → deleteKeyOf m s x = with_data (delete k (data s)) s.
Proof. unfold deleteKeyOf. by intros ->. Qed.

Lemma elem_of_view_key pol B m s L x :
  shard_inv pol B m s L → x ∈ L →
  ∃ e, entry_of (rd m x) = Some e ∧ e ∈ view m L ∧ data s !! e_key e = Some x ∧
    e_freq e = frequency (rd m x) ∧ e_access e = lastAccess (rd m x).
Proof.
  intros Hi Hx. destruct (si_keys _ _ _ _ _ Hi x Hx) as [k Hk].
  assert (∃ e, entry_of (rd m x) = Some e) as [e He] by (unfold entry_of; rewrite Hk; eauto).
  exists e. split; [done|]. split; [apply elem_of_view; eauto|].
  pose proof (entry_of_Some _ _ He) as Hke. split; [by apply (si_data _ _ _ _ _ Hi)|].
  unfold entry_of in He. rewrite Hk in He. cbn in He. by simplify_eq.
Qed.

Lemma take_spec pol B m s L x e s' :
  shard_inv pol B m s L → x ∈ L → entry_of (rd m x) = Some e →
  data s' = delete (e_key e) (data s) → head s' = head s → tail s' = tail s →
  size s' = i64 (size s + -1) → from_option Admission.aaf_wf True (admission s') →
  let m' := pool_put (removeFromList m x) x in
  (∀ L1 L2, L = L1 ++ x :: L2 → lfu_ok pol B m' s' (L1 ++ L2)) →
  evicted pol B m s L m' s' e.
Proof.
  intros Hi Hx He Ed Eh Et Es Ha m' Hl. split; [apply elem_of_view; eauto|].
  destruct (list_elem_of_split _ _ Hx) as (L1 & L2 & ->). exists (L1 ++ L2).
  pose proof (entry_of_Some _ _ He) as Hke.
  destruct (drop_core pol B m s L1 L2 (e_key e) x s') as (? & ? & ?); try done.
  - by apply (si_data _ _ _ _ _ Hi).
  - by apply Hl.
  - split_and!; try done. rewrite !length_app. cbn. lia.
Qed.

(** Without an LFU index there is nothing to keep in step. *)
Lemma lfu_ok_none pol B m s L m' s' L' :
  shard_inv pol B m s L → pol ≠ LFU → lfuIdx s' = lfuIdx s → lfu_ok pol B m' s' L'.
Proof.
  intros Hi Hp E. pose proof (si_lfu _ _ _ _ _ Hi) as Hl. unfold lfu_ok in *. rewrite E.
  destruct (lfuIdx s); [|done]. by destruct Hl.
Qed.

Lemma lfu_ok_some B m s L l F :
  lfuIdx s = Some l → lfu_rep l F → covers B F m L → lfu_ok LFU B m s L.
Proof. unfold lfu_ok. intros -> HF [? ?]. split; [done|]. by exists F. Qed.

Lemma lfu_none pol B m s L : shard_inv pol B m s L → pol ≠ LFU → lfuIdx s = None.
Proof.
  intros Hi Hp. pose proof (si_lfu _ _ _ _ _ Hi) as Hl. unfold lfu_ok in Hl.
  destruct (lfuIdx s); [|done]. by destruct Hl.
Qed.

Lemma view_last m L x e : last L = Some x → entry_of (rd m x) = Some e → last (view m L) = Some e.
Proof.
  intros Hl He. apply last_Some in Hl as [L' ->]. rewrite view_app. unfold view at 2. cbn.
  rewrite He. apply last_snoc.
Qed.

(** The item before the tail sentinel, as [lruEvictor] and [fifoEvictor] find it. *)
Lemma tail_prev pol B m s L :
  shard_inv pol B m s L →
  match last L with
  | None => L = [] ∧ get_prev (cells m) (tail s) = Some (head s)
  | Some x => x ∈ L ∧ get_prev (cells m) (tail s) = Some x ∧ x ≠ head s
  end.
Proof.
  intros Hi. pose proof (lru_last _ _ _ _ (si_lru _ _ _ _ _ Hi)) as Hl.
  destruct (last L) as [x|] eqn:E.
  - assert (x ∈ L) as Hx. { apply last_Some in E as [L' ->]. apply elem_of_app. right. left. }
    split_and!; [done..|]. intros ->. destruct (si_lru _ _ _ _ _ Hi) as (_ & Hnd & _).
    apply NoDup_cons in Hnd as [Hnd _]. apply Hnd, elem_of_app. by left.
  - split; [by apply last_None|done].
Qed.

#[global] Instance lru_Evictor : Evictor LRU (λ _ m s on, lru_evict m s on).
Proof.
  intros o B m s L on m' s' ok Hi. unfold lru_evict. pose proof (tail_prev _ _ _ _ _ Hi) as Ht.
  destruct (last L) as [x|] eqn:El.
  - destruct Ht as (Hx & -> & Hne). rewrite bool_decide_eq_false_2 by congruence.
    destruct (elem_of_view_key _ _ _ _ _ _ Hi Hx) as (e & He & _).
    pose proof (entry_of_Some _ _ He) as Hke.
    rewrite bool_decide_eq_true_2 by (rewrite Hke; eauto). rewrite (deleteKeyOf_Some _ _ _ _ Hke).
    intros [= <- <- <-]. exists e. split; [by eapply view_last|].
    eapply take_spec; try done; try (by destruct on).
    + pose proof (si_adm _ _ _ _ _ Hi). by destruct on.
    + intros L1 L2 _. eapply lfu_ok_none; [done..|]. by destruct on.
  - destruct Ht as [-> ->]. rewrite bool_decide_eq_true_2 by done. intros [= <- <- <-].
    split_and!; [done..|apply local_refl].
Qed.

#[global] Instance fifo_Evictor : Evictor FIFO (λ _ m s on, fifo_evict m s on).
Proof.
  intros o B m s L on m' s' ok Hi. unfold fifo_evict. pose proof (tail_prev _ _ _ _ _ Hi) as Ht.
  destruct (last L) as [x|] eqn:El.
  - destruct Ht as (Hx & -> & Hne). rewrite bool_decide_eq_false_2 by congruence.
    destruct (elem_of_view_key _ _ _ _ _ _ Hi Hx) as (e & He & _).
    pose proof (entry_of_Some _ _ He) as Hke.
    rewrite bool_decide_eq_true_2 by (rewrite Hke; eauto). rewrite (deleteKeyOf_Some _ _ _ _ Hke).
    intros [= <- <- <-]. exists e. split; [by eapply view_last|].
    eapply take_spec; try done; try (by destruct on).
    + pose proof (si_adm _ _ _ _ _ Hi). by destruct on.
    + intros L1 L2 _. eapply lfu_ok_none; [done..|].
      assert (lfuIdx s = None) as Hn by by eapply lfu_none. destruct on; cbn; by rewrite Hn.
  - destruct Ht as [-> ->]. rewrite bool_decide_eq_true_2 by done. intros [= <- <- <-].
    split_and!; [done..|apply local_refl].
Qed.

#[global] Instance lfu_Evictor : Evictor LFU lfu_evict.
Proof.
  intros o B m s L on m' s' ok Hi. unfold lfu_evict. pose proof (si_lfu _ _ _ _ _ Hi) as Hl.
  unfold lfu_ok in Hl. destruct (lfuIdx s) as [l|] eqn:Eli; [|done].
  destruct Hl as (_ & F & HF & Hc & Hfr). destruct (removeLFU o l) as [l' v] eqn:Er.
  apply (removeLFU_spec _ _ F) in Er; [|done]. destruct v as [x|].
  - destruct Er as (f & Hf & Hmin & Hrep). assert (x ∈ L) as Hx by (apply Hc; eauto).
    destruct (elem_of_view_key _ _ _ _ _ _ Hi Hx) as (e & He & _ & _ & Hef & _).
    pose proof (entry_of_Some _ _ He) as Hke.
    rewrite bool_decide_eq_true_2 by (rewrite Hke; eauto). rewrite (deleteKeyOf_Some _ _ _ _ Hke).
    intros [= <- <- <-]. exists e. split.
    + cbn. intros e' (y & Hy & Hye)%elem_of_view. destruct (proj1 (Hc y) Hy) as [g Hg].
      unfold entry_of in Hye. apply fmap_Some in Hye as (k' & _ & ->). cbn.
      destruct (Hfr _ _ Hg) as [_ ->]. destruct (Hfr _ _ Hf) as [_ Hff]. rewrite Hef, Hff. by eapply Hmin.
    + eapply take_spec; try done; try (by destruct on).
      * pose proof (si_adm _ _ _ _ _ Hi). by destruct on.
      * intros L1 L2 ->. apply (lfu_ok_some _ _ _ _ l' (delete x F)); [by destruct on|done|].
        eapply covers_drop; [by split|by eapply inv_nodup|].
        intros y. apply payload_freq, rd_payload, removeFromLRU_payload.
  - destruct Er as [-> ->]. intros [= <- <- <-].
    assert (L = []) as ->.
    { destruct L as [|y L]; [done|]. destruct (proj1 (Hc y)) as [g Hg]; [left|done]. }
    split_and!; [done..| |by split; auto]. destruct Hi. split; try done.
    unfold lfu_ok. cbn. split; [done|]. by exists ∅.
Qed.

(** ** Sampling *)
Definition no_worse (m : mem) (v it : loc) : Prop :=
  frequency (rd m v) < frequency (rd m it) ∨
  (frequency (rd m v) = frequency (rd m it) ∧ lastAccess (rd m v) ≤ lastAccess (rd m it)).

Lemma worse_false m it v : worse m it v = false → no_worse m v it.
Proof.
  unfold worse, no_worse. rewrite orb_false_iff, andb_false_iff, Z.ltb_ge, Z.eqb_neq, Z.ltb_ge. lia.
Qed.
Lemma worse_true m it v : worse m it v = true → no_worse m it v.
Proof.
  unfold worse, no_worse. rewrite orb_true_iff, andb_true_iff, !Z.ltb_lt, Z.eqb_eq. lia.
Qed.
Lemma no_worse_refl m v : no_worse m v v.
Proof. unfold no_worse. lia. Qed.
Lemma no_worse_trans m u v w : no_worse m u v → no_worse m v w → no_worse m u w.
Proof. unfold no_worse. lia. Qed.

(** The loop looks at the first [n - cnt] items and keeps a worst one. *)
Lemma pickVictim_loop_spec m n its cnt v0 seen :
  cnt < n → (match v0 with Some v => v ∈ seen ∧ ∀ y, y ∈ seen → no_worse m v y | None => seen = [] end) →
  (seen ≠ [] ∨ its ≠ []) →
  ∃ v, pickVictim_loop m n cnt v0 its = Some v ∧
    let sample := seen ++ take (Z.to_nat (n - cnt)) its in
    v ∈ sample ∧ ∀ y, y ∈ sample → no_worse m v y.
Proof.
  revert cnt v0 seen. induction its as [|it its IH]; intros cnt v0 seen Hlt Hv Hne; cbn [pickVictim_loop].
  - destruct v0 as [v|]; [|naive_solver]. exists v. rewrite take_nil, app_nil_r. by destruct Hv.
  - set (v1 := match v0 with Some v => if worse m it v then Some it else Some v | None => Some it end).
    assert (∃ v, v1 = Some v ∧ v ∈ seen ++ [it] ∧ ∀ y, y ∈ seen ++ [it] → no_worse m v y)
      as (v & Ev & Hv1 & Hv2).
    { subst v1. destruct v0 as [v|].
      - destruct Hv as [Hvs Hmin]. destruct (worse m it v) eqn:Ew.
        + exists it. split; [done|]. split; [set_solver|]. intros y [Hy|Hy%list_elem_of_singleton]%elem_of_app; [|subst y].
          * eapply no_worse_trans; [by apply worse_true|by apply Hmin].
          * apply no_worse_refl.
        + exists v. split; [done|]. split; [set_solver|]. intros y [Hy|Hy%list_elem_of_singleton]%elem_of_app; [|subst y].
          * by apply Hmin.
          * by apply worse_false.
      - subst seen. exists it. split; [done|]. split; [left|]. intros y Hy%list_elem_of_singleton. subst y. apply no_worse_refl. }
    assert (Z.to_nat (n - cnt) = S (Z.to_nat (n - (cnt + 1)))) as -> by lia. cbn [take].
    destruct (Z.leb_spec n (cnt + 1)).
    + exists v. split; [done|]. assert (Z.to_nat (n - (cnt + 1)) = 0%nat) as -> by lia. by rewrite take_0.
    + rewrite Ev. destruct (IH (cnt + 1) (Some v) (seen ++ [it])) as (w & Hw & Hsample); [lia|done|left; by destruct seen|].
      exists w. split; [done|]. by rewrite <-app_assoc in Hsample.
Qed.

Lemma view_Permutation m L1 L2 : L1 ≡ₚ L2 → view m L1 ≡ₚ view m L2.
Proof.
  induction 1 as [| |x y L|]; unfold view in *; cbn.
  - done.
  - by destruct (entry_of (rd m x)); [f_equiv|].
  - destruct (entry_of (rd m x)), (entry_of (rd m y)); try done. apply Permutation_swap.
  - by etrans.
Qed.

Lemma view_length pol B m s L L' :
  shard_inv pol B m s L → (∀ x, x ∈ L' → x ∈ L) → length (view m L') = length L'.
Proof.
  intros Hi. induction L' as [|x L' IH]; intros Hin; [done|]. unfold view in *. cbn.
  destruct (elem_of_view_key _ _ _ _ _ x Hi) as (e & -> & _); [apply Hin; left|].
  cbn. f_equal. apply IH. intros y Hy. apply Hin. by right.
Qed.

Lemma data_Permutation pol B o m s L :
  shard_inv pol B m s L →
  (range o (map_to_list (data s))).*2 ≡ₚ L ∧ base.size (data s) = length L.
Proof.
  intros Hi. destruct (data_entries _ _ _ _ _ Hi) as [Hnd Hin].
  assert ((map_to_list (data s)).*2 ≡ₚ L) as HP.
  { apply NoDup_Permutation; [done|by eapply inv_nodup|done]. }
  split; [by rewrite range_perm|]. rewrite <-HP, length_fmap. by rewrite length_map_to_list.
Qed.

(** The victim, read off the view. *)
Lemma pickVictim_spec n pol B o m s L :
  shard_inv pol B m s L → 0 < n ≤ 20 →
  match pickVictim n o m s with
  | None => L = []
  | Some x => x ∈ L ∧ ∃ e, entry_of (rd m x) = Some e ∧ sampled (Z.to_nat n) (view m L) e
  end.
Proof.
  intros Hi Hn. destruct (data_Permutation _ _ o _ _ _ Hi) as [HP Hsz]. unfold pickVictim.
  case_bool_decide as Hz; [by apply nil_length_inv; congruence|].
  set (its := (range o (map_to_list (data s))).*2) in *.
  assert (sampleCount n s = Z.of_nat (Nat.min (Z.to_nat n) (length L))) as Hc.
  { unfold sampleCount, maxAdmissionLFUSampleSize. rewrite Hsz.
    destruct (Z.leb_spec n 0); [lia|]. destruct (Z.ltb_spec 20 n); [lia|].
    destruct (Z.ltb_spec (Z.of_nat (length L)) n); lia. }
  destruct (pickVictim_loop_spec m (sampleCount n s) its 0 None []) as (x & -> & Hx & Hmin); [lia|done|right|].
  { intros E. rewrite E in HP. apply Permutation_nil_l in HP. subst L. done. }
  cbn [app] in Hx, Hmin. rewrite Z.sub_0_r in Hx, Hmin.
  set (smp := take (Z.to_nat (sampleCount n s)) its) in *.
  assert (∀ y, y ∈ smp → y ∈ L) as Hsub.
  { intros y Hy. rewrite <-HP. by apply elem_of_take in Hy as (j & ? & _); eapply list_elem_of_lookup_2. }
  split; [by apply Hsub|].
  destruct (elem_of_view_key _ _ _ _ _ x Hi (Hsub x Hx)) as (e & He & _ & _ & Hef & Hea).
  exists e. split; [done|]. exists (view m smp). split_and!.
  - rewrite <-(view_Permutation _ _ _ HP), <-(take_drop (Z.to_nat (sampleCount n s)) its), view_app.
    apply submseteq_inserts_r. done.
  - rewrite !(view_length _ _ _ _ _ _ Hi) by done. unfold smp. rewrite length_take, HP, Hc. lia.
  - apply elem_of_view. eauto.
  - intros e' (y & Hy & He')%elem_of_view.
    destruct (elem_of_view_key _ _ _ _ _ y Hi (Hsub y Hy)) as (e2 & He2 & _ & _ & Hef2 & Hea2).
    simplify_eq. rewrite Hef, Hea, Hef2, Hea2. by apply Hmin.
Qed.

Lemma removeVictim_spec pol B m s0 s L x e on m' s' :
  shard_inv pol B m s0 L → pol ≠ LFU → x ∈ L → entry_of (rd m x) = Some e →
  data s = data s0 → head s = head s0 → tail s = tail s0 → size s = size s0 → lfuIdx s = lfuIdx s0 →
  from_option Admission.aaf_wf True (admission s) →
  removeVictim m s x on = (m', s') →
  evicted pol B m s0 L m' s' e ∧ admission s' = admission s.
Proof.
  intros Hi Hp Hx He Ed Eh Et Es El Ha. unfold removeVictim.
  rewrite (deleteKeyOf_Some _ _ _ _ (entry_of_Some _ _ He)). intros [= <- <-].
  split; [|by destruct on]. eapply take_spec; try done; try (by destruct on).
  - rewrite <-Ed. by destruct on.
  - rewrite <-Es. by destruct on.
  - intros L1 L2 _. eapply lfu_ok_none; [done..|]. rewrite <-El. by destruct on.
Qed.

Lemma admissionLFU_step n pol o B m s L on m' s' ok :
  shard_inv pol B m s L → pol ≠ LFU → 0 < n ≤ 20 →
  admissionLFU_evict n o m s on = (m', s', ok) →
  if ok then ∃ e, sampled (Z.to_nat n) (view m L) e ∧ evicted pol B m s L m' s' e
  else L = [] ∧ m' = m ∧ shard_inv pol B m s' L ∧ local m s L m' s' L.
Proof.
  intros Hi Hp Hn. unfold admissionLFU_evict. pose proof (pickVictim_spec n _ _ o _ _ _ Hi Hn) as Hv.
  pose proof (si_adm _ _ _ _ _ Hi) as Ha.
  destruct (pickVictim n o m s) as [x|].
  - destruct Hv as (Hx & e & He & Hsm).
    set (s1 := match admission s with Some _ => _ | None => s end).
    destruct (removeVictim m s1 x on) as [m1 s2] eqn:Er. intros [= <- <- <-].
    exists e. split; [done|]. eapply removeVictim_spec in Er as [? _]; try done;
      unfold s1; destruct (admission s) eqn:Ea; try done; cbn [with_victim admission]; by rewrite Ea.
  - intros [= <- <- <-]. split_and!; [done..|apply local_refl].
Qed.

#[global] Instance admissionLFU_Evictor : Evictor AdmissionLFU (admissionLFU_evict 5).
Proof. intros o B m s L on m' s' ok Hi E. by apply (admissionLFU_step 5 AdmissionLFU _ B _ _ L) in E. Qed.
#[global] Instance other_Evictor n : Evictor (OtherPolicy n) (admissionLFU_evict 5).
Proof. intros o B m s L on m' s' ok Hi E. by apply (admissionLFU_step 5 (OtherPolicy n) _ B _ _ L) in E. Qed.

(** The implementation [createEvictor] picks meets the contract of its policy. *)
#[global] Instance created_Evictor pol : Evictor pol (evict (createEvictor pol)).
Proof. destruct pol; cbn; apply _. Qed.

(** With the admission filter a full shard may also turn the newcomer down, and then nothing
    but the filter's own state changes. *)
Lemma evictWithAdmission_spec pol o c B m s L on adm kh m' s' ok :
  shard_inv pol B m s L → pol ≠ LFU → admission s = Some adm →
  evictWithAdmission 5 o c m s on adm kh = (m', s', ok) →
  if ok then ∃ e, sampled 5 (view m L) e ∧ evicted pol B m s L m' s' e
  else m' = m ∧ shard_inv pol B m s' L ∧ local m s L m' s' L ∧ data s' = data s.
Proof.
  intros Hi Hp Ea. unfold evictWithAdmission.
  pose proof (pickVictim_spec 5 _ _ o _ _ _ Hi ltac:(lia)) as Hv.
  pose proof (si_adm _ _ _ _ _ Hi) as Ha. rewrite Ea in Ha. cbn in Ha.
  destruct (pickVictim 5 o m s) as [x|].
  2: { intros [= <- <- <-]. split_and!; [done..|apply local_refl|done]. }
  destruct Hv as (Hx & e & He & Hsm).
  pose proof (Admission.shouldAdmit_wf c adm kh (u64 (frequency (rd m x))) (lastAccess (rd m x)) Ha) as Hwf.
  destruct (Admission.shouldAdmit c adm kh _ _) as [adm' grant]. cbn in Hwf.
  destruct grant; cbn [negb].
  - destruct (removeVictim m _ x on) as [m1 s1] eqn:Er. intros [= <- <- <-].
    exists e. split; [done|]. eapply removeVictim_spec in Er as [[He' (L' & Hi' & Hl' & Hlen & Hv')] _]; try done.
    split; [done|]. exists L'. split_and!; try done.
    + destruct Hi'. split; try done.
    + destruct Hl'. by split.
  - intros [= <- <- <-]. split_and!; try done; [destruct Hi; by split|by split; auto].
Qed.
End Eviction.
