(* ===== verification/Cache.v ===== *)
(** * The sharded cache ([src/cache.go], [src/snapshot.go])

    [InMemoryCache] is the list of shards over one store.  Every operation is the sequence of
    critical sections the code runs: [locked] runs one section under the lock of one shard.
    What the runtime decides during a call (the clock, the order of map iteration, the item
    the pool hands out) is an argument of the operation. *)
From Stdlib Require Import ZArith Lia.
From stdpp Require Import base numbers gmap list sets.
From S2P Require Import Prelude MathUtil Hash Admission Dll Lru Lfu Shard Eviction.
Local Open Scope Z_scope.

Definition NoExpiration : Z := -1.
Definition DefaultExpiration : Z := 0.
Definition second : Z := 1000000000.
Definition minute : Z := 60 * second.
Definition defaultMaxSize : Z := 10000.
Definition defaultCleanupInterval : Z := 5 * minute.
Definition defaultTTL : Z := 30 * minute.
Definition maxShardCount : Z := 256.
Definition shardMultiplier : Z := 4.

Record Config := MkConfig {
  MaxSize : Z;
  ShardCount : Z;
  CleanupInterval : Z;
  DefaultTTL : Z;
  Policy : EvictionPolicy;
  StatsEnabled : bool;
  AdmissionResetInterval : Z;
  AdmissionScanRateThreshold : Z;
  AdmissionScanMissThreshold : Z;
  AdmissionScanRecencyThreshold : Z;
  AdmissionRecencyTieBreak : Z }.

Definition DefaultConfig : Config := {|
  MaxSize := defaultMaxSize;
  ShardCount := 0;
  CleanupInterval := defaultCleanupInterval;
  DefaultTTL := defaultTTL;
  Policy := AdmissionLFU;
  StatsEnabled := true;
  AdmissionResetInterval := 1 * minute;
  AdmissionScanRateThreshold := Admission.defaultScanAdmissionThreshold;
  AdmissionScanMissThreshold := Admission.defaultScanMissThreshold;
  AdmissionScanRecencyThreshold := Admission.defaultScanRecencyThreshold;
  AdmissionRecencyTieBreak := Admission.defaultRecencyTieBreak |}.

(** What the code needs of a key type: the hash [newHasher] selects for it. *)
Class Hasher (K : Type) := khash : K → Z.

#[export] Instance int64_hasher : Hasher Z := λ z, Hash.hash (Hash.KInt64 z).
#[export] Instance string_hasher : Hasher String.string := λ s, Hash.hash (Hash.KString (Hash.string_bytes s)).

Inductive error := ErrCacheClosed.

(** The choices of the runtime during one operation. *)
Record runtime := Runtime {
  rt_now : Z;
  rt_order : rangeOrder;
  rt_clock : Admission.clock;
  rt_pool : option nat }.

Section Cache.
Context {K V : Type} `{EqDecision K, !Countable K, !Hasher K} {zeroV : Inhabited V}.
Abbreviation mem := (mem K V).
Abbreviation shard := (shard K).

Record InMemoryCache := MkCache {
  shards : list shard;
  store : mem;
  shardMask : Z;
  config : Config;
  perShardCap : Z;
  cleanupCh : bool;   (* a token is pending *)
  closeCh : bool;     (* closed, and [closeOnce] done *)
  closed : bool }.

(** ** [New] *)

(** [for (maxPow2 << 1) <= limit { maxPow2 <<= 1 }]; the limit is at most 256. *)
Fixpoint maxPow2_loop (fuel : nat) (limit maxPow2 : Z) : Z :=
  match fuel with
  | O => maxPow2
  | S fuel => if 2 * maxPow2 <=? limit then maxPow2_loop fuel limit (2 * maxPow2) else maxPow2
  end.

Definition chooseShardCount (numCPU : Z) (cfg : Config) : Z :=
  let shardCount := ShardCount cfg in
  let shardCount :=
    if shardCount <=? 0 then Z.min (numCPU * shardMultiplier) maxShardCount else shardCount in
  let shardCount :=
    if 0 <? MaxSize cfg then
      let limit := Z.min (MaxSize cfg) maxShardCount in
      Z.min shardCount (maxPow2_loop 9 limit 1)
    else shardCount in
  MathUtil.NextPowerOf2 shardCount.

Definition newShard (clk : Admission.clock) (cfg : Config) (perShardCap : Z) (m : mem) : mem * shard :=
  let '(h, hd, tl) := initLRU (cells m) in
  let s := Shard ∅ hd tl None 0 0 0 0 0 None 0 in
  let s := if bool_decide (Policy cfg = LFU) then with_lfu (Some newLFUList) s else s in
  let s :=
    if bool_decide (Policy cfg = AdmissionLFU) && (0 <? perShardCap) then
      let nc := u64 (i64 (perShardCap * 10)) in
      let nc := Z.max nc 1024 in
      let resetInterval := if AdmissionResetInterval cfg =? 0 then 1 * minute else AdmissionResetInterval cfg in
      with_admission (Some (Admission.newAdaptiveAdmissionFilter clk nc resetInterval
        (AdmissionScanRateThreshold cfg) (AdmissionScanMissThreshold cfg)
        (AdmissionScanRecencyThreshold cfg) (AdmissionRecencyTieBreak cfg))) s
    else s in
  (Mem h (pool m), s).

Fixpoint newShards (n : nat) (clk : Admission.clock) (cfg : Config) (cap : Z) (m : mem) : mem * list shard :=
  match n with
  | O => (m, [])
  | S n =>
      let '(m, s) := newShard clk cfg cap m in
      let '(m, ss) := newShards n clk cfg cap m in
      (m, s :: ss)
  end.

Definition New (numCPU : Z) (clk : Admission.clock) (cfg : Config) : InMemoryCache :=
  let shardCount := chooseShardCount numCPU cfg in
  let cap := if 0 <? MaxSize cfg then MaxSize cfg / shardCount else 0 in
  let '(m, ss) := newShards (Z.to_nat shardCount) clk cfg cap (Mem ∅ []) in
  {| shards := ss; store := m; shardMask := shardCount - 1; config := cfg; perShardCap := cap;
     cleanupCh := false; closeCh := false; closed := false |}.

Definition NewWithDefaults (numCPU : Z) (clk : Admission.clock) : InMemoryCache :=
  New numCPU clk DefaultConfig.

(** ** Critical sections *)
Definition with_state (m : mem) (ss : list shard) (c : InMemoryCache) : InMemoryCache :=
  MkCache ss m (shardMask c) (config c) (perShardCap c) (cleanupCh c) (closeCh c) (closed c).

(** The index of [getShard] and [shardByHash]. *)
Definition shardByHash (c : InMemoryCache) (hash : Z) : nat := Z.to_nat (Z.land hash (shardMask c)).
Definition getShard (c : InMemoryCache) (k : K) : nat := shardByHash c (khash k).

(** One section under the lock of shard [i]; an index out of range panics in the code and
    leaves the cache alone here ([cache_inv] rules it out). *)
Definition locked {A} (c : InMemoryCache) (i : nat) (dflt : A) (f : mem → shard → mem * shard * A)
    : InMemoryCache * A :=
  match shards c !! i with
  | Some s => let '(m, s, a) := f (store c) s in (with_state m (<[i := s]> (shards c)) c, a)
  | None => (c, dflt)
  end.

(** ** [get] *)
Inductive lookup_result := Hit (item : loc) (now : Z) | Miss | Upgrade.

(** The policy update of a hit. *)
Definition touch (pol : EvictionPolicy) (m : mem) (s : shard) (x : loc) (now : Z) : mem * shard :=
  match pol with
  | LRU => (moveToHead m s x, s)
  | LFU =>
      let m := wr m x (put_access now) in
      let m := wr m x (put_freq (i64 (frequency (rd m x) + 1))) in
      lfu_increment m s x
  | AdmissionLFU =>
      let m := wr m x (put_access now) in
      (wr m x (put_freq (i64 (frequency (rd m x) + 1))), s)
  | FIFO | OtherPolicy _ => (m, s)
  end.

(** The body of [get] from the map lookup on, with the lock held for writing or reading.
    [Upgrade]: expired under the read lock, so the code takes the write lock and looks again. *)
Definition get_section (pol : EvictionPolicy) (stats writeLocked : bool) (k : K) (now : Z)
    (m : mem) (s : shard) : mem * shard * lookup_result :=
  match data s !! k with
  | None => (m, bump_stats stats 0 1 0 0 s, Miss)
  | Some x =>
      if expired now (rd m x) then
        if negb writeLocked then (m, s, Upgrade)
        else
          let '(m, s) := dropItem pol m s k x in
          (m, bump_stats stats 0 1 0 1 s, Miss)
      else
        let '(m, s) := touch pol m s x now in
        (m, bump_stats stats 1 0 0 0 s, Hit x now)
  end.

Definition needsWrite (pol : EvictionPolicy) : bool :=
  bool_decide (pol = LRU) || bool_decide (pol = LFU).

(** [now] is read under the first lock, [now'] after the upgrade. *)
Definition get (c : InMemoryCache) (k : K) (now now' : Z) : InMemoryCache * lookup_result :=
  if closed c then (c, Miss)
  else
    let pol := Policy (config c) in
    let stats := StatsEnabled (config c) in
    let '(c, r) := locked c (getShard c k) Miss (get_section pol stats (needsWrite pol) k now) in
    match r with
    | Upgrade => locked c (getShard c k) Miss (get_section pol stats true k now')
    | _ => (c, r)
    end.

(** [Get] and [GetWithTTL] read the item after the lock is released. *)
Definition Get (c : InMemoryCache) (k : K) (now now' : Z) : InMemoryCache * option V :=
  let '(c, r) := get c k now now' in
  match r with
  | Hit x _ => (c, Some (value (rd (store c) x)))
  | _ => (c, None)
  end.

Definition GetWithTTL (c : InMemoryCache) (k : K) (now now' : Z) : InMemoryCache * option (V * Z) :=
  let '(c, r) := get c k now now' in
  match r with
  | Hit x t =>
      let it := rd (store c) x in
      if expireTime it =? 0 then (c, Some (value it, -1))
      else (c, Some (value it, i64 (expireTime it - t)))
  | _ => (c, None)
  end.

(** ** [Set] *)

(** The branch for a key that is present. *)
Definition updateItem (pol : EvictionPolicy) (m : mem) (s : shard) (ex : loc) (v : V) (now expire : Z)
    : mem * shard :=
  let m := wr m ex (put_value v) in
  let m := wr m ex (put_access now) in
  let m := wr m ex (put_expire expire) in
  match pol with
  | LRU => (moveToHead m s ex, s)
  | LFU =>
      let s := lfu_remove s ex in
      let m := wr m ex (put_freq 1) in
      lfu_add m s ex
  | AdmissionLFU => (wr m ex (put_freq 1), s)
  | FIFO | OtherPolicy _ => (m, s)
  end.

(** The end of [Set]: a new item at the head of the list. *)
Definition insertItem (pol : EvictionPolicy) (choice : option nat) (m : mem) (s : shard)
    (k : K) (v : V) (now expire : Z) : mem * shard :=
  let '(m, x) := pool_get choice m in
  let m := wr m x (put_value v) in
  let m := wr m x (put_access now) in
  let m := wr m x (put_freq 1) in
  let m := wr m x (put_key (Some k)) in
  let m := wr m x (put_expire expire) in
  let s := with_data (<[k := x]> (data s)) s in
  let m := addToHead m s x in
  let '(m, s) := if bool_decide (pol = LFU) then lfu_add m s x else (m, s) in
  (m, add_size 1 s).

(** Make room: [false] when the admission filter turned the key down. *)
Definition makeRoom (cfg : Config) (cap : Z) (rt : runtime) (kh : Z) (m : mem) (s : shard)
    : mem * shard * bool :=
  if (0 <? cap) && (cap <=? size s) then
    match Policy cfg, admission s with
    | AdmissionLFU, Some adm =>
        evictWithAdmission defaultAdmissionLFUSampleSize (rt_order rt) (rt_clock rt) m s
          (StatsEnabled cfg) adm kh
    | _, _ =>
        let '(m, s, _) := evict (createEvictor (Policy cfg)) (rt_order rt) m s (StatsEnabled cfg) in
        (m, s, true)
    end
  else (m, s, true).

Definition set_section (cfg : Config) (cap : Z) (rt : runtime) (k : K) (v : V) (expire : Z)
    (m : mem) (s : shard) : mem * shard * unit :=
  match data s !! k with
  | Some ex =>
      let '(m, s) := updateItem (Policy cfg) m s ex v (rt_now rt) expire in (m, s, tt)
  | None =>
      let '(m, s, room) := makeRoom cfg cap rt (khash k) m s in
      if negb room then (m, s, tt)
      else
        let '(m, s) := insertItem (Policy cfg) (rt_pool rt) m s k v (rt_now rt) expire in (m, s, tt)
  end.

(** The absolute expiry of an entry set now. *)
Definition expiry (cfg : Config) (now ttl : Z) : Z :=
  let ttl := if ttl =? 0 then DefaultTTL cfg else ttl in
  if 0 <? ttl then i64 (now + ttl) else 0.

Definition Set_ (c : InMemoryCache) (k : K) (v : V) (ttl : Z) (rt : runtime)
    : InMemoryCache * option error :=
  if closed c then (c, Some ErrCacheClosed)
  else
    let expire := expiry (config c) (rt_now rt) ttl in
    let '(c, _) := locked c (shardByHash c (khash k)) tt
                     (set_section (config c) (perShardCap c) rt k v expire) in
    (c, None).

(** [SetWithCallback]: the result of [Set] and whether the timer goroutine is started; it
    sleeps for [ttl] and then runs [callback_due] unless the cache is closed first. *)
Definition SetWithCallback (c : InMemoryCache) (k : K) (v : V) (ttl : Z) (hasCallback : bool) (rt : runtime)
    : InMemoryCache * option error * bool :=
  if closed c then (c, Some ErrCacheClosed, false)
  else
    let '(c, err) := Set_ c k v ttl rt in
    match err with
    | Some e => (c, Some e, false)
    | None => (c, None, hasCallback && (0 <? ttl))
    end.

(** The timer fired at [now]: does the callback run? *)
Definition callback_due (c : InMemoryCache) (k : K) (now : Z) : bool :=
  match shards c !! getShard c k with
  | Some s =>
      match data s !! k with
      | Some x => expired now (rd (store c) x)
      | None => false
      end
  | None => false
  end.

(** ** [Delete], [Clear], [Exists] *)
Definition delete_section (pol : EvictionPolicy) (k : K) (m : mem) (s : shard) : mem * shard * bool :=
  match data s !! k with
  | None => (m, s, false)
  | Some x => (dropItem pol m s k x, true)
  end.

Definition Delete (c : InMemoryCache) (k : K) : InMemoryCache * bool :=
  if closed c then (c, false)
  else locked c (getShard c k) false (delete_section (Policy (config c)) k).

Definition clear_section (pol : EvictionPolicy) (o : rangeOrder) (m : mem) (s : shard)
    : mem * shard * unit :=
  let m := foldl pool_put m (range o (map_to_list (data s))).*2 in
  let '(h, hd, tl) := initLRU (cells m) in
  let lfuList := if bool_decide (pol = LFU) then Some newLFUList else lfuIdx s in
  let adm := if bool_decide (pol = AdmissionLFU) then Admission.Reset <$> admission s else admission s in
  let s := Shard ∅ hd tl lfuList 0 (hits s) (misses s) (evictions s) (expirations s) adm
             (lastVictimFrequency s) in
  (Mem h (pool m), s, tt).

(** A loop over all shards, one section each. *)
Definition each_shard (f : mem → shard → mem * shard * unit) (c : InMemoryCache) : InMemoryCache :=
  foldl (λ c i, (locked c i tt f).1) c (seq 0 (length (shards c))).

Definition Clear (c : InMemoryCache) (o : rangeOrder) : InMemoryCache :=
  if closed c then c else each_shard (clear_section (Policy (config c)) o) c.

Definition exists_section (pol : EvictionPolicy) (stats : bool) (k : K) (now : Z) (m : mem) (s : shard)
    : mem * shard * bool :=
  match data s !! k with
  | None => (m, s, false)
  | Some x =>
      if expired now (rd m x) then
        let '(m, s) := dropItem pol m s k x in (m, bump_stats stats 0 0 0 1 s, false)
      else (m, s, true)
  end.

Definition Exists (c : InMemoryCache) (k : K) (now : Z) : InMemoryCache * bool :=
  if closed c then (c, false)
  else locked c (getShard c k) false
         (exists_section (Policy (config c)) (StatsEnabled (config c)) k now).

(** ** Reading the whole cache *)
Definition shard_keys (o : rangeOrder) (m : mem) (now : Z) (s : shard) : list K :=
  (filter (λ p, expired now (rd m p.2) = false) (range o (map_to_list (data s)))).*1.

Definition Keys (c : InMemoryCache) (now : Z) (o : rangeOrder) : list K :=
  if closed c then [] else concat (shard_keys o (store c) now <$> shards c).

Definition Size (c : InMemoryCache) : Z := foldl (λ t s, i64 (t + size s)) 0 (shards c).

(** [HitRatio] is the quotient of the two components of [HitRatio], a float in the code. *)
Record Stats := MkStats {
  Hits : Z; Misses : Z; Evictions : Z; Expirations : Z;
  StatsSize : Z; Capacity : Z; HitRatio : Z * Z; NShards : Z }.

Definition get_stats (c : InMemoryCache) : Stats :=
  let total f := foldl (λ t s, i64 (t + f s)) 0 (shards c) in
  if StatsEnabled (config c) then
    let h := total hits in
    let mi := total misses in
    let t := i64 (h + mi) in
    MkStats h mi (total evictions) (total expirations) (Size c) (MaxSize (config c))
      (if 0 <? t then (h, t) else (0, 1)) (Z.of_nat (length (shards c)))
  else MkStats 0 0 0 0 (Size c) (MaxSize (config c)) (0, 1) (Z.of_nat (length (shards c))).

(** ** Life cycle and cleanup *)
Definition cleanup_all (c : InMemoryCache) (now : Z) (o : rangeOrder) : InMemoryCache :=
  if closed c then c
  else each_shard (λ m s, (cleanup o m s now (Policy (config c)) (StatsEnabled (config c)), tt)) c.

Definition with_flags (ch cl cd : bool) (c : InMemoryCache) : InMemoryCache :=
  MkCache (shards c) (store c) (shardMask c) (config c) (perShardCap c) ch cl cd.

Definition Close (c : InMemoryCache) (o : rangeOrder) : InMemoryCache :=
  if closeCh c then c
  else
    let c := with_flags (cleanupCh c) true (closed c) c in
    let c := Clear c o in
    with_flags (cleanupCh c) (closeCh c) true c.

Definition TriggerCleanup (c : InMemoryCache) (now : Z) (o : rangeOrder) : InMemoryCache :=
  if closed c then c
  else if CleanupInterval (config c) <=? 0 then cleanup_all c now o
  else with_flags true (closeCh c) (closed c) c.

(** One round of [cleanupWorker]'s loop: the event the [select] takes, and whether the worker
    goes on. *)
Inductive worker_event := Tick | Requested | CloseSignal.
Definition worker_enabled (c : InMemoryCache) (e : worker_event) : bool :=
  match e with Tick => true | Requested => cleanupCh c | CloseSignal => closeCh c end.
Definition cleanupWorker (c : InMemoryCache) (e : worker_event) (now : Z) (o : rangeOrder)
    : InMemoryCache * bool :=
  match e with
  | Tick => (cleanup_all c now o, true)
  | Requested => (cleanup_all (with_flags false (closeCh c) (closed c) c) now o, true)
  | CloseSignal => (c, false)
  end.

(** ** Snapshots ([src/snapshot.go]) *)
Record ExportItem := MkItem { Key : K; Val : V; ExpireAbs : Z; Version : Z }.

(** The loop over one shard; [true] in the result: the limit was reached. *)
Fixpoint export_shard (sel : K → bool) (max : Z) (m : mem) (now : Z) (es : list (K * loc))
    (out : list ExportItem) : list ExportItem * bool :=
  match es with
  | [] => (out, false)
  | (k, x) :: es =>
      if (0 <? max) && (max <=? Z.of_nat (length out)) then (out, true)
      else if expired now (rd m x) then export_shard sel max m now es out
      else if negb (sel k) then export_shard sel max m now es out
      else
        let it := rd m x in
        export_shard sel max m now es
          (out ++ [MkItem k (value it) (expireTime it) (u64 (frequency it))])
  end.

(** The clock is read once per shard. *)
Fixpoint export_shards (sel : K → bool) (max : Z) (m : mem) (now : nat → Z) (o : rangeOrder) (i : nat)
    (ss : list shard) (out : list ExportItem) : list ExportItem :=
  match ss with
  | [] => out
  | s :: ss =>
      let '(out, full) := export_shard sel max m (now i) (range o (map_to_list (data s))) out in
      if full then out else export_shards sel max m now o (S i) ss out
  end.

(** [None]: a negative [max] panics in [make]. *)
Definition Export (c : InMemoryCache) (sel : K → bool) (max : Z) (now : nat → Z) (o : rangeOrder)
    : option (list ExportItem) :=
  if max <? 0 then None else Some (export_shards sel max (store c) now o 0 (shards c) []).

(** [for size >= cap { if !evict { break } }]; every round but the last removes an entry of
    the map, so one round more than there are entries is enough. *)
Fixpoint import_evict (fuel : nat) (cfg : Config) (cap : Z) (o : nat → rangeOrder) (m : mem) (s : shard)
    : mem * shard :=
  match fuel with
  | O => (m, s)
  | S fuel' =>
      if cap <=? size s then
        let '(m, s, ok) := evict (createEvictor (Policy cfg)) (o fuel) m s (StatsEnabled cfg) in
        if negb ok then (m, s) else import_evict fuel' cfg cap o m s
      else (m, s)
  end.

Definition import_section (cfg : Config) (cap : Z) (o : nat → rangeOrder) (choice : option nat) (now : Z)
    (it : ExportItem) (m : mem) (s : shard) : mem * shard * unit :=
  let pol := Policy cfg in
  let '(m, s, ex) :=
    match data s !! Key it with
    | None =>
        let '(m, s) := if 0 <? cap then import_evict (S (base.size (data s))) cfg cap o m s else (m, s) in
        let '(m, ex) := pool_get choice m in
        let s := with_data (<[Key it := ex]> (data s)) s in
        let m := addToHead m s ex in
        (m, add_size 1 s, ex)
    | Some ex => (m, if bool_decide (pol = LFU) then lfu_remove s ex else s, ex)
    end in
  let m := wr m ex (put_key (Some (Key it))) in
  let m := wr m ex (put_value (Val it)) in
  let m := wr m ex (put_access now) in
  let m := wr m ex (put_expire (ExpireAbs it)) in
  match pol with
  | LRU => (moveToHead m s ex, s, tt)
  | LFU => let m := wr m ex (put_freq 1) in (lfu_add m s ex, tt)
  | AdmissionLFU => (wr m ex (put_freq 1), s, tt)
  | FIFO | OtherPolicy _ => (m, s, tt)
  end.

Definition Import (c : InMemoryCache) (now : Z) (o : nat → rangeOrder)
    (items : list (ExportItem * option nat)) : InMemoryCache :=
  foldl (λ c '(it, choice),
    (locked c (getShard c (Key it)) tt
       (import_section (config c) (perShardCap c) o choice now it)).1) c items.
End Cache.
Arguments InMemoryCache _ _ {_ _}.
