(* ===== verification/Sections.v ===== *)
(** * What each critical section does to a shard

    For every section of [Cache.v]: the shard's invariant is kept, only the shard's own nodes
    and the pool are touched ([local]), and the entries change as the list function named in
    the lemma says.  These list functions are the abstract specification of a shard: a list
    of entries, most recent first. *)
From Stdlib Require Import ZArith Lia.
From stdpp Require Import base numbers gmap list sets.
From S2P Require Import Prelude Admission Dll Lru Lfu Shard Eviction Cache.
Local Open Scope Z_scope.

Section Abstract.
Context {K V : Type} `{EqDecision K}.
Abbreviation entries := (list (@entry K V)).

Definition find_key (k : K) (es : entries) : option entry := hd_error (filter (λ e, e_key e = k) es).
Definition without (k : K) (es : entries) : entries := filter (λ e, e_key e ≠ k) es.
Definition map_key (k : K) (f : @entry K V → entry) (es : entries) : entries :=
  (λ e, if decide (e_key e = k) then f e else e) <$> es.

Lemma find_key_None k (es : entries) : find_key k es = None ↔ ∀ e, e ∈ es → e_key e ≠ k.
Proof.
  unfold find_key. split.
  - intros Hn e He Hk. assert (e ∈ filter (λ e, e_key e = k) es) as Hf by by apply list_elem_of_filter.
    destruct (filter _ es); [by apply elem_of_nil in Hf|done].
  - intros Hne. destruct (filter (λ e, e_key e = k) es) as [|e l] eqn:E; [done|].
    assert (e ∈ filter (λ e, e_key e = k) es) as [Hk He]%list_elem_of_filter by (rewrite E; left).
    by apply Hne in He.
Qed.

(** A hit at time [now]. *)
Definition a_touch (pol : EvictionPolicy) (k : K) (now : Z) (es : entries) : entries :=
  match pol with
  | LRU => match find_key k es with Some e => e :: without k es | None => es end
  | LFU | AdmissionLFU =>
      map_key k (λ e, Entry k (e_value e) (e_expire e) now (i64 (e_freq e + 1))) es
  | FIFO | OtherPolicy _ => es
  end.

(** An update in place. *)
Definition a_update (pol : EvictionPolicy) (k : K) (v : V) (now expire : Z) (es : entries) : entries :=
  match pol with
  | LRU =>
      match find_key k es with
      | Some e => Entry k v expire now (e_freq e) :: without k es
      | None => es
      end
  | LFU | AdmissionLFU => map_key k (λ e, Entry k v expire now 1) es
  | FIFO | OtherPolicy _ => map_key k (λ e, Entry k v expire now (e_freq e)) es
  end.

(** [Set] on a shard of capacity [cap] (0: unlimited). *)
Definition full (cap : Z) (es : entries) : Prop := 0 < cap ≤ Z.of_nat (length es).

Inductive a_set (pol : EvictionPolicy) (cap : Z) (k : K) (v : V) (now expire : Z) (es : entries)
    : entries → Prop :=
  | set_update e :
      find_key k es = Some e → a_set pol cap k v now expire es (a_update pol k v now expire es)
  | set_insert :
      find_key k es = None → ¬ full cap es →
      a_set pol cap k v now expire es (Entry k v expire now 1 :: es)
  | set_evict e :
      find_key k es = None → full cap es → victim_rule pol es e → e ∈ es →
      a_set pol cap k v now expire es (Entry k v expire now 1 :: without (e_key e) es)
  | set_reject :
      find_key k es = None → full cap es → pol = AdmissionLFU → a_set pol cap k v now expire es es.

(** [Import] of one item: never turned down; a full shard gives up one victim. *)
Inductive a_import (pol : EvictionPolicy) (cap : Z) (k : K) (v : V) (now expire : Z) (es : entries)
    : entries → Prop :=
  | import_update e :
      find_key k es = Some e → a_import pol cap k v now expire es (a_update pol k v now expire es)
  | import_insert f :
      find_key k es = None → ¬ full cap es →
      a_import pol cap k v now expire es (Entry k v expire now f :: es)
  | import_evicted e f :
      find_key k es = None → full cap es → victim_rule pol es e → e ∈ es →
      a_import pol cap k v now expire es (Entry k v expire now f :: without (e_key e) es).
End Abstract.

Section Sections.
Context {K V : Type} `{EqDecision K, !Countable K, !Hasher K} {zeroV : Inhabited V}.
Abbreviation mem := (mem K V).
Abbreviation shard := (shard K).
Implicit Types m : mem.
Implicit Types s : shard.
Implicit Types L : list loc.
Implicit Types x : loc.
Implicit Types k : K.

(** ** Entries and the map *)
Lemma view_filter_key pol B m s L k :
  shard_inv pol B m s L →
  filter (λ e, e_key e = k) (view m L) =
    match data s !! k ≫= (λ x, entry_of (rd m x)) with Some e => [e] | None => [] end.
Proof.
  intros Hi. destruct (data s !! k) as [x|] eqn:Ek; cbn.
  - pose proof (inv_in _ _ _ _ _ _ _ Hi Ek) as Hx.
    destruct (elem_of_view_key _ _ _ _ _ _ Hi Hx) as (e & He & _ & Hde & _).
    assert (e_key e = k) as Hek. { apply (si_data _ _ _ _ _ Hi) in Ek as [_ Ek]. apply entry_of_Some in He. congruence. }
    rewrite He. apply list_elem_of_split in Hx as (L1 & L2 & ->).
    change (x :: L2) with ([x] ++ L2). rewrite !view_app, !filter_app.
    assert (∀ L', (∀ y, y ∈ L' → y ∈ L1 ++ L2) → filter (λ e, e_key e = k) (view m L') = []) as Hnil.
    { intros L' Hin. assert (∀ e', e' ∈ view m L' → e_key e' ≠ k) as Hne.
      { intros e' (y & Hy & Hye)%elem_of_view Hk'. apply entry_of_Some in Hye. rewrite Hk' in Hye.
        by apply (inv_key_ne _ _ _ _ _ _ _ _ y Hi Ek (Hin y Hy)). }
      clear Hin. induction (view m L') as [|e' es IH]; [done|].
      rewrite filter_cons_False by (apply Hne; left). apply IH. intros e'' H''. apply Hne. by right. }
    rewrite (Hnil L1), (Hnil L2) by (intros y Hy; apply elem_of_app; auto).
    unfold view. cbn. rewrite He. by rewrite filter_cons_True, filter_nil.
  - rewrite <-(view_absent _ _ _ _ _ _ Hi Ek), list_filter_filter.
    induction (view m L) as [|e es IH]; [done|]. rewrite filter_cons_False; [done|]. tauto.
Qed.

Lemma find_key_view pol B m s L k :
  shard_inv pol B m s L → find_key k (view m L) = data s !! k ≫= (λ x, entry_of (rd m x)).
Proof.
  intros Hi. unfold find_key. rewrite (view_filter_key _ _ _ _ _ _ Hi).
  by destruct (data s !! k ≫= _).
Qed.

Lemma find_key_Some pol B m s L k x :
  shard_inv pol B m s L → data s !! k = Some x →
  find_key k (view m L) =
    Some (Entry k (value (rd m x)) (expireTime (rd m x)) (lastAccess (rd m x)) (frequency (rd m x))).
Proof.
  intros Hi Hx. rewrite (find_key_view _ _ _ _ _ _ Hi), Hx. cbn.
  apply (si_data _ _ _ _ _ Hi) in Hx as [_ Hk]. unfold entry_of. by rewrite Hk.
Qed.

Lemma rd_entry pol B m s L k x :
  shard_inv pol B m s L → data s !! k = Some x →
  entry_of (rd m x) =
    Some (Entry k (value (rd m x)) (expireTime (rd m x)) (lastAccess (rd m x)) (frequency (rd m x))).
Proof. intros Hi [_ Hk]%(si_data _ _ _ _ _ Hi). unfold entry_of. by rewrite Hk. Qed.

(** ** Writing a payload *)
Lemma wr_wr m x f g : wr (wr m x f) x g = wr m x (λ it, g (f it)).
Proof.
  unfold wr. cbn. f_equal. apply map_eq. intros y. rewrite !lookup_alter.
  repeat case_decide; try done. by destruct (cells m !! x).
Qed.

Lemma view_wr pol B m s L k x f g :
  shard_inv pol B m s L → data s !! k = Some x →
  entry_of (f (rd m x)) = g <$> entry_of (rd m x) →
  view (wr m x f) L = map_key k g (view m L).
Proof.
  intros Hi Hx Hfg. pose proof (inv_in _ _ _ _ _ _ _ Hi Hx) as HxL.
  assert (is_Some (cells m !! x)) as Hs by (eapply inv_some; [done|by apply elem_of_nodes]).
  pose proof (proj1 (si_data _ _ _ _ _ Hi k x) Hx) as [_ Hkx].
  assert (∀ y, y ∈ L → key (rd m y) = Some k ↔ y = x) as Hky.
  { intros y Hy. split; [|by intros ->]. intros Hk.
    assert (data s !! k = Some y) by by apply (si_data _ _ _ _ _ Hi). congruence. }
  clear Hx HxL. assert (∀ L', (∀ y, y ∈ L' → y ∈ L) → view (wr m x f) L' = map_key k g (view m L')) as HL; [|by apply HL].
  induction L' as [|y L' IH]; intros Hin; [done|]. unfold view, map_key in *. cbn.
  rewrite IH by (intros z Hz; apply Hin; by right). specialize (Hky y ltac:(apply Hin; left)).
  rewrite rd_wr by done. case_decide as Hyx; [subst y|].
  - rewrite Hfg. destruct (entry_of (rd m x)) as [e|] eqn:He; [|done]. cbn.
    apply entry_of_Some in He. rewrite decide_True by congruence. done.
  - destruct (entry_of (rd m y)) as [e|] eqn:He; [|done]. cbn. apply entry_of_Some in He.
    rewrite decide_False; [done|]. intros Hek. apply Hyx, Hky. congruence.
Qed.

(** ** The invariant under the LFU index' operations *)
Lemma inv_lfu pol B m s L : shard_inv pol B m s L → pol = LFU →
  ∃ l F, lfuIdx s = Some l ∧ lfu_rep l F ∧ covers B F m L.
Proof.
  intros Hi ->. pose proof (si_lfu _ _ _ _ _ Hi) as Hl. unfold lfu_ok in Hl.
  destruct (lfuIdx s) as [l|]; [|done]. destruct Hl as (_ & F & ? & ? & ?). by exists l, F.
Qed.

Lemma inv_weaken pol B B' m s L : shard_inv pol B m s L → B ≤ B' → shard_inv pol B' m s L.
Proof.
  intros [H1 H2 H3 H4 Hl H6 H7 H8] HB. split; try done. unfold lfu_ok in *. destruct (lfuIdx s); [|done].
  destruct Hl as (-> & F & HF & Hdom & Hfr). split; [done|]. exists F. split; [done|]. split; [done|].
  intros y f Hy. destruct (Hfr y f Hy). split; [lia|done].
Qed.

Lemma lfu_increment_spec m s x l F f m' s' :
  lfuIdx s = Some l → lfu_rep l F → F !! x = Some f → f < 2 ^ 63 - 1 →
  lfu_increment m s x = (m', s') →
  ∃ l', m' = wr m x (put_freq (f + 1)) ∧ s' = with_lfu (Some l') s ∧ lfu_rep l' (<[x := f + 1]> F).
Proof.
  intros El HF Hf Hb. unfold lfu_increment. rewrite El.
  destruct (increment (cells m) l x) as [h l'] eqn:E. intros [= <- <-].
  destruct (increment_spec _ _ _ _ _ _ _ HF Hf Hb E) as [-> Hrep]. by exists l'.
Qed.
Lemma lfu_add_spec m s x l F m' s' :
  lfuIdx s = Some l → lfu_rep l F → F !! x = None → lfu_add m s x = (m', s') →
  ∃ l', m' = wr m x (put_freq 1) ∧ s' = with_lfu (Some l') s ∧ lfu_rep l' (<[x := 1]> F).
Proof.
  intros El HF Hf. unfold lfu_add. rewrite El.
  destruct (add (cells m) l x) as [h l'] eqn:E. intros [= <- <-].
  destruct (add_spec _ _ _ _ _ _ HF Hf E) as [-> Hrep]. by exists l'.
Qed.

(** Payload of [x] rewritten while the index moves it to frequency [g]. *)
Lemma inv_lfu_write B B' m s L x f g l' F :
  shard_inv LFU B m s L → covers B F m L → x ∈ L → B ≤ B' → g ≤ B' →
  (∀ it, prev (f it) = prev it ∧ next (f it) = next it ∧ key (f it) = key it) →
  (∀ it, frequency (f it) = g) → lfu_rep l' (<[x := g]> F) →
  shard_inv LFU B' (wr m x f) (with_lfu (Some l') s) L ∧
  local m s L (wr m x f) (with_lfu (Some l') s) L.
Proof.
  intros Hi [Hdom Hfr] HxL HB Hg Hf Hq Hrep.
  assert (is_Some (cells m !! x)) as Hxs by (eapply inv_some; [done|by apply elem_of_nodes]).
  assert (∀ y, is_Some (cells (wr m x f) !! y) ↔ is_Some (cells m !! y)) as Hsome.
  { intros y. apply lookup_alter_is_Some. }
  assert (∀ y, key (rd (wr m x f) y) = key (rd m y)) as Hkey.
  { intros y. rewrite rd_wr by done. case_decide; subst; [apply Hf|done]. }
  destruct Hi as [Hlru Hd Hk Hs Hl Ha Hsep Hpool]. split; [split; try done|split; try done].
  - eapply lru_frame, Hlru. intros y _. rewrite Hsome. unfold get_next, get_prev, wr. cbn.
    rewrite lookup_alter. case_decide; subst; [|done]. destruct (cells m !! y); cbn; [|done].
    split; [|split]; [apply Hf..|done].
  - intros k y. by rewrite Hkey, Hd.
  - intros y Hy. rewrite Hkey. by apply Hk.
  - apply (lfu_ok_some _ _ _ _ l' (<[x := g]> F)); [done..|]. split.
    + intros y. rewrite Hdom. destruct (decide (y = x)) as [->|Hne].
      * rewrite lookup_insert_eq. split; [eauto|]. intros _. by apply Hdom.
      * by rewrite lookup_insert_ne by congruence.
    + intros y h. rewrite rd_wr by done. destruct (decide (y = x)) as [->|Hne].
      * rewrite lookup_insert_eq. intros [= <-]. split; [done|apply Hq].
      * rewrite lookup_insert_ne by congruence. intros Hy. destruct (Hfr y h Hy). split; [lia|done].
  - intros y Hy. apply Hsome. by apply Hpool.
  - intros y Hy _. unfold wr. cbn. rewrite lookup_alter_ne; [done|]. intros ->. apply Hy, elem_of_app. left.
    by apply elem_of_nodes.
  - intros y Hy. by left.
  - intros y Hy. by apply Hsome.
Qed.

(** ** A hit *)
Lemma view_move pol B m s L1 x L2 k m' :
  shard_inv pol B m s (L1 ++ x :: L2) → data s !! k = Some x →
  (∀ y, payload (rd m' y) = payload (rd m y)) →
  view m' (x :: L1 ++ L2) =
    Entry k (value (rd m x)) (expireTime (rd m x)) (lastAccess (rd m x)) (frequency (rd m x))
    :: without k (view m (L1 ++ x :: L2)).
Proof.
  intros Hi Hx Hpl. rewrite (view_ext m m') by auto.
  unfold without. rewrite <-(view_without _ _ _ _ _ _ _ _ Hi Hx).
  apply (si_data _ _ _ _ _ Hi) in Hx as [_ Hk]. unfold view at 1, entry_of. cbn. by rewrite Hk.
Qed.

Lemma touch_spec pol B m s L k x now m' s' :
  shard_inv pol B m s L → data s !! k = Some x → B < 2 ^ 63 - 1 → touch pol m s x now = (m', s') →
  ∃ L', shard_inv pol (B + 1) m' s' L' ∧ local m s L m' s' L' ∧
    view m' L' = a_touch pol k now (view m L) ∧ data s' = data s ∧
    (∀ y, value (rd m' y) = value (rd m y) ∧ expireTime (rd m' y) = expireTime (rd m y)) ∧
    length L' = length L.
Proof.
  intros Hi Hx HB. pose proof (inv_in _ _ _ _ _ _ _ Hi Hx) as HxL.
  assert (is_Some (cells m !! x)) as Hxs by (eapply inv_some; [done|by apply elem_of_nodes]).
  destruct pol; cbn [touch a_touch].
  - intros [= <- <-]. destruct (list_elem_of_split _ _ HxL) as (L1 & L2 & ->).
    destruct (inv_move _ _ _ _ _ _ _ Hi) as (Hi' & Hl' & Hpl). exists (x :: L1 ++ L2).
    split_and!; try done.
    + eapply inv_weaken; [done|lia].
    + rewrite (find_key_Some _ _ _ _ _ _ _ Hi Hx). by eapply view_move.
    + intros y. specialize (Hpl y). unfold payload in Hpl. split; congruence.
    + cbn. rewrite !length_app. cbn. lia.
  - destruct (inv_lfu _ _ _ _ _ Hi eq_refl) as (l & F & El & HF & Hc).
    destruct (proj1 (proj1 Hc x) HxL) as [f Hf]. destruct (proj2 Hc _ _ Hf) as [HfB Hfx].
    intros (l' & -> & -> & Hrep)%(lfu_increment_spec _ _ _ l F f); [|done..|lia].
    rewrite !wr_wr. set (g := λ it : cacheItem K V, put_freq (f + 1) _).
    destruct (inv_lfu_write B (B + 1) m s L x g (f + 1) l' F) as [Hi' Hl']; try done; try lia.
    exists L. split_and!; try done.
    + apply (view_wr _ _ _ _ _ _ _ _ _ Hi Hx). rewrite (rd_entry _ _ _ _ _ _ _ Hi Hx).
      unfold g, entry_of. cbn. apply (si_data _ _ _ _ _ Hi) in Hx as [_ ->]. cbn.
      rewrite Hfx, i64_id; [done|]. pose proof (lfu_rep_pos _ _ _ _ HF Hf). unfold is_i64. lia.
    + intros y. rewrite rd_wr by done. by case_decide; subst.
  - intros [= <- <-]. exists L. split_and!; try done; [eapply inv_weaken; [done|lia]|apply local_refl].
  - intros [= <- <-]. rewrite wr_wr.
    destruct (inv_wr _ _ _ _ _ x (λ it, put_freq (i64 (frequency (rd (wr m x (put_access now)) x) + 1))
      (put_access now it)) Hi) as [Hi' Hl']; try done.
    { apply elem_of_app. left. by apply elem_of_nodes. }
    exists L. split_and!; try done.
    + eapply inv_weaken; [done|lia].
    + apply (view_wr _ _ _ _ _ _ _ _ _ Hi Hx). rewrite (rd_entry _ _ _ _ _ _ _ Hi Hx).
      rewrite rd_wr, decide_True by done. unfold entry_of. cbn.
      by apply (si_data _ _ _ _ _ Hi) in Hx as [_ ->].
    + intros y. rewrite rd_wr by done. by case_decide; subst.
  - intros [= <- <-]. exists L. split_and!; try done; [eapply inv_weaken; [done|lia]|apply local_refl].
Qed.

(** ** An update in place *)
Lemma put_fields_links (v : V) now expire (it : cacheItem K V) :
  let it' := put_expire expire (put_access now (put_value v it)) in
  prev it' = prev it ∧ next it' = next it ∧ key it' = key it ∧ frequency it' = frequency it.
Proof. done. Qed.

Lemma updateItem_spec pol B m s L k x v now expire m' s' :
  shard_inv pol B m s L → data s !! k = Some x → 1 ≤ B →
  updateItem pol m s x v now expire = (m', s') →
  ∃ L', shard_inv pol B m' s' L' ∧ local m s L m' s' L' ∧
    view m' L' = a_update pol k v now expire (view m L) ∧ data s' = data s ∧ length L' = length L.
Proof.
  intros Hi Hx HB. pose proof (inv_in _ _ _ _ _ _ _ Hi Hx) as HxL.
  pose proof (rd_entry _ _ _ _ _ _ _ Hi Hx) as He.
  pose proof (proj1 (si_data _ _ _ _ _ Hi k x) Hx) as [_ Hkx].
  assert (is_Some (cells m !! x)) as Hxs by (eapply inv_some; [done|by apply elem_of_nodes]).
  assert (x ∈ nodes s L ++ pool m) as Hxn by (apply elem_of_app; left; by apply elem_of_nodes).
  unfold updateItem. rewrite !wr_wr. set (f := λ it : cacheItem K V, put_expire expire _).
  destruct (inv_wr _ _ _ _ _ x f Hi) as [Hif Hlf]; try done.
  assert (view (wr m x f) L = map_key k (λ e, Entry k v expire now (e_freq e)) (view m L)) as Hvf.
  { apply (view_wr _ _ _ _ _ _ _ _ _ Hi Hx). rewrite He. unfold f, entry_of. cbn. by rewrite Hkx. }
  destruct pol; cbn [a_update].
  - intros [= <- <-]. destruct (list_elem_of_split _ _ HxL) as (L1 & L2 & ->).
    destruct (inv_move _ _ _ _ _ _ _ Hif) as (Hi' & Hl' & Hpl). exists (x :: L1 ++ L2).
    split_and!; try done.
    + by eapply local_trans.
    + rewrite (view_move _ _ _ _ _ _ _ _ _ Hif Hx Hpl), (find_key_Some _ _ _ _ _ _ _ Hi Hx).
      rewrite rd_wr, decide_True by done. cbn. f_equal. rewrite Hvf. unfold without, map_key. cbn.
      clear. induction (view m (L1 ++ x :: L2)) as [|e es IH]; [done|]. cbn [fmap list_fmap].
      rewrite !filter_cons. rewrite IH. destruct (decide (e_key e = k)); cbn.
      * rewrite !decide_False by tauto. done.
      * by rewrite !decide_True.
    + cbn. rewrite !length_app. cbn. lia.
  - destruct (inv_lfu _ _ _ _ _ Hi eq_refl) as (l & F & El & HF & Hc).
    pose proof (remove_spec _ _ x HF) as HFr.
    intros (l' & -> & -> & Hrep)%(lfu_add_spec _ _ _ (remove l x) (delete x F));
      [|cbn; by rewrite El|done|apply lookup_delete_eq].
    rewrite insert_delete_eq in Hrep. rewrite !wr_wr.
    destruct (inv_lfu_write B B m s L x (λ it, put_freq 1 (put_freq 1 (f it))) 1 l' F) as [Hi' Hl']; try done.
    exists L. split_and!; try done.
    apply (view_wr _ _ _ _ _ _ _ _ _ Hi Hx). rewrite He. unfold f, entry_of. cbn. by rewrite Hkx.
  - intros [= <- <-]. by exists L.
  - intros [= <- <-].
    destruct (inv_wr _ _ _ _ _ x (λ it, put_freq 1 (f it)) Hi) as [Hi' Hl']; try done.
    exists L. split_and!; try done.
    apply (view_wr _ _ _ _ _ _ _ _ _ Hi Hx). rewrite He. unfold f, entry_of. cbn. by rewrite Hkx.
  - intros [= <- <-]. by exists L.
Qed.

(** ** A new item *)

(** An assignment to payload fields only. *)
Definition payload_only (f : cacheItem K V → cacheItem K V) : Prop :=
  (∀ it, prev (f it) = prev it ∧ next (f it) = next it) ∧
  (∀ p it, f (put_prev p it) = put_prev p (f it)) ∧ (∀ p it, f (put_next p it) = put_next p (f it)).

Lemma wr_addToHead m s x f : payload_only f → wr (addToHead m s x) x f = addToHead (wr m x f) s x.
Proof.
  intros (Hl & Hp & Hn). unfold wr, addToHead. cbn. f_equal. unfold addToLRUHead.
  assert (get_next (alter f x (cells m)) (head s) = get_next (cells m) (head s)) as ->.
  { unfold get_next. rewrite lookup_alter. case_decide; [|done]. subst.
    destruct (cells m !! head s); cbn; [apply Hl|done]. }
  assert (∀ h y p, alter f x (set_next h y p) = set_next (alter f x h) y p) as HN.
  { intros h y p. apply map_eq. intros z. unfold set_next. rewrite !lookup_alter.
    repeat case_decide; subst; try done. destruct (h !! z); cbn; [|done]. f_equal. apply Hn. }
  assert (∀ h y p, alter f x (set_prev h y p) = set_prev (alter f x h) y p) as HPv.
  { intros h y p. apply map_eq. intros z. unfold set_prev. rewrite !lookup_alter.
    repeat case_decide; subst; try done. destruct (h !! z); cbn; [|done]. f_equal. apply Hp. }
  destruct (get_next (cells m) (head s)); cbn [set_prev_opt]; by rewrite ?HPv, ?HN, ?HPv, ?HN.
Qed.

(** A new item of frequency one is covered. *)
Lemma covers_add B F m m' L x :
  covers B F m L → 1 ≤ B → (∀ y, frequency (rd m' y) = frequency (rd m y)) → frequency (rd m x) = 1 → covers B (<[x := 1]> F) m' (x :: L).
Proof.
  intros Hc HB Hf Hx. split.
  - intros y. rewrite elem_of_cons, (proj1 Hc y). destruct (decide (y = x)) as [->|Hne].
    + rewrite lookup_insert_eq. naive_solver.
    + rewrite lookup_insert_ne by congruence. naive_solver.
  - intros y g. rewrite Hf. destruct (decide (y = x)) as [->|Hne].
    + rewrite lookup_insert_eq. intros [= <-]. by rewrite Hx.
    + rewrite lookup_insert_ne by congruence. apply Hc.
Qed.

Lemma attach_spec pol B c m m1 s L x f k e s' :
  shard_inv pol B m s L → pool_get c m = (m1, x) → data s !! k = None → 1 ≤ B →
  payload_only f → entry_of (f (rd m1 x)) = Some e → e_key e = k → (pol = LFU → e_freq e = 1) →
  data s' = <[k := x]> (data s) → head s' = head s → tail s' = tail s →
  size s' = i64 (size s + 1) → admission s' = admission s →
  (pol ≠ LFU → lfuIdx s' = lfuIdx s) →
  (∀ l F, lfuIdx s = Some l → lfu_rep l F → F !! x = None →
     ∃ l', lfuIdx s' = Some l' ∧ lfu_rep l' (<[x := 1]> F)) →
  let m' := wr (addToHead m1 s x) x f in
  shard_inv pol B m' s' (x :: L) ∧ local m s L m' s' (x :: L) ∧ view m' (x :: L) = e :: view m L.
Proof.
  intros Hi Hg Hk HB Hf He Hek Hfreq Ed Eh Et Es Ea Hno Hlfu m'.
  destruct (pool_get_spec _ _ _ _ _ _ _ _ Hi Hg) as (Hi1 & Hx & Hxs & Hsame & Hxp & Hpool).
  unfold m'. rewrite wr_addToHead by done. set (m2 := wr m1 x f).
  assert (∀ y, rd m2 y = if decide (y = x) then f (rd m1 x) else rd m1 y) as Hrd2 by (intros; by apply rd_wr).
  assert (∀ y, is_Some (cells m2 !! y) ↔ is_Some (cells m1 !! y)) as Hs2 by (intros; apply lookup_alter_is_Some).
  assert (∀ y, y ≠ x → cells m2 !! y = cells m1 !! y) as Hc2.
  { intros y Hy. unfold m2, wr. cbn. by rewrite lookup_alter_ne by congruence. }
  assert (x ∉ L) as HxL. { intros HL. apply Hx, elem_of_app. left. by apply elem_of_nodes. }
  assert (shard_inv pol B m2 s L) as Hi2.
  { eapply inv_frame, Hi1; cbn.
    - intros y Hy. apply Hc2. intros ->. apply Hx, elem_of_app. by left.
    - apply (si_sep _ _ _ _ _ Hi1).
    - intros y Hy. apply Hs2. by apply (si_pool _ _ _ _ _ Hi1). }
  pose proof (addToLRUHead_payload (cells m2) (head s) x) as Hpl.
  assert (∀ y, payload (rd (addToHead m2 s x) y) = payload (rd m2 y)) as Hrdp by (intros y; by apply rd_payload).
  assert (view (addToHead m2 s x) (x :: L) = e :: view m L) as Hview.
  { rewrite (view_ext m2) by auto. unfold view. cbn. rewrite Hrd2, decide_True, He by done. f_equal.
    apply (view_ext m m2). intros y Hy. rewrite Hrd2, decide_False by (intros ->; done). unfold rd.
    rewrite Hsame; [done|]. eapply inv_some; [exact Hi|]. by apply elem_of_nodes. }
  assert (key (rd m2 x) = Some k) as Hkx.
  { rewrite Hrd2, decide_True by done. apply entry_of_Some in He. congruence. }
  split; [|split; [|done]].
  - eapply insert_core; try done; [by apply Hs2|].
    destruct (decide (pol = LFU)) as [->|Hne].
    2: { eapply lfu_ok_none; [exact Hi|exact Hne|by apply Hno]. }
    destruct (inv_lfu _ _ _ _ _ Hi2 eq_refl) as (l & F & El & HF & Hc).
    assert (F !! x = None) as HFx.
    { destruct (F !! x) eqn:E; [|done]. exfalso. apply HxL, Hc. eauto. }
    destruct (Hlfu l F El HF HFx) as (l' & El' & HF'). apply (lfu_ok_some _ _ _ _ l' (<[x := 1]> F)); [done..|].
    eapply covers_add; [exact Hc|exact HB|by intros y; apply payload_freq|]. rewrite Hrd2, decide_True by done.
    unfold entry_of in He. apply fmap_Some in He as (k' & _ & ->). by apply Hfreq.
  - split.
    + intros y Hy Hys. assert (y ≠ x) as Hne.
      { intros ->. destruct Hxp as [Hxp|Hxp]; [apply Hy, elem_of_app; by right|].
        rewrite Hxp in Hys. by destruct Hys. }
      rewrite elem_of_app in Hy. cbn. erewrite addToLRUHead_frame;
        [by rewrite Hc2, Hsame|apply Hi2|intros Hn; apply Hy; by left|done].
    + unfold nodes. rewrite Eh, Et. cbn. intros y. rewrite !elem_of_cons, !elem_of_app.
      intros [->|[->|[Hy|Hy]]]; [naive_solver|naive_solver|left; by right; left|].
      left. do 2 right. by apply Hpool.
    + intros y Hy. apply (same_payload_is_Some (cells m2)); [done|]. apply Hs2.
      rewrite Hsame; done.
Qed.

Lemma insertItem_spec pol B c m s L k v now expire m' s' :
  shard_inv pol B m s L → data s !! k = None → 1 ≤ B →
  insertItem pol c m s k v now expire = (m', s') →
  ∃ x, shard_inv pol B m' s' (x :: L) ∧ local m s L m' s' (x :: L) ∧
    view m' (x :: L) = Entry k v expire now 1 :: view m L.
Proof.
  intros Hi Hk HB. unfold insertItem. destruct (pool_get c m) as [m1 x] eqn:Hg. rewrite !wr_wr.
  set (f := λ it : cacheItem K V, put_expire expire _).
  set (s1 := with_data (<[k := x]> (data s)) s).
  change (addToHead (wr m1 x f) s1 x) with (addToHead (wr m1 x f) s x).
  rewrite <-wr_addToHead by done.
  case_bool_decide as Hp; [subst pol|].
  - destruct (inv_lfu _ _ _ _ _ Hi eq_refl) as (l & F & El & HF & Hc).
    destruct (lfu_add (wr (addToHead m1 s x) x f) s1 x) as [m2 s2] eqn:Ea. intros [= <- <-].
    destruct (pool_get_spec _ _ _ _ _ _ _ _ Hi Hg) as (_ & Hx & _).
    assert (F !! x = None) as HFx.
    { destruct (F !! x) eqn:E; [|done]. exfalso. apply Hx, elem_of_app. left. apply elem_of_nodes, Hc. eauto. }
    apply (lfu_add_spec _ _ _ l F) in Ea as (l' & -> & -> & Hrep); try done. exists x. rewrite wr_wr.
    eapply attach_spec; try done.
    intros l0 F0 El0 HF0 _. assert (l0 = l) as -> by congruence. exists l'. split; [done|].
    assert (F0 = F) as -> by by eapply lfu_rep_unique. done.
  - intros [= <- <-]. exists x. eapply attach_spec; try done.
    intros l F El. pose proof (lfu_none _ _ _ _ _ Hi Hp). congruence.
Qed.

(** ** [Set] *)

(** A bounded shard is never above its capacity. *)
Definition fits (cap : Z) (L : list loc) : Prop := 0 < cap → Z.of_nat (length L) ≤ cap < 2 ^ 63.

Lemma fits_size pol B m s L cap :
  shard_inv pol B m s L → fits cap L → 0 < cap → size s = Z.of_nat (length L).
Proof.
  intros Hi Hf Hc. rewrite (si_size _ _ _ _ _ Hi). apply i64_id. specialize (Hf Hc). unfold is_i64. lia.
Qed.

Lemma view_length_all pol B m s L : shard_inv pol B m s L → length (view m L) = length L.
Proof. intros Hi. by eapply view_length. Qed.

Lemma makeRoom_spec cfg B cap rt kh m s L m' s' room :
  shard_inv (Policy cfg) B m s L → fits cap L → makeRoom cfg cap rt kh m s = (m', s', room) →
  ∃ L', shard_inv (Policy cfg) B m' s' L' ∧ local m s L m' s' L' ∧
    if (0 <? cap) && (cap <=? Z.of_nat (length L)) then
      if room then
        length L = S (length L') ∧
        ∃ e, victim_rule (Policy cfg) (view m L) e ∧ e ∈ view m L ∧
          view m' L' = without (e_key e) (view m L)
      else Policy cfg = AdmissionLFU ∧ L' = L ∧ m' = m
    else room = true ∧ L' = L ∧ m' = m ∧ s' = s.
Proof.
  intros Hi Hfit. unfold makeRoom.
  destruct (Z.ltb_spec 0 cap) as [Hc|]; cbn [andb].
  2: { intros [= <- <- <-]. exists L. split_and!; try done. apply local_refl. }
  rewrite (fits_size _ _ _ _ _ _ Hi Hfit Hc). destruct (Z.leb_spec cap (Z.of_nat (length L))) as [Hfull|].
  2: { intros [= <- <- <-]. exists L. split_and!; try done. apply local_refl. }
  assert (∀ m' s' ok, evict (createEvictor (Policy cfg)) (rt_order rt) m s (StatsEnabled cfg) = (m', s', ok) →
    ∃ L', shard_inv (Policy cfg) B m' s' L' ∧ local m s L m' s' L' ∧ length L = S (length L') ∧
      ∃ e, victim_rule (Policy cfg) (view m L) e ∧ e ∈ view m L ∧ view m' L' = without (e_key e) (view m L)) as Hev.
  { intros m1 s1 ok E. pose proof (evict_step _ _ _ _ L _ _ _ _ Hi E) as Hst. destruct ok.
    - destruct Hst as (e & Hr & Hin & L' & ? & ? & ? & ?). exists L'. split_and!; try done. by exists e.
    - destruct Hst as [-> _]. cbn in Hfull. lia. }
  assert (∀ m1 s1 b, (let '(m, s, _) := evict (createEvictor (Policy cfg)) (rt_order rt) m s (StatsEnabled cfg) in
    (m, s, true)) = (m1, s1, b) → ∃ L', shard_inv (Policy cfg) B m1 s1 L' ∧ local m s L m1 s1 L' ∧
     if b then length L = S (length L') ∧ ∃ e, victim_rule (Policy cfg) (view m L) e ∧ e ∈ view m L ∧
       view m1 L' = without (e_key e) (view m L) else Policy cfg = AdmissionLFU ∧ L' = L ∧ m1 = m) as Hev'.
  { intros m1 s1 b. destruct (evict _ _ m s _) as [[m2 s2] ok] eqn:E. intros [= <- <- <-].
    destruct (Hev _ _ _ eq_refl) as (L' & ? & ? & ? & ?). by exists L'. }
  destruct (Policy cfg) eqn:Ep; try apply Hev'. destruct (admission s) as [adm|] eqn:Ea; [|apply Hev'].
  intros E. apply (evictWithAdmission_spec AdmissionLFU _ _ B _ _ L) in E; try done. destruct room.
  - destruct E as (e & Hr & Hin & L' & ? & ? & ? & ?). exists L'. split_and!; try done. by exists e.
  - destruct E as (-> & ? & ? & ?). by exists L.
Qed.

Lemma set_section_spec cfg B cap rt k v expire m s L m' s' u :
  shard_inv (Policy cfg) B m s L → fits cap L → 1 ≤ B →
  set_section cfg cap rt k v expire m s = (m', s', u) →
  ∃ L', shard_inv (Policy cfg) B m' s' L' ∧ local m s L m' s' L' ∧ fits cap L' ∧
    a_set (Policy cfg) cap k v (rt_now rt) expire (view m L) (view m' L').
Proof.
  intros Hi Hfit HB. unfold set_section.
  pose proof (find_key_view _ _ _ _ _ k Hi) as Hfind. pose proof (view_length_all _ _ _ _ _ Hi) as Hlen.
  destruct (data s !! k) as [x|] eqn:Ek; cbn in Hfind.
  - destruct (updateItem _ m s x v (rt_now rt) expire) as [m1 s1] eqn:Eu. intros [= <- <- <-].
    destruct (updateItem_spec _ _ _ _ _ _ _ _ _ _ _ _ Hi Ek HB Eu) as (L' & ? & ? & Hv & _ & Hl).
    exists L'. split_and!; try done; [unfold fits; by rewrite Hl|]. rewrite Hv.
    rewrite (rd_entry _ _ _ _ _ _ _ Hi Ek) in Hfind. eapply set_update, Hfind.
  - destruct (makeRoom cfg cap rt (khash k) m s) as [[m1 s1] room] eqn:Er.
    destruct (makeRoom_spec _ _ _ _ _ _ _ _ _ _ _ Hi Hfit Er) as (L1 & Hi1 & Hl1 & Hroom).
    assert (full cap (view m L) ↔ (0 <? cap) && (cap <=? Z.of_nat (length L)) = true) as Hfull.
    { unfold full. rewrite Hlen, andb_true_iff, Z.ltb_lt, Z.leb_le. lia. }
    destruct room; cbn [negb].
    + assert (data s1 !! k = None) as Ek1.
      { destruct (data s1 !! k) as [y|] eqn:E1; [|done].
        assert (find_key k (view m1 L1) = None) as Hn; [|by rewrite (find_key_Some _ _ _ _ _ _ _ Hi1 E1) in Hn].
        destruct (_ && _).
        - destruct Hroom as (_ & e & _ & _ & ->). rewrite find_key_None in Hfind |- *.
          intros e' [_ He']%list_elem_of_filter. by apply Hfind.
        - by destruct Hroom as (_ & -> & -> & ->). }
      destruct (insertItem _ _ m1 s1 k v (rt_now rt) expire) as [m2 s2] eqn:Ei. intros [= <- <- <-].
      destruct (insertItem_spec _ _ _ _ _ _ _ _ _ _ _ _ Hi1 Ek1 HB Ei) as (x & Hi2 & Hl2 & Hv2).
      exists (x :: L1). split; [done|]. split; [by eapply local_trans|]. rewrite Hv2.
      destruct ((0 <? cap) && (cap <=? Z.of_nat (length L))) eqn:Hb.
      * destruct Hroom as (Hl & e & Hr & Hin & ->). split; [unfold fits in *; cbn [length]; rewrite Hl in Hfit; lia|].
        apply set_evict; try done. by apply Hfull.
      * destruct Hroom as (_ & -> & -> & ->). split.
        { intros Hc. specialize (Hfit Hc). apply andb_false_iff in Hb. rewrite Z.ltb_ge, Z.leb_gt in Hb. cbn [length]. lia. }
        apply set_insert; [done|]. rewrite Hfull. done.
    + intros [= <- <- <-]. destruct ((0 <? cap) && (cap <=? Z.of_nat (length L))) eqn:Hb.
      * destruct Hroom as (Hp & -> & ->). exists L. split_and!; try done. apply set_reject; [done|by apply Hfull|done].
      * by destruct Hroom.
Qed.

(** ** [get], [Delete], [Exists] *)
Lemma length_without pol B m s L k x L' m' s' :
  shard_inv pol B m s L → data s !! k = Some x → shard_inv pol B m' s' L' →
  view m' L' = without k (view m L) → (length L' < length L)%nat.
Proof.
  intros Hi Hx Hi' Hv. rewrite <-(view_length_all _ _ _ _ _ Hi), <-(view_length_all _ _ _ _ _ Hi'), Hv.
  pose proof (inv_in _ _ _ _ _ _ _ Hi Hx) as HxL.
  destruct (elem_of_view_key _ _ _ _ _ _ Hi HxL) as (e & He & Hin & Hd & _).
  apply (length_filter_lt _ _ e Hin). intros Hne. apply Hne. apply entry_of_Some in He.
  apply (si_data _ _ _ _ _ Hi) in Hx as [_ Hx]. congruence.
Qed.

Lemma dropItem_section pol B cap m s L k x m' s' :
  shard_inv pol B m s L → fits cap L → data s !! k = Some x → dropItem pol m s k x = (m', s') →
  ∃ L', shard_inv pol B m' s' L' ∧ local m s L m' s' L' ∧ fits cap L' ∧ view m' L' = without k (view m L).
Proof.
  intros Hi Hf Hx E. destruct (dropItem_spec _ _ _ _ _ _ _ _ _ Hi Hx E) as (L' & Hi' & Hl' & Hv).
  exists L'. split_and!; try done. pose proof (length_without _ _ _ _ _ _ _ _ _ _ Hi Hx Hi' Hv).
  intros Hc. specialize (Hf Hc). lia.
Qed.

Lemma get_section_spec pol stats wl B cap k now m s L m' s' r :
  shard_inv pol B m s L → fits cap L → B < 2 ^ 63 - 1 →
  get_section pol stats wl k now m s = (m', s', r) →
  ∃ L', shard_inv pol (B + 1) m' s' L' ∧ local m s L m' s' L' ∧ fits cap L' ∧
    match find_key k (view m L) with
    | None => r = Miss ∧ view m' L' = view m L
    | Some e =>
        if decide (entry_expired now e) then
          if wl then r = Miss ∧ view m' L' = without k (view m L)
          else r = Upgrade ∧ m' = m ∧ s' = s ∧ L' = L
        else ∃ x, r = Hit x now ∧ view m' L' = a_touch pol k now (view m L) ∧
               value (rd m' x) = e_value e ∧ expireTime (rd m' x) = e_expire e
    end.
Proof.
  intros Hi Hfit HB. unfold get_section. rewrite (find_key_view _ _ _ _ _ k Hi).
  destruct (data s !! k) as [x|] eqn:Ek; cbn [mbind option_bind].
  2: { intros [= <- <- <-]. exists L. split_and!; try done.
       - apply inv_stats. eapply inv_weaken; [done|lia].
       - apply local_stats, local_refl. }
  pose proof (rd_entry _ _ _ _ _ _ _ Hi Ek) as He. rewrite He.
  pose proof (expired_entry now _ _ He) as Hex. destruct (expired now (rd m x)).
  - destruct (decide (entry_expired now _)) as [Hd|Hd]; [|by destruct Hd; apply Hex]. destruct wl; cbn [negb].
    + destruct (dropItem pol m s k x) as [m1 s1] eqn:Ed. intros [= <- <- <-].
      destruct (dropItem_section _ _ _ _ _ _ _ _ _ _ Hi Hfit Ek Ed) as (L' & ? & ? & ? & ?).
      exists L'. split_and!; try done; [apply inv_stats; eapply inv_weaken; [done|lia]|by apply local_stats].
    + intros [= <- <- <-]. exists L. split_and!; try done; [eapply inv_weaken; [done|lia]|apply local_refl].
  - destruct (decide (entry_expired now _)) as [Hd|Hd]; [by apply Hex in Hd|].
    destruct (touch pol m s x now) as [m1 s1] eqn:Et. intros [= <- <- <-].
    destruct (touch_spec _ _ _ _ _ _ _ _ _ _ Hi Ek HB Et) as (L' & ? & ? & ? & _ & Hval & Hl).
    exists L'. split_and!; [by apply inv_stats|by apply local_stats|unfold fits; by rewrite Hl|].
    exists x. destruct (Hval x). done.
Qed.

Lemma delete_section_spec pol B cap k m s L m' s' b :
  shard_inv pol B m s L → fits cap L → delete_section pol k m s = (m', s', b) →
  ∃ L', shard_inv pol B m' s' L' ∧ local m s L m' s' L' ∧ fits cap L' ∧
    view m' L' = without k (view m L) ∧ (b = true ↔ is_Some (find_key k (view m L))).
Proof.
  intros Hi Hfit. unfold delete_section. rewrite (find_key_view _ _ _ _ _ k Hi).
  destruct (data s !! k) as [x|] eqn:Ek; cbn [mbind option_bind].
  - destruct (dropItem pol m s k x) as [m1 s1] eqn:Ed. intros [= <- <- <-].
    destruct (dropItem_section _ _ _ _ _ _ _ _ _ _ Hi Hfit Ek Ed) as (L' & ? & ? & ? & ?).
    exists L'. rewrite (rd_entry _ _ _ _ _ _ _ Hi Ek). naive_solver.
  - intros [= <- <- <-]. exists L. split; [done|]. split; [apply local_refl|]. split; [done|]. split.
    + symmetry. by eapply view_absent.
    + split; [done|by intros [? ?]].
Qed.

Lemma exists_section_spec pol stats B cap k now m s L m' s' b :
  shard_inv pol B m s L → fits cap L → exists_section pol stats k now m s = (m', s', b) →
  ∃ L', shard_inv pol B m' s' L' ∧ local m s L m' s' L' ∧ fits cap L' ∧
    match find_key k (view m L) with
    | None => b = false ∧ view m' L' = view m L
    | Some e => if decide (entry_expired now e) then b = false ∧ view m' L' = without k (view m L)
                else b = true ∧ view m' L' = view m L
    end.
Proof.
  intros Hi Hfit. unfold exists_section. rewrite (find_key_view _ _ _ _ _ k Hi).
  destruct (data s !! k) as [x|] eqn:Ek; cbn [mbind option_bind].
  2: { intros [= <- <- <-]. exists L. split_and!; try done. apply local_refl. }
  pose proof (rd_entry _ _ _ _ _ _ _ Hi Ek) as He. rewrite He.
  pose proof (expired_entry now _ _ He) as Hex. destruct (expired now (rd m x)).
  - destruct (decide (entry_expired now _)) as [Hd|Hd]; [|by destruct Hd; apply Hex].
    destruct (dropItem pol m s k x) as [m1 s1] eqn:Ed. intros [= <- <- <-].
    destruct (dropItem_section _ _ _ _ _ _ _ _ _ _ Hi Hfit Ek Ed) as (L' & ? & ? & ? & ?).
    exists L'. split_and!; try done; [by apply inv_stats|by apply local_stats].
  - destruct (decide (entry_expired now _)) as [Hd|Hd]; [by apply Hex in Hd|]. intros [= <- <- <-].
    exists L. split_and!; try done. apply local_refl.
Qed.

(** ** [Clear] *)
Lemma foldl_pool_put xs m : foldl pool_put m xs = Mem (cells m) (rev xs ++ pool m).
Proof.
  revert m. induction xs as [|x xs IH]; intros m; [by destruct m|]. cbn [foldl]. rewrite IH.
  cbn. by rewrite <-app_assoc.
Qed.

Lemma clear_section_spec pol o B m s L m' s' u :
  shard_inv pol B m s L → clear_section pol o m s = (m', s', u) →
  shard_inv pol B m' s' [] ∧ local m s L m' s' [] ∧ data s' = ∅.
Proof.
  intros Hi. unfold clear_section. rewrite foldl_pool_put. cbn [cells pool].
  destruct (initLRU (cells m)) as [[h hd] tl] eqn:Ei.
  destruct (initLRU_spec _ _ _ _ Ei) as (Hhd & Htl & Hlru & Hfr).
  destruct (data_Permutation _ _ o _ _ _ Hi) as [HP _].
  set (xs := (range o (map_to_list (data s))).*2) in *. intros [= <- <- <-].
  assert (rev xs ++ pool m ≡ₚ L ++ pool m) as HPP by by rewrite <-Permutation_rev, HP.
  assert (∀ y, is_Some (cells m !! y) → h !! y = cells m !! y) as Hsame.
  { intros y [it Hy]. apply Hfr; congruence. }
  assert (∀ y, y ∈ L ++ pool m → is_Some (cells m !! y)) as Hown.
  { intros y [Hy|Hy]%elem_of_app; [eapply inv_some; [done|by apply elem_of_nodes]|by apply (si_pool _ _ _ _ _ Hi)]. }
  assert (NoDup (L ++ pool m)) as Hnd.
  { pose proof (si_sep _ _ _ _ _ Hi) as Hsep. unfold nodes in Hsep. cbn in Hsep.
    apply NoDup_cons in Hsep as [_ Hsep]. rewrite <-app_assoc in Hsep. cbn in Hsep.
    rewrite <-Permutation_middle in Hsep. by apply NoDup_cons in Hsep as [_ ?]. }
  pose proof (si_lfu _ _ _ _ _ Hi) as Hl. pose proof (si_adm _ _ _ _ _ Hi) as Ha.
  split; [split|split; [split|done]]; cbn [cells pool data head tail lfuIdx size admission].
  - done.
  - intros k x. rewrite lookup_empty. split; [done|]. by intros [Hx%elem_of_nil _].
  - by intros x Hx%elem_of_nil.
  - done.
  - unfold lfu_ok in *. cbn [lfuIdx]. case_bool_decide as Hp.
    + split; [done|]. exists ∅. split; [apply newLFUList_spec|]. split.
      * intros x. rewrite lookup_empty. split; [by intros Hx%elem_of_nil|by intros [? ?]].
      * intros x f. by rewrite lookup_empty.
    + destruct (lfuIdx s); [|done]. by destruct Hl.
  - case_bool_decide; [|done]. destruct (admission s); [|done]. by apply Admission.Reset_wf.
  - unfold nodes. cbn. destruct Hlru as (_ & Hn & _). cbn in Hn.
    apply NoDup_cons in Hn as [Hht _]. rewrite HPP. apply NoDup_cons. split.
    + rewrite elem_of_cons. intros [->|Hin%Hown]; [apply Hht; left|]. rewrite Hhd in Hin. by destruct Hin.
    + apply NoDup_cons. split; [|done]. intros Hin%Hown. rewrite Htl in Hin. by destruct Hin.
  - intros y Hy. rewrite HPP in Hy. rewrite Hsame by by apply Hown. by apply Hown.
  - intros y _ Hy. by apply Hsame.
  - unfold nodes. cbn. intros y. rewrite !elem_of_cons, HPP. intros [->|[->|Hy]]; [by right..|left].
    right. rewrite <-app_assoc. cbn. apply elem_of_app in Hy as [Hy|Hy]; apply elem_of_app; [by left|].
    right. by right.
  - intros y Hy. by rewrite Hsame.
Qed.

(** ** [Import] *)
Lemma import_evict_spec cfg B cap o fuel m s L m' s' :
  shard_inv (Policy cfg) B m s L → fits cap L → 0 < cap → (length L < fuel)%nat →
  import_evict fuel cfg cap o m s = (m', s') →
  ∃ L', shard_inv (Policy cfg) B m' s' L' ∧ local m s L m' s' L' ∧ Z.of_nat (length L') < cap ∧
    if bool_decide (full cap (view m L)) then
      ∃ e, victim_rule (Policy cfg) (view m L) e ∧ e ∈ view m L ∧ view m' L' = without (e_key e) (view m L)
    else L' = L ∧ m' = m ∧ s' = s.
Proof.
  intros Hi Hfit Hc Hfuel. pose proof (Hfit Hc) as Hcap.
  assert (full cap (view m L) ↔ cap ≤ Z.of_nat (length L)) as Hfull.
  { unfold full. rewrite (view_length_all _ _ _ _ _ Hi). lia. }
  destruct fuel as [|fuel]; [lia|]. cbn [import_evict].
  rewrite (fits_size _ _ _ _ _ _ Hi Hfit Hc).
  destruct (Z.leb_spec cap (Z.of_nat (length L))) as [Hf|Hf].
  2: { intros [= <- <-]. exists L. rewrite bool_decide_eq_false_2 by (rewrite Hfull; lia).
       split_and!; try done. apply local_refl. }
  rewrite bool_decide_eq_true_2 by by apply Hfull.
  destruct (evict _ _ m s _) as [[m1 s1] ok] eqn:E.
  pose proof (evict_step _ _ _ _ L _ _ _ _ Hi E) as Hst. destruct ok; cbn [negb].
  2: { destruct Hst as [-> _]. cbn in Hf. lia. }
  destruct Hst as (e & Hr & Hin & L1 & Hi1 & Hl1 & Hlen & Hv).
  assert (fits cap L1) as Hfit1 by (intros _; lia).
  intros E2. assert (m1 = m' ∧ s1 = s') as [<- <-].
  { destruct fuel as [|fuel]; [lia|]. cbn [import_evict] in E2.
    rewrite (fits_size _ _ _ _ _ _ Hi1 Hfit1 Hc) in E2.
    destruct (Z.leb_spec cap (Z.of_nat (length L1))); [lia|]. by simplify_eq. }
  exists L1. split_and!; try done; [lia|]. by exists e.
Qed.

(** Setting the key an item already has changes nothing. *)
Lemma wr_same_key m x k : key (rd m x) = Some k → wr m x (put_key (Some k)) = m.
Proof.
  intros Hk. destruct m as [h p]. unfold wr. cbn. f_equal. apply map_eq. intros y.
  rewrite lookup_alter. case_decide; subst; [|done]. unfold rd in Hk. cbn in Hk.
  destruct (h !! y) as [it|]; cbn in *; [|done]. f_equal. unfold put_key. destruct it. cbn in *. by subst.
Qed.

(** Importing a key that is present is the update of [Set]. *)
Lemma import_section_update cfg cap o c now it m s x :
  data s !! Key it = Some x → key (rd m x) = Some (Key it) →
  import_section cfg cap o c now it m s =
    (updateItem (Policy cfg) m s x (Val it) now (ExpireAbs it), tt).
Proof.
  intros Hx Hk. unfold import_section, updateItem. rewrite Hx, wr_same_key by done.
  by destruct (Policy cfg).
Qed.

(** Room for one more. *)
Lemma import_room cfg B cap o k v now expire m s L m1 s1 :
  shard_inv (Policy cfg) B m s L → fits cap L → data s !! k = None →
  (if 0 <? cap then import_evict (S (base.size (data s))) cfg cap o m s else (m, s)) = (m1, s1) →
  ∃ L1, shard_inv (Policy cfg) B m1 s1 L1 ∧ local m s L m1 s1 L1 ∧ (∀ x, fits cap (x :: L1)) ∧
    data s1 !! k = None ∧
    ∀ f, a_import (Policy cfg) cap k v now expire (view m L) (Entry k v expire now f :: view m1 L1).
Proof.
  intros Hi Hfit Ek Er.
  assert (find_key k (view m L) = None) as Hfind by by rewrite (find_key_view _ _ _ _ _ _ Hi), Ek.
  destruct (Z.ltb_spec 0 cap) as [Hc|Hc].
  2: { simplify_eq. exists L. split_and!; try done; [apply local_refl|intros ? ?; lia|].
       intros f. apply import_insert; [done|]. unfold full. lia. }
  apply (import_evict_spec cfg B cap o _ m s L) in Er as (L1 & Hi1 & Hl1 & Hlen & Hcase); try done.
  2: { destruct (data_Permutation _ _ inOrder _ _ _ Hi) as [_ ->]. lia. }
  exists L1. split; [done|]. split; [done|]. specialize (Hfit Hc).
  split; [intros x _; cbn [length]; lia|]. case_bool_decide as Hf.
  - destruct Hcase as (e & Hr & Hin & Hv). split.
    + assert (find_key k (view m1 L1) = None) as Hn.
      { rewrite Hv. rewrite find_key_None in Hfind |- *. intros e' [_ He']%list_elem_of_filter. by apply Hfind. }
      rewrite (find_key_view _ _ _ _ _ _ Hi1) in Hn. destruct (data s1 !! k) as [y|] eqn:Ey; [|done].
      cbn in Hn. by rewrite (rd_entry _ _ _ _ _ _ _ Hi1 Ey) in Hn.
    + intros f. rewrite Hv. by apply import_evicted.
  - destruct Hcase as (-> & -> & ->). split; [done|]. intros f. by apply import_insert.
Qed.

(** A new item, as [Import] writes it. *)
Lemma import_attach pol B c now it m s L m2 x m' s' u :
  shard_inv pol B m s L → data s !! Key it = None → 1 ≤ B → pool_get c m = (m2, x) →
  let s2 := add_size 1 (with_data (<[Key it := x]> (data s)) s) in
  let f := λ i, put_expire (ExpireAbs it) (put_access now (put_value (Val it) (put_key (Some (Key it)) i))) in
  let m3 := wr (addToHead m2 s x) x f in
  match pol with
  | LRU => (moveToHead m3 s2 x, s2, tt)
  | LFU => (lfu_add (wr m3 x (put_freq 1)) s2 x, tt)
  | AdmissionLFU => (wr m3 x (put_freq 1), s2, tt)
  | FIFO | OtherPolicy _ => (m3, s2, tt)
  end = (m', s', u) →
  ∃ n, shard_inv pol B m' s' (x :: L) ∧ local m s L m' s' (x :: L) ∧
    view m' (x :: L) = Entry (Key it) (Val it) (ExpireAbs it) now n :: view m L.
Proof.
  intros Hi Hk HB Hg s2 f m3.
  assert (pol ≠ LFU → ∀ (l : lfuList) (F : gmap loc Z), lfuIdx s = Some l → lfu_rep l F → F !! x = None →
    ∃ l', lfuIdx s2 = Some l' ∧ lfu_rep l' (<[x := 1]> F)) as Hnolfu.
  { intros Hp l F El. pose proof (lfu_none _ _ _ _ _ Hi Hp). congruence. }
  destruct pol.
  - intros [= <- <- <-]. exists (frequency (rd m2 x)).
    destruct (attach_spec LRU B c m m2 s L x f (Key it)
      (Entry (Key it) (Val it) (ExpireAbs it) now (frequency (rd m2 x))) s2) as (Hi3 & Hl3 & Hv3); try done.
    { by apply Hnolfu. }
    destruct (inv_move LRU B m3 s2 [] x L Hi3) as (Hi4 & Hl4 & Hpl). cbn [app] in *.
    split_and!; [done|by eapply local_trans|]. by rewrite (view_ext m3) by auto.
  - destruct (inv_lfu _ _ _ _ _ Hi eq_refl) as (l & F & El & HF & Hc).
    destruct (pool_get_spec _ _ _ _ _ _ _ _ Hi Hg) as (_ & Hx & _).
    assert (F !! x = None) as HFx.
    { destruct (F !! x) eqn:E; [|done]. exfalso. apply Hx, elem_of_app. left. apply elem_of_nodes, Hc. eauto. }
    destruct (lfu_add _ s2 x) as [m4 s4] eqn:Ea. intros [= <- <- <-].
    apply (lfu_add_spec _ _ _ l F) in Ea as (l' & -> & -> & Hrep); try done. exists 1.
    unfold m3. rewrite !wr_wr. eapply attach_spec; try done.
    intros l0 F0 El0 HF0 _. assert (l0 = l) as -> by congruence. exists l'. split; [done|].
    assert (F0 = F) as -> by by eapply lfu_rep_unique. done.
  - intros [= <- <- <-]. exists (frequency (rd m2 x)). eapply attach_spec; try done. by apply Hnolfu.
  - intros [= <- <- <-]. exists 1. unfold m3. rewrite wr_wr. eapply attach_spec; try done. by apply Hnolfu.
  - intros [= <- <- <-]. exists (frequency (rd m2 x)). eapply attach_spec; try done. by apply Hnolfu.
Qed.

Lemma import_section_spec cfg B cap o c now it m s L m' s' u :
  shard_inv (Policy cfg) B m s L → fits cap L → 1 ≤ B →
  import_section cfg cap o c now it m s = (m', s', u) →
  ∃ L', shard_inv (Policy cfg) B m' s' L' ∧ local m s L m' s' L' ∧ fits cap L' ∧
    a_import (Policy cfg) cap (Key it) (Val it) now (ExpireAbs it) (view m L) (view m' L').
Proof.
  intros Hi Hfit HB. destruct (data s !! Key it) as [x|] eqn:Ek.
  - pose proof (proj1 (si_data _ _ _ _ _ Hi _ _) Ek) as [_ Hk].
    rewrite (import_section_update _ _ _ _ _ _ _ _ _ Ek Hk).
    destruct (updateItem _ m s x _ _ _) as [m1 s1] eqn:Eu. intros [= <- <- <-].
    destruct (updateItem_spec _ _ _ _ _ _ _ _ _ _ _ _ Hi Ek HB Eu) as (L' & ? & ? & Hv & _ & Hl).
    exists L'. split_and!; try done; [unfold fits; by rewrite Hl|]. rewrite Hv.
    eapply import_update. by apply (find_key_Some _ _ _ _ _ _ x Hi).
  - unfold import_section. rewrite Ek.
    destruct (if 0 <? cap then _ else _) as [m1 s1] eqn:Er.
    destruct (import_room _ _ _ _ _ (Val it) now (ExpireAbs it) _ _ _ _ _ Hi Hfit Ek Er)
      as (L1 & Hi1 & Hl1 & Hfit1 & Ek1 & Himp).
    destruct (pool_get c m1) as [m2 x] eqn:Hg. rewrite !wr_wr.
    intros E. destruct (import_attach (Policy cfg) B c now it m1 s1 L1 m2 x m' s' u) as (n & ? & ? & Hv); try done.
    { rewrite <-E. destruct (Policy cfg); by rewrite ?wr_wr. }
    exists (x :: L1). split_and!; [done|by eapply local_trans|apply Hfit1|]. rewrite Hv. apply Himp.
Qed.
End Sections.
