(* ===== verification/CacheInv.v ===== *)
(** * The cache as a whole: invariant, reachability and refinement

    [cache_wf] is the invariant of all shards over the shared store; [refines c A] says that
    the cache implements the abstract state [A], one list of entries per shard.  Each public
    operation preserves the invariant and refines the list function of [Sections.v] on the
    shard of its key, leaving all other shards alone. *)
From Stdlib Require Import ZArith Lia.
From stdpp Require Import base numbers gmap list sets.
From S2P Require Import Prelude MathUtil Hash Admission Dll Lru Lfu Shard Eviction Cache Sections.
Local Open Scope Z_scope.

Section CacheInv.
Context {K V : Type} `{EqDecision K, !Countable K, !Hasher K} {zeroV : Inhabited V}.
Abbreviation mem := (mem K V).
Abbreviation shard := (shard K).
Abbreviation cache := (InMemoryCache K V).
Abbreviation entries := (list (@entry K V)).
Implicit Types c : cache.
Implicit Types k : K.

(** [Ls i] is the recency list of shard [i]. *)
Record cache_wf (B : Z) (c : cache) (Ls : nat → list loc) : Prop := {
  cw_len : Z.of_nat (length (shards c)) = shardMask c + 1;
  cw_pow2 : MathUtil.pow2 (shardMask c + 1);
  cw_shard : ∀ i s, shards c !! i = Some s →
    shard_inv (Policy (config c)) B (store c) s (Ls i) ∧ fits (perShardCap c) (Ls i);
  cw_home : ∀ i s e, shards c !! i = Some s → e ∈ view (store c) (Ls i) → getShard c (e_key e) = i;
  cw_disj : ∀ i j si sj, i ≠ j → shards c !! i = Some si → shards c !! j = Some sj →
    ∀ x, x ∈ nodes si (Ls i) → x ∉ nodes sj (Ls j) }.

(** The key's shard exists. *)
Lemma getShard_Some B c Ls k : cache_wf B c Ls → ∃ s, shards c !! getShard c k = Some s.
Proof.
  intros Hw. apply lookup_lt_is_Some. unfold getShard, shardByHash.
  pose proof (cw_len _ _ _ Hw) as Hlen. pose proof (cw_pow2 _ _ _ Hw) as Hp.
  assert (0 < shardMask c + 1) by (destruct Hp as (a & ? & ->); apply pow2_pos; lia).
  pose proof (land_bound_r (khash k) (shardMask c) ltac:(lia)). lia.
Qed.

Definition upd (Ls : nat → list loc) (i : nat) (L : list loc) : nat → list loc :=
  λ j, if decide (j = i) then L else Ls j.

(** Lifting a critical section on one shard to the cache. *)
Lemma cache_lift B B' c Ls i s m' s' L' :
  cache_wf B c Ls → B ≤ B' → shards c !! i = Some s →
  shard_inv (Policy (config c)) B' m' s' L' → local (store c) s (Ls i) m' s' L' →
  fits (perShardCap c) L' → (∀ e, e ∈ view m' L' → getShard c (e_key e) = i) →
  cache_wf B' (with_state m' (<[i := s']> (shards c)) c) (upd Ls i L') ∧
  ∀ j sj, j ≠ i → shards c !! j = Some sj → view m' (Ls j) = view (store c) (Ls j).
Proof.
  intros [Hlen Hp Hsh Hhome Hdisj] HB Hi Hinv Hloc Hfit Hh.
  destruct (Hsh i s Hi) as [Hinv0 _].
  assert (i < length (shards c))%nat as Hlt by by eapply lookup_lt_Some.
  assert (∀ j sj, j ≠ i → shards c !! j = Some sj → ∀ y, y ∈ nodes sj (Ls j) →
    (y ∉ nodes s (Ls i) ++ pool (store c)) ∧ is_Some (cells (store c) !! y)) as Hout.
  { intros j sj Hj Hsj y Hy. destruct (Hsh j sj Hsj) as [Hij _]. split; [|by eapply inv_some].
    intros [Hin|Hin]%elem_of_app.
    - by apply (Hdisj j i sj s) in Hy.
    - pose proof (si_sep _ _ _ _ _ Hij) as Hnd. apply NoDup_app in Hnd as (_ & Hnd & _). by apply (Hnd y). }
  assert (∀ j sj, j ≠ i → shards c !! j = Some sj → ∀ y, y ∈ nodes sj (Ls j) →
    cells m' !! y = cells (store c) !! y) as Hsame.
  { intros j sj Hj Hsj y Hy. destruct (Hout j sj Hj Hsj y Hy). by apply (lc_frame _ _ _ _ _ _ Hloc). }
  assert (∀ j sj, j ≠ i → shards c !! j = Some sj → view m' (Ls j) = view (store c) (Ls j)) as Hview.
  { intros j sj Hj Hsj. apply view_ext. intros y Hy. unfold rd.
    by rewrite (Hsame j sj Hj Hsj y (elem_of_nodes _ _ _ Hy)). }
  assert (∀ j sj, j ≠ i → shards c !! j = Some sj → ∀ y, y ∈ nodes sj (Ls j) → y ∉ nodes s' L' ++ pool m') as Hnew.
  { intros j sj Hj Hsj y Hy Hin. destruct (Hout j sj Hj Hsj y Hy) as [Hn Hs].
    apply (lc_owned _ _ _ _ _ _ Hloc) in Hin as [Hin|Hin]; [done|]. rewrite Hin in Hs. by destruct Hs. }
  split; [split|]; cbn [shards store shardMask config perShardCap with_state]; try done.
  - by rewrite length_insert.
  - intros j sj. unfold upd. destruct (decide (j = i)) as [->|Hj].
    + rewrite list_lookup_insert_eq by done. intros [= <-]. done.
    + rewrite list_lookup_insert_ne by congruence. intros Hsj. destruct (Hsh j sj Hsj) as [Hij Hfj].
      split; [|done]. eapply inv_weaken; [|exact HB]. eapply inv_frame, Hij.
      * intros y Hy. by eapply Hsame.
      * apply NoDup_app. pose proof (si_sep _ _ _ _ _ Hij) as Hnd. apply NoDup_app in Hnd as (Hnd & _).
        split; [done|]. split.
        { intros y Hy Hin. apply (Hnew j sj Hj Hsj y Hy), elem_of_app. by right. }
        pose proof (si_sep _ _ _ _ _ Hinv) as Hnd'. by apply NoDup_app in Hnd' as (_ & _ & ?).
      * apply (si_pool _ _ _ _ _ Hinv).
  - intros j sj e. unfold upd. change (getShard (with_state _ _ c) (e_key e)) with (getShard c (e_key e)).
    destruct (decide (j = i)) as [->|Hj]; [intros _; by apply Hh|].
    rewrite list_lookup_insert_ne by congruence. intros Hsj. rewrite (Hview j sj) by done. by apply (Hhome j sj).
  - intros j l sj sl Hne. unfold upd.
    destruct (decide (j = i)) as [->|Hj], (decide (l = i)) as [->|Hl]; try done.
    + rewrite list_lookup_insert_eq, list_lookup_insert_ne by (done || congruence). intros [= <-] Hsl y Hy Hy'.
      apply (Hnew l sl Hl Hsl y Hy'), elem_of_app. by left.
    + rewrite list_lookup_insert_eq, list_lookup_insert_ne by (done || congruence). intros Hsj [= <-] y Hy Hy'.
      apply (Hnew j sj Hj Hsj y Hy), elem_of_app. by left.
    + rewrite !list_lookup_insert_ne by congruence. by apply Hdisj.
Qed.

(** ** The abstract state *)

(** The cache implements [A], one list of entries per shard. *)
Definition implements (c : cache) (Ls : nat → list loc) (A : nat → entries) : Prop :=
  ∀ i, (i < length (shards c))%nat → A i = view (store c) (Ls i).
Definition refines (B : Z) (c : cache) (A : nat → entries) : Prop :=
  ∃ Ls, cache_wf B c Ls ∧ implements c Ls A.

(** The contract of a critical section: the invariant and [local], and [P] for what it does
    to the entries. *)
Definition section_ok {R} (pol : EvictionPolicy) (cap B B' : Z) (f : mem → shard → mem * shard * R)
    (P : mem → entries → R → entries → Prop) : Prop :=
  ∀ m s L m' s' r, shard_inv pol B m s L → fits cap L → f m s = (m', s', r) →
    ∃ L', shard_inv pol B' m' s' L' ∧ local m s L m' s' L' ∧ fits cap L' ∧
      P m' (view m L) r (view m' L').

(** No keys but [k] and those that were there. *)
Definition keys_from (k : K) (es es' : entries) : Prop :=
  ∀ e, e ∈ es' → e_key e = k ∨ ∃ e0, e0 ∈ es ∧ e_key e0 = e_key e.

(** Only shard [i] of the abstract state changed. *)
Definition only_shard (c : cache) (i : nat) (A A' : nat → entries) : Prop :=
  ∀ j, (j < length (shards c))%nat → j ≠ i → A' j = A j.

Lemma locked_at {R} B B' c A i (d : R) f P c' r :
  refines B c A → B ≤ B' → section_ok (Policy (config c)) (perShardCap c) B B' f P →
  (∀ m es r es' e, P m es r es' → e ∈ es' →
     getShard c (e_key e) = i ∨ ∃ e0, e0 ∈ es ∧ e_key e0 = e_key e) →
  (i < length (shards c))%nat → locked c i d f = (c', r) →
  ∃ A', refines B' c' A' ∧ P (store c') (A i) r (A' i) ∧
    only_shard c i A A' ∧ c' = with_state (store c') (shards c') c ∧
    length (shards c') = length (shards c).
Proof.
  intros (Ls & Hw & HA) HB Hf Hkeys Hlt. destruct (lookup_lt_is_Some_2 _ _ Hlt) as [s Hs].
  unfold locked. rewrite Hs. destruct (f (store c) s) as [[m' s'] r'] eqn:E. intros [= <- <-].
  destruct (cw_shard _ _ _ Hw _ _ Hs) as [Hi Hfit].
  destruct (Hf _ _ _ _ _ _ Hi Hfit E) as (L' & Hi' & Hl' & Hfit' & HP).
  destruct (cache_lift B B' c Ls i s m' s' L') as [Hw' Hview]; try done.
  { intros e He. destruct (Hkeys _ _ _ _ e HP He) as [?|(e0 & He0 & <-)]; [done|].
    by apply (cw_home _ _ _ Hw _ s). }
  exists (λ j, if decide (j = i) then view m' L' else A j). split; [|split; [|split]].
  - exists (upd Ls i L'). split; [done|]. intros j. cbn. rewrite length_insert. unfold upd.
    intros Hj. case_decide; [done|]. rewrite HA by done.
    destruct (lookup_lt_is_Some_2 _ _ Hj) as [sj Hsj]. symmetry. by eapply Hview.
  - rewrite decide_True, HA by done. done.
  - intros j _ Hj. by rewrite decide_False.
  - split; [done|]. cbn. by rewrite length_insert.
Qed.

Lemma locked_spec {R} B B' c A k (d : R) f P c' r :
  refines B c A → B ≤ B' → section_ok (Policy (config c)) (perShardCap c) B B' f P →
  (∀ m es r es', P m es r es' → keys_from k es es') →
  locked c (getShard c k) d f = (c', r) →
  ∃ A', refines B' c' A' ∧ P (store c') (A (getShard c k)) r (A' (getShard c k)) ∧
    only_shard c (getShard c k) A A' ∧ c' = with_state (store c') (shards c') c ∧
    length (shards c') = length (shards c).
Proof.
  intros Hr HB Hf Hkeys. pose proof Hr as (Ls & Hw & _). destruct (getShard_Some _ _ _ k Hw) as [s Hs].
  apply locked_at with B; try done; [|by eapply lookup_lt_Some].
  intros m es r' es' e HP He. destruct (Hkeys _ _ _ _ HP e He) as [->|?]; auto.
Qed.

(** Loops over all shards. *)
Lemma each_shard_spec B c A f (P : entries → entries → Prop) :
  refines B c A → section_ok (Policy (config c)) (perShardCap c) B B f (λ _ es (_ : unit) es', P es es') →
  (∀ es es', P es es' → ∀ e, e ∈ es' → ∃ e0, e0 ∈ es ∧ e_key e0 = e_key e) →
  let c' := each_shard f c in
  ∃ A', refines B c' A' ∧ (∀ i, (i < length (shards c))%nat → P (A i) (A' i)) ∧
    c' = with_state (store c') (shards c') c ∧ length (shards c') = length (shards c).
Proof.
  intros Hr Hf Hkeys. cbn. unfold each_shard.
  assert (∀ n a c A, (a + n)%nat = length (shards c) → refines B c A →
    section_ok (Policy (config c)) (perShardCap c) B B f (λ _ es (_ : unit) es', P es es') →
    ∃ A', refines B (foldl (λ c i, (locked c i tt f).1) c (seq a n)) A' ∧
      (∀ i, (a ≤ i < a + n)%nat → P (A i) (A' i)) ∧ (∀ i, (i < a)%nat → A' i = A i) ∧
      foldl (λ c i, (locked c i tt f).1) c (seq a n) =
        with_state (store (foldl (λ c i, (locked c i tt f).1) c (seq a n)))
          (shards (foldl (λ c i, (locked c i tt f).1) c (seq a n))) c ∧
      length (shards (foldl (λ c i, (locked c i tt f).1) c (seq a n))) = length (shards c)) as HI.
  { clear c A Hr Hf. induction n as [|n IH]; intros a c A Hn Hr Hf; cbn [seq foldl].
    { exists A. split_and!; try done; [intros; lia|]. by destruct c. }
    destruct (locked_at B B c A a tt f (λ _ es _ es', P es es') (locked c a tt f).1 (locked c a tt f).2)
      as (A1 & Hr1 & HP1 & Ho1 & Ec1 & El1); [done..| |lia|by destruct (locked c a tt f)|].
    { intros m es r es' e HP He. right. by eapply Hkeys. }
    destruct (IH (S a) (locked c a tt f).1 A1) as (A' & Hr' & HP' & Ho' & Ec' & El').
    { rewrite El1. lia. }
    { done. }
    { rewrite Ec1. done. }
    exists A'. split_and!; [done| | | |congruence].
    - intros i Hi. destruct (decide (i = a)) as [->|].
      + rewrite Ho' by lia. done.
      + rewrite <-(Ho1 i) by lia. apply HP'. lia.
    - intros i Hi. rewrite Ho', Ho1 by lia. done.
    - rewrite Ec' at 1. rewrite Ec1 at 3. done. }
  destruct (HI (length (shards c)) 0%nat c A) as (A' & ? & HP & _ & ? & ?); try done.
  exists A'. split_and!; try done. intros i Hi. apply HP. lia.
Qed.

(** ** Keys of the abstract operations *)
Lemma without_keys k k' (es : entries) : keys_from k es (without k' es).
Proof. intros e [_ He]%list_elem_of_filter. eauto. Qed.
Lemma same_keys k (es : entries) : keys_from k es es.
Proof. intros e He. eauto. Qed.
Lemma cons_keys k e (es es' : entries) : e_key e = k → keys_from k es es' → keys_from k es (e :: es').
Proof. intros Hk He e' [->|He']%elem_of_cons; auto. Qed.
Lemma map_keys k k' g (es : entries) :
  (∀ e, e_key (g e) = k ∨ e_key (g e) = e_key e) → keys_from k es (map_key k' g es).
Proof.
  intros Hg e (e0 & -> & He0)%list_elem_of_fmap. case_decide; [|eauto].
  destruct (Hg e0) as [?| ->]; eauto.
Qed.
Lemma find_key_elem k (es : entries) e : find_key k es = Some e → e ∈ es ∧ e_key e = k.
Proof.
  unfold find_key. intros H. destruct (filter _ es) as [|e' l] eqn:E; [done|]. cbn in H. simplify_eq.
  assert (e ∈ filter (λ e, e_key e = k) es) as Hin by (rewrite E; left).
  apply list_elem_of_filter in Hin. tauto.
Qed.

Lemma a_touch_keys pol k now (es : entries) : keys_from k es (a_touch pol k now es).
Proof.
  destruct pol; cbn; try apply same_keys; try (apply map_keys; auto).
  destruct (find_key k es) as [e|] eqn:E; [|apply same_keys].
  apply cons_keys; [by apply find_key_elem in E as [_ ?]|apply without_keys].
Qed.
Lemma a_update_keys pol k v now ex (es : entries) : keys_from k es (a_update pol k v now ex es).
Proof.
  destruct pol; cbn; try (apply map_keys; auto).
  destruct (find_key k es) as [e|] eqn:E; [|apply same_keys].
  apply cons_keys; [done|apply without_keys].
Qed.
Lemma a_set_keys pol cap k v now ex (es es' : entries) : a_set pol cap k v now ex es es' → keys_from k es es'.
Proof.
  intros [e He|Hn Hf|e Hn Hf Hv He|Hn Hf Hp].
  - apply a_update_keys.
  - apply cons_keys; [done|apply same_keys].
  - apply cons_keys; [done|apply without_keys].
  - apply same_keys.
Qed.
Lemma a_import_keys pol cap k v now ex (es es' : entries) :
  a_import pol cap k v now ex es es' → keys_from k es es'.
Proof.
  intros [e He|f Hn Hf|e f Hn Hf Hv He].
  - apply a_update_keys.
  - apply cons_keys; [done|apply same_keys].
  - apply cons_keys; [done|apply without_keys].
Qed.

(** ** The operations *)

(** What [get] does to the shard of its key. *)
Definition a_get (pol : EvictionPolicy) (k : K) (now : Z) (es : entries) : entries * option entry :=
  match find_key k es with
  | None => (es, None)
  | Some e => if decide (entry_expired now e) then (without k es, None)
              else (a_touch pol k now es, Some e)
  end.

(** The same configuration and flags: only shards and store may differ. *)
Definition same_frame (c c' : cache) : Prop :=
  c' = with_state (store c') (shards c') c ∧ length (shards c') = length (shards c).
Lemma same_frame_refl c : same_frame c c.
Proof. by destruct c. Qed.
Lemma same_frame_trans c1 c2 c3 : same_frame c1 c2 → same_frame c2 c3 → same_frame c1 c3.
Proof. intros [E1 L1] [E2 L2]. split; [|congruence]. rewrite E2 at 1. rewrite E1. done. Qed.
Lemma same_frame_getShard c c' k : same_frame c c' → getShard c' k = getShard c k.
Proof. intros [-> _]. done. Qed.

Definition get_post (pol : EvictionPolicy) (wl : bool) (k : K) (now : Z)
    (m : mem) (es : entries) (r : lookup_result) (es' : entries) : Prop :=
  match find_key k es with
  | None => r = Miss ∧ es' = es
  | Some e =>
      if decide (entry_expired now e) then
        if wl then r = Miss ∧ es' = without k es else r = Upgrade ∧ es' = es
      else ∃ x, r = Hit x now ∧ es' = a_touch pol k now es ∧
             value (rd m x) = e_value e ∧ expireTime (rd m x) = e_expire e
  end.

Lemma get_section_ok pol stats wl cap B k now :
  B < 2 ^ 63 - 1 →
  section_ok pol cap B (B + 1) (get_section pol stats wl k now) (get_post pol wl k now).
Proof.
  intros HB m s L m' s' r Hi Hfit E.
  destruct (get_section_spec _ _ _ _ _ _ _ _ _ _ _ _ _ Hi Hfit HB E) as (L' & ? & ? & ? & Hpost).
  exists L'. split_and!; try done. unfold get_post. destruct (find_key k (view m L)); [|done].
  destruct (decide _); [|done]. destruct wl; [done|]. by destruct Hpost as (-> & -> & _ & ->).
Qed.

Lemma get_post_keys pol wl k now m es r es' : get_post pol wl k now m es r es' → keys_from k es es'.
Proof.
  unfold get_post. destruct (find_key k es) as [e|]; [|intros [_ ->]; apply same_keys].
  destruct (decide _).
  - destruct wl; intros [_ ->]; [apply without_keys|apply same_keys].
  - intros (x & _ & -> & _). apply a_touch_keys.
Qed.

Lemma get_refines B c A k now now' c' r :
  refines B c A → B < 2 ^ 63 - 2 → closed c = false → now ≤ now' → get c k now now' = (c', r) →
  let i := getShard c k in
  ∃ A', refines (B + 2) c' A' ∧ only_shard c i A A' ∧ same_frame c c' ∧
    A' i = (a_get (Policy (config c)) k now (A i)).1 ∧
    match (a_get (Policy (config c)) k now (A i)).2 with
    | None => r = Miss
    | Some e => ∃ x, r = Hit x now ∧ value (rd (store c') x) = e_value e ∧
                  expireTime (rd (store c') x) = e_expire e
    end.
Proof.
  intros Hr HB Hcl Hnow. unfold get. rewrite Hcl.
  set (pol := Policy (config c)). set (st := StatsEnabled (config c)).
  destruct (locked c (getShard c k) Miss (get_section pol st (needsWrite pol) k now)) as [c1 r1] eqn:E1.
  destruct (locked_spec B (B + 1) c A k Miss (get_section pol st (needsWrite pol) k now) (get_post pol (needsWrite pol) k now) c1 r1)
    as (A1 & Hr1 & HP1 & Ho1 & Hf1); [done|lia|apply get_section_ok; lia|intros; by eapply get_post_keys|done|].
  assert (refines (B + 2) c1 A1) as Hr1'.
  { destruct Hr1 as (Ls & Hw & HA). exists Ls. split; [|done]. destruct Hw as [W1 W2 W3 W4 W5]. split; try done.
    intros j s Hj. destruct (W3 j s Hj). split; [|done]. eapply inv_weaken; [done|lia]. }
  intros E. unfold get_post in HP1. unfold a_get.
  destruct (find_key k (A (getShard c k))) as [e|] eqn:Ek.
  2: { destruct HP1 as [-> HA1]. simplify_eq. by exists A1. }
  destruct (decide (entry_expired now e)) as [He|He].
  2: { destruct HP1 as (x & -> & HA1 & Hv & Hx). simplify_eq. exists A1. split_and!; try done. by exists x. }
  destruct (needsWrite pol).
  { destruct HP1 as [-> HA1]. simplify_eq. by exists A1. }
  destruct HP1 as [-> HA1].
  pose proof (same_frame_getShard _ _ k Hf1) as Eg.
  assert (Policy (config c1) = pol) as Ep by (destruct Hf1 as [-> _]; done).
  destruct (locked_spec (B + 1) (B + 2) c1 A1 k Miss (get_section pol st true k now') (get_post pol true k now') c' r)
    as (A2 & Hr2 & HP2 & Ho2 & Hf2); [done|lia| |intros; by eapply get_post_keys|done|].
  { rewrite Ep. replace (B + 2) with (B + 1 + 1) by lia. apply get_section_ok. lia. }
  rewrite Eg in *. unfold get_post in HP2. rewrite HA1, Ek in HP2.
  rewrite decide_True in HP2 by (unfold entry_expired in *; lia). destruct HP2 as [-> HA2].
  exists A2. split_and!; try done; [|by eapply same_frame_trans].
  intros j Hj Hne. rewrite Ho2, Ho1; try done. by rewrite (proj2 Hf1).
Qed.

Lemma refines_weaken B B' c A : refines B c A → B ≤ B' → refines B' c A.
Proof.
  intros (Ls & [W1 W2 W3 W4 W5] & HA) HB. exists Ls. split; [|done]. split; try done.
  intros j s Hj. destruct (W3 j s Hj). split; [|done]. by eapply inv_weaken.
Qed.

Lemma Set_refines B c A k v ttl rt c' err :
  refines B c A → 1 ≤ B → closed c = false → Set_ c k v ttl rt = (c', err) →
  let i := getShard c k in
  err = None ∧ ∃ A', refines B c' A' ∧ only_shard c i A A' ∧ same_frame c c' ∧
    a_set (Policy (config c)) (perShardCap c) k v (rt_now rt) (expiry (config c) (rt_now rt) ttl)
      (A i) (A' i).
Proof.
  intros Hr HB Hcl. unfold Set_. rewrite Hcl. change (shardByHash c (khash k)) with (getShard c k).
  set (f := set_section (config c) (perShardCap c) rt k v (expiry (config c) (rt_now rt) ttl)).
  destruct (locked c (getShard c k) tt f) as [c1 u] eqn:E. intros [= <- <-]. cbn zeta. split; [done|].
  destruct (locked_spec B B c A k tt f (λ _ es (_ : unit) es', a_set (Policy (config c)) (perShardCap c) k v
    (rt_now rt) (expiry (config c) (rt_now rt) ttl) es es') c1 u) as (A' & Hr' & HP & Ho & Hf); try done.
  - intros m s L m' s' r Hi Hfit. by apply set_section_spec.
  - intros m es r es'. apply a_set_keys.
  - by exists A'.
Qed.

Lemma Delete_refines B c A k c' b :
  refines B c A → closed c = false → Delete c k = (c', b) →
  let i := getShard c k in
  (b = true ↔ is_Some (find_key k (A i))) ∧
  ∃ A', refines B c' A' ∧ only_shard c i A A' ∧ same_frame c c' ∧ A' i = without k (A i).
Proof.
  intros Hr Hcl. unfold Delete. rewrite Hcl. intros E. cbn zeta.
  destruct (locked_spec B B c A k false (delete_section (Policy (config c)) k)
    (λ _ es b es', es' = without k es ∧ (b = true ↔ is_Some (find_key k es))) c' b)
    as (A' & Hr' & [HP Hb] & Ho & Hf); try done.
  - intros m s L m' s' r Hi Hfit. by apply delete_section_spec.
  - intros m es r es' [-> _]. apply without_keys.
  - split; [done|]. by exists A'.
Qed.

Lemma Exists_refines B c A k now c' b :
  refines B c A → closed c = false → Exists c k now = (c', b) →
  let i := getShard c k in
  ∃ A', refines B c' A' ∧ only_shard c i A A' ∧ same_frame c c' ∧
    match find_key k (A i) with
    | None => b = false ∧ A' i = A i
    | Some e => if decide (entry_expired now e) then b = false ∧ A' i = without k (A i)
                else b = true ∧ A' i = A i
    end.
Proof.
  intros Hr Hcl. unfold Exists. rewrite Hcl. intros E. cbn zeta.
  destruct (locked_spec B B c A k false (exists_section (Policy (config c)) (StatsEnabled (config c)) k now)
    (λ _ es b es', match find_key k es with
      | None => b = false ∧ es' = es
      | Some e => if decide (entry_expired now e) then b = false ∧ es' = without k es else b = true ∧ es' = es
      end) c' b) as (A' & Hr' & HP & Ho & Hf); try done.
  - intros m s L m' s' r Hi Hfit. by apply exists_section_spec.
  - intros m es r es'. destruct (find_key k es); [destruct (decide _)|]; intros [_ ->];
      (apply without_keys || apply same_keys).
  - by exists A'.
Qed.

Lemma Clear_refines B c A o :
  refines B c A → closed c = false →
  ∃ A', refines B (Clear c o) A' ∧ same_frame c (Clear c o) ∧
    ∀ i, (i < length (shards c))%nat → A' i = [].
Proof.
  intros Hr Hcl. unfold Clear. rewrite Hcl.
  destruct (each_shard_spec B c A (clear_section (Policy (config c)) o) (λ _ es', es' = []))
    as (A' & Hr' & HP & Hf); try done.
  - intros m s L m' s' r Hi Hfit E. destruct (clear_section_spec _ _ _ _ _ _ _ _ _ Hi E) as (? & ? & _).
    exists []. split_and!; try done. intros Hc. specialize (Hfit Hc). cbn. lia.
  - by intros es es' -> e He%elem_of_nil.
  - by exists A'.
Qed.

Lemma cleanup_refines B c A now o :
  refines B c A → closed c = false →
  ∃ A', refines B (cleanup_all c now o) A' ∧ same_frame c (cleanup_all c now o) ∧
    ∀ i, (i < length (shards c))%nat →
      A' i = entry_aged (Policy (config c)) <$> filter (λ e, ¬ entry_expired now e) (A i).
Proof.
  intros Hr Hcl. unfold cleanup_all. rewrite Hcl.
  destruct (each_shard_spec B c A
    (λ m s, (cleanup o m s now (Policy (config c)) (StatsEnabled (config c)), tt))
    (λ es es', es' = entry_aged (Policy (config c)) <$> filter (λ e, ¬ entry_expired now e) es))
    as (A' & Hr' & HP & Hf); try done.
  - intros m s L m' s' r Hi Hfit E.
    destruct (cleanup o m s now _ _) as [m1 s1] eqn:Ec. simplify_eq.
    destruct (cleanup_spec _ _ _ _ _ _ _ _ _ _ Hi Ec) as (L' & Hi' & ? & Hv). exists L'. split_and!; try done.
    intros Hc. specialize (Hfit Hc). rewrite <-(view_length_all _ _ _ _ _ Hi), <-(view_length_all _ _ _ _ _ Hi') in *.
    rewrite Hv, length_fmap. pose proof (length_filter (λ e, ¬ entry_expired now e) (view m L)). lia.
  - intros es es' -> e (e0 & -> & [_ He0]%list_elem_of_filter)%list_elem_of_fmap. exists e0. split; [done|].
    unfold entry_aged. by destruct (_ && _).
  - by exists A'.
Qed.

Lemma Import_step B c A now o it choice :
  refines B c A → 1 ≤ B →
  let i := getShard c (Key it) in
  let c' := (locked c i tt (import_section (config c) (perShardCap c) o choice now it)).1 in
  ∃ A', refines B c' A' ∧ only_shard c i A A' ∧ same_frame c c' ∧
    a_import (Policy (config c)) (perShardCap c) (Key it) (Val it) now (ExpireAbs it) (A i) (A' i).
Proof.
  intros Hr HB i c'. subst i c'. destruct (locked c _ tt _) as [c1 u] eqn:E. cbn [fst].
  destruct (locked_spec B B c A (Key it) tt (import_section (config c) (perShardCap c) o choice now it)
    (λ _ es (_ : unit) es', a_import (Policy (config c)) (perShardCap c) (Key it) (Val it) now (ExpireAbs it) es es')
    c1 u) as (A' & Hr' & HP & Ho & Hf); try done.
  - intros m s L m' s' r Hi Hfit. by apply import_section_spec.
  - intros m es r es'. apply a_import_keys.
  - by exists A'.
Qed.

Lemma Import_refines B c A now o items :
  refines B c A → 1 ≤ B → ∃ A', refines B (Import c now o items) A' ∧ same_frame c (Import c now o items).
Proof.
  revert c A. induction items as [|[it choice] items IH]; intros c A Hr HB.
  { exists A. split; [done|apply same_frame_refl]. }
  destruct (Import_step B c A now o it choice Hr HB) as (A1 & Hr1 & _ & Hf1 & _).
  destruct (IH _ _ Hr1 HB) as (A' & Hr' & Hf'). exists A'. split; [done|]. by eapply same_frame_trans.
Qed.

(** ** [New] *)

(** Configurations for which the sizing arithmetic stays inside 64 bits. *)
Definition valid_config (numCPU : Z) (cfg : Config) : Prop :=
  1 ≤ numCPU ≤ 2 ^ 32 ∧ ShardCount cfg ≤ 2 ^ 62 ∧ MaxSize cfg ≤ 2 ^ 58.

Lemma maxPow2_loop_spec fuel limit p :
  MathUtil.pow2 p → p ≤ limit → limit < p * 2 ^ Z.of_nat fuel →
  MathUtil.pow2 (maxPow2_loop fuel limit p) ∧ maxPow2_loop fuel limit p ≤ limit < 2 * maxPow2_loop fuel limit p.
Proof.
  revert p. induction fuel as [|fuel IH]; intros p Hp Hle Hlt; [rewrite Z.mul_1_r in Hlt; lia|].
  cbn [maxPow2_loop]. destruct (Z.leb_spec (2 * p) limit).
  - apply IH; [|done|].
    + destruct Hp as (a & Ha & ->). exists (a + 1). rewrite Z.pow_add_r by lia. split; lia.
    + rewrite Nat2Z.inj_succ, Z.pow_succ_r in Hlt by lia. lia.
  - split; [done|]. lia.
Qed.

Lemma chooseShardCount_spec numCPU cfg :
  valid_config numCPU cfg →
  let n := chooseShardCount numCPU cfg in
  MathUtil.pow2 n ∧ 1 ≤ n ∧ (0 < MaxSize cfg → n ≤ MaxSize cfg).
Proof.
  intros (Hcpu & Hsc & Hms). unfold chooseShardCount, shardMultiplier, maxShardCount.
  set (sc := if ShardCount cfg <=? 0 then _ else _).
  assert (1 ≤ sc ≤ 2 ^ 62) as Hsc'. { unfold sc. destruct (Z.leb_spec (ShardCount cfg) 0); lia. }
  set (n0 := if 0 <? MaxSize cfg then _ else _).
  assert (n0 ≤ 2 ^ 62) as Hn0.
  { unfold n0. destruct (Z.ltb_spec 0 (MaxSize cfg)); lia. }
  destruct (MathUtil.NextPowerOf2_spec n0 Hn0) as (Hp & _ & Hmin).
  pose proof (MathUtil.NextPowerOf2_pos n0 Hn0). cbn zeta. split; [done|]. split; [done|]. intros Hpos.
  destruct (maxPow2_loop_spec 9 (Z.min (MaxSize cfg) 256) 1) as ((a & Ha & Ea) & Hle & _).
  { apply MathUtil.pow2_1. }
  { lia. }
  { change (2 ^ Z.of_nat 9) with 512. lia. }
  assert (MathUtil.NextPowerOf2 n0 ≤ 2 ^ a); [|lia]. apply Hmin; [done|]. unfold n0.
  destruct (Z.ltb_spec 0 (MaxSize cfg)); [|lia]. lia.
Qed.

Lemma newShard_spec clk cfg cap (m m' : mem) (s : shard) :
  (cap ≤ 2 ^ 58) → newShard clk cfg cap m = (m', s) → pool m = [] →
  shard_inv (Policy cfg) 1 m' s [] ∧ pool m' = [] ∧
  (∀ x, x ∈ nodes s [] → cells m !! x = None ∧ is_Some (cells m' !! x)) ∧
  (∀ y, is_Some (cells m !! y) → cells m' !! y = cells m !! y).
Proof.
  intros Hcap. unfold newShard. destruct (initLRU (cells m)) as [[h hd] tl] eqn:Ei.
  destruct (initLRU_spec _ _ _ _ Ei) as (Hhd & Htl & Hlru & Hfr). intros [= <- <-] Hpool.
  assert (∀ y, is_Some (cells m !! y) → h !! y = cells m !! y) as Hsame.
  { intros y [it Hy]. apply Hfr; congruence. }
  set (s0 := Shard _ _ _ _ _ _ _ _ _ _ _).
  set (s1 := if bool_decide (Policy cfg = LFU) then with_lfu (Some newLFUList) s0 else s0).
  set (s2 := if bool_decide (Policy cfg = AdmissionLFU) && (0 <? cap) then _ else s1).
  assert (data s2 = ∅ ∧ head s2 = hd ∧ tail s2 = tl ∧ size s2 = 0 ∧ lfuIdx s2 = lfuIdx s1) as (Ed & Eh & Et & Es & El).
  { unfold s2, s1. by destruct (bool_decide (Policy cfg = AdmissionLFU) && (0 <? cap)),
      (bool_decide (Policy cfg = LFU)). }
  assert (from_option Admission.aaf_wf True (admission s2)) as Ha.
  { unfold s2. destruct (bool_decide (Policy cfg = AdmissionLFU)), (Z.ltb_spec 0 cap); cbn [andb];
      try (unfold s1; by case_bool_decide).
    cbn. apply Admission.reachable_wf, Admission.reach_new.
    rewrite i64_id, u64_id by (unfold is_u64, is_i64; lia). lia. }
  assert (∀ x, x ∈ nodes s2 [] → x = hd ∨ x = tl) as Hn.
  { unfold nodes. rewrite Eh, Et. cbn. intros x. rewrite !elem_of_cons, elem_of_nil. tauto. }
  split; [split; cbn [cells pool]|split; [done|split]].
  - by rewrite Eh, Et.
  - intros k x. rewrite Ed, lookup_empty. split; [done|]. by intros [Hx%elem_of_nil _].
  - by intros x Hx%elem_of_nil.
  - done.
  - unfold lfu_ok. rewrite El. unfold s1. case_bool_decide; cbn [lfuIdx with_lfu s0]; [|done].
    split; [done|]. exists ∅. split; [apply newLFUList_spec|]. split.
    + intros x. rewrite lookup_empty. split; [by intros Hx%elem_of_nil|by intros [? ?]].
    + intros x f. by rewrite lookup_empty.
  - done.
  - rewrite Hpool, app_nil_r. unfold nodes. rewrite Eh, Et. apply Hlru.
  - rewrite Hpool. by intros x Hx%elem_of_nil.
  - intros x Hx. cbn. split; [by destruct (Hn x Hx) as [->| ->]|]. apply Hlru.
    unfold nodes in Hx. by rewrite Eh, Et in Hx.
  - intros y Hy. cbn. by apply Hsame.
Qed.

Lemma newShards_spec n clk cfg cap (m m' : mem) (ss : list shard) :
  (cap ≤ 2 ^ 58) → newShards n clk cfg cap m = (m', ss) → pool m = [] →
  length ss = n ∧ pool m' = [] ∧ (∀ y, is_Some (cells m !! y) → cells m' !! y = cells m !! y) ∧
  (∀ i s, ss !! i = Some s → shard_inv (Policy cfg) 1 m' s [] ∧ ∀ x, x ∈ nodes s [] → cells m !! x = None) ∧
  (∀ i j si sj, i ≠ j → ss !! i = Some si → ss !! j = Some sj → ∀ x, x ∈ nodes si [] → x ∉ nodes sj []).
Proof.
  intros Hcap. revert m m' ss. induction n as [|n IH]; intros m m' ss; cbn [newShards].
  { intros [= <- <-] Hp. split_and!; try done. }
  destruct (newShard clk cfg cap m) as [m1 s] eqn:E1. destruct (newShards n clk cfg cap m1) as [m2 ss1] eqn:E2.
  intros [= <- <-] Hp. destruct (newShard_spec _ _ _ _ _ _ Hcap E1 Hp) as (Hi & Hp1 & Hfresh & Hsame).
  destruct (IH _ _ _ E2 Hp1) as (Hl & Hp2 & Hsame2 & Hss & Hdis).
  assert (∀ y, y ∈ nodes s [] → cells m2 !! y = cells m1 !! y) as Hs2.
  { intros y Hy. apply Hsame2. by apply Hfresh. }
  assert (∀ i si x, ss1 !! i = Some si → x ∈ nodes si [] → x ∉ nodes s []) as Hout.
  { intros i si x Hsi Hx Hxs. destruct (Hss i si Hsi) as [_ Hn]. specialize (Hn x Hx).
    destruct (Hfresh x Hxs) as [_ [it Hit]]. congruence. }
  split_and!.
  - cbn. by rewrite Hl.
  - done.
  - intros y Hy. rewrite Hsame2; [by apply Hsame|]. by rewrite Hsame.
  - intros [|i] si; cbn.
    + intros [= <-]. split; [|intros x Hx; by apply Hfresh]. eapply inv_frame, Hi; [done|..]; rewrite Hp2.
      * pose proof (si_sep _ _ _ _ _ Hi) as Hnd. by rewrite Hp1 in Hnd.
      * by intros y Hy%elem_of_nil.
    + intros Hsi. destruct (Hss i si Hsi) as [Hii Hn]. split; [done|]. intros x Hx.
      specialize (Hn x Hx). destruct (cells m !! x) eqn:Ex; [|done]. rewrite Hsame in Hn by (rewrite Ex; eauto). congruence.
  - intros [|i] [|j] si sj Hne; cbn; [done|..].
    + intros [= <-] Hsj x Hx Hx'. by eapply Hout.
    + intros Hsi [= <-] x Hx Hx'. by eapply Hout.
    + apply Hdis. congruence.
Qed.

Lemma New_refines numCPU clk cfg :
  valid_config numCPU cfg → refines 1 (New numCPU clk cfg) (λ _, []).
Proof.
  intros Hv. destruct (chooseShardCount_spec _ _ Hv) as (Hp & Hpos & Hms). unfold New.
  set (n := chooseShardCount numCPU cfg) in *.
  set (cap := if 0 <? MaxSize cfg then MaxSize cfg / n else 0).
  assert (cap ≤ 2 ^ 58) as Hcap.
  { destruct Hv as (_ & _ & Hv). unfold cap. destruct (Z.ltb_spec 0 (MaxSize cfg)); [|lia].
    apply Z.div_le_upper_bound; nia. }
  destruct (newShards (Z.to_nat n) clk cfg cap (Mem ∅ [])) as [m ss] eqn:E.
  destruct (newShards_spec _ _ _ _ _ _ _ Hcap E eq_refl) as (Hl & Hpl & _ & Hss & Hdis).
  exists (λ _, []). split; [|by intros i Hi].
  split; cbn [shards store shardMask config perShardCap].
  - rewrite Hl. lia.
  - by replace (n - 1 + 1) with n by lia.
  - intros i s Hs. destruct (Hss i s Hs). split; [done|]. intros Hc. cbn. lia.
  - intros i s e _ He. by apply elem_of_nil in He.
  - intros i j si sj. apply Hdis.
Qed.
End CacheInv.
