(* ===== verification/CacheSpec.v ===== *)
(** * What the cache promises its users

    The theorems about whole operations, stated on the code of [Cache.v]: from the state
    [New] builds, through any sequence of calls. *)
From Stdlib Require Import ZArith Lia.
From stdpp Require Import base numbers gmap list sets.
From S2P Require Import Prelude MathUtil Hash Admission Dll Lru Lfu Shard Eviction Cache Sections CacheInv.
Local Open Scope Z_scope.

Section CacheSpec.
Context {K V : Type} `{EqDecision K, !Countable K, !Hasher K} {zeroV : Inhabited V}.
Abbreviation cache := (InMemoryCache K V).
Abbreviation entries := (list (@entry K V)).
Implicit Types c : cache.
Implicit Types k : K.

(** ** Reading the abstract state off the code's state *)

(** The entry stored under a key, without side effects. *)
Definition peek (c : cache) (k : K) : option entry :=
  s ← shards c !! getShard c k; x ← data s !! k; entry_of (rd (store c) x).

Lemma peek_refines B c A k : refines B c A → peek c k = find_key k (A (getShard c k)).
Proof.
  intros (Ls & Hw & HA). destruct (getShard_Some _ _ _ k Hw) as [s Hs].
  unfold peek. rewrite Hs. cbn. destruct (cw_shard _ _ _ Hw _ _ Hs) as [Hi _].
  rewrite HA by by eapply lookup_lt_Some. by rewrite (find_key_view _ _ _ _ _ _ Hi).
Qed.

Lemma refines_in_range B c A k : refines B c A → (getShard c k < length (shards c))%nat.
Proof. intros (Ls & Hw & _). destruct (getShard_Some _ _ _ k Hw) as [s Hs]. by eapply lookup_lt_Some. Qed.

(** One entry per key. *)
Lemma view_nodup pol B (m : mem K V) (s : shard K) L : shard_inv pol B m s L → NoDup (e_key <$> view m L : list K).
Proof.
  intros Hi. assert (∀ L', NoDup L' → (∀ y, y ∈ L' → y ∈ L) → NoDup (e_key <$> view m L' : list K)) as HL.
  2: { apply HL; [by eapply inv_nodup|done]. }
  induction L' as [|x L' IH]; intros Hnd Hin; [constructor|]. apply NoDup_cons in Hnd as [Hx Hnd].
  destruct (elem_of_view_key _ _ _ _ _ x Hi) as (e & He & _ & Hd & _); [apply Hin; left|].
  unfold view in *. cbn. rewrite He. cbn. apply NoDup_cons. split.
  - intros (e' & Hk & He')%list_elem_of_fmap. apply (elem_of_view m L') in He' as (y & Hy & Hye).
    destruct (elem_of_view_key _ _ _ _ _ y Hi) as (e2 & He2 & _ & Hd2 & _); [apply Hin; by right|].
    simplify_eq. rewrite Hk in Hd. assert (x = y) as -> by congruence. done.
  - apply IH; [done|]. intros y Hy. apply Hin. by right.
Qed.

Lemma refines_nodup B c A i : refines B c A → (i < length (shards c))%nat → NoDup (e_key <$> A i).
Proof.
  intros (Ls & Hw & HA) Hi. rewrite HA by done. destruct (lookup_lt_is_Some_2 _ _ Hi) as [s Hs].
  destruct (cw_shard _ _ _ Hw _ _ Hs) as [Hinv _]. by eapply view_nodup.
Qed.

(** Dropping the key of the last entry drops the last entry. *)
Lemma without_last (es : entries) e :
  NoDup (e_key <$> es) → last es = Some e → without (e_key e) es = removelast es.
Proof.
  intros Hnd (es' & ->)%last_Some. rewrite removelast_last. unfold without. rewrite filter_app.
  rewrite fmap_app in Hnd. apply NoDup_app in Hnd as (_ & Hdis & _).
  rewrite filter_cons_False by tauto. rewrite filter_nil, app_nil_r. apply filter_all.
  intros e' He' Hk. apply (Hdis (e_key e')); [by apply list_elem_of_fmap_2|]. rewrite Hk. left.
Qed.

(** ** Calls and traces *)
Inductive call :=
  | CSet (k : K) (v : V) (ttl : Z) (rt : runtime)
  | CGet (k : K) (now now' : Z)
  | CDelete (k : K)
  | CExists (k : K) (now : Z)
  | CClear (o : rangeOrder)
  | CCleanup (now : Z) (o : rangeOrder)
  | CTrigger (now : Z) (o : rangeOrder)
  | CWorker (ev : worker_event) (now : Z) (o : rangeOrder)
  | CImport (now : Z) (o : nat → rangeOrder) (it : @ExportItem K V) (choice : option nat)
  | CClose (o : rangeOrder).

Definition exec (c : cache) (op : call) : cache :=
  match op with
  | CSet k v ttl rt => (Set_ c k v ttl rt).1
  | CGet k now now' => (Get c k now now').1
  | CDelete k => (Delete c k).1
  | CExists k now => (Exists c k now).1
  | CClear o => Clear c o
  | CCleanup now o => cleanup_all c now o
  | CTrigger now o => TriggerCleanup c now o
  | CWorker ev now o => (cleanupWorker c ev now o).1
  | CImport now o it choice => Import c now o [(it, choice)]
  | CClose o => Close c o
  end.

(** The clock does not run backwards inside one call. *)
Definition call_ok (op : call) : Prop :=
  match op with CGet _ now now' => now ≤ now' | _ => True end.

(** What a call does to the abstract state. *)
Definition at_key (c : cache) (k : K) (P : entries → entries → Prop) (A A' : nat → entries) : Prop :=
  P (A (getShard c k)) (A' (getShard c k)) ∧ only_shard c (getShard c k) A A'.
Definition everywhere (c : cache) (P : entries → entries → Prop) (A A' : nat → entries) : Prop :=
  ∀ i, (i < length (shards c))%nat → P (A i) (A' i).

Definition a_cleanup (pol : EvictionPolicy) (now : Z) (es es' : entries) : Prop :=
  es' = entry_aged pol <$> filter (λ e, ¬ entry_expired now e) es.

Definition a_exists (k : K) (now : Z) (es es' : entries) : Prop :=
  match find_key k es with
  | Some e => es' = if decide (entry_expired now e) then without k es else es
  | None => es' = es
  end.

Definition a_step (c : cache) (op : call) : (nat → entries) → (nat → entries) → Prop :=
  let pol := Policy (config c) in
  let cap := perShardCap c in
  let unchanged := everywhere c (λ es es', es' = es) in
  match op with
  | CImport now o it _ => at_key c (Key it) (a_import pol cap (Key it) (Val it) now (ExpireAbs it))
  | CClose _ => if closeCh c || closed c then unchanged else everywhere c (λ _ es', es' = [])
  | _ =>
      if closed c then unchanged
      else
        match op with
        | CSet k v ttl rt => at_key c k (a_set pol cap k v (rt_now rt) (expiry (config c) (rt_now rt) ttl))
        | CGet k now _ => at_key c k (λ es es', es' = (a_get pol k now es).1)
        | CDelete k => at_key c k (λ es es', es' = without k es)
        | CExists k now => at_key c k (a_exists k now)
        | CClear _ => everywhere c (λ _ es', es' = [])
        | CCleanup now _ => everywhere c (a_cleanup pol now)
        | CTrigger now _ =>
            if CleanupInterval (config c) <=? 0 then everywhere c (a_cleanup pol now) else unchanged
        | CWorker ev now _ =>
            match ev with CloseSignal => unchanged | _ => everywhere c (a_cleanup pol now) end
        | CImport _ _ _ _ | CClose _ => unchanged
        end
  end.

Lemma refines_flags B c A a b d : refines B c A → refines B (with_flags a b d c) A.
Proof. intros (Ls & [W1 W2 W3 W4 W5] & HA). exists Ls. split; [by split|done]. Qed.

Lemma cleanup_step B c A now o :
  refines B c A → closed c = false →
  ∃ A', refines B (cleanup_all c now o) A' ∧ everywhere c (a_cleanup (Policy (config c)) now) A A'.
Proof. intros Hr Hcl. destruct (cleanup_refines B c A now o Hr Hcl) as (A' & ? & _ & ?). by exists A'. Qed.

Lemma exec_open B c A op :
  refines B c A → 1 ≤ B < 2 ^ 63 - 2 → call_ok op → closed c = false →
  ∃ A', refines (B + 2) (exec c op) A' ∧ a_step c op A A'.
Proof.
  intros Hr HB Hok Hcl.
  destruct op as [k v ttl rt|k now now'|k|k now|o|now o|now o|ev now o|now o it ch|o];
    unfold exec, a_step; rewrite ?Hcl.
  - destruct (Set_ c k v ttl rt) as [c' err] eqn:E.
    destruct (Set_refines _ _ _ _ _ _ _ _ _ Hr ltac:(lia) Hcl E) as (_ & A' & Hr' & Ho & _ & HP).
    exists A'. split; [eapply refines_weaken; [done|lia]|done].
  - unfold Get. destruct (get c k now now') as [c' r] eqn:E.
    destruct (get_refines B c A k now now' c' r Hr ltac:(lia) Hcl Hok E) as (A' & Hr' & Ho & _ & HP & _).
    exists A'. split; [|done]. by destruct r.
  - destruct (Delete c k) as [c' b] eqn:E.
    destruct (Delete_refines _ _ _ _ _ _ Hr Hcl E) as (_ & A' & Hr' & Ho & _ & HP).
    exists A'. split; [eapply refines_weaken; [done|lia]|done].
  - destruct (Exists c k now) as [c' b] eqn:E.
    destruct (Exists_refines _ _ _ _ _ _ _ Hr Hcl E) as (A' & Hr' & Ho & _ & HP).
    exists A'. split; [eapply refines_weaken; [done|lia]|]. split; [|done]. unfold a_exists.
    destruct (find_key k _); [|by destruct HP]. by destruct (decide _), HP.
  - destruct (Clear_refines B c A o Hr Hcl) as (A' & Hr' & _ & HP).
    exists A'. split; [eapply refines_weaken; [done|lia]|done].
  - destruct (cleanup_step B c A now o Hr Hcl) as (A' & Hr' & HP).
    exists A'. split; [eapply refines_weaken; [done|lia]|done].
  - unfold TriggerCleanup. rewrite Hcl. destruct (_ <=? 0).
    + destruct (cleanup_step B c A now o Hr Hcl) as (A' & Hr' & HP).
      exists A'. split; [eapply refines_weaken; [done|lia]|done].
    + exists A. split; [|by intros i Hi]. eapply refines_weaken; [by apply refines_flags|lia].
  - destruct ev; cbn [cleanupWorker fst].
    + destruct (cleanup_step B c A now o Hr Hcl) as (A' & Hr' & HP).
      exists A'. split; [eapply refines_weaken; [done|lia]|done].
    + destruct (cleanup_step B (with_flags false (closeCh c) (closed c) c) A now o) as (A' & Hr' & HP);
        [by apply refines_flags|done|].
      exists A'. split; [eapply refines_weaken; [done|lia]|done].
    + exists A. split; [eapply refines_weaken; [done|lia]|by intros i Hi].
  - destruct (Import_step B c A now o it ch Hr ltac:(lia)) as (A' & Hr' & Ho & _ & HP).
    exists A'. split; [eapply refines_weaken; [done|lia]|done].
  - unfold Close. rewrite orb_false_r. destruct (closeCh c).
    + exists A. split; [eapply refines_weaken; [done|lia]|by intros i Hi].
    + destruct (Clear_refines B (with_flags (cleanupCh c) true (closed c) c) A o) as (A' & Hr' & _ & HP);
        [by apply refines_flags|done|].
      exists A'. split; [|done]. eapply refines_weaken; [by apply refines_flags|lia].
Qed.

Lemma exec_closed B c A op :
  refines B c A → 1 ≤ B < 2 ^ 63 - 2 → closed c = true →
  ∃ A', refines (B + 2) (exec c op) A' ∧ a_step c op A A'.
Proof.
  intros Hr HB Hcl.
  assert (refines (B + 2) c A) as Hr2 by (eapply refines_weaken; [done|lia]).
  destruct op as [k v ttl rt|k now now'|k|k now|o|now o|now o|ev now o|now o it ch|o];
    unfold exec, a_step; rewrite ?Hcl; try (exists A; split; [|by intros i Hi]).
  - unfold Set_. by rewrite Hcl.
  - unfold Get, get. by rewrite Hcl.
  - unfold Delete. by rewrite Hcl.
  - unfold Exists. by rewrite Hcl.
  - unfold Clear. by rewrite Hcl.
  - unfold cleanup_all. by rewrite Hcl.
  - unfold TriggerCleanup. by rewrite Hcl.
  - destruct ev; cbn [cleanupWorker fst]; unfold cleanup_all; cbn [closed with_flags]; rewrite ?Hcl; try done.
    by apply refines_flags.
  - destruct (Import_step B c A now o it ch Hr ltac:(lia)) as (A' & Hr' & Ho & _ & HP).
    exists A'. split; [eapply refines_weaken; [done|lia]|done].
  - rewrite orb_true_r. exists A. split; [|by intros i Hi]. unfold Close. destruct (closeCh c); [done|].
    unfold Clear. cbn [closed with_flags]. rewrite Hcl. by do 2 apply refines_flags.
Qed.

Lemma exec_refines B c A op :
  refines B c A → 1 ≤ B < 2 ^ 63 - 2 → call_ok op →
  ∃ A', refines (B + 2) (exec c op) A' ∧ a_step c op A A'.
Proof. destruct (closed c) eqn:E; [intros; by apply exec_closed|intros; by apply exec_open]. Qed.

Definition run (c : cache) (ops : list call) : cache := foldl exec c ops.

Lemma run_refines ops B c A :
  refines B c A → 1 ≤ B → B + 2 * Z.of_nat (length ops) < 2 ^ 63 - 2 → Forall call_ok ops →
  ∃ A', refines (B + 2 * Z.of_nat (length ops)) (run c ops) A'.
Proof.
  revert B c A. induction ops as [|op ops IH]; intros B c A Hr HB Hlt Hok; cbn [run foldl length].
  { exists A. by rewrite Z.add_0_r. }
  apply Forall_cons in Hok as [Hop Hok]. cbn [length] in Hlt. rewrite Nat2Z.inj_succ in *.
  destruct (exec_refines B c A op Hr ltac:(lia) Hop) as (A1 & Hr1 & _).
  destruct (IH (B + 2) (exec c op) A1 Hr1) as (A' & Hr'); [lia|lia|done|].
  exists A'. by replace (B + 2 * Z.succ (Z.of_nat (length ops))) with (B + 2 + 2 * Z.of_nat (length ops)) by lia.
Qed.

Lemma reachable_refines numCPU clk cfg ops :
  valid_config numCPU cfg → Forall call_ok ops → Z.of_nat (length ops) < 2 ^ 61 →
  ∃ A, refines (1 + 2 * Z.of_nat (length ops)) (run (New numCPU clk cfg) ops) A.
Proof.
  intros Hv Hok Hlen. apply (run_refines ops 1 _ (λ _, [])); [by apply New_refines|lia|lia|done].
Qed.

(** ** Configuration is fixed *)
Lemma locked_frame {R} c i (d : R) f : same_frame c (locked c i d f).1.
Proof.
  unfold locked. destruct (shards c !! i); [|apply same_frame_refl].
  destruct (f (store c) _) as [[m' s'] r]. split; [done|]. cbn. by rewrite length_insert.
Qed.
Lemma each_shard_frame c f : same_frame c (each_shard f c).
Proof.
  unfold each_shard. generalize (seq 0 (length (shards c))). intros l. revert c.
  induction l as [|i l IH]; intros c; cbn [foldl]; [apply same_frame_refl|].
  eapply same_frame_trans; [apply (locked_frame c i tt f)|apply IH].
Qed.

(** Configuration, capacity and number of shards. *)
Definition same_config (c c' : cache) : Prop :=
  config c' = config c ∧ perShardCap c' = perShardCap c ∧ shardMask c' = shardMask c ∧
  length (shards c') = length (shards c).
Lemma same_frame_config c c' : same_frame c c' → same_config c c'.
Proof. intros [E L]. unfold same_config. rewrite L. by rewrite E. Qed.
Lemma same_config_trans c1 c2 c3 : same_config c1 c2 → same_config c2 c3 → same_config c1 c3.
Proof. unfold same_config. intros (?&?&?&?) (?&?&?&?). split_and!; congruence. Qed.

Lemma get_frame c k now now' : same_frame c (get c k now now').1.
Proof.
  unfold get. destruct (closed c); [apply same_frame_refl|].
  pose proof (locked_frame c (getShard c k) Miss
    (get_section (Policy (config c)) (StatsEnabled (config c)) (needsWrite (Policy (config c))) k now)) as H1.
  destruct (locked c _ Miss _) as [c1 r]. cbn in H1. destruct r; try done.
  eapply same_frame_trans; [done|]. apply (locked_frame c1 _ Miss).
Qed.

Lemma exec_config c op : same_config c (exec c op).
Proof.
  assert (∀ o c, same_config c (Clear c o)) as Hclear.
  { intros o c0. apply same_frame_config. unfold Clear. destruct (closed c0); [apply same_frame_refl|apply each_shard_frame]. }
  assert (∀ now o c, same_config c (cleanup_all c now o)) as Hcleanup.
  { intros now o c0. apply same_frame_config. unfold cleanup_all.
    destruct (closed c0); [apply same_frame_refl|apply each_shard_frame]. }
  destruct op as [k v ttl rt|k now now'|k|k now|o|now o|now o|ev now o|now o it ch|o]; cbn [exec].
  - apply same_frame_config. unfold Set_. destruct (closed c); [apply same_frame_refl|].
    pose proof (locked_frame c (shardByHash c (khash k)) tt (set_section (config c) (perShardCap c) rt k v
      (expiry (config c) (rt_now rt) ttl))) as H. by destruct (locked c _ tt _).
  - apply same_frame_config. unfold Get. pose proof (get_frame c k now now') as H.
    destruct (get c k now now') as [c1 r]. by destruct r.
  - apply same_frame_config. unfold Delete. destruct (closed c); [apply same_frame_refl|apply locked_frame].
  - apply same_frame_config. unfold Exists. destruct (closed c); [apply same_frame_refl|apply locked_frame].
  - apply Hclear.
  - apply Hcleanup.
  - unfold TriggerCleanup. destruct (closed c); [by destruct c|]. destruct (_ <=? 0); [apply Hcleanup|by destruct c].
  - destruct ev; cbn [cleanupWorker fst]; [apply Hcleanup| |by destruct c].
    eapply same_config_trans; [|apply Hcleanup]. done.
  - apply same_frame_config. apply locked_frame.
  - unfold Close. destruct (closeCh c); [by destruct c|].
    eapply (same_config_trans _ (with_flags (cleanupCh c) true (closed c) c)); [done|].
    eapply same_config_trans; [apply Hclear|done].
Qed.

Lemma run_config c ops : same_config c (run c ops).
Proof.
  revert c. induction ops as [|op ops IH]; intros c; [by destruct c|].
  eapply same_config_trans; [apply exec_config|apply IH].
Qed.

(** ** The abstraction function

    The entries of a shard in list order, by walking the [next] pointers from the head
    sentinel to the tail sentinel. *)
Fixpoint walk (fuel : nat) (h : gmap loc (cacheItem K V)) (tl x : loc) : list loc :=
  match fuel with
  | O => []
  | S fuel =>
      match get_next h x with
      | Some y => if bool_decide (y = tl) then [] else y :: walk fuel h tl y
      | None => []
      end
  end.

Definition dump (c : cache) (i : nat) : entries :=
  match shards c !! i with
  | Some s => view (store c) (walk (S (base.size (data s))) (cells (store c)) (tail s) (head s))
  | None => []
  end.

Lemma walk_chain fuel h tl x L :
  chain h (x :: L ++ [tl]) → tl ∉ L → (length L < fuel)%nat → walk fuel h tl x = L.
Proof.
  revert x L. induction fuel as [|fuel IH]; intros x L Hc Hn Hlt; [lia|]. cbn [walk].
  destruct L as [|y L].
  - destruct Hc as [[-> _] _]. by rewrite bool_decide_eq_true_2.
  - destruct Hc as [[-> _] Hc]. rewrite bool_decide_eq_false_2 by set_solver.
    f_equal. apply IH; [done|set_solver|cbn in Hlt; lia].
Qed.

Lemma dump_wf B c Ls i : cache_wf B c Ls → (i < length (shards c))%nat → dump c i = view (store c) (Ls i).
Proof.
  intros Hw Hi. destruct (lookup_lt_is_Some_2 _ _ Hi) as [s Hs]. unfold dump. rewrite Hs.
  destruct (cw_shard _ _ _ Hw _ _ Hs) as [Hinv _]. f_equal.
  destruct (si_lru _ _ _ _ _ Hinv) as (Hc & Hnd & _). apply walk_chain; [done| |].
  - apply NoDup_cons in Hnd as [_ Hnd]. apply NoDup_app in Hnd as (_ & Hnd & _).
    intros Hin. apply (Hnd _ Hin). left.
  - destruct (data_Permutation _ _ inOrder _ _ _ Hinv) as [_ ->]. lia.
Qed.

Lemma refines_dump B c A : refines B c A → ∀ i, (i < length (shards c))%nat → A i = dump c i.
Proof. intros (Ls & Hw & HA) i Hi. by rewrite HA, (dump_wf _ _ _ _ Hw). Qed.

Lemma refines_self B c A : refines B c A → refines B c (dump c).
Proof. intros (Ls & Hw & HA). exists Ls. split; [done|]. intros i Hi. by eapply dump_wf. Qed.

(** A state some sequence of calls on a new cache leads to. *)
Definition reachable (c : cache) : Prop :=
  ∃ numCPU clk cfg ops, valid_config numCPU cfg ∧ Forall call_ok ops ∧
    Z.of_nat (length ops) < 2 ^ 61 ∧ c = run (New numCPU clk cfg) ops.

Lemma reachable_dump c : reachable c → ∃ B, 1 ≤ B < 2 ^ 62 ∧ refines B c (dump c).
Proof.
  intros (n & clk & cfg & ops & Hv & Hok & Hlen & ->).
  destruct (reachable_refines n clk cfg ops Hv Hok Hlen) as [A HA].
  exists (1 + 2 * Z.of_nat (length ops)). split; [lia|]. by eapply refines_self.
Qed.

Lemma peek_dump c k : reachable c → peek c k = find_key k (dump c (getShard c k)).
Proof. intros (B & _ & Hr)%reachable_dump. by eapply peek_refines. Qed.

(** The state after a call, again through [dump]. *)
Lemma exec_dump c op :
  reachable c → call_ok op → ∃ B, 1 ≤ B < 2 ^ 63 - 2 ∧ refines B (exec c op) (dump (exec c op)) ∧
    a_step c op (dump c) (dump (exec c op)).
Proof.
  intros (B & HB & Hr)%reachable_dump Hok. destruct (exec_refines B c _ op Hr ltac:(lia) Hok) as (A' & Hr' & HP).
  exists (B + 2). split; [lia|]. split; [by eapply refines_self|].
  pose proof (refines_dump _ _ _ Hr') as HA. destruct (exec_config c op) as (_ & _ & _ & Hl). rewrite Hl in HA.
  destruct (Hr) as (Ls & Hw & _).
  assert (∀ P k, at_key c k P (dump c) A' → at_key c k P (dump c) (dump (exec c op))) as Hat.
  { intros P k [H1 H2]. destruct (getShard_Some _ _ _ k Hw) as [s Hs]. apply lookup_lt_Some in Hs.
    split; [by rewrite <-HA|]. intros j Hj Hne. rewrite <-HA by done. by apply H2. }
  assert (∀ P, everywhere c P (dump c) A' → everywhere c P (dump c) (dump (exec c op))) as Hev.
  { intros P H i Hi. rewrite <-HA by done. by apply H. }
  revert HP. unfold a_step.
  destruct op; destruct (closed c); try apply Hat; try apply Hev; repeat case_match; try apply Hev.
Qed.
End CacheSpec.
