(* ===== verification/CacheTheorems.v ===== *)
(** * Correctness of the cache

    The properties a user of [InMemoryCache] relies on, for every state that calls on a new
    cache can reach ([reachable]); each is followed by an instance on a concrete cache. *)
From Stdlib Require Import ZArith Lia.
From stdpp Require Import base numbers gmap list sets.
From S2P Require Import Prelude MathUtil Hash Admission Dll Lru Lfu Shard Eviction Cache Sections CacheInv CacheSpec.
Local Open Scope Z_scope.

Section CacheTheorems.
Context {K V : Type} `{EqDecision K, !Countable K, !Hasher K} {zeroV : Inhabited V}.
Abbreviation cache := (InMemoryCache K V).
Abbreviation entries := (list (@entry K V)).
Implicit Types c : cache.
Implicit Types k : K.

(** ** Lemmas on abstract states *)
Lemma find_key_cons k e (es : entries) :
  find_key k (e :: es) = if decide (e_key e = k) then Some e else find_key k es.
Proof. unfold find_key. rewrite filter_cons. by case_decide. Qed.

Lemma find_key_without k k' (es : entries) :
  find_key k (without k' es) = if decide (k = k') then None else find_key k es.
Proof.
  unfold find_key, without. rewrite list_filter_filter. case_decide as Hk.
  - subst. assert (filter (λ e, e_key e = k' ∧ e_key e ≠ k') es = []) as ->; [|done].
    induction es as [|e es IH]; [done|]. rewrite filter_cons_False by tauto. done.
  - by rewrite (filter_ext_in _ (λ e, e_key e = k)) by (intros; naive_solver).
Qed.

Lemma find_key_map k k' g (es : entries) :
  (∀ e, e_key e = k' → e_key (g e) = k') →
  find_key k (map_key k' g es) = if decide (k = k') then g <$> find_key k es else find_key k es.
Proof.
  intros Hg. induction es as [|e es IH]; [by case_decide|].
  unfold map_key in *. cbn [fmap list_fmap]. rewrite !find_key_cons, IH.
  destruct (decide (e_key e = k')) as [He|He].
  - rewrite Hg by done. repeat case_decide; naive_solver congruence.
  - repeat case_decide; naive_solver congruence.
Qed.

Lemma find_key_update pol k k' v now ex (es : entries) :
  find_key k (a_update pol k' v now ex es) =
    if decide (k = k')
    then (λ e, Entry k v ex now (match pol with LFU | AdmissionLFU => 1 | _ => e_freq e end)) <$> find_key k es
    else find_key k es.
Proof.
  destruct pol; cbn [a_update]; try (rewrite find_key_map by done; case_decide; by subst).
  destruct (find_key k' es) as [e|] eqn:Ee.
  - rewrite find_key_cons, find_key_without. cbn [e_key]. repeat case_decide; subst; try congruence; try done.
    by rewrite Ee.
  - case_decide; subst; [by rewrite Ee|done].
Qed.

Lemma find_key_touch pol k k' now (es : entries) :
  fmap e_value (find_key k (a_touch pol k' now es)) = fmap e_value (find_key k es) ∧
  fmap e_expire (find_key k (a_touch pol k' now es)) = fmap e_expire (find_key k es).
Proof.
  destruct pol; cbn [a_touch]; try done;
    try (rewrite find_key_map by done; case_decide; [by destruct (find_key k es)|done]).
  destruct (find_key k' es) as [e|] eqn:Ee; [|done].
  pose proof (find_key_elem _ _ _ Ee) as [_ Hk].
  rewrite find_key_cons, find_key_without. repeat case_decide; subst; try congruence; [by rewrite Ee|done].
Qed.

(** Where the abstract state of the key's shard is visible. *)
Lemma at_key_peek c c' A A' k P :
  at_key c k P A A' → same_config c c' → P (A (getShard c k)) (A' (getShard c' k)).
Proof.
  intros [HP _] (_ & _ & Em & _). unfold getShard, shardByHash in *. by rewrite Em.
Qed.

Lemma getShard_exec c op k : getShard (exec c op) k = getShard c k.
Proof. destruct (exec_config c op) as (_ & _ & Em & _). unfold getShard, shardByHash. by rewrite Em. Qed.

Lemma exec_peek c op k :
  reachable c → call_ok op → peek (exec c op) k = find_key k (dump (exec c op) (getShard c k)).
Proof.
  intros Hr Hok. destruct (exec_dump c op Hr Hok) as (B & _ & Hr' & _).
  by rewrite (peek_refines _ _ _ _ Hr'), getShard_exec.
Qed.

Lemma getShard_range c k : reachable c → (getShard c k < length (shards c))%nat.
Proof. intros (B & _ & Hr)%reachable_dump. by eapply refines_in_range. Qed.

(** What [Get] returns, in any state that refines an abstract one. *)
Lemma Get_value B c A k now now' :
  refines B c A → B < 2 ^ 63 - 2 → closed c = false → now ≤ now' →
  (Get c k now now').2 =
    match peek c k with
    | Some e => if decide (entry_expired now e) then None else Some (e_value e)
    | None => None
    end.
Proof.
  intros Hr HB Hcl Hnow. rewrite (peek_refines _ _ _ _ Hr). unfold Get.
  destruct (get c k now now') as [c' r] eqn:E.
  destruct (get_refines B c A k now now' c' r Hr HB Hcl Hnow E) as (A' & _ & _ & _ & _ & Hres).
  unfold a_get in Hres. destruct (find_key k (A (getShard c k))) as [e|].
  - destruct (decide (entry_expired now e)); cbn in Hres.
    + by subst r.
    + destruct Hres as (x & -> & <- & _). done.
  - cbn in Hres. by subst r.
Qed.

Lemma at_key_find c c' k k' P :
  reachable c → at_key c k P (dump c) (dump c') →
  (P (dump c (getShard c k)) (dump c' (getShard c k)) →
     find_key k' (dump c' (getShard c k)) = find_key k' (dump c (getShard c k))) →
  find_key k' (dump c' (getShard c k')) = find_key k' (dump c (getShard c k')).
Proof.
  intros Hr [HP Ho] Hf. destruct (decide (getShard c k' = getShard c k)) as [->|Hne]; [by apply Hf|].
  rewrite Ho; [done|by apply getShard_range|done].
Qed.

(** The entries stored after [Set], by case. *)
Lemma Set_dump c k v ttl rt :
  reachable c → closed c = false →
  (Set_ c k v ttl rt).2 = None ∧ closed (Set_ c k v ttl rt).1 = false ∧
  at_key c k (a_set (Policy (config c)) (perShardCap c) k v (rt_now rt) (expiry (config c) (rt_now rt) ttl))
    (dump c) (dump (Set_ c k v ttl rt).1).
Proof.
  intros Hr Hcl. destruct (exec_dump c (CSet k v ttl rt) Hr I) as (B & _ & _ & HP).
  cbn [exec a_step] in HP. rewrite Hcl in HP. split; [|split; [|done]].
  - unfold Set_. rewrite Hcl. by destruct (locked _ _ _ _).
  - destruct (reachable_dump c Hr) as (B' & HB' & Hr').
    destruct (Set_ c k v ttl rt) as [c' err] eqn:E.
    destruct (Set_refines _ _ _ _ _ _ _ _ _ Hr' ltac:(lia) Hcl E) as (_ & A' & _ & _ & [Ef _] & _).
    cbn. by rewrite Ef.
Qed.

(** C1.  Read your write: a value that [Set] stored is what [Get] returns until the entry
    expires, for every policy, unless the admission filter had to decide (the policy is
    AdmissionLFU, the key is new and its shard is full). *)
Theorem set_then_get c k v ttl rt now now' :
  reachable c → closed c = false → now ≤ now' →
  Policy (config c) ≠ AdmissionLFU ∨ is_Some (peek c k) ∨ ¬ full (perShardCap c) (dump c (getShard c k)) →
  ¬ (0 < expiry (config c) (rt_now rt) ttl < now) →
  (Set_ c k v ttl rt).2 = None ∧ (Get (Set_ c k v ttl rt).1 k now now').2 = Some v.
Proof.
  intros Hr Hcl Hnow Hadm Hexp. destruct (Set_dump c k v ttl rt Hr Hcl) as (He & Hcl' & [HP _]).
  split; [done|]. destruct (exec_dump c (CSet k v ttl rt) Hr I) as (B & HB & Hr' & _). cbn [exec] in Hr'.
  rewrite (Get_value B _ _ k now now' Hr') by (lia || done).
  change (Set_ c k v ttl rt).1 with (exec c (CSet k v ttl rt)) at 1. rewrite exec_peek by done. cbn [exec].
  rewrite (peek_dump c k Hr) in Hadm.
  destruct HP as [e Hf|Hf Hfull|e Hf Hfull Hv Hin|Hf Hfull Hp].
  - rewrite find_key_update, decide_True, Hf by done. cbn. by rewrite decide_False.
  - rewrite find_key_cons, decide_True by done. by rewrite decide_False.
  - rewrite find_key_cons, decide_True by done. by rewrite decide_False.
  - exfalso. rewrite Hf in Hadm. destruct Hadm as [?|[[? ?]|?]]; done.
Qed.

(** [Set] leaves every other key alone, except that it may evict one: there is at most
    one victim, and only if the shard of the key was full. *)
Theorem set_evicts_at_most_one c k v ttl rt :
  reachable c → closed c = false →
  ∃ victim : option K,
    (is_Some victim → full (perShardCap c) (dump c (getShard c k)) ∧ peek c k = None) ∧
    ∀ k', k' ≠ k → victim ≠ Some k' → peek (Set_ c k v ttl rt).1 k' = peek c k'.
Proof.
  intros Hr Hcl. destruct (Set_dump c k v ttl rt Hr Hcl) as (_ & _ & Hat).
  assert (∀ k', peek (Set_ c k v ttl rt).1 k' = find_key k' (dump (Set_ c k v ttl rt).1 (getShard c k'))) as Hpk.
  { intros k'. by apply (exec_peek c (CSet k v ttl rt)). }
  pose proof Hat as [HP _]. inversion HP as [e Hf E|Hf Hfull E|e Hf Hfull Hv Hin E|Hf Hfull Hp E]; subst.
  - exists None. split; [by intros [? ?]|]. intros k' Hk _. rewrite Hpk, (peek_dump c k') by done.
    eapply at_key_find; [done..|]. intros _. rewrite <-E, find_key_update. by rewrite decide_False.
  - exists None. split; [by intros [? ?]|]. intros k' Hk _. rewrite Hpk, (peek_dump c k') by done.
    eapply at_key_find; [done..|]. intros _. rewrite <-E, find_key_cons. by rewrite decide_False.
  - exists (Some (e_key e)). rewrite (peek_dump c k) by done. split; [done|].
    intros k' Hk Hne. rewrite Hpk, (peek_dump c k') by done.
    eapply at_key_find; [done..|]. intros _. rewrite <-E, find_key_cons, find_key_without.
    rewrite !decide_False; [done|congruence|done].
  - exists None. split; [by intros [? ?]|]. intros k' Hk _. rewrite Hpk, (peek_dump c k') by done.
    eapply at_key_find; [done..|]. intros _. by rewrite <-E.
Qed.

(** [Get] returns exactly the live value of the key: never an expired one, never one
    of another key, and it does not change any stored value or expiry: it may only remove
    the key it looked up, and only if that key had expired. *)
Theorem get_returns_live_value c k now now' :
  reachable c → closed c = false → now ≤ now' →
  (Get c k now now').2 =
    match peek c k with
    | Some e => if decide (entry_expired now e) then None else Some (e_value e)
    | None => None
    end ∧
  ∀ k', (k' ≠ k ∨ ∀ e, peek c k = Some e → ¬ entry_expired now e) →
    (λ e, (e_value e, e_expire e)) <$> peek (Get c k now now').1 k' =
    (λ e, (e_value e, e_expire e)) <$> peek c k'.
Proof.
  intros Hr Hcl Hnow. destruct (reachable_dump c Hr) as (B & HB & Href). split.
  - apply (Get_value B c (dump c)); [done|lia|done..].
  - intros k' Hk'. destruct (exec_dump c (CGet k now now') Hr Hnow) as (B' & _ & _ & HP).
    pose proof (exec_peek c (CGet k now now') k' Hr Hnow) as Hpk. cbn [exec a_step] in HP, Hpk.
    rewrite Hcl in HP. rewrite Hpk, (peek_dump c k') by done. rewrite (peek_dump c k) in Hk' by done.
    destruct HP as [HP Ho].
    destruct (decide (getShard c k' = getShard c k)) as [E|Hne];
      [|by rewrite Ho by (done || by apply getShard_range)].
    rewrite E, HP. unfold a_get.
    destruct (find_key k (dump c (getShard c k))) as [e|] eqn:Ek; [|done].
    destruct (decide (entry_expired now e)) as [Hx|Hx]; cbn [fst].
    + destruct Hk' as [Hk'|Hk']; [|by destruct (Hk' e)]. rewrite find_key_without. by rewrite decide_False.
    + destruct (find_key_touch (Policy (config c)) k' k now (dump c (getShard c k))) as [H1 H2].
      destruct (find_key k' (a_touch _ _ _ _)), (find_key k' (dump c (getShard c k))); cbn in *; naive_solver congruence.
Qed.

(** [Delete] reports whether the key was stored, removes it, and removes nothing else:
    a later [Get] misses. *)
Theorem delete_removes_exactly c k now now' :
  reachable c → closed c = false → now ≤ now' →
  ((Delete c k).2 = true ↔ is_Some (peek c k)) ∧
  (Get (Delete c k).1 k now now').2 = None ∧
  ∀ k', k' ≠ k → peek (Delete c k).1 k' = peek c k'.
Proof.
  intros Hr Hcl Hnow. destruct (reachable_dump c Hr) as (B & HB & Href).
  destruct (Delete c k) as [c' b] eqn:E.
  destruct (Delete_refines _ _ _ _ _ _ Href Hcl E) as (Hb & A' & Hr' & Ho & Hf & HA').
  assert (closed c' = false) as Hcl' by (by rewrite (proj1 Hf)).
  pose proof (same_frame_getShard c c') as Eg. cbn [fst snd].
  split; [by rewrite (peek_dump c k)|]. split.
  - rewrite (Get_value B c' A') by (lia || done).
    rewrite (peek_refines _ _ _ _ Hr'), Eg, HA', find_key_without, decide_True by done. done.
  - intros k' Hk'. rewrite (peek_refines _ _ _ _ Hr'), Eg, (peek_dump c k') by done.
    destruct (decide (getShard c k' = getShard c k)) as [Ek|Hne].
    + rewrite Ek, HA', find_key_without. by rewrite decide_False.
    + by rewrite Ho by (done || by apply getShard_range).
Qed.

(** The cleaner removes the expired entries and no others; live entries keep their
    value, expiry and access time, and with AdmissionLFU their frequency is halved unless it
    is 1. *)
Theorem cleanup_removes_exactly_expired c now o k :
  reachable c → closed c = false →
  peek (cleanup_all c now o) k =
    match peek c k with
    | Some e => if decide (entry_expired now e) then None else Some (entry_aged (Policy (config c)) e)
    | None => None
    end.
Proof.
  intros Hr Hcl. destruct (reachable_dump c Hr) as (B & HB & Href).
  destruct (cleanup_refines B c _ now o Href Hcl) as (A' & Hr' & Hf & HA').
  rewrite (peek_refines _ _ _ _ Hr'), (same_frame_getShard c), HA', (peek_dump c k) by (done || by apply getShard_range).
  set (es := dump c (getShard c k)).
  assert (NoDup (e_key <$> es)) as Hnd by (eapply refines_nodup; [done|by apply getShard_range]).
  assert (∀ e : @entry K V, e_key (entry_aged (Policy (config c)) e) = e_key e) as Hk.
  { intros e. unfold entry_aged. by destruct (_ && _). }
  induction es as [|e es IH]; [done|]. cbn in Hnd. apply NoDup_cons in Hnd as [Hn Hnd].
  rewrite filter_cons, find_key_cons. destruct (decide (e_key e = k)) as [Hek|Hek].
  - assert (∀ l : entries, (∀ e', e' ∈ l → e' ∈ es) → find_key k (entry_aged (Policy (config c)) <$> l) = None) as Hnone.
    { intros l Hl. apply find_key_None. intros e' (e0 & -> & He0)%list_elem_of_fmap. rewrite Hk. intros Hk0.
      apply Hn, list_elem_of_fmap. exists e0. split; [congruence|auto]. }
    destruct (decide (entry_expired now e)) as [Hx|Hx].
    + rewrite decide_False by tauto. apply Hnone. by intros e' [_ ?]%list_elem_of_filter.
    + rewrite decide_True by done. cbn [fmap list_fmap]. rewrite find_key_cons, Hk. by rewrite decide_True.
  - destruct (decide (¬ entry_expired now e)).
    + cbn [fmap list_fmap]. rewrite find_key_cons, Hk, decide_False by done. by apply IH.
    + by apply IH.
Qed.

(** ** Sizes *)
Lemma elem_of_concat {A} (ls : list (list A)) a : a ∈ concat ls ↔ ∃ l, l ∈ ls ∧ a ∈ l.
Proof. induction ls as [|l ls IH]; cbn; set_solver. Qed.

Lemma NoDup_fst_filter {A C} (P : A * C → Prop) `{!∀ p, Decision (P p)} (l : list (A * C)) :
  NoDup l.*1 → NoDup (filter P l).*1.
Proof.
  induction l as [|p l IH]; intros Hnd; [done|]. cbn in Hnd. apply NoDup_cons in Hnd as [Hp Hnd].
  rewrite filter_cons. case_decide; [|by apply IH]. cbn. apply NoDup_cons. split; [|by apply IH].
  intros (q & Hq & [_ Hin]%list_elem_of_filter)%list_elem_of_fmap. apply Hp. rewrite Hq.
  by apply list_elem_of_fmap_2.
Qed.

Lemma foldl_sizes (ss : list (shard K)) t :
  Forall (λ s, 0 ≤ size s) ss → 0 ≤ t →
  ∀ bound, 0 ≤ bound < 2 ^ 63 → t + foldr (λ s acc, size s + acc) 0 ss ≤ bound →
  foldl (λ t s, i64 (t + size s)) t ss = t + foldr (λ s acc, size s + acc) 0 ss.
Proof.
  intros Hf Ht bound Hb. revert t Ht. induction Hf as [|s ss Hs Hss IH]; intros t Ht Hle; cbn in *; [lia|].
  assert (0 ≤ foldr (λ s acc, size s + acc) 0 ss) by (clear -Hss; induction Hss; cbn; lia).
  rewrite i64_id by (unfold is_i64; lia). rewrite IH by lia. lia.
Qed.

Lemma reachable_sizing c :
  reachable c → ∃ numCPU, valid_config numCPU (config c) ∧
    Z.of_nat (length (shards c)) = chooseShardCount numCPU (config c) ∧
    perShardCap c = if 0 <? MaxSize (config c)
                    then MaxSize (config c) / chooseShardCount numCPU (config c) else 0.
Proof.
  intros (n & clk & cfg & ops & Hv & Hok & Hlen & ->).
  destruct (run_config (New n clk cfg) ops) as (E1 & E2 & E3 & E4).
  assert (config (New n clk cfg : cache) = cfg ∧
    perShardCap (New n clk cfg : cache) = (if 0 <? MaxSize cfg then MaxSize cfg / chooseShardCount n cfg else 0) ∧
    Z.of_nat (length (shards (New n clk cfg : cache))) = chooseShardCount n cfg) as (F1 & F2 & F3).
  { destruct (New_refines (K := K) (V := V) n clk cfg Hv) as (Ls & Hw & _). pose proof (cw_len _ _ _ Hw) as Hl.
    unfold New in *. destruct (newShards _ clk cfg _ _) as [m ss]. cbn in *. split_and!; try done. lia. }
  exists n. rewrite E1, E2, E4, F1, F2, F3. done.
Qed.

(** C12.  The capacity limit holds at all times: with a positive [MaxSize], after any sequence
    of calls, [Size] is exactly the number of stored entries and at most [MaxSize], and
    every shard has room for at least one entry. *)
Theorem capacity_bound c :
  reachable c → 0 < MaxSize (config c) →
  Size c = foldr (λ i acc, Z.of_nat (length (dump c i)) + acc) 0 (seq 0 (length (shards c))) ∧
  0 ≤ Size c ≤ MaxSize (config c) ∧ 1 ≤ perShardCap c.
Proof.
  intros Hr Hms. destruct (reachable_sizing c Hr) as (n & Hv & Hlen & Hcap).
  destruct (chooseShardCount_spec _ _ Hv) as (_ & Hn1 & Hn2). specialize (Hn2 Hms).
  rewrite (proj2 (Z.ltb_lt 0 _) Hms) in Hcap. rewrite <-Hlen in *.
  assert (1 ≤ perShardCap c) as Hc1 by (rewrite Hcap; apply Z.div_le_lower_bound; lia).
  assert (Z.of_nat (length (shards c)) * perShardCap c ≤ MaxSize (config c)) as Htot.
  { rewrite Hcap. apply Z.mul_div_le. lia. }
  destruct (reachable_dump c Hr) as (B & _ & (Ls & Hw & HA)).
  assert (∀ i s, shards c !! i = Some s → size s = Z.of_nat (length (dump c i)) ∧ 0 ≤ size s ≤ perShardCap c) as Hsz.
  { intros i s Hs. destruct (cw_shard _ _ _ Hw _ _ Hs) as [Hi Hfit].
    rewrite HA by by eapply lookup_lt_Some. rewrite (view_length_all _ _ _ _ _ Hi).
    rewrite (fits_size _ _ _ _ _ _ Hi Hfit) by lia. specialize (Hfit ltac:(lia)). lia. }
  assert (∀ ss a, (∀ i s, ss !! i = Some s → shards c !! (a + i)%nat = Some s) →
    foldr (λ s acc, size s + acc) 0 ss = foldr (λ i acc, Z.of_nat (length (dump c i)) + acc) 0 (seq a (length ss)) ∧
    0 ≤ foldr (λ s acc, size s + acc) 0 ss ≤ Z.of_nat (length ss) * perShardCap c ∧ Forall (λ s, 0 ≤ size s) ss) as Hsum.
  { induction ss as [|s ss IH]; intros a Hss; cbn [foldr length seq]; [split; [done|]; split; [lia|by apply Forall_nil]|].
    destruct (IH (S a)) as (H1 & H2 & H3).
    { intros i s' Hs'. rewrite <-(Hss (S i) s') by done. f_equal. lia. }
    destruct (Hsz a s) as [H4 H5]. { rewrite <-(Hss 0%nat s) by done. f_equal. lia. }
    rewrite H1, <-H4. split; [done|]. rewrite <-H1. split; [|apply Forall_cons; split; [lia|done]]. nia. }
  destruct (Hsum (shards c) 0%nat) as (H1 & H2 & H3); [done|].
  assert (Size c = foldr (λ s acc, size s + acc) 0 (shards c)) as Es.
  { unfold Size. rewrite (foldl_sizes _ 0 H3) with (bound := MaxSize (config c)); try lia.
    destruct Hv as (_ & _ & Hv). lia. }
  rewrite Es, H1 at 1. split; [done|]. lia.
Qed.

(** Collecting map entries that pass a test over all shards. *)
Definition collect (P : K * loc → Prop) `{!∀ p, Decision (P p)} (o : rangeOrder) (c : cache) : list (K * loc) :=
  concat ((λ s, filter P (range o (map_to_list (data s)))) <$> shards c).

Lemma collect_refines B A P `{!∀ p, Decision (P p)} o c :
  refines B c A →
  NoDup (collect P o c).*1 ∧
  ∀ k x, (k, x) ∈ collect P o c ↔ (∃ s, shards c !! getShard c k = Some s ∧ data s !! k = Some x) ∧ P (k, x).
Proof.
  intros (Ls & Hw & HA).
  assert (∀ s k x, (k, x) ∈ filter P (range o (map_to_list (data s))) ↔ data s !! k = Some x ∧ P (k, x)) as Hsk.
  { intros s k x. rewrite list_elem_of_filter, elem_of_range, elem_of_map_to_list. tauto. }
  assert (∀ i s k x, shards c !! i = Some s → data s !! k = Some x → getShard c k = i) as Hhome.
  { intros i s k x Hs Hx. destruct (cw_shard _ _ _ Hw _ _ Hs) as [Hi _].
    apply (cw_home _ _ _ Hw i s (Entry k (value (rd (store c) x)) (expireTime (rd (store c) x))
      (lastAccess (rd (store c) x)) (frequency (rd (store c) x))) Hs).
    apply elem_of_view. exists x. split; [by eapply inv_in|by eapply rd_entry]. }
  unfold collect. split.
  - assert (∀ ss a, (∀ i s, ss !! i = Some s → shards c !! (a + i)%nat = Some s) →
      NoDup (concat ((λ s, filter P (range o (map_to_list (data s)))) <$> ss)).*1) as HI; [|by apply (HI _ 0%nat)].
    induction ss as [|s ss IH]; intros a Hss; cbn; [constructor|].
    assert (shards c !! a = Some s) as Hs by (rewrite <-(Hss 0%nat s) by done; f_equal; lia).
    rewrite fmap_app. apply NoDup_app. split_and!.
    + apply NoDup_fst_filter. rewrite range_perm. apply NoDup_fst_map_to_list.
    + intros k ([k1 x] & -> & Hk)%list_elem_of_fmap ([k2 y] & E & Hin)%list_elem_of_fmap. cbn in E. subst k2.
      apply elem_of_concat in Hin as (ks & Hks & Hin). apply list_elem_of_fmap in Hks as (s' & -> & Hs').
      apply list_elem_of_lookup in Hs' as [i Hs']. pose proof (Hss (S i) s' Hs') as Hs2.
      apply Hsk in Hk as [Hx _]. apply Hsk in Hin as [Hy _].
      pose proof (Hhome _ _ _ _ Hs Hx). pose proof (Hhome _ _ _ _ Hs2 Hy). lia.
    + apply (IH (S a)). intros i s' Hs'. rewrite <-(Hss (S i) s') by done. f_equal. lia.
  - intros k x. rewrite elem_of_concat. split.
    + intros (ks & (s & -> & [i Hs]%list_elem_of_lookup)%list_elem_of_fmap & [Hx HP]%Hsk).
      split; [|done]. exists s. by rewrite (Hhome _ _ _ _ Hs Hx).
    + intros [(s & Hs & Hx) HP]. exists (filter P (range o (map_to_list (data s)))).
      split; [|by apply Hsk]. apply (list_elem_of_fmap_2 (λ s, filter P (range o (map_to_list (data s))))).
      by eapply list_elem_of_lookup_2.
Qed.

Lemma collect_spec P `{!∀ p, Decision (P p)} o c :
  reachable c →
  NoDup (collect P o c).*1 ∧
  ∀ k x, (k, x) ∈ collect P o c ↔ (∃ s, shards c !! getShard c k = Some s ∧ data s !! k = Some x) ∧ P (k, x).
Proof. intros (B & _ & Hr)%reachable_dump. by eapply collect_refines. Qed.

(** The map lookup behind [peek]. *)
Lemma peek_lookup_refines B A c k e :
  refines B c A → peek c k = Some e ↔
    ∃ s x, shards c !! getShard c k = Some s ∧ data s !! k = Some x ∧
      e = Entry k (value (rd (store c) x)) (expireTime (rd (store c) x)) (lastAccess (rd (store c) x))
            (frequency (rd (store c) x)).
Proof.
  intros (Ls & Hw & HA).
  unfold peek. destruct (getShard_Some _ _ _ k Hw) as [s Hs]. rewrite Hs. cbn.
  destruct (cw_shard _ _ _ Hw _ _ Hs) as [Hi _]. split.
  - destruct (data s !! k) as [x|] eqn:Hx; [|done]. cbn. rewrite (rd_entry _ _ _ _ _ _ _ Hi Hx). intros [= <-]. eauto.
  - intros (s' & x & Hs' & Hx & ->). assert (s' = s) as -> by congruence. rewrite Hx. cbn. by eapply rd_entry.
Qed.

Lemma peek_lookup c k e :
  reachable c → peek c k = Some e ↔
    ∃ s x, shards c !! getShard c k = Some s ∧ data s !! k = Some x ∧
      e = Entry k (value (rd (store c) x)) (expireTime (rd (store c) x)) (lastAccess (rd (store c) x))
            (frequency (rd (store c) x)).
Proof. intros (B & _ & Hr)%reachable_dump. by eapply peek_lookup_refines. Qed.

Lemma not_expired now (m : mem K V) x k :
  expired now (rd m x) = false ↔
  ¬ entry_expired now (Entry k (value (rd m x)) (expireTime (rd m x)) (lastAccess (rd m x)) (frequency (rd m x))).
Proof.
  unfold expired, entry_expired. cbn. rewrite andb_false_iff, !Z.ltb_ge. lia.
Qed.

Lemma Keys_refines B A c now o :
  refines B c A → closed c = false →
  NoDup (Keys c now o) ∧
  ∀ k, k ∈ Keys c now o ↔ ∃ e, peek c k = Some e ∧ ¬ entry_expired now e.
Proof.
  intros Hr Hcl.
  destruct (collect_refines B A (λ p, expired now (rd (store c) p.2) = false) o c Hr) as [Hnd Hin].
  assert (Keys c now o = (collect (λ p, expired now (rd (store c) p.2) = false) o c).*1) as ->.
  { unfold Keys, collect, shard_keys. rewrite Hcl. clear. induction (shards c) as [|s ss IH]; [done|].
    cbn. rewrite IH, fmap_app. done. }
  split; [done|]. intros k. rewrite list_elem_of_fmap. split.
  - intros ([k' x] & -> & [(s & Hs & Hx) Hex]%Hin). cbn in *. eexists. split; [eapply peek_lookup_refines; eauto 6|].
    by apply not_expired.
  - intros (e & He & Hne). apply (peek_lookup_refines B A c k e Hr) in He as (s & x & Hs & Hx & ->). exists (k, x). split; [done|].
    apply Hin. split; [eauto|]. by apply (not_expired now (store c) x k).
Qed.

(** [Keys] lists every live key once and nothing else. *)
Theorem keys_are_the_live_keys c now o :
  reachable c → closed c = false →
  NoDup (Keys c now o) ∧
  ∀ k, k ∈ Keys c now o ↔ ∃ e, peek c k = Some e ∧ ¬ entry_expired now e.
Proof. intros (B & _ & Hr)%reachable_dump Hcl. by eapply Keys_refines. Qed.

(** ** Replacement policies *)

(** A new key in a full shard: what the abstract step says. *)
Lemma set_full c k v ttl rt :
  reachable c → closed c = false → peek c k = None → full (perShardCap c) (dump c (getShard c k)) →
  let es := dump c (getShard c k) in
  let es' := dump (Set_ c k v ttl rt).1 (getShard c k) in
  let new := Entry k v (expiry (config c) (rt_now rt) ttl) (rt_now rt) 1 in
  (∃ e, victim_rule (Policy (config c)) es e ∧ e ∈ es ∧ es' = new :: without (e_key e) es) ∨
  (Policy (config c) = AdmissionLFU ∧ es' = es).
Proof.
  intros Hr Hcl Hk Hfull. destruct (Set_dump c k v ttl rt Hr Hcl) as (_ & _ & [HP _]).
  rewrite (peek_dump c k Hr) in Hk. cbn zeta.
  inversion HP as [e Hf E|Hf Hnf E|e Hf _ Hv Hin E|Hf _ Hp E]; subst; [congruence|done|left|by right].
  by exists e.
Qed.


(** FIFO is exact insertion order: hits and updates do not move an entry, and a new key
    on a full shard replaces the entry inserted first. *)
Theorem fifo_exact_insertion_order c k :
  reachable c → closed c = false → Policy (config c) = FIFO →
  let es := dump c (getShard c k) in
  (∀ now now' e, now ≤ now' → peek c k = Some e → ¬ entry_expired now e →
     dump (Get c k now now').1 (getShard c k) = es) ∧
  (∀ v ttl rt, is_Some (peek c k) →
     e_key <$> dump (Set_ c k v ttl rt).1 (getShard c k) = e_key <$> es) ∧
  (∀ v ttl rt, peek c k = None → full (perShardCap c) es →
     dump (Set_ c k v ttl rt).1 (getShard c k) =
       Entry k v (expiry (config c) (rt_now rt) ttl) (rt_now rt) 1 :: removelast es).
Proof.
  intros Hr Hcl Hp es. split; [|split].
  - intros now now' e Hnow Hk Hx. destruct (exec_dump c (CGet k now now') Hr Hnow) as (B & _ & _ & HP).
    cbn [exec a_step] in HP. rewrite Hcl in HP. destruct HP as [-> _].
    rewrite (peek_dump c k Hr) in Hk. unfold a_get. rewrite Hk, decide_False by done. cbn [fst].
    by rewrite Hp.
  - intros v ttl rt [e Hk]. rewrite (peek_dump c k Hr) in Hk.
    destruct (Set_dump c k v ttl rt Hr Hcl) as (_ & _ & [HP _]).
    inversion HP as [e' Hf E|Hf _ E|e' Hf _ _ _ E|Hf _ _ E]; subst; try congruence. rewrite Hp. cbn [a_update].
    subst es. unfold map_key. rewrite <-list_fmap_compose. apply list_fmap_ext. intros i e0 _. cbn.
    by case_decide.
  - intros v ttl rt Hk Hfull. destruct (set_full c k v ttl rt Hr Hcl Hk Hfull) as [(e & Hv & Hin & ->)|[? _]];
      [|congruence]. rewrite Hp in Hv. f_equal. apply without_last; [|done].
    destruct (reachable_dump c Hr) as (B & _ & Href). eapply refines_nodup; [done|by apply getShard_range].
Qed.

(** LFU evicts a least frequently used entry of the shard: when a new key displaces an
    entry, no other entry of the shard had a smaller frequency, and the new key starts at
    frequency 1. *)
Theorem lfu_evicts_minimum c k v ttl rt :
  reachable c → closed c = false → Policy (config c) = LFU → peek c k = None →
  let es := dump c (getShard c k) in
  full (perShardCap c) es →
  ∃ e, e ∈ es ∧ (∀ e', e' ∈ es → e_freq e ≤ e_freq e') ∧
    dump (Set_ c k v ttl rt).1 (getShard c k) =
      Entry k v (expiry (config c) (rt_now rt) ttl) (rt_now rt) 1 :: without (e_key e) es.
Proof.
  intros Hr Hcl Hp Hk es Hfull. destruct (set_full c k v ttl rt Hr Hcl Hk Hfull) as [(e & Hv & Hin & E)|[? _]];
    [|congruence]. rewrite Hp in Hv. by exists e.
Qed.

(** AdmissionLFU on a full shard and a new key has two outcomes.  Either the filter
    turns the key down and the stored entries stay exactly as they are, or the key replaces
    the entry of least frequency (the oldest access among equals) of a sample of five
    entries, or of all entries if there are fewer. *)
Theorem admission_lfu_outcomes c k v ttl rt :
  reachable c → closed c = false → Policy (config c) = AdmissionLFU → peek c k = None →
  let es := dump c (getShard c k) in
  let es' := dump (Set_ c k v ttl rt).1 (getShard c k) in
  full (perShardCap c) es →
  es' = es ∨
  ∃ sample e, sample ⊆+ es ∧ length sample = Nat.min 5 (length es) ∧ e ∈ sample ∧
    (∀ e', e' ∈ sample → e_freq e < e_freq e' ∨ (e_freq e = e_freq e' ∧ e_access e ≤ e_access e')) ∧
    es' = Entry k v (expiry (config c) (rt_now rt) ttl) (rt_now rt) 1 :: without (e_key e) es.
Proof.
  intros Hr Hcl Hp Hk es es' Hfull.
  destruct (set_full c k v ttl rt Hr Hcl Hk Hfull) as [(e & Hv & Hin & E)|[_ ?]]; [right|by left].
  rewrite Hp in Hv. destruct Hv as (sample & H1 & H2 & H3 & H4). by exists sample, e.
Qed.

(** ** Life cycle *)
Lemma each_shard_closeCh c f : closeCh (each_shard f c) = closeCh c.
Proof. by rewrite (proj1 (each_shard_frame c f)). Qed.

(** After [Close] the cache is empty and inert: [Set] fails with [ErrCacheClosed], reads
    miss, [Delete] and [Exists] report false, [Keys] is empty, and a second [Close] or a
    cleanup run changes nothing. *)
Theorem closed_cache_is_inert c o k v ttl rt now now' o' :
  reachable c → closeCh c = false → closed c = false →
  let c' := Close c o in
  (∀ k', peek c' k' = None) ∧ closed c' = true ∧
  Set_ c' k v ttl rt = (c', Some ErrCacheClosed) ∧ Get c' k now now' = (c', None) ∧
  Delete c' k = (c', false) ∧ Exists c' k now = (c', false) ∧ Keys c' now o' = [] ∧
  Close c' o' = c' ∧ cleanup_all c' now o' = c' ∧ TriggerCleanup c' now o' = c'.
Proof.
  intros Hr Hch Hcl c'.
  assert (closed c' = true ∧ closeCh c' = true) as [Hcl' Hch'].
  { unfold c', Close. rewrite Hch. split; [done|]. cbn [closeCh with_flags].
    unfold Clear. cbn [closed with_flags]. rewrite Hcl.
    by rewrite each_shard_closeCh. }
  split.
  - intros k'. destruct (exec_dump c (CClose o) Hr I) as (B & _ & Href & HP).
    pose proof (exec_peek c (CClose o) k' Hr I) as Hpk. cbn [exec a_step] in *.
    rewrite Hch, Hcl in HP. cbn [orb] in HP.
    rewrite HP in Hpk by by apply getShard_range. exact Hpk.
  - unfold Set_, Get, get, Delete, Exists, Keys, cleanup_all, TriggerCleanup. rewrite Hcl'.
    assert (Close c' o' = c') as -> by (unfold Close at 1; by rewrite Hch'). done.
Qed.

(** ** Time to live *)

(** [GetWithTTL] agrees with [Get] and reports the time that is left: the distance from
    the clock reading to the entry's expiry, or -1 for an entry that never expires. *)
Theorem get_with_ttl_remaining c k now now' :
  reachable c → closed c = false → now ≤ now' →
  (GetWithTTL c k now now').2 =
    match peek c k with
    | Some e =>
        if decide (entry_expired now e) then None
        else Some (e_value e, if e_expire e =? 0 then -1 else i64 (e_expire e - now))
    | None => None
    end ∧
  fst <$> (GetWithTTL c k now now').2 = (Get c k now now').2.
Proof.
  intros Hr Hcl Hnow. destruct (reachable_dump c Hr) as (B & HB & Href).
  rewrite (peek_refines _ _ _ _ Href). unfold GetWithTTL, Get.
  destruct (get c k now now') as [c' r] eqn:E.
  destruct (get_refines B c _ k now now' c' r Href ltac:(lia) Hcl Hnow E) as (A' & _ & _ & _ & _ & Hres).
  unfold a_get in Hres. destruct (find_key k (dump c (getShard c k))) as [e|].
  - destruct (decide (entry_expired now e)); cbn [snd] in Hres.
    + by subst r.
    + destruct Hres as (x & -> & <- & <-). by destruct (_ =? 0).
  - cbn [snd] in Hres. by subst r.
Qed.

(** The life of an entry set at time [now] with a positive time to live: as long as
    [now + ttl] fits in 64 bits the entry expires exactly after that instant; if the sum
    overflows the stored expiry is negative and the entry never expires. *)
Theorem expiry_window cfg now ttl t (k : K) (v : V) a f :
  0 ≤ now < 2 ^ 63 → 0 < ttl < 2 ^ 63 →
  (now + ttl < 2 ^ 63 → entry_expired t (Entry k v (expiry cfg now ttl) a f) ↔ now + ttl < t) ∧
  (2 ^ 63 ≤ now + ttl → ¬ entry_expired t (Entry k v (expiry cfg now ttl) a f)).
Proof.
  intros Hn Ht. unfold expiry, entry_expired. cbn [e_expire].
  destruct (Z.eqb_spec ttl 0); [lia|]. destruct (Z.ltb_spec 0 ttl); [|lia]. split; intros Hs.
  - rewrite i64_id by (unfold is_i64; lia). lia.
  - assert (i64 (now + ttl) = now + ttl - 2 ^ 64) as ->; [|lia]. unfold i64.
    symmetry. assert ((now + ttl + 2 ^ 63) mod 2 ^ 64 = now + ttl - 2 ^ 63); [|lia].
    symmetry. apply Z.mod_unique with 1; lia.
Qed.

(** ** Invariant and refinement *)

(** C11.  The data structures of every reachable cache are consistent: there is an assignment
    of a recency list to each shard under which, shard by shard, the doubly linked list
    is well linked, the map and the list hold the same items under their own keys, the size
    counter is the length, the LFU index covers exactly these items with their frequencies,
    a key is stored only in the shard of its hash, and no item is shared between shards or
    with the pool. *)
Theorem reachable_cache_invariant numCPU clk cfg ops :
  valid_config numCPU cfg → Forall call_ok ops → Z.of_nat (length ops) < 2 ^ 61 →
  ∃ Ls, cache_wf (1 + 2 * Z.of_nat (length ops)) (run (New numCPU clk cfg : cache) ops) Ls.
Proof.
  intros Hv Hok Hlen. destruct (reachable_refines (K := K) (V := V) numCPU clk cfg ops Hv Hok Hlen) as (A & Ls & Hw & _).
  by exists Ls.
Qed.


(** ** Snapshots *)

(** What [Export] without a limit collects from one shard. *)
Definition export_item (m : mem K V) (p : K * loc) : ExportItem :=
  MkItem p.1 (value (rd m p.2)) (expireTime (rd m p.2)) (u64 (frequency (rd m p.2))).

Lemma export_shard_all sel m now es out :
  export_shard sel 0 m now es out =
    (out ++ (export_item m <$> filter (λ p, expired now (rd m p.2) = false ∧ sel p.1 = true) es), false).
Proof.
  revert out. induction es as [|[k x] es IH]; intros out; cbn [export_shard].
  { by rewrite filter_nil, app_nil_r. }
  cbn [Z.ltb Z.compare andb]. rewrite filter_cons. cbn [fst snd].
  destruct (expired now (rd m x)) eqn:Ex.
  { rewrite IH, decide_False by (intros [? ?]; congruence). done. }
  destruct (sel k) eqn:Es; cbn [negb].
  - rewrite IH, decide_True by done. cbn. by rewrite <-app_assoc.
  - rewrite IH, decide_False by (intros [? ?]; congruence). done.
Qed.

Lemma export_shards_all sel m now o i ss out :
  export_shards sel 0 m (λ _, now) o i ss out =
    out ++ concat ((λ s, export_item m <$> filter (λ p, expired now (rd m p.2) = false ∧ sel p.1 = true)
                          (range o (map_to_list (data s)))) <$> ss).
Proof.
  revert i out. induction ss as [|s ss IH]; intros i out; cbn [export_shards]; [by rewrite app_nil_r|].
  rewrite export_shard_all, IH. cbn. by rewrite <-app_assoc.
Qed.

(** Value and expiry of a stored key. *)
Definition content (c : cache) (k : K) : option (V * Z) := (λ e, (e_value e, e_expire e)) <$> peek c k.

Lemma import_step_content B c A now o it ch k :
  refines B c A → 1 ≤ B → perShardCap c ≤ 0 →
  content (Import c now o [(it, ch)]) k =
    if decide (k = Key it) then Some (Val it, ExpireAbs it) else content c k.
Proof.
  intros Hr HB Hcap. destruct (Import_step B c A now o it ch Hr HB) as (A' & Hr' & Ho & Hf & HP).
  change (locked c (getShard c (Key it)) tt _).1 with (Import c now o [(it, ch)]) in *.
  unfold content. rewrite (peek_refines _ _ _ _ Hr'), (peek_refines _ _ _ _ Hr), (same_frame_getShard c) by done.
  destruct (decide (getShard c k = getShard c (Key it))) as [E|Hne].
  2: { rewrite decide_False by congruence. by rewrite Ho by (done || by eapply refines_in_range). }
  rewrite E. destruct HP as [e Hf1|f Hf1 Hf2|e f Hf1 Hf2].
  - rewrite find_key_update. case_decide; [|done]. subst k. rewrite Hf1. done.
  - rewrite find_key_cons. cbn [e_key]. repeat case_decide; congruence || done.
  - unfold full in Hf2. lia.
Qed.

Lemma import_content B c A now o items :
  refines B c A → 1 ≤ B → perShardCap c ≤ 0 → NoDup (Key ∘ fst <$> items) →
  (∀ it, it ∈ items.*1 → content (Import c now o items) (Key it) = Some (Val it, ExpireAbs it)) ∧
  (∀ k, k ∉ (Key ∘ fst <$> items) → content (Import c now o items) k = content c k).
Proof.
  revert c A. induction items as [|[it ch] items IH]; intros c A Hr HB Hcap Hnd.
  { split; [by intros it Hit%elem_of_nil|done]. }
  cbn in Hnd. apply NoDup_cons in Hnd as [Hn Hnd].
  change (Import c now o ((it, ch) :: items)) with (Import (Import c now o [(it, ch)]) now o items).
  assert (∀ k, content (Import c now o [(it, ch)]) k = if decide (k = Key it) then Some (Val it, ExpireAbs it) else content c k)
    as Hstep by (intros k; by apply (import_step_content B c A)).
  destruct (Import_refines B c A now o [(it, ch)] Hr HB) as (A1 & Hr1 & Hf1).
  assert (perShardCap (Import c now o [(it, ch)]) ≤ 0) as Hcap1 by (by rewrite (proj1 Hf1)).
  destruct (IH _ _ Hr1 HB Hcap1 Hnd) as [H1 H2]. split.
  - intros it' [->|Hin]%elem_of_cons; [|by apply H1]. rewrite H2 by done. by rewrite Hstep, decide_True.
  - intros k [Hk Hk']%not_elem_of_cons. cbn in Hk. rewrite H2 by done. by rewrite Hstep, decide_False.
Qed.

End CacheTheorems.

(** ** Instances on a small cache

    Integer keys and values, one shard, room for two entries. *)
Definition small (pol : EvictionPolicy) : Config := {|
  MaxSize := 2; ShardCount := 1; CleanupInterval := 0; DefaultTTL := 0; Policy := pol;
  StatsEnabled := true; AdmissionResetInterval := 0; AdmissionScanRateThreshold := 0;
  AdmissionScanMissThreshold := 0; AdmissionScanRecencyThreshold := 0; AdmissionRecencyTieBreak := 0 |}.
Definition rt_at (t : Z) : runtime := Runtime t inOrder (Admission.clock_at t) (Some 0%nat).

(** Keys 1 and 2 stored at times 1 and 2, key 2 until time 7; then key 1 is read. *)
Definition demo_ops : list (@call Z Z) :=
  [CSet 1 10 (-1) (rt_at 1); CSet 2 20 5 (rt_at 2); CGet 1 3 3].
Definition demo (pol : EvictionPolicy) : InMemoryCache Z Z :=
  run (New 4 (Admission.clock_at 0) (small pol)) demo_ops.

Lemma demo_valid pol : valid_config 4 (small pol).
Proof. unfold valid_config. cbn. lia. Qed.
Lemma demo_ops_ok : Forall call_ok demo_ops.
Proof. repeat constructor. cbn. lia. Qed.
Lemma demo_reachable pol : reachable (demo pol).
Proof.
  exists 4, (Admission.clock_at 0), (small pol), demo_ops.
  split; [apply demo_valid|]. split; [apply demo_ops_ok|]. split; [cbn; lia|done].
Qed.

Lemma demo_shard pol k : getShard (demo pol) k = 0%nat.
Proof.
  unfold demo, getShard, shardByHash.
  destruct (run_config (New 4 (Admission.clock_at 0) (small pol)) demo_ops) as (_ & _ & -> & _).
  assert (shardMask (New 4 (Admission.clock_at 0) (small pol) : InMemoryCache Z Z) = 0) as ->.
  { unfold New. by destruct (newShards _ _ _ _ _). }
  by rewrite Z.land_0_r.
Qed.
Lemma demo_expiry pol : expiry (config (demo pol)) 4 (-1) = 0.
Proof. done. Qed.

Lemma set_then_get_witness :
  (Set_ (demo LRU) 3 30 5 (rt_at 4)).2 = None ∧ (Get (Set_ (demo LRU) 3 30 5 (rt_at 4)).1 3 9 9).2 = Some 30.
Proof.
  apply (set_then_get (demo LRU) 3 30 5 (rt_at 4) 9 9).
  - apply demo_reachable.
  - vm_compute. reflexivity.
  - lia.
  - left. vm_compute. discriminate.
  - vm_compute. intros [_ H]. discriminate.
Defined.

Lemma set_evicts_at_most_one_witness :
  ∃ victim : option Z,
    (is_Some victim → full (perShardCap (demo LFU)) (dump (demo LFU) (getShard (demo LFU) 3)) ∧ peek (demo LFU) 3 = None) ∧
    ∀ k', k' ≠ 3 → victim ≠ Some k' → peek (Set_ (demo LFU) 3 30 0 (rt_at 4)).1 k' = peek (demo LFU) k'.
Proof. apply set_evicts_at_most_one; [apply demo_reachable|vm_compute; reflexivity]. Defined.

Lemma get_returns_live_value_witness :
  (Get (demo FIFO) 2 7 7).2 = Some 20 ∧ (Get (demo FIFO) 2 8 8).2 = None.
Proof.
  split.
  - destruct (get_returns_live_value (demo FIFO) 2 7 7) as [H _];
      [apply demo_reachable|vm_compute; reflexivity|lia|]. rewrite H. vm_compute. reflexivity.
  - vm_compute. reflexivity.
Defined.

Lemma delete_removes_exactly_witness :
  (Delete (demo LFU) 2).2 = true ∧ (Get (Delete (demo LFU) 2).1 2 5 5).2 = None.
Proof.
  destruct (delete_removes_exactly (demo LFU) 2 5 5) as (Hb & Hg & _);
    [apply demo_reachable|vm_compute; reflexivity|lia|].
  split; [apply Hb; vm_compute; eexists; reflexivity|exact Hg].
Defined.

Lemma cleanup_removes_exactly_expired_witness :
  peek (cleanup_all (demo AdmissionLFU) 8 inOrder) 2 = None ∧
  is_Some (peek (cleanup_all (demo AdmissionLFU) 8 inOrder) 1).
Proof.
  split.
  - rewrite (cleanup_removes_exactly_expired (demo AdmissionLFU) 8 inOrder 2);
      [vm_compute; reflexivity|apply demo_reachable|vm_compute; reflexivity].
  - vm_compute. eexists. reflexivity.
Defined.

Lemma capacity_bound_witness : 0 ≤ Size (demo LRU) ≤ 2 ∧ Size (demo LRU) = 2.
Proof.
  destruct (capacity_bound (demo LRU)) as (_ & H & _); [apply demo_reachable|vm_compute; reflexivity|].
  split; [exact H|vm_compute; reflexivity].
Defined.

Lemma keys_are_the_live_keys_witness : NoDup (Keys (demo LRU) 8 reverseOrder) ∧ Keys (demo LRU) 8 reverseOrder = [1].
Proof.
  destruct (keys_are_the_live_keys (demo LRU) 8 reverseOrder) as [H _];
    [apply demo_reachable|vm_compute; reflexivity|].
  split; [exact H|vm_compute; reflexivity].
Defined.


Lemma fifo_exact_insertion_order_witness :
  e_key <$> dump (demo FIFO) 0 = [2; 1] ∧
  dump (Set_ (demo FIFO) 3 30 (-1) (rt_at 4)).1 0 = Entry 3 30 0 4 1 :: removelast (dump (demo FIFO) 0).
Proof.
  split; [vm_compute; reflexivity|].
  destruct (fifo_exact_insertion_order (demo FIFO) 3) as (_ & _ & H);
    [apply demo_reachable|vm_compute; reflexivity|vm_compute; reflexivity|].
  apply (H 30 (-1) (rt_at 4)); vm_compute; [reflexivity|split; [reflexivity|discriminate]].
Defined.

Lemma lfu_evicts_minimum_witness :
  ∃ e, e ∈ dump (demo LFU) 0 ∧ (∀ e', e' ∈ dump (demo LFU) 0 → e_freq e ≤ e_freq e') ∧
    dump (Set_ (demo LFU) 3 30 (-1) (rt_at 4)).1 0 =
      Entry 3 30 0 4 1 :: without (e_key e) (dump (demo LFU) 0).
Proof.
  pose proof (lfu_evicts_minimum (demo LFU) 3 30 (-1) (rt_at 4)) as H.
  cbn [rt_now rt_at] in H. rewrite demo_shard, demo_expiry in H.
  apply H; [apply demo_reachable|vm_compute; reflexivity..|].
  vm_compute. split; [reflexivity|discriminate].
Defined.

Lemma admission_lfu_outcomes_witness :
  let es := dump (demo AdmissionLFU) 0 in
  let es' := dump (Set_ (demo AdmissionLFU) 3 30 (-1) (rt_at 4)).1 0 in
  es' = es ∨
  ∃ sample e, sample ⊆+ es ∧ length sample = Nat.min 5 (length es) ∧ e ∈ sample ∧
    (∀ e', e' ∈ sample → e_freq e < e_freq e' ∨ (e_freq e = e_freq e' ∧ e_access e ≤ e_access e')) ∧
    es' = Entry 3 30 0 4 1 :: without (e_key e) es.
Proof.
  pose proof (admission_lfu_outcomes (demo AdmissionLFU) 3 30 (-1) (rt_at 4)) as H.
  cbn [rt_now rt_at] in H. rewrite demo_shard, demo_expiry in H.
  apply H; [apply demo_reachable|vm_compute; reflexivity..|].
  vm_compute. split; [reflexivity|discriminate].
Defined.

Lemma closed_cache_is_inert_witness :
  let c := Close (demo LRU) inOrder in
  peek c 1 = None ∧ Set_ c 1 5 0 (rt_at 9) = (c, Some ErrCacheClosed).
Proof.
  destruct (closed_cache_is_inert (demo LRU) inOrder 1 5 0 (rt_at 9) 9 9 inOrder) as (H1 & _ & H2 & _);
    [apply demo_reachable|vm_compute; reflexivity..|]. split; [apply H1|exact H2].
Defined.

Lemma get_with_ttl_remaining_witness :
  (GetWithTTL (demo LRU) 2 4 4).2 = Some (20, 3) ∧ (GetWithTTL (demo LRU) 1 4 4).2 = Some (10, -1).
Proof.
  split.
  - destruct (get_with_ttl_remaining (demo LRU) 2 4 4) as [H _];
      [apply demo_reachable|vm_compute; reflexivity|lia|]. rewrite H. vm_compute. reflexivity.
  - vm_compute. reflexivity.
Defined.

Lemma expiry_window_witness :
  entry_expired 8 (Entry 1 10 (expiry (small LRU) 2 5) 0 0) ∧
  ¬ entry_expired (2 ^ 63 - 1) (Entry 1 10 (expiry (small LRU) (2 ^ 62) (2 ^ 62)) 0 0).
Proof.
  split.
  - apply (expiry_window (small LRU) 2 5 8 1 10 0 0); lia.
  - apply (expiry_window (small LRU) (2 ^ 62) (2 ^ 62) (2 ^ 63 - 1) 1 10 0 0); lia.
Defined.

Lemma reachable_cache_invariant_witness :
  ∃ Ls, cache_wf 7 (demo LFU) Ls.
Proof.
  apply (reachable_cache_invariant 4 (Admission.clock_at 0) (small LFU) demo_ops);
    [apply demo_valid|apply demo_ops_ok|cbn; lia].
Defined.


Definition unbounded : Config := {|
  MaxSize := 0; ShardCount := 2; CleanupInterval := 0; DefaultTTL := 0; Policy := FIFO;
  StatsEnabled := false; AdmissionResetInterval := 0; AdmissionScanRateThreshold := 0;
  AdmissionScanMissThreshold := 0; AdmissionScanRecencyThreshold := 0; AdmissionRecencyTieBreak := 0 |}.


(** ** Reading an item after the lock is released *)

(** [Get] reads the item's value after it has released the shard's lock, and an item
    that leaves the cache is recycled through the pool.  In the interleaving below the key 1
    is found, then another goroutine deletes it and stores key 3, for which the pool hands
    out the same item; the first goroutine then returns the value of key 3 for key 1. *)
Theorem get_can_return_recycled_value :
  let '(c1, r) := get (demo LRU) 1 4 4 in
  let c2 := (Delete c1 1).1 in
  let c3 := (Set_ c2 3 30 (-1) (rt_at 5)).1 in
  ∃ x, r = Hit x 4 ∧ value (rd (store c1) x) = 10 ∧ value (rd (store c3) x) = 30.
Proof.
  destruct (get (demo LRU) 1 4 4) as [c1 r] eqn:E. vm_compute in E. injection E as <- <-.
  eexists. split; [reflexivity|]. split; vm_compute; reflexivity.
Qed.
