(* ===== verification/Hlc.v ===== *)
(** * The hybrid logical clock ([src/cluster/hlc.go])

    A timestamp is 48 bits of milliseconds, 8 bits of sequence and 8 bits of node id.  [Next]
    and [Observe] are the two critical sections on the clock; the physical clock reading is
    an argument.  [stamp] orders clock states as the issued timestamps are ordered. *)
From Stdlib Require Import ZArith Lia Sorted.
From stdpp Require Import base numbers list.
From S2P Require Import Prelude.
Local Open Scope Z_scope.

Module Hlc.

Definition hlcLogicalBits : Z := 16.
Definition hlcNodeBits : Z := 8.
Definition hlcSeqBits : Z := 16 - 8.
Definition hlcNodeMask : Z := Z.shiftl 1 hlcNodeBits - 1.
Definition hlcSeqMask : Z := Z.shiftl 1 hlcSeqBits - 1.

Record hlc := MkHLC { physMS : Z; seq : Z; nodeID : Z }.

Definition newHLC (nodeID : Z) : hlc := MkHLC 0 0 (Z.land nodeID hlcNodeMask).

Definition packHLC (physMS seq nodeID : Z) : Z :=
  let logical := Z.lor (u16 (Z.shiftl (Z.land seq hlcSeqMask) hlcNodeBits)) (Z.land nodeID hlcNodeMask) in
  Z.lor (u64 (Z.shiftl (u64 physMS) hlcLogicalBits)) logical.

Definition unpackHLC (ts : Z) : Z * Z :=
  (i64 (Z.shiftr ts hlcLogicalBits), u16 (Z.land ts (Z.shiftl 1 hlcLogicalBits - 1))).

Definition splitLogical (logical : Z) : Z * Z :=
  (Z.land (Z.shiftr logical hlcNodeBits) hlcSeqMask, Z.land logical hlcNodeMask).

Definition maxOf (a b c : Z) : Z :=
  let a := if a <? b then b else a in
  if a <? c then c else a.

Definition Next (now : Z) (h : hlc) : hlc * Z :=
  let h :=
    if physMS h <? now then MkHLC now 0 (nodeID h)
    else if seq h <? hlcSeqMask then MkHLC (physMS h) (u16 (seq h + 1)) (nodeID h)
    else MkHLC (i64 (physMS h + 1)) 0 (nodeID h) in
  (h, packHLC (physMS h) (seq h) (nodeID h)).

Definition Observe (now remote : Z) (h : hlc) : hlc :=
  let '(rp, rlog) := unpackHLC remote in
  let '(rseq, _) := splitLogical rlog in
  let phys := maxOf (physMS h) now rp in
  if (phys =? rp) && (phys =? physMS h) then
    let target := if seq h <? rseq then rseq else seq h in
    let newSeq := u16 (target + 1) in
    if hlcSeqMask <? newSeq then MkHLC (i64 (phys + 1)) 0 (nodeID h)
    else MkHLC phys newSeq (nodeID h)
  else if (phys =? rp) && (physMS h <? phys) then
    let newSeq := u16 (rseq + 1) in
    if hlcSeqMask <? newSeq then MkHLC (i64 (phys + 1)) 0 (nodeID h)
    else MkHLC phys newSeq (nodeID h)
  else if (phys =? physMS h) && (rp <? phys) then
    if seq h <? hlcSeqMask then MkHLC (physMS h) (u16 (seq h + 1)) (nodeID h)
    else MkHLC (i64 (physMS h + 1)) 0 (nodeID h)
  else MkHLC phys 0 (nodeID h).

(** ** Layout *)
Definition in_range (h : hlc) : Prop :=
  0 ≤ physMS h < 2 ^ 48 ∧ 0 ≤ seq h < 256 ∧ 0 ≤ nodeID h < 256.

Lemma packHLC_eq p s n :
  0 ≤ p < 2 ^ 48 → 0 ≤ s < 256 → 0 ≤ n < 256 → packHLC p s n = p * 2 ^ 16 + (s * 2 ^ 8 + n).
Proof.
  intros Hp Hs Hn. unfold packHLC, hlcSeqMask, hlcNodeMask, hlcNodeBits, hlcSeqBits, hlcLogicalBits.
  change (Z.shiftl 1 (16 - 8) - 1) with (Z.ones 8). change (Z.shiftl 1 8 - 1) with (Z.ones 8).
  rewrite !Z.land_ones, !Z.mod_small by lia.
  rewrite (u64_id p) by (unfold is_u64; lia).
  assert (Z.shiftl s 8 = s * 2 ^ 8) as E1 by by rewrite Z.shiftl_mul_pow2.
  assert (Z.shiftl p 16 = p * 2 ^ 16) as E2 by by rewrite Z.shiftl_mul_pow2.
  unfold u16. rewrite (Z.mod_small (Z.shiftl s 8)) by lia. rewrite u64_id by (unfold is_u64; lia).
  rewrite (lor_add s n 8) by lia. rewrite lor_add by lia. lia.
Qed.

(** The state as the timestamp it stands for. *)
Definition stamp (h : hlc) : Z := physMS h * 2 ^ 16 + (seq h * 2 ^ 8 + nodeID h).

Lemma unpack_pack p s n :
  0 ≤ p < 2 ^ 48 → 0 ≤ s < 256 → 0 ≤ n < 256 →
  unpackHLC (packHLC p s n) = (p, s * 2 ^ 8 + n) ∧ splitLogical (s * 2 ^ 8 + n) = (s, n).
Proof.
  intros Hp Hs Hn. rewrite packHLC_eq by done. unfold unpackHLC, splitLogical, hlcLogicalBits, hlcNodeBits,
    hlcSeqMask, hlcNodeMask, hlcSeqBits, hlcNodeBits.
  change (Z.shiftl 1 16 - 1) with (Z.ones 16). change (Z.shiftl 1 (16 - 8) - 1) with (Z.ones 8).
  change (Z.shiftl 1 8 - 1) with (Z.ones 8). rewrite !Z.land_ones, !Z.shiftr_div_pow2 by lia.
  split; f_equal.
  - replace ((p * 2 ^ 16 + (s * 2 ^ 8 + n)) / 2 ^ 16) with p; [apply i64_id; unfold is_i64; lia|].
    apply Z.div_unique with (s * 2 ^ 8 + n); lia.
  - unfold u16. rewrite Z.mod_mod by lia. symmetry. apply Z.mod_unique with p; lia.
  - replace ((s * 2 ^ 8 + n) / 2 ^ 8) with s; [apply Z.mod_small; lia|]. apply Z.div_unique with n; lia.
  - symmetry. apply Z.mod_unique with s; lia.
Qed.

(** What a remote timestamp decodes to. *)
Lemma unpack_range ts :
  is_u64 ts → ∃ p s n, unpackHLC ts = (p, s * 2 ^ 8 + n) ∧ splitLogical (s * 2 ^ 8 + n) = (s, n) ∧
    0 ≤ p < 2 ^ 48 ∧ 0 ≤ s < 256 ∧ 0 ≤ n < 256 ∧ ts = p * 2 ^ 16 + (s * 2 ^ 8 + n).
Proof.
  unfold is_u64. intros Hts.
  pose proof (Z.div_mod ts (2 ^ 16)). pose proof (Z.mod_pos_bound ts (2 ^ 16)).
  pose proof (Z.div_mod (ts mod 2 ^ 16) (2 ^ 8)). pose proof (Z.mod_pos_bound (ts mod 2 ^ 16) (2 ^ 8)).
  set (p := ts / 2 ^ 16) in *. set (l := ts mod 2 ^ 16) in *. set (s := l / 2 ^ 8) in *. set (n := l mod 2 ^ 8) in *.
  exists p, s, n. assert (0 ≤ p < 2 ^ 48 ∧ 0 ≤ s < 256 ∧ 0 ≤ n < 256) as (? & ? & ?) by lia.
  destruct (unpack_pack p s n) as [Hu Hs]; [done..|]. rewrite packHLC_eq in Hu by done.
  replace ts with (p * 2 ^ 16 + (s * 2 ^ 8 + n)) by lia. by rewrite Hu, Hs.
Qed.

Lemma maxOf_max a b c : maxOf a b c = Z.max (Z.max a b) c.
Proof. unfold maxOf. zcases; lia. Qed.

Lemma hlcSeqMask_eq : hlcSeqMask = 255.
Proof. done. Qed.

(** ** Progress of the two operations *)
Lemma Next_spec now h :
  in_range h → 0 ≤ now < 2 ^ 48 → physMS h < 2 ^ 48 - 1 →
  let '(h', ts) := Next now h in
  in_range h' ∧ nodeID h' = nodeID h ∧ ts = stamp h' ∧ stamp h < ts ∧
  physMS h' ≤ Z.max now (physMS h + 1).
Proof.
  intros (Hp & Hs & Hn) Hnow Hlt. unfold Next. rewrite hlcSeqMask_eq.
  assert (∀ p s, 0 ≤ p < 2 ^ 48 → 0 ≤ s < 256 →
    physMS h * 2 ^ 16 + seq h * 2 ^ 8 < p * 2 ^ 16 + s * 2 ^ 8 → p ≤ Z.max now (physMS h + 1) →
    let h' := MkHLC p s (nodeID h) in
    in_range h' ∧ nodeID h' = nodeID h ∧ packHLC p s (nodeID h) = stamp h' ∧ stamp h < packHLC p s (nodeID h) ∧
    physMS h' ≤ Z.max now (physMS h + 1)) as Hgo.
  { intros p s Hp' Hs' Hlt' Hle. rewrite packHLC_eq by done. unfold in_range, stamp. cbn. lia. }
  destruct (Z.ltb_spec (physMS h) now); [apply Hgo; lia|].
  destruct (Z.ltb_spec (seq h) 255).
  - assert (u16 (seq h + 1) = seq h + 1) as -> by (apply Z.mod_small; lia). apply Hgo; lia.
  - rewrite i64_id by (unfold is_i64; lia). apply Hgo; lia.
Qed.

(** The part of a timestamp that orders events, without the node id. *)
Definition tick (h : hlc) : Z := physMS h * 2 ^ 8 + seq h.

Lemma Observe_spec now remote h p s n :
  in_range h → 0 ≤ now < 2 ^ 48 → physMS h < 2 ^ 48 - 1 →
  unpackHLC remote = (p, s * 2 ^ 8 + n) → splitLogical (s * 2 ^ 8 + n) = (s, n) →
  0 ≤ p < 2 ^ 48 - 1 → 0 ≤ s < 256 →
  let h' := Observe now remote h in
  in_range h' ∧ nodeID h' = nodeID h ∧ tick h < tick h' ∧ p * 2 ^ 8 + s < tick h' ∧
  physMS h' ≤ Z.max now (Z.max (physMS h + 1) (p + 1)).
Proof.
  intros (Hp & Hs & Hn) Hnow Hlt Eu Es Hrp Hrs. unfold Observe. rewrite Eu, Es, maxOf_max, hlcSeqMask_eq.
  set (phys := Z.max (Z.max (physMS h) now) p).
  assert (∀ q t, 0 ≤ q < 2 ^ 48 → 0 ≤ t < 256 → q ≤ Z.max now (Z.max (physMS h + 1) (p + 1)) →
    physMS h * 2 ^ 8 + seq h < q * 2 ^ 8 + t → p * 2 ^ 8 + s < q * 2 ^ 8 + t →
    let h' := MkHLC q t (nodeID h) in
    in_range h' ∧ nodeID h' = nodeID h ∧ tick h < tick h' ∧ p * 2 ^ 8 + s < tick h' ∧
    physMS h' ≤ Z.max now (Z.max (physMS h + 1) (p + 1))) as Hgo.
  { intros q t Hq Ht Hle H1 H2. unfold in_range, tick. cbn. lia. }
  assert (∀ t, 0 ≤ t < 256 → u16 (t + 1) = t + 1) as Hu16 by (intros; apply Z.mod_small; lia).
  cbn zeta. destruct (Z.eqb_spec phys p), (Z.eqb_spec phys (physMS h)); cbn [andb].
  - set (t := if seq h <? s then s else seq h).
    assert (0 ≤ t < 256 ∧ seq h ≤ t ∧ s ≤ t) by (unfold t; destruct (Z.ltb_spec (seq h) s); lia).
    rewrite Hu16 by lia. destruct (Z.ltb_spec 255 (t + 1)); [rewrite i64_id by (unfold is_i64; lia)|]; apply Hgo; lia.
  - destruct (Z.ltb_spec (physMS h) phys); [|lia]. rewrite Hu16 by lia.
    destruct (Z.ltb_spec 255 (s + 1)); [rewrite i64_id by (unfold is_i64; lia)|]; apply Hgo; lia.
  - destruct (Z.ltb_spec p phys); [|lia]. destruct (Z.ltb_spec (seq h) 255).
    + rewrite Hu16 by lia. apply Hgo; lia.
    + rewrite i64_id by (unfold is_i64; lia). apply Hgo; lia.
  - apply Hgo; lia.
Qed.

Lemma tick_stamp h h' : nodeID h' = nodeID h → tick h < tick h' → stamp h < stamp h'.
Proof. unfold tick, stamp. lia. Qed.

(** ** Runs of one clock *)
Inductive event := ENext (now : Z) | EObserve (now remote : Z).

Fixpoint issue (h : hlc) (evs : list event) : list Z :=
  match evs with
  | [] => []
  | ENext now :: evs => let '(h, ts) := Next now h in ts :: issue h evs
  | EObserve now remote :: evs => issue (Observe now remote h) evs
  end.

(** Physical readings, own and remote, stay below [M] milliseconds. *)
Definition event_below (M : Z) (e : event) : Prop :=
  match e with
  | ENext now => 0 ≤ now < M
  | EObserve now remote => 0 ≤ now < M ∧ is_u64 remote ∧ remote < M * 2 ^ 16
  end.

Lemma issue_spec M evs h :
  in_range h → physMS h ≤ M → M + Z.of_nat (length evs) < 2 ^ 48 - 1 → 0 < M →
  Forall (event_below M) evs →
  Forall (Z.lt (stamp h)) (issue h evs) ∧ StronglySorted Z.lt (issue h evs) ∧
  Forall (λ ts, ts mod 2 ^ 8 = nodeID h) (issue h evs).
Proof.
  revert M h. induction evs as [|e evs IH]; intros M h Hr HM Hlen Hpos Hev; [repeat constructor|].
  apply Forall_cons in Hev as [He Hev]. cbn [length] in Hlen.
  assert (Forall (event_below (M + 1)) evs) as Hev'.
  { eapply Forall_impl; [exact Hev|]. intros [now|now remote]; cbn [event_below]; unfold is_u64; lia. }
  destruct e as [now|now remote]; cbn [issue event_below] in *.
  - pose proof (Next_spec now h Hr ltac:(lia) ltac:(lia)) as Hn. destruct (Next now h) as [h' ts].
    destruct Hn as (Hr' & En & -> & Hlt & Hp).
    destruct (IH (M + 1) h') as (F1 & F2 & F3); [done|lia|lia|lia|done|]. rewrite En in F3. split_and!.
    + constructor; [done|]. eapply Forall_impl; [exact F1|]. intros ts. lia.
    + by constructor.
    + constructor; [|done]. rewrite <-En. unfold stamp. destruct Hr' as (_ & _ & ?).
      symmetry. apply Z.mod_unique with (physMS h' * 2 ^ 8 + seq h'); lia.
  - destruct He as (Hnow & Hu & Hrem). destruct (unpack_range remote Hu) as (p & s & n & E1 & E2 & Hp & Hs & Hn & E3).
    destruct (Observe_spec now remote h p s n) as (Hr' & En & Ht & _ & Hp'); [done|lia|lia|done|done|lia|done|].
    destruct (IH (M + 1) (Observe now remote h)) as (F1 & F2 & F3); [done|lia|lia|lia|done|].
    rewrite En in F3. split_and!; [|done..]. eapply Forall_impl; [exact F1|].
    intros ts Hts. pose proof (tick_stamp _ _ En Ht). lia.
Qed.

Lemma newHLC_range id : in_range (newHLC id) ∧ nodeID (newHLC id) = id mod 256.
Proof.
  unfold in_range, newHLC. cbn [physMS seq nodeID]. change hlcNodeMask with (Z.ones 8).
  rewrite Z.land_ones by lia. pose proof (Z.mod_pos_bound id (2 ^ 8)). split; [lia|done].
Qed.

(** C28.  Timestamps of one node are strictly increasing, whatever the physical clock does
    (stalls and jumps back included) and however many remote timestamps are observed in
    between, as long as the millisecond field does not run out of its 48 bits; and every
    timestamp carries the node's id, so two nodes with different ids never issue the same. *)
Theorem hlc_timestamps_increase id M evs :
  0 < M → M + Z.of_nat (length evs) < 2 ^ 48 - 1 → Forall (event_below M) evs →
  StronglySorted Z.lt (issue (newHLC id) evs) ∧
  Forall (λ ts, ts mod 2 ^ 8 = id mod 2 ^ 8) (issue (newHLC id) evs).
Proof.
  intros HM Hlen Hev. destruct (newHLC_range id) as [Hr En].
  destruct (issue_spec M evs (newHLC id)) as (_ & H1 & H2); [done|cbn; lia|done..|].
  split; [done|]. by rewrite En in H2.
Qed.

Definition demo_events : list event := [ENext 100; ENext 90; EObserve 95 (120 * 2 ^ 16); ENext 90].

Lemma hlc_timestamps_increase_witness : StronglySorted Z.lt (issue (newHLC 7) demo_events).
Proof.
  destruct (hlc_timestamps_increase 7 200 demo_events) as [H _]; [lia|cbn; lia| |exact H].
  unfold demo_events. repeat (apply Forall_cons; split; [cbn [event_below]; unfold is_u64; lia|]). apply Forall_nil.
  exact I.
Defined.

(** After [Observe remote] the next local timestamp is greater than [remote]. *)
Theorem observe_then_next_exceeds_remote now now' remote h :
  in_range h → physMS h < 2 ^ 47 → 0 ≤ now < 2 ^ 47 → 0 ≤ now' < 2 ^ 47 → 0 ≤ remote < 2 ^ 63 →
  remote < (Next now' (Observe now remote h)).2.
Proof.
  intros Hr Hp Hn Hn' Hrem.
  destruct (unpack_range remote) as (p & s & n & E1 & E2 & Hp' & Hs & Hnn & E3); [unfold is_u64; lia|].
  destruct (Observe_spec now remote h p s n) as (Hr' & En & _ & Ht & Hb); [done|lia|lia|done|done|lia|done|].
  pose proof (Next_spec now' _ Hr' ltac:(lia) ltac:(lia)) as Hnext.
  destruct (Next now' (Observe now remote h)) as [h' ts]. destruct Hnext as (_ & _ & _ & Hlt & _).
  cbn. unfold stamp, tick in *. destruct Hr' as (_ & _ & ?). lia.
Qed.

Lemma observe_then_next_exceeds_remote_witness :
  500 * 2 ^ 16 + 3 < (Next 10 (Observe 20 (500 * 2 ^ 16 + 3) (newHLC 1))).2.
Proof.
  apply observe_then_next_exceeds_remote; [apply newHLC_range|cbn; lia|lia..].
Defined.

(** A timestamp decodes to the fields it was packed from, and packing is injective and
    respects the order of (milliseconds, sequence, node). *)
Theorem hlc_pack_roundtrip p s n :
  0 ≤ p < 2 ^ 48 → 0 ≤ s < 256 → 0 ≤ n < 256 →
  let '(p', logical) := unpackHLC (packHLC p s n) in
  p' = p ∧ splitLogical logical = (s, n) ∧ is_u64 (packHLC p s n).
Proof.
  intros Hp Hs Hn. destruct (unpack_pack p s n Hp Hs Hn) as [-> E]. split_and!; [done..|].
  rewrite packHLC_eq by done. unfold is_u64. lia.
Qed.

Lemma hlc_pack_roundtrip_witness :
  let '(p', logical) := unpackHLC (packHLC 1700000000000 200 9) in
  p' = 1700000000000 ∧ splitLogical logical = (200, 9) ∧ is_u64 (packHLC 1700000000000 200 9).
Proof. apply (hlc_pack_roundtrip 1700000000000 200 9); lia. Defined.
End Hlc.
