(* ===== verification/Rendezvous.v ===== *)
(** * Weighted rendezvous hashing ([src/cluster/rendezvous.go])

    Every node of a ring scores a key hash; the [rf] best-scoring nodes own the key.  Scores
    are 128-bit products kept as two words, ties are broken by node id.  [xxhash.Sum64String]
    (a third-party package) is the parameter [sum64] of [newMeta].  [sort.Slice] is a merge
    sort here: on nodes with different ids the order is strict, so every sort gives the same
    list ([owners_sorted]). *)
From Stdlib Require Import ZArith Lia Sorted.
From stdpp Require Import base numbers list sorting sets.
From S2P Require Import Prelude.
Local Open Scope Z_scope.
Local Open Scope word_scope.

Module Rendezvous.

(** [mix64]: the finalizer of SplitMix64. *)
Definition mix64 (x : Z) : Z :=
  let x := x ^w (x >>w 30) in
  let x := x *w 0xbf58476d1ce4e5b9 in
  let x := x ^w (x >>w 27) in
  let x := x *w 0x94d049bb133111eb in
  x ^w (x >>w 31).

(** Node ids are strings: lists of bytes, compared as Go compares strings. *)
Definition NodeID : Type := list Z.
Fixpoint id_ltb (a b : NodeID) : bool :=
  match a, b with
  | _, [] => false
  | [], _ :: _ => true
  | x :: a, y :: b => (x <? y) || ((x =? y) && id_ltb a b)
  end.

Record nodeMeta := MkNode { ID : NodeID; Addr : list Z; weight : Z; salt : Z }.

Definition newMeta (sum64 : list Z → Z) (id : NodeID) (addr : list Z) : nodeMeta :=
  MkNode id addr 500000 (sum64 id).

#[export] Instance nodeMeta_eq_dec : EqDecision nodeMeta.
Proof. solve_decision. Defined.

Record ring := MkRing { nodes : list nodeMeta; rf : Z }.
Definition newRing (rf : Z) : ring := MkRing [] rf.

(** [bits.Mul64]. *)
Definition mul64 (x y : Z) : Z * Z := (x * y / 2 ^ 64, x * y mod 2 ^ 64).

Definition score (keyHash : Z) (nm : nodeMeta) : Z := mix64 (keyHash ^w salt nm).
Definition product (keyHash : Z) (nm : nodeMeta) : Z * Z := mul64 (score keyHash nm) (weight nm).

(** The comparison [less] of both owner functions: [a] ranks before [b]. *)
Definition less (keyHash : Z) (a b : nodeMeta) : bool :=
  let '(hi1, lo1) := product keyHash a in
  let '(hi2, lo2) := product keyHash b in
  if negb (hi1 =? hi2) then hi2 <? hi1
  else if negb (lo1 =? lo2) then lo2 <? lo1
  else id_ltb (ID a) (ID b).

Definition not_after (keyHash : Z) (a b : nodeMeta) : Prop := less keyHash b a = false.
#[export] Instance not_after_dec keyHash : RelDecision (not_after keyHash).
Proof. unfold not_after. intros a b. apply _. Defined.

(** [None]: a negative [n] makes [make([]*nodeMeta, n)] panic. *)
Definition ownersTopNFromKeyHash (r : ring) (keyHash n : Z) : option (list nodeMeta) :=
  let arr := merge_sort (not_after keyHash) (nodes r) in
  let n := if Z.of_nat (length arr) <? n then Z.of_nat (length arr) else n in
  if n <? 0 then None else Some (take (Z.to_nat n) arr).

Definition ownersFromKeyHash (r : ring) (keyHash : Z) : option (list nodeMeta) :=
  let arr := merge_sort (not_after keyHash) (nodes r) in
  let n := rf r in
  let n := if Z.of_nat (length arr) <? n then Z.of_nat (length arr) else n in
  if n <? 0 then None else Some (take (Z.to_nat n) arr).

(** ** [ownsHash] *)

(** [worse] on the slots of two nodes. *)
Definition worse (keyHash : Z) (a b : nodeMeta) : bool :=
  let '(hia, loa) := product keyHash a in
  let '(hib, lob) := product keyHash b in
  if negb (hia =? hib) then hia <? hib
  else if negb (loa =? lob) then loa <? lob
  else id_ltb (ID b) (ID a).

(** [best[i]]. *)
Definition slot_at (best : list nodeMeta) (i : nat) : nodeMeta := default (MkNode [] [] 0 0) (best !! i).

(** [worst = 0; for i := 1; ... { if worse(best[i], best[worst]) { worst = i } }]. *)
Definition recompute_worst (keyHash : Z) (best : list nodeMeta) : nat :=
  foldl (λ worst i, if worse keyHash (slot_at best i) (slot_at best worst) then i else worst)
    0%nat (seq 1 (length best - 1)).

Definition owns_step (keyHash : Z) (top : nat) (st : list nodeMeta * nat) (nm : nodeMeta) : list nodeMeta * nat :=
  let '(best, worst) := st in
  if (length best <? top)%nat then
    let best := best ++ [nm] in
    if (length best =? 1)%nat || worse keyHash (slot_at best (length best - 1)) (slot_at best worst)
    then (best, (length best - 1)%nat) else (best, worst)
  else if negb (worse keyHash nm (slot_at best worst)) then
    let best := <[worst := nm]> best in
    (best, recompute_worst keyHash best)
  else (best, worst).

Definition ownsHash (r : ring) (selfID : NodeID) (keyHash : Z) : bool :=
  if bool_decide (nodes r = []) || (rf r <=? 0) then false
  else
    let top := Z.to_nat (Z.min (rf r) (Z.of_nat (length (nodes r)))) in
    let '(best, _) := foldl (owns_step keyHash top) ([], 0%nat) (nodes r) in
    existsb (λ sl, bool_decide (ID sl = selfID)) best.

Definition hasID (r : ring) (id : NodeID) : bool := existsb (λ nm, bool_decide (ID nm = id)) (nodes r).

(** ** The order *)
Lemma id_ltb_irrefl a : id_ltb a a = false.
Proof. induction a as [|x a IH]; [done|]. cbn. by rewrite Z.ltb_irrefl, Z.eqb_refl, IH. Qed.
Lemma id_ltb_trans a b c : id_ltb a b = true → id_ltb b c = true → id_ltb a c = true.
Proof.
  revert b c. induction a as [|x a IH]; intros [|y b] [|z c]; cbn; try done.
  rewrite !orb_true_iff, !andb_true_iff, !Z.ltb_lt, !Z.eqb_eq. intros [?|[-> ?]] [?|[-> ?]]; try (left; lia).
  right. split; [done|]. by eapply IH.
Qed.
Lemma id_ltb_total a b : a ≠ b → id_ltb a b = true ∨ id_ltb b a = true.
Proof.
  revert b. induction a as [|x a IH]; intros [|y b] Hne; cbn; try tauto.
  rewrite !orb_true_iff, !andb_true_iff, !Z.ltb_lt, !Z.eqb_eq.
  destruct (decide (x = y)) as [->|]; [|lia]. destruct (IH b); [congruence|tauto..].
Qed.

Section Order.
Context (kh : Z).
Abbreviation lt := (λ a b, less kh a b = true).

Definition rank (a : nodeMeta) : Z := score kh a * weight a.

Lemma less_rank a b :
  less kh a b = true ↔ rank b < rank a ∨ (rank a = rank b ∧ id_ltb (ID a) (ID b) = true).
Proof.
  unfold less, product, mul64. fold (rank a) (rank b).
  pose proof (Z.div_mod (rank a) (2 ^ 64)). pose proof (Z.div_mod (rank b) (2 ^ 64)).
  pose proof (Z.mod_pos_bound (rank a) (2 ^ 64)). pose proof (Z.mod_pos_bound (rank b) (2 ^ 64)).
  set (ha := rank a / 2 ^ 64) in *. set (hb := rank b / 2 ^ 64) in *.
  set (la := rank a mod 2 ^ 64) in *. set (lb := rank b mod 2 ^ 64) in *.
  destruct (Z.eqb_spec ha hb); cbn [negb].
  - destruct (Z.eqb_spec la lb); cbn [negb].
    + split; [intros ?; right; split; [lia|done]|]. intros [?|[_ ?]]; [lia|done].
    + rewrite Z.ltb_lt. split; [lia|]. intros [?|[? _]]; lia.
  - rewrite Z.ltb_lt. split; [nia|]. intros [?|[? _]]; [nia|].
    assert (ha = hb); [|done]. unfold ha, hb. congruence.
Qed.

Lemma worse_less a b : worse kh a b = less kh b a.
Proof.
  unfold worse, less. destruct (product kh a) as [ha la], (product kh b) as [hb lb].
  rewrite (Z.eqb_sym hb ha), (Z.eqb_sym lb la). done.
Qed.

Lemma less_irrefl a : less kh a a = false.
Proof.
  apply not_true_is_false. rewrite less_rank, id_ltb_irrefl. intros [?|[_ ?]]; [lia|done].
Qed.
Lemma less_trans a b c : less kh a b = true → less kh b c = true → less kh a c = true.
Proof.
  rewrite !less_rank. intros [?|[? Ha]] [?|[? Hb]]; try (left; lia).
  right. split; [lia|]. by eapply id_ltb_trans.
Qed.
Lemma less_total a b : ID a ≠ ID b → less kh a b = true ∨ less kh b a = true.
Proof.
  intros Hne. rewrite !less_rank. destruct (Z.lt_trichotomy (rank a) (rank b)) as [?|[?|?]]; [lia| |lia].
  destruct (id_ltb_total (ID a) (ID b) Hne); [left|right]; right; (split; [lia|done]).
Qed.
Lemma less_asym a b : less kh a b = true → less kh b a = false.
Proof.
  intros Hab. apply not_true_is_false. intros Hba. pose proof (less_trans _ _ _ Hab Hba).
  rewrite less_irrefl in *. done.
Qed.

#[local] Instance not_after_total : Total (not_after kh).
Proof.
  intros a b. unfold not_after. destruct (less kh b a) eqn:E; [|by left]. right. by apply less_asym.
Qed.
#[local] Instance not_after_trans : Transitive (not_after kh).
Proof.
  intros a b c. unfold not_after. intros H1 H2. apply not_true_is_false. rewrite less_rank. intros H3.
  apply not_true_iff_false in H1, H2. rewrite less_rank in H1, H2.
  assert (rank b ≤ rank a) by (apply Z.nlt_ge; tauto). assert (rank c ≤ rank b) by (apply Z.nlt_ge; tauto).
  destruct (decide (ID a = ID b)) as [Eab|Hab], (decide (ID b = ID c)) as [Ebc|Hbc].
  - rewrite Eab, Ebc, id_ltb_irrefl in *. destruct H3 as [?|[_ ?]]; [lia|done].
  - rewrite Eab in *. destruct H3 as [?|[? Hi]]; [lia|]. apply H2. right. split; [lia|done].
  - rewrite Ebc in *. destruct H3 as [?|[? Hi]]; [lia|]. apply H1. right. split; [lia|done].
  - destruct H3 as [?|[? Hi]]; [lia|]. destruct (id_ltb_total _ _ Hab) as [Hi1|Hi1].
    + apply H2. right. split; [lia|]. by eapply id_ltb_trans.
    + apply H1. right. split; [lia|done].
Qed.

(** ** The best [n] of a set of nodes *)
Definition is_top (n : nat) (ns T : list nodeMeta) : Prop :=
  NoDup T ∧ (∀ t, t ∈ T → t ∈ ns) ∧ length T = Nat.min n (length ns) ∧
  ∀ t u, t ∈ T → u ∈ ns → u ∉ T → less kh t u = true.

Lemma is_top_sub n ns T T' t :
  is_top n ns T → is_top n ns T' → t ∈ T → t ∈ T'.
Proof.
  intros (Hnd & Hsub & Hlen & Hdom) (Hnd' & Hsub' & Hlen' & Hdom') Ht.
  destruct (decide (t ∈ T')) as [|Hn]; [done|]. exfalso.
  assert (∃ u, u ∈ T' ∧ u ∉ T) as (u & Hu & Hnu).
  { destruct (decide (Exists (λ u, u ∉ T) T')) as [(u & ? & ?)%Exists_exists|Hno]; [by exists u|].
    assert (∀ u, u ∈ T' → u ∈ T) as Hall.
    { intros u Hu. destruct (decide (u ∈ T)); [done|]. destruct Hno. apply Exists_exists. eauto. }
    assert (t :: T' ⊆+ T) as Hle.
    { apply NoDup_submseteq; [by apply NoDup_cons|]. intros u [->|Hu]%elem_of_cons; auto. }
    apply submseteq_length in Hle. cbn in Hle. lia. }
  pose proof (Hdom t u Ht (Hsub' u Hu) Hnu) as H1. pose proof (Hdom' u t Hu (Hsub t Ht) Hn) as H2.
  apply less_asym in H1. congruence.
Qed.

Lemma is_top_unique n ns T T' : is_top n ns T → is_top n ns T' → ∀ t, t ∈ T ↔ t ∈ T'.
Proof. intros H1 H2 t. split; [by apply (is_top_sub n ns T)|by apply (is_top_sub n ns T')]. Qed.

(** Distinct ids, hence distinct nodes and a strict order. *)
Definition distinct (ns : list nodeMeta) : Prop := NoDup (ID <$> ns).

Lemma distinct_NoDup ns : distinct ns → NoDup ns.
Proof. apply NoDup_fmap_1. Qed.
Lemma distinct_less ns a b : distinct ns → a ∈ ns → b ∈ ns → a ≠ b → less kh a b = true ∨ less kh b a = true.
Proof.
  intros Hd Ha Hb Hne. apply less_total. intros E. apply Hne.
  apply list_elem_of_lookup in Ha as [i Hi]. apply list_elem_of_lookup in Hb as [j Hj].
  assert (i = j) as ->; [|congruence].
  eapply NoDup_lookup; [exact Hd|..]; rewrite list_lookup_fmap; [by rewrite Hi|by rewrite Hj, E].
Qed.

Lemma sorted_dominates ns l1 l2 :
  distinct ns → (∀ a, a ∈ l1 ++ l2 → a ∈ ns) → NoDup (l1 ++ l2) → StronglySorted (not_after kh) (l1 ++ l2) →
  ∀ t u, t ∈ l1 → u ∈ l2 → less kh t u = true.
Proof.
  intros Hd Hin Hnd Hs t u Ht Hu. apply StronglySorted_app in Hs as (Hs & _ & _).
  specialize (Hs t u Ht Hu). unfold not_after in Hs.
  destruct (distinct_less ns t u Hd) as [|H2]; [apply Hin; set_solver..| |done|congruence].
  intros ->. apply NoDup_app in Hnd as (_ & Hnd & _). by apply (Hnd u).
Qed.

Lemma sort_props ns :
  merge_sort (not_after kh) ns ≡ₚ ns ∧ StronglySorted (not_after kh) (merge_sort (not_after kh) ns).
Proof. split; [apply merge_sort_Permutation|]. apply StronglySorted_merge_sort; apply _. Qed.

Lemma take_is_top n ns :
  distinct ns → is_top n ns (take n (merge_sort (not_after kh) ns)).
Proof.
  intros Hd. destruct (sort_props ns) as [HP Hs]. set (l := merge_sort _ ns) in *.
  pose proof (distinct_NoDup ns Hd) as Hnd. rewrite <-HP in Hnd.
  assert (take n l ++ drop n l = l) as E by apply take_drop.
  assert (∀ a, a ∈ l ↔ a ∈ ns) as Hin by (intros a; by rewrite HP).
  rewrite <-E in Hnd. pose proof Hnd as Hnd0. apply NoDup_app in Hnd0 as (Hn1 & _ & _).
  split_and!; [done| | |].
  - intros t Ht. apply Hin. rewrite <-E. apply elem_of_app. by left.
  - rewrite length_take. by rewrite HP.
  - intros t u Ht Hu Hnu. eapply (sorted_dominates ns (take n l) (drop n l)); try done.
    + intros a. rewrite E. apply Hin.
    + by rewrite E.
    + apply Hin in Hu. rewrite <-E in Hu. apply elem_of_app in Hu as [?|?]; done.
Qed.

(** ** The scan of [ownsHash] *)

(** The node at index [w] ranks last. *)
Definition last_at (best : list nodeMeta) (w : nat) : Prop :=
  (w < length best)%nat ∧ ∀ b, b ∈ best → b ≠ slot_at best w → less kh b (slot_at best w) = true.

Lemma slot_at_lookup best i x : best !! i = Some x → slot_at best i = x.
Proof. unfold slot_at. by intros ->. Qed.

Lemma recompute_worst_spec ns best :
  distinct ns → (∀ b, b ∈ best → b ∈ ns) → best ≠ [] → last_at best (recompute_worst kh best).
Proof.
  intros Hd Hin Hne. unfold recompute_worst.
  assert (∀ n w a, (w < length best)%nat → (a + n ≤ length best)%nat →
    (∀ j, (j < a)%nat → less kh (slot_at best w) (slot_at best j) = true → False) →
    let w' := foldl (λ worst i, if worse kh (slot_at best i) (slot_at best worst) then i else worst) w (seq a n) in
    (w' < length best)%nat ∧ ∀ j, (j < a + n)%nat → less kh (slot_at best w') (slot_at best j) = true → False) as HI.
  { induction n as [|n IH]; intros w a Hw Ha Hmin; cbn [seq foldl].
    { split; [done|]. intros j Hj. apply Hmin. lia. }
    rewrite Nat.add_succ_r. change (S (a + n)) with (S a + n)%nat. apply IH; [case_match; lia|lia|].
    intros j Hj. rewrite worse_less. destruct (less kh (slot_at best w) (slot_at best a)) eqn:E.
    - destruct (decide (j = a)) as [->|]; [by rewrite less_irrefl|]. intros Hl.
      apply (Hmin j); [lia|]. by eapply less_trans.
    - destruct (decide (j = a)) as [->|]; [congruence|]. apply Hmin. lia. }
  assert (1 ≤ length best)%nat as Hl by (destruct best; [done|cbn; lia]).
  destruct (HI (length best - 1)%nat 0%nat 1%nat) as [Hw Hmin]; [lia|lia| |].
  { intros j Hj. assert (j = 0%nat) as -> by lia. by rewrite less_irrefl. }
  set (w := foldl _ _ _) in *. split; [done|]. intros b Hb Hbw.
  apply list_elem_of_lookup in Hb as [j Hj]. pose proof (slot_at_lookup _ _ _ Hj) as Ej.
  destruct (lookup_lt_is_Some_2 _ _ Hw) as [x Hx]. pose proof (slot_at_lookup _ _ _ Hx) as Ew.
  destruct (distinct_less ns b (slot_at best w) Hd) as [|H2]; try done.
  - apply Hin. by eapply list_elem_of_lookup_2.
  - apply Hin. rewrite Ew. by eapply list_elem_of_lookup_2.
  - destruct (Hmin j); [apply lookup_lt_Some in Hj; lia|]. by rewrite Ej.
Qed.

(** What the scan knows after the nodes [P]. *)
Definition scanned (top : nat) (P : list nodeMeta) (st : list nodeMeta * nat) : Prop :=
  is_top top P st.1 ∧ (P ≠ [] → last_at st.1 st.2).

Lemma scan_fill ns top P best worst nm :
  distinct ns → (∀ a, a ∈ P ++ [nm] → a ∈ ns) → NoDup (P ++ [nm]) → (length best < top)%nat →
  scanned top P (best, worst) →
  scanned top (P ++ [nm]) (owns_step kh top (best, worst) nm).
Proof.
  intros Hd Hin Hnd Hlt [(Hnb & Hsub & Hlen & Hdom) Hlast]. cbn [fst snd] in *. unfold owns_step.
  destruct (Nat.ltb_spec (length best) top); [|lia].
  apply NoDup_app in Hnd as (HnP & Hdis & _).
  assert (length best = length P) as HlP by lia.
  assert (∀ p, p ∈ P → p ∈ best) as Hall.
  { assert (best ⊆+ P) as Hs by by apply NoDup_submseteq.
    assert (P ≡ₚ best) as HP by (symmetry; apply submseteq_length_Permutation; [done|lia]).
    intros p Hp. by rewrite <-HP. }
  assert (nm ∉ best) as Hnm. { intros Hb%Hsub. apply (Hdis nm Hb). left. }
  assert (is_top top (P ++ [nm]) (best ++ [nm])) as Htop.
  { split_and!.
    - apply NoDup_app. split_and!; [done| |apply NoDup_singleton]. set_solver.
    - set_solver.
    - rewrite !length_app. cbn. lia.
    - intros t u Ht [Hu|Hu]%elem_of_app Hnu; destruct Hnu; apply elem_of_app; [left; by apply Hall|by right]. }
  assert (slot_at (best ++ [nm]) (length (best ++ [nm]) - 1) = nm) as Enew.
  { apply slot_at_lookup. rewrite length_app. cbn. rewrite Nat.add_sub. apply list_lookup_middle. done. }
  destruct (decide (P = [])) as [->|HP].
  { cbn in HlP. destruct best; [|done]. cbn in *. split; [done|]. intros _. split; [cbn; lia|].
    intros b Hb%list_elem_of_singleton. done. }
  destruct (Hlast HP) as [Hw Hmin]. destruct (lookup_lt_is_Some_2 _ _ Hw) as [W HW].
  pose proof (slot_at_lookup _ _ _ HW) as EW.
  assert (slot_at (best ++ [nm]) worst = W) as EW' by (apply slot_at_lookup; by rewrite lookup_app_l).
  destruct (Nat.eqb_spec (length (best ++ [nm])) 1) as [E1|E1]; cbn [orb].
  { rewrite length_app in E1. cbn in E1. lia. }
  rewrite Enew, EW', worse_less. rewrite EW in Hmin. destruct (less kh W nm) eqn:El; split; try done; intros _.
  - split; [cbn; rewrite length_app; cbn; lia|]. cbn [fst snd]. rewrite Enew.
    intros b [Hb|Hb%list_elem_of_singleton]%elem_of_app Hbn; [|done].
    destruct (decide (b = W)) as [->|]; [done|]. eapply less_trans; [by apply Hmin|done].
  - split; [cbn; rewrite length_app; cbn; lia|]. cbn [fst snd]. rewrite EW'.
    intros b [Hb|Hb%list_elem_of_singleton]%elem_of_app HbW; [by apply Hmin|]. subst b.
    destruct (distinct_less ns nm W Hd) as [|]; try done; [apply Hin; set_solver| |congruence].
    apply Hin, elem_of_app. left. apply Hsub. by eapply list_elem_of_lookup_2.
Qed.

Lemma scan_replace ns top P best worst nm :
  distinct ns → (∀ a, a ∈ P ++ [nm] → a ∈ ns) → NoDup (P ++ [nm]) → (0 < top ≤ length best)%nat →
  scanned top P (best, worst) →
  scanned top (P ++ [nm]) (owns_step kh top (best, worst) nm).
Proof.
  intros Hd Hin Hnd Hge [(Hnb & Hsub & Hlen & Hdom) Hlast]. cbn [fst snd] in *. unfold owns_step.
  destruct (Nat.ltb_spec (length best) top); [lia|].
  apply NoDup_app in Hnd as (HnP & Hdis & _).
  assert (P ≠ []) as HP by (intros ->; cbn in Hlen; lia).
  destruct (Hlast HP) as [Hw Hmin]. destruct (lookup_lt_is_Some_2 _ _ Hw) as [W HW].
  rewrite (slot_at_lookup _ _ _ HW) in *.
  assert (W ∈ best) as HWb by by eapply list_elem_of_lookup_2.
  assert (nm ∉ best) as Hnm. { intros Hb%Hsub. apply (Hdis nm Hb). left. }
  pose proof (take_drop_middle _ _ _ HW) as EB. set (l1 := take worst best) in *. set (l2 := drop (S worst) best) in *.
  assert (<[worst := nm]> best = l1 ++ nm :: l2) as EB' by by apply insert_take_drop.
  assert (best ≡ₚ W :: l1 ++ l2) as HPb by by rewrite <-EB, Permutation_middle.
  assert (l1 ++ nm :: l2 ≡ₚ nm :: l1 ++ l2) as HPb' by by rewrite Permutation_middle.
  assert (NoDup (W :: l1 ++ l2)) as HnW by by rewrite <-HPb. apply NoDup_cons in HnW as [HWl Hnl].
  rewrite worse_less. destruct (less kh W nm) eqn:El; cbn [negb].
  - split; cbn [fst snd]; [|intros _; split; [done|by rewrite (slot_at_lookup _ _ _ HW)]]. split_and!; [done| | |].
    + intros t Ht. apply elem_of_app. left. by apply Hsub.
    + rewrite length_app. cbn. lia.
    + intros t u Ht [Hu|Hu%list_elem_of_singleton]%elem_of_app Hnu; [by apply Hdom|]. subst u.
      destruct (decide (t = W)) as [->|]; [done|]. eapply less_trans; [by apply Hmin|done].
  - assert (less kh nm W = true) as Hlt.
    { destruct (distinct_less ns nm W Hd) as [|]; try done; [apply Hin; set_solver| |congruence|congruence].
      apply Hin, elem_of_app. left. by apply Hsub. }
    rewrite EB'. split; cbn [fst snd].
    + split_and!.
      * rewrite HPb'. apply NoDup_cons. split; [|done]. intros Hl. apply Hnm. rewrite HPb. by right.
      * intros t Ht. rewrite HPb' in Ht. apply elem_of_app.
        apply elem_of_cons in Ht as [->|Ht]; [right; left|left; apply Hsub; rewrite HPb; by right].
      * rewrite HPb', length_app. rewrite HPb in Hlen, Hge. cbn in *. lia.
      * intros t u Ht Hu Hnu. rewrite HPb' in Ht, Hnu. apply not_elem_of_cons in Hnu as [Hun Hul].
        apply elem_of_app in Hu as [Hu|Hu%list_elem_of_singleton]; [|done].
        assert (less kh t W = true) as HtW.
        { apply elem_of_cons in Ht as [->|Ht]; [done|]. apply Hmin; [rewrite HPb; by right|]. intros ->. done. }
        destruct (decide (u = W)) as [->|HuW]; [done|].
        eapply less_trans; [done|]. apply Hdom; [done..|]. rewrite HPb. by apply not_elem_of_cons.
    + intros _. apply (recompute_worst_spec ns); [done| |by destruct l1].
      intros b Hb. rewrite HPb' in Hb. apply elem_of_cons in Hb as [->|Hb]; [apply Hin; set_solver|].
      apply Hin, elem_of_app. left. apply Hsub. rewrite HPb. by right.
Qed.

Lemma scan_all ns top P st rest :
  distinct ns → P ++ rest = ns → (0 < top)%nat → scanned top P st →
  is_top top ns (foldl (owns_step kh top) st rest).1.
Proof.
  intros Hd. revert P st. induction rest as [|nm rest IH]; intros P [best worst] E Htop Hs; cbn [foldl].
  { rewrite app_nil_r in E. subst P. apply Hs. }
  apply (IH (P ++ [nm])); [by rewrite <-app_assoc|done|].
  assert (∀ a, a ∈ P ++ [nm] → a ∈ ns) as Hin by (intros a Ha; rewrite <-E; set_solver).
  assert (NoDup (P ++ [nm])) as Hnd.
  { pose proof (distinct_NoDup ns Hd) as Hn. rewrite <-E in Hn.
    change (nm :: rest) with ([nm] ++ rest) in Hn. rewrite app_assoc in Hn. by apply NoDup_app in Hn as [? _]. }
  destruct (decide (length best < top)%nat); [by eapply scan_fill|eapply scan_replace; [done..|lia|done]].
Qed.

(** A sorted list of distinct nodes is determined by its elements. *)
Lemma sorted_unique ns l :
  distinct ns → l ≡ₚ ns → StronglySorted (not_after kh) l → l = merge_sort (not_after kh) ns.
Proof.
  intros Hd HP Hs. destruct (sort_props ns) as [HP' Hs'].
  apply (StronglySorted_unique_strong (not_after kh)); [|done|done|by rewrite HP'].
  intros a b Ha Hb. rewrite HP in Ha. rewrite HP' in Hb. unfold not_after. intros H1 H2.
  destruct (decide (a = b)) as [|Hab]; [done|]. destruct (distinct_less ns a b Hd Ha Hb Hab); congruence.
Qed.

Lemma sorted_filter P `{∀ x, Decision (P x)} l :
  StronglySorted (not_after kh) l → StronglySorted (not_after kh) (filter P l).
Proof.
  induction 1 as [|a l Hs IH Hf]; [constructor|]. rewrite filter_cons. case_decide; [|done].
  constructor; [done|]. rewrite !Forall_forall in *. intros x [_ Hx]%list_elem_of_filter. by apply Hf.
Qed.
End Order.

(** Filtering a prefix gives a prefix of the filtered list's prefix. *)
Lemma take_prefix_S {A} n (l : list A) : take n l `prefix_of` take (S n) l.
Proof. revert n. induction l as [|x l IH]; intros [|n]; try apply prefix_nil. apply prefix_cons, (IH n). Qed.
Lemma filter_take_prefix {A} (P : A → Prop) `{∀ x, Decision (P x)} n (l : list A) :
  filter P (take n l) `prefix_of` take n (filter P l).
Proof.
  revert n. induction l as [|x l IH]; intros [|n]; try apply prefix_nil.
  cbn [take]. rewrite !filter_cons. case_decide; cbn [take]; [apply prefix_cons, IH|].
  etrans; [apply IH|]. apply take_prefix_S.
Qed.

Lemma ownersTopN_eq r kh n l :
  ownersTopNFromKeyHash r kh n = Some l →
  0 ≤ n ∧ l = take (Z.to_nat n) (merge_sort (not_after kh) (nodes r)).
Proof.
  unfold ownersTopNFromKeyHash. set (arr := merge_sort _ _). destruct (Z.ltb_spec (Z.of_nat (length arr)) n) as [Hl|Hl].
  - destruct (Z.ltb_spec (Z.of_nat (length arr)) 0); [lia|]. intros [= <-]. split; [lia|].
    rewrite !take_ge by lia. done.
  - destruct (Z.ltb_spec n 0); [done|]. intros [= <-]. done.
Qed.
Lemma owners_topN r kh : ownersFromKeyHash r kh = ownersTopNFromKeyHash r kh (rf r).
Proof. done. Qed.

Lemma mix64_u64 x : is_u64 x → is_u64 (mix64 x).
Proof. intros Hx. unfold mix64. word. Qed.
Lemma mix64_inj x y : is_u64 x → is_u64 y → mix64 x = mix64 y → x = y.
Proof.
  intros Hx Hy E. unfold mix64 in E.
  apply xorshift_inj in E; [|lia|apply u64_range..].
  apply (mulw_inj _ 0x319642b2d24d8ec3) in E; [|vm_compute; reflexivity|word..].
  apply xorshift_inj in E; [|lia|apply u64_range..].
  apply (mulw_inj _ 0x96de1b173f119089) in E; [|vm_compute; reflexivity|word..].
  apply xorshift_inj in E; unfold is_u64 in *; lia.
Qed.

(** ** Theorems *)

(** The owners of a key are the [n] best-ranked nodes of the ring: without repetition,
    [min n |nodes|] of them, best first, every owner ranked strictly before every other node;
    the function fails (a Go panic) only on a negative [n]. *)
Theorem owners_are_the_best r kh n :
  distinct (nodes r) →
  (ownersTopNFromKeyHash r kh n = None ↔ n < 0) ∧
  ∀ l, ownersTopNFromKeyHash r kh n = Some l →
    NoDup l ∧ (∀ a, a ∈ l → a ∈ nodes r) ∧ Z.of_nat (length l) = Z.min n (Z.of_nat (length (nodes r))) ∧
    StronglySorted (λ a b, less kh a b = true) l ∧
    ∀ a b, a ∈ l → b ∈ nodes r → b ∉ l → less kh a b = true.
Proof.
  intros Hd. split.
  { unfold ownersTopNFromKeyHash. generalize (length (merge_sort (not_after kh) (nodes r))) as m. intros m.
    destruct (Z.ltb_spec (Z.of_nat m) n); [destruct (Z.ltb_spec (Z.of_nat m) 0)|destruct (Z.ltb_spec n 0)];
      split; intros; first [done|lia]. }
  intros l [Hn ->]%ownersTopN_eq. destruct (take_is_top kh (Z.to_nat n) _ Hd) as (Hnd & Hsub & Hlen & Hdom).
  split_and!; [done|done|lia| |done].
  destruct (sort_props kh (nodes r)) as [_ Hs]. rewrite <-(take_drop (Z.to_nat n)) in Hs.
  apply StronglySorted_app in Hs as (_ & Hs & _). revert Hnd Hsub Hs. clear -Hd. generalize (take (Z.to_nat n) (merge_sort (not_after kh) (nodes r))).
  induction 3 as [|a l Hs IH Hf]; [constructor|]. apply NoDup_cons in Hnd as [Hna Hnd].
  constructor; [apply IH; [done|intros t Ht; apply Hsub; by right]|]. rewrite !Forall_forall in *. intros b Hb.
  destruct (distinct_less kh (nodes r) a b Hd) as [|H2]; try done; [apply Hsub; by left|apply Hsub; by right| |].
  - intros ->. done.
  - specialize (Hf b Hb). unfold not_after in Hf. congruence.
Qed.

(** C26.  The single-pass ownership test agrees with the owner list: [ownsHash] keeps the
    [rf] best nodes in one scan without sorting, and answers that a node owns a hash exactly
    when the node is in [ownersFromKeyHash]. *)
Theorem ownsHash_iff_owner r kh self l :
  distinct (nodes r) → ownersFromKeyHash r kh = Some l →
  (ownsHash r self kh = true ↔ self ∈ ID <$> l).
Proof.
  intros Hd El. rewrite owners_topN in El. apply ownersTopN_eq in El as [Hrf ->]. unfold ownsHash.
  case_bool_decide as E0; cbn [orb]. { rewrite E0. cbn [merge_sort merge_sort_aux merge_stack list_merge]. rewrite take_nil. split; [done|]. by intros ?%elem_of_nil. }
  destruct (Z.leb_spec (rf r) 0).
  { replace (Z.to_nat (rf r)) with 0%nat by lia. cbn. split; [done|]. by intros ?%elem_of_nil. }
  assert (0 < length (nodes r))%nat by (destruct (nodes r); [done|cbn; lia]).
  set (top := Z.to_nat (Z.min _ _)). pose proof (scan_all kh (nodes r) top [] ([], 0%nat) (nodes r) Hd eq_refl) as Hs.
  destruct (foldl _ _ _) as [best w]. cbn [fst] in Hs.
  assert (is_top kh top (nodes r) best) as H1.
  { apply Hs; [lia|]. split; [|done]. split_and!; [constructor|set_solver|by cbn; lia|set_solver]. }
  assert (is_top kh top (nodes r) (take (Z.to_nat (rf r)) (merge_sort (not_after kh) (nodes r)))) as H2.
  { destruct (take_is_top kh (Z.to_nat (rf r)) _ Hd) as (?&?&?&?). split_and!; try done. lia. }
  rewrite existsb_exists, list_elem_of_fmap. setoid_rewrite bool_decide_eq_true.
  pose proof (is_top_unique kh _ _ _ _ H1 H2) as Hiff. setoid_rewrite <-Hiff.
  split; intros (a & Ha & Hb); exists a; revert Ha Hb; rewrite list_elem_of_In; intuition congruence.
Qed.

(** Every node that knows the same members computes the same owners, whatever order
    its ring lists them in. *)
Theorem owners_independent_of_ring_order r r' kh n :
  distinct (nodes r) → nodes r ≡ₚ nodes r' →
  ownersTopNFromKeyHash r kh n = ownersTopNFromKeyHash r' kh n.
Proof.
  intros Hd HP. destruct (sort_props kh (nodes r')) as [HP' Hs']. unfold ownersTopNFromKeyHash.
  rewrite (sorted_unique kh (nodes r) (merge_sort (not_after kh) (nodes r'))); [done|done|by rewrite HP', HP|done].
Qed.

(** C27.  Minimal disruption: when a node leaves, the remaining owners of every key keep
    their ranks at the front of the new owner list, and a key the node did not own keeps
    its owners unchanged. *)
Theorem node_removal_minimal_disruption r r' kh n x l l' :
  distinct (nodes r) → nodes r ≡ₚ x :: nodes r' →
  ownersTopNFromKeyHash r kh n = Some l → ownersTopNFromKeyHash r' kh n = Some l' →
  filter (λ a, a ≠ x) l `prefix_of` l' ∧ (x ∉ l → l' = l).
Proof.
  intros Hd HP [Hn ->]%ownersTopN_eq [_ ->]%ownersTopN_eq.
  assert (NoDup (x :: nodes r')) as Hnd by (rewrite <-HP; by apply distinct_NoDup).
  apply NoDup_cons in Hnd as [Hx _].
  assert (distinct (nodes r')) as Hd'.
  { unfold distinct in *. rewrite HP in Hd. by apply NoDup_cons in Hd as [_ ?]. }
  destruct (sort_props kh (nodes r)) as [HPs Hs].
  assert (merge_sort (not_after kh) (nodes r') = filter (λ a, a ≠ x) (merge_sort (not_after kh) (nodes r))) as E.
  { symmetry. apply sorted_unique; [done| |by apply sorted_filter].
    rewrite HPs, HP, filter_cons_False by auto. rewrite filter_all; [done|]. intros a Ha ->. done. }
  rewrite E. pose proof (filter_take_prefix (λ a, a ≠ x) (Z.to_nat n) (merge_sort (not_after kh) (nodes r))) as Hp.
  split; [done|]. intros Hxl. rewrite (filter_all _ (take _ _)) in Hp by (intros a Ha ->; done).
  symmetry. apply prefix_length_eq; [done|]. rewrite !length_take, <-E, !merge_sort_Permutation.
  destruct (decide (length (nodes r) ≤ Z.to_nat n)%nat); [|rewrite HP in *; cbn in *; lia].
  exfalso. apply Hxl. rewrite take_ge by (rewrite HPs; lia). rewrite HPs, HP. left.
Qed.

Section Witness.
Definition n1 := MkNode [97] [] 500000 11.
Definition n2 := MkNode [98] [] 250000 22.
Definition n3 := MkNode [99] [] 500000 33.
Definition demo_ring := MkRing [n1; n2; n3] 2.
Definition demo_ring' := MkRing [n3; n1; n2] 2.
Definition demo_left := MkRing [n1; n2] 2.

Lemma demo_distinct : distinct (nodes demo_ring).
Proof. unfold distinct. apply (bool_decide_unpack _). vm_compute. exact I. Qed.
Lemma demo_perm : nodes demo_ring ≡ₚ nodes demo_ring'.
Proof. apply (Permutation_app_comm [n1; n2] [n3]). Qed.

Lemma owners_are_the_best_witness :
  distinct (nodes demo_ring) ∧ (ownersTopNFromKeyHash demo_ring 5 2 = None ↔ 2 < 0).
Proof. split; [apply demo_distinct|]. destruct (owners_are_the_best demo_ring 5 2 demo_distinct) as [H _]. exact H. Defined.
Lemma ownsHash_iff_owner_witness :
  ∃ l, ownersFromKeyHash demo_ring 5 = Some l ∧ length l = 2%nat ∧ (ownsHash demo_ring [99] 5 = true ↔ [99] ∈ ID <$> l).
Proof.
  eexists. split; [vm_compute; reflexivity|]. split; [reflexivity|].
  apply ownsHash_iff_owner; [apply demo_distinct|vm_compute; reflexivity].
Defined.
Lemma owners_independent_of_ring_order_witness :
  ownersTopNFromKeyHash demo_ring 5 2 = ownersTopNFromKeyHash demo_ring' 5 2.
Proof. apply owners_independent_of_ring_order; [apply demo_distinct|apply demo_perm]. Defined.
Lemma node_removal_minimal_disruption_witness :
  ∃ l l', ownersTopNFromKeyHash demo_ring 5 2 = Some l ∧ ownersTopNFromKeyHash demo_left 5 2 = Some l' ∧
    filter (λ a, a ≠ n3) l `prefix_of` l'.
Proof.
  eexists _, _. split; [vm_compute; reflexivity|]. split; [vm_compute; reflexivity|].
  refine (proj1 (node_removal_minimal_disruption demo_ring demo_left 5 2 n3 _ _ demo_distinct _ _ _));
    [apply (Permutation_app_comm [n1; n2] [n3])|vm_compute; reflexivity..].
Defined.
End Witness.
End Rendezvous.
