(* ===== verification/Lease.v ===== *)
(** * Single-flight leases ([src/cluster/lease.go])

    A lease is an object that waiters hold by reference while the table maps keys to the
    current lease, so the model has a store of leases (a pointer is an index) next to the map.
    Closing a closed channel is a run-time panic in Go: it is [None] here.  The clock is an
    argument of the operations that read it; the sweeper's ticker is the event [ESweep]. *)
From Stdlib Require Import ZArith Lia.
From stdpp Require Import base numbers list gmap sets.
From S2P Require Import Prelude.
Local Open Scope Z_scope.

Module Lease.

Inductive error := ErrLeaseTimeout | OtherErr (n : Z).
#[export] Instance error_eq_dec : EqDecision error.
Proof. solve_decision. Defined.

Definition key : Type := list Z.

(** [ch] records whether the channel is closed. *)
Record inflight := MkInflight { ch : bool; err : option error; exp : Z; done_ : bool }.

Record leaseTable := MkTable { store : list inflight; m : gmap key nat; ttl : Z; stopCh : bool }.

Definition newLeaseTable (ttl : Z) : leaseTable := MkTable [] ∅ ttl false.

Definition acquire (now : Z) (t : leaseTable) (k : key) : leaseTable * (nat * bool) :=
  match m t !! k with
  | Some f => (t, (f, false))
  | None =>
      let f := length (store t) in
      let e := if 0 <? ttl t then i64 (now + ttl t) else 0 in
      (MkTable (store t ++ [MkInflight false None e false]) (<[k := f]> (m t)) (ttl t) (stopCh t), (f, true))
  end.

(** [if !f.done { f.err = err; f.done = true; close(f.ch) }]. *)
Definition finish (t : leaseTable) (f : nat) (e : option error) : option leaseTable :=
  match store t !! f with
  | None => None
  | Some fl =>
      if done_ fl then Some t
      else if ch fl then None
      else Some (MkTable (<[f := MkInflight true e (exp fl) true]> (store t)) (m t) (ttl t) (stopCh t))
  end.

Definition drop_key (t : leaseTable) (k : key) : leaseTable :=
  MkTable (store t) (delete k (m t)) (ttl t) (stopCh t).

Definition release (t : leaseTable) (k : key) (e : option error) : option leaseTable :=
  match m t !! k with
  | Some f => finish (drop_key t k) f e
  | None => Some t
  end.

(** [wait] reads the table once under the lock; [None] is the immediate [nil] result. *)
Definition wait_begin (t : leaseTable) (k : key) : option nat := m t !! k.

(** The [select] of [wait]: either the context is done or the channel is closed. *)
Inductive wait_returns (t : leaseTable) (f : nat) (ctx : option error) : option error → Prop :=
  | wait_ctx e : ctx = Some e → wait_returns t f ctx (Some e)
  | wait_ch fl : store t !! f = Some fl → ch fl = true → wait_returns t f ctx (err fl).

Definition sweep_visit (now : Z) (ot : option leaseTable) (kf : key * nat) : option leaseTable :=
  t ← ot;
  match store t !! kf.2 with
  | None => None
  | Some fl =>
      if (0 <? exp fl) && (exp fl <=? now) then finish (drop_key t kf.1) kf.2 (Some ErrLeaseTimeout)
      else Some t
  end.

(** One tick of [sweeper]; [o] is the iteration order of the map. *)
Definition sweep (o : rangeOrder) (now : Z) (t : leaseTable) : option leaseTable :=
  foldl (sweep_visit now) (Some t) (range o (map_to_list (m t))).

(** [sweeper]'s period. *)
Definition sweep_period (ttl : Z) : Z :=
  let period := Z.quot ttl 2 in if period <=? 0 then 10 * 1000000 else period.

Definition Stop (t : leaseTable) : leaseTable := MkTable (store t) (m t) (ttl t) true.

(** ** Sequences of operations: each holds the table's mutex

    A tick that is pending when [Stop] is called may still be chosen by the sweeper's
    [select], so a sweep may follow a stop. *)
Inductive event :=
  | EAcquire (now : Z) (k : key)
  | ERelease (k : key) (e : option error)
  | ESweep (o : rangeOrder) (now : Z)
  | EStop.

Definition step (t : leaseTable) (ev : event) : option leaseTable :=
  match ev with
  | EAcquire now k => Some (acquire now t k).1
  | ERelease k e => release t k e
  | ESweep o now => if 0 <? ttl t then sweep o now t else Some t
  | EStop => Some (Stop t)
  end.

Fixpoint run (t : leaseTable) (evs : list event) : option leaseTable :=
  match evs with
  | [] => Some t
  | ev :: evs => t ← step t ev; run t evs
  end.

(** ** Invariant: a lease is open exactly while one key maps to it *)
Record inv (t : leaseTable) : Prop := {
  inv_dom k f : m t !! k = Some f → (f < length (store t))%nat;
  inv_inj k k' f : m t !! k = Some f → m t !! k' = Some f → k = k';
  inv_done f fl : store t !! f = Some fl → done_ fl = ch fl;
  inv_open f fl : store t !! f = Some fl → ch fl = false ↔ ∃ k, m t !! k = Some f;
}.

Lemma and_iff_compat_l' (A B C : Prop) : (A → (B ↔ C)) → (A ∧ B ↔ A ∧ C).
Proof. tauto. Qed.

Lemma lease_inv_new l : inv (newLeaseTable l).
Proof. split; cbn; intros *; rewrite ?lookup_empty, ?lookup_nil; done. Qed.

Lemma inv_acquire now t k : inv t → inv (acquire now t k).1.
Proof.
  intros [Hd Hi Hc Ho]. unfold acquire. destruct (m t !! k) as [f|] eqn:E; [by split|].
  set (fl0 := MkInflight _ _ _ _). set (n := length (store t)).
  assert (∀ k' f, m t !! k' = Some f → f ≠ n) as Hne by (intros k' f Hf; apply Hd in Hf; unfold n; lia).
  split; cbn [fst store m].
  - intros k' f. rewrite length_app. cbn. intros [[-> <-]|[? Hf]]%lookup_insert_Some; [lia|]. apply Hd in Hf. lia.
  - intros k1 k2 f. rewrite !lookup_insert_Some. intros [[<- <-]|[? H1]] [[<- E2]|[? H2]]; try done.
    + by destruct (Hne _ _ H2).
    + subst. by destruct (Hne _ _ H1).
    + by eapply Hi.
  - intros f fl [?|[_ Hf]]%lookup_app_Some; [by eapply Hc|].
    apply list_elem_of_lookup_2, list_elem_of_singleton in Hf as ->. done.
  - intros f fl. rewrite lookup_app_Some. intros [Hf|[Hge Hf]].
    + rewrite (Ho _ _ Hf). apply lookup_lt_Some in Hf. setoid_rewrite lookup_insert_Some. unfold n. naive_solver lia.
    + destruct (f - length (store t))%nat eqn:Ef; cbn in Hf; [|done]. simplify_eq. split; [|done]. intros _.
      exists k. rewrite lookup_insert_Some. left. split; [done|]. unfold n. lia.
Qed.

(** Ending the lease a key maps to. *)
Lemma finish_spec t k f e :
  inv t → m t !! k = Some f →
  ∃ fl, store t !! f = Some fl ∧ ch fl = false ∧
    finish (drop_key t k) f e =
      Some (MkTable (<[f := MkInflight true e (exp fl) true]> (store t)) (delete k (m t)) (ttl t) (stopCh t)).
Proof.
  intros [Hd Hi Hc Ho] Hk. destruct (lookup_lt_is_Some_2 (store t) f) as [fl Hf]; [by eapply Hd|].
  assert (ch fl = false) as Ech by (apply (Ho f fl Hf); by exists k).
  exists fl. split_and!; [done..|]. unfold finish. cbn [drop_key store m ttl stopCh].
  by rewrite Hf, (Hc _ _ Hf), Ech.
Qed.

Lemma inv_finish t t' k f e :
  inv t → m t !! k = Some f → finish (drop_key t k) f e = Some t' → inv t'.
Proof.
  intros Hinv Hk. destruct (finish_spec t k f e Hinv Hk) as (fl & Hf & Ech & ->). intros [= <-].
  destruct Hinv as [Hd Hi Hc Ho]. pose proof (lookup_lt_Some _ _ _ Hf) as Hlt. split; cbn.
  - intros k' f'. rewrite length_insert. intros [_ ?]%lookup_delete_Some. by eapply Hd.
  - intros k1 k2 f' [_ ?]%lookup_delete_Some [_ ?]%lookup_delete_Some. by eapply Hi.
  - intros f' fl' [(_ & <- & _)|[_ ?]]%list_lookup_insert_Some; [done|by eapply Hc].
  - intros f' fl' [(-> & <- & _)|[Hne Hf']]%list_lookup_insert_Some.
    + split; [done|]. intros (k' & [Hne Hk']%lookup_delete_Some). destruct Hne. by eapply Hi.
    + rewrite (Ho _ _ Hf'). setoid_rewrite lookup_delete_Some. split; [|naive_solver].
      intros (k' & Hk'). exists k'. split; [|done]. intros ->. congruence.
Qed.

(** Which lease is stored under which key, and its state. *)
Definition due (now : Z) (fl : inflight) : bool := (0 <? exp fl) && (exp fl <=? now).
Definition lease_of (t : leaseTable) (k : key) : option inflight := f ← m t !! k; store t !! f.

(** The loop of a sweep: no panic, the due leases end with a timeout and the others stay. *)
Lemma sweep_loop now l t :
  inv t → NoDup l.*1 → (∀ k f, (k, f) ∈ l → m t !! k = Some f) →
  ∃ t', foldl (sweep_visit now) (Some t) l = Some t' ∧ inv t' ∧ ttl t' = ttl t ∧ length (store t') = length (store t) ∧
    (∀ k f, m t' !! k = Some f ↔
       m t !! k = Some f ∧ ¬ ((k, f) ∈ l ∧ ∃ fl, store t !! f = Some fl ∧ due now fl = true)) ∧
    (∀ f fl, store t !! f = Some fl → store t' !! f = Some fl ∨
       (store t' !! f = Some (MkInflight true (Some ErrLeaseTimeout) (exp fl) true) ∧ due now fl = true ∧ ch fl = false)).
Proof.
  revert t. induction l as [|[k f] l IH]; intros t Hinv Hnd Hin; cbn [foldl].
  { exists t. split_and!; [done..| |auto]. intros. set_solver. }
  cbn in Hnd. apply NoDup_cons in Hnd as [Hkl Hnd].
  assert (m t !! k = Some f) as Hk by (apply Hin; left).
  destruct (finish_spec t k f (Some ErrLeaseTimeout) Hinv Hk) as (fl & Hf & Ech & Efin).
  cbn [sweep_visit mbind option_bind fst snd]. rewrite Hf. fold (due now fl). destruct (due now fl) eqn:Edue.
  - rewrite Efin. pose proof (inv_finish _ _ _ _ _ Hinv Hk Efin) as Hinv'. set (t1 := MkTable _ _ _ _) in *.
    assert (∀ k', k' ≠ k → m t1 !! k' = m t !! k') as Hm by (intros k' Hne; cbn; by rewrite lookup_delete_ne).
    assert (∀ f', f' ≠ f → store t1 !! f' = store t !! f') as Hs by (intros f' Hne; cbn; by rewrite list_lookup_insert_ne).
    assert (∀ k' f', (k', f') ∈ l → k' ≠ k) as Hne.
    { intros k' f' Hl ->. apply Hkl. apply list_elem_of_fmap. by exists (k, f'). }
    destruct (IH t1) as (t' & Er & Hi' & Ht & Hlen & Hm' & Hs'); [done..| |].
    { intros k' f' Hl. rewrite Hm by by eapply Hne. apply Hin. by right. }
    exists t'. split_and!; [done|done|by rewrite Ht|by rewrite Hlen; cbn; rewrite length_insert| |].
    + intros k' f'. rewrite Hm'. destruct (decide (k' = k)) as [->|Hkk].
      * cbn [m t1]. rewrite lookup_delete_eq. split; [naive_solver|]. intros [E Hno]. rewrite Hk in E. injection E as <-.
        destruct Hno. split; [left|eauto].
      * rewrite Hm by done. apply and_iff_compat_l'. intros Hk'.
        assert (f' ≠ f) as Hff by (intros ->; apply Hkk; by eapply (inv_inj t Hinv)).
        rewrite Hs by done. rewrite elem_of_cons. naive_solver.
    + intros f' fl' Hf'. destruct (decide (f' = f)) as [->|Hff].
      * rewrite Hf in Hf'. injection Hf' as <-. right. split; [|done].
        destruct (Hs' f (MkInflight true (Some ErrLeaseTimeout) (exp fl) true)) as [?|(_ & _ & ?)]; [|done|done].
        cbn. rewrite list_lookup_insert_eq; [done|by eapply lookup_lt_Some].
      * destruct (Hs' f' fl') as [?|?]; [by rewrite Hs|by left|by right].
  - destruct (IH t) as (t' & Er & Hi' & Ht & Hlen & Hm' & Hs'); [done..| |].
    { intros k' f' Hl. apply Hin. by right. }
    exists t'. split_and!; [done..| |done]. intros k' f'. rewrite Hm'. apply and_iff_compat_l'. intros Hk'.
    rewrite elem_of_cons. split; [|naive_solver]. intros Hno [[[= -> ->]|?] (fl' & Hf' & Hdue)]; [congruence|]. apply Hno. eauto.
Qed.

Lemma sweep_spec o now t :
  inv t →
  ∃ t', sweep o now t = Some t' ∧ inv t' ∧ ttl t' = ttl t ∧ length (store t') = length (store t) ∧
    (∀ k f, m t' !! k = Some f ↔ m t !! k = Some f ∧ ¬ ∃ fl, store t !! f = Some fl ∧ due now fl = true) ∧
    (∀ f fl, store t !! f = Some fl → store t' !! f = Some fl ∨
       (store t' !! f = Some (MkInflight true (Some ErrLeaseTimeout) (exp fl) true) ∧ due now fl = true ∧ ch fl = false)).
Proof.
  intros Hinv. unfold sweep. destruct (sweep_loop now (range o (map_to_list (m t))) t) as (t' & Er & Hi & Ht & Hl & Hm & Hs).
  - done.
  - rewrite range_perm. apply NoDup_fst_map_to_list.
  - intros k f. by rewrite elem_of_range, elem_of_map_to_list.
  - exists t'. split_and!; try done. intros k f. rewrite Hm. apply and_iff_compat_l'. intros Hk.
    rewrite elem_of_range, elem_of_map_to_list. tauto.
Qed.

(** Every operation runs without a panic and keeps the invariant and the results of ended leases. *)
Lemma step_spec t ev :
  inv t →
  ∃ t', step t ev = Some t' ∧ inv t' ∧ ttl t' = ttl t ∧
    ∀ f fl, store t !! f = Some fl → ch fl = true → store t' !! f = Some fl.
Proof.
  intros Hinv. destruct ev as [now k|k e|o now|]; cbn [step].
  - eexists. split_and!; [done|by apply inv_acquire|unfold acquire; by case_match|].
    intros f fl Hf _. unfold acquire. case_match; [done|]. cbn. by apply lookup_app_l_Some.
  - unfold release. destruct (m t !! k) as [f|] eqn:Hk; [|by exists t].
    destruct (finish_spec t k f e Hinv Hk) as (fl & Hf & Ech & Efin). eexists. split_and!; [done| |done|].
    + by eapply inv_finish.
    + intros f' fl' Hf' Hch. cbn. rewrite list_lookup_insert_ne; [done|]. intros ->. congruence.
  - case_match; [|by exists t]. destruct (sweep_spec o now t Hinv) as (t' & -> & ? & ? & _ & _ & Hs).
    exists t'. split_and!; try done. intros f fl Hf Hch. destruct (Hs f fl Hf) as [?|(_ & _ & ?)]; [done|congruence].
  - eexists. split_and!; [done| |done|done]. destruct Hinv. by split.
Qed.

Lemma run_spec t evs :
  inv t →
  ∃ t', run t evs = Some t' ∧ inv t' ∧ ttl t' = ttl t ∧
    ∀ f fl, store t !! f = Some fl → ch fl = true → store t' !! f = Some fl.
Proof.
  revert t. induction evs as [|ev evs IH]; intros t Hinv; cbn [run]; [by exists t|].
  destruct (step_spec t ev Hinv) as (t1 & -> & Hi1 & Ht1 & Hs1). cbn [mbind option_bind].
  destruct (IH t1 Hi1) as (t2 & -> & Hi2 & Ht2 & Hs2). exists t2. split_and!; [done..|congruence|]. eauto.
Qed.

(** Events that can end the lease of [k] that expires at [x]. *)
Definition ends (k : key) (x : Z) (ev : event) : bool :=
  match ev with
  | ERelease k' _ => bool_decide (k' = k)
  | ESweep _ now => (0 <? x) && (x <=? now)
  | _ => false
  end.

Lemma step_held t t' ev k f fl :
  inv t → m t !! k = Some f → store t !! f = Some fl → ends k (exp fl) ev = false → step t ev = Some t' →
  m t' !! k = Some f ∧ store t' !! f = Some fl.
Proof.
  intros Hinv Hk Hf He. destruct ev as [now k'|k' e|o now|]; cbn [step ends] in *.
  - intros [= <-]. unfold acquire. case_match eqn:E; [done|]. cbn. split; [|by apply lookup_app_l_Some].
    rewrite lookup_insert_ne; [done|]. congruence.
  - apply bool_decide_eq_false in He. unfold release. destruct (m t !! k') as [f'|] eqn:Hk'; [|by intros [= <-]].
    destruct (finish_spec t k' f' e Hinv Hk') as (fl' & Hf' & _ & ->). intros [= <-]. cbn.
    rewrite lookup_delete_ne by done. split; [done|]. rewrite list_lookup_insert_ne; [done|].
    intros ->. apply He. by eapply (inv_inj t Hinv).
  - case_match; [|by intros [= <-]]. destruct (sweep_spec o now t Hinv) as (t1 & -> & _ & _ & _ & Hm & Hs).
    intros [= <-]. fold (due now fl) in He. split.
    + apply Hm. split; [done|]. intros (fl' & Hf' & Hd). congruence.
    + destruct (Hs f fl Hf) as [?|(_ & ? & _)]; [done|congruence].
  - by intros [= <-].
Qed.

Lemma run_held t t' evs k f fl :
  inv t → m t !! k = Some f → store t !! f = Some fl → forallb (λ ev, negb (ends k (exp fl) ev)) evs = true →
  run t evs = Some t' → m t' !! k = Some f ∧ store t' !! f = Some fl.
Proof.
  revert t. induction evs as [|ev evs IH]; intros t Hinv Hk Hf He; cbn [run]; [by intros [= <-]|].
  cbn [forallb] in He. apply andb_true_iff in He as [He1 He2]. apply negb_true_iff in He1.
  destruct (step_spec t ev Hinv) as (t1 & E1 & Hi1 & _ & _). rewrite E1. cbn [mbind option_bind].
  destruct (step_held t t1 ev k f fl Hinv Hk Hf He1 E1) as [Hk1 Hf1]. by apply IH.
Qed.

Definition reachable (t : leaseTable) : Prop := ∃ l evs, run (newLeaseTable l) evs = Some t.
Lemma reachable_inv t : reachable t → inv t.
Proof.
  intros (l & evs & E). destruct (run_spec (newLeaseTable l) evs (lease_inv_new l)) as (t' & E' & ? & _). congruence.
Qed.

(** ** Theorems *)

(** No sequence of acquisitions, releases, sweeps and stops closes a channel twice, and
    after any of them a lease is open exactly while some key maps to it, by one key only:
    no waiter is left on a lease nobody can end. *)
Theorem lease_channels_closed_once l evs :
  ∃ t, run (newLeaseTable l) evs = Some t ∧
    ∀ f fl, store t !! f = Some fl →
      done_ fl = ch fl ∧ (ch fl = false ↔ ∃ k, m t !! k = Some f ∧ ∀ k', m t !! k' = Some f → k' = k).
Proof.
  destruct (run_spec (newLeaseTable l) evs (lease_inv_new l)) as (t & E & Hinv & _). exists t. split; [done|].
  intros f fl Hf. split; [by eapply inv_done|]. rewrite (inv_open t Hinv f fl Hf). split; [|naive_solver].
  intros (k & Hk). exists k. split; [done|]. intros k' Hk'. by eapply inv_inj.
Qed.

(** Single flight: the caller that acquires a key is the only holder until the key is
    released or a sweep runs at or after the lease's expiry; every [acquire] in between
    returns the same lease and [false], and no waiter on it is woken. *)
Theorem lease_single_flight t t1 t2 now now' k f evs :
  reachable t → acquire now t k = (t1, (f, true)) →
  forallb (λ ev, negb (ends k (if 0 <? ttl t then i64 (now + ttl t) else 0) ev)) evs = true →
  run t1 evs = Some t2 →
  acquire now' t2 k = (t2, (f, false)) ∧ ∀ r, ¬ wait_returns t2 f None r.
Proof.
  intros Hr Ha He Hrun. apply reachable_inv in Hr. pose proof (inv_acquire now t k Hr) as Hi1. rewrite Ha in Hi1. cbn in Hi1.
  unfold acquire in Ha. destruct (m t !! k) eqn:Ek; [done|]. injection Ha as <- <-.
  set (fl := MkInflight false None _ false) in *.
  destruct (run_held _ t2 evs k (length (store t)) fl Hi1) as [Hk Hf]; cbn [m store]; [..|done|done|].
  - by rewrite lookup_insert_eq.
  - apply list_lookup_middle. done.
  - split; [unfold acquire; by rewrite Hk|]. intros r Hw. inversion Hw as [|fl2 Hf2 Hc]; [done|]. rewrite Hf in Hf2. by injection Hf2 as <-.
Qed.

(** Ending a lease wakes all its waiters with one result: after [release] with error [e]
    every waiter that holds the lease, whenever it looks and whatever happened since, gets
    exactly [e]. *)
Theorem release_reaches_all_waiters t t1 t2 k f e evs r :
  reachable t → wait_begin t k = Some f → release t k e = Some t1 → run t1 evs = Some t2 →
  wait_returns t2 f None r ↔ r = e.
Proof.
  intros Hr Hk Hrel Hrun. apply reachable_inv in Hr. unfold wait_begin in Hk. unfold release in Hrel. rewrite Hk in Hrel.
  pose proof (inv_finish _ _ _ _ _ Hr Hk Hrel) as Hi1.
  destruct (finish_spec t k f e Hr Hk) as (fl & Hf & _ & Efin). rewrite Efin in Hrel. injection Hrel as <-.
  destruct (run_spec _ evs Hi1) as (t' & E' & _ & _ & Hs). rewrite Hrun in E'. injection E' as <-.
  assert (store t2 !! f = Some (MkInflight true e (exp fl) true)) as Hf2.
  { apply Hs; [|done]. cbn. rewrite list_lookup_insert_eq; [done|by eapply lookup_lt_Some]. }
  split; [|intros ->; by apply (wait_ch t2 f None _ Hf2)]. intros Hw. inversion Hw as [|fl2 Hf3 _]; [done|]. rewrite Hf2 in Hf3. by injection Hf3 as <-.
Qed.

(** The release of a holder whose lease has timed out ends the lease of the next holder: the
    second caller still works under lease 1 when the first one, whose lease 0 was swept,
    releases the key; its waiters wake with success and a third caller acquires the key too. *)
Theorem late_release_ends_another_lease :
  ∃ t t', run (newLeaseTable 10) [EAcquire 0 [1]; ESweep inOrder 20; EAcquire 21 [1]] = Some t ∧
    wait_begin t [1] = Some 1%nat ∧
    release t [1] None = Some t' ∧
    wait_returns t' 1 None None ∧
    (acquire 22 t' [1]).2 = (2%nat, true).
Proof.
  eexists _, _. split; [vm_compute; reflexivity|]. split; [vm_compute; reflexivity|].
  split; [vm_compute; reflexivity|]. split; [by eapply (wait_ch _ 1 None (MkInflight true None 31 true))|].
  vm_compute. reflexivity.
Qed.

Lemma lease_single_flight_witness :
  ∃ t1 t2, acquire 5 (newLeaseTable 10) [1] = (t1, (0%nat, true)) ∧
    run t1 [EAcquire 6 [2]; ERelease [2] None; ESweep inOrder 14] = Some t2 ∧
    acquire 14 t2 [1] = (t2, (0%nat, false)).
Proof.
  eexists _, _. split; [vm_compute; reflexivity|]. split; [vm_compute; reflexivity|].
  refine (proj1 (lease_single_flight (newLeaseTable 10) _ _ 5 14 [1] 0 [EAcquire 6 [2]; ERelease [2] None; ESweep inOrder 14] _ _ _ _)).
  - exists 10, []. reflexivity.
  - vm_compute; reflexivity.
  - vm_compute; reflexivity.
  - vm_compute; reflexivity.
Defined.

Lemma release_reaches_all_waiters_witness :
  ∃ t t1 t2, run (newLeaseTable 10) [EAcquire 0 [1]] = Some t ∧ release t [1] (Some (OtherErr 3)) = Some t1 ∧
    run t1 [EAcquire 3 [1]] = Some t2 ∧ wait_returns t2 0 None (Some (OtherErr 3)).
Proof.
  eexists _, _, _. split; [vm_compute; reflexivity|]. split; [vm_compute; reflexivity|]. split; [vm_compute; reflexivity|].
  eapply (release_reaches_all_waiters _ _ _ [1] 0 (Some (OtherErr 3)) [EAcquire 3 [1]]); [| | | |reflexivity].
  - exists 10, [EAcquire 0 [1]]. vm_compute. reflexivity.
  - vm_compute; reflexivity.
  - vm_compute; reflexivity.
  - vm_compute; reflexivity.
Defined.
End Lease.
