(* ===== verification/KeyCodec.v ===== *)
(** * Key and value codecs ([src/cluster/keycodec.go], [src/cluster/codec.go])

    The interface [KeyCodec] is a class of operations; [KeyCodecLaws] is what the cluster
    relies on when it ships a key as bytes and hashes it on every node.  [xxhash.Sum64] is the
    parameter [sum64]; CBOR values are a third-party encoding and are not modelled. *)
From Stdlib Require Import ZArith Lia.
From stdpp Require Import base numbers list.
From S2P Require Import Prelude Rendezvous.
Local Open Scope Z_scope.

Module KeyCodec.
Import Rendezvous.

Definition bytes : Type := list Z.
Definition is_bytes (b : bytes) : Prop := Forall (λ x, 0 ≤ x < 256) b.

Inductive decodeError := ErrInt64Length | ErrUint64Length.

Class KeyCodec (K : Type) := {
  EncodeKey : K → bytes;
  DecodeKey : bytes → K + decodeError;
  Hash64 : K → Z }.

(** [binary.BigEndian]. *)
Definition putUint64 (v : Z) : bytes := (λ i, u8 (Z.shiftr v (56 - 8 * Z.of_nat i))) <$> seq 0 8.
Definition uint64_be (b : bytes) : Z := foldl (λ acc x, Z.lor (Z.shiftl acc 8) x) 0 b.

Section Codecs.
Context (sum64 : bytes → Z).

(** Go strings and byte slices are byte sequences; the conversions between them copy. *)
Definition StringKeyCodec : KeyCodec bytes :=
  {| EncodeKey k := k; DecodeKey b := inl b; Hash64 k := sum64 k |}.
Definition BytesKeyCodec : KeyCodec bytes :=
  {| EncodeKey k := k; DecodeKey b := inl ([] ++ b); Hash64 k := sum64 k |}.
End Codecs.

Definition Int64KeyCodec : KeyCodec Z :=
  {| EncodeKey k := putUint64 (u64 k);
     DecodeKey b := if (length b =? 8)%nat then inl (i64 (uint64_be b)) else inr ErrInt64Length;
     Hash64 k := mix64 (u64 k) |}.
Definition Uint64KeyCodec : KeyCodec Z :=
  {| EncodeKey k := putUint64 (u64 k);
     DecodeKey b := if (length b =? 8)%nat then inl (uint64_be b) else inr ErrUint64Length;
     Hash64 k := mix64 (u64 k) |}.

(** [BytesCodec], the pass-through value codec. *)
Definition bytes_encode (v : bytes) : bytes := v.
Definition bytes_decode (b : bytes) : bytes := [] ++ b.

(** What the cluster relies on, for the keys [dom] of the Go type. *)
Class KeyCodecLaws {K} (C : KeyCodec K) (dom : K → Prop) : Prop := {
  decode_encode k : dom k → DecodeKey (EncodeKey k) = inl k;
  encode_is_bytes k : dom k → is_bytes (EncodeKey k);
  encode_decode b k : is_bytes b → DecodeKey b = inl k → dom k ∧ EncodeKey k = b }.

(** ** Big-endian words *)
Lemma lor_byte a x : 0 ≤ x < 256 → Z.lor (Z.shiftl a 8) x = a * 256 + x.
Proof. intros Hx. by rewrite lor_add. Qed.

Lemma be_snoc b x : uint64_be (b ++ [x]) = Z.lor (Z.shiftl (uint64_be b) 8) x.
Proof. unfold uint64_be. by rewrite foldl_app. Qed.

Lemma be_range b : is_bytes b → 0 ≤ uint64_be b < 256 ^ Z.of_nat (length b).
Proof.
  induction b as [|x b IH] using rev_ind; intros Hb; [cbn; lia|]. apply Forall_app in Hb as [Hb Hx].
  inversion Hx; subst. specialize (IH Hb). rewrite be_snoc, lor_byte, length_app by lia. cbn [length].
  rewrite Nat2Z.inj_add, Z.pow_add_r by lia. change (256 ^ Z.of_nat 1) with 256. nia.
Qed.

Lemma be_inj b b' : is_bytes b → is_bytes b' → length b = length b' → uint64_be b = uint64_be b' → b = b'.
Proof.
  revert b'. induction b as [|x b IH] using rev_ind; intros b' Hb Hb' Hl E.
  { by destruct b'. }
  destruct b' as [|y b' _] using rev_ind; [rewrite length_app in Hl; cbn in Hl; lia|].
  rewrite !length_app in Hl. cbn in Hl. apply Forall_app in Hb as [Hb Hx]. apply Forall_app in Hb' as [Hb' Hy].
  inversion Hx; inversion Hy; subst. pose proof (be_range b Hb). pose proof (be_range b' Hb').
  rewrite !be_snoc, !lor_byte in E by lia.
  assert (x = y) as -> by lia. rewrite (IH b'); [done|done|done|lia|lia].
Qed.

Lemma put_length v : length (putUint64 v) = 8%nat.
Proof. done. Qed.
Lemma put_bytes v : is_bytes (putUint64 v).
Proof.
  apply Forall_fmap, Forall_forall. intros i _. unfold compose, u8. apply Z.mod_pos_bound. lia.
Qed.
Lemma be_put v : is_u64 v → uint64_be (putUint64 v) = v.
Proof.
  intros Hv. unfold putUint64, uint64_be. cbn [seq fmap list_fmap foldl]. 
  assert (∀ n, 0 ≤ n → Z.shiftr v n = Z.shiftr v (n + 8) * 256 + u8 (Z.shiftr v n)) as Hstep.
  { intros n Hn. rewrite <-Z.shiftr_shiftr by lia. rewrite (Z.shiftr_div_pow2 (Z.shiftr v n) 8) by lia.
    unfold u8. change (2 ^ 8) with 256. pose proof (Z.div_mod (Z.shiftr v n) 256). lia. }
  assert (∀ n n', n' = n + 8 ∧ 0 ≤ n → Z.lor (Z.shiftl (Z.shiftr v n') 8) (u8 (Z.shiftr v n)) = Z.shiftr v n) as Hl.
  { intros n n' [-> Hn]. rewrite lor_byte; [symmetry; by apply Hstep|].
    unfold u8. apply Z.mod_pos_bound. lia. }
  assert (Z.lor (Z.shiftl 0 8) (u8 (Z.shiftr v (56 - 8 * Z.of_nat 0))) = Z.shiftr v 56) as ->.
  { rewrite <-(Hl 56 64) by lia. f_equal. f_equal. cbn. symmetry. rewrite Z.shiftr_div_pow2 by lia.
    apply Z.div_small. unfold is_u64 in Hv. cbn. lia. }
  change (56 - 8 * Z.of_nat 1) with 48. change (56 - 8 * Z.of_nat 2) with 40. change (56 - 8 * Z.of_nat 3) with 32.
  change (56 - 8 * Z.of_nat 4) with 24. change (56 - 8 * Z.of_nat 5) with 16. change (56 - 8 * Z.of_nat 6) with 8.
  change (56 - 8 * Z.of_nat 7) with 0.
  rewrite (Hl 48 56), (Hl 40 48), (Hl 32 40), (Hl 24 32), (Hl 16 24), (Hl 8 16), (Hl 0 8) by lia.
  apply Z.shiftr_0_r.
Qed.

Lemma be_u64 b : is_bytes b → length b = 8%nat → is_u64 (uint64_be b).
Proof. intros Hb Hl. pose proof (be_range b Hb) as H. rewrite Hl in H. exact H. Qed.

(** ** The instances *)
#[export] Instance StringKeyCodec_laws sum64 : KeyCodecLaws (StringKeyCodec sum64) is_bytes.
Proof. split; cbn; [done|done|]. by intros b k Hb [= <-]. Qed.
#[export] Instance BytesKeyCodec_laws sum64 : KeyCodecLaws (BytesKeyCodec sum64) is_bytes.
Proof. split; cbn; [done|done|]. by intros b k Hb [= <-]. Qed.
#[export] Instance Uint64KeyCodec_laws : KeyCodecLaws Uint64KeyCodec is_u64.
Proof.
  split; cbn [EncodeKey DecodeKey Uint64KeyCodec].
  - intros k Hk. rewrite put_length. cbn [Nat.eqb]. by rewrite be_put, u64_id by word.
  - intros k _. apply put_bytes.
  - intros b k Hb. destruct (Nat.eqb_spec (length b) 8) as [Hl|]; [|done]. intros [= <-].
    pose proof (be_u64 b Hb Hl) as Hu. split; [done|]. rewrite u64_id by done.
    apply be_inj; [apply put_bytes|done|by rewrite put_length|by apply be_put].
Qed.
#[export] Instance Int64KeyCodec_laws : KeyCodecLaws Int64KeyCodec is_i64.
Proof.
  split; cbn [EncodeKey DecodeKey Int64KeyCodec].
  - intros k Hk. rewrite put_length. cbn [Nat.eqb]. rewrite be_put by word. f_equal.
    apply u64_i64_inj; [word|done|]. by rewrite u64_i64, (u64_id (u64 k)) by word.
  - intros k _. apply put_bytes.
  - intros b k Hb. destruct (Nat.eqb_spec (length b) 8) as [Hl|]; [|done]. intros [= <-].
    pose proof (be_u64 b Hb Hl) as Hu. split; [word|]. rewrite u64_i64, u64_id by done.
    apply be_inj; [apply put_bytes|done|by rewrite put_length|by apply be_put].
Qed.

(** Against the interface: distinct keys have distinct encodings. *)
Lemma encode_inj {K} (C : KeyCodec K) dom `{!KeyCodecLaws C dom} k k' :
  dom k → dom k' → EncodeKey k = EncodeKey k' → k = k'.
Proof.
  intros Hk Hk' E. pose proof (decode_encode k Hk) as H1. rewrite E, (decode_encode k' Hk') in H1. congruence.
Qed.

(** The integer codecs are exact: encoding and decoding are inverse in both directions,
    distinct keys have distinct encodings and distinct placement hashes, and decoding fails
    exactly on byte strings that are not eight bytes long. *)
Theorem int_keycodec_exact :
  (∀ k, is_i64 k → DecodeKey (KeyCodec := Int64KeyCodec) (EncodeKey (KeyCodec := Int64KeyCodec) k) = inl k) ∧
  (∀ b k, is_bytes b → DecodeKey (KeyCodec := Int64KeyCodec) b = inl k → is_i64 k ∧ EncodeKey (KeyCodec := Int64KeyCodec) k = b) ∧
  (∀ b, DecodeKey (KeyCodec := Int64KeyCodec) b = inr ErrInt64Length ↔ length b ≠ 8%nat) ∧
  (∀ k k', is_i64 k → is_i64 k' → EncodeKey (KeyCodec := Int64KeyCodec) k = EncodeKey (KeyCodec := Int64KeyCodec) k' → k = k') ∧
  (∀ k k', is_i64 k → is_i64 k' → Hash64 (KeyCodec := Int64KeyCodec) k = Hash64 (KeyCodec := Int64KeyCodec) k' → k = k') ∧
  (∀ k, is_u64 k → DecodeKey (KeyCodec := Uint64KeyCodec) (EncodeKey (KeyCodec := Uint64KeyCodec) k) = inl k) ∧
  (∀ b k, is_bytes b → DecodeKey (KeyCodec := Uint64KeyCodec) b = inl k → is_u64 k ∧ EncodeKey (KeyCodec := Uint64KeyCodec) k = b) ∧
  (∀ b, DecodeKey (KeyCodec := Uint64KeyCodec) b = inr ErrUint64Length ↔ length b ≠ 8%nat) ∧
  (∀ k k', is_u64 k → is_u64 k' → Hash64 (KeyCodec := Uint64KeyCodec) k = Hash64 (KeyCodec := Uint64KeyCodec) k' → k = k').
Proof.
  assert (∀ b n (e : decodeError) (r : Z), (if (length b =? n)%nat then inl r else inr e : Z + decodeError) = inr e ↔ length (b : bytes) ≠ n) as Hlen.
  { intros. destruct (Nat.eqb_spec (length b) n); naive_solver. }
  split_and!; try (apply Int64KeyCodec_laws || apply Uint64KeyCodec_laws); try (intros; apply Hlen).
  - intros k k' Hk Hk'. by apply (encode_inj Int64KeyCodec is_i64).
  - intros k k' Hk Hk' E%mix64_inj; [by apply u64_i64_inj|word..].
  - intros k k' Hk Hk' E%mix64_inj; [|word..]. by rewrite !u64_id in E.
Qed.
End KeyCodec.
