(* ===== verification/Membership.v ===== *)
(** * Cluster membership ([src/cluster/membership.go]) and the request limiter ([src/cluster/limiter.go])

    The peers of a membership are shared objects: gossip updates their addresses and weights
    in place while rings hold references to them.  The model keeps the objects in a store and
    the map from ids to references.  The clock is an argument; each operation is one
    critical section of the membership's lock. *)
From Stdlib Require Import ZArith Lia.
From stdpp Require Import base numbers list gmap sets.
From S2P Require Import Prelude Rendezvous.
Local Open Scope Z_scope.

Module Membership.
Import Rendezvous.

Record membership := MkMembership {
  metas : list nodeMeta;
  peers : gmap NodeID nat;
  seen : gmap NodeID Z;
  epoch : Z }.

Definition newMembership : membership := MkMembership [] ∅ ∅ 0.

Record PeerInfo := MkPeer { pID : NodeID; pAddr : list Z }.

Definition deref (m : membership) (p : nat) : nodeMeta := default (MkNode [] [] 0 0) (metas m !! p).

Section Ops.
Context (sum64 : list Z → Z).

(** [m.peers[id] = newMeta(id, addr)]. *)
Definition add_peer (m : membership) (id : NodeID) (addr : list Z) : membership :=
  MkMembership (metas m ++ [newMeta sum64 id addr]) (<[id := length (metas m)]> (peers m)) (seen m) (epoch m).

Definition set_addr (m : membership) (p : nat) (addr : list Z) : membership :=
  MkMembership (alter (λ nm, MkNode (ID nm) addr (weight nm) (salt nm)) p (metas m)) (peers m) (seen m) (epoch m).

Definition set_seen (m : membership) (id : NodeID) (ts : Z) : membership :=
  MkMembership (metas m) (peers m) (<[id := ts]> (seen m)) (epoch m).

Definition learn (m : membership) (id : NodeID) (addr : list Z) : membership :=
  match peers m !! id with
  | None => add_peer m id addr
  | Some p => set_addr m p addr
  end.

(** [if old, ok := m.seen[id]; !ok || ts > old { m.seen[id] = ts }]. *)
Definition merge_seen (m : membership) (kt : NodeID * Z) : membership :=
  match seen m !! kt.1 with
  | Some old => if old <? kt.2 then set_seen m kt.1 kt.2 else m
  | None => set_seen m kt.1 kt.2
  end.

Definition integrate (o : rangeOrder) (from : NodeID) (addr : list Z) (ps : list PeerInfo)
    (remote : gmap NodeID Z) (ep now : Z) (m : membership) : membership :=
  let m := if epoch m <? ep then MkMembership (metas m) (peers m) (seen m) ep else m in
  let m := learn m from addr in
  let m := set_seen m from now in
  let m := foldl (λ m p, learn m (pID p) (pAddr p)) m ps in
  foldl merge_seen m (range o (map_to_list remote)).

Definition ensure (now : Z) (id : NodeID) (addr : list Z) (m : membership) : membership :=
  let m := match peers m !! id with None => add_peer m id addr | Some _ => m end in
  set_seen m id now.
End Ops.

Definition snapshot (m : membership) : gmap NodeID nat * gmap NodeID Z * Z := (peers m, seen m, epoch m).

(** References to the live peers; a missing [seen] entry reads as 0. *)
Definition alive (o : rangeOrder) (now suspicionAfter : Z) (m : membership) : list nat :=
  let threshold := i64 (now - suspicionAfter) in
  omap (λ '(id, p), if threshold <=? default 0 (seen m !! id) then Some p else None)
    (range o (map_to_list (peers m))).

Definition prune_visit (threshold : Z) (m : membership) (ip : NodeID * nat) : membership :=
  match seen m !! ip.1 with
  | Some ts => if ts <? threshold
               then MkMembership (metas m) (delete ip.1 (peers m)) (delete ip.1 (seen m)) (epoch m) else m
  | None => m
  end.

Definition pruneTombstones (o : rangeOrder) (now tombstoneAfter : Z) (m : membership) : membership :=
  let threshold := i64 (now - tombstoneAfter) in
  foldl (prune_visit threshold) m (range o (map_to_list (peers m))).

Definition bumpEpoch (m : membership) : membership * Z :=
  let e := u64 (epoch m + 1) in (MkMembership (metas m) (peers m) (seen m) e, e).

Definition setWeight (id : NodeID) (w : Z) (m : membership) : membership :=
  match peers m !! id with
  | Some p => MkMembership (alter (λ nm, MkNode (ID nm) (Addr nm) w (salt nm)) p (metas m)) (peers m) (seen m) (epoch m)
  | None => m
  end.

(** ** Invariant: a map entry refers to the object that carries its id *)
Definition inv (m : membership) : Prop :=
  ∀ id p, peers m !! id = Some p → ∃ nm, metas m !! p = Some nm ∧ ID nm = id.

Inductive mevent :=
  | MIntegrate (o : rangeOrder) (from : NodeID) (addr : list Z) (ps : list PeerInfo) (remote : gmap NodeID Z) (ep now : Z)
  | MEnsure (now : Z) (id : NodeID) (addr : list Z)
  | MPrune (o : rangeOrder) (now tombstoneAfter : Z)
  | MBump
  | MWeight (id : NodeID) (w : Z).

Definition mstep (sum64 : list Z → Z) (m : membership) (e : mevent) : membership :=
  match e with
  | MIntegrate o from addr ps remote ep now => integrate sum64 o from addr ps remote ep now m
  | MEnsure now id addr => ensure sum64 now id addr m
  | MPrune o now t => pruneTombstones o now t m
  | MBump => (bumpEpoch m).1
  | MWeight id w => setWeight id w m
  end.

Section Inv.
Context (sum64 : list Z → Z).

Lemma membership_inv_new : inv newMembership.
Proof. intros id p. cbn. by rewrite lookup_empty. Qed.

Lemma inv_alter m f p : (∀ nm, ID (f nm) = ID nm) → inv m → inv (MkMembership (alter f p (metas m)) (peers m) (seen m) (epoch m)).
Proof.
  intros Hf Hi id q Hq. cbn in Hq. destruct (Hi id q Hq) as (nm & Hm & E). cbn.
  destruct (decide (q = p)) as [->|Hne].
  - rewrite list_lookup_alter_eq, Hm. exists (f nm). by rewrite Hf.
  - rewrite list_lookup_alter_ne by done. eauto.
Qed.
Lemma inv_add m id addr : inv m → inv (add_peer sum64 m id addr).
Proof.
  intros Hi id' p. unfold add_peer. cbn. intros [[<- <-]|[_ Hp]]%lookup_insert_Some.
  - rewrite list_lookup_middle by done. eauto.
  - destruct (Hi _ _ Hp) as (nm & Hm & E). exists nm. split; [by apply lookup_app_l_Some|done].
Qed.
Lemma inv_learn m id addr : inv m → inv (learn sum64 m id addr).
Proof. intros Hi. unfold learn. case_match; [by apply inv_alter|by apply inv_add]. Qed.
Lemma inv_same m m' : metas m' = metas m → peers m' = peers m → inv m → inv m'.
Proof. intros E1 E2 Hi id p. rewrite E1, E2. apply Hi. Qed.

Lemma merge_seen_frame l m : metas (foldl merge_seen m l) = metas m ∧ peers (foldl merge_seen m l) = peers m ∧ epoch (foldl merge_seen m l) = epoch m.
Proof.
  revert m. induction l as [|kt l IH]; intros m; [done|]. cbn [foldl]. destruct (IH (merge_seen m kt)) as (-> & -> & ->).
  unfold merge_seen. repeat case_match; done.
Qed.
Lemma learn_frame m id addr : seen (learn sum64 m id addr) = seen m ∧ epoch (learn sum64 m id addr) = epoch m.
Proof. unfold learn. by case_match. Qed.
Lemma learn_all_frame ps m :
  seen (foldl (λ m p, learn sum64 m (pID p) (pAddr p)) m ps) = seen m ∧
  epoch (foldl (λ m p, learn sum64 m (pID p) (pAddr p)) m ps) = epoch m.
Proof.
  revert m. induction ps as [|p ps IH]; intros m; [done|]. cbn [foldl].
  destruct (IH (learn sum64 m (pID p) (pAddr p))) as (-> & ->). apply learn_frame.
Qed.
Lemma inv_learn_all ps m : inv m → inv (foldl (λ m p, learn sum64 m (pID p) (pAddr p)) m ps).
Proof. revert m. induction ps as [|p ps IH]; intros m Hi; [done|]. apply IH. by apply inv_learn. Qed.

Lemma prune_visit_inv t m ip : inv m → inv (prune_visit t m ip).
Proof.
  intros Hi. unfold prune_visit. repeat case_match; try done. intros id p. cbn. intros [_ Hp]%lookup_delete_Some. by apply Hi.
Qed.
Lemma prune_loop_inv t l m : inv m → inv (foldl (prune_visit t) m l).
Proof. revert m. induction l as [|ip l IH]; intros m Hi; [done|]. apply IH. by apply prune_visit_inv. Qed.

Lemma mstep_inv m e : inv m → inv (mstep sum64 m e).
Proof.
  intros Hi. destruct e; cbn [mstep].
  - unfold integrate. match goal with |- context [foldl merge_seen ?M ?L] => destruct (merge_seen_frame L M) as (E1 & E2 & _) end.
    eapply inv_same; [exact E1|exact E2|]. apply inv_learn_all. eapply inv_same; [done..|]. apply inv_learn.
    case_match; [|done]. by eapply inv_same.
  - unfold ensure. eapply inv_same; [done..|]. case_match; [done|by apply inv_add].
  - by apply prune_loop_inv.
  - by eapply inv_same.
  - unfold setWeight. case_match; [by apply inv_alter|done].
Qed.

Lemma run_inv m es : inv m → inv (foldl (mstep sum64) m es).
Proof. revert m. induction es as [|e es IH]; intros m Hi; [done|]. apply IH. by apply mstep_inv. Qed.
End Inv.

Lemma elem_of_alive o now s m p :
  p ∈ alive o now s m ↔ ∃ id, peers m !! id = Some p ∧ i64 (now - s) ≤ default 0 (seen m !! id).
Proof.
  unfold alive. rewrite list_elem_of_omap. split.
  - intros ([id q] & Hin & Hq). rewrite elem_of_range, elem_of_map_to_list in Hin.
    destruct (Z.leb_spec (i64 (now - s)) (default 0 (seen m !! id))); [|done]. injection Hq as <-. eauto.
  - intros (id & Hp & Hle). exists (id, p). rewrite elem_of_range, elem_of_map_to_list. split; [done|].
    destruct (Z.leb_spec (i64 (now - s)) (default 0 (seen m !! id))); [done|lia].
Qed.

Lemma alive_distinct_aux m l f :
  inv m → NoDup l.*1 → (∀ id p, (id, p) ∈ l → peers m !! id = Some p) →
  NoDup (ID <$> (deref m <$> omap (λ '(id, p), if f id : bool then Some p else None) l)).
Proof.
  intros Hi. induction l as [|[id p] l IH]; intros Hnd Hin; [constructor|].
  cbn in Hnd. apply NoDup_cons in Hnd as [Hid Hnd].
  assert (∀ id p, (id, p) ∈ l → peers m !! id = Some p) as Hin' by (intros; apply Hin; by right).
  assert (∀ id p, peers m !! id = Some p → ID (deref m p) = id) as HID.
  { intros i q Hq. destruct (Hi i q Hq) as (nm & Hm & E). unfold deref. by rewrite Hm. }
  cbn [omap list_omap]. destruct (f id); [|by apply IH].
  cbn [fmap list_fmap]. rewrite HID with (id := id) by (apply Hin; left). apply NoDup_cons. split; [|by apply IH].
  rewrite !list_elem_of_fmap. intros (nm & E & (q & -> & Hq)%list_elem_of_fmap).
  apply list_elem_of_omap in Hq as ([i r] & Hl & Hr). destruct (f i); [|done]. injection Hr as <-.
  apply Hid, list_elem_of_fmap. exists (i, r). split; [|done]. cbn. rewrite E. by apply HID, Hin'.
Qed.

(** The loops over the remote observations and over the tombstones, entry by entry. *)
Definition max_opt (a b : option Z) : option Z :=
  match a, b with
  | Some x, Some y => Some (Z.max x y)
  | Some x, None => Some x
  | None, b => b
  end.

Lemma merge_seen_lookup m kt id :
  seen (merge_seen m kt) !! id = if decide (id = kt.1) then max_opt (seen m !! id) (Some kt.2) else seen m !! id.
Proof.
  unfold merge_seen. case_decide as E.
  - subst id. destruct (seen m !! kt.1) as [old|] eqn:Eo; cbn [max_opt].
    + destruct (Z.ltb_spec old kt.2); cbn; [rewrite lookup_insert_eq|rewrite Eo]; f_equal; lia.
    + cbn. by rewrite lookup_insert_eq.
  - repeat case_match; cbn; try done; by rewrite lookup_insert_ne.
Qed.

Lemma merge_loop_lookup l m id :
  NoDup l.*1 →
  seen (foldl merge_seen m l) !! id = max_opt (seen m !! id) ((list_to_map l : gmap NodeID Z) !! id).
Proof.
  revert m. induction l as [|[k t] l IH]; intros m Hnd; cbn [foldl].
  { cbn. rewrite lookup_empty. by destruct (seen m !! id). }
  cbn in Hnd. apply NoDup_cons in Hnd as [Hk Hnd]. rewrite IH by done. rewrite merge_seen_lookup. cbn [fst snd].
  cbn [list_to_map foldr uncurry]. case_decide as E.
  - subst id. rewrite lookup_insert_eq. rewrite (not_elem_of_list_to_map_1 l k) by done.
    by destruct (seen m !! k).
  - by rewrite lookup_insert_ne.
Qed.

Lemma prune_loop_lookup t l m id :
  NoDup l.*1 →
  let gone := id ∈ l.*1 ∧ ∃ ts, seen m !! id = Some ts ∧ ts < t in
  (gone → peers (foldl (prune_visit t) m l) !! id = None ∧ seen (foldl (prune_visit t) m l) !! id = None) ∧
  (¬ gone → peers (foldl (prune_visit t) m l) !! id = peers m !! id ∧ seen (foldl (prune_visit t) m l) !! id = seen m !! id).
Proof.
  cbn zeta. revert m. induction l as [|[k p] l IH]; intros m Hnd; cbn [foldl].
  { split; [set_solver|done]. }
  cbn in Hnd. apply NoDup_cons in Hnd as [Hk Hnd]. specialize (IH (prune_visit t m (k, p)) Hnd).
  destruct (decide (id = k)) as [->|Hne].
  - destruct IH as [_ IH]. destruct IH as [-> ->]; [tauto|]. unfold prune_visit. cbn [fst].
    destruct (seen m !! k) as [ts|] eqn:Es; [destruct (Z.ltb_spec ts t)|]; cbn; rewrite ?lookup_delete_eq; split; try done;
      intros Hg; try (destruct Hg as (_ & ts' & ? & ?); simplify_eq; lia);
      try (destruct Hg; split; [by left|eauto]).
  - assert (seen (prune_visit t m (k, p)) !! id = seen m !! id ∧ peers (prune_visit t m (k, p)) !! id = peers m !! id) as [Es Ep].
    { unfold prune_visit. repeat case_match; cbn; rewrite ?lookup_delete_ne by done; done. }
    rewrite Es, Ep in IH. cbn [fmap list_fmap fst]. rewrite elem_of_cons. destruct IH as [IH1 IH2]. split.
    + intros ([?|?] & HH); [done|]. by apply IH1.
    + intros Hn. apply IH2. tauto.
Qed.

(** ** Theorems *)

(** Rings are built from distinct nodes: after any sequence of gossip merges, local
    updates, prunings and weight changes, the live peers are exactly those last seen within
    the suspicion window, they carry pairwise different ids, and so every placement theorem
    applies to the ring made of them. *)
Theorem alive_peers_form_a_ring sum64 es o now s :
  let m := foldl (mstep sum64) newMembership es in
  distinct (deref m <$> alive o now s m) ∧
  ∀ nm, nm ∈ deref m <$> alive o now s m ↔
    ∃ p, peers m !! ID nm = Some p ∧ deref m p = nm ∧ i64 (now - s) ≤ default 0 (seen m !! ID nm).
Proof.
  intros m. assert (inv m) as Hi by apply run_inv, membership_inv_new. split.
  - unfold distinct, alive.
    apply (alive_distinct_aux m (range o (map_to_list (peers m))) (λ id, i64 (now - s) <=? default 0 (seen m !! id)) Hi).
    + rewrite range_perm. apply NoDup_fst_map_to_list.
    + intros id p. by rewrite elem_of_range, elem_of_map_to_list.
  - intros nm. rewrite list_elem_of_fmap. setoid_rewrite elem_of_alive.
    assert (∀ id p, peers m !! id = Some p → ID (deref m p) = id) as HID.
    { intros i q Hq. destruct (Hi i q Hq) as (n & Hm & E). unfold deref. by rewrite Hm. }
    split.
    + intros (p & -> & id & Hp & Hle). rewrite (HID _ _ Hp). eauto.
    + intros (p & Hp & <- & Hle). exists p. split; [done|]. eauto.
Qed.

(** Merging gossip keeps the newest information: the epoch becomes the larger one, the
    last-seen time of every node the larger of the local and the remote one (the sender's
    local one being the time of the message), the sender and all its peers are known, and
    no peer is forgotten. *)
Theorem integrate_keeps_newest sum64 o from addr ps remote ep now m :
  let m' := integrate sum64 o from addr ps remote ep now m in
  epoch m' = Z.max (epoch m) ep ∧
  (∀ id, seen m' !! id = max_opt (if decide (id = from) then Some now else seen m !! id) (remote !! id)) ∧
  (∀ id, is_Some (peers m' !! id) ↔ is_Some (peers m !! id) ∨ id = from ∨ id ∈ pID <$> ps).
Proof.
  intros m'. unfold m', integrate. set (m0 := if epoch m <? ep then _ else m).
  set (m2 := set_seen (learn sum64 m0 from addr) from now).
  set (m3 := foldl (λ m p, learn sum64 m (pID p) (pAddr p)) m2 ps).
  destruct (learn_frame sum64 m0 from addr) as [Es0 Ee0]. destruct (learn_all_frame sum64 ps m2) as [Es Ee]. fold m3 in Es, Ee.
  destruct (merge_seen_frame (range o (map_to_list remote)) m3) as (_ & Ep & Eep).
  assert (∀ m id a i, is_Some (peers (learn sum64 m id a) !! i) ↔ is_Some (peers m !! i) ∨ i = id) as Hl.
  { clear. intros m id a i. unfold learn. destruct (peers m !! id) eqn:E; cbn.
    - split; [auto|]. intros [?| ->]; [done|]. by rewrite E.
    - destruct (decide (i = id)) as [->|]; [rewrite lookup_insert_eq|rewrite lookup_insert_ne by done]; naive_solver. }
  split_and!.
  - rewrite Eep, Ee. cbn. rewrite Ee0. unfold m0. destruct (Z.ltb_spec (epoch m) ep); cbn; lia.
  - intros id. rewrite merge_loop_lookup by (rewrite range_perm; apply NoDup_fst_map_to_list).
    rewrite Es. unfold m2. cbn [set_seen seen]. rewrite Es0. f_equal.
    + assert (seen m0 = seen m) as -> by (unfold m0; by case_match).
      case_decide as E; [subst; by rewrite lookup_insert_eq|by rewrite lookup_insert_ne].
    + rewrite (list_to_map_proper _ (map_to_list remote)); [by rewrite list_to_map_to_list| |apply range_perm].
      rewrite range_perm. apply NoDup_fst_map_to_list.
  - intros id. rewrite Ep. unfold m3.
    assert (is_Some (peers m2 !! id) ↔ is_Some (peers m !! id) ∨ id = from) as H2.
    { unfold m2. cbn [set_seen peers]. rewrite Hl. unfold m0. by case_match. }
    transitivity (is_Some (peers m2 !! id) ∨ id ∈ pID <$> ps); [|rewrite H2; tauto].
    clearbody m2. clear -Hl. revert m2. induction ps as [|p ps IH]; intros m2; cbn [foldl fmap list_fmap].
    + set_solver.
    + rewrite IH, Hl, elem_of_cons. tauto.
Qed.

(** Pruning removes exactly the peers that were seen and whose last sighting is older
    than the tombstone window, with their sightings, and touches nothing else; a peer that
    was never seen is kept. *)
Theorem prune_removes_exactly_stale o now tomb m id :
  let m' := pruneTombstones o now tomb m in
  let stale := is_Some (peers m !! id) ∧ ∃ ts, seen m !! id = Some ts ∧ ts < i64 (now - tomb) in
  (stale → peers m' !! id = None ∧ seen m' !! id = None) ∧
  (¬ stale → peers m' !! id = peers m !! id ∧ seen m' !! id = seen m !! id).
Proof.
  cbn zeta. unfold pruneTombstones.
  destruct (prune_loop_lookup (i64 (now - tomb)) (range o (map_to_list (peers m))) m id) as [H1 H2].
  { rewrite range_perm. apply NoDup_fst_map_to_list. }
  assert (id ∈ (range o (map_to_list (peers m))).*1 ↔ is_Some (peers m !! id)) as Hin.
  { rewrite range_perm, list_elem_of_fmap. setoid_rewrite elem_of_map_to_list'. split.
    - intros ([k p] & -> & Hk). eauto.
    - intros [p Hp]. by exists (id, p). }
  rewrite Hin in H1, H2. split; [apply H1|apply H2].
Qed.
End Membership.

(** ** The request limiter *)
Module Limiter.

Record rateLimiter := MkLimiter { max : Z; tokens : Z; stopped : bool }.

Definition newRateLimiter (max : Z) : rateLimiter := MkLimiter max max false.

(** One tick of [refill]. *)
Definition refill (r : rateLimiter) : rateLimiter := MkLimiter (max r) (max r) (stopped r).

Definition Allow (r : rateLimiter) : rateLimiter * bool :=
  if tokens r <=? 0 then (r, false) else (MkLimiter (max r) (tokens r - 1) (stopped r), true).

(** [None]: closing the channel twice panics. *)
Definition Stop (r : rateLimiter) : option rateLimiter :=
  if stopped r then None else Some (MkLimiter (max r) (tokens r) true).

(** Requests between two refills: the number of grants among [n] calls. *)
Fixpoint grants (n : nat) (r : rateLimiter) : rateLimiter * Z :=
  match n with
  | O => (r, 0)
  | S n => let '(r, ok) := Allow r in let '(r, g) := grants n r in (r, g + (if ok then 1 else 0))
  end.

Lemma grants_spec n r :
  grants n r = (MkLimiter (max r) (tokens r - Z.min (Z.of_nat n) (Z.max 0 (tokens r))) (stopped r),
                Z.min (Z.of_nat n) (Z.max 0 (tokens r))).
Proof.
  revert r. induction n as [|n IH]; intros [mx tk st]; cbn [grants max tokens stopped].
  { f_equal; [f_equal|]; lia. }
  unfold Allow. cbn [tokens max stopped]. destruct (Z.leb_spec tk 0); rewrite IH; cbn [tokens max stopped]; f_equal; try f_equal; lia.
Qed.

(** Within one window the limiter grants exactly the first [max] requests, whatever was
    consumed before the refill that opened it. *)
Theorem limiter_window r n :
  0 ≤ max r → (grants n (refill r)).2 = Z.min (Z.of_nat n) (max r).
Proof. intros Hm. rewrite grants_spec. cbn. lia. Qed.
Lemma limiter_window_witness : (grants 7 (refill (newRateLimiter 5))).2 = 5.
Proof. rewrite (limiter_window (newRateLimiter 5) 7); [reflexivity|cbn; lia]. Defined.
End Limiter.
