(* ===== verification/Heap.v ===== *)
(** * Binary min-heaps

    The sift loops of [src/cluster/heat.go] ([siftUp], [siftDown]) and of Go's [container/heap]
    ([up], [down], used by [src/cluster/handoff.go]) are the same on an array ordered by an
    integer key; what differs is the bookkeeping of [swap].  [HeapStore] is the interface the
    loops use; its clients prove [HeapLaws] and keep their bookkeeping with [up_keeps] and
    [down_keeps]. *)
From Stdlib Require Import ZArith Lia.
From stdpp Require Import base numbers list.
From S2P Require Import Prelude.
Local Open Scope Z_scope.

Module Heap.

Class HeapStore (S A : Type) := {
  arr : S → list A;
  key : A → Z;
  hswap : nat → nat → S → S }.

Definition swapl {A} (i j : nat) (l : list A) : list A :=
  match l !! i, l !! j with
  | Some a, Some b => <[i := b]> (<[j := a]> l)
  | _, _ => l
  end.

Class HeapLaws (S A : Type) `{!HeapStore S A} : Prop :=
  arr_hswap i j s : (i < length (arr s))%nat → (j < length (arr s))%nat → arr (hswap i j s) = swapl i j (arr s).

Section Loops.
Context {S A : Type} `{!HeapStore S A}.

Definition key_at (s : S) (i : nat) : Z := match arr s !! i with Some a => key a | None => 0 end.

Definition par (i : nat) : nat := ((i - 1) / 2)%nat.

Fixpoint up (fuel : nat) (s : S) (i : nat) : S :=
  match fuel with
  | O => s
  | Datatypes.S fuel =>
      if (0 <? i)%nat then
        let p := par i in
        if key_at s p <=? key_at s i then s else up fuel (hswap i p s) p
      else s
  end.

(** The heap is the first [n] elements; the result carries the final position. *)
Fixpoint down (fuel : nat) (s : S) (i n : nat) : S * nat :=
  match fuel with
  | O => (s, i)
  | Datatypes.S fuel =>
      let l := (2 * i + 1)%nat in
      if (n <=? l)%nat then (s, i)
      else
        let r := (l + 1)%nat in
        let small := if (r <? n)%nat && (key_at s r <? key_at s l) then r else l in
        if key_at s i <=? key_at s small then (s, i) else down fuel (hswap i small s) small n
  end.

(** Heap order. *)
Definition heap_upto (f : nat → Z) (n : nat) : Prop := ∀ j, (0 < j < n)%nat → f (par j) ≤ f j.

(** Heap order away from [i], and between the parent and the children of [i]. *)
Definition hole (f : nat → Z) (n i : nat) : Prop :=
  (∀ j, (0 < j < n)%nat → j ≠ i → par j ≠ i → f (par j) ≤ f j) ∧
  (∀ j, (0 < j < n)%nat → par j = i → (0 < i)%nat → f (par i) ≤ f j).
Definition below (f : nat → Z) (n i : nat) : Prop := ∀ j, (0 < j < n)%nat → par j = i → f i ≤ f j.
Definition above (f : nat → Z) (i : nat) : Prop := (0 < i)%nat → f (par i) ≤ f i.

Definition fswap (i j : nat) (f : nat → Z) (x : nat) : Z :=
  if decide (x = i) then f j else if decide (x = j) then f i else f x.

Lemma par_spec j p : (0 < j)%nat → par j = p ↔ j = (2 * p + 1)%nat ∨ j = (2 * p + 2)%nat.
Proof.
  intros Hj. unfold par. pose proof (Nat.div_mod (j - 1) 2). pose proof (Nat.mod_upper_bound (j - 1) 2). lia.
Qed.
Lemma par_lt j : (0 < j)%nat → (par j < j)%nat.
Proof. intros Hj. destruct (proj1 (par_spec j (par j) Hj) eq_refl); lia. Qed.

Lemma heap_of_hole f n i : hole f n i → below f n i → above f i → heap_upto f n.
Proof.
  intros [H1 _] Hb Ha j Hj. destruct (decide (j = i)) as [->|]; [apply Ha; lia|].
  destruct (decide (par j = i)) as [E|]; [rewrite E; by apply Hb|by apply H1].
Qed.
Lemma hole_of_heap f n i : heap_upto f n → (i < n)%nat → hole f n i.
Proof.
  intros H Hi. split; [intros; by apply H|]. intros j Hj Ep Hi0. pose proof (H i). pose proof (H j Hj). rewrite Ep in *. lia.
Qed.
Lemma heap_root_min f n i : heap_upto f n → (i < n)%nat → f 0%nat ≤ f i.
Proof.
  intros H. induction i as [i IH] using lt_wf_ind. intros Hi. destruct (decide (i = 0)%nat) as [->|]; [lia|].
  pose proof (par_lt i). pose proof (H i). pose proof (IH (par i)). lia.
Qed.

(** One round of each loop on the keys. *)
Lemma up_round f n i :
  (0 < i < n)%nat → hole f n i → below f n i → f i < f (par i) →
  hole (fswap i (par i) f) n (par i) ∧ below (fswap i (par i) f) n (par i).
Proof.
  intros Hi [H1 H2] Hb Hlt. pose proof (par_lt i) as Hp. set (p := par i) in *. unfold fswap. split; [split|].
  - intros j Hj Hne Hpne. assert (j ≠ i) by (intros ->; done).
    rewrite (decide_False (P := j = i)), (decide_False (P := j = p)), (decide_False (P := par j = p)) by done.
    destruct (decide (par j = i)) as [E|]; [by apply H2; [|done|lia]|by apply H1].
  - intros j Hj Ep Hp0. pose proof (par_lt p Hp0).
    rewrite (decide_False (P := par p = i)), (decide_False (P := par p = p)) by lia.
    assert (f (par p) ≤ f p) as Hpp by (apply H1; lia).
    destruct (decide (j = i)) as [->|]; [done|]. rewrite decide_False by (intros ->; pose proof (par_lt p); lia).
    specialize (H1 j Hj). rewrite Ep in H1. lia.
  - intros j Hj Ep. rewrite (decide_False (P := p = i)), (decide_True (P := p = p)) by lia.
    destruct (decide (j = i)) as [->|]; [lia|]. rewrite decide_False by (intros ->; pose proof (par_lt p); lia).
    specialize (H1 j Hj). rewrite Ep in H1. lia.
Qed.

Lemma down_round f n i c :
  hole f n i → (0 < c < n)%nat → par c = i → (∀ j, (0 < j < n)%nat → par j = i → f c ≤ f j) → f c < f i →
  hole (fswap i c f) n c ∧ above (fswap i c f) c.
Proof.
  intros [H1 H2] Hc Ec Hmin Hlt. pose proof (par_lt c) as Hic. rewrite Ec in Hic. unfold fswap. split; [split|].
  - intros j Hj Hne Hpne. rewrite (decide_False (P := par j = c)), (decide_False (P := j = c)) by done.
    destruct (decide (j = i)) as [->|Hji].
    + rewrite decide_False by (pose proof (par_lt i); lia). apply H2; [done|done|lia].
    + destruct (decide (par j = i)); [by apply Hmin|by apply H1].
  - intros j Hj Ej Hc0. rewrite Ec. rewrite decide_True by done.
    pose proof (par_lt j). rewrite !decide_False by lia.
    rewrite <-Ej. apply H1; [done|lia|lia].
  - intros _. rewrite Ec. rewrite (decide_True (P := i = i)) by done. rewrite (decide_False (P := c = i)), (decide_True (P := c = c)) by lia. lia.
Qed.

(** ** Swapping two elements *)
Lemma swapl_eq (l : list A) i j a b : l !! i = Some a → l !! j = Some b → swapl i j l = <[i := b]> (<[j := a]> l).
Proof. unfold swapl. by intros -> ->. Qed.
Lemma swapl_length (l : list A) i j : length (swapl i j l) = length l.
Proof. unfold swapl. repeat case_match; by rewrite ?length_insert. Qed.
Lemma swapl_lookup (l : list A) i j x :
  (i < length l)%nat → (j < length l)%nat →
  swapl i j l !! x = if decide (x = i) then l !! j else if decide (x = j) then l !! i else l !! x.
Proof.
  intros Hi Hj. destruct (lookup_lt_is_Some_2 l i Hi) as [a Ha]. destruct (lookup_lt_is_Some_2 l j Hj) as [b Hb].
  rewrite (swapl_eq l i j a b Ha Hb). case_decide as E; [subst x; rewrite list_lookup_insert_eq by (by rewrite length_insert); done|].
  rewrite list_lookup_insert_ne by done. case_decide as E2; [subst x; rewrite list_lookup_insert_eq by done; done|].
  by rewrite list_lookup_insert_ne.
Qed.
Lemma swapl_perm (l : list A) i j : swapl i j l ≡ₚ l.
Proof.
  unfold swapl. destruct (l !! i) as [a|] eqn:Ha; [|done]. destruct (l !! j) as [b|] eqn:Hb; [|done].
  by apply Permutation_insert_swap.
Qed.

Context `{!HeapLaws S A}.

Lemma key_at_hswap s i j x :
  (i < length (arr s))%nat → (j < length (arr s))%nat → key_at (hswap i j s) x = fswap i j (key_at s) x.
Proof.
  intros Hi Hj. unfold key_at, fswap. rewrite arr_hswap, swapl_lookup by done. by repeat case_decide.
Qed.
Lemma heap_ext f g n : (∀ x, f x = g x) → heap_upto f n → heap_upto g n.
Proof. intros E H j Hj. rewrite <-!E. by apply H. Qed.
Lemma hole_ext f g n i : (∀ x, f x = g x) → hole f n i → hole g n i.
Proof. intros E [H1 H2]. split; intros *; rewrite <-!E; auto. Qed.
Lemma below_ext f g n i : (∀ x, f x = g x) → below f n i → below g n i.
Proof. intros E H j. rewrite <-!E. apply H. Qed.
Lemma above_ext f g i : (∀ x, f x = g x) → above f i → above g i.
Proof. intros E H. unfold above. rewrite <-!E. apply H. Qed.

(** A property of the store that swaps inside the heap keep. *)
Definition swap_stable (n : nat) (P : S → Prop) : Prop :=
  ∀ s i j, P s → (n ≤ length (arr s))%nat → (i < n)%nat → (j < n)%nat → i ≠ j → P (hswap i j s).

Lemma length_hswap s i j : (i < length (arr s))%nat → (j < length (arr s))%nat → length (arr (hswap i j s)) = length (arr s).
Proof. intros. by rewrite arr_hswap, swapl_length. Qed.

Lemma up_spec n P fuel s i :
  swap_stable n P → P s → (n ≤ length (arr s))%nat → (i < n)%nat → (i < fuel)%nat →
  hole (key_at s) n i → below (key_at s) n i →
  P (up fuel s i) ∧ heap_upto (key_at (up fuel s i)) n.
Proof.
  intros HP. revert s i. induction fuel as [|fuel IH]; intros s i Hs Hn Hi Hf Hh Hb; [lia|]. cbn [up].
  destruct (Nat.ltb_spec 0 i) as [Hi0|].
  - pose proof (par_lt i Hi0) as Hp. destruct (Z.leb_spec (key_at s (par i)) (key_at s i)) as [Hle|Hlt].
    + split; [done|]. eapply heap_of_hole; [exact Hh|done|]. intros _. done.
    + destruct (up_round (key_at s) n i) as [Hh' Hb']; [lia|done..|].
      assert (∀ x, fswap i (par i) (key_at s) x = key_at (hswap i (par i) s) x) as E by (intros x; rewrite key_at_hswap; [done|lia..]).
      apply IH; [apply HP; (done || lia)|rewrite length_hswap; lia|lia|lia|by eapply hole_ext|by eapply below_ext].
  - split; [done|]. eapply heap_of_hole; [exact Hh|done|]. intros ?. lia.
Qed.

(** [down] leaves a hole that is below nothing smaller; when it moved, nothing bigger is above it either. *)
Lemma down_spec n P fuel s i :
  swap_stable n P → P s → (n ≤ length (arr s))%nat → (i < n)%nat → (n < fuel + i)%nat → hole (key_at s) n i →
  let '(s', i') := down fuel s i n in
  P s' ∧ (i ≤ i' < n)%nat ∧ hole (key_at s') n i' ∧ below (key_at s') n i' ∧
  ((i' ≠ i ∨ above (key_at s) i) → above (key_at s') i') ∧ (i' = i → s' = s).
Proof.
  intros HP. revert s i. induction fuel as [|fuel IH]; intros s i Hs Hn Hi Hf Hh; [lia|]. cbn [down].
  destruct (Nat.leb_spec n (2 * i + 1)) as [Hl|Hl].
  { split_and!; [done|lia|lia|done| |naive_solver|done]. intros j Hj [Ej|Ej]%par_spec; lia. }
  set (l := (2 * i + 1)%nat) in *. set (r := (l + 1)%nat).
  set (small := if (r <? n)%nat && (key_at s r <? key_at s l) then r else l).
  assert ((small = l ∨ small = r) ∧ (0 < small < n)%nat ∧ par small = i ∧
    ∀ j, (0 < j < n)%nat → par j = i → key_at s small ≤ key_at s j) as (Hlr & Hsm & Hps & Hmin).
  { assert (small = l ∨ small = r) as Hor by (unfold small; case_match; auto). split; [done|].
    assert (0 < small < n)%nat as Hr.
    { unfold small. destruct (Nat.ltb_spec r n); cbn; [case_match|]; lia. }
    split; [done|]. split; [apply par_spec; lia|]. intros j Hj [Ej|Ej]%par_spec; [| |lia].
    - assert (j = l) as -> by lia. unfold small. destruct (Nat.ltb_spec r n); cbn [andb]; [|lia].
      destruct (Z.ltb_spec (key_at s r) (key_at s l)); lia.
    - assert (j = r) as -> by lia. unfold small. destruct (Nat.ltb_spec r n); cbn [andb]; [|lia].
      destruct (Z.ltb_spec (key_at s r) (key_at s l)); lia. }
  destruct (Z.leb_spec (key_at s i) (key_at s small)) as [Hle|Hlt].
  { split_and!; [done|lia|lia|done| |naive_solver|done]. intros j Hj Ej. specialize (Hmin j Hj Ej). lia. }
  destruct (down_round (key_at s) n i small) as [Hh' Ha']; [done..|].
  assert (∀ x, fswap i small (key_at s) x = key_at (hswap i small s) x) as E by (intros x; rewrite key_at_hswap; [done|lia..]).
  specialize (IH (hswap i small s) small). destruct (down fuel (hswap i small s) small n) as [s' i'].
  destruct IH as (HP' & Hi' & Hhole & Hbel & Hab & Hsame);
    [apply HP; (done || lia)|rewrite length_hswap; lia|lia|lia|by eapply hole_ext|].
  split_and!; [done|lia|lia|done|done| |lia]. intros _. apply Hab. right. by eapply above_ext.
Qed.
End Loops.
End Heap.
