(* ===== verification/Heat.v ===== *)
(** * Hot-key detection ([src/cluster/heat.go])

    [spaceSaving] is a min-heap of at most [cap] counters with an index from key to position.
    Go's [hash/maphash] (seeded, different in every process) is the parameter [maphash].
    [None] stands for a run-time panic: an index out of range, or a modulus of zero. *)
From Stdlib Require Import ZArith Lia.
From stdpp Require Import base numbers list gmap sets.
From S2P Require Import Prelude Heap.
Local Open Scope Z_scope.

Module Heat.
Import Heap.

Definition bytes : Type := list Z.

(** ** Count-min sketch *)
Record cmSketch := MkCMS { rows : list (list Z); seeds : list Z; width : Z }.

(** [makeSeed i] is the seed drawn for row [i]. *)
Definition newCMS (makeSeed : nat → Z) (nrows : nat) (width : Z) : cmSketch :=
  MkCMS (replicate nrows (replicate (Z.to_nat width) 0)) (makeSeed <$> seq 0 nrows) width.

Definition cms_add (maphash : Z → bytes → Z) (c : cmSketch) (key : bytes) (n : Z) : option cmSketch :=
  if (width c =? 0) && negb (bool_decide (rows c = [])) then None
  else
    Some (MkCMS (zip_with (λ row seed, alter (λ v, u32 (v + n)) (Z.to_nat (maphash seed key mod width c)) row) (rows c) (seeds c))
            (seeds c) (width c)).

(** ** Space-saving counters *)
Record ssEntry := MkEntry { K : bytes; C : Z }.
Record spaceSaving := MkSS { cap : Z; h : list ssEntry; idx : gmap bytes nat }.

Definition newSpaceSaving (k : Z) : spaceSaving := MkSS (if k <? 1 then 1 else k) [] ∅.

Definition addSat64 (a b : Z) : Z :=
  let c := u64 (a + b) in if c <? a then 2 ^ 64 - 1 else c.

Definition ss_swap (i j : nat) (s : spaceSaving) : spaceSaving :=
  let h' := swapl i j (h s) in
  match h' !! i, h' !! j with
  | Some a, Some b => MkSS (cap s) h' (<[K b := j]> (<[K a := i]> (idx s)))
  | _, _ => s
  end.

#[export] Instance ss_heap : HeapStore spaceSaving ssEntry := {| arr := h; key := C; hswap := ss_swap |}.

Definition siftUp (s : spaceSaving) (i : nat) : spaceSaving := up (S i) s i.
Definition siftDown (s : spaceSaving) (i : nat) : spaceSaving := (down (S (length (h s))) s i (length (h s))).1.

Definition ss_add (s : spaceSaving) (key : bytes) (inc : Z) : option spaceSaving :=
  match idx s !! key with
  | Some i =>
      match h s !! i with
      | Some e => Some (siftDown (MkSS (cap s) (<[i := MkEntry (K e) (addSat64 (C e) inc)]> (h s)) (idx s)) i)
      | None => None
      end
  | None =>
      if Z.of_nat (length (h s)) <? cap s then
        let h' := h s ++ [MkEntry key inc] in
        let i := (length h' - 1)%nat in
        Some (siftUp (MkSS (cap s) h' (<[key := i]> (idx s))) i)
      else
        match h s !! 0%nat with
        | Some minNode =>
            let idx' := <[key := 0%nat]> (delete (K minNode) (idx s)) in
            Some (siftDown (MkSS (cap s) (<[0%nat := MkEntry key (addSat64 (C minNode) inc)]> (h s)) idx') 0)
        | None => None
        end
  end.

Definition export (s : spaceSaving) : list (bytes * Z) := (λ e, (K e, C e)) <$> h s.

(** ** Sampling *)
Record heat := MkHeat { cms : cmSketch; ss : spaceSaving; sampleN : Z; ctr : Z }.

Definition newHeat (makeSeed : nat → Z) (nrows : nat) (width k sampleN : Z) : heat :=
  MkHeat (newCMS makeSeed nrows width) (newSpaceSaving k) (u32 sampleN) 0.

Definition record (maphash : Z → bytes → Z) (ht : heat) (key : bytes) : option heat :=
  c ← cms_add maphash (cms ht) key 1;
  s ← ss_add (ss ht) key 1;
  Some (MkHeat c s (sampleN ht) (ctr ht)).

Definition sample (maphash : Z → bytes → Z) (ht : heat) (key : bytes) : option heat :=
  if sampleN ht <=? 1 then record maphash ht key
  else
    let ctr' := u32 (ctr ht + 1) in
    let ht := MkHeat (cms ht) (ss ht) (sampleN ht) ctr' in
    if ctr' mod sampleN ht =? 0 then record maphash ht key else Some ht.

Definition exportTopK (ht : heat) : list (bytes * Z) := export (ss ht).

(** ** The index *)
Definition good_idx (s : spaceSaving) : Prop :=
  ∀ k i, idx s !! k = Some i ↔ ∃ e, h s !! i = Some e ∧ K e = k.

Lemma good_inj s i j a b : good_idx s → h s !! i = Some a → h s !! j = Some b → K a = K b → i = j.
Proof.
  intros Hg Ha Hb E. pose proof (proj2 (Hg (K a) i) (ex_intro _ a (conj Ha eq_refl))) as H1.
  pose proof (proj2 (Hg (K b) j) (ex_intro _ b (conj Hb eq_refl))) as H2. rewrite E in H1. congruence.
Qed.

Lemma ss_swap_eq s i j a b :
  h s !! i = Some a → h s !! j = Some b →
  ss_swap i j s = MkSS (cap s) (swapl i j (h s)) (<[K a := j]> (<[K b := i]> (idx s))).
Proof.
  intros Ha Hb. unfold ss_swap. rewrite !swapl_lookup by (by eapply lookup_lt_Some).
  rewrite decide_True by done. rewrite Hb. destruct (decide (j = i)) as [->|]; [|by rewrite decide_True, Ha].
  rewrite Hb in *. by simplify_eq.
Qed.

#[export] Instance ss_heap_laws : HeapLaws spaceSaving ssEntry.
Proof.
  intros i j s Hi Hj. cbn [arr hswap ss_heap] in *. destruct (lookup_lt_is_Some_2 _ _ Hi) as [a Ha].
  destruct (lookup_lt_is_Some_2 _ _ Hj) as [b Hb]. by rewrite (ss_swap_eq s i j a b).
Qed.

Lemma swap_good s i j : good_idx s → (i < length (h s))%nat → (j < length (h s))%nat → i ≠ j → good_idx (ss_swap i j s).
Proof.
  intros Hg Hi Hj Hne. destruct (lookup_lt_is_Some_2 _ _ Hi) as [a Ha]. destruct (lookup_lt_is_Some_2 _ _ Hj) as [b Hb].
  assert (K a ≠ K b) as Hk by (intros E; apply Hne; by eapply good_inj).
  rewrite (ss_swap_eq s i j a b) by done. intros k x. cbn [idx h]. rewrite swapl_lookup by done.
  rewrite !lookup_insert_Some. destruct (decide (x = i)) as [->|Hxi]; [|destruct (decide (x = j)) as [->|Hxj]].
  - rewrite Hb. split; [intros [[? ?]|[? [[<- _]|[? Hx]]]]; [done|eauto|]|intros (e & [= <-] & <-); auto].
    apply Hg in Hx as (e & He & <-). rewrite Ha in He. by injection He as <-.
  - rewrite Ha. split; [intros [[<- _]|[? [[? ?]|[? Hx]]]]; [eauto|done|]|intros (e & [= <-] & <-); auto].
    apply Hg in Hx as (e & He & <-). rewrite Hb in He. by injection He as <-.
  - rewrite (Hg k x). split; [naive_solver|]. intros (e & He & <-). right. split.
    + intros E. apply Hxi. by eapply (good_inj s x i e a).
    + right. split; [|eauto]. intros E. apply Hxj. by eapply (good_inj s x j e b).
Qed.

(** What the loops keep. *)
Definition kept (c : Z) (l : list ssEntry) (s : spaceSaving) : Prop := good_idx s ∧ h s ≡ₚ l ∧ cap s = c.

Lemma kept_stable n c l : swap_stable n (kept c l).
Proof.
  intros s i j (Hg & Hp & Hc) Hn Hi Hj Hne. cbn [arr hswap ss_heap] in *.
  destruct (lookup_lt_is_Some_2 (h s) i) as [a Ha]; [lia|]. destruct (lookup_lt_is_Some_2 (h s) j) as [b Hb]; [lia|].
  split_and!; [apply swap_good; (done || lia)|..]; rewrite (ss_swap_eq s i j a b) by done; cbn [h cap]; [by rewrite swapl_perm|done].
Qed.

Definition heap_ok (s : spaceSaving) : Prop := heap_upto (key_at s) (length (h s)).

Lemma siftUp_spec s i :
  good_idx s → (i < length (h s))%nat → hole (key_at s) (length (h s)) i → below (key_at s) (length (h s)) i →
  kept (cap s) (h s) (siftUp s i) ∧ heap_ok (siftUp s i).
Proof.
  intros Hg Hi Hh Hb. unfold siftUp. destruct (up_spec (length (h s)) (kept (cap s) (h s)) (S i) s i) as [Hk Hheap];
    [apply kept_stable|done|done|done|lia|done|done|]. split; [done|].
  unfold heap_ok. destruct Hk as (_ & -> & _). done.
Qed.

Lemma siftDown_spec s i :
  good_idx s → (i < length (h s))%nat → hole (key_at s) (length (h s)) i → above (key_at s) i →
  kept (cap s) (h s) (siftDown s i) ∧ heap_ok (siftDown s i).
Proof.
  intros Hg Hi Hh Ha. unfold siftDown.
  pose proof (down_spec (length (h s)) (kept (cap s) (h s)) (S (length (h s))) s i) as H.
  destruct (down _ s i (length (h s))) as [s' i']. cbn [fst].
  destruct H as (Hk & Hi' & Hh' & Hb' & Ha' & _); [apply kept_stable|done|done|done|lia|done|].
  split; [done|]. unfold heap_ok. destruct Hk as (_ & -> & _). eapply heap_of_hole; [done..|]. apply Ha'. by right.
Qed.

(** Raising the count at one position of a heap leaves a hole there. *)
Lemma raise_hole (f g : nat → Z) n i :
  heap_upto f n → (i < n)%nat → (∀ x, x ≠ i → g x = f x) → f i ≤ g i → hole g n i ∧ above g i.
Proof.
  intros Hf Hi Hg Hle. split; [split|].
  - intros j Hj Hji Hpi. rewrite !Hg by done. by apply Hf.
  - intros j Hj Ej Hi0. pose proof (par_lt i Hi0). pose proof (par_lt j). rewrite !Hg by lia.
    pose proof (Hf i). pose proof (Hf j Hj). rewrite Ej in *. lia.
  - intros Hi0. pose proof (par_lt i Hi0). rewrite (Hg (par i)) by lia. pose proof (Hf i). lia.
Qed.

Lemma key_at_lookup s i e : h s !! i = Some e → key_at s i = C e.
Proof. unfold key_at. cbn [arr ss_heap]. by intros ->. Qed.

Lemma good_rename s i e e' (c : Z) :
  good_idx s → h s !! i = Some e → (K e' = K e ∨ idx s !! K e' = None) →
  good_idx (MkSS c (<[i := e']> (h s)) (<[K e' := i]> (delete (K e) (idx s)))).
Proof.
  intros Hg He Hk k x. cbn [idx h]. pose proof (lookup_lt_Some _ _ _ He) as Hi. rewrite lookup_insert_Some, lookup_delete_Some.
  destruct (decide (x = i)) as [->|Hx].
  - rewrite list_lookup_insert_eq by done. split.
    + intros [[<- _]|(_ & Hne & Hx)]; [eauto|]. apply Hg in Hx as (e2 & He2 & <-). rewrite He in He2. by injection He2 as <-.
    + intros (e2 & [= <-] & <-). auto.
  - rewrite list_lookup_insert_ne by done. split.
    + intros [[_ ->]|(_ & _ & Hx')]; [done|]. by apply Hg.
    + intros (e2 & He2 & <-). right. assert (K e2 ≠ K e) as Hne by (intros E; apply Hx; by eapply good_inj).
      split_and!; [|done|apply Hg; eauto]. destruct Hk as [->|Hk]; [done|]. intros E.
      assert (idx s !! K e2 = Some x) as H2 by (apply Hg; eauto). rewrite <-E in H2. congruence.
Qed.

Lemma addSat64_le a b : is_u64 a → is_u64 b → a ≤ addSat64 a b.
Proof. unfold addSat64, is_u64. pose proof (u64_range (a + b)). intros. destruct (Z.ltb_spec (u64 (a + b)) a); lia. Qed.
Lemma addSat64_eq a b : 0 ≤ a → 0 ≤ b → a + b < 2 ^ 64 → addSat64 a b = a + b.
Proof. intros Ha Hb Hs. unfold addSat64. rewrite u64_id by (unfold is_u64; lia). destruct (Z.ltb_spec (a + b) a); lia. Qed.

(** The structure of the counters: index, heap order, word range. *)
Record ss_inv (s : spaceSaving) : Prop := {
  ss_good : good_idx s;
  ss_heap_ok : heap_ok s;
  ss_cap : 1 ≤ cap s ∧ Z.of_nat (length (h s)) ≤ cap s;
  ss_word e : e ∈ h s → is_u64 (C e) }.

(** The contents after [add]: which counter changes, and how. *)
Inductive ss_update (s : spaceSaving) (key : bytes) (inc : Z) : list ssEntry → Prop :=
  | upd_hit i e : h s !! i = Some e → K e = key →
      ss_update s key inc (<[i := MkEntry (K e) (addSat64 (C e) inc)]> (h s))
  | upd_room : idx s !! key = None → Z.of_nat (length (h s)) < cap s →
      ss_update s key inc (h s ++ [MkEntry key inc])
  | upd_replace e : idx s !! key = None → Z.of_nat (length (h s)) = cap s → h s !! 0%nat = Some e →
      (∀ e', e' ∈ h s → C e ≤ C e') →
      ss_update s key inc (<[0%nat := MkEntry key (addSat64 (C e) inc)]> (h s)).

Lemma root_min s e e' : heap_ok s → h s !! 0%nat = Some e → e' ∈ h s → C e ≤ C e'.
Proof.
  intros Hh He [i Hi]%list_elem_of_lookup. rewrite <-(key_at_lookup s 0 e He), <-(key_at_lookup s i e' Hi).
  eapply heap_root_min; [exact Hh|by eapply lookup_lt_Some].
Qed.

Lemma addSat64_u64 a b : is_u64 (addSat64 a b).
Proof. unfold addSat64. case_match; [unfold is_u64; lia|apply u64_range]. Qed.

Lemma insert_elem {A} (l : list A) i a x : x ∈ <[i := a]> l → x = a ∨ x ∈ l.
Proof.
  intros [j Hj]%list_elem_of_lookup. apply list_lookup_insert_Some in Hj as [(_ & <- & _)|[_ Hj]]; [by left|].
  right. by eapply list_elem_of_lookup_2.
Qed.

(** Finishing a write at position [i] that raises its count. *)
Lemma raise_spec s i e e' :
  ss_inv s → h s !! i = Some e → (K e' = K e ∨ idx s !! K e' = None) → C e ≤ C e' → is_u64 (C e') →
  let s1 := MkSS (cap s) (<[i := e']> (h s)) (<[K e' := i]> (delete (K e) (idx s))) in
  ss_inv (siftDown s1 i) ∧ h (siftDown s1 i) ≡ₚ <[i := e']> (h s) ∧ cap (siftDown s1 i) = cap s.
Proof.
  intros [Hg Hh Hc Hw] He Hk Hle Hu s1. pose proof (lookup_lt_Some _ _ _ He) as Hi.
  assert (good_idx s1) as Hg1 by by apply good_rename.
  destruct (raise_hole (key_at s) (key_at s1) (length (h s)) i Hh Hi) as [Hh1 Ha1].
  { intros x Hx. unfold key_at. cbn. by rewrite list_lookup_insert_ne. }
  { rewrite (key_at_lookup s i e He). rewrite (key_at_lookup s1 i e'); [done|]. cbn. by apply list_lookup_insert_eq. }
  destruct (siftDown_spec s1 i Hg1) as ((Hg2 & Hp & Hc2) & Hh2); cbn [s1 h]; rewrite ?length_insert; [done..|].
  split_and!; [|done|done]. split; [done|done|rewrite Hc2, Hp; cbn; by rewrite length_insert|].
  intros x Hx. rewrite Hp in Hx. cbn in Hx. apply insert_elem in Hx as [->|Hx]; [done|]. by apply Hw.
Qed.

Lemma ss_add_spec s key inc :
  ss_inv s → is_u64 inc →
  ∃ s' l, ss_add s key inc = Some s' ∧ ss_inv s' ∧ cap s' = cap s ∧ ss_update s key inc l ∧ h s' ≡ₚ l.
Proof.
  intros Hs Hinc. destruct (Hs) as [Hg Hh Hc Hw]. unfold ss_add. destruct (idx s !! key) as [i|] eqn:Ei.
  - apply Hg in Ei as Hi. destruct Hi as (e & He & Ek). rewrite He.
    assert (is_u64 (C e)) as Hu by by eapply Hw, list_elem_of_lookup_2.
    assert (<[K e := i]> (delete (K e) (idx s)) = idx s) as Eidx.
    { rewrite insert_delete_eq. apply insert_id. congruence. }
    pose proof (raise_spec s i e (MkEntry (K e) (addSat64 (C e) inc)) Hs He) as Hr.
    cbn [K C] in Hr. rewrite Eidx in Hr. destruct Hr as (Hi' & Hp & Hcap);
      [by left|by apply addSat64_le|apply addSat64_u64|].
    eexists _, _. split_and!; [done|done|done|by eapply upd_hit|done].
  - destruct (Z.ltb_spec (Z.of_nat (length (h s))) (cap s)) as [Hlt|Hge].
    + rewrite length_app. cbn [length]. rewrite Nat.add_sub. set (s1 := MkSS _ _ _).
      assert (good_idx s1) as Hg1.
      { intros k x. cbn [s1 idx h]. rewrite lookup_insert_Some. setoid_rewrite lookup_app_Some. split.
        - intros [[<- <-]|[Hne Hx]].
          + exists (MkEntry key inc). split; [|done]. right. rewrite Nat.sub_diag. done.
          + apply Hg in Hx as (e & He & <-). eauto.
        - intros (e & [He|[Hx He]] & <-).
          + right. split; [|apply Hg; eauto]. intros E. assert (idx s !! K e = Some x) as H2 by (apply Hg; eauto). congruence.
          + apply list_elem_of_lookup_2 in He as He2. apply list_elem_of_singleton in He2 as ->.
            apply lookup_lt_Some in He. cbn in *. left. split; [done|lia]. }
      assert (hole (key_at s1) (length (h s1)) (length (h s)) ∧ below (key_at s1) (length (h s1)) (length (h s))) as [Hh1 Hb1].
      { assert (∀ x, (x < length (h s))%nat → key_at s1 x = key_at s x) as Hx.
        { intros x Hx. unfold key_at. cbn. by rewrite lookup_app_l. }
        cbn [s1 h]. rewrite length_app. cbn [length]. split; [split|].
        - intros j Hj Hne Hpe. pose proof (par_lt j). rewrite !Hx by lia. apply Hh. lia.
        - intros j Hj Ej. pose proof (par_lt j). lia.
        - intros j Hj Ej. pose proof (par_lt j). lia. }
      destruct (siftUp_spec s1 (length (h s)) Hg1) as ((Hg2 & Hp & Hc2) & Hh2); [cbn; rewrite length_app; cbn; lia|done..|].
      eexists _, _. split_and!; [done| |done|by apply upd_room|done].
      split; [done|done|rewrite Hc2, Hp; cbn; rewrite length_app; cbn; lia|].
      intros x Hx. rewrite Hp in Hx. cbn in Hx. apply elem_of_app in Hx as [Hx|Hx]; [by apply Hw|].
      apply list_elem_of_singleton in Hx as ->. done.
    + destruct (lookup_lt_is_Some_2 (h s) 0) as [e He]; [lia|]. rewrite He.
      assert (is_u64 (C e)) as Hu by by eapply Hw, list_elem_of_lookup_2.
      destruct (raise_spec s 0 e (MkEntry key (addSat64 (C e) inc)) Hs He) as (Hi' & Hp & Hcap);
        [by right|by apply addSat64_le|apply addSat64_u64|].
      eexists _, _. split_and!; [done|done|done| |done]. apply upd_replace; [done|lia|done|].
      intros e'. by apply root_min.
Qed.

(** ** Counting *)
Fixpoint total (log : list (bytes * Z)) : Z := match log with [] => 0 | kn :: log => kn.2 + total log end.
Definition count (k : bytes) (log : list (bytes * Z)) : Z := total (filter (λ kn, kn.1 = k) log).
Fixpoint sumC (l : list ssEntry) : Z := match l with [] => 0 | e :: l => C e + sumC l end.

Definition ss_run (c : Z) (log : list (bytes * Z)) : option spaceSaving :=
  foldl (λ os kn, s ← os; ss_add s kn.1 kn.2) (Some (newSpaceSaving c)) log.

(** The count an untracked key can have: the smallest counter once all are in use. *)
Definition low (s : spaceSaving) : Z := if Z.of_nat (length (h s)) <? cap s then 0 else key_at s 0.

#[export] Instance sumC_perm : Proper ((≡ₚ) ==> (=)) sumC.
Proof. intros l l'. induction 1; cbn; lia. Qed.
Lemma total_app a b : total (a ++ b) = total a + total b.
Proof. induction a; cbn; [done|]. lia. Qed.
Lemma count_snoc k log k' n : count k (log ++ [(k', n)]) = count k log + (if decide (k' = k) then n else 0).
Proof.
  unfold count. rewrite filter_app, total_app, filter_cons, filter_nil. cbn [fst]. f_equal.
  destruct (decide (k' = k)); cbn; lia.
Qed.
Lemma sumC_app a b : sumC (a ++ b) = sumC a + sumC b.
Proof. induction a; cbn; [done|]. lia. Qed.
Lemma sumC_insert l i e e' : l !! i = Some e → sumC (<[i := e']> l) = sumC l - C e + C e'.
Proof.
  intros He. rewrite insert_take_drop by by eapply lookup_lt_Some. rewrite <-(take_drop_middle l i e He) at 3.
  rewrite !sumC_app. cbn. lia.
Qed.
Lemma sumC_elem l e : (∀ x, x ∈ l → 0 ≤ C x) → e ∈ l → C e ≤ sumC l.
Proof.
  induction l as [|x l IH]; intros Hall He; [by apply elem_of_nil in He|]. cbn.
  assert (0 ≤ sumC l). { clear -Hall. induction l as [|y l IH]; cbn; [lia|]. pose proof (Hall y). assert (0 ≤ sumC l) by (apply IH; set_solver). assert (0 ≤ C y) by (apply Hall; set_solver). lia. }
  pose proof (Hall x). apply elem_of_cons in He as [->|He]; [lia|]. assert (C e ≤ sumC l) by (apply IH; [set_solver|done]).
  assert (0 ≤ C x) by (apply Hall; left). lia.
Qed.
Lemma total_nonneg log : Forall (λ kn, is_u64 kn.2) log → 0 ≤ total log.
Proof. induction 1; cbn; [lia|]. unfold is_u64 in *. lia. Qed.
Lemma count_nonneg k log : Forall (λ kn, is_u64 kn.2) log → 0 ≤ count k log.
Proof. intros H. apply total_nonneg. rewrite Forall_forall in *. intros x [_ Hx]%list_elem_of_filter. by apply H. Qed.

Lemma untracked s k : good_idx s → idx s !! k = None ↔ k ∉ K <$> h s.
Proof.
  intros Hg. rewrite list_elem_of_fmap. split.
  - intros E (e & -> & [i Hi]%list_elem_of_lookup). assert (idx s !! K e = Some i) by (apply Hg; eauto). congruence.
  - intros Hn. destruct (idx s !! k) as [i|] eqn:E; [|done]. apply Hg in E as (e & He & <-).
    destruct Hn. exists e. split; [done|by eapply list_elem_of_lookup_2].
Qed.

Lemma low_le s e : ss_inv s → e ∈ h s → 0 ≤ low s ≤ C e.
Proof.
  intros [Hg Hh Hc Hw] He. pose proof (Hw e He) as Hu. unfold is_u64 in Hu. unfold low.
  destruct (Z.ltb_spec (Z.of_nat (length (h s))) (cap s)); [lia|].
  destruct (lookup_lt_is_Some_2 (h s) 0) as [r Hr]; [lia|]. rewrite (key_at_lookup s 0 r Hr).
  pose proof (root_min s r e Hh Hr He). pose proof (Hw r (list_elem_of_lookup_2 _ _ _ Hr)). unfold is_u64 in *. lia.
Qed.
Lemma low_ge s b : ss_inv s → (∀ e, e ∈ h s → b ≤ C e) → (Z.of_nat (length (h s)) < cap s → b ≤ 0) → b ≤ low s.
Proof.
  intros [Hg Hh Hc Hw] Hb Hr. unfold low. destruct (Z.ltb_spec (Z.of_nat (length (h s))) (cap s)); [auto|].
  destruct (lookup_lt_is_Some_2 (h s) 0) as [r Hr']; [lia|]. rewrite (key_at_lookup s 0 r Hr').
  apply Hb. by eapply list_elem_of_lookup_2.
Qed.

(** What the counters say about the stream. *)
Record estimates (s : spaceSaving) (log : list (bytes * Z)) : Prop := {
  est_sum : sumC (h s) = total log;
  est_bounds e : e ∈ h s → count (K e) log ≤ C e ≤ count (K e) log + low s;
  est_out k : idx s !! k = None → count k log ≤ low s }.

Lemma low_mono s s' key inc l :
  ss_inv s → ss_inv s' → is_u64 inc → cap s' = cap s → ss_update s key inc l → h s' ≡ₚ l → low s ≤ low s'.
Proof.
  intros Hs Hs' Hinc Hcap Hu Hp. apply low_ge; [done| |].
  - intros e He. rewrite Hp in He. destruct Hu as [i e0 He0 _|Hn Hlt|e0 Hn Hfull He0 Hmin].
    + apply insert_elem in He as [->|He]; [|by apply low_le]. cbn. pose proof (list_elem_of_lookup_2 _ _ _ He0) as Hin.
      pose proof (low_le s e0 Hs Hin). pose proof (addSat64_le (C e0) inc (ss_word s Hs e0 Hin) Hinc). lia.
    + unfold low. destruct (Z.ltb_spec (Z.of_nat (length (h s))) (cap s)); [|lia].
      apply elem_of_app in He as [He|He]; [pose proof (ss_word s Hs e He)|apply list_elem_of_singleton in He as ->; cbn];
        unfold is_u64 in *; lia.
    + apply insert_elem in He as [->|He]; [|by apply low_le]. cbn. pose proof (list_elem_of_lookup_2 _ _ _ He0) as Hin.
      pose proof (low_le s e0 Hs Hin). pose proof (addSat64_le (C e0) inc (ss_word s Hs e0 Hin) Hinc). lia.
  - intros Hlt. unfold low. destruct (Z.ltb_spec (Z.of_nat (length (h s))) (cap s)); [lia|].
    rewrite Hp, Hcap in Hlt. exfalso. destruct Hu; rewrite ?length_insert, ?length_app in Hlt; lia.
Qed.

(** One addition, with the log it is appended to. *)
Section Step.
Context (s s' : spaceSaving) (log : list (bytes * Z)) (key : bytes) (inc : Z) (l : list ssEntry).
Context (Hs : ss_inv s) (Hs' : ss_inv s') (Hinc : is_u64 inc) (Hlog : Forall (λ kn, is_u64 kn.2) log).
Context (Htot : total log + inc < 2 ^ 64) (Hcap : cap s' = cap s) (Hu : ss_update s key inc l) (Hp : h s' ≡ₚ l).
Context (Hest : estimates s log).

Lemma step_sat e : e ∈ h s → addSat64 (C e) inc = C e + inc.
Proof using Hs Hinc Htot Hest.
  destruct Hest as [Hsum _ _]. intros He. pose proof (ss_word s Hs e He) as H1. unfold is_u64 in *.
  assert (C e ≤ sumC (h s)); [|apply addSat64_eq; lia].
  apply sumC_elem; [|done]. intros x Hx. pose proof (ss_word s Hs x Hx) as H2. unfold is_u64 in H2. lia.
Qed.
Lemma step_out k : k ∉ K <$> h s → count k log ≤ low s.
Proof using Hs Hest. intros Hk. apply Hest. by apply untracked; [apply Hs|]. Qed.
Lemma low_full e : Z.of_nat (length (h s)) = cap s → h s !! 0%nat = Some e → low s = C e.
Proof using.
  intros Hfull He. unfold low. destruct (Z.ltb_spec (Z.of_nat (length (h s))) (cap s)); [lia|]. by apply key_at_lookup.
Qed.

Lemma step_sum : sumC (h s') = total (log ++ [(key, inc)]).
Proof using Hs Hinc Htot Hu Hp Hest.
  pose proof step_sat as Hsat. pose proof (est_sum s log Hest) as Hsum.
  rewrite Hp, total_app. cbn. destruct Hu as [i e0 He0 _|Hn Hlt|e0 Hn Hfull He0 Hmin].
  + rewrite (sumC_insert _ _ _ _ He0). cbn. rewrite Hsat by by eapply list_elem_of_lookup_2. lia.
  + rewrite sumC_app. cbn. lia.
  + rewrite (sumC_insert _ _ _ _ He0). cbn. rewrite Hsat by by eapply list_elem_of_lookup_2. lia.
Qed.

Lemma step_bounds e : e ∈ h s' → count (K e) (log ++ [(key, inc)]) ≤ C e ≤ count (K e) (log ++ [(key, inc)]) + low s'.
Proof using Hs Hs' Hinc Hlog Htot Hcap Hu Hp Hest.
  pose proof (low_mono s s' key inc l Hs Hs' Hinc Hcap Hu Hp) as Hmono. pose proof step_sat as Hsat.
  destruct Hest as [_ Hb Hout]. assert (0 ≤ inc) by (unfold is_u64 in Hinc; lia).
  intros He. rewrite Hp in He. rewrite count_snoc. destruct Hu as [i e0 He0 Ek|Hn Hlt|e0 Hn Hfull He0 Hmin].
  + apply list_elem_of_lookup in He as [j Hj]. pose proof (list_elem_of_lookup_2 _ _ _ He0) as Hin0. subst key.
    apply list_lookup_insert_Some in Hj as [(-> & <- & _)|[Hne Hj]]; cbn [K C].
    * rewrite decide_True by done. rewrite Hsat by done. specialize (Hb e0 Hin0). lia.
    * rewrite decide_False; [specialize (Hb e (list_elem_of_lookup_2 _ _ _ Hj)); lia|].
      intros E. apply Hne. by eapply (good_inj s); [apply Hs|..].
  + apply elem_of_app in He as [He|He].
    * rewrite decide_False; [specialize (Hb e He); lia|]. intros ->.
      apply (proj1 (untracked s _ (ss_good s Hs))) in Hn. apply Hn, list_elem_of_fmap. eauto.
    * apply list_elem_of_singleton in He as ->. cbn [K C]. rewrite decide_True by done.
      pose proof (Hout key Hn) as Ho. pose proof (count_nonneg key log Hlog).
      unfold low in Ho at 1. destruct (Z.ltb_spec (Z.of_nat (length (h s))) (cap s)); [|lia].
      assert (0 ≤ low s') by (unfold low in Hmono at 1; destruct (Z.ltb_spec (Z.of_nat (length (h s))) (cap s)); lia). lia.
  + apply list_elem_of_lookup in He as [j Hj]. pose proof (list_elem_of_lookup_2 _ _ _ He0) as Hin0.
    pose proof (Hout key Hn) as Ho.
    assert (low s = C e0) as El.
    { unfold low. destruct (Z.ltb_spec (Z.of_nat (length (h s))) (cap s)); [lia|]. by apply key_at_lookup. }
    apply list_lookup_insert_Some in Hj as [(<- & <- & _)|[Hne Hj]]; cbn [K C].
    * rewrite decide_True by done. rewrite Hsat by done. pose proof (count_nonneg key log Hlog). lia.
    * rewrite decide_False; [specialize (Hb e (list_elem_of_lookup_2 _ _ _ Hj)); lia|]. intros ->.
      apply (proj1 (untracked s _ (ss_good s Hs))) in Hn. apply Hn, list_elem_of_fmap. exists e. split; [done|by eapply list_elem_of_lookup_2].
Qed.

Lemma step_untracked k : idx s' !! k = None → count k (log ++ [(key, inc)]) ≤ low s'.
Proof using Hs Hs' Hinc Hcap Hu Hp Hest.
  pose proof (low_mono s s' key inc l Hs Hs' Hinc Hcap Hu Hp) as Hmono. pose proof step_out as Hout'.
  pose proof (est_bounds s log Hest) as Hb.
  intros Hk. rewrite (untracked s' k (ss_good s' Hs')) in Hk. rewrite Hp in Hk. rewrite count_snoc.
  destruct Hu as [i e0 He0 Ek|Hn Hlt|e0 Hn Hfull He0 Hmin].
  + assert (k ∉ K <$> h s) as Hk'.
    { rewrite list_fmap_insert in Hk. rewrite list_insert_id in Hk; [done|]. by rewrite list_lookup_fmap, He0. }
    rewrite decide_False; [specialize (Hout' k Hk'); lia|]. intros ->. apply Hk'. rewrite <-Ek.
    apply list_elem_of_fmap. exists e0. split; [done|by eapply list_elem_of_lookup_2].
  + rewrite fmap_app in Hk. rewrite not_elem_of_app in Hk. destruct Hk as [Hk Hkey]. cbn in Hkey.
    rewrite decide_False; [specialize (Hout' k Hk); lia|]. intros ->. apply Hkey. by left.
  + rewrite decide_False.
    2: { intros ->. apply Hk, list_elem_of_fmap. eexists (MkEntry k _). split; [done|].
         eapply list_elem_of_lookup_2, list_lookup_insert_eq. by eapply lookup_lt_Some. }
    destruct (decide (k = K e0)) as [->|Hne].
    * assert (low s = C e0) as El.
      { unfold low. destruct (Z.ltb_spec (Z.of_nat (length (h s))) (cap s)); [lia|]. by apply key_at_lookup. }
      specialize (Hb e0 (list_elem_of_lookup_2 _ _ _ He0)). lia.
    * specialize (Hout' k). enough (k ∉ K <$> h s) as Hk2 by (specialize (Hout' Hk2); lia).
      rewrite list_elem_of_fmap. intros (e & -> & [j Hj]%list_elem_of_lookup). apply Hk, list_elem_of_fmap.
      exists e. split; [done|]. eapply list_elem_of_lookup_2. rewrite list_lookup_insert_ne; [done|]. intros <-. congruence.
Qed.
End Step.

Lemma estimates_step s s' log key inc l :
  ss_inv s → ss_inv s' → is_u64 inc → Forall (λ kn, is_u64 kn.2) log → total log + inc < 2 ^ 64 →
  cap s' = cap s → ss_update s key inc l → h s' ≡ₚ l →
  estimates s log → estimates s' (log ++ [(key, inc)]).
Proof.
  intros. split; [by apply (step_sum s s' log key inc l)|by apply (step_bounds s s' log key inc l)|].
  by apply (step_untracked s s' log key inc l).
Qed.

Lemma ss_new_inv c : ss_inv (newSpaceSaving c).
Proof.
  split; cbn [newSpaceSaving h cap].
  - intros k i. cbn. rewrite lookup_empty, lookup_nil. naive_solver.
  - intros j Hj. cbn in Hj. lia.
  - cbn. destruct (Z.ltb_spec c 1); lia.
  - intros e He. by apply elem_of_nil in He.
Qed.
Lemma ss_new_estimates c : estimates (newSpaceSaving c) [].
Proof.
  split; [done|intros e He; by apply elem_of_nil in He|]. intros k _. change (count k []) with 0.
  unfold low. cbn [newSpaceSaving h cap length]. destruct (Z.ltb_spec c 1); [done|].
  destruct (Z.ltb_spec (Z.of_nat 0) c); lia.
Qed.

Lemma ss_run_spec c log :
  Forall (λ kn, is_u64 kn.2) log →
  ∃ s, ss_run c log = Some s ∧ ss_inv s ∧ cap s = Z.max 1 c ∧ (total log < 2 ^ 64 → estimates s log).
Proof.
  induction log as [|[k n] log IH] using rev_ind; intros Hlog.
  { eexists. split_and!; [done|apply ss_new_inv| |intros _; apply ss_new_estimates].
    cbn. destruct (Z.ltb_spec c 1); lia. }
  apply Forall_app in Hlog as [Hlog Hn]. rewrite Forall_singleton in Hn. cbn in Hn.
  destruct (IH Hlog) as (s & Er & Hi & Hc & He). destruct (ss_add_spec s k n Hi Hn) as (s' & l & Ea & Hi' & Hc' & Hu & Hp).
  exists s'. unfold ss_run in *. rewrite foldl_app, Er. cbn [foldl mbind option_bind fst snd].
  split; [done|]. split; [done|]. split; [congruence|]. rewrite total_app. cbn [total snd]. intros Ht.
  apply (estimates_step s s' log k n l); try done; [lia|]. apply He. unfold is_u64 in Hn. lia.
Qed.

Lemma low_total s log : ss_inv s → estimates s log → low s * cap s ≤ total log.
Proof.
  intros Hs [Hsum _ _]. rewrite <-Hsum.
  assert (∀ l b, (∀ e, e ∈ l → b ≤ C e) → b * Z.of_nat (length l) ≤ sumC l) as Hl.
  { clear. induction l as [|e l IH]; intros b Hb; cbn [sumC length]; [lia|].
    assert (b ≤ C e) by (apply Hb; left). assert (b * Z.of_nat (length l) ≤ sumC l) by (apply IH; intros; apply Hb; by right). lia. }
  specialize (Hl (h s) (low s)). destruct (decide (Z.of_nat (length (h s)) < cap s)).
  - unfold low. destruct (Z.ltb_spec (Z.of_nat (length (h s))) (cap s)); [|lia].
    enough (0 ≤ sumC (h s)) by lia. specialize (Hl). destruct (h s) as [|e k] eqn:E; [done|].
    assert (C e ≤ sumC (e :: k)). { apply sumC_elem; [|left]. intros x Hx. rewrite <-E in Hx. apply (ss_word s Hs) in Hx. unfold is_u64 in Hx. lia. }
    assert (is_u64 (C e)) as Hu by (apply (ss_word s Hs); rewrite E; left). unfold is_u64 in Hu. lia.
  - assert (Z.of_nat (length (h s)) = cap s) as <- by (pose proof (ss_cap s Hs); lia). apply Hl. intros e. by apply low_le.
Qed.

(** ** Theorems *)

(** C30.  The hot-key list never loses a heavy hitter: after any stream of additions that sums
    below [2^64], no operation has panicked, at most [max 1 k] distinct keys are tracked,
    every reported count is at least the true count and exceeds it by at most the stream's
    total divided by the capacity, and every key with more than that share is reported. *)
Theorem space_saving_guarantee c log :
  Forall (λ kn, is_u64 kn.2) log → total log < 2 ^ 64 →
  ∃ s, ss_run c log = Some s ∧ NoDup (export s).*1 ∧ Z.of_nat (length (export s)) ≤ Z.max 1 c ∧
    (∀ k n, (k, n) ∈ export s → count k log ≤ n ≤ count k log + total log / Z.max 1 c) ∧
    (∀ k, total log < count k log * Z.max 1 c → k ∈ (export s).*1).
Proof.
  intros Hlog Ht. destruct (ss_run_spec c log Hlog) as (s & Er & Hi & Hc & He). specialize (He Ht).
  pose proof (low_total s log Hi He) as Hlow. rewrite Hc in Hlow.
  assert ((export s).*1 = K <$> h s) as Ek by (unfold export; by rewrite <-list_fmap_compose).
  exists s. split_and!; [done|rewrite Ek|unfold export; rewrite length_fmap; pose proof (ss_cap s Hi); lia| |rewrite Ek].
  - apply NoDup_alt. intros i j x. rewrite !list_lookup_fmap.
    destruct (h s !! i) as [a|] eqn:Ha, (h s !! j) as [b|] eqn:Hb; cbn; try done. intros [= <-] [= E].
    by eapply (good_inj s i j a b); [apply Hi|..].
  - intros k n. unfold export. rewrite list_elem_of_fmap. intros (e & [= -> ->] & Hin).
    pose proof (est_bounds s log He e Hin). assert (low s ≤ total log / Z.max 1 c) by (apply Z.div_le_lower_bound; lia). lia.
  - intros k Hk. destruct (decide (k ∈ K <$> h s)) as [|Hn]; [done|]. exfalso.
    apply (untracked s k (ss_good s Hi)) in Hn. pose proof (est_out s log He k Hn). nia.
Qed.

Lemma space_saving_guarantee_witness :
  ∃ s, ss_run 2 [([1], 5); ([2], 1); ([3], 1); ([1], 2)] = Some s ∧ [1] ∈ (export s).*1.
Proof.
  destruct (space_saving_guarantee 2 [([1], 5); ([2], 1); ([3], 1); ([1], 2)]) as (s & E & _ & _ & _ & H).
  - repeat constructor; cbn; lia.
  - reflexivity.
  - exists s. split; [exact E|]. apply H. reflexivity.
Defined.
End Heat.
