(* ===== verification/Handoff.v ===== *)
(** * Hinted handoff queues ([src/cluster/handoff.go])

    A [hintQueue] holds, per peer, the writes that peer has missed: a FIFO of ready hints, a
    min-heap of hints waiting for their backoff, and an index by key.  Hints are shared
    objects with back references into both containers, so a queue carries a store of hints
    (a pointer is an index) and the containers hold pointers; an element of the FIFO has an
    identity of its own, as in [container/list], because a hint can be replaced in place.
    [container/heap] is modelled from its definition over the sift loops of [Heap].
    The clock is an argument; each operation is one critical section of the queue's mutex.
    Counters are unbounded integers: they count bytes held in memory.  [HandoffInv] shows
    that every pointer and position the operations follow is valid. *)
From Stdlib Require Import ZArith Lia.
From stdpp Require Import base numbers list gmap.
From S2P Require Import Prelude Heap.
Local Open Scope Z_scope.

Module Handoff.
Import Heap.

Definition bytes : Type := list Z.

Record hintItem := MkHint {
  hkey : bytes; hval : bytes; exp : Z; ver : Z; cp : bool; isDel : bool;
  addedAt : Z; nextAt : Z; tries : Z; size : Z; elem : option nat; heapIndex : Z }.

Definition zeroHint : hintItem := MkHint [] [] 0 0 false false 0 0 0 0 None 0.

Definition set_elem (e : option nat) (h : hintItem) : hintItem :=
  MkHint (hkey h) (hval h) (exp h) (ver h) (cp h) (isDel h) (addedAt h) (nextAt h) (tries h) (size h) e (heapIndex h).
Definition set_heapIndex (i : Z) (h : hintItem) : hintItem :=
  MkHint (hkey h) (hval h) (exp h) (ver h) (cp h) (isDel h) (addedAt h) (nextAt h) (tries h) (size h) (elem h) i.
Definition set_sched (n t : Z) (h : hintItem) : hintItem :=
  MkHint (hkey h) (hval h) (exp h) (ver h) (cp h) (isDel h) (addedAt h) n t (size h) (elem h) (heapIndex h).

Definition expired (ttl now : Z) (h : hintItem) : bool :=
  if (0 <? ttl) && (ttl <=? i64 (now - addedAt h)) then true
  else if (0 <? exp h) && (exp h <=? now) && negb (isDel h) then true
  else false.

Inductive DropPolicy := DropOldest | DropNewest | DropNone.

Record hintQueue := MkQueue {
  objs : list hintItem;
  index : gmap bytes nat;
  ready : list (nat * nat);
  nextElem : nat;
  delayed : list nat;
  qbytes : Z; items : Z; maxItems : Z; maxBytes : Z; ttl : Z; drop : DropPolicy }.

Definition newHintQueue (perPeerCap perPeerBytes ttl : Z) (drop : DropPolicy) : hintQueue :=
  MkQueue [] ∅ [] 0 [] 0 0 perPeerCap perPeerBytes ttl drop.

(** ** Fields *)
Definition put_objs (o : list hintItem) (q : hintQueue) : hintQueue :=
  MkQueue o (index q) (ready q) (nextElem q) (delayed q) (qbytes q) (items q) (maxItems q) (maxBytes q) (ttl q) (drop q).
Definition put_index (x : gmap bytes nat) (q : hintQueue) : hintQueue :=
  MkQueue (objs q) x (ready q) (nextElem q) (delayed q) (qbytes q) (items q) (maxItems q) (maxBytes q) (ttl q) (drop q).
Definition put_ready (r : list (nat * nat)) (q : hintQueue) : hintQueue :=
  MkQueue (objs q) (index q) r (nextElem q) (delayed q) (qbytes q) (items q) (maxItems q) (maxBytes q) (ttl q) (drop q).
Definition put_nextElem (n : nat) (q : hintQueue) : hintQueue :=
  MkQueue (objs q) (index q) (ready q) n (delayed q) (qbytes q) (items q) (maxItems q) (maxBytes q) (ttl q) (drop q).
Definition put_delayed (d : list nat) (q : hintQueue) : hintQueue :=
  MkQueue (objs q) (index q) (ready q) (nextElem q) d (qbytes q) (items q) (maxItems q) (maxBytes q) (ttl q) (drop q).
Definition put_count (b i : Z) (q : hintQueue) : hintQueue :=
  MkQueue (objs q) (index q) (ready q) (nextElem q) (delayed q) b i (maxItems q) (maxBytes q) (ttl q) (drop q).

Definition obj (q : hintQueue) (p : nat) : hintItem := default zeroHint (objs q !! p).
Definition upd (p : nat) (f : hintItem → hintItem) (q : hintQueue) : hintQueue := put_objs (alter f p (objs q)) q.

(** [&hintItem{...}]. *)
Definition alloc (h : hintItem) (q : hintQueue) : hintQueue * nat := (put_objs (objs q ++ [h]) q, length (objs q)).

(** ** [container/list] *)
Definition pushBack (p : nat) (q : hintQueue) : hintQueue * nat :=
  (put_nextElem (S (nextElem q)) (put_ready (ready q ++ [(nextElem q, p)]) q), nextElem q).
Definition list_remove (e : nat) (q : hintQueue) : hintQueue := put_ready (filter (λ x, x.1 ≠ e) (ready q)) q.
Definition set_value (e p : nat) (q : hintQueue) : hintQueue :=
  put_ready ((λ x, if decide (x.1 = e) then (e, p) else x) <$> ready q) q.
Definition front (q : hintQueue) : option nat := snd <$> hd_error (ready q).

(** ** [delayHeap] and [container/heap] *)
Definition delay_swap (i j : nat) (q : hintQueue) : hintQueue :=
  let d := swapl i j (delayed q) in
  match d !! i, d !! j with
  | Some a, Some b => upd b (set_heapIndex (Z.of_nat j)) (upd a (set_heapIndex (Z.of_nat i)) (put_delayed d q))
  | _, _ => q
  end.
Definition delay_push (p : nat) (q : hintQueue) : hintQueue :=
  put_delayed (delayed q ++ [p]) (upd p (set_heapIndex (Z.of_nat (length (delayed q)))) q).
Definition delay_pop (q : hintQueue) : hintQueue * nat :=
  let n := length (delayed q) in
  let hi := default 0%nat (delayed q !! (n - 1)%nat) in
  (upd hi (set_heapIndex (-1)) (put_delayed (take (n - 1) (delayed q)) q), hi).

(** The heap is ordered by [nextAt]. *)
#[export] Instance delay_heap : HeapStore hintQueue Z :=
  {| arr q := (λ p, nextAt (obj q p)) <$> delayed q; key z := z; hswap := delay_swap |}.

Definition heap_Push (p : nat) (q : hintQueue) : hintQueue :=
  let q := delay_push p q in
  let n := (length (delayed q) - 1)%nat in up (S n) q n.
Definition heap_Pop (q : hintQueue) : hintQueue * nat :=
  let n := (length (delayed q) - 1)%nat in
  let q := delay_swap 0 n q in
  delay_pop (down (S n) q 0 n).1.
Definition heap_Remove (i : nat) (q : hintQueue) : hintQueue * nat :=
  let n := (length (delayed q) - 1)%nat in
  let q :=
    if (n =? i)%nat then q
    else
      let q := delay_swap i n q in
      let '(q', i') := down (S n) q i n in
      if (i <? i')%nat then q' else up (S i) q' i in
  delay_pop q.

(** ** Queue operations *)
Definition removeItem (p : nat) (q : hintQueue) : hintQueue :=
  let hi := obj q p in
  let q := put_index (delete (hkey hi) (index q)) q in
  let q :=
    match elem hi with
    | Some e => upd p (set_elem None) (list_remove e q)
    | None => if 0 <=? heapIndex hi then (heap_Remove (Z.to_nat (heapIndex hi)) q).1 else q
    end in
  put_count (qbytes q - size hi) (items q - 1) q.

(** The loop of [moveDueLocked]; [fuel] counts the delayed hints. *)
Fixpoint moveDue_loop (fuel : nat) (now : Z) (q : hintQueue) : hintQueue :=
  match fuel with
  | O => q
  | S fuel =>
      match delayed q with
      | [] => q
      | fr :: _ =>
          if now <? nextAt (obj q fr) then q
          else
            let '(q, hi) := heap_Pop q in
            let '(q, e) := pushBack hi q in
            moveDue_loop fuel now (upd hi (set_elem (Some e)) q)
      end
  end.
Definition moveDueLocked (now : Z) (q : hintQueue) : hintQueue := moveDue_loop (length (delayed q)) now q.

Definition overCap (q : hintQueue) (items bytes : Z) : bool :=
  ((0 <? maxItems q) && (maxItems q <? items)) || ((0 <? maxBytes q) && (maxBytes q <? bytes)).

Definition tryDropReady (avoid : nat) (q : hintQueue) : option (hintQueue * Z) :=
  match front q with
  | None => None
  | Some h => if decide (h = avoid) then None else Some (removeItem h q, size (obj q h))
  end.
Definition tryDropDelayed (avoid : nat) (q : hintQueue) : option (hintQueue * Z) :=
  match delayed q with
  | [] => None
  | fr :: _ =>
      if decide (fr = avoid) then None
      else
        let '(q, hi) := heap_Pop q in
        let h := obj q hi in
        let q := put_index (delete (hkey h) (index q)) q in
        Some (put_count (qbytes q - size h) (items q - 1) q, size h)
  end.
(** The count and bytes dropped: 1 hint, or none. *)
Definition dropOldest (avoid : nat) (q : hintQueue) : hintQueue * (Z * Z) :=
  match tryDropReady avoid q with
  | Some (q, b) => (q, (1, b))
  | None =>
      match tryDropDelayed avoid q with
      | Some (q, b) => (q, (1, b))
      | None => (q, (0, 0))
      end
  end.

(** [for q.overCap(q.items, q.bytes) { dc, db := q.dropOldest(it); if dc == 0 { ... } ... }]:
    the queue, the bytes and hints dropped, and whether the loop ended by fitting the caps. *)
Fixpoint drop_loop (fuel : nat) (avoid : nat) (q : hintQueue) (tb ti : Z) : hintQueue * Z * Z * bool :=
  match fuel with
  | O => (q, tb, ti, false)
  | S fuel =>
      if overCap q (items q) (qbytes q) then
        let '(q, (dc, db)) := dropOldest avoid q in
        if dc =? 0 then (q, tb, ti, false) else drop_loop fuel avoid q (tb + db) (ti + dc)
      else (q, tb, ti, true)
  end.
Definition drop_fuel (q : hintQueue) : nat := S (length (ready q) + length (delayed q)).

Definition result : Type := bool * Z * Z.

(** Coalescing [it] with the hint [old] of the same key: the branch [if old, ok := q.index[keyStr]; ok]. *)
Definition replace_in_place (it old : nat) (q : hintQueue) : hintQueue :=
  let q := if 0 <=? heapIndex (obj q old)
           then upd it (set_sched (nextAt (obj q old)) (tries (obj q old))) q else q in
  match elem (obj q old) with
  | Some e => upd it (λ h, set_heapIndex (-1) (set_elem (Some e) h)) (set_value e it q)
  | None =>
      let i := heapIndex (obj q old) in
      put_delayed (<[Z.to_nat i := it]> (delayed q)) (upd it (λ h, set_elem None (set_heapIndex i h)) q)
  end.
(** Undoing it when the caps cannot be met by dropping others. *)
Definition restore_old (it old : nat) (in_ready : bool) (q : hintQueue) : hintQueue :=
  if in_ready then
    let e := elem (obj q it) in
    let q := match e with Some e => set_value e old q | None => q end in
    upd it (set_elem None) (upd old (set_elem e) q)
  else
    let i := heapIndex (obj q it) in
    upd it (set_heapIndex (-1)) (upd old (set_heapIndex i) (put_delayed (<[Z.to_nat i := old]> (delayed q)) q)).

(** The refusal without drops: the containers get [old] back, [it] keeps its references. *)
Definition undo (old : nat) (q : hintQueue) : hintQueue :=
  match elem (obj q old) with
  | Some e => set_value e old q
  | None => if 0 <=? heapIndex (obj q old) then put_delayed (<[Z.to_nat (heapIndex (obj q old)) := old]> (delayed q)) q else q
  end.

(** Enforcing the caps after [it] has replaced [old]. *)
Definition enforce_existing (k : bytes) (it old : nat) (in_ready : bool) (delta : Z) (q : hintQueue) : hintQueue * result :=
  if overCap q (items q) (qbytes q) then
    match drop q with
    | DropOldest =>
        let '(q, tb, ti, fits) := drop_loop (drop_fuel q) it q 0 0 in
        if fits then (q, (true, delta - tb, - ti))
        else
          let q := restore_old it old in_ready q in
          let q := put_index (<[k := old]> (index q)) q in
          (put_count (qbytes q - delta) (items q) q, (false, tb, - ti))
    | _ =>
        let q := undo old q in
        let q := put_index (<[k := old]> (index q)) q in
        (put_count (qbytes q - delta) (items q) q, (false, 0, 0))
    end
  else (q, (true, delta, 0)).

Definition enqueue_existing (it old : nat) (q : hintQueue) : hintQueue * result :=
  let k := hkey (obj q it) in
  if ver (obj q it) <=? ver (obj q old) then (q, (false, 0, 0))
  else
    let in_ready := match elem (obj q old) with Some _ => true | None => false end in
    let q := replace_in_place it old q in
    let delta := size (obj q it) - size (obj q old) in
    let q := put_index (<[k := it]> (index q)) (put_count (qbytes q + delta) (items q) q) in
    enforce_existing k it old in_ready delta q.

(** Choosing the container of a new hint. *)
Definition place (now : Z) (it : nat) (q : hintQueue) : hintQueue :=
  if now <? nextAt (obj q it) then upd it (set_elem None) (heap_Push it q)
  else let '(q, e) := pushBack it q in upd it (λ h, set_heapIndex (-1) (set_elem (Some e) h)) q.

Definition enqueue_new (now : Z) (it : nat) (q : hintQueue) : hintQueue * result :=
  let k := hkey (obj q it) in
  let q := place now it q in
  let q := put_index (<[k := it]> (index q)) q in
  let q := put_count (qbytes q + size (obj q it)) (items q + 1) q in
  if overCap q (items q) (qbytes q) then
    match drop q with
    | DropOldest =>
        let '(q, tb, ti, fits) := drop_loop (drop_fuel q) it q 0 0 in
        if fits then (q, (true, size (obj q it) - tb, 1 - ti))
        else
          let q := removeItem it q in
          (put_index (delete k (index q)) q, (false, - tb, - ti))
    | _ =>
        let q := removeItem it q in
        (put_index (delete k (index q)) q, (false, 0, 0))
    end
  else (q, (true, size (obj q it), 1)).

(** [enqueue]: (accepted, bytesDelta, itemsDelta). *)
Definition enqueue (now : Z) (it : nat) (q : hintQueue) : hintQueue * result :=
  if expired (ttl q) now (obj q it) then (q, (false, 0, 0))
  else
    match index q !! hkey (obj q it) with
    | Some old => enqueue_existing it old q
    | None => enqueue_new now it q
    end.

(** The loop of [popReady]; [fuel] counts the ready hints. *)
Fixpoint pop_loop (fuel : nat) (now : Z) (q : hintQueue) : hintQueue * option nat :=
  match fuel with
  | O => (q, None)
  | S fuel =>
      match front q with
      | None => (q, None)
      | Some it =>
          if expired (ttl q) now (obj q it) then pop_loop fuel now (removeItem it q)
          else (removeItem it q, Some it)
      end
  end.
Definition popReady (now : Z) (q : hintQueue) : hintQueue * option nat :=
  let q := moveDueLocked now q in pop_loop (S (length (ready q))) now q.

Definition requeue (now : Z) (it : nat) (q : hintQueue) : hintQueue := (enqueue now it q).1.

Definition stats (q : hintQueue) : Z * Z := (items q, qbytes q).

End Handoff.
