(* ===== verification/HandoffInv.v ===== *)
(** * Invariant of the hint queues

    [core] relates the back references of the hints to their places in the containers, [Rep]
    adds the index, the counters and heap order.  Operations are specified by what they do to
    the sequence of ready hints and the collection of delayed ones; [frame] says that they
    change nothing of a hint but its back references, and nothing at all of other hints. *)
From Stdlib Require Import ZArith Lia.
From stdpp Require Import base numbers list gmap sets.
From S2P Require Import Prelude Heap Handoff.
Local Open Scope Z_scope.

Module HandoffInv.
Import Heap Handoff.

Definition mem (q : hintQueue) : list nat := (ready q).*2 ++ delayed q.
Definition live (q : hintQueue) (p : nat) : Prop := (p < length (objs q))%nat.
#[export] Instance live_dec q p : Decision (live q p).
Proof. unfold live. apply _. Defined.
Definition detached (q : hintQueue) (p : nat) : Prop :=
  live q p ∧ p ∉ mem q ∧ elem (obj q p) = None ∧ heapIndex (obj q p) = -1.
(** A hint without its back references. *)
Definition data (h : hintItem) : hintItem := set_heapIndex 0 (set_elem None h).
Definition same_cfg (q q' : hintQueue) : Prop :=
  maxItems q' = maxItems q ∧ maxBytes q' = maxBytes q ∧ ttl q' = ttl q ∧ drop q' = drop q.
Definition same_books (q q' : hintQueue) : Prop :=
  index q' = index q ∧ qbytes q' = qbytes q ∧ items q' = items q.

Record core (q : hintQueue) : Prop := {
  c_ids : NoDup (ready q).*1;
  c_next e p : (e, p) ∈ ready q → (e < nextElem q)%nat;
  c_ready e p : (e, p) ∈ ready q → live q p ∧ elem (obj q p) = Some e ∧ heapIndex (obj q p) = -1;
  c_delayed i p : delayed q !! i = Some p → live q p ∧ elem (obj q p) = None ∧ heapIndex (obj q p) = Z.of_nat i }.

Record frame (q q' : hintQueue) : Prop := {
  f_len : length (objs q') = length (objs q);
  f_data p : data (obj q' p) = data (obj q p);
  f_other p : p ∉ mem q → obj q' p = obj q p;
  f_cfg : same_cfg q q' }.

#[export] Instance same_cfg_refl : Reflexive same_cfg.
Proof. by intros q. Qed.
Lemma same_cfg_trans q1 q2 q3 : same_cfg q1 q2 → same_cfg q2 q3 → same_cfg q1 q3.
Proof. unfold same_cfg. intuition congruence. Qed.
Lemma frame_refl q : frame q q.
Proof. by split. Qed.
Lemma frame_trans q1 q2 q3 :
  (∀ p, p ∈ mem q2 → p ∈ mem q1) → frame q1 q2 → frame q2 q3 → frame q1 q3.
Proof.
  intros Hm [L1 D1 O1 C1] [L2 D2 O2 C2]. split; [congruence|congruence| |by eapply same_cfg_trans].
  intros p Hp. rewrite O2 by auto. auto.
Qed.

(** ** Objects *)
Lemma obj_upd q p f x : obj (upd p f q) x = if decide (x = p ∧ live q p) then f (obj q p) else obj q x.
Proof.
  unfold obj, upd, live. cbn. case_decide as E.
  - destruct E as [-> Hl]. rewrite list_lookup_alter_eq. by destruct (lookup_lt_is_Some_2 _ _ Hl) as [h ->].
  - destruct (decide (x = p)) as [->|]; [|by rewrite list_lookup_alter_ne].
    rewrite list_lookup_alter_eq. destruct (objs q !! p) eqn:Ep; [|done]. apply lookup_lt_Some in Ep. tauto.
Qed.
Lemma obj_upd_eq q p f : live q p → obj (upd p f q) p = f (obj q p).
Proof. intros Hl. rewrite obj_upd. by rewrite decide_True. Qed.
Lemma obj_upd_ne q p f x : x ≠ p → obj (upd p f q) x = obj q x.
Proof. intros Hl. rewrite obj_upd. rewrite decide_False; tauto. Qed.
Lemma live_upd q p f x : live (upd p f q) x ↔ live q x.
Proof. unfold live, upd. cbn. by rewrite length_alter. Qed.
Lemma len_upd q p f : length (objs (upd p f q)) = length (objs q).
Proof. unfold upd. cbn. by rewrite length_alter. Qed.

(** Changing the back references of a member, or of any hint, keeps the data. *)
Lemma data_upd q p f x : (∀ h, data (f h) = data h) → data (obj (upd p f q) x) = data (obj q x).
Proof. intros Hf. rewrite obj_upd. case_decide as E; [|done]. destruct E as [-> _]. apply Hf. Qed.
Lemma data_elem e h : data (set_elem e h) = data h.
Proof. done. Qed.
Lemma data_heapIndex i h : data (set_heapIndex i h) = data h.
Proof. done. Qed.

Lemma data_fields h h' : data h = data h' →
  hkey h = hkey h' ∧ hval h = hval h' ∧ exp h = exp h' ∧ ver h = ver h' ∧ cp h = cp h' ∧ isDel h = isDel h' ∧
  addedAt h = addedAt h' ∧ nextAt h = nextAt h' ∧ tries h = tries h' ∧ size h = size h'.
Proof. destruct h, h'. unfold data, set_heapIndex, set_elem. cbn. intros [=]. by subst. Qed.
Lemma data_expired l now h h' : data h = data h' → expired l now h = expired l now h'.
Proof. intros E. apply data_fields in E as (_ & _ & Ee & _ & _ & Ed & Ea & _). unfold expired. by rewrite Ee, Ed, Ea. Qed.
Lemma obj_same_frame q q' p : frame q q' →
  hkey (obj q' p) = hkey (obj q p) ∧ size (obj q' p) = size (obj q p) ∧ nextAt (obj q' p) = nextAt (obj q p) ∧
  ver (obj q' p) = ver (obj q p).
Proof. intros Hf. pose proof (data_fields _ _ (f_data q q' Hf p)). tauto. Qed.

(** ** Members *)
Lemma elem_mem q p : p ∈ mem q ↔ (∃ e, (e, p) ∈ ready q) ∨ p ∈ delayed q.
Proof.
  unfold mem. rewrite elem_of_app, list_elem_of_fmap. split; intros [H|H]; auto; left.
  - destruct H as ([e x] & -> & H). eauto.
  - destruct H as [e H]. by exists (e, p).
Qed.
Lemma ready_inj q e p p' : core q → (e, p) ∈ ready q → (e, p') ∈ ready q → p = p'.
Proof.
  intros [Hid _ _ _] [i Hi]%list_elem_of_lookup [j Hj]%list_elem_of_lookup.
  assert (i = j) as ->; [|congruence]. eapply NoDup_lookup; [exact Hid|..]; by rewrite list_lookup_fmap, ?Hi, ?Hj.
Qed.
Lemma mem_live q p : core q → p ∈ mem q → live q p.
Proof.
  intros Hc [[e He]|[i Hi]%list_elem_of_lookup]%elem_mem; [by eapply c_ready|by eapply c_delayed].
Qed.
Lemma delayed_inj q i j p : core q → delayed q !! i = Some p → delayed q !! j = Some p → i = j.
Proof. intros Hc Hi Hj. apply (c_delayed q Hc) in Hi as (_ & _ & ?), Hj as (_ & _ & ?). lia. Qed.
Lemma core_nodup q : core q → NoDup (mem q).
Proof.
  intros Hc. unfold mem. apply NoDup_app. split_and!.
  - apply NoDup_alt. intros i j p. rewrite !list_lookup_fmap.
    destruct (ready q !! i) as [[e a]|] eqn:Hi, (ready q !! j) as [[e' b]|] eqn:Hj; cbn; try done. intros [= ->] [= ->].
    apply list_elem_of_lookup_2 in Hi as Hi', Hj as Hj'.
    apply (c_ready q Hc) in Hi' as (_ & E1 & _), Hj' as (_ & E2 & _). rewrite E1 in E2. injection E2 as <-.
    eapply NoDup_lookup; [apply (c_ids q Hc)|..]; by rewrite list_lookup_fmap, ?Hi, ?Hj.
  - intros p. rewrite list_elem_of_fmap. intros ([e x] & -> & H) [i Hi]%list_elem_of_lookup. cbn in Hi.
    apply (c_ready q Hc) in H as (_ & H & _). apply (c_delayed q Hc) in Hi as (_ & Hi & _). congruence.
  - apply NoDup_alt. intros i j p. by apply delayed_inj.
Qed.

(** ** The delayed heap *)
Lemma arr_len q : length (arr q) = length (delayed q).
Proof. cbn. apply length_fmap. Qed.

Lemma delay_swap_eq q i j a b :
  delayed q !! i = Some a → delayed q !! j = Some b →
  delay_swap i j q = upd a (set_heapIndex (Z.of_nat j)) (upd b (set_heapIndex (Z.of_nat i)) (put_delayed (swapl i j (delayed q)) q)).
Proof.
  intros Ha Hb. unfold delay_swap. rewrite !swapl_lookup by (by eapply lookup_lt_Some).
  rewrite decide_True by done. rewrite Hb. destruct (decide (j = i)) as [->|]; [|by rewrite decide_True, Ha].
  rewrite Hb in *. by simplify_eq.
Qed.

Lemma nextAt_upd q p f x : (∀ h, nextAt (f h) = nextAt h) → nextAt (obj (upd p f q) x) = nextAt (obj q x).
Proof. intros Hf. rewrite obj_upd. case_decide as E; [|done]. destruct E as [-> _]. apply Hf. Qed.

#[export] Instance delay_heap_laws : HeapLaws hintQueue Z.
Proof.
  intros i j q Hi Hj. rewrite arr_len in Hi, Hj. destruct (lookup_lt_is_Some_2 _ _ Hi) as [a Ha].
  destruct (lookup_lt_is_Some_2 _ _ Hj) as [b Hb]. cbn [hswap delay_heap]. rewrite (delay_swap_eq q i j a b) by done.
  apply list_eq. intros x. rewrite swapl_lookup by (by rewrite arr_len). cbn [arr delay_heap].
  rewrite !list_lookup_fmap. cbn [delayed upd put_objs put_delayed]. rewrite swapl_lookup by done.
  assert (∀ o : option nat, (λ p, nextAt (obj (upd a (set_heapIndex (Z.of_nat j)) (upd b (set_heapIndex (Z.of_nat i))
    (put_delayed (swapl i j (delayed q)) q))) p)) <$> o = (λ p, nextAt (obj q p)) <$> o) as E.
  { intros [p|]; [|done]. cbn. f_equal. by rewrite !nextAt_upd. }
  unfold upd in E. repeat case_decide; exact (E _).
Qed.

(** What rearranging the heap keeps. *)
Record rearranged (q q' : hintQueue) : Prop := {
  ra_core : core q';
  ra_frame : frame q q';
  ra_books : same_books q q';
  ra_ready : ready q' = ready q;
  ra_next : nextElem q' = nextElem q;
  ra_delayed : delayed q' ≡ₚ delayed q }.

Lemma rearranged_refl q : core q → rearranged q q.
Proof. intros Hc. by split. Qed.
Lemma rearranged_trans q1 q2 q3 : rearranged q1 q2 → rearranged q2 q3 → rearranged q1 q3.
Proof.
  intros [C1 F1 (B1 & B2 & B3) R1 N1 D1] [C2 F2 (B4 & B5 & B6) R2 N2 D2]. split; [done| |split_and!; congruence|congruence|congruence|by rewrite D2].
  eapply frame_trans; [|exact F1|exact F2]. intros p. unfold mem. by rewrite R1, D1.
Qed.

Lemma swap_rearranged q i j :
  core q → (i < length (delayed q))%nat → (j < length (delayed q))%nat → rearranged q (delay_swap i j q).
Proof.
  intros Hc Hi Hj. destruct (lookup_lt_is_Some_2 _ _ Hi) as [a Ha]. destruct (lookup_lt_is_Some_2 _ _ Hj) as [b Hb].
  rewrite (delay_swap_eq q i j a b) by done. set (q' := upd a _ _).
  destruct (c_delayed q Hc i a Ha) as (La & Ea & Ia). destruct (c_delayed q Hc j b Hb) as (Lb & Eb & Ib).
  assert (∀ x, x ≠ a → x ≠ b → obj q' x = obj q x) as Hother by (intros x ? ?; unfold q'; by rewrite !obj_upd_ne).
  assert (∀ x, data (obj q' x) = data (obj q x)) as Hdata by (intros x; unfold q'; by rewrite !data_upd).
  assert (∀ x, elem (obj q' x) = elem (obj q x)) as Helem.
  { intros x. unfold q'. rewrite !obj_upd. repeat case_decide; naive_solver. }
  assert (heapIndex (obj q' a) = Z.of_nat j) as Hia.
  { unfold q'. rewrite obj_upd_eq; [done|]. by rewrite live_upd. }
  assert (a ≠ b → heapIndex (obj q' b) = Z.of_nat i) as Hib.
  { intros Hne. unfold q'. rewrite obj_upd_ne by done. by rewrite obj_upd_eq. }
  assert (∀ x, live q' x ↔ live q x) as Hlive by (intros x; unfold q'; by rewrite !live_upd).
  assert (∀ e p, (e, p) ∈ ready q → p ≠ a ∧ p ≠ b) as Hnr.
  { intros e p (_ & E & _)%(c_ready q Hc). split; intros ->; congruence. }
  split; try done.
  - split; [apply Hc|by apply Hc| |].
    + intros e p Hp. destruct (Hnr e p Hp). rewrite Hlive, Hother by done. by apply Hc.
    + intros x p. unfold q'. cbn [delayed upd put_objs put_delayed]. rewrite swapl_lookup by done. fold q'.
      rewrite Hlive, Helem. destruct (decide (x = i)) as [->|Hxi]; [|destruct (decide (x = j)) as [->|Hxj]].
      * rewrite Hb. intros [= <-]. split_and!; [done..|]. destruct (decide (a = b)) as [->|Hab]; [|by apply Hib].
        rewrite Hia. f_equal. by eapply delayed_inj.
      * rewrite Ha. intros [= <-]. done.
      * intros Hx. destruct (c_delayed q Hc x p Hx) as (? & ? & ?). split_and!; [done..|]. rewrite Hother; [done|..].
        -- intros ->. apply Hxi. by eapply delayed_inj.
        -- intros ->. apply Hxj. by eapply delayed_inj.
  - split; [unfold q'; by rewrite !len_upd|done| |done].
    intros p Hp. apply Hother; intros ->; apply Hp; apply elem_mem; right; by eapply list_elem_of_lookup_2.
  - unfold q'. cbn. apply swapl_perm.
Qed.

Lemma rearranged_stable q n : core q → swap_stable n (rearranged q).
Proof.
  intros Hc s i j Hr Hn Hi Hj _. rewrite arr_len in Hn.
  eapply rearranged_trans; [exact Hr|]. apply swap_rearranged; [apply Hr|lia..].
Qed.

Definition heap_ok (q : hintQueue) : Prop := heap_upto (key_at q) (length (delayed q)).

Lemma key_at_delayed q i p : delayed q !! i = Some p → key_at q i = nextAt (obj q p).
Proof. intros Hp. unfold key_at. cbn. rewrite list_lookup_fmap, Hp. done. Qed.

(** Taking the delayed hint [p] out of the heap. *)
Record taken (q : hintQueue) (p : nat) (q' : hintQueue) : Prop := {
  tk_core : core q';
  tk_heap : heap_ok q';
  tk_frame : frame q q';
  tk_books : same_books q q';
  tk_ready : ready q' = ready q;
  tk_next : nextElem q' = nextElem q;
  tk_delayed : delayed q ≡ₚ p :: delayed q';
  tk_detached : detached q' p }.

Lemma delay_pop_taken q0 q n p :
  rearranged q0 q → length (delayed q) = S n → delayed q !! n = Some p → heap_upto (key_at q) n →
  (delay_pop q).2 = p ∧ taken q0 p (delay_pop q).1.
Proof.
  intros [Hc Hf Hb Hr Hx Hd] Hlen Hp Hh. unfold delay_pop. rewrite Hlen. cbn [Nat.sub]. rewrite Nat.sub_0_r, Hp. cbn [from_option fst snd id].
  split; [done|]. set (q' := upd p _ _). destruct (c_delayed q Hc n p Hp) as (Hl & He & Hi).
  assert (∀ x, x ≠ p → obj q' x = obj q x) as Hother by (intros x ?; unfold q'; by rewrite obj_upd_ne).
  assert (obj q' p = set_heapIndex (-1) (obj q p)) as Hobj by (unfold q'; by rewrite obj_upd_eq).
  assert (∀ x, data (obj q' x) = data (obj q x)) as Hdata by (intros x; unfold q'; by rewrite data_upd).
  assert (∀ x, live q' x ↔ live q x) as Hlive by (intros x; unfold q'; by rewrite live_upd).
  assert (∀ i x, take n (delayed q) !! i = Some x → delayed q !! i = Some x ∧ (i < n)%nat ∧ x ≠ p) as Htake.
  { intros i x Hix. assert (i < n)%nat by (apply lookup_lt_Some in Hix; rewrite length_take in Hix; lia).
    rewrite lookup_take_lt in Hix by done. split_and!; [done..|]. intros ->. pose proof (delayed_inj q i n p Hc Hix Hp). lia. }
  assert (delayed q = take n (delayed q) ++ [p]) as Edel.
  { rewrite <-(take_drop_middle (delayed q) n p Hp) at 1. by rewrite drop_ge by lia. }
  assert (∀ e x, (e, x) ∈ ready q → x ≠ p) as Hnr by (intros e x (_ & E & _)%(c_ready q Hc) ->; congruence).
  assert (p ∈ mem q0) as Hin0. { apply elem_mem. right. rewrite <-Hd. by eapply list_elem_of_lookup_2. }
  split; try done.
  - split; [apply Hc|by apply Hc| |].
    + intros e x Hex. rewrite Hlive, Hother by by eapply Hnr. by apply Hc.
    + intros i x Hix. cbn in Hix. apply Htake in Hix as (Hix & _ & Hne). rewrite Hlive, Hother by done. by apply Hc.
  - unfold heap_ok. replace (length (delayed q')) with n by (cbn; rewrite length_take; lia).
    intros j Hj. pose proof (par_lt j). specialize (Hh j Hj).
    assert (∀ x, (x < n)%nat → key_at q' x = key_at q x) as Hk.
    { intros x Hx'. unfold key_at. cbn. rewrite !list_lookup_fmap, lookup_take_lt by done.
      destruct (delayed q !! x) as [y|]; [|done]. cbn. pose proof (data_fields _ _ (Hdata y)). tauto. }
    rewrite !Hk by lia. done.
  - split; [unfold q'; rewrite len_upd; apply Hf|intros x; rewrite Hdata; apply Hf| |apply Hf].
    intros x Hx'. rewrite Hother by (intros ->; done). by apply Hf.
  - rewrite <-Hd. cbn. rewrite Edel at 1. by rewrite Permutation_app_comm.
  - split; [by apply Hlive|]. split; [|rewrite Hobj; done].
    rewrite elem_mem. cbn. intros [[e Hex]|[i Hix]%list_elem_of_lookup]; [by eapply Hnr|]. by apply Htake in Hix as (_ & _ & ?).
Qed.

Lemma rearranged_at_stable q n p :
  core q → swap_stable n (λ s, rearranged q s ∧ (n < length (delayed s))%nat ∧ delayed s !! n = Some p).
Proof.
  intros Hc s i j (Hr & Hlt & Hp) Hn Hi Hj Hne. rewrite arr_len in Hn. cbn [hswap delay_heap].
  pose proof (swap_rearranged s i j (ra_core _ _ Hr)) as Hs.
  assert (rearranged s (delay_swap i j s)) as Hs' by (apply Hs; lia).
  split_and!; [by eapply rearranged_trans|rewrite (Permutation_length (ra_delayed _ _ Hs')); done|].
  destruct (lookup_lt_is_Some_2 (delayed s) i) as [a Ha]; [lia|]. destruct (lookup_lt_is_Some_2 (delayed s) j) as [b Hb]; [lia|].
  rewrite (delay_swap_eq s i j a b) by done. cbn [delayed upd put_objs put_delayed]. rewrite swapl_lookup by lia.
  rewrite !decide_False by lia. done.
Qed.

Lemma swap_last q i n p :
  core q → delayed q !! i = Some p → length (delayed q) = S n → (i ≤ n)%nat →
  rearranged q (delay_swap i n q) ∧ (n < length (delayed (delay_swap i n q)))%nat ∧ delayed (delay_swap i n q) !! n = Some p ∧
  ∀ x, x ≠ i → x ≠ n → key_at (delay_swap i n q) x = key_at q x.
Proof.
  intros Hc Hp Hlen Hi. assert (rearranged q (delay_swap i n q)) as Hr by (apply swap_rearranged; [done|lia..]).
  split; [done|]. split; [rewrite (Permutation_length (ra_delayed _ _ Hr)); lia|]. split.
  - destruct (lookup_lt_is_Some_2 (delayed q) n) as [b Hb]; [lia|]. rewrite (delay_swap_eq q i n p b) by done.
    cbn [delayed upd put_objs put_delayed]. rewrite swapl_lookup by lia.
    destruct (decide (n = i)) as [->|]; [congruence|]. by rewrite decide_True.
  - intros x Hxi Hxn. change (delay_swap i n q) with (hswap i n q). rewrite key_at_hswap by (rewrite arr_len; lia).
    unfold fswap. by rewrite !decide_False.
Qed.

Lemma hole_after_swap q i n :
  heap_ok q → (∀ x, x ≠ i → x ≠ n → key_at (delay_swap i n q) x = key_at q x) → length (delayed q) = S n → (i < n)%nat →
  hole (key_at (delay_swap i n q)) n i.
Proof.
  intros Hh Hk Hlen Hi. pose proof (hole_of_heap _ _ i Hh) as [H1 H2]; [lia|]. rewrite Hlen in *. split.
  - intros j Hj Hji Hpi. pose proof (par_lt j). rewrite !Hk by lia. apply H1; lia.
  - intros j Hj Ej Hi0. pose proof (par_lt j). pose proof (par_lt i). rewrite !Hk by lia. apply H2; lia.
Qed.

Lemma heap_Pop_spec q fr rest :
  core q → heap_ok q → delayed q = fr :: rest → (heap_Pop q).2 = fr ∧ taken q fr (heap_Pop q).1.
Proof.
  intros Hc Hh Ed. unfold heap_Pop. assert (length (delayed q) = S (length rest)) as Hlen by by rewrite Ed.
  rewrite Hlen. cbn [Nat.sub]. rewrite Nat.sub_0_r. set (n := length rest) in *.
  destruct (swap_last q 0 n fr Hc) as (Hr & Hlt & Hp & Hk); [by rewrite Ed|done|lia|].
  assert (length (delayed (delay_swap 0 n q)) = S n) as Hlen1 by by rewrite (Permutation_length (ra_delayed _ _ Hr)).
  destruct (decide (n = 0)%nat) as [En|Hn].
  { rewrite En in *. cbn [down]. cbn [Nat.mul Nat.add Nat.leb fst].
    apply (delay_pop_taken q _ 0%nat fr Hr Hlen1 Hp). intros j Hj. lia. }
  pose proof (down_spec n _ (S n) (delay_swap 0 n q) 0 (rearranged_at_stable q n fr Hc)) as H.
  destruct (down (S n) (delay_swap 0 n q) 0 n) as [s i']. cbn [fst].
  destruct H as ((Hr' & Hlt' & Hp') & Hi' & Hhole & Hbel & Hab & _);
    [done|rewrite arr_len; lia|lia|lia|apply hole_after_swap; (done || lia)|].
  apply (delay_pop_taken q s n fr Hr'); [by rewrite (Permutation_length (ra_delayed _ _ Hr'))|done|].
  eapply heap_of_hole; [done..|]. apply Hab. right. intros ?. lia.
Qed.

Lemma heap_Remove_spec q i p :
  core q → heap_ok q → delayed q !! i = Some p → (heap_Remove i q).2 = p ∧ taken q p (heap_Remove i q).1.
Proof.
  intros Hc Hh Hp. unfold heap_Remove. pose proof (lookup_lt_Some _ _ _ Hp) as Hi.
  destruct (length (delayed q)) as [|n] eqn:Hlen; [lia|]. cbn [Nat.sub]. rewrite Nat.sub_0_r.
  destruct (Nat.eqb_spec n i) as [<-|Hne].
  { apply (delay_pop_taken q q n p); [by apply rearranged_refl|done|done|].
    unfold heap_ok in Hh. rewrite Hlen in Hh. intros j Hj. apply Hh. lia. }
  destruct (swap_last q i n p Hc Hp Hlen) as (Hr & Hlt & Hp1 & Hk); [lia|].
  assert (length (delayed (delay_swap i n q)) = S n) as Hlen1 by by rewrite (Permutation_length (ra_delayed _ _ Hr)).
  pose proof (down_spec n _ (S n) (delay_swap i n q) i (rearranged_at_stable q n p Hc)) as H.
  destruct (down (S n) (delay_swap i n q) i n) as [s i'].
  destruct H as ((Hr' & Hlt' & Hp') & Hi' & Hhole & Hbel & Hab & Hsame);
    [done|rewrite arr_len; lia|lia|lia|apply hole_after_swap; (done || lia)|].
  assert (length (delayed s) = S n) as Hlen2 by by rewrite (Permutation_length (ra_delayed _ _ Hr')).
  destruct (Nat.ltb_spec i i').
  - apply (delay_pop_taken q s n p Hr' Hlen2 Hp'). eapply heap_of_hole; [done..|]. apply Hab. left. lia.
  - assert (i' = i) as -> by lia.
    destruct (up_spec n _ (S i) s i (rearranged_at_stable q n p Hc)) as ((Hr2 & Hlt2 & Hp2) & Hheap);
      [done|rewrite arr_len; lia|lia|lia|done|done|].
    apply (delay_pop_taken q _ n p Hr2); [by rewrite (Permutation_length (ra_delayed _ _ Hr2))|done|done].
Qed.

(** ** Fields that the books do not touch *)
Definition same_store (q q' : hintQueue) : Prop :=
  objs q' = objs q ∧ ready q' = ready q ∧ nextElem q' = nextElem q ∧ delayed q' = delayed q.
Lemma obj_ext q q' p : objs q' = objs q → obj q' p = obj q p.
Proof. unfold obj. by intros ->. Qed.
Lemma core_ext q q' : same_store q q' → core q → core q'.
Proof.
  intros (Eo & Er & En & Ed) [H1 H2 H3 H4]. split; rewrite ?Er, ?En, ?Ed; [done|done|..];
    intros *; unfold live, obj; rewrite Eo; [apply H3|apply H4].
Qed.
Lemma heap_ext' q q' : same_store q q' → heap_ok q → heap_ok q'.
Proof.
  intros (Eo & Er & En & Ed). unfold heap_ok. rewrite Ed. apply heap_ext. intros x. unfold key_at. cbn.
  rewrite Ed, !list_lookup_fmap. destruct (delayed q !! x); [|done]. cbn. by rewrite (obj_ext q q').
Qed.
Lemma mem_ext q q' : same_store q q' → mem q' = mem q.
Proof. intros (_ & Er & _ & Ed). unfold mem. by rewrite Er, Ed. Qed.
Lemma frame_ext q q1 q2 : same_store q1 q2 → same_cfg q1 q2 → frame q q1 → frame q q2.
Proof.
  intros (Eo & _) Hcfg [L D O F]. split; [congruence| | |by eapply same_cfg_trans];
    intros x; rewrite (obj_ext q1 q2) by done; [apply D|apply O].
Qed.
Lemma frame_ext_l q q1 q2 : same_store q q1 → same_cfg q q1 → frame q1 q2 → frame q q2.
Proof.
  intros Hs Hcfg [L D O F]. pose proof (mem_ext q q1 Hs) as Em. destruct Hs as (Eo & _). split; [congruence| | |by eapply same_cfg_trans];
    intros x; rewrite <-(obj_ext q q1) by done; [apply D|rewrite <-Em; apply O].
Qed.

Definition rdy (q : hintQueue) : list nat := (ready q).*2.

(** Removing the member [p]. *)
Record removed (q : hintQueue) (p : nat) (q' : hintQueue) : Prop := {
  rm_core : core q';
  rm_heap : heap_ok q';
  rm_frame : frame q q';
  rm_mem : mem q ≡ₚ p :: mem q';
  rm_delayed : delayed q' ⊆+ delayed q;
  rm_rdy : rdy q' = filter (λ x, x ≠ p) (rdy q);
  rm_detached : detached q' p;
  rm_index : index q' = delete (hkey (obj q p)) (index q);
  rm_items : items q' = items q - 1;
  rm_bytes : qbytes q' = qbytes q - size (obj q p) }.

Lemma filter_rdy_notin p (l : list nat) : p ∉ l → filter (λ x, x ≠ p) l = l.
Proof.
  induction l as [|x l IH]; [done|]. intros [Hx Hl]%not_elem_of_cons. rewrite filter_cons_True by done. by rewrite IH.
Qed.

Lemma ready_split q e p :
  core q → (e, p) ∈ ready q →
  ∃ l1 l2, ready q = l1 ++ (e, p) :: l2 ∧ filter (λ x, x.1 ≠ e) (ready q) = l1 ++ l2 ∧
    p ∉ l1.*2 ∧ p ∉ l2.*2 ∧ rdy q = l1.*2 ++ p :: l2.*2.
Proof.
  intros Hc (l1 & l2 & E)%list_elem_of_split. exists l1, l2. pose proof (c_ids q Hc) as Hn. rewrite E in Hn.
  rewrite fmap_app, fmap_cons in Hn. cbn in Hn. apply NoDup_app in Hn as (Hn1 & Hn12 & Hn2). apply NoDup_cons in Hn2 as [Hn2 _].
  pose proof (core_nodup q Hc) as Hm. unfold mem in Hm. apply NoDup_app in Hm as (Hm & _ & _). rewrite E in Hm.
  rewrite fmap_app, fmap_cons in Hm. cbn in Hm. apply NoDup_app in Hm as (_ & Hm12 & Hm2). apply NoDup_cons in Hm2 as [Hm2 _].
  assert (∀ l : list (nat * nat), e ∉ l.*1 → filter (λ x, x.1 ≠ e) l = l) as Hid.
  { clear. induction l as [|x l IH]; [done|]. rewrite fmap_cons. intros [Hx Hl]%not_elem_of_cons. rewrite filter_cons_True by done. by rewrite IH. }
  split_and!; [done| | |done|unfold rdy; by rewrite E, fmap_app].
  - rewrite E, filter_app, filter_cons_False by (cbn; tauto). rewrite !Hid; [done|done|].
    intros He. apply (Hn12 e He). by left.
  - intros Hp. apply (Hm12 p Hp). by left.
Qed.

(** Removing an item that is on the ready list. *)
Lemma removeItem_ready q e p :
  core q → heap_ok q → (e, p) ∈ ready q → removed q p (removeItem p q).
Proof.
  intros Hc Hh He. unfold removeItem.
  destruct (c_ready q Hc e p He) as (Hl & Ee & Ei). rewrite Ee.
  destruct (ready_split q e p Hc He) as (l1 & l2 & E & Ef & Hp1 & Hp2 & Erdy).
  set (q1 := upd p _ _). set (q2 := put_count _ _ _).
  assert (∀ x, x ≠ p → obj q2 x = obj q x) as Hother by (intros x ?; unfold q2, q1; cbn; by rewrite <-(obj_upd_ne q p (set_elem None) x)).
  assert (obj q2 p = set_elem None (obj q p)) as Hobj by (rewrite <-(obj_upd_eq q p (set_elem None) Hl); done).
  assert (ready q2 = l1 ++ l2) as Er by (unfold q2, q1; cbn; done).
  assert (∀ e' x, (e', x) ∈ ready q2 → (e', x) ∈ ready q ∧ x ≠ p) as Hin.
  { intros e' x. rewrite Er, E. intros Hx. split; [set_solver|]. intros ->.
    apply elem_of_app in Hx as [Hx|Hx]; [apply Hp1|apply Hp2]; apply list_elem_of_fmap; by exists (e', p). }
  assert (∀ j x, delayed q !! j = Some x → x ≠ p) as Hnd.
  { intros j x Hx ->. apply (c_delayed q Hc) in Hx as (_ & ? & _). congruence. }
  assert (∀ x, live q2 x ↔ live q x) as Hlive by (intros x; apply (live_upd q p (set_elem None) x)).
  assert (∀ x, data (obj q2 x) = data (obj q x)) as Hdata.
  { intros x. destruct (decide (x = p)) as [->|]; [by rewrite Hobj|by rewrite Hother]. }
  split.
  + split; [rewrite Er; apply (sublist_NoDup (l1 ++ l2).*1 (ready q).*1); [apply Hc|]| | |].
    * rewrite E, !fmap_app. cbn. apply sublist_app; [done|]. by apply sublist_cons.
    * intros e' x [Hx _]%Hin. exact (c_next q Hc e' x Hx).
    * intros e' x [Hx Hne]%Hin. rewrite Hlive, Hother by done. by apply Hc.
    * intros j x Hx. rewrite Hlive, Hother by by eapply Hnd. by apply Hc.
  + unfold heap_ok. eapply heap_ext; [|exact Hh]. intros x. unfold key_at. cbn [arr delay_heap].
    change (delayed q2) with (delayed q). rewrite !list_lookup_fmap. destruct (delayed q !! x) as [y|] eqn:Ey; [|done].
    cbn. by rewrite Hother by by eapply Hnd.
  + split; [apply (len_upd q p (set_elem None))|done| |done]. intros x Hx. apply Hother. intros ->. apply Hx, elem_mem. eauto.
  + unfold mem. rewrite Er. change (delayed q2) with (delayed q). fold (rdy q). rewrite Erdy, fmap_app.
    rewrite <-!app_assoc. cbn. symmetry. apply Permutation_middle.
  + done.
  + unfold rdy at 1. rewrite Er, Erdy, fmap_app, filter_app, filter_cons_False by tauto. by rewrite !filter_rdy_notin.
  + split; [by apply Hlive|]. split; [|by rewrite Hobj].
    intros [[e' He']|[j Hj]%list_elem_of_lookup]%elem_mem; [by apply Hin in He' as [_ ?]|by eapply Hnd].
  + done.
  + done.
  + done.
Qed.

(** Removing an item that is in the delay heap. *)
Lemma removeItem_delayed q i p :
  core q → heap_ok q → delayed q !! i = Some p → removed q p (removeItem p q).
Proof.
  intros Hc Hh Hi. unfold removeItem.
  destruct (c_delayed q Hc i p Hi) as (Hl & Ee & Ei). rewrite Ee, Ei. destruct (Z.leb_spec 0 (Z.of_nat i)); [|lia].
  rewrite Nat2Z.id. set (q1 := put_index _ q). assert (same_store q q1) as Hss by done.
  destruct (heap_Remove_spec q1 i p) as [_ [C H' F (B1 & B2 & B3) R N D Det]];
    [by eapply core_ext|by eapply heap_ext'|done|]. set (q2 := (heap_Remove i q1).1) in *. set (q3 := put_count _ _ _).
  assert (same_store q2 q3) as Hss2 by done.
  assert (p ∉ rdy q) as Hnr.
  { unfold rdy. rewrite list_elem_of_fmap. intros ([e x] & E & Hx). cbn in E. subst x.
    apply (c_ready q Hc) in Hx as (_ & ? & _). congruence. }
  split.
  + by eapply core_ext.
  + by eapply heap_ext'.
  + eapply frame_ext; [done|done|]. by eapply frame_ext_l; [..|exact F].
  + rewrite (mem_ext q2 q3 Hss2). unfold mem. rewrite R. change (ready q1) with (ready q). change (delayed q1) with (delayed q) in D.
    rewrite D. symmetry. apply Permutation_middle.
  + change (delayed q2 ⊆+ delayed q1). rewrite D. by apply submseteq_cons.
  + rewrite filter_rdy_notin by done. unfold rdy. change (ready q3) with (ready q2). by rewrite R.
  + exact Det.
  + exact B1.
  + change (items q2 - 1 = items q - 1). by rewrite B3.
  + change (qbytes q2 - size (obj q p) = qbytes q - size (obj q p)). by rewrite B2.
Qed.

Lemma removeItem_spec q p :
  core q → heap_ok q → p ∈ mem q → removed q p (removeItem p q).
Proof.
  intros Hc Hh [[e He]|[i Hi]%list_elem_of_lookup]%elem_mem;
    [by eapply removeItem_ready|by eapply removeItem_delayed].
Qed.

(** ** The representation invariant *)
Fixpoint sizes (q : hintQueue) (l : list nat) : Z := match l with [] => 0 | p :: l => size (obj q p) + sizes q l end.

#[export] Instance sizes_perm q : Proper ((≡ₚ) ==> (=)) (sizes q).
Proof. intros l l'. induction 1; cbn; lia. Qed.
Lemma sizes_ext q q' l : (∀ p, p ∈ l → size (obj q' p) = size (obj q p)) → sizes q' l = sizes q l.
Proof. induction l as [|p l IH]; cbn; [done|]. intros Hl. rewrite IH, Hl by set_solver. done. Qed.

Record Rep (q : hintQueue) : Prop := {
  rep_core : core q;
  rep_heap : heap_ok q;
  rep_index k p : index q !! k = Some p ↔ p ∈ mem q ∧ hkey (obj q p) = k;
  rep_size p : p ∈ mem q → 0 ≤ size (obj q p);
  rep_items : items q = Z.of_nat (length (mem q));
  rep_bytes : qbytes q = sizes q (mem q) }.

Lemma rep_key_inj q p p' : Rep q → p ∈ mem q → p' ∈ mem q → hkey (obj q p) = hkey (obj q p') → p = p'.
Proof.
  intros Hr Hp Hp' E. assert (index q !! hkey (obj q p) = Some p) as H1 by by apply (rep_index q Hr).
  assert (index q !! hkey (obj q p') = Some p') as H2 by by apply (rep_index q Hr). rewrite E in H1. congruence.
Qed.

Lemma rep_removed q p q' : Rep q → removed q p q' → Rep q'.
Proof.
  intros Hr [C H' F M DD R D I N B]. assert (p ∈ mem q) as Hp by (rewrite M; left).
  pose proof (core_nodup q (rep_core q Hr)) as Hnd. rewrite M in Hnd. apply NoDup_cons in Hnd as [Hpm Hnd].
  split; [done|done| | | |].
  - intros k x. rewrite I, lookup_delete_Some, (rep_index q Hr), M, elem_of_cons.
    destruct (obj_same_frame q q' x F) as (Ek & _). rewrite Ek. split.
    + intros (Hne & [->|Hx] & E); [congruence|done].
    + intros [Hx E]. split_and!; [|by right|done]. intros Ekp.
      apply Hpm. enough (x = p) as <- by done. apply (rep_key_inj q); [done|rewrite M; by right|done|congruence].
  - intros x Hx. destruct (obj_same_frame q q' x F) as (_ & -> & _). apply (rep_size q Hr). rewrite M. by right.
  - rewrite N, (rep_items q Hr), M. cbn. lia.
  - rewrite B, (rep_bytes q Hr), M. cbn. rewrite (sizes_ext q q') by (intros; by apply obj_same_frame). lia.
Qed.

Lemma tryDropDelayed_spec q avoid :
  Rep q →
  match tryDropDelayed avoid q with
  | None => delayed q = [] ∨ hd_error (delayed q) = Some avoid
  | Some (q', b) => ∃ p, p ≠ avoid ∧ hd_error (delayed q) = Some p ∧ removed q p q' ∧ b = size (obj q p)
  end.
Proof.
  intros Hr. unfold tryDropDelayed. destruct (delayed q) as [|fr rest] eqn:Ed; [by left|].
  destruct (decide (fr = avoid)) as [->|Hne]; [by right|].
  destruct (heap_Pop_spec q fr rest (rep_core q Hr) (rep_heap q Hr) Ed) as [Efr [C H' F (B1 & B2 & B3) R N D Det]].
  destruct (heap_Pop q) as [q1 hi]. cbn [fst snd] in *. subst hi.
  destruct (obj_same_frame q q1 fr F) as (Ek & Es & _). rewrite Ek, Es. set (q2 := put_count _ _ _).
  assert (same_store q1 q2) as Hss by done. exists fr. split_and!; [done|done| |done]. split.
  - by eapply core_ext.
  - by eapply heap_ext'.
  - by eapply frame_ext; [..|exact F].
  - rewrite (mem_ext q1 q2 Hss). unfold mem. rewrite R, D. symmetry. apply Permutation_middle.
  - change (delayed q1 ⊆+ delayed q). rewrite D. by apply submseteq_cons.
  - unfold rdy. change (ready q2) with (ready q1). rewrite R. symmetry. apply filter_rdy_notin.
    rewrite list_elem_of_fmap. intros ([e x] & E & Hx). cbn in E. subst x. apply (c_ready q (rep_core q Hr)) in Hx as (_ & Hx & _).
    assert (delayed q !! 0%nat = Some fr) as H0 by by rewrite Ed. apply (c_delayed q (rep_core q Hr)) in H0 as (_ & H0 & _). congruence.
  - exact Det.
  - change (index q2) with (delete (hkey (obj q fr)) (index q1)). by rewrite B1.
  - change (items q1 - 1 = items q - 1). by rewrite B3.
  - change (qbytes q1 - size (obj q fr) = qbytes q - size (obj q fr)). by rewrite B2.
Qed.

Lemma front_rdy q : front q = hd_error (rdy q).
Proof. unfold front, rdy. by destruct (ready q). Qed.
Lemma hd_mem q p : hd_error (rdy q) = Some p → p ∈ mem q.
Proof. unfold mem. fold (rdy q). destruct (rdy q); [done|]. intros [= ->]. left. Qed.
Lemma hd_delayed_mem q p : hd_error (delayed q) = Some p → p ∈ mem q.
Proof. unfold mem. destruct (delayed q) eqn:E; [done|]. intros [= ->]. apply elem_of_app. right. left. Qed.

(** Nothing can be dropped: each container is empty or has [avoid] at its head. *)
Definition stuck (avoid : nat) (q : hintQueue) : Prop :=
  (rdy q = [] ∨ hd_error (rdy q) = Some avoid) ∧ (delayed q = [] ∨ hd_error (delayed q) = Some avoid).

Lemma dropOldest_spec q avoid :
  Rep q →
  let '(q', (dc, db)) := dropOldest avoid q in
  (dc = 0 ∧ db = 0 ∧ q' = q ∧ stuck avoid q) ∨
  (dc = 1 ∧ ∃ p, p ≠ avoid ∧ p ∈ mem q ∧ removed q p q' ∧ db = size (obj q p)).
Proof.
  intros Hr. unfold dropOldest, tryDropReady. rewrite front_rdy.
  pose proof (tryDropDelayed_spec q avoid Hr) as Hd.
  destruct (hd_error (rdy q)) as [h|] eqn:Eh; [destruct (decide (h = avoid)) as [->|Hne]|].
  - destruct (tryDropDelayed avoid q) as [[q' b]|].
    + destruct Hd as (p & ? & Hhd & ? & ->). right. split; [done|]. exists p. split_and!; try done. by apply hd_delayed_mem.
    + left. split_and!; try done. split; [by right|done].
  - right. split; [done|]. exists h. apply hd_mem in Eh. split_and!; try done. apply removeItem_spec; [apply Hr..|done].
  - destruct (tryDropDelayed avoid q) as [[q' b]|].
    + destruct Hd as (p & ? & Hhd & ? & ->). right. split; [done|]. exists p. split_and!; try done. by apply hd_delayed_mem.
    + left. split_and!; try done. split; [|done]. left. by destruct (rdy q).
Qed.

(** Dropping hints. *)
Record shrunk (q q' : hintQueue) : Prop := {
  sh_rep : Rep q';
  sh_frame : frame q q';
  sh_mem : mem q' ⊆+ mem q;
  sh_delayed : delayed q' ⊆+ delayed q;
  sh_rdy : rdy q' `sublist_of` rdy q }.

Lemma shrunk_refl q : Rep q → shrunk q q.
Proof. intros Hr. split; [done|apply frame_refl|done..]. Qed.
Lemma shrunk_trans q1 q2 q3 : shrunk q1 q2 → shrunk q2 q3 → shrunk q1 q3.
Proof.
  intros [R1 F1 M1 D1 S1] [R2 F2 M2 D2 S2]. split; [done| |by etrans..].
  eapply frame_trans; [|done|done]. intros p Hp. by eapply elem_of_submseteq.
Qed.
Lemma removed_shrunk q p q' : Rep q → removed q p q' → shrunk q q'.
Proof.
  intros Hr Hrm. split; [by eapply rep_removed|apply Hrm| |apply Hrm|rewrite (rm_rdy _ _ _ Hrm); apply sublist_filter].
  rewrite (rm_mem _ _ _ Hrm). by apply submseteq_cons.
Qed.

Lemma drop_loop_spec fuel avoid q tb ti :
  Rep q → avoid ∈ mem q → (length (mem q) < fuel)%nat →
  let '(q', tb', ti', fits) := drop_loop fuel avoid q tb ti in
  shrunk q q' ∧ avoid ∈ mem q' ∧ items q' = items q - (ti' - ti) ∧ qbytes q' = qbytes q - (tb' - tb) ∧
  overCap q' (items q') (qbytes q') = negb fits ∧ (fits = false → stuck avoid q').
Proof.
  revert q tb ti. induction fuel as [|fuel IH]; intros q tb ti Hr Ha Hf; [lia|]. cbn [drop_loop].
  destruct (overCap q (items q) (qbytes q)) eqn:Ec.
  2: { split_and!; [by apply shrunk_refl|done|lia|lia|done|done]. }
  pose proof (dropOldest_spec q avoid Hr) as Hd. destruct (dropOldest avoid q) as [q1 [dc db]].
  destruct Hd as [(-> & -> & -> & Hs)|(-> & p & Hne & Hp & Hrm & ->)]; cbn [Z.eqb].
  { split_and!; [by apply shrunk_refl|done|lia|lia|done|done]. }
  pose proof (rep_removed q p q1 Hr Hrm) as Hr1. pose proof (rm_mem _ _ _ Hrm) as Hm.
  assert (avoid ∈ mem q1) as Ha1 by (rewrite Hm in Ha; apply elem_of_cons in Ha as [->|?]; done).
  specialize (IH q1 (tb + size (obj q p)) (ti + 1) Hr1 Ha1).
  destruct (drop_loop fuel avoid q1 (tb + size (obj q p)) (ti + 1)) as [[[q' tb'] ti'] fits].
  destruct IH as (Hsh & Ha' & Hi & Hb & Hc & Hst). { rewrite Hm in Hf. cbn in Hf. lia. }
  rewrite (rm_items _ _ _ Hrm) in Hi. rewrite (rm_bytes _ _ _ Hrm) in Hb.
  split_and!; [eapply shrunk_trans; [by eapply removed_shrunk|done]|done|lia|lia|done|done].
Qed.

(** ** Replacing the member [a] by [b] in its place *)
Record replaced (q : hintQueue) (a b : nat) (q' : hintQueue) : Prop := {
  rp_core : core q';
  rp_heap : heap_ok q';
  rp_mem : ∃ rest, mem q ≡ₚ a :: rest ∧ mem q' ≡ₚ b :: rest ∧ a ∉ mem q' ∧ b ∉ rest;
  rp_rdy : rdy q' = (λ x, if decide (x = a) then b else x) <$> rdy q }.

Lemma key_at_same q q' :
  length (delayed q') = length (delayed q) →
  (∀ i x y, delayed q !! i = Some x → delayed q' !! i = Some y → nextAt (obj q' y) = nextAt (obj q x)) →
  heap_ok q → heap_ok q'.
Proof.
  intros Hl Hn. unfold heap_ok. rewrite Hl. apply heap_ext. intros i. unfold key_at. cbn. rewrite !list_lookup_fmap.
  destruct (delayed q !! i) as [x|] eqn:Ex, (delayed q' !! i) as [y|] eqn:Ey; cbn; [|exfalso|exfalso|done].
  - symmetry. by eapply Hn.
  - apply lookup_lt_Some in Ex. apply lookup_ge_None in Ey. lia.
  - apply lookup_lt_Some in Ey. apply lookup_ge_None in Ex. lia.
Qed.

Lemma map_subst_id a b (l : list nat) : a ∉ l → (λ x, if decide (x = a) then b else x) <$> l = l.
Proof.
  induction l as [|x l IH]; [done|]. intros [Hx Hl]%not_elem_of_cons. rewrite fmap_cons, IH by done.
  by rewrite decide_False.
Qed.

Lemma set_value_split q e a b l1 l2 :
  core q → ready q = l1 ++ (e, a) :: l2 → ready (set_value e b q) = l1 ++ (e, b) :: l2.
Proof.
  intros Hc E. unfold set_value. cbn. pose proof (c_ids q Hc) as Hn. rewrite E in *. rewrite fmap_app, fmap_cons in Hn. cbn in Hn.
  apply NoDup_app in Hn as (_ & H12 & H2). apply NoDup_cons in H2 as [H2 _].
  assert (∀ l : list (nat * nat), e ∉ l.*1 → (λ x, if decide (x.1 = e) then (e, b) else x) <$> l = l) as Hid.
  { clear. induction l as [|x l IH]; [done|]. rewrite !fmap_cons. intros [Hx Hl]%not_elem_of_cons. rewrite IH by done. by rewrite decide_False. }
  rewrite fmap_app, fmap_cons, !Hid; [cbn; by rewrite decide_True|done|]. intros He. apply (H12 e He). by left.
Qed.

Lemma subst_ready q q' e a b :
  core q → heap_ok q → (e, a) ∈ ready q → b ∉ mem q → live q b →
  ready q' = ready (set_value e b q) → delayed q' = delayed q → nextElem q' = nextElem q → (∀ x, live q' x ↔ live q x) →
  (∀ x, x ≠ a → x ≠ b → obj q' x = obj q x) → elem (obj q' b) = Some e → heapIndex (obj q' b) = -1 →
  replaced q a b q'.
Proof.
  intros Hc Hh He Hb Hlb Er Ed En Hlive Hoth Eb Ib.
  destruct (ready_split q e a Hc He) as (l1 & l2 & E & _ & H1 & H2 & Erdy). rewrite (set_value_split q e a b l1 l2 Hc E) in Er.
  assert (a ≠ b) as Hab by (intros ->; apply Hb, elem_mem; eauto).
  assert (∀ x, x ∈ delayed q → x ≠ a ∧ x ≠ b) as Hdel.
  { intros x Hx. split; intros ->; [|apply Hb, elem_mem; by right].
    apply list_elem_of_lookup in Hx as [i Hi]. apply (c_delayed q Hc) in Hi as (_ & ? & _).
    apply (c_ready q Hc) in He as (_ & ? & _). congruence. }
  assert (∀ e' x, (e', x) ∈ l1 ++ l2 → (e', x) ∈ ready q ∧ x ≠ a ∧ x ≠ b) as Hrd.
  { intros e' x Hx. assert ((e', x) ∈ ready q) as Hin by (rewrite E; set_solver). split_and!; [done| |].
    - intros ->. apply elem_of_app in Hx as [Hx|Hx]; [apply H1|apply H2]; apply list_elem_of_fmap; by exists (e', a).
    - intros ->. apply Hb, elem_mem. eauto. }
  split.
  - split.
    + pose proof (c_ids q Hc) as Hn. rewrite Er, E, !fmap_app, !fmap_cons in *. done.
    + intros e' x. rewrite Er, En. intros Hx. apply elem_of_app in Hx as [Hx|[Hx|Hx]%elem_of_cons].
      * apply (c_next q Hc e' x). rewrite E. set_solver.
      * injection Hx as -> ->. by apply (c_next q Hc e a).
      * apply (c_next q Hc e' x). rewrite E. set_solver.
    + intros e' x. rewrite Er. intros Hx. rewrite Hlive.
      assert ((e', x) = (e, b) ∨ (e', x) ∈ l1 ++ l2) as [[= -> ->]|Hx'] by set_solver; [done|].
      apply Hrd in Hx' as (Hin & ? & ?). rewrite Hoth by done. by apply Hc.
    + intros i x. rewrite Ed, Hlive. intros Hx. destruct (Hdel x); [by eapply list_elem_of_lookup_2|].
      rewrite Hoth by done. by apply Hc.
  - apply (key_at_same q q'); [by rewrite Ed| |done]. rewrite Ed. intros i x y Hx Hy. rewrite Hx in Hy. injection Hy as <-.
    destruct (Hdel x); [by eapply list_elem_of_lookup_2|]. by rewrite Hoth.
  - exists ((l1 ++ l2).*2 ++ delayed q). unfold mem. rewrite Er, Ed. fold (rdy q). rewrite Erdy, !fmap_app, fmap_cons. cbn.
    assert (b ∉ (l1 ++ l2).*2 ++ delayed q) as Hbr.
    { intros [Hx|Hx]%elem_of_app; [|by destruct (Hdel b)].
      apply list_elem_of_fmap in Hx as ([e' x] & Ex & Hx). cbn in Ex. subst x. by apply Hrd in Hx as (_ & _ & ?). }
    rewrite fmap_app in Hbr. split_and!; [by rewrite <-Permutation_middle..| |done].
    rewrite !not_elem_of_app, not_elem_of_cons. split_and!; try done. intros Hx. by destruct (Hdel a).
  - unfold rdy at 1. rewrite Er, Erdy, !fmap_app, !fmap_cons. cbn [snd].
    rewrite !map_subst_id by done. by rewrite decide_True.
Qed.

Lemma subst_delayed q q' i a b :
  core q → heap_ok q → delayed q !! i = Some a → b ∉ mem q → live q b →
  ready q' = ready q → delayed q' = <[i := b]> (delayed q) → nextElem q' = nextElem q → (∀ x, live q' x ↔ live q x) →
  (∀ x, x ≠ a → x ≠ b → obj q' x = obj q x) → elem (obj q' b) = None → heapIndex (obj q' b) = Z.of_nat i →
  nextAt (obj q' b) = nextAt (obj q a) →
  replaced q a b q'.
Proof.
  intros Hc Hh Hi Hb Hlb Er Ed En Hlive Hoth Eb Ib Nb. pose proof (lookup_lt_Some _ _ _ Hi) as Hlt.
  assert (a ≠ b) as Hab by (intros ->; apply Hb, elem_mem; right; by eapply list_elem_of_lookup_2).
  assert (∀ j x, delayed q !! j = Some x → j ≠ i → x ≠ a ∧ x ≠ b) as Hdel.
  { intros j x Hx Hji. split; intros ->; [apply Hji; by eapply delayed_inj|]. apply Hb, elem_mem. right. by eapply list_elem_of_lookup_2. }
  assert (∀ e x, (e, x) ∈ ready q → x ≠ a ∧ x ≠ b) as Hrd.
  { intros e x Hx. split; intros ->; [|apply Hb, elem_mem; eauto].
    apply (c_ready q Hc) in Hx as (_ & ? & _). apply (c_delayed q Hc) in Hi as (_ & ? & _). congruence. }
  split.
  - split.
    + rewrite Er. apply Hc.
    + rewrite Er, En. apply Hc.
    + intros e x. rewrite Er, Hlive. intros Hx. destruct (Hrd e x Hx). rewrite Hoth by done. by apply Hc.
    + intros j x. rewrite Ed, Hlive. intros [(-> & <- & _)|[Hji Hx]]%list_lookup_insert_Some; [done|].
      destruct (Hdel j x Hx); [done|]. rewrite Hoth by done. by apply Hc.
  - apply (key_at_same q q'); [by rewrite Ed, length_insert| |done]. rewrite Ed.
    intros j x y Hx [(-> & <- & _)|[Hji Hy]]%list_lookup_insert_Some; [congruence|].
    rewrite Hx in Hy. injection Hy as <-. destruct (Hdel j x Hx); [done|]. by rewrite Hoth.
  - exists ((ready q).*2 ++ take i (delayed q) ++ skipn (S i) (delayed q)). unfold mem.
    rewrite Er, Ed, insert_take_drop by done. rewrite <-(take_drop_middle (delayed q) i a Hi) at 1.
    assert (b ∉ (ready q).*2 ++ take i (delayed q) ++ skipn (S i) (delayed q) ∧ a ∉ (ready q).*2 ++ take i (delayed q) ++ skipn (S i) (delayed q)) as [Hbr Har].
    { pose proof (core_nodup q Hc) as Hn. unfold mem in Hn. rewrite <-(take_drop_middle (delayed q) i a Hi) in Hn.
      rewrite <-Permutation_middle, Permutation_app_comm in Hn. cbn in Hn. apply NoDup_cons in Hn as [Hn _]. split.
      - intros Hx. apply Hb. unfold mem. rewrite <-(take_drop_middle (delayed q) i a Hi). set_solver.
      - intros Hx. apply Hn. set_solver. }
    split_and!; [by rewrite <-!Permutation_middle..| |done].
    rewrite !not_elem_of_app, not_elem_of_cons in *. tauto.
  - unfold rdy. rewrite Er. rewrite map_subst_id; [done|]. rewrite list_elem_of_fmap. intros ([e x] & Ex & Hx). cbn in Ex. subst x.
    by destruct (Hrd e a Hx).
Qed.

Lemma rep_replaced q a b q' :
  Rep q → replaced q a b q' → (∀ x, x ≠ a → x ≠ b → hkey (obj q' x) = hkey (obj q x) ∧ size (obj q' x) = size (obj q x)) →
  hkey (obj q' b) = hkey (obj q a) → 0 ≤ size (obj q' b) →
  index q' = <[hkey (obj q a) := b]> (index q) → items q' = items q →
  qbytes q' = qbytes q - size (obj q a) + size (obj q' b) → Rep q'.
Proof.
  intros Hr [C H' (rest & M & M' & Ha & Hbr) _] Hx Hk Hs Ei Eit Eb.
  pose proof (core_nodup q (rep_core q Hr)) as Hnd. rewrite M in Hnd. apply NoDup_cons in Hnd as [Har Hnd].
  assert (∀ x, x ∈ rest → x ≠ a ∧ x ≠ b) as Hrest by (intros x Hin; split; intros ->; done).
  assert (a ∈ mem q) as Ham by (rewrite M; left).
  split; [done|done| | | |].
  - intros k x. rewrite Ei, lookup_insert_Some, (rep_index q Hr), M, M', !elem_of_cons. split.
    + intros [[<- <-]|(Hne & [->|Hin] & <-)]; [auto|congruence|]. destruct (Hrest x Hin). destruct (Hx x) as [-> _]; auto.
    + intros [[->|Hin] <-]; [by left|]. destruct (Hrest x Hin). destruct (Hx x) as [-> _]; [done..|]. right. split; [|auto].
      intros E. apply Har. enough (x = a) as <- by done. apply (rep_key_inj q); [done|rewrite M; by right|done|done].
  - intros x Hin. rewrite M' in Hin. apply elem_of_cons in Hin as [->|Hin]; [done|]. destruct (Hrest x Hin).
    destruct (Hx x) as [_ ->]; [done..|]. apply (rep_size q Hr). rewrite M. by right.
  - rewrite Eit, (rep_items q Hr), M, M'. done.
  - rewrite Eb, (rep_bytes q Hr), M, M'. cbn. rewrite (sizes_ext q q' rest); [lia|]. intros x Hin. destruct (Hrest x Hin). by apply Hx.
Qed.
End HandoffInv.
