(* ===== verification/HandoffSpec.v ===== *)
(** * What the hint queues guarantee

    Specifications of [enqueue], [popReady] and the per-peer bookkeeping, over the invariant
    of [HandoffInv], and the theorems about them. *)
From Stdlib Require Import ZArith Lia.
From stdpp Require Import base numbers list gmap sets.
From S2P Require Import Prelude Heap Handoff HandoffInv.
Local Open Scope Z_scope.

Module HandoffSpec.
Import Heap Handoff HandoffInv.

(** ** Inserting a new hint *)
Record inserted (q : hintQueue) (p : nat) (q' : hintQueue) : Prop := {
  in_core : core q';
  in_heap : heap_ok q';
  in_len : length (objs q') = length (objs q);
  in_data x : data (obj q' x) = data (obj q x);
  in_other x : x ∉ mem q → x ≠ p → obj q' x = obj q x;
  in_cfg : same_cfg q q';
  in_books : same_books q q';
  in_mem : mem q' ≡ₚ p :: mem q }.

Lemma upd_id p f q : (live q p → f (obj q p) = obj q p) → upd p f q = q.
Proof.
  intros Hf. destruct q as [o ix r n d b i mi mb t dr]. unfold upd, put_objs. cbn. f_equal. apply list_eq. intros x.
  destruct (decide (x = p)) as [->|]; [|by rewrite list_lookup_alter_ne]. rewrite list_lookup_alter_eq.
  destruct (o !! p) as [h|] eqn:E; [|done]. cbn. f_equal. unfold live, obj in Hf. cbn in Hf. rewrite E in Hf. apply Hf.
  by eapply lookup_lt_Some.
Qed.

Lemma set_elem_id h : elem h = None → set_elem None h = h.
Proof. destruct h. cbn. by intros ->. Qed.

Lemma push_ready_spec q it :
  core q → heap_ok q → detached q it →
  let q' := upd it (λ h, set_heapIndex (-1) (set_elem (Some (nextElem q)) h)) (pushBack it q).1 in
  inserted q it q' ∧ rdy q' = rdy q ++ [it] ∧ delayed q' = delayed q.
Proof.
  intros Hc Hh (Hl & Hm & He & Hi) q'.
  assert (∀ x, x ≠ it → obj q' x = obj q x) as Hoth by (intros x ?; exact (obj_upd_ne (pushBack it q).1 it _ x ltac:(done))).
  assert (obj q' it = set_heapIndex (-1) (set_elem (Some (nextElem q)) (obj q it))) as Hobj by by apply (obj_upd_eq (pushBack it q).1 it).
  assert (∀ x, live q' x ↔ live q x) as Hlive by (intros x; apply (live_upd (pushBack it q).1 it)).
  assert (∀ x, data (obj q' x) = data (obj q x)) as Hdata.
  { intros x. destruct (decide (x = it)) as [->|]; [by rewrite Hobj|by rewrite Hoth]. }
  assert (ready q' = ready q ++ [(nextElem q, it)]) as Er by done.
  assert (delayed q' = delayed q) as Ed by done.
  assert (∀ x, x ∈ mem q → x ≠ it) as Hne by (intros x Hx ->; done).
  assert (rdy q' = rdy q ++ [it]) as Erd by (unfold rdy; by rewrite Er, fmap_app).
  split; [|done]. split.
  - split.
    + rewrite Er, fmap_app. apply NoDup_app. split_and!; [apply Hc| |apply NoDup_singleton].
      intros e ([e' x] & -> & Hx)%list_elem_of_fmap Hin%list_elem_of_singleton. apply (c_next q Hc) in Hx. cbn in *. lia.
    + intros e x. rewrite Er. change (nextElem q') with (S (nextElem q)).
      intros [Hx|Hx%list_elem_of_singleton]%elem_of_app; [apply (c_next q Hc) in Hx; lia|]. injection Hx as -> ->. lia.
    + intros e x. rewrite Er, Hlive. intros [Hx|Hx%list_elem_of_singleton]%elem_of_app.
      * rewrite Hoth; [by apply Hc|]. apply Hne, elem_mem. eauto.
      * injection Hx as -> ->. by rewrite Hobj.
    + intros i x. rewrite Ed, Hlive. intros Hx. rewrite Hoth; [by apply Hc|]. apply Hne, elem_mem. right. by eapply list_elem_of_lookup_2.
  - apply (key_at_same q q'); [by rewrite Ed| |done]. rewrite Ed. intros i x y Hx Hy. rewrite Hx in Hy. injection Hy as <-.
    rewrite Hoth; [done|]. apply Hne, elem_mem. right. by eapply list_elem_of_lookup_2.
  - apply (len_upd (pushBack it q).1 it).
  - done.
  - intros x _ Hx. by apply Hoth.
  - done.
  - done.
  - unfold mem. fold (rdy q') (rdy q). rewrite Erd, Ed, <-app_assoc. symmetry. apply Permutation_middle.
Qed.

Lemma push_delayed_spec q it :
  core q → heap_ok q → detached q it →
  let q' := upd it (set_elem None) (heap_Push it q) in
  inserted q it q' ∧ rdy q' = rdy q ∧ delayed q' ≡ₚ it :: delayed q.
Proof.
  intros Hc Hh (Hl & Hm & He & Hi) q'. set (q1 := delay_push it q).
  assert (∀ x, x ≠ it → obj q1 x = obj q x) as Hoth by (intros x ?; exact (obj_upd_ne q it _ x ltac:(done))).
  assert (obj q1 it = set_heapIndex (Z.of_nat (length (delayed q))) (obj q it)) as Hobj by exact (obj_upd_eq q it _ Hl).
  assert (∀ x, live q1 x ↔ live q x) as Hlive by (intros x; apply (live_upd q it)).
  assert (∀ x, x ∈ mem q → x ≠ it) as Hne by (intros x Hx ->; done).
  assert (delayed q1 = delayed q ++ [it]) as Ed by done. assert (ready q1 = ready q) as Er by done.
  assert (core q1) as Hc1.
  { split; [apply Hc|apply Hc| |].
    - intros e x Hx. rewrite Hlive, Hoth; [by apply Hc|]. apply Hne, elem_mem. eauto.
    - intros i x. rewrite Ed, Hlive. intros [Hx|[Hge Hx]]%lookup_app_Some.
      + rewrite Hoth; [by apply Hc|]. apply Hne, elem_mem. right. by eapply list_elem_of_lookup_2.
      + apply lookup_lt_Some in Hx as Hlt. cbn in Hlt. apply list_elem_of_lookup_2, list_elem_of_singleton in Hx as ->.
        rewrite Hobj. cbn. split_and!; [done|done|]. f_equal. lia. }
  assert (∀ x, (x < length (delayed q))%nat → key_at q1 x = key_at q x) as Hk.
  { intros x Hx. unfold key_at. cbn [arr delay_heap]. rewrite Ed, !list_lookup_fmap, lookup_app_l by done.
    destruct (delayed q !! x) as [y|] eqn:Ey; [|done]. cbn. rewrite Hoth; [done|]. apply Hne, elem_mem. right. by eapply list_elem_of_lookup_2. }
  assert (length (delayed q1) = S (length (delayed q))) as Hlen by (rewrite Ed, length_app; cbn; lia).
  destruct (up_spec (S (length (delayed q))) _ (S (length (delayed q))) q1 (length (delayed q)) (rearranged_stable q1 _ Hc1)) as [Hr Hheap].
  { by apply rearranged_refl. }
  { rewrite arr_len. lia. }
  { lia. }
  { lia. }
  { split; [intros j Hj Hji Hpj; pose proof (par_lt j); rewrite !Hk by lia; apply Hh; lia|].
    intros j Hj Ej. pose proof (par_lt j). lia. }
  { intros j Hj Ej. pose proof (par_lt j). lia. }
  set (q2 := up _ q1 _) in *. destruct Hr as [C2 F2 B2 R2 N2 D2].
  assert (q' = q2) as ->.
  { unfold q', heap_Push. fold q1. rewrite Hlen. cbn [Nat.sub]. rewrite Nat.sub_0_r. fold q2. apply upd_id. intros _. apply set_elem_id.
    assert (it ∈ delayed q2) as [i Hx]%list_elem_of_lookup by (rewrite D2, Ed; set_solver). by apply (c_delayed q2 C2) in Hx as (_ & ? & _). }
  split; [|split; [unfold rdy; by rewrite R2, Er|rewrite D2, Ed; by rewrite Permutation_app_comm]]. split.
  - done.
  - unfold heap_ok. rewrite (Permutation_length D2), Hlen. done.
  - rewrite (f_len _ _ F2). apply (len_upd q it).
  - intros x. rewrite (f_data _ _ F2). destruct (decide (x = it)) as [->|]; [by rewrite Hobj|by rewrite Hoth].
  - intros x Hx Hxi. rewrite (f_other _ _ F2); [by apply Hoth|]. rewrite elem_mem, Er, Ed. rewrite elem_mem in Hx. set_solver.
  - apply F2.
  - apply B2.
  - unfold mem. rewrite R2, D2, Er, Ed. symmetry. rewrite app_assoc. apply Permutation_cons_append.
Qed.

Lemma place_spec q now it :
  core q → heap_ok q → detached q it →
  inserted q it (place now it q) ∧
  (if now <? nextAt (obj q it) then rdy (place now it q) = rdy q ∧ delayed (place now it q) ≡ₚ it :: delayed q
   else rdy (place now it q) = rdy q ++ [it] ∧ delayed (place now it q) = delayed q).
Proof.
  intros Hc Hh Hd. unfold place. destruct (now <? nextAt (obj q it)).
  - by apply push_delayed_spec.
  - by apply (push_ready_spec q it).
Qed.

Lemma rep_inserted q p q' k :
  Rep q → inserted q p q' → p ∉ mem q → k = hkey (obj q p) → index q !! k = None → 0 ≤ size (obj q p) →
  Rep (put_count (qbytes q' + size (obj q p)) (items q' + 1) (put_index (<[k := p]> (index q')) q')).
Proof.
  intros Hr [C H' L D O F (B1 & B2 & B3) M] Hp -> Hk Hs. set (q2 := put_count _ _ _).
  assert (same_store q' q2) as Hss by done. pose proof (mem_ext q' q2 Hss) as Em.
  assert (∀ x, hkey (obj q2 x) = hkey (obj q x) ∧ size (obj q2 x) = size (obj q x)) as Hx.
  { intros x. change (obj q2 x) with (obj q' x). pose proof (data_fields _ _ (D x)). tauto. }
  split; [by eapply core_ext|by eapply heap_ext'| | | |].
  - intros k x. rewrite Em, M, elem_of_cons. destruct (Hx x) as [-> _]. change (index q2) with (<[hkey (obj q p) := p]> (index q')).
    rewrite B1, lookup_insert_Some, (rep_index q Hr). split.
    + intros [[<- <-]|(_ & ? & ?)]; auto.
    + intros [[->|Hin] <-]; [by left|]. right. split; [|done]. intros E.
      assert (index q !! hkey (obj q x) = Some x) as H2 by by apply (rep_index q Hr). congruence.
  - intros x. rewrite Em, M. destruct (Hx x) as [_ ->]. intros [->|Hin]%elem_of_cons; [done|]. by apply (rep_size q Hr).
  - change (items q' + 1 = Z.of_nat (length (mem q2))). rewrite Em, M, B3, (rep_items q Hr). cbn. lia.
  - change (qbytes q' + size (obj q p) = sizes q2 (mem q2)). rewrite Em, M, B2, (rep_bytes q Hr). cbn [sizes].
    rewrite (sizes_ext q q2) by (intros; apply Hx). destruct (Hx p) as [_ ->]. lia.
Qed.

(** ** Enqueueing *)

(** A hint without back references and schedule: what enqueueing never changes. *)
Definition payload (h : hintItem) : hintItem := set_sched 0 0 (data h).

Lemma payload_data h h' : data h = data h' → payload h = payload h'.
Proof. unfold payload. by intros ->. Qed.

Definition fits (q : hintQueue) : Prop := overCap q (items q) (qbytes q) = false.

Record enqueued (q : hintQueue) (it : nat) (q' : hintQueue) (ok : bool) (db di : Z) : Prop := {
  eq_rep : Rep q';
  eq_len : length (objs q') = length (objs q);
  eq_data x : x ≠ it → data (obj q' x) = data (obj q x);
  eq_other x : x ∉ mem q → x ≠ it → obj q' x = obj q x;
  eq_payload : payload (obj q' it) = payload (obj q it);
  eq_cfg : same_cfg q q';
  eq_mem x : x ∈ mem q' → x = it ∨ x ∈ mem q;
  eq_ok : ok = true ↔ it ∈ mem q';
  eq_fits : ok = true → fits q';
  eq_rejected : ok = false → mem q' ⊆+ mem q;
  eq_old old : ok = false → index q !! hkey (obj q it) = Some old → old ∈ mem q';
  eq_items : items q' = items q + di;
  eq_bytes : qbytes q' = qbytes q + db ∨
    (ok = false ∧ is_Some (index q !! hkey (obj q it)) ∧ qbytes q' = qbytes q - db) }.

Lemma enqueued_same q it : Rep q → it ∉ mem q → enqueued q it q false 0 0.
Proof. intros Hr Hi. split; try done; [auto|intros old _ Ho; by apply (rep_index q Hr) in Ho as [? _]|lia|left; lia]. Qed.

(** Taking a refused new hint out again. *)
Lemma new_refused q it q1 q2 k tb ti :
  Rep q → index q !! hkey (obj q it) = None → it ∉ mem q → 0 ≤ size (obj q it) → Rep q1 →
  length (objs q1) = length (objs q) → (∀ x, data (obj q1 x) = data (obj q x)) →
  (∀ x, x ∉ mem q → x ≠ it → obj q1 x = obj q x) → same_cfg q q1 → mem q1 ≡ₚ it :: mem q →
  items q1 = items q + 1 → qbytes q1 = qbytes q + size (obj q it) →
  shrunk q1 q2 → it ∈ mem q2 → items q2 = items q1 - ti → qbytes q2 = qbytes q1 - tb → k = hkey (obj q it) →
  let q3 := removeItem it q2 in
  enqueued q it (put_index (delete k (index q3)) q3) false (- tb) (- ti).
Proof.
  intros Hr Hnone Hni Hs Hr1 L1 D1 O1 F1 M1 I1 B1 [R2 F2 M2 _ _] Hi2 I2 B2 -> q3.
  pose proof (removeItem_spec q2 it (rep_core _ R2) (rep_heap _ R2) Hi2) as Hrm. fold q3 in Hrm.
  pose proof (rep_removed _ _ _ R2 Hrm) as R3. destruct Hrm as [C3 H3 F3 M3 _ _ De3 Ix3 It3 By3].
  assert (∀ x, data (obj q3 x) = data (obj q x)) as Hd by (intros x; by rewrite (f_data _ _ F3), (f_data _ _ F2), D1).
  assert (hkey (obj q2 it) = hkey (obj q it) ∧ size (obj q2 it) = size (obj q it)) as [Ek Es].
  { assert (data (obj q2 it) = data (obj q it)) as E by by rewrite (f_data _ _ F2), D1. pose proof (data_fields _ _ E). tauto. }
  assert (delete (hkey (obj q it)) (index q3) = index q3) as Eix.
  { apply delete_id. rewrite Ix3, Ek. apply lookup_delete_eq. }
  rewrite Eix. set (q4 := put_index _ q3). assert (same_store q3 q4) as Hss by done.
  assert (mem q4 ⊆+ mem q) as Hsub.
  { rewrite (mem_ext q3 q4 Hss). rewrite M1, M3 in M2. apply (submseteq_app_inv_l _ _ [it]). exact M2. }
  split.
  - destruct R3. by split.
  - change (length (objs q3) = length (objs q)). by rewrite (f_len _ _ F3), (f_len _ _ F2), L1.
  - intros x _. apply Hd.
  - intros x Hx Hxi. assert (x ∉ mem q1) as Hx1 by (rewrite M1; by apply not_elem_of_cons).
    assert (x ∉ mem q2) as Hx2 by (intros Hin; apply Hx1; eapply elem_of_submseteq; [exact Hin|]; rewrite M3 in M2 |- *; done).
    change (obj q3 x = obj q x). by rewrite (f_other _ _ F3), (f_other _ _ F2), O1.
  - apply payload_data, Hd.
  - eapply same_cfg_trans; [exact F1|]. eapply same_cfg_trans; [apply F2|]. apply F3.
  - intros x Hx. right. by eapply elem_of_submseteq.
  - split; [done|]. intros Hx. destruct Hni. by eapply elem_of_submseteq.
  - done.
  - done.
  - intros old _ Ho. congruence.
  - change (items q3 = items q - ti). lia.
  - left. change (qbytes q3 = qbytes q - tb). lia.
Qed.

Lemma enqueue_new_spec q now it :
  Rep q → detached q it → 0 ≤ size (obj q it) → index q !! hkey (obj q it) = None →
  let '(q', (ok, db, di)) := enqueue_new now it q in enqueued q it q' ok db di.
Proof.
  intros Hr Hdet Hs Hk. unfold enqueue_new. destruct (place_spec q now it (rep_core q Hr) (rep_heap q Hr) Hdet) as [Hin _].
  destruct Hdet as (Hl & Hm & _). set (q0 := place now it q) in *.
  assert (size (obj (put_index (<[hkey (obj q it) := it]> (index q0)) q0) it) = size (obj q it)) as Es.
  { pose proof (data_fields _ _ (in_data _ _ _ Hin it)). tauto. }
  rewrite Es. pose proof (rep_inserted q it q0 _ Hr Hin Hm eq_refl Hk Hs) as Hr1.
  change (qbytes (put_index (<[hkey (obj q it) := it]> (index q0)) q0)) with (qbytes q0).
  change (items (put_index (<[hkey (obj q it) := it]> (index q0)) q0)) with (items q0).
  set (q1 := put_count _ _ _) in *. destruct Hin as [C0 H0 L0 D0 O0 F0 (B1 & B2 & B3) M0].
  assert (mem q1 ≡ₚ it :: mem q) as M1 by exact M0.
  assert (items q1 = items q + 1) as I1 by (change (items q0 + 1 = items q + 1); lia).
  assert (qbytes q1 = qbytes q + size (obj q it)) as By1 by (change (qbytes q0 + size (obj q it) = qbytes q + size (obj q it)); lia).
  assert (it ∈ mem q1) as Hi1 by (rewrite M1; left).
  destruct (overCap q1 (items q1) (qbytes q1)) eqn:Ec.
  - destruct (drop q1).
    + pose proof (drop_loop_spec (drop_fuel q1) it q1 0 0 Hr1 Hi1) as Hd.
      destruct (drop_loop (drop_fuel q1) it q1 0 0) as [[[q2 tb] ti] fit].
      destruct Hd as (Hsh & Hi2 & I2 & By2 & Hc2 & _). { unfold drop_fuel, mem. rewrite length_app, length_fmap. lia. }
      rewrite !Z.sub_0_r in I2, By2. destruct fit.
      * destruct (obj_same_frame q1 q2 it (sh_frame _ _ Hsh)) as (_ & Es2 & _).
        assert (size (obj q2 it) = size (obj q it)) as -> by (rewrite Es2; exact Es). split.
        -- apply Hsh.
        -- rewrite (f_len _ _ (sh_frame _ _ Hsh)). exact L0.
        -- intros x _. rewrite (f_data _ _ (sh_frame _ _ Hsh)). apply D0.
        -- intros x Hx Hxi. rewrite (f_other _ _ (sh_frame _ _ Hsh)); [by apply O0|]. rewrite M1. by apply not_elem_of_cons.
        -- apply payload_data. rewrite (f_data _ _ (sh_frame _ _ Hsh)). apply D0.
        -- eapply same_cfg_trans; [exact F0|]. apply (f_cfg _ _ (sh_frame _ _ Hsh)).
        -- intros x Hx. apply elem_of_cons. rewrite <-M1. eapply elem_of_submseteq; [exact Hx|apply Hsh].
        -- done.
        -- done.
        -- done.
        -- done.
        -- lia.
        -- left. lia.
      * by apply (new_refused q it q1 q2 _ tb ti).
    + apply (new_refused q it q1 q1 _ 0 0); first [done|by apply shrunk_refl|lia].
    + apply (new_refused q it q1 q1 _ 0 0); first [done|by apply shrunk_refl|lia].
  - assert (size (obj q1 it) = size (obj q it)) as -> by exact Es. split; try done.
    + intros x _. apply D0.
    + apply payload_data, D0.
    + intros x Hx. apply elem_of_cons. by rewrite <-M1.
    + left. done.
Qed.

(** ** Coalescing with an older hint *)
Definition in_ready (q : hintQueue) (p : nat) : bool := match elem (obj q p) with Some _ => true | None => false end.

(** Where a member is, read off its back references. *)
Lemma member_place q p :
  core q → p ∈ mem q →
  if in_ready q p then ∃ e, elem (obj q p) = Some e ∧ (e, p) ∈ ready q ∧ heapIndex (obj q p) = -1
  else ∃ i, elem (obj q p) = None ∧ delayed q !! i = Some p ∧ heapIndex (obj q p) = Z.of_nat i.
Proof.
  intros Hc [[e He]|[i Hi]%list_elem_of_lookup]%elem_mem; unfold in_ready.
  - destruct (c_ready q Hc e p He) as (_ & Ee & Eh). rewrite Ee. eauto.
  - destruct (c_delayed q Hc i p Hi) as (_ & Ee & Eh). rewrite Ee. eauto.
Qed.

Lemma replace_spec q it old :
  core q → heap_ok q → detached q it → old ∈ mem q →
  let q1 := replace_in_place it old q in
  replaced q old it q1 ∧ length (objs q1) = length (objs q) ∧ (∀ x, x ≠ it → obj q1 x = obj q x) ∧
  payload (obj q1 it) = payload (obj q it) ∧ same_books q q1 ∧ same_cfg q q1 ∧ (elem (obj q1 it) = elem (obj q old) ∧ heapIndex (obj q1 it) = heapIndex (obj q old)) ∧
  (in_ready q old = false → nextAt (obj q1 it) = nextAt (obj q old)).
Proof.
  intros Hc Hh (Hl & Hm & He & Hi) Ho. pose proof (member_place q old Hc Ho) as Hpl.
  assert (old ≠ it) as Hne by (intros ->; done). unfold in_ready in *. unfold replace_in_place.
  destruct (elem (obj q old)) as [e|] eqn:Eo.
  - destruct Hpl as (e' & [= <-] & Hin & Hhi). rewrite Hhi. cbn [Z.leb Z.compare Pos.compare]. rewrite Eo.
    set (q1 := upd it _ _).
    assert (∀ x, x ≠ it → obj q1 x = obj q x) as Hoth by (intros x Hx; exact (obj_upd_ne (set_value e it q) it _ x Hx)).
    assert (obj q1 it = set_heapIndex (-1) (set_elem (Some e) (obj q it))) as Hobj by exact (obj_upd_eq (set_value e it q) it _ Hl).
    rewrite Hobj. split_and!; try done.
    + apply (subst_ready q q1 e old it); try done; [intros x; apply (live_upd (set_value e it q) it)|auto|by rewrite Hobj|by rewrite Hobj].
    + apply (len_upd (set_value e it q) it).
  - destruct Hpl as (i & _ & Hin & Hhi). rewrite Hhi. destruct (Z.leb_spec 0 (Z.of_nat i)); [|lia].
    set (q0 := upd it (set_sched _ _) q).
    assert (∀ x, x ≠ it → obj q0 x = obj q x) as Hoth0 by (intros x Hx; exact (obj_upd_ne q it _ x Hx)).
    assert (live q0 it) as Hl0 by by apply live_upd.
    rewrite (Hoth0 old Hne), Eo, Hhi, Nat2Z.id. set (q1 := put_delayed _ _).
    assert (∀ x, x ≠ it → obj q1 x = obj q x) as Hoth.
    { intros x Hx. rewrite <-(Hoth0 x Hx). exact (obj_upd_ne q0 it _ x Hx). }
    assert (obj q1 it = set_elem None (set_heapIndex (Z.of_nat i) (set_sched (nextAt (obj q old)) (tries (obj q old)) (obj q it)))) as Hobj.
    { transitivity (set_elem None (set_heapIndex (Z.of_nat i) (obj q0 it))); [exact (obj_upd_eq q0 it _ Hl0)|].
      unfold q0. by rewrite obj_upd_eq. }
    assert (length (objs q1) = length (objs q)) as Hlen.
    { transitivity (length (objs q0)); [exact (len_upd q0 it _)|exact (len_upd q it _)]. }
    rewrite Hobj. split_and!; try done.
    apply (subst_delayed q q1 i old it); try done; [unfold live; intros x; by rewrite Hlen|auto|by rewrite Hobj..].
Qed.

(** Putting [old] back into the place of [it]. *)
Lemma restore_spec q it old :
  core q → heap_ok q → it ∈ mem q → old ∉ mem q → live q old →
  (if in_ready q it then heapIndex (obj q old) = -1 else elem (obj q old) = None ∧ nextAt (obj q it) = nextAt (obj q old)) →
  let q1 := restore_old it old (in_ready q it) q in
  replaced q it old q1 ∧ length (objs q1) = length (objs q) ∧ (∀ x, data (obj q1 x) = data (obj q x)) ∧
  (∀ x, x ≠ it → x ≠ old → obj q1 x = obj q x) ∧ same_books q q1 ∧ same_cfg q q1.
Proof.
  intros Hc Hh Hi Ho Hl Hb. pose proof (member_place q it Hc Hi) as Hpl. pose proof (mem_live q it Hc Hi) as Hli.
  assert (old ≠ it) as Hne by (intros ->; done). unfold restore_old. destruct (in_ready q it) eqn:Er.
  - destruct Hpl as (e & Ee & Hin & Hhi). rewrite Ee. set (q0 := upd old _ _). set (q1 := upd it _ q0).
    assert (length (objs q0) = length (objs q)) as L0 by exact (len_upd (set_value e old q) old _).
    assert (length (objs q1) = length (objs q)) as L1 by (transitivity (length (objs q0)); [exact (len_upd q0 it _)|done]).
    assert (∀ x, x ≠ old → obj q0 x = obj q x) as Hoth0 by (intros x Hx; exact (obj_upd_ne (set_value e old q) old _ x Hx)).
    assert (obj q0 old = set_elem (Some e) (obj q old)) as Hob0 by exact (obj_upd_eq (set_value e old q) old _ Hl).
    assert (∀ x, x ≠ it → obj q1 x = obj q0 x) as Hoth by (intros x Hx; exact (obj_upd_ne q0 it _ x Hx)).
    assert (∀ x, data (obj q1 x) = data (obj q x)) as Hd.
    { intros x. unfold q1. rewrite data_upd by done. destruct (decide (x = old)) as [->|]; [by rewrite Hob0|by rewrite Hoth0]. }
    assert (∀ x, x ≠ it → x ≠ old → obj q1 x = obj q x) as Hoo by (intros x Hx1 Hx2; by rewrite Hoth, Hoth0).
    split_and!; try done.
    apply (subst_ready q q1 e it old); try done.
    + intros x. unfold live. by rewrite L1.
    + rewrite Hoth by done. by rewrite Hob0.
    + rewrite Hoth by done. by rewrite Hob0.
  - destruct Hpl as (i & Ee & Hin & Hhi). destruct Hb as [Eo En]. rewrite Hhi, Nat2Z.id. set (qd := put_delayed _ q). set (q0 := upd old _ qd). set (q1 := upd it _ q0).
    assert (length (objs q0) = length (objs q)) as L0 by exact (len_upd qd old _).
    assert (length (objs q1) = length (objs q)) as L1 by (transitivity (length (objs q0)); [exact (len_upd q0 it _)|done]).
    assert (∀ x, x ≠ old → obj q0 x = obj q x) as Hoth0 by (intros x Hx; exact (obj_upd_ne qd old _ x Hx)).
    assert (obj q0 old = set_heapIndex (Z.of_nat i) (obj q old)) as Hob0 by exact (obj_upd_eq qd old _ Hl).
    assert (∀ x, x ≠ it → obj q1 x = obj q0 x) as Hoth by (intros x Hx; exact (obj_upd_ne q0 it _ x Hx)).
    assert (∀ x, data (obj q1 x) = data (obj q x)) as Hd.
    { intros x. unfold q1. rewrite data_upd by done. destruct (decide (x = old)) as [->|]; [by rewrite Hob0|by rewrite Hoth0]. }
    assert (∀ x, x ≠ it → x ≠ old → obj q1 x = obj q x) as Hoo by (intros x Hx1 Hx2; by rewrite Hoth, Hoth0).
    split_and!; try done.
    apply (subst_delayed q q1 i it old); try done.
    + intros x. unfold live. by rewrite L1.
    + rewrite Hoth by done. by rewrite Hob0.
    + rewrite Hoth by done. by rewrite Hob0.
    + rewrite Hoth by done. by rewrite Hob0.
Qed.

Lemma undo_spec q it old :
  core q → heap_ok q → it ∈ mem q → old ∉ mem q → live q old → old ≠ it →
  elem (obj q old) = elem (obj q it) → heapIndex (obj q old) = heapIndex (obj q it) →
  (in_ready q it = false → nextAt (obj q it) = nextAt (obj q old)) →
  replaced q it old (undo old q) ∧ objs (undo old q) = objs q ∧ same_books q (undo old q) ∧ same_cfg q (undo old q).
Proof.
  intros Hc Hh Hi Ho Hl Hne Ee Eh Hn. pose proof (member_place q it Hc Hi) as Hpl. unfold undo.
  destruct (in_ready q it) eqn:Er.
  - destruct Hpl as (e & Ei & Hin & Hhi). rewrite Ee, Ei. split_and!; try done.
    apply (subst_ready q _ e it old); try done; [cbn|]; [by rewrite <-Ei|by rewrite <-Hhi].
  - destruct Hpl as (i & Ei & Hin & Hhi). rewrite Ee, Ei, Eh, Hhi. destruct (Z.leb_spec 0 (Z.of_nat i)); [|lia].
    rewrite Nat2Z.id. split_and!; try done.
    apply (subst_delayed q _ i it old); try done; [by rewrite <-Ei|by rewrite <-Hhi|symmetry; by apply Hn].
Qed.

Lemma replaced_ext q a b q1 q2 : same_store q1 q2 → replaced q a b q1 → replaced q a b q2.
Proof.
  intros Hs [C H M R]. split; [by eapply core_ext|by eapply heap_ext'|by rewrite (mem_ext q1 q2 Hs)|].
  destruct Hs as (_ & Er & _). unfold rdy at 1. by rewrite Er.
Qed.
Lemma in_ready_rdy q p : core q → p ∈ mem q → in_ready q p = true ↔ p ∈ rdy q.
Proof.
  intros Hc Hp. pose proof (member_place q p Hc Hp) as Hpl. unfold rdy. rewrite list_elem_of_fmap. destruct (in_ready q p) eqn:E.
  - destruct Hpl as (e & _ & Hin & _). split; [intros _; by exists (e, p)|done].
  - destruct Hpl as (i & Ee & _). split; [done|]. intros ([e x] & Ex & Hx). cbn in Ex. subst x.
    apply (c_ready q Hc) in Hx as (_ & Hx & _). congruence.
Qed.
Lemma shrunk_in_ready q q' p : core q → shrunk q q' → p ∈ mem q' → in_ready q' p = in_ready q p.
Proof.
  intros Hc Hsh Hp. assert (p ∈ mem q) as Hpq by (eapply elem_of_submseteq; [done|apply Hsh]).
  pose proof (rep_core _ (sh_rep _ _ Hsh)) as Hc'. apply eq_iff_eq_true.
  rewrite (in_ready_rdy q' p), (in_ready_rdy q p) by done. split; intros Hin.
  - apply (elem_of_submseteq _ _ _ Hin). apply sublist_submseteq, Hsh.
  - unfold mem in Hp. fold (rdy q') in Hp. apply elem_of_app in Hp as [?|Hd]; [done|]. exfalso.
    assert (p ∈ delayed q) as Hd' by (apply (elem_of_submseteq _ _ _ Hd), Hsh).
    pose proof (core_nodup q Hc) as Hn. unfold mem in Hn. apply NoDup_app in Hn as (_ & Hn & _). by apply (Hn p).
Qed.

(** The state after [it] has taken the place of [old], with the books adjusted. *)
Record coalesced (q : hintQueue) (it old : nat) (q1 : hintQueue) : Prop := {
  co_rep : Rep q1;
  co_len : length (objs q1) = length (objs q);
  co_obj x : x ≠ it → obj q1 x = obj q x;
  co_payload : payload (obj q1 it) = payload (obj q it);
  co_cfg : same_cfg q q1;
  co_mem : ∃ rest, mem q ≡ₚ old :: rest ∧ mem q1 ≡ₚ it :: rest;
  co_old : old ∉ mem q1;
  co_refs : elem (obj q1 it) = elem (obj q old) ∧ heapIndex (obj q1 it) = heapIndex (obj q old);
  co_next : in_ready q old = false → nextAt (obj q1 it) = nextAt (obj q old);
  co_items : items q1 = items q;
  co_bytes : qbytes q1 = qbytes q + (size (obj q it) - size (obj q old)) }.

Lemma payload_fields h h' : payload h = payload h' → hkey h = hkey h' ∧ size h = size h' ∧ ver h = ver h'.
Proof. destruct h, h'. unfold payload, data, set_heapIndex, set_elem, set_sched. cbn. intros [=]. by subst. Qed.

Lemma co_ready q it old q1 : coalesced q it old q1 → in_ready q1 it = in_ready q old.
Proof. intros [? ? ? ? ? ? ? [E _] ? ? ?]. unfold in_ready. by rewrite E. Qed.

Lemma coalesce_spec q it old :
  Rep q → detached q it → 0 ≤ size (obj q it) → index q !! hkey (obj q it) = Some old →
  let q0 := replace_in_place it old q in
  let delta := size (obj q0 it) - size (obj q0 old) in
  delta = size (obj q it) - size (obj q old) ∧
  coalesced q it old (put_index (<[hkey (obj q it) := it]> (index q0)) (put_count (qbytes q0 + delta) (items q0) q0)).
Proof.
  intros Hr Hdet Hs Hk q0 delta. apply (rep_index q Hr) in Hk as [Ho Eok]. pose proof Hdet as (Hl & Hm & _).
  assert (old ≠ it) as Hne by (intros ->; done).
  destruct (replace_spec q it old (rep_core q Hr) (rep_heap q Hr) Hdet Ho) as (Hrep & L & Hoth & Hpay & (B1 & B2 & B3) & Hcfg & Hir & Hnx).
  fold q0 in Hrep, L, Hoth, Hpay, B1, B2, B3, Hcfg, Hir, Hnx.
  destruct (payload_fields _ _ Hpay) as (Ek & Es & _).
  assert (delta = size (obj q it) - size (obj q old)) as Ed by (unfold delta; by rewrite Es, Hoth).
  split; [done|]. set (q1 := put_index _ _). assert (same_store q0 q1) as Hss by done.
  pose proof (replaced_ext q old it q0 q1 Hss Hrep) as Hrep1. destruct (rp_mem _ _ _ _ Hrep1) as (rest & M & M1 & Ho1 & _).
  split; try done.
  - apply (rep_replaced q old it q1 Hr Hrep1).
    + intros x Hx1 Hx2. change (obj q1 x) with (obj q0 x). by rewrite Hoth.
    + change (obj q1 it) with (obj q0 it). congruence.
    + change (obj q1 it) with (obj q0 it). lia.
    + change (index q1) with (<[hkey (obj q it) := it]> (index q0)). rewrite B1. by rewrite Eok.
    + exact B3.
    + change (obj q1 it) with (obj q0 it). change (qbytes q1) with (qbytes q0 + delta). lia.
  - eauto.
  - change (qbytes q1) with (qbytes q0 + delta). lia.
Qed.

(** Refusing after some drops: [old] comes back. *)
Lemma put_back_enqueued q it old q1 q2 q3 tb ti :
  Rep q → detached q it → old ∈ mem q → hkey (obj q old) = hkey (obj q it) → coalesced q it old q1 →
  shrunk q1 q2 → it ∈ mem q2 → items q2 = items q1 - ti → qbytes q2 = qbytes q1 - tb →
  replaced q2 it old q3 → length (objs q3) = length (objs q2) → (∀ x, data (obj q3 x) = data (obj q2 x)) →
  (∀ x, x ≠ it → x ≠ old → obj q3 x = obj q2 x) → same_books q2 q3 → same_cfg q2 q3 →
  let q4 := put_count (qbytes q3 - (size (obj q it) - size (obj q old))) (items q3) (put_index (<[hkey (obj q it) := old]> (index q3)) q3) in
  Rep q4 ∧ ∀ db, (db = - tb ∨ db = tb) → enqueued q it q4 false db (- ti).
Proof.
  intros Hr (Hl & Hm & _) Hom Ek Hco Hsh Hi2 I2 B2 Hrep L3 D3 O3 (Bk1 & Bk2 & Bk3) Cf3 q4.
  assert (same_store q3 q4) as Hss by done. assert (old ≠ it) as Hne by (intros ->; done).
  assert (∀ x, x ≠ it → data (obj q2 x) = data (obj q x)) as Hd2.
  { intros x Hx. rewrite (f_data _ _ (sh_frame _ _ Hsh)). by rewrite (co_obj _ _ _ _ Hco). }
  assert (payload (obj q2 it) = payload (obj q it)) as Hp2.
  { rewrite (payload_data _ _ (f_data _ _ (sh_frame _ _ Hsh) it)). apply Hco. }
  destruct (payload_fields _ _ Hp2) as (Ki & Si & _).
  assert (∀ x, hkey (obj q3 x) = hkey (obj q2 x) ∧ size (obj q3 x) = size (obj q2 x)) as Hx3.
  { intros x. pose proof (data_fields _ _ (D3 x)). tauto. }
  assert (hkey (obj q2 old) = hkey (obj q old) ∧ size (obj q2 old) = size (obj q old)) as [Ko So].
  { pose proof (data_fields _ _ (Hd2 old Hne)). tauto. }
  pose proof (replaced_ext q2 it old q3 q4 Hss Hrep) as Hrep4. destruct (rp_mem _ _ _ _ Hrep4) as (rest2 & M2 & M4 & Hi4 & _).
  assert (Rep q4) as R4.
  { apply (rep_replaced q2 it old q4 (sh_rep _ _ Hsh) Hrep4).
    - intros x _ _. apply Hx3.
    - change (obj q4 old) with (obj q3 old). destruct (Hx3 old) as [-> _]. congruence.
    - change (obj q4 old) with (obj q3 old). destruct (Hx3 old) as [_ ->]. rewrite So. by apply (rep_size q Hr).
    - change (index q4) with (<[hkey (obj q it) := old]> (index q3)). by rewrite Bk1, Ki.
    - exact Bk3.
    - change (obj q4 old) with (obj q3 old). destruct (Hx3 old) as [_ ->].
      change (qbytes q4) with (qbytes q3 - (size (obj q it) - size (obj q old))). rewrite Bk2. lia. }
  split; [done|]. intros db Hdb. destruct (co_mem _ _ _ _ Hco) as (rest & M & M1).
  assert (mem q4 ⊆+ mem q) as Hsub.
  { pose proof (sh_mem _ _ Hsh) as Hs. rewrite M1, M2 in Hs. apply (submseteq_app_inv_l _ _ [it]) in Hs.
    rewrite M, M4. by apply submseteq_skip. }
  split; try done.
  - change (length (objs q3) = length (objs q)). by rewrite L3, (f_len _ _ (sh_frame _ _ Hsh)), (co_len _ _ _ _ Hco).
  - intros x Hx. change (data (obj q3 x) = data (obj q x)). by rewrite D3, Hd2.
  - intros x Hx Hxi. assert (x ≠ old) by (intros ->; done). change (obj q3 x = obj q x). rewrite O3 by done.
    rewrite (f_other _ _ (sh_frame _ _ Hsh)); [by apply (co_obj _ _ _ _ Hco)|].
    rewrite M in Hx. apply not_elem_of_cons in Hx as [_ Hx]. rewrite M1. by apply not_elem_of_cons.
  - change (payload (obj q3 it) = payload (obj q it)). by rewrite (payload_data _ _ (D3 it)).
  - eapply same_cfg_trans; [apply Hco|]. eapply same_cfg_trans; [apply (f_cfg _ _ (sh_frame _ _ Hsh))|exact Cf3].
  - intros x Hx. right. by eapply elem_of_submseteq.
  - intros o _ Hx. assert (index q !! hkey (obj q it) = Some old) as Hx2 by by apply (rep_index q Hr).
    assert (o = old) as -> by congruence. rewrite M4. left.
  - change (items q3 = items q - ti). rewrite Bk3, I2, (co_items _ _ _ _ Hco). lia.
  - assert (qbytes q4 = qbytes q - tb) as Eb.
    { change (qbytes q4) with (qbytes q3 - (size (obj q it) - size (obj q old))). rewrite Bk2, B2, (co_bytes _ _ _ _ Hco). lia. }
    destruct Hdb as [Edb|Edb]; rewrite Edb; [left; lia|right]. split_and!; [done| |done]. exists old. by apply (rep_index q Hr).
Qed.

Lemma coalesced_enqueued q it old q1 q2 tb ti :
  Rep q → detached q it → coalesced q it old q1 → shrunk q1 q2 → it ∈ mem q2 → fits q2 →
  items q2 = items q1 - ti → qbytes q2 = qbytes q1 - tb →
  enqueued q it q2 true (size (obj q it) - size (obj q old) - tb) (- ti).
Proof.
  intros Hr Hdet Hco Hsh Hi Hf I2 B2. destruct (co_mem _ _ _ _ Hco) as (rest & M & M1). split; try done.
  - apply Hsh.
  - by rewrite (f_len _ _ (sh_frame _ _ Hsh)), (co_len _ _ _ _ Hco).
  - intros x Hx. rewrite (f_data _ _ (sh_frame _ _ Hsh)). by rewrite (co_obj _ _ _ _ Hco).
  - intros x Hx Hxi. rewrite (f_other _ _ (sh_frame _ _ Hsh)); [by apply (co_obj _ _ _ _ Hco)|].
    rewrite M in Hx. apply not_elem_of_cons in Hx as [_ Hx]. rewrite M1. by apply not_elem_of_cons.
  - rewrite (payload_data _ _ (f_data _ _ (sh_frame _ _ Hsh) it)). apply Hco.
  - eapply same_cfg_trans; [apply Hco|apply (f_cfg _ _ (sh_frame _ _ Hsh))].
  - intros x Hx. assert (x ∈ mem q1) as Hx1 by (eapply elem_of_submseteq; [exact Hx|apply Hsh]).
    rewrite M1 in Hx1. apply elem_of_cons in Hx1 as [->|?]; [by left|]. right. rewrite M. by right.
  - rewrite I2, (co_items _ _ _ _ Hco). lia.
  - left. rewrite B2, (co_bytes _ _ _ _ Hco). lia.
Qed.

Lemma enforce_existing_spec q it old q1 :
  Rep q → detached q it → index q !! hkey (obj q it) = Some old → coalesced q it old q1 →
  let '(q', (ok, db, di)) :=
    enforce_existing (hkey (obj q it)) it old (in_ready q old) (size (obj q it) - size (obj q old)) q1 in
  enqueued q it q' ok db di.
Proof.
  intros Hr Hdet Hk Hco. pose proof Hk as [Hom Eok]%(rep_index q Hr). pose proof Hdet as (_ & Hm & _).
  assert (it ∈ mem q1) as Hi1. { destruct (co_mem _ _ _ _ Hco) as (rest & _ & ->). left. }
  assert (old ≠ it) as Hne by (intros ->; done). pose proof (co_rep _ _ _ _ Hco) as Hr1.
  pose proof (co_obj _ _ _ _ Hco old Hne) as Hold. pose proof (shrunk_refl q1 Hr1) as Hsh1.
  assert (∀ q', length (objs q') = length (objs q1) → live q' old) as Hlo.
  { intros q' L. unfold live. rewrite L, (co_len _ _ _ _ Hco). by apply (mem_live q old (rep_core q Hr)). }
  pose proof (member_place q old (rep_core q Hr) Hom) as Hpl. pose proof (member_place q1 it (rep_core _ Hr1) Hi1) as Hpi.
  unfold enforce_existing. destruct (overCap q1 (items q1) (qbytes q1)) eqn:Ec.
  2: { replace (size (obj q it) - size (obj q old)) with (size (obj q it) - size (obj q old) - 0) by lia.
       by apply (coalesced_enqueued q it old q1 q1 0 0); first [done|lia]. }
  assert (∀ q2, shrunk q1 q2 → it ∈ mem q2 →
    old ∉ mem q2 ∧ obj q2 old = obj q old ∧ in_ready q2 it = in_ready q old ∧ nextAt (obj q2 it) = nextAt (obj q1 it)) as Hq2.
  { intros q2 Hsh Hi2. split_and!.
    - intros Hx. apply (co_old _ _ _ _ Hco). eapply elem_of_submseteq; [exact Hx|apply Hsh].
    - rewrite (f_other _ _ (sh_frame _ _ Hsh)) by apply Hco. done.
    - rewrite (shrunk_in_ready q1 q2 it (rep_core _ Hr1) Hsh Hi2). by apply co_ready.
    - apply (obj_same_frame q1 q2 it (sh_frame _ _ Hsh)). }
  assert (let q3 := undo old q1 in
    enqueued q it (put_count (qbytes q3 - (size (obj q it) - size (obj q old))) (items q3) (put_index (<[hkey (obj q it) := old]> (index q3)) q3)) false 0 0) as Hundo.
  { intros q3. destruct (co_refs _ _ _ _ Hco) as [Er1 Er2].
    destruct (undo_spec q1 it old (rep_core _ Hr1) (rep_heap _ Hr1) Hi1 (co_old _ _ _ _ Hco)) as (Hrp & Eo & Hbk & Hcf);
      [by apply Hlo|done|by rewrite Hold|by rewrite Hold|rewrite (co_ready _ _ _ _ Hco), Hold; apply Hco|].
    refine (proj2 (put_back_enqueued q it old q1 q1 q3 0 0 Hr Hdet Hom Eok Hco Hsh1 Hi1 _ _ Hrp _ _ _ Hbk Hcf) 0 _); try lia.
    - unfold q3. by rewrite Eo.
    - intros x. unfold q3. by rewrite (obj_ext q1 _ x Eo).
    - intros x _ _. apply (obj_ext q1 _ x Eo). }
  destruct (drop q1); [|exact Hundo|exact Hundo].
  pose proof (drop_loop_spec (drop_fuel q1) it q1 0 0 Hr1 Hi1) as Hd.
  destruct (drop_loop (drop_fuel q1) it q1 0 0) as [[[q2 tb] ti] fit].
  destruct Hd as (Hsh & Hi2 & I2 & By2 & Hc2 & _). { unfold drop_fuel, mem. rewrite length_app, length_fmap. lia. }
  rewrite !Z.sub_0_r in I2, By2. destruct fit; [by apply (coalesced_enqueued q it old q1 q2 tb ti)|].
  destruct (Hq2 q2 Hsh Hi2) as (Ho2 & Eo2 & Er2 & En2). rewrite <-Er2 in Hpl |- *.
  destruct (restore_spec q2 it old (rep_core _ (sh_rep _ _ Hsh)) (rep_heap _ (sh_rep _ _ Hsh)) Hi2 Ho2) as (Hrp & L3 & D3 & O3 & Hbk & Hcf).
  { apply Hlo. apply (f_len _ _ (sh_frame _ _ Hsh)). }
  { rewrite Eo2. destruct (in_ready q2 it) eqn:Ei; [by destruct Hpl as (? & _ & _ & ?)|]. destruct Hpl as (? & ? & _).
    split; [done|]. rewrite En2. apply (co_next _ _ _ _ Hco). by rewrite <-Er2. }
  refine (proj2 (put_back_enqueued q it old q1 q2 _ tb ti Hr Hdet Hom Eok Hco Hsh Hi2 I2 By2 Hrp L3 D3 O3 Hbk Hcf) tb _). by right.
Qed.

Lemma enqueue_existing_spec q it old :
  Rep q → detached q it → 0 ≤ size (obj q it) → index q !! hkey (obj q it) = Some old →
  let '(q', (ok, db, di)) := enqueue_existing it old q in
  enqueued q it q' ok db di ∧ (ok = true → ver (obj q old) < ver (obj q it)) ∧
  (ver (obj q it) ≤ ver (obj q old) → q' = q).
Proof.
  intros Hr Hdet Hs Hk. unfold enqueue_existing. destruct (Z.leb_spec (ver (obj q it)) (ver (obj q old))) as [Hv|Hv].
  { split_and!; [by apply enqueued_same; [|apply Hdet]|done|done]. }
  destruct (coalesce_spec q it old Hr Hdet Hs Hk) as [Ed Hco]. fold (in_ready q old). rewrite Ed in Hco |- *.
  pose proof (enforce_existing_spec q it old _ Hr Hdet Hk Hco) as He.
  destruct (enforce_existing _ _ _ _ _ _) as [q' [[ok db] di]]. split_and!; [done|done|lia].
Qed.

Lemma enqueue_spec q now it :
  Rep q → detached q it → 0 ≤ size (obj q it) →
  let '(q', (ok, db, di)) := enqueue now it q in
  enqueued q it q' ok db di ∧
  (ok = true → expired (ttl q) now (obj q it) = false ∧ ∀ old, index q !! hkey (obj q it) = Some old → ver (obj q old) < ver (obj q it)) ∧
  (∀ old, index q !! hkey (obj q it) = Some old → ver (obj q it) ≤ ver (obj q old) → q' = q).
Proof.
  intros Hr Hdet Hs. unfold enqueue. destruct (expired (ttl q) now (obj q it)).
  { split_and!; [by apply enqueued_same; [|apply Hdet]|done|done]. }
  destruct (index q !! hkey (obj q it)) as [old|] eqn:Hk.
  - pose proof (enqueue_existing_spec q it old Hr Hdet Hs Hk) as He.
    destruct (enqueue_existing it old q) as [q' [[ok db] di]]. destruct He as (He & Hv & Hsame).
    split_and!; [done|intros Hok; split; [done|]|]; intros ? [= <-]; auto.
  - pose proof (enqueue_new_spec q now it Hr Hdet Hs Hk) as He.
    destruct (enqueue_new now it q) as [q' [[ok db] di]]. split_and!; [done|done|done].
Qed.
End HandoffSpec.
