(* ===== verification/HandoffTheorems.v ===== *)
(** * Theorems about hinted handoff

    Replay order and expiry of [popReady], the step relation of one peer's queue together
    with the hints its replayer holds, and the properties that hold in every reachable state. *)
From Stdlib Require Import ZArith Lia.
From stdpp Require Import base numbers list gmap sets.
From S2P Require Import Prelude Heap Handoff HandoffInv HandoffSpec.
Local Open Scope Z_scope.

Module HandoffTheorems.
Import Heap Handoff HandoffInv HandoffSpec.

(** ** Promoting due hints *)
Lemma rep_same q q' :
  Rep q → core q' → heap_ok q' → mem q' ≡ₚ mem q → (∀ x, data (obj q' x) = data (obj q x)) → same_books q q' → Rep q'.
Proof.
  intros Hr Hc Hh Hm Hd (B1 & B2 & B3).
  assert (∀ x, hkey (obj q' x) = hkey (obj q x) ∧ size (obj q' x) = size (obj q x)) as Hx.
  { intros x. pose proof (data_fields _ _ (Hd x)). tauto. }
  split; [done|done| | | |].
  - intros k p. rewrite B1, Hm. destruct (Hx p) as [-> _]. apply Hr.
  - intros p. rewrite Hm. destruct (Hx p) as [_ ->]. apply Hr.
  - rewrite B3, Hm. apply Hr.
  - rewrite B2, Hm, (sizes_ext q q') by (intros; apply Hx). apply Hr.
Qed.

Lemma upd_ext p f g q : (live q p → f (obj q p) = g (obj q p)) → upd p f q = upd p g q.
Proof.
  intros Hf. unfold upd. f_equal. apply list_eq. intros x.
  destruct (decide (x = p)) as [->|]; [|by rewrite !list_lookup_alter_ne]. rewrite !list_lookup_alter_eq.
  destruct (objs q !! p) as [h|] eqn:E; [|done]. cbn. f_equal. unfold live, obj in Hf. rewrite E in Hf. apply Hf.
  by eapply lookup_lt_Some.
Qed.
Lemma set_heapIndex_id h : heapIndex h = -1 → set_heapIndex (-1) h = h.
Proof. destruct h. cbn. by intros ->. Qed.

Record promoted (now : Z) (q q' : hintQueue) : Prop := {
  pr_rep : Rep q';
  pr_len : length (objs q') = length (objs q);
  pr_data x : data (obj q' x) = data (obj q x);
  pr_other x : x ∉ mem q → obj q' x = obj q x;
  pr_cfg : same_cfg q q';
  pr_books : same_books q q';
  pr_mem : mem q' ≡ₚ mem q;
  pr_moved : ∃ moved, rdy q' = rdy q ++ moved ∧ delayed q ≡ₚ moved ++ delayed q' ∧
    ∀ p, p ∈ moved → nextAt (obj q p) ≤ now }.

Lemma promoted_refl now q : Rep q → promoted now q q.
Proof. intros Hr. split; try done. exists []. rewrite app_nil_r. split_and!; [done|done|]. intros p Hp. by apply elem_of_nil in Hp. Qed.

Lemma promote_one now q fr rest :
  Rep q → delayed q = fr :: rest → nextAt (obj q fr) ≤ now →
  let '(q1, hi) := heap_Pop q in
  let '(q2, e) := pushBack hi q1 in
  promoted now q (upd hi (set_elem (Some e)) q2) ∧ rdy (upd hi (set_elem (Some e)) q2) = rdy q ++ [fr] ∧
  delayed q ≡ₚ fr :: delayed (upd hi (set_elem (Some e)) q2).
Proof.
  intros Hr Ed Hn. destruct (heap_Pop_spec q fr rest (rep_core q Hr) (rep_heap q Hr) Ed) as [Efr [C H F B R N D Det]].
  destruct (heap_Pop q) as [q1 hi]. cbn [fst snd] in *. subst hi. cbn [pushBack].
  pose proof Det as (Hl & Hm & He & Hi).
  destruct (push_ready_spec q1 fr C H Det) as ([C2 H2 L2 D2 O2 F2 B2 M2] & Erd & Edl).
  set (q2 := put_nextElem _ _). cbn [pushBack fst] in *. fold q2 in C2, H2, L2, D2, O2, F2, B2, M2, Erd, Edl.
  assert (upd fr (λ h, set_heapIndex (-1) (set_elem (Some (nextElem q1)) h)) q2 = upd fr (set_elem (Some (nextElem q1))) q2) as Eu.
  { apply upd_ext. intros _. apply set_heapIndex_id. exact Hi. }
  rewrite Eu in *. set (q3 := upd fr _ q2) in *. clearbody q3.
  assert (rdy q1 = rdy q) as Er1 by (unfold rdy; by rewrite R).
  assert (mem q3 ≡ₚ mem q) as Hm3. { rewrite M2. unfold mem. rewrite R, D. apply Permutation_middle. }
  assert (∀ x, data (obj q3 x) = data (obj q x)) as Hd by (intros x; by rewrite D2, (f_data _ _ F)).
  assert (same_books q q3) as Hb. { destruct B as (? & ? & ?), B2 as (? & ? & ?). split_and!; congruence. }
  split; [|split; [by rewrite Erd, Er1|by rewrite Edl]]. split.
  - by eapply rep_same.
  - by rewrite L2, (f_len _ _ F).
  - done.
  - intros x Hx. assert (x ≠ fr). { intros ->. apply Hx, elem_mem. right. rewrite Ed. left. }
    rewrite O2; [by apply F| |done]. intros Hin. apply Hx. unfold mem in *. rewrite D. rewrite R in Hin. set_solver.
  - eapply same_cfg_trans; [apply F|done].
  - done.
  - done.
  - exists [fr]. split_and!; [by rewrite Erd, Er1|by rewrite Edl|]. intros p Hp%list_elem_of_singleton. by subst p.
Qed.

Lemma promoted_trans now q1 q2 q3 : promoted now q1 q2 → promoted now q2 q3 → promoted now q1 q3.
Proof.
  intros [R1 L1 D1 O1 C1 (B1 & B2 & B3) M1 (m1 & E1 & P1 & N1)] [R2 L2 D2 O2 C2 (B4 & B5 & B6) M2 (m2 & E2 & P2 & N2)].
  split; [done|congruence|congruence| |by eapply same_cfg_trans|split_and!; congruence|by rewrite M2|].
  - intros x Hx. rewrite O2 by (by rewrite M1). by apply O1.
  - exists (m1 ++ m2). split_and!; [by rewrite E2, E1, app_assoc|by rewrite P1, P2, app_assoc|].
    intros p [Hp|Hp]%elem_of_app; [by apply N1|]. specialize (N2 p Hp). pose proof (data_fields _ _ (D1 p)).
    assert (nextAt (obj q2 p) = nextAt (obj q1 p)) by tauto. lia.
Qed.

(** With enough fuel only hints that are not due stay behind. *)
Lemma moveDue_spec fuel now q :
  Rep q → (length (delayed q) ≤ fuel)%nat →
  promoted now q (moveDue_loop fuel now q) ∧ ∀ p, p ∈ delayed (moveDue_loop fuel now q) → now < nextAt (obj q p).
Proof.
  revert q. induction fuel as [|fuel IH]; intros q Hr Hf; cbn [moveDue_loop].
  { split; [by apply promoted_refl|]. destruct (delayed q) eqn:E; [|cbn in Hf; lia]. intros p Hp. by apply elem_of_nil in Hp. }
  destruct (delayed q) as [|fr rest] eqn:Ed.
  { split; [by apply promoted_refl|]. intros p Hp. rewrite Ed in Hp. by apply elem_of_nil in Hp. }
  destruct (Z.ltb_spec now (nextAt (obj q fr))) as [Hlt|Hle].
  - split; [by apply promoted_refl|]. intros p [i Hi]%list_elem_of_lookup.
    assert (delayed q !! 0%nat = Some fr) as H0 by by rewrite Ed.
    pose proof (heap_root_min (key_at q) (length (delayed q)) i (rep_heap q Hr)) as Hmin.
    rewrite (key_at_delayed q 0 fr H0), (key_at_delayed q i p Hi) in Hmin. apply lookup_lt_Some in Hi. lia.
  - pose proof (promote_one now q fr rest Hr Ed Hle) as H1. destruct (heap_Pop q) as [q1 hi]. destruct (pushBack hi q1) as [q2 e].
    destruct H1 as (H1 & _ & Hd). set (q3 := upd hi _ q2) in *.
    destruct (IH q3 (pr_rep _ _ _ H1)) as [H2 Hrest].
    { assert (length (delayed q) = S (length (delayed q3))) as E by by rewrite Hd. rewrite Ed in E. cbn in *. lia. }
    split; [by eapply promoted_trans|]. intros p Hp. specialize (Hrest p Hp).
    pose proof (data_fields _ _ (pr_data _ _ _ H1 p)). assert (nextAt (obj q3 p) = nextAt (obj q p)) by tauto. lia.
Qed.

(** ** The head of the ready queue *)
Lemma pop_loop_spec fuel now q :
  Rep q → (length (rdy q) < fuel)%nat →
  let '(q', r) := pop_loop fuel now q in
  Rep q' ∧ frame q q' ∧ ∃ gone, (∀ p, p ∈ gone → expired (ttl q) now (obj q p) = true) ∧
    match r with
    | Some p => rdy q = gone ++ p :: rdy q' ∧ expired (ttl q) now (obj q p) = false ∧ detached q' p ∧ mem q ≡ₚ gone ++ p :: mem q'
    | None => rdy q = gone ∧ rdy q' = [] ∧ mem q ≡ₚ gone ++ mem q'
    end.
Proof.
  revert q. induction fuel as [|fuel IH]; intros q Hr Hf; [lia|]. cbn [pop_loop]. rewrite front_rdy.
  destruct (rdy q) as [|it l] eqn:Erd; cbn [hd_error].
  { split_and!; [done|apply frame_refl|]. exists []. split; [intros p Hp; by apply elem_of_nil in Hp|]. split_and!; done. }
  assert (it ∈ mem q) as Hit by (apply hd_mem; by rewrite Erd).
  pose proof (removeItem_spec q it (rep_core q Hr) (rep_heap q Hr) Hit) as Hrm.
  assert (rdy (removeItem it q) = l) as Erd1.
  { rewrite (rm_rdy _ _ _ Hrm), Erd, filter_cons_False by tauto. apply filter_rdy_notin.
    pose proof (core_nodup q (rep_core q Hr)) as Hn. unfold mem in Hn. apply NoDup_app in Hn as (Hn & _). fold (rdy q) in Hn.
    rewrite Erd in Hn. by apply NoDup_cons in Hn as [? _]. }
  pose proof (rep_removed _ _ _ Hr Hrm) as Hr1. destruct (expired (ttl q) now (obj q it)) eqn:Ex.
  - specialize (IH (removeItem it q) Hr1). rewrite Erd1 in IH. cbn in Hf.
    destruct (pop_loop fuel now (removeItem it q)) as [q' r]. destruct IH as (Hr' & Hf' & gone & Hg & Hres); [lia|].
    assert (∀ p, expired (ttl (removeItem it q)) now (obj (removeItem it q) p) = expired (ttl q) now (obj q p)) as Hexp.
    { intros p. rewrite (data_expired _ _ _ _ (f_data _ _ (rm_frame _ _ _ Hrm) p)).
      destruct (f_cfg _ _ (rm_frame _ _ _ Hrm)) as (_ & _ & -> & _). done. }
    split_and!; [done| |exists (it :: gone); split].
    + eapply frame_trans; [|apply Hrm|exact Hf']. intros p. rewrite (rm_mem _ _ _ Hrm). by right.
    + intros p [->|Hp]%elem_of_cons; [done|]. rewrite <-Hexp. by apply Hg.
    + pose proof (rm_mem _ _ _ Hrm) as Hm. destruct r as [p|].
      * destruct Hres as (E & Hx & Hd & Hmm). rewrite Hexp in Hx. split_and!; [by rewrite E|done|done|by rewrite Hm, Hmm].
      * destruct Hres as (E & Hx & Hmm). split_and!; [by rewrite E|done|by rewrite Hm, Hmm].
  - split_and!; [done|apply Hrm|]. exists []. split; [intros p Hp; by apply elem_of_nil in Hp|].
    split_and!; [by rewrite Erd1|done|apply Hrm|apply Hrm].
Qed.

Lemma popReady_spec now q :
  Rep q →
  let '(q', r) := popReady now q in
  Rep q' ∧ same_cfg q q' ∧ length (objs q') = length (objs q) ∧ (∀ x, data (obj q' x) = data (obj q x)) ∧
  (∀ x, x ∉ mem q → obj q' x = obj q x) ∧ mem q' ⊆+ mem q ∧
  ∃ moved gone,
    (∀ p, p ∈ moved ↔ p ∈ delayed q ∧ nextAt (obj q p) ≤ now) ∧
    (∀ p, p ∈ gone → expired (ttl q) now (obj q p) = true) ∧
    match r with
    | Some p => rdy q ++ moved = gone ++ p :: rdy q' ∧ expired (ttl q) now (obj q p) = false ∧ detached q' p ∧ p ∈ mem q
    | None => rdy q ++ moved = gone ∧ rdy q' = []
    end.
Proof.
  intros Hr. unfold popReady, moveDueLocked.
  destruct (moveDue_spec (length (delayed q)) now q Hr) as [[R1 L1 D1 O1 C1 B1 M1 (moved & E1 & P1 & N1)] Hlate]; [done|].
  set (q1 := moveDue_loop _ now q) in *.
  pose proof (pop_loop_spec (S (length (ready q1))) now q1 R1) as Hp.
  destruct (pop_loop (S (length (ready q1))) now q1) as [q' r].
  destruct Hp as (R2 & F2 & gone & Hg & Hres). { unfold rdy. rewrite length_fmap. lia. }
  assert (∀ p, expired (ttl q1) now (obj q1 p) = expired (ttl q) now (obj q p)) as Hexp.
  { intros p. rewrite (data_expired _ _ _ _ (D1 p)). destruct C1 as (_ & _ & -> & _). done. }
  assert (mem q' ⊆+ mem q ∧ (∀ p, r = Some p → p ∈ mem q)) as [Hsub Hin].
  { destruct r as [p|].
    - destruct Hres as (_ & _ & _ & Hm). split.
      + rewrite <-M1, Hm. by apply submseteq_inserts_l, submseteq_cons.
      + intros ? [= <-]. rewrite <-M1, Hm. set_solver.
    - destruct Hres as (_ & _ & Hm). split; [rewrite <-M1, Hm; by apply submseteq_inserts_l|done]. }
  split_and!; [done|eapply same_cfg_trans; [done|apply F2]|by rewrite (f_len _ _ F2)|intros x; by rewrite (f_data _ _ F2), D1| |done|].
  - intros x Hx. rewrite (f_other _ _ F2) by (by rewrite M1). by apply O1.
  - exists moved, gone. split_and!.
    + intros p. split; [intros Hp; split; [rewrite P1; set_solver|by apply N1]|]. intros [Hp Hle].
      rewrite P1 in Hp. apply elem_of_app in Hp as [?|Hp]; [done|]. specialize (Hlate p Hp). lia.
    + intros p Hp. rewrite <-Hexp. by apply Hg.
    + rewrite <-E1. destruct r as [p|].
      * destruct Hres as (E & Hx & Hd & _). rewrite Hexp in Hx. split_and!; [done|done|done|by apply Hin].
      * by destruct Hres as (E & Hx & _).
Qed.

(** ** One peer's queue and the hints its replayer holds *)

(** A hint as the enqueueing functions build it. *)
Definition fresh (h : hintItem) : Prop := elem h = None ∧ heapIndex h = -1 ∧ 0 ≤ size h.

Inductive qstep : hintQueue * list nat → hintQueue * list nat → Prop :=
  | q_add now h q held :
      fresh h →
      qstep (q, held) (let '(q1, p) := alloc h q in ((enqueue now p q1).1, held))
  | q_pop now q held q' p :
      popReady now q = (q', Some p) → qstep (q, held) (q', p :: held)
  | q_idle now q held q' :
      popReady now q = (q', None) → qstep (q, held) (q', held)
  | q_retry now nextAt tries q l1 l2 p :
      qstep (q, l1 ++ p :: l2) (requeue now p (upd p (set_sched nextAt tries) q), l1 ++ l2)
  | q_done q l1 l2 p :
      qstep (q, l1 ++ p :: l2) (q, l1 ++ l2).

Inductive reachable (q0 : hintQueue) : hintQueue * list nat → Prop :=
  | r_init : reachable q0 (q0, [])
  | r_step s s' : reachable q0 s → qstep s s' → reachable q0 s'.

Definition held_ok (q : hintQueue) (l : list nat) : Prop :=
  NoDup l ∧ ∀ p, p ∈ l → detached q p ∧ 0 ≤ size (obj q p).

Record qinv (s : hintQueue * list nat) : Prop := {
  qi_rep : Rep s.1;
  qi_fits : fits s.1;
  qi_held : held_ok s.1 s.2 }.

Lemma sizes_sub q l l' : (∀ p, p ∈ l' → 0 ≤ size (obj q p)) → l ⊆+ l' → sizes q l ≤ sizes q l'.
Proof.
  intros Hn Hs. apply submseteq_Permutation in Hs as [k E]. rewrite E.
  assert (∀ p, p ∈ l ++ k → 0 ≤ size (obj q p)) as Hn' by (intros p Hp; apply Hn; by rewrite E). clear E Hn. rename Hn' into Hn.
  induction l as [|p l IH]; cbn.
  - induction k as [|p k IHk]; cbn; [lia|]. assert (0 ≤ size (obj q p)) by (apply Hn; set_solver).
    assert (0 ≤ sizes q k) by (apply IHk; set_solver). lia.
  - assert (sizes q l ≤ sizes q (l ++ k)) by (apply IH; set_solver). lia.
Qed.

Lemma fits_sub q q' :
  Rep q → Rep q' → same_cfg q q' → (∀ x, x ∈ mem q' → size (obj q' x) = size (obj q x)) → mem q' ⊆+ mem q → fits q → fits q'.
Proof.
  intros Hr Hr' (E1 & E2 & _) Hx Hm. unfold fits, overCap. rewrite E1, E2, (rep_items q Hr), (rep_items q' Hr'), (rep_bytes q Hr), (rep_bytes q' Hr').
  rewrite (sizes_ext q q') by done. pose proof (submseteq_length _ _ Hm).
  pose proof (sizes_sub q _ _ (rep_size q Hr) Hm). rewrite !orb_false_iff, !andb_false_iff, !Z.ltb_ge. lia.
Qed.

(** Appending an object to the store changes nothing else. *)
Lemma alloc_obj h q x : obj (alloc h q).1 x = if decide (x = length (objs q)) then h else obj q x.
Proof.
  unfold obj. cbn. case_decide as E; [subst x; by rewrite list_lookup_middle|].
  destruct (decide (x < length (objs q))%nat); [by rewrite lookup_app_l|].
  rewrite !lookup_ge_None_2; [done|lia|rewrite length_app; cbn; lia].
Qed.
Lemma alloc_same h q x : live q x → obj (alloc h q).1 x = obj q x.
Proof. intros Hl. rewrite alloc_obj, decide_False; [done|]. unfold live in Hl. lia. Qed.

(** Changing the store outside the queue. *)
Lemma rep_store q o :
  Rep q → (∀ x, x ∈ mem q → live (put_objs o q) x ∧ obj (put_objs o q) x = obj q x) → Rep (put_objs o q).
Proof.
  intros Hr Hx. set (q1 := put_objs o q) in *. pose proof (rep_core q Hr) as Hc.
  assert (core q1) as Hc1.
  { split; [apply Hc|apply Hc| |].
    - intros e p Hp. destruct (Hx p) as [Hl ->]; [apply elem_mem; eauto|]. split; [done|]. by apply (c_ready q Hc).
    - intros i p Hp. destruct (Hx p) as [Hl ->]; [apply elem_mem; right; by eapply list_elem_of_lookup_2|].
      split; [done|]. by apply (c_delayed q Hc). }
  split; [done| | | | |].
  - apply (key_at_same q q1); [done| |apply Hr]. intros i x y Hx1 Hy1. change (delayed q1) with (delayed q) in Hy1.
    rewrite Hx1 in Hy1. injection Hy1 as <-. destruct (Hx x) as [_ ->]; [|done]. apply elem_mem. right. by eapply list_elem_of_lookup_2.
  - intros k p. change (index q1) with (index q). rewrite (rep_index q Hr). change (mem q1) with (mem q).
    split; intros [Hp E]; (split; [done|]); destruct (Hx p Hp) as [_ E2]; congruence.
  - intros p Hp. destruct (Hx p Hp) as [_ ->]. by apply (rep_size q Hr).
  - apply Hr.
  - change (qbytes q = sizes q1 (mem q)). rewrite (sizes_ext q q1); [apply Hr|]. intros p Hp. by destruct (Hx p Hp) as [_ ->].
Qed.

Lemma alloc_rep h q : Rep q → Rep (alloc h q).1.
Proof.
  intros Hr. apply rep_store; [done|]. intros x Hin. pose proof (mem_live q x (rep_core q Hr) Hin) as Hl.
  split; [|by apply (alloc_same h q)]. unfold live in *. cbn. rewrite length_app. lia.
Qed.
Lemma upd_rep p f q : Rep q → p ∉ mem q → Rep (upd p f q).
Proof.
  intros Hr Hp. apply rep_store; [done|]. intros x Hin. pose proof (mem_live q x (rep_core q Hr) Hin) as Hl.
  split; [by apply (live_upd q p f)|]. apply (obj_upd_ne q p f). by intros ->.
Qed.

(** A freshly built hint is outside the queue. *)
Lemma alloc_fresh h q q1 it :
  Rep q → fresh h → alloc h q = (q1, it) →
  Rep q1 ∧ obj q1 it = h ∧ detached q1 it ∧ mem q1 = mem q ∧ index q1 = index q ∧
  ∀ x, live q x → x ≠ it ∧ obj q1 x = obj q x ∧ live q1 x.
Proof.
  intros Hr (Fe & Fi & Fs) Ha. pose proof (alloc_rep h q Hr) as Hr1. pose proof (alloc_obj h q) as Ho.
  pose proof (alloc_same h q) as Hs. rewrite Ha in Hr1, Ho, Hs. cbn [fst] in *. cbn in Ha. injection Ha as Eq1 <-.
  assert (obj q1 (length (objs q)) = h) as Hobj by by rewrite Ho, decide_True.
  assert (length (objs q1) = S (length (objs q))) as Hlen by (rewrite <-Eq1; cbn; rewrite length_app; cbn; lia).
  assert (mem q1 = mem q) as Hm by by rewrite <-Eq1. split_and!; [done|done| |done|by rewrite <-Eq1|].
  - split_and!; [unfold live; lia| |by rewrite Hobj..]. rewrite Hm. intros Hin%(mem_live q _ (rep_core q Hr)). unfold live in Hin. lia.
  - intros x Hl. split_and!; [unfold live in Hl; lia|by apply Hs|unfold live in *; lia].
Qed.

Lemma enqueue_keeps q now p l :
  Rep q → fits q → detached q p → 0 ≤ size (obj q p) → held_ok q l → p ∉ l → qinv ((enqueue now p q).1, l).
Proof.
  intros Hr Hf Hd Hs [Hn Hl] Hp. pose proof (enqueue_spec q now p Hr Hd Hs) as He.
  destruct (enqueue now p q) as [q' [[ok db] di]]. destruct He as (He & _ & _). split; cbn [fst snd].
  - apply He.
  - destruct ok; [by apply (eq_fits _ _ _ _ _ _ He)|]. pose proof (eq_rejected _ _ _ _ _ _ He eq_refl) as Hm.
    apply (fits_sub q q' Hr (eq_rep _ _ _ _ _ _ He) (eq_cfg _ _ _ _ _ _ He)); [|done|done].
    intros x Hx. assert (x ≠ p). { intros ->. apply Hd. by eapply elem_of_submseteq. }
    pose proof (data_fields _ _ (eq_data _ _ _ _ _ _ He x ltac:(done))). tauto.
  - split; [done|]. intros x Hx. assert (x ≠ p) as Hxp by (intros ->; done). destruct (Hl x Hx) as [(Hlx & Hmx & Ex & Ix) Sx].
    rewrite (eq_other _ _ _ _ _ _ He x Hmx Hxp). split; [|done]. unfold detached.
    rewrite (eq_other _ _ _ _ _ _ He x Hmx Hxp). split_and!; [|intros Hin|done|done].
    + unfold live. by rewrite (eq_len _ _ _ _ _ _ He).
    + destruct (eq_mem _ _ _ _ _ _ He x Hin); done.
Qed.

Lemma qstep_inv s s' : qinv s → qstep s s' → qinv s'.
Proof.
  intros [Hr Hf Hh] Hs. destruct Hs as [now h q held Hfr|now q held q' p E|now q held q' E|now n t q l1 l2 p|q l1 l2 p]; cbn [fst snd] in *.
  - destruct (alloc h q) as [q1 p] eqn:Ha.
    destruct (alloc_fresh h q q1 p Hr) as (Hr1 & Hobj & Hd & Hm & _ & Hx); [done..|].
    apply enqueue_keeps; [done| |done|rewrite Hobj; by destruct Hfr as (_ & _ & ?)| |].
    + injection Ha as <- _. exact Hf.
    + destruct Hh as [Hn Hh]. split; [done|]. intros x Hin. destruct (Hh x Hin) as [(Hl & Hmx & Ex & Ix) Sx].
      destruct (Hx x Hl) as (_ & Eo & Hl1). unfold detached. rewrite Eo, Hm. done.
    + intros Hin. destruct Hh as [_ Hh]. destruct (Hh p Hin) as [(Hl & _) _]. by destruct (Hx p Hl) as [? _].
  - pose proof (popReady_spec now q Hr) as Hp. rewrite E in Hp.
    destruct Hp as (Hr' & Hc & L & D & O & Hm & moved & gone & _ & _ & _ & _ & Hd & Hpm). split; cbn [fst snd]; [done| |].
    + apply (fits_sub q q'); try done. intros x _. pose proof (data_fields _ _ (D x)). tauto.
    + destruct Hh as [Hn Hh]. split.
      * apply NoDup_cons. split; [|done]. intros Hx. by destruct (Hh p Hx) as [(_ & ? & _) _].
      * intros x [->|Hx]%elem_of_cons.
        -- split; [done|]. pose proof (data_fields _ _ (D p)) as (_ & _ & _ & _ & _ & _ & _ & _ & _ & ->). by apply (rep_size q Hr).
        -- destruct (Hh x Hx) as [(Hl & Hmx & Ex & Ix) Sx]. unfold detached, live. rewrite (O x Hmx), L. split_and!; try done.
           intros Hin. apply Hmx. by eapply elem_of_submseteq.
  - pose proof (popReady_spec now q Hr) as Hp. rewrite E in Hp. destruct Hp as (Hr' & Hc & L & D & O & Hm & _). split; cbn [fst snd]; [done| |].
    + apply (fits_sub q q'); try done. intros x _. pose proof (data_fields _ _ (D x)). tauto.
    + destruct Hh as [Hn Hh]. split; [done|]. intros x Hx. destruct (Hh x Hx) as [(Hl & Hmx & Ex & Ix) Sx].
      unfold detached, live. rewrite (O x Hmx), L. split_and!; try done. intros Hin. apply Hmx. by eapply elem_of_submseteq.
  - destruct Hh as [Hn Hh]. rewrite <-Permutation_middle in Hn. apply NoDup_cons in Hn as [Hpl Hn].
    destruct (Hh p) as [(Hl & Hmp & Ep & Ip) Sp]; [set_solver|]. set (q1 := upd p _ q).
    assert (∀ x, x ≠ p → obj q1 x = obj q x) as Hoth by (intros x Hx; by apply obj_upd_ne).
    assert (∀ x, live q1 x ↔ live q x) as Hlive by (intros x; apply live_upd).
    assert (obj q1 p = set_sched n t (obj q p)) as Hobj by by apply obj_upd_eq.
    pose proof (upd_rep p (set_sched n t) q Hr Hmp) as Hr1. fold q1 in Hr1.
    apply enqueue_keeps; [done|done| |by rewrite Hobj| |done].
    + unfold detached. rewrite Hobj. split_and!; try done. by apply Hlive.
    + split; [done|]. intros x Hx. assert (x ≠ p) by (intros ->; done). destruct (Hh x) as [(Hlx & Hmx & Ex & Ix) Sx]; [set_solver|].
      unfold detached. rewrite Hoth by done. split_and!; try done. by apply Hlive.
  - destruct Hh as [Hn Hh]. split; cbn [fst snd]; [done|done|]. rewrite <-Permutation_middle in Hn. apply NoDup_cons in Hn as [_ Hn].
    split; [done|]. intros x Hx. apply Hh. set_solver.
Qed.

Lemma new_qinv c b t d : qinv (newHintQueue c b t d, []).
Proof.
  split; cbn [fst snd].
  - split; [split|..]; try done.
    + constructor.
    + intros e p Hp. by apply elem_of_nil in Hp.
    + intros e p Hp. by apply elem_of_nil in Hp.
    + intros k p. cbn. rewrite lookup_empty. split; [done|]. by intros [?%elem_of_nil _].
  - unfold fits, overCap. cbn [newHintQueue items qbytes maxItems maxBytes]. rewrite orb_false_iff, !andb_false_iff, !Z.ltb_ge. lia.
  - split; [constructor|]. intros p Hp. by apply elem_of_nil in Hp.
Qed.

Lemma reachable_qinv c b t d s : reachable (newHintQueue c b t d) s → qinv s.
Proof. induction 1 as [|s s' _ IH Hs]; [apply new_qinv|by eapply qstep_inv]. Qed.

(** ** Theorems *)

(** C10.  In every state a peer's hint queue can reach by enqueueing, replaying, retrying and
    acknowledging hints, the index holds exactly one hint per key, each hint is in exactly
    one of the two containers, both counters are exact, neither cap is exceeded, and the
    front of the delayed heap is the hint that falls due first. *)
Theorem hint_queue_invariant c b t d q held :
  reachable (newHintQueue c b t d) (q, held) →
  (∀ k p, index q !! k = Some p ↔ (p ∈ rdy q ∨ p ∈ delayed q) ∧ hkey (obj q p) = k) ∧
  NoDup (rdy q ++ delayed q) ∧
  items q = Z.of_nat (length (rdy q) + length (delayed q)) ∧
  qbytes q = sizes q (rdy q ++ delayed q) ∧
  overCap q (items q) (qbytes q) = false ∧
  (∀ fr p, hd_error (delayed q) = Some fr → p ∈ delayed q → nextAt (obj q fr) ≤ nextAt (obj q p)) ∧
  (∀ p, p ∈ held → p ∉ rdy q ++ delayed q).
Proof.
  intros [Hr Hf [_ Hh]]%reachable_qinv. cbn [fst snd] in *. split_and!.
  - intros k p. rewrite (rep_index q Hr). unfold mem. by rewrite elem_of_app.
  - apply core_nodup, Hr.
  - rewrite (rep_items q Hr). unfold mem, rdy. by rewrite length_app.
  - apply Hr.
  - done.
  - intros fr p Hfr [i Hi]%list_elem_of_lookup. destruct (delayed q) as [|y l] eqn:Ed; [done|]. injection Hfr as ->.
    assert (delayed q !! 0%nat = Some fr) as H0 by by rewrite Ed. rewrite <-Ed in Hi.
    rewrite <-(key_at_delayed q 0 fr H0), <-(key_at_delayed q i p Hi).
    eapply heap_root_min; [apply Hr|by eapply lookup_lt_Some].
  - intros p Hp. by destruct (Hh p Hp) as [(_ & ? & _) _].
Qed.

(** What [enqueue] does to the hints of each key, by versions. *)
Definition hint_ver (q : hintQueue) (k : bytes) : option Z := (λ p, ver (obj q p)) <$> index q !! k.

(** Only the newest version of a key is kept: a new hint is accepted only when it is not
    expired and strictly newer than the queued hint of its key, and then it is that key's
    hint; otherwise the key keeps the hint it had.  For every other key the hint is
    unchanged or, when room had to be made, dropped; it is never replaced. *)
Theorem newest_hint_wins c b t d q held now h q1 it q' ok db di :
  reachable (newHintQueue c b t d) (q, held) → fresh h →
  alloc h q = (q1, it) → enqueue now it q1 = (q', (ok, db, di)) →
  (ok = true → expired (ttl q) now h = false ∧ index q' !! hkey h = Some it ∧
     hint_ver q' (hkey h) = Some (ver h) ∧ ∀ v, hint_ver q (hkey h) = Some v → v < ver h) ∧
  (ok = false → index q' !! hkey h = index q !! hkey h) ∧
  (∀ k, k ≠ hkey h → index q' !! k = index q !! k ∨ index q' !! k = None) ∧
  (∀ p, p ∈ rdy q ++ delayed q → data (obj q' p) = data (obj q p)).
Proof.
  intros [Hr Hf _]%reachable_qinv Hfr Ha He. cbn [fst snd] in *.
  destruct (alloc_fresh h q q1 it Hr Hfr Ha) as (Hr1 & Hobj & Hd & Hm1 & Hix & Hlx). destruct Hfr as (Fe & Fi & Fs).
  assert (∀ x, x ∈ mem q → x ≠ it ∧ obj q1 x = obj q x) as Hx.
  { intros x Hin. pose proof (mem_live q x (rep_core q Hr) Hin) as Hl. destruct (Hlx x Hl) as (? & ? & _). done. }
  assert (ttl q1 = ttl q) as Ettl by by injection Ha as <- _.
  pose proof (enqueue_spec q1 now it Hr1 Hd) as Hs. rewrite He, Hobj, Ettl, Hix in Hs.
  destruct Hs as ([Rp _ Dt _ Pl _ Mm Ok _ Rj Old _ _] & Hv & _); [done|].
  destruct (payload_fields _ _ Pl) as (Ek & _ & Ev). rewrite Hobj in Ek, Ev, Old. rewrite Hix in Old.
  assert (∀ k p, index q' !! k = Some p → p ≠ it → index q !! k = Some p) as Hback.
  { intros k p [Hin E]%(rep_index q' Rp) Hne. destruct (Mm p Hin) as [|Hin1]; [done|].
    rewrite <-Hix. apply (rep_index q1 Hr1). split; [done|].
    pose proof (data_fields _ _ (Dt p Hne)). intuition congruence. }
  split_and!.
  - intros ->. destruct (Hv eq_refl) as [Hexp Hold]. assert (index q' !! hkey h = Some it) as Hi.
    { apply (rep_index q' Rp). split; [by apply Ok|done]. }
    split_and!; [done|done|unfold hint_ver; by rewrite Hi; cbn; rewrite Ev|].
    intros v. unfold hint_ver. destruct (index q !! hkey h) as [old|] eqn:Eo; [|done]. intros [= <-].
    assert (old ∈ mem q) as Hin by by apply (rep_index q Hr) in Eo as [? _]. destruct (Hx old Hin) as [_ <-]. by apply Hold.
  - intros ->. destruct (index q !! hkey h) as [old|] eqn:Eo.
    + apply (rep_index q' Rp). assert (old ∈ mem q ∧ hkey (obj q old) = hkey h) as [Hin E] by by apply (rep_index q Hr).
      destruct (Hx old Hin) as [Hne Eo1]. split; [by apply Old|]. pose proof (data_fields _ _ (Dt old Hne)). intuition congruence.
    + destruct (index q' !! hkey h) as [p|] eqn:Ep; [|done]. exfalso.
      assert (p ≠ it). { intros ->. apply (rep_index q' Rp) in Ep as [Hin _]. apply Ok in Hin. done. }
      rewrite (Hback _ _ Ep) in Eo; done.
  - intros k Hk. destruct (index q' !! k) as [p|] eqn:Ep; [left|by right]. symmetry. apply Hback; [done|].
    intros ->. apply (rep_index q' Rp) in Ep as [_ E]. congruence.
  - intros p Hp. destruct (Hx p Hp) as [Hne E]. rewrite Dt by done. by rewrite E.
Qed.

(** The reported deltas are the net change of the counters, except on one path: when a
    newer version of a queued key is refused after other hints were dropped for it, the
    byte delta has the wrong sign. *)
Theorem enqueue_reports_net_change c b t d q held now h q1 it q' ok db di :
  reachable (newHintQueue c b t d) (q, held) → fresh h →
  alloc h q = (q1, it) → enqueue now it q1 = (q', (ok, db, di)) →
  items q' = items q + di ∧
  (qbytes q' = qbytes q + db ∨
   (ok = false ∧ is_Some (index q !! hkey h) ∧ qbytes q' = qbytes q - db)).
Proof.
  intros [Hr Hf _]%reachable_qinv Hfr Ha He. cbn [fst snd] in *.
  destruct (alloc_fresh h q q1 it Hr Hfr Ha) as (Hr1 & Hobj & Hd & _ & Hix & _).
  assert (items q1 = items q ∧ qbytes q1 = qbytes q) as [<- <-] by by injection Ha as <- _.
  destruct Hfr as (_ & _ & Fs).
  pose proof (enqueue_spec q1 now it Hr1 Hd) as Hs. rewrite He, Hobj in Hs. destruct Hs as (E & _); [done|].
  split; [apply (eq_items _ _ _ _ _ _ E)|]. pose proof (eq_bytes _ _ _ _ _ _ E) as Hb. by rewrite Hobj, Hix in Hb.
Qed.

(** Replay is first in, first out and never replays a dead hint: [popReady] first appends
    exactly the delayed hints that are due, then returns the first hint that has not
    expired; the hints before it are expired and dropped, and when it returns none the
    ready queue is empty. *)
Theorem replay_order c b t d q held now q' r :
  reachable (newHintQueue c b t d) (q, held) → popReady now q = (q', r) →
  ∃ moved gone,
    (∀ p, p ∈ moved ↔ p ∈ delayed q ∧ nextAt (obj q p) ≤ now) ∧
    (∀ p, p ∈ gone → expired (ttl q) now (obj q p) = true) ∧
    match r with
    | Some p => rdy q ++ moved = gone ++ p :: rdy q' ∧ expired (ttl q) now (obj q p) = false ∧
                p ∉ rdy q' ++ delayed q' ∧ index q' !! hkey (obj q p) = None
    | None => rdy q ++ moved = gone ∧ rdy q' = []
    end.
Proof.
  intros [Hr Hf _]%reachable_qinv E. cbn [fst snd] in *. pose proof (popReady_spec now q Hr) as Hp. rewrite E in Hp.
  destruct Hp as (Hr' & Hc & L & D & O & Hm & moved & gone & H1 & H2 & H3). exists moved, gone. split_and!; [done|done|].
  destruct r as [p|]; [|done]. destruct H3 as (E1 & E2 & (_ & Hd & _) & Hin). split_and!; [done|done|done|].
  destruct (index q' !! hkey (obj q p)) as [x|] eqn:Ex; [|done]. exfalso. apply (rep_index q' Hr') in Ex as [Hx Ek].
  apply Hd. enough (x = p) as <- by done. apply (rep_key_inj q); [done|by eapply elem_of_submseteq|done|].
  pose proof (data_fields _ _ (D x)). intuition congruence.
Qed.

(** ** Concrete runs *)
Definition hint (k : bytes) (v n sz : Z) : hintItem := MkHint k [] 0 v false false 0 n 0 sz None (-1).
Lemma hint_fresh k v n sz : 0 ≤ sz → fresh (hint k v n sz).
Proof. by intros. Qed.

Definition add_hint (now : Z) (h : hintItem) (q : hintQueue) : hintQueue * result :=
  let '(q1, p) := alloc h q in enqueue now p q1.

(** Two ready hints and one that is delayed until 50. *)
Definition demo : hintQueue :=
  (add_hint 1 (hint [3] 1 50 10) (add_hint 1 (hint [2] 1 0 10) (add_hint 1 (hint [1] 1 0 10) (newHintQueue 3 40 0 DropOldest)).1).1).1.

Lemma demo_queue_reachable : reachable (newHintQueue 3 40 0 DropOldest) (demo, []).
Proof.
  do 3 (eapply r_step; [|by apply (q_add 1 (hint _ 1 _ 10)), hint_fresh]). apply r_init.
Qed.

Lemma hint_queue_invariant_witness :
  items demo = Z.of_nat (length (rdy demo) + length (delayed demo)) ∧ (rdy demo, delayed demo) = ([0; 1], [2])%nat.
Proof.
  destruct (hint_queue_invariant 3 40 0 DropOldest demo [] demo_queue_reachable) as (_ & _ & H & _).
  split; [exact H|vm_compute; reflexivity].
Defined.

(** A fourth key: the oldest ready hint makes room. *)
Lemma newest_hint_wins_witness :
  ∃ q', enqueue 2 3 (alloc (hint [4] 7 0 10) demo).1 = (q', (true, 0, 0)) ∧ index q' !! [4] = Some 3%nat.
Proof.
  destruct (enqueue 2 3 (alloc (hint [4] 7 0 10) demo).1) as [q' r] eqn:E.
  assert (r = (true, 0, 0)) as -> by (revert E; vm_compute; by intros [= _ <-]). exists q'. split; [reflexivity|].
  destruct (newest_hint_wins 3 40 0 DropOldest demo [] 2 (hint [4] 7 0 10) (alloc (hint [4] 7 0 10) demo).1 3 q' true 0 0
    demo_queue_reachable (hint_fresh [4] 7 0 10 ltac:(lia)) ltac:(vm_compute; reflexivity) E) as [H _].
  by destruct (H eq_refl) as (_ & ? & _).
Defined.

Lemma enqueue_reports_net_change_witness :
  ∃ q', enqueue 2 3 (alloc (hint [4] 7 0 10) demo).1 = (q', (true, 0, 0)) ∧ items q' = items demo + 0.
Proof.
  destruct (enqueue 2 3 (alloc (hint [4] 7 0 10) demo).1) as [q' r] eqn:E.
  assert (r = (true, 0, 0)) as -> by (revert E; vm_compute; by intros [= _ <-]). exists q'. split; [reflexivity|].
  by destruct (enqueue_reports_net_change 3 40 0 DropOldest demo [] 2 (hint [4] 7 0 10) (alloc (hint [4] 7 0 10) demo).1 3 q' true 0 0
    demo_queue_reachable (hint_fresh [4] 7 0 10 ltac:(lia)) ltac:(vm_compute; reflexivity) E) as [H _].
Defined.

Lemma replay_order_witness :
  ∃ q', popReady 60 demo = (q', Some 0%nat) ∧ index q' !! [1] = None.
Proof.
  destruct (popReady 60 demo) as [q' r] eqn:E.
  assert (r = Some 0%nat) as -> by (revert E; vm_compute; by intros [= _ <-]). exists q'. split; [reflexivity|].
  by destruct (replay_order 3 40 0 DropOldest demo [] 60 q' (Some 0%nat) demo_queue_reachable E) as (moved & gone & _ & _ & _ & _ & _ & H).
Defined.

(** The wrong sign: key 3 waits in the heap, key 1 is ready; a newer, larger hint for key 3
    first drops key 1 (10 bytes) and is then refused.  The queue has lost 10 bytes and one
    hint, and [enqueue] reports a gain of 10 bytes. *)
Theorem refusal_reports_gain_for_loss :
  let q := (add_hint 1 (hint [3] 1 50 10) (add_hint 1 (hint [1] 1 0 10) (newHintQueue 0 25 0 DropOldest)).1).1 in
  let '(q', r) := add_hint 2 (hint [3] 2 0 40) q in
  r = (false, 10, -1) ∧ qbytes q = 20 ∧ qbytes q' = 10 ∧ items q' = items q - 1.
Proof. vm_compute. done. Qed.

(** A replaced hint at the head of the ready queue shields everything behind it: a newer
    version of key 1 is refused although dropping key 2 would make room for it. *)
Theorem head_shields_the_queue :
  let q := (add_hint 1 (hint [2] 1 0 10) (add_hint 1 (hint [1] 1 0 10) (newHintQueue 0 25 0 DropOldest)).1).1 in
  (add_hint 2 (hint [1] 2 0 20) q).2 = (false, 0, 0) ∧
  ∃ p, index (add_hint 2 (hint [1] 2 0 20) q).1 !! [1] = Some p ∧ ver (obj q p) = 1.
Proof. split; [vm_compute; reflexivity|]. exists 0%nat. vm_compute. done. Qed.
End HandoffTheorems.
