(* ===== verification/Replay.v ===== *)
(** * The hinted-handoff manager ([src/cluster/handoff.go], from [handoff] on; [HandoffConfig] of [src/cluster/config.go])

    One hint queue per peer, the backlog totals with the auto-pause, and the replay loop.  A
    tick of the loop's two tickers is a function; sending a hint is the argument [send], whose
    outcome is any of the ways a request can end.  [int64(float64(x)*0.6)] is the argument
    [sixty].  Request ids and peer resets belong to the node and are not part of the state. *)
From Stdlib Require Import ZArith Lia.
From stdpp Require Import base numbers list gmap sets.
From S2P Require Import Prelude Rendezvous Heap Handoff HandoffInv HandoffSpec HandoffTheorems.
Local Open Scope Z_scope.

Module Replay.
Import Handoff HandoffInv HandoffSpec HandoffTheorems.

Abbreviation NodeID := Rendezvous.NodeID.

Record HandoffConfig := MkHandoffConfig {
  Enable : option bool; Pause_ : bool; MaxItems : Z; MaxBytes : Z; PerPeerCap : Z; PerPeerBytes : Z;
  TTL : Z; ReplayRPS : Z; Drop : DropPolicy; AutopauseItems : Z; AutopauseBytes : Z }.

Definition IsEnabled (c : HandoffConfig) : bool := default true (Enable c).

Definition minute : Z := 60 * 1000000000.

Definition FillDefaults (c : HandoffConfig) : HandoffConfig :=
  let enable := default true (Enable c) in
  if negb enable then
    MkHandoffConfig (Some enable) (Pause_ c) (MaxItems c) (MaxBytes c) (PerPeerCap c) (PerPeerBytes c) (TTL c) (ReplayRPS c)
      (Drop c) (AutopauseItems c) (AutopauseBytes c)
  else
    (* the policy 0 is DropOldest already *)
    let maxItems := if MaxItems c =? 0 then 500000 else MaxItems c in
    let maxBytes := if MaxBytes c =? 0 then Z.shiftl 2 30 else MaxBytes c in
    let cap := if PerPeerCap c =? 0 then 50000 else PerPeerCap c in
    let capBytes := if PerPeerBytes c =? 0 then Z.shiftl 512 20 else PerPeerBytes c in
    let ttl := if TTL c <=? 0 then 10 * minute else TTL c in
    let rps := if ReplayRPS c <=? 0 then 20000 else ReplayRPS c in
    let api := if (AutopauseItems c =? 0) && (0 <? maxItems) then Z.quot (i64 (maxItems * 9)) 10 else AutopauseItems c in
    let apb := if (AutopauseBytes c =? 0) && (0 <? maxBytes) then Z.quot (i64 (maxBytes * 9)) 10 else AutopauseBytes c in
    MkHandoffConfig (Some enable) (Pause_ c) maxItems maxBytes cap capBytes ttl rps (Drop c) api apb.

Record handoff := MkHandoff {
  cfg : HandoffConfig; peers : gmap NodeID hintQueue;
  totalItems : Z; totalBytes : Z; paused : bool; stopped : bool; rr : Z }.

Definition newHandoff (c : HandoffConfig) : handoff := MkHandoff c ∅ 0 0 false false 0.

Definition put_peer (id : NodeID) (q : hintQueue) (h : handoff) : handoff :=
  MkHandoff (cfg h) (<[id := q]> (peers h)) (totalItems h) (totalBytes h) (paused h) (stopped h) (rr h).
Definition put_totals (i b : Z) (h : handoff) : handoff :=
  MkHandoff (cfg h) (peers h) i b (paused h) (stopped h) (rr h).
Definition put_paused (p : bool) (h : handoff) : handoff :=
  MkHandoff (cfg h) (peers h) (totalItems h) (totalBytes h) p (stopped h) (rr h).

(** [queue]: the peer's queue, created on demand. *)
Definition queue (id : NodeID) (h : handoff) : handoff * hintQueue :=
  match peers h !! id with
  | Some q => (h, q)
  | None => let q := newHintQueue (PerPeerCap (cfg h)) (PerPeerBytes (cfg h)) (TTL (cfg h)) (Drop (cfg h)) in (put_peer id q h, q)
  end.

(** The common part of [enqueueSet] and [enqueueDel]: enqueue the new hint, account, pause. *)
Definition submit (id : NodeID) (it : hintItem) (now : Z) (h : handoff) : handoff :=
  let '(h, q) := queue id h in
  let '(q, p) := alloc it q in
  let '(q, (ok, byDelta, itDelta)) := enqueue now p q in
  let h := put_peer id q h in
  let h := if negb (byDelta =? 0) || negb (itDelta =? 0)
           then put_totals (i64 (totalItems h + itDelta)) (i64 (totalBytes h + byDelta)) h else h in
  if negb ok then h
  else
    let newItems := totalItems h in
    let newBytes := totalBytes h in
    if ((0 <? AutopauseItems (cfg h)) && (AutopauseItems (cfg h) <=? newItems)) ||
       ((0 <? AutopauseBytes (cfg h)) && (AutopauseBytes (cfg h) <=? newBytes))
    then put_paused true h else h.

Definition hintOverheadSet : Z := 24.
Definition hintOverheadDel : Z := 16.

(** [added] is the clock reading that stamps the hint, [now] the one [enqueue] takes. *)
Definition enqueueSet (id : NodeID) (key val : bytes) (exp ver : Z) (cp : bool) (added now : Z) (h : handoff) : handoff :=
  if negb (IsEnabled (cfg h)) then h
  else if paused h then h
  else submit id (MkHint key val exp ver cp false added 0 0 (Z.of_nat (length key + length val) + hintOverheadSet) None (-1)) now h.

Definition enqueueDel (id : NodeID) (key : bytes) (ver : Z) (added now : Z) (h : handoff) : handoff :=
  if negb (IsEnabled (cfg h)) then h
  else if paused h then h
  else submit id (MkHint key [] 0 ver false true added 0 0 (Z.of_nat (length key) + hintOverheadDel) None (-1)) now h.

Definition second : Z := 1000000000.
Definition millisecond : Z := 1000000.
Definition slotsPerSec : Z := 20.

Definition min (a b : Z) : Z := if a <? b then a else b.

Definition backoff (attemptIndex : Z) : Z :=
  let attemptIndex := if attemptIndex <? 0 then 0 else attemptIndex in
  let shift := min 6 attemptIndex in
  let d := i64 (Z.shiftl (200 * millisecond) shift) in
  if 5 * second <? d then 5 * second else d.

(** The number of hints a tick may replay, and the next slot. *)
Definition tick_budget (c : HandoffConfig) (slot : Z) : Z * Z :=
  let perTick := Z.quot (ReplayRPS c) slotsPerSec in
  let extra := Z.rem (ReplayRPS c) slotsPerSec in
  let n := if (0 <? extra) && (slot <? extra) then perTick + 1 else perTick in
  let slot := slot + 1 in
  (n, if slot =? slotsPerSec then 0 else slot).

(** The outcome of sending one hint. *)
Inductive sendResult := NoPeer | TransportError (fatal : bool) | BadReply | Refused | Acked.

Record attempt := MkAttempt { outcome : sendResult; retryAt : Z; requeueAt : Z }.

Definition scheduleRetry (a : attempt) (hi : nat) (q : hintQueue) : hintQueue :=
  let tries' := i64 (tries (obj q hi) + 1) in
  let q := upd hi (set_sched (i64 (retryAt a + backoff (i64 (tries' - 1)))) tries') q in
  requeue (requeueAt a) hi q.

(** The loop of [replayOne] over the peers still to try; the hint that was delivered, if any. *)
Fixpoint replay_loop (send : NodeID → hintItem → attempt) (now : Z) (ids : list NodeID) (h : handoff)
    : handoff * option (NodeID * hintItem) :=
  match ids with
  | [] => (h, None)
  | id :: ids =>
      let '(h, q) := queue id h in
      let '(q, r) := popReady now q in
      match r with
      | None => replay_loop send now ids (put_peer id q h)
      | Some hi =>
          let a := send id (obj q hi) in
          match outcome a with
          | Acked => (put_peer id q h, Some (id, obj q hi))
          | _ => replay_loop send now ids (put_peer id (scheduleRetry a hi q) h)
          end
      end
  end.

Definition rotate_from {A} (idx : nat) (l : list A) : list A := (skipn (idx mod length l) l ++ take (idx mod length l) l)%nat.

Definition replayOne (o : rangeOrder) (send : NodeID → hintItem → attempt) (now : Z) (h : handoff)
    : handoff * option (NodeID * hintItem) :=
  let ids := range o ((map_to_list (peers h)).*1) in
  match ids with
  | [] => (h, None)
  | _ =>
      let idx := Z.to_nat (rr h) in
      let h := MkHandoff (cfg h) (peers h) (totalItems h) (totalBytes h) (paused h) (stopped h) (u32 (rr h + 1)) in
      replay_loop send now (rotate_from idx ids) h
  end.

(** One tick of the replay ticker; [env i] is what the [i]-th call sees. *)
Fixpoint replay_burst (env : nat → rangeOrder * (NodeID → hintItem → attempt) * Z) (i n : nat) (h : handoff) : handoff :=
  match n with
  | O => h
  | S n =>
      let '(o, send, now) := env i in
      match replayOne o send now h with
      | (h, Some _) => replay_burst env (S i) n h
      | (h, None) => h
      end
  end.
Definition loop_tick (env : nat → rangeOrder * (NodeID → hintItem → attempt) * Z) (slot : Z) (h : handoff) : handoff * Z :=
  let '(n, slot) := tick_budget (cfg h) slot in
  if n =? 0 then (h, slot)
  else if Pause_ (cfg h) then (h, slot)
  else (replay_burst env 0 (Z.to_nat n) h, slot).

(** One tick of the housekeeping ticker. *)
Definition housekeeping (sixty : Z → Z) (o : rangeOrder) (h : handoff) : handoff :=
  let '(totalI, totalB) :=
    foldl (λ '(i, b) q, let '(qi, qb) := stats q in (i64 (i + qi), i64 (b + qb))) (0, 0) (range o (map_to_list (peers h)).*2) in
  let h := put_totals totalI totalB h in
  if paused h then
    if ((AutopauseItems (cfg h) =? 0) || (totalI <? sixty (AutopauseItems (cfg h)))) &&
       ((AutopauseBytes (cfg h) =? 0) || (totalB <? sixty (AutopauseBytes (cfg h))))
    then put_paused false h else h
  else h.

(** [loop]: the events of its [select], in the order they fire. *)
Inductive loopEvent :=
  | Tick (env : nat → rangeOrder * (NodeID → hintItem → attempt) * Z)
  | House (sixty : Z → Z) (o : rangeOrder)
  | Stopped.
Fixpoint loop_events (es : list loopEvent) (slot : Z) (h : handoff) : handoff :=
  match es with
  | [] => h
  | Tick env :: es => let '(h, slot) := loop_tick env slot h in loop_events es slot h
  | House sixty o :: es => loop_events es slot (housekeeping sixty o h)
  | Stopped :: _ => h
  end.
Definition loop (es : list loopEvent) (h : handoff) : handoff :=
  if ReplayRPS (cfg h) <=? 0 then h else loop_events es 0 h.

Definition Stop (h : handoff) : handoff := MkHandoff (cfg h) (peers h) (totalItems h) (totalBytes h) (paused h) true (rr h).
Definition Pause (h : handoff) : handoff := put_paused true h.
Definition Resume (h : handoff) : handoff := put_paused false h.

(** ** Invariant *)
Definition hinv (h : handoff) : Prop := ∀ id q, peers h !! id = Some q → qinv (q, []).

Lemma put_peer_inv id q h : hinv h → qinv (q, []) → hinv (put_peer id q h).
Proof. intros Hh Hq id' q'. cbn. intros [[_ <-]|[_ Hx]]%lookup_insert_Some; [done|by eapply Hh]. Qed.
Lemma hinv_peers h h' : peers h' = peers h → hinv h → hinv h'.
Proof. intros E Hh id q. rewrite E. apply Hh. Qed.
Lemma queue_inv id h : hinv h → hinv (queue id h).1 ∧ qinv ((queue id h).2, []).
Proof.
  intros Hh. unfold queue. destruct (peers h !! id) as [q|] eqn:E; [split; [done|by eapply Hh]|].
  split; [apply put_peer_inv; [done|]|]; apply new_qinv.
Qed.

Lemma submit_inv id it now h : fresh it → hinv h → hinv (submit id it now h).
Proof.
  intros Hf Hh. unfold submit. destruct (queue_inv id h Hh) as [H1 Hq]. destruct (queue id h) as [h1 q]. cbn [fst snd] in *.
  pose proof (q_add now it q [] Hf) as Hs. destruct (alloc it q) as [q1 p].
  destruct (enqueue now p q1) as [q2 [[ok db] di]]. cbn [fst] in Hs. pose proof (qstep_inv _ _ Hq Hs) as Hq2.
  eapply (hinv_peers (put_peer id q2 h1)); [|by apply put_peer_inv]. repeat case_match; done.
Qed.

Lemma retry_inv a hi q : qinv (q, [hi]) → qinv (scheduleRetry a hi q, []).
Proof. intros Hq. apply (qstep_inv (q, [] ++ hi :: []) _ Hq). apply q_retry. Qed.

Lemma replay_loop_inv send now ids h : hinv h → hinv (replay_loop send now ids h).1.
Proof.
  revert h. induction ids as [|id ids IH]; intros h Hh; [done|]. cbn [replay_loop].
  destruct (queue_inv id h Hh) as [H1 Hq]. destruct (queue id h) as [h1 q]. cbn [fst snd] in *.
  destruct (popReady now q) as [q1 [hi|]] eqn:E.
  - assert (qinv (q1, [hi])) as Hq1 by (apply (qstep_inv _ _ Hq); by apply (q_pop now)).
    destruct (outcome (send id (obj q1 hi)));
      try (apply IH, put_peer_inv; [done|by apply retry_inv]).
    apply put_peer_inv; [done|]. apply (qstep_inv (q1, [] ++ hi :: []) _ Hq1). apply q_done.
  - apply IH, put_peer_inv; [done|]. apply (qstep_inv _ _ Hq). by apply (q_idle now).
Qed.

Lemma replayOne_inv o send now h : hinv h → hinv (replayOne o send now h).1.
Proof. intros Hh. unfold replayOne. case_match; [done|]. by apply replay_loop_inv. Qed.
Lemma burst_inv env i n h : hinv h → hinv (replay_burst env i n h).
Proof.
  revert i h. induction n as [|n IH]; intros i h Hh; [done|]. cbn [replay_burst]. destruct (env i) as [[o send] now].
  pose proof (replayOne_inv o send now h Hh) as H1. destruct (replayOne o send now h) as [h1 [?|]]; [by apply IH|done].
Qed.

(** Everything that can happen to the manager. *)
Inductive hstep : handoff → handoff → Prop :=
  | h_set id key val exp ver cp added now h : hstep h (enqueueSet id key val exp ver cp added now h)
  | h_del id key ver added now h : hstep h (enqueueDel id key ver added now h)
  | h_tick env slot h : hstep h (loop_tick env slot h).1
  | h_house sixty o h : hstep h (housekeeping sixty o h)
  | h_pause h : hstep h (Pause h)
  | h_resume h : hstep h (Resume h)
  | h_stop h : hstep h (Stop h).

Inductive hreachable (c : HandoffConfig) : handoff → Prop :=
  | hr_init : hreachable c (newHandoff c)
  | hr_step h h' : hreachable c h → hstep h h' → hreachable c h'.

Lemma housekeeping_peers sixty o h : peers (housekeeping sixty o h) = peers h.
Proof. unfold housekeeping. destruct (foldl _ _ _) as [i b]. by repeat case_match. Qed.

Lemma hstep_inv h h' : hinv h → hstep h h' → hinv h'.
Proof.
  intros Hh Hs. destruct Hs; try done.
  - unfold enqueueSet. repeat case_match; try done. apply submit_inv; [|done]. unfold fresh, hintOverheadSet. cbn. split_and!; [done|done|lia].
  - unfold enqueueDel. repeat case_match; try done. apply submit_inv; [|done]. unfold fresh, hintOverheadDel. cbn. split_and!; [done|done|lia].
  - unfold loop_tick. destruct (tick_budget (cfg h) slot). repeat case_match; try done. by apply burst_inv.
  - eapply hinv_peers; [apply housekeeping_peers|done].
Qed.
Lemma hreachable_inv c h : hreachable c h → hinv h.
Proof. induction 1 as [|h h' _ IH Hs]; [|by eapply hstep_inv]. intros id q. cbn. by rewrite lookup_empty. Qed.

(** ** Theorems *)

(** The manager keeps every peer's queue consistent: whatever sets, deletes, replay
    ticks with any network outcomes, housekeeping, pauses and stops happened, each queue
    holds at most one hint per key with exact counters and within its caps. *)
Theorem handoff_manager_invariant c h id q :
  hreachable c h → peers h !! id = Some q →
  (∀ k p, index q !! k = Some p ↔ (p ∈ rdy q ∨ p ∈ delayed q) ∧ hkey (obj q p) = k) ∧
  items q = Z.of_nat (length (rdy q) + length (delayed q)) ∧
  qbytes q = sizes q (rdy q ++ delayed q) ∧
  overCap q (items q) (qbytes q) = false.
Proof.
  intros Hr Hq. destruct (hreachable_inv c h Hr id q Hq) as [R F _]. cbn [fst] in *. split_and!.
  - intros k p. rewrite (rep_index q R). unfold mem. by rewrite elem_of_app.
  - rewrite (rep_items q R). unfold mem, rdy. by rewrite length_app.
  - apply R.
  - done.
Qed.

Definition demo_cfg : HandoffConfig := FillDefaults (MkHandoffConfig None false 0 0 2 0 0 0 DropOldest 0 0).
Definition demo_manager : handoff :=
  enqueueSet [7] [2] [9; 9] 0 5 false 1 1 (enqueueSet [3] [1] [8] 0 6 false 1 1 (enqueueDel [7] [1] 4 1 1 (newHandoff demo_cfg))).
Lemma demo_manager_reachable : hreachable demo_cfg demo_manager.
Proof.
  eapply hr_step; [|apply h_set]. eapply hr_step; [|apply h_set]. eapply hr_step; [|apply h_del]. apply hr_init.
Qed.

Lemma handoff_manager_invariant_witness :
  ∃ q, peers demo_manager !! [7] = Some q ∧ items q = 2 ∧ qbytes q = 44 ∧ overCap q (items q) (qbytes q) = false.
Proof.
  destruct (peers demo_manager !! [7]) as [q|] eqn:E; [|vm_compute in E; discriminate]. exists q.
  pose proof (handoff_manager_invariant demo_cfg demo_manager [7] q demo_manager_reachable E) as (_ & _ & _ & H).
  split; [done|]. revert H. revert E. vm_compute. by intros [= <-].
Defined.

(** A hint of [q] that replay may send now. *)
Definition due (now : Z) (q : hintQueue) (p : nat) : Prop :=
  (p ∈ rdy q ∨ p ∈ delayed q ∧ nextAt (obj q p) ≤ now) ∧ expired (ttl q) now (obj q p) = false.

Lemma popReady_due now q q' r :
  Rep q → popReady now q = (q', r) →
  match r with
  | Some p => due now q p ∧ data (obj q' p) = data (obj q p) ∧ index q' !! hkey (obj q' p) = None
  | None => ∀ p, ¬ due now q p
  end.
Proof.
  intros Hr E. pose proof (popReady_spec now q Hr) as Hp. rewrite E in Hp.
  destruct Hp as (Hr' & Hc & L & D & O & Hm & moved & gone & Hmv & Hg & H3). destruct r as [p|].
  - destruct H3 as (E1 & E2 & (_ & Hd & _) & Hin). split_and!; [split; [|done]|done|].
    + assert (p ∈ rdy q ++ moved) as Hp by (rewrite E1; set_solver). apply elem_of_app in Hp as [Hp|Hp%Hmv]; auto.
    + destruct (index q' !! hkey (obj q' p)) as [x|] eqn:Ex; [|done]. exfalso. apply (rep_index q' Hr') in Ex as [Hx Ek].
      apply Hd. enough (x = p) as <- by done. apply (rep_key_inj q); [done|by eapply elem_of_submseteq|done|].
      pose proof (data_fields _ _ (D x)). pose proof (data_fields _ _ (D p)). intuition congruence.
  - destruct H3 as [E1 _]. intros p [Hp He]. assert (p ∈ gone) as Hpg%Hg by (rewrite <-E1, elem_of_app, Hmv; tauto). congruence.
Qed.

(** What one pass over the peers achieves. *)
Definition replay_result (send : NodeID → hintItem → attempt) (now : Z) (ids : list NodeID) (h h' : handoff)
    (r : option (NodeID * hintItem)) : Prop :=
  match r with
  | Some (id, it) => id ∈ ids ∧ outcome (send id it) = Acked ∧
      (∃ q p, peers h !! id = Some q ∧ due now q p ∧ data it = data (obj q p)) ∧
      (∃ q', peers h' !! id = Some q' ∧ index q' !! hkey it = None)
  | None => ∀ id q p, id ∈ ids → peers h !! id = Some q → due now q p → ∃ it, outcome (send id it) ≠ Acked
  end.

Lemma replay_result_put send now id ids q h h' r :
  id ∉ ids → (∀ q p, peers h !! id = Some q → due now q p → ∃ it, outcome (send id it) ≠ Acked) →
  replay_result send now ids (put_peer id q h) h' r → replay_result send now (id :: ids) h h' r.
Proof.
  intros Hid Hno. destruct r as [[id' it]|]; cbn.
  - intros (Hin & Ho & (q1 & p & Hq & H1) & H2). assert (id ≠ id') as Hne by (intros ->; done).
    rewrite lookup_insert_ne in Hq by done. split_and!; [set_solver|done|by exists q1, p|done].
  - intros Hall id' q1 p [->|Hin]%elem_of_cons Hq Hd; [by eapply Hno|]. apply (Hall id' q1 p); [done| |done].
    rewrite lookup_insert_ne; [done|]. by intros ->.
Qed.

Lemma replay_loop_result send now ids h h' r :
  hinv h → NoDup ids → (∀ id, id ∈ ids → is_Some (peers h !! id)) →
  replay_loop send now ids h = (h', r) → replay_result send now ids h h' r.
Proof.
  revert h. induction ids as [|id ids IH]; intros h Hh Hnd Hex E; cbn [replay_loop] in E.
  { injection E as <- <-. intros id q p Hin. by apply elem_of_nil in Hin. }
  apply NoDup_cons in Hnd as [Hid Hnd]. destruct (Hex id) as [q Hq]; [set_solver|]. unfold queue in E. rewrite Hq in E.
  assert (∀ q1, qinv (q1, []) → replay_loop send now ids (put_peer id q1 h) = (h', r) → replay_result send now ids (put_peer id q1 h) h' r) as Hrest.
  { intros q1 Hq1. apply IH; [by apply put_peer_inv|done|]. intros id' Hin. cbn. destruct (decide (id' = id)) as [->|].
    - rewrite lookup_insert_eq. by eexists.
    - rewrite lookup_insert_ne by done. apply Hex. set_solver. }
  pose proof (Hh id q Hq) as Hqi. destruct (popReady now q) as [q1 [p|]] eqn:Ep.
  - pose proof (popReady_due now q q1 _ (qi_rep _ Hqi) Ep) as (Hd & Hda & Hix).
    assert (qinv (q1, [p])) as Hq1 by (apply (qstep_inv _ _ Hqi); by apply (q_pop now)).
    destruct (outcome (send id (obj q1 p))) eqn:Eo;
      try (apply (replay_result_put _ _ _ _ (scheduleRetry (send id (obj q1 p)) p q1)); [done| |apply Hrest; [by apply retry_inv|done]];
           intros _ _ _ _; exists (obj q1 p); by rewrite Eo).
    injection E as <- <-. split_and!; [set_solver|done|by exists q, p|]. exists q1. cbn. by rewrite lookup_insert_eq.
  - apply (replay_result_put _ _ _ _ q1); [done| |apply Hrest; [|done]].
    + intros q2 p Hq2 Hd. rewrite Hq in Hq2. injection Hq2 as <-. by destruct (popReady_due now q q1 None (qi_rep _ Hqi) Ep p).
    + apply (qstep_inv _ _ Hqi). by apply (q_idle now).
Qed.

Lemma rotate_perm {A} i (l : list A) : rotate_from i l ≡ₚ l.
Proof. unfold rotate_from. rewrite Permutation_app_comm. by rewrite take_drop. Qed.

(** Replay makes progress and invents nothing: a hint reported delivered was pending for
    that peer, due and not expired, was acknowledged, and is gone from the peer's queue; when
    nothing is delivered, every peer that had a due hint was sent one and did not acknowledge. *)
Theorem replay_progress c o send now h h' r :
  hreachable c h → replayOne o send now h = (h', r) →
  replay_result send now (map_to_list (peers h)).*1 h h' r.
Proof.
  intros Hh%hreachable_inv E. unfold replayOne in E.
  pose proof (range_perm o (map_to_list (peers h)).*1) as Hp. destruct (range o _) as [|id ids] eqn:El.
  - injection E as <- <-. intros id q p Hin. rewrite <-Hp in Hin. by apply elem_of_nil in Hin.
  - rewrite <-El in *. clear El id ids. set (l := rotate_from _ _) in E.
    assert (l ≡ₚ (map_to_list (peers h)).*1) as Hl by (unfold l; by rewrite rotate_perm).
    apply replay_loop_result in E; [|done| |].
    + destruct r as [[id it]|]; cbn in *; [by rewrite Hl in E|]. intros id q p Hin. rewrite <-Hl in Hin. by apply E.
    + rewrite Hl. apply NoDup_fst_map_to_list.
    + intros id. rewrite Hl. intros ([id' q] & -> & Hin%elem_of_map_to_list)%list_elem_of_fmap. by eexists.
Qed.

Definition ack_all : NodeID → hintItem → attempt := λ _ _, MkAttempt Acked 5 5.
Definition fail_all : NodeID → hintItem → attempt := λ _ _, MkAttempt (TransportError true) 5 5.

Lemma replay_progress_witness :
  ∃ id it, (replayOne inOrder ack_all 5 demo_manager).2 = Some (id, it) ∧
    ∃ q', peers (replayOne inOrder ack_all 5 demo_manager).1 !! id = Some q' ∧ index q' !! hkey it = None.
Proof.
  destruct (replayOne inOrder ack_all 5 demo_manager) as [h' r] eqn:E.
  pose proof (replay_progress demo_cfg inOrder ack_all 5 demo_manager h' r demo_manager_reachable E) as H.
  destruct r as [[id it]|]; [|exfalso; revert E; vm_compute; congruence].
  exists id, it. destruct H as (_ & _ & _ & H). by split_and!.
Defined.

(** [replayOne] reports false although it has just sent two hints and rescheduled both: the
    burst of the tick ends there. *)
Theorem failed_sends_end_the_burst :
  let '(h', r) := replayOne inOrder fail_all 5 demo_manager in
  r = None ∧ (∃ q, peers h' !! [7] = Some q ∧ length (delayed q) = 1%nat) ∧ (∃ q, peers h' !! [3] = Some q ∧ length (delayed q) = 1%nat).
Proof. vm_compute. split_and!; eauto. Qed.

(** Housekeeping. *)
Definition pending (f : hintQueue → Z) (h : handoff) : Z := foldr Z.add 0 (f <$> (map_to_list (peers h)).*2).

Lemma foldr_add_perm (l l' : list Z) : l ≡ₚ l' → foldr Z.add 0 l = foldr Z.add 0 l'.
Proof. induction 1; cbn; lia. Qed.
Lemma house_sums (l : list hintQueue) i b :
  foldl (λ '(i, b) q, let '(qi, qb) := stats q in (i64 (i + qi), i64 (b + qb))) (i64 i, i64 b) l =
  (i64 (i + foldr Z.add 0 (items <$> l)), i64 (b + foldr Z.add 0 (qbytes <$> l))).
Proof.
  revert i b. induction l as [|q l IH]; intros i b; cbn -[i64]; [by rewrite !Z.add_0_r|].
  rewrite !i64_add_l, IH. f_equal; f_equal; lia.
Qed.

(** Housekeeping recounts the backlog from the queues, in whatever order it visits them,
    and lifts a pause exactly when every configured threshold is undercut. *)
Theorem housekeeping_recounts sixty o h :
  let h' := housekeeping sixty o h in
  totalItems h' = i64 (pending items h) ∧ totalBytes h' = i64 (pending qbytes h) ∧ peers h' = peers h ∧
  paused h' = paused h &&
    negb (((AutopauseItems (cfg h) =? 0) || (i64 (pending items h) <? sixty (AutopauseItems (cfg h)))) &&
          ((AutopauseBytes (cfg h) =? 0) || (i64 (pending qbytes h) <? sixty (AutopauseBytes (cfg h))))).
Proof.
  assert (∀ f : hintQueue → Z, foldr Z.add 0 (f <$> range o (map_to_list (peers h)).*2) = pending f h) as Hs.
  { intros f. apply foldr_add_perm. by rewrite range_perm. }
  cbv zeta. unfold housekeeping. pose proof (house_sums (range o (map_to_list (peers h)).*2) 0 0) as E.
  change (i64 0) with 0 in E. rewrite E, !Hs, !Z.add_0_l. cbn [put_totals paused cfg].
  destruct (paused h) eqn:Ep; [|by split_and!]. destruct (_ && _) eqn:Eb; cbn; rewrite ?Ep; split_and!; reflexivity.
Qed.

(** [k] consecutive ticks from slot [s]: the hints they may replay. *)
Fixpoint budget (c : HandoffConfig) (k : nat) (s : Z) : Z :=
  match k with O => 0 | S k => let '(n, s) := tick_budget c s in n + budget c k s end.

(** Slot [t]'s share of a rate of [20 * p + e]. *)
Definition share (p e t : Z) : Z := if t <? e then p + 1 else p.

Lemma rate_split c : 0 ≤ ReplayRPS c → ∃ p e, ReplayRPS c = 20 * p + e ∧ 0 ≤ e < 20 ∧ 0 ≤ p.
Proof.
  intros Hr. exists (ReplayRPS c / 20), (ReplayRPS c mod 20). pose proof (Z.div_mod (ReplayRPS c) 20 ltac:(lia)).
  pose proof (Z.mod_pos_bound (ReplayRPS c) 20 eq_refl). pose proof (Z.div_pos (ReplayRPS c) 20 Hr eq_refl). lia.
Qed.
Lemma tick_budget_share c p e t :
  ReplayRPS c = 20 * p + e → 0 ≤ e < 20 → 0 ≤ p → 0 ≤ t →
  tick_budget c t = (share p e t, if t + 1 =? 20 then 0 else t + 1).
Proof.
  intros E He Hp Ht. unfold tick_budget, slotsPerSec, share. rewrite E, Z.quot_div_nonneg, Z.rem_mod_nonneg by lia.
  assert ((20 * p + e) / 20 = p) as -> by (symmetry; apply (Z.div_unique _ _ _ e); lia).
  assert ((20 * p + e) mod 20 = e) as -> by (symmetry; apply (Z.mod_unique _ _ p); lia).
  f_equal. destruct (Z.ltb_spec 0 e), (Z.ltb_spec t e); cbn; lia.
Qed.

Fixpoint shares (p e : Z) (k t : nat) : Z :=
  match k with O => 0 | S k => share p e (Z.of_nat t) + shares p e k (if (S t =? 20)%nat then 0 else S t)%nat end.
Lemma budget_shares c p e k t :
  ReplayRPS c = 20 * p + e → 0 ≤ e < 20 → 0 ≤ p → budget c k (Z.of_nat t) = shares p e k t.
Proof.
  intros E He Hp. revert t. induction k as [|k IH]; intros t; [done|]. cbn [budget shares].
  rewrite (tick_budget_share c p e), <- IH by lia. do 2 f_equal.
  destruct (Nat.eqb_spec (S t) 20), (Z.eqb_spec (Z.of_nat t + 1) 20); lia.
Qed.

Lemma below_20 s : 0 ≤ s < 20 → s ∈ (Z.of_nat <$> seq 0 20).
Proof. intros Hs. apply list_elem_of_fmap. exists (Z.to_nat s). split; [lia|]. apply elem_of_seq. lia. Qed.
Ltac slots H := apply below_20 in H; cbn -[Z.mul] in H; rewrite !elem_of_cons, elem_of_nil in H; destruct_or! H; subst.

Lemma second_of_shares p e : 0 ≤ e < 20 → foldr Z.add 0 (share p e ∘ Z.of_nat <$> seq 0 20) = 20 * p + e.
Proof. intros He. slots He; try contradiction; cbv -[Z.add Z.mul]; lia. Qed.

(** The replay rate is exact: the twenty ticks of a second, from any slot, allow
    [ReplayRPS] hints in total, and every tick its fair share up to one. *)
Theorem replay_rate_exact c s :
  0 ≤ ReplayRPS c → 0 ≤ s < slotsPerSec →
  budget c 20 s = ReplayRPS c ∧ 0 ≤ (tick_budget c s).2 < slotsPerSec ∧
  ReplayRPS c / slotsPerSec ≤ (tick_budget c s).1 ≤ ReplayRPS c / slotsPerSec + 1.
Proof.
  intros Hr Hs. destruct (rate_split c Hr) as (p & e & E & He & Hp).
  pose proof (tick_budget_share c p e) as Et. unfold slotsPerSec in *. split; [|split].
  - replace s with (Z.of_nat (Z.to_nat s)) by lia. rewrite (budget_shares c p e), E, <- (second_of_shares p e) by lia. slots Hs; try contradiction; cbv -[Z.add share]; ring.
  - rewrite Et by lia. cbn [snd]. destruct (Z.eqb_spec (s + 1) 20); lia.
  - rewrite Et by lia. cbn [fst]. rewrite E.
    assert ((20 * p + e) / 20 = p) as -> by (symmetry; apply (Z.div_unique _ _ _ e); lia). unfold share. case_match; lia.
Qed.
Lemma replay_rate_exact_witness :
  let c := FillDefaults (MkHandoffConfig None false 0 0 0 0 0 45 DropOldest 0 0) in
  budget c 20 7 = 45 ∧ (tick_budget c 4).1 = 3 ∧ (tick_budget c 7).1 = 2.
Proof. split_and!; [|done|done]. refine (proj1 (replay_rate_exact _ 7 _ _)); [done|split; done]. Defined.

Lemma backoff_closed n : backoff n = Z.min (5 * second) (200 * millisecond * 2 ^ Z.max 0 (Z.min 6 n)).
Proof.
  assert (backoff n = backoff (Z.max 0 (Z.min 6 n))) as ->.
  { unfold backoff, min. destruct (Z.ltb_spec n 0).
    - by replace (Z.max 0 (Z.min 6 n)) with 0 by lia.
    - destruct (Z.ltb_spec (Z.max 0 (Z.min 6 n)) 0); [lia|]. destruct (Z.ltb_spec 6 n).
      + by replace (Z.max 0 (Z.min 6 n)) with 6 by lia.
      + replace (Z.max 0 (Z.min 6 n)) with n by lia. destruct (Z.ltb_spec 6 n); [lia|done]. }
  assert (0 ≤ Z.max 0 (Z.min 6 n) < 20 ∧ Z.max 0 (Z.min 6 n) ≤ 6) as [Hs Hle] by lia.
  generalize dependent (Z.max 0 (Z.min 6 n)). intros m Hs Hle. slots Hs; try contradiction; try lia; vm_compute; reflexivity.
Qed.

(** Backoff is bounded and grows: the first retry waits 200 ms, no retry more than 5 s,
    and a later retry never less than an earlier one. *)
Theorem backoff_bounds a b :
  a ≤ b → 200 * millisecond ≤ backoff a ≤ backoff b ∧ backoff b ≤ 5 * second ∧ backoff 0 = 200 * millisecond.
Proof.
  intros Hab. rewrite !backoff_closed. unfold second, millisecond.
  pose proof (Z.pow_le_mono_r 2 (Z.max 0 (Z.min 6 a)) (Z.max 0 (Z.min 6 b)) ltac:(lia) ltac:(lia)).
  pose proof (Z.pow_pos_nonneg 2 (Z.max 0 (Z.min 6 a)) ltac:(lia) ltac:(lia)). split_and!; try lia. done.
Qed.
Lemma backoff_bounds_witness : backoff 3 = 1600 * millisecond ∧ backoff 3 ≤ backoff 5 ∧ backoff 5 = 5 * second.
Proof. split; [done|]. split; [|done]. apply (backoff_bounds 3 5). lia. Defined.
End Replay.
