(* ===== verification/CacheIface.v ===== *)
(** * What the cache promises the components built on it

    [CacheOps] are the operations of the local cache that the middleware and the cluster node
    call, [CacheLaws] what they rely on, stated over [cfind], the value and absolute expiry
    stored under a key.  [InMemoryCache] satisfies the laws for every policy and capacity; the
    components' theorems are proved from the laws alone.  [wf n c]: the cache is open and
    can take [n] more reads before its 63-bit access counters overflow. *)
From Stdlib Require Import ZArith Lia.
From stdpp Require Import base numbers gmap list sets.
From S2P Require Import Prelude Hash Dll Lru Lfu Shard Eviction Cache Sections CacheInv CacheSpec CacheTheorems.
Local Open Scope Z_scope.

(** Byte strings as keys. *)
#[export] Instance bytes_hasher : Hasher (list Z) := λ b, Hash.hash (Hash.KString b).

(** An entry is dead once the clock has passed a positive expiry. *)
Definition dead (now expire : Z) : Prop := 0 < expire < now.
#[global] Instance dead_dec now e : Decision (dead now e).
Proof. unfold dead. apply _. Defined.
Definition alive_at {V} (now : Z) (r : option (V * Z)) : option (V * Z) :=
  match r with Some (v, e) => if decide (dead now e) then None else Some (v, e) | None => None end.
(** [GetWithTTL]'s remaining time. *)
Definition remaining (now e : Z) : Z := if e =? 0 then -1 else i64 (e - now).

Class CacheOps (C K V : Type) := {
  cget : C → K → Z → Z → C * option V;
  cgetTTL : C → K → Z → Z → C * option (V * Z);
  cset : C → K → V → Z → runtime → C * option error;
  cimport : C → Z → (nat → rangeOrder) → list (@ExportItem K V * option nat) → C;
  cdelete : C → K → C * bool;
  ckeys : C → Z → rangeOrder → list K;
  cclear : C → rangeOrder → C;
  cclose : C → rangeOrder → C;
  cexpiry : C → Z → Z → Z;
  (** Writes of new keys are never turned down. *)
  cadmits : C → bool;
  cfind : C → K → option (V * Z) }.

(** Everything but [k] is as before, or was evicted. *)
Definition others_kept {C K V} `{CacheOps C K V} (k : K) (c c' : C) : Prop :=
  ∀ k', k' ≠ k → cfind c' k' = cfind c k' ∨ cfind c' k' = None.
Definition same_settings {C K V} `{CacheOps C K V} (c c' : C) : Prop :=
  cadmits c' = cadmits c ∧ ∀ now ttl, cexpiry c' now ttl = cexpiry c now ttl.

Class CacheLaws (C K V : Type) `{EqDecision K, Ops : CacheOps C K V} := {
  wf : nat → C → Prop;
  wf_le n m c : (m ≤ n)%nat → wf n c → wf m c;
  law_get n c k now now' :
    wf (S n) c → now ≤ now' →
    wf n (cget c k now now').1 ∧ same_settings c (cget c k now now').1 ∧
    (cget c k now now').2 = fst <$> alive_at now (cfind c k) ∧
    ∀ k', cfind (cget c k now now').1 k' = if decide (k' = k) then alive_at now (cfind c k) else cfind c k';
  law_getTTL n c k now now' :
    wf (S n) c → now ≤ now' →
    wf n (cgetTTL c k now now').1 ∧ same_settings c (cgetTTL c k now now').1 ∧
    (cgetTTL c k now now').2 = (λ p, (p.1, remaining now p.2)) <$> alive_at now (cfind c k) ∧
    ∀ k', cfind (cgetTTL c k now now').1 k' = if decide (k' = k) then alive_at now (cfind c k) else cfind c k';
  law_set n c k v ttl rt :
    wf n c →
    wf n (cset c k v ttl rt).1 ∧ same_settings c (cset c k v ttl rt).1 ∧ (cset c k v ttl rt).2 = None ∧
    (cfind (cset c k v ttl rt).1 k = Some (v, cexpiry c (rt_now rt) ttl) ∨
     cadmits c = false ∧ cfind c k = None ∧ cfind (cset c k v ttl rt).1 k = None) ∧
    others_kept k c (cset c k v ttl rt).1;
  law_import_nil c now o : cimport c now o [] = c;
  law_import_cons c now o it its : cimport c now o (it :: its) = cimport (cimport c now o [it]) now o its;
  law_import n c now o it ch :
    wf n c →
    wf n (cimport c now o [(it, ch)]) ∧ same_settings c (cimport c now o [(it, ch)]) ∧
    cfind (cimport c now o [(it, ch)]) (Key it) = Some (Val it, ExpireAbs it) ∧
    others_kept (Key it) c (cimport c now o [(it, ch)]);
  law_delete n c k :
    wf n c →
    wf n (cdelete c k).1 ∧ same_settings c (cdelete c k).1 ∧ ((cdelete c k).2 = true ↔ is_Some (cfind c k)) ∧
    ∀ k', cfind (cdelete c k).1 k' = if decide (k' = k) then None else cfind c k';
  law_keys n c now o :
    wf n c → NoDup (ckeys c now o) ∧ ∀ k, k ∈ ckeys c now o ↔ is_Some (alive_at now (cfind c k));
  law_clear n c o :
    wf n c → wf n (cclear c o) ∧ same_settings c (cclear c o) ∧ ∀ k, cfind (cclear c o) k = None }.

(** ** The in-memory cache *)
(** [Exists], which only programs on top of the cluster call. *)
Class CacheExists (C K V : Type) := cexists : C → K → Z → C * bool.
Class CacheExistsLaw (C K V : Type) `{EqDecision K, Ops : !CacheOps C K V, !CacheLaws C K V, !CacheExists C K V} :=
  law_exists n (c : C) (k : K) now :
    wf n c →
    wf n (cexists c k now).1 ∧ same_settings c (cexists c k now).1 ∧
    (cexists c k now).2 = bool_decide (is_Some (alive_at now (cfind c k))) ∧
    ∀ k', cfind (cexists c k now).1 k' = if decide (k' = k) then alive_at now (cfind c k) else cfind c k'.

Section Instance_.
Context {K V : Type} `{EqDecision K, !Countable K, !Hasher K} {zeroV : Inhabited V}.
Abbreviation cache := (InMemoryCache K V).
Implicit Types c : cache.
Implicit Types k : K.

#[export] Instance InMemoryCache_ops : CacheOps cache K V := {
  cget := Get;
  cgetTTL := GetWithTTL;
  cset := Set_;
  cimport := Import;
  cdelete := Delete;
  ckeys := Keys;
  cclear := Clear;
  cclose := Close;
  cexpiry c := expiry (config c);
  cadmits c := negb (bool_decide (Policy (config c) = AdmissionLFU));
  cfind := content }.

Definition cache_wf_n (n : nat) (c : cache) : Prop :=
  closed c = false ∧ ∃ B A, refines B c A ∧ 1 ≤ B ∧ B + 2 * Z.of_nat n < 2 ^ 63.

Lemma frame_settings c c' : same_frame c c' → same_settings c c'.
Proof. intros [E _]. unfold same_settings. cbn. by rewrite E. Qed.
Lemma frame_closed c c' : same_frame c c' → closed c' = closed c.
Proof. intros [E _]. by rewrite E. Qed.

(** Contents from abstract entries. *)
Definition ve (e : @entry K V) : V * Z := (e_value e, e_expire e).
Lemma content_refines B c A k : refines B c A → content c k = ve <$> find_key k (A (getShard c k)).
Proof. intros Hr. unfold content. by rewrite (peek_refines _ _ _ _ Hr). Qed.

Lemma content_after B c A B' c' A' i k :
  refines B c A → refines B' c' A' → same_frame c c' → only_shard c i A A' → getShard c k ≠ i →
  content c' k = content c k.
Proof.
  intros Hr Hr' Hf Ho Hne. rewrite (content_refines _ _ _ _ Hr), (content_refines _ _ _ _ Hr'), (same_frame_getShard c) by done.
  by rewrite Ho by (done || by eapply refines_in_range).
Qed.

Lemma get_content n c k now now' c' r :
  cache_wf_n (S n) c → now ≤ now' → get c k now now' = (c', r) →
  cache_wf_n n c' ∧ same_frame c c' ∧
  match alive_at now (content c k) with
  | Some (v, e) => ∃ x, r = Hit x now ∧ value (rd (store c') x) = v ∧ expireTime (rd (store c') x) = e
  | None => r = Miss
  end ∧
  ∀ k', content c' k' = if decide (k' = k) then alive_at now (content c k) else content c k'.
Proof.
  intros (Hcl & B & A & Hr & HB & HBn) Hnow E.
  destruct (get_refines B c A k now now' c' r Hr ltac:(lia) Hcl Hnow E) as (A' & Hr' & Ho & Hf & HA' & Hres).
  pose proof (same_frame_getShard c c') as Eg. pose proof (content_refines _ _ _ k Hr) as Ek.
  split; [|split; [done|]].
  { split; [by rewrite (frame_closed c c' Hf)|]. exists (B + 2), A'. split_and!; [done|lia|lia]. }
  unfold a_get in HA', Hres. split.
  - rewrite Ek. destruct (find_key k (A (getShard c k))) as [e|]; cbn; [|exact Hres]. unfold dead.
    destruct (decide (entry_expired now e)) as [Hx|Hx]; [rewrite decide_True by exact Hx; exact Hres|].
    rewrite decide_False by exact Hx. exact Hres.
  - intros k'. destruct (decide (getShard c k' = getShard c k)) as [Es|Hne].
    2: { rewrite (content_after B c A _ c' A' _ k' Hr Hr' Hf Ho Hne). rewrite decide_False; [done|]. by intros ->. }
    rewrite (content_refines _ _ _ k' Hr'), Eg, Es, HA', Ek by done.
    rewrite (content_refines _ _ _ k' Hr), Es.
    destruct (find_key k (A (getShard c k))) as [e|] eqn:Ee.
    2: { cbn. destruct (decide (k' = k)) as [->|]; [by rewrite Ee|done]. }
    cbn. destruct (decide (entry_expired now e)) as [Hx|Hx].
    + rewrite (decide_True (P := dead now (e_expire e))) by exact Hx. cbn [fst]. rewrite find_key_without. by destruct (decide (k' = k)).
    + rewrite (decide_False (P := dead now (e_expire e))) by exact Hx. cbn [fst].
      destruct (find_key_touch (Policy (config c)) k' k now (A (getShard c k))) as [H1 H2].
      assert (ve <$> find_key k' (a_touch (Policy (config c)) k now (A (getShard c k))) = ve <$> find_key k' (A (getShard c k))) as ->.
      { unfold ve. destruct (find_key k' (a_touch _ _ _ _)), (find_key k' (A _)); cbn in *; naive_solver congruence. }
      destruct (decide (k' = k)) as [->|]; [by rewrite Ee|done].
Qed.

Lemma set_content n c k v ttl rt :
  cache_wf_n n c →
  cache_wf_n n (Set_ c k v ttl rt).1 ∧ same_settings c (Set_ c k v ttl rt).1 ∧ (Set_ c k v ttl rt).2 = None ∧
  (content (Set_ c k v ttl rt).1 k = Some (v, expiry (config c) (rt_now rt) ttl) ∨
   cadmits c = false ∧ content c k = None ∧ content (Set_ c k v ttl rt).1 k = None) ∧
  others_kept k c (Set_ c k v ttl rt).1.
Proof.
  intros (Hcl & B & A & Hr & HB & HBn). destruct (Set_ c k v ttl rt) as [c' err] eqn:E. cbn [fst snd].
  destruct (Set_refines B c A k v ttl rt c' err Hr HB Hcl E) as (-> & A' & Hr' & Ho & Hf & HP).
  pose proof (same_frame_getShard c c') as Eg.
  split_and!; [split; [by rewrite (frame_closed c c' Hf)|by exists B, A']|by apply frame_settings|done| |].
  - rewrite (content_refines _ _ _ k Hr'), Eg, (content_refines _ _ _ k Hr) by done.
    destruct HP as [e Hf1|Hf1 Hfull|e Hf1 Hfull Hv Hin|Hf1 Hfull Hp].
    + left. by rewrite find_key_update, decide_True, Hf1.
    + left. by rewrite find_key_cons, decide_True.
    + left. by rewrite find_key_cons, decide_True.
    + right. rewrite Hf1. split_and!; [|done|done]. cbn. by rewrite bool_decide_eq_true_2.
  - intros k' Hk'. cbn [cfind InMemoryCache_ops]. destruct (decide (getShard c k' = getShard c k)) as [Es|Hne];
      [|left; by apply (content_after B c A B c' A' (getShard c k))].
    rewrite (content_refines _ _ _ k' Hr'), Eg, (content_refines _ _ _ k' Hr), Es by done.
    destruct HP as [e Hf1|Hf1 Hfull|e Hf1 Hfull Hv Hin|Hf1 Hfull Hp].
    + left. by rewrite find_key_update, decide_False.
    + left. by rewrite find_key_cons, decide_False by done.
    + rewrite find_key_cons, decide_False, find_key_without by done. case_decide; auto.
    + by left.
Qed.

Lemma import_one_content n c now o it ch :
  cache_wf_n n c →
  cache_wf_n n (Import c now o [(it, ch)]) ∧ same_settings c (Import c now o [(it, ch)]) ∧
  content (Import c now o [(it, ch)]) (Key it) = Some (Val it, ExpireAbs it) ∧
  others_kept (Key it) c (Import c now o [(it, ch)]).
Proof.
  intros (Hcl & B & A & Hr & HB & HBn). destruct (Import_step B c A now o it ch Hr HB) as (A' & Hr' & Ho & Hf & HP).
  change (locked c (getShard c (Key it)) tt _).1 with (Import c now o [(it, ch)]) in *.
  pose proof (same_frame_getShard c (Import c now o [(it, ch)])) as Eg.
  split_and!; [split; [by rewrite (frame_closed c _ Hf)|by exists B, A']|by apply frame_settings| |].
  - rewrite (content_refines _ _ _ _ Hr'), Eg by done. destruct HP as [e Hf1|f Hf1 Hf2|e f Hf1 Hf2].
    + by rewrite find_key_update, decide_True, Hf1.
    + by rewrite find_key_cons, decide_True.
    + by rewrite find_key_cons, decide_True.
  - intros k' Hk'. cbn [cfind InMemoryCache_ops]. destruct (decide (getShard c k' = getShard c (Key it))) as [Es|Hne];
      [|left; by apply (content_after B c A B _ A' (getShard c (Key it)))].
    rewrite (content_refines _ _ _ k' Hr'), Eg, (content_refines _ _ _ k' Hr), Es by done.
    destruct HP as [e Hf1|f Hf1 Hf2|e f Hf1 Hf2].
    + left. by rewrite find_key_update, decide_False.
    + left. by rewrite find_key_cons, decide_False by done.
    + rewrite find_key_cons, decide_False, find_key_without by done. case_decide; auto.
Qed.

Lemma delete_content n c k :
  cache_wf_n n c →
  cache_wf_n n (Delete c k).1 ∧ same_settings c (Delete c k).1 ∧ ((Delete c k).2 = true ↔ is_Some (content c k)) ∧
  ∀ k', content (Delete c k).1 k' = if decide (k' = k) then None else content c k'.
Proof.
  intros (Hcl & B & A & Hr & HB & HBn). destruct (Delete c k) as [c' b] eqn:E. cbn [fst snd].
  destruct (Delete_refines B c A k c' b Hr Hcl E) as (Hb & A' & Hr' & Ho & Hf & HA').
  pose proof (same_frame_getShard c c') as Eg.
  split_and!; [split; [by rewrite (frame_closed c c' Hf)|by exists B, A']|by apply frame_settings| |].
  - rewrite (content_refines _ _ _ k Hr), Hb. by rewrite fmap_is_Some.
  - intros k'. destruct (decide (getShard c k' = getShard c k)) as [Es|Hne].
    + rewrite (content_refines _ _ _ k' Hr'), Eg, Es, HA', find_key_without by done. case_decide; [done|].
      by rewrite (content_refines _ _ _ k' Hr), Es.
    + rewrite (content_after B c A B c' A' (getShard c k) k' Hr Hr' Hf Ho Hne). rewrite decide_False; [done|]. by intros ->.
Qed.

Lemma clear_content n c o :
  cache_wf_n n c → cache_wf_n n (Clear c o) ∧ same_settings c (Clear c o) ∧ ∀ k, content (Clear c o) k = None.
Proof.
  intros (Hcl & B & A & Hr & HB & HBn). destruct (Clear_refines B c A o Hr Hcl) as (A' & Hr' & Hf & HP).
  split_and!; [split; [by rewrite (frame_closed c _ Hf)|by exists B, A']|by apply frame_settings|].
  intros k. rewrite (content_refines _ _ _ k Hr'), (same_frame_getShard c), HP by (done || by eapply refines_in_range). done.
Qed.

Lemma keys_content n c now o :
  cache_wf_n n c → NoDup (Keys c now o) ∧ ∀ k, k ∈ Keys c now o ↔ is_Some (alive_at now (content c k)).
Proof.
  intros (Hcl & B & A & Hr & _). destruct (Keys_refines B A c now o Hr Hcl) as [Hnd Hin]. split; [done|].
  intros k. rewrite Hin. unfold content. destruct (peek c k) as [e|]; cbn.
  - destruct (decide (dead now (e_expire e))) as [Hd|Hd].
    + split; [|by intros []]. intros (e' & [= <-] & Hn). by destruct Hn.
    + split; [eauto|]. intros _. by exists e.
  - split; [by intros (? & ? & _)|by intros []].
Qed.

#[export] Instance InMemoryCache_laws : CacheLaws cache K V.
Proof.
  refine {| wf := cache_wf_n |}.
  - intros n m c Hle (Hcl & B & A & Hr & HB & HBn). split; [done|]. exists B, A. split_and!; [done|done|lia].
  - intros n c k now now' Hw Hnow. cbn [cget cfind InMemoryCache_ops]. unfold Get. destruct (get c k now now') as [c' r] eqn:E.
    destruct (get_content n c k now now' c' r Hw Hnow E) as (Hw' & Hf & Hr & Hk). apply frame_settings in Hf.
    destruct (alive_at now (content c k)) as [[v e]|] eqn:Ea.
    + destruct Hr as (x & -> & <- & <-). done.
    + by subst r.
  - intros n c k now now' Hw Hnow. cbn [cgetTTL cfind InMemoryCache_ops]. unfold GetWithTTL. destruct (get c k now now') as [c' r] eqn:E.
    destruct (get_content n c k now now' c' r Hw Hnow E) as (Hw' & Hf & Hr & Hk). apply frame_settings in Hf.
    destruct (alive_at now (content c k)) as [[v e]|] eqn:Ea.
    + destruct Hr as (x & -> & <- & <-). unfold remaining. cbn. by case_match.
    + by subst r.
  - apply set_content.
  - done.
  - done.
  - apply import_one_content.
  - apply delete_content.
  - apply keys_content.
  - apply clear_content.
Defined.

Lemma exists_content n c k now :
  cache_wf_n n c →
  cache_wf_n n (Exists c k now).1 ∧ same_settings c (Exists c k now).1 ∧
  (Exists c k now).2 = bool_decide (is_Some (alive_at now (content c k))) ∧
  ∀ k', content (Exists c k now).1 k' = if decide (k' = k) then alive_at now (content c k) else content c k'.
Proof.
  intros (Hcl & B & A & Hr & HB & HBn). destruct (Exists c k now) as [c' b] eqn:E. cbn [fst snd].
  destruct (Exists_refines B c A k now c' b Hr Hcl E) as (A' & Hr' & Ho & Hf & HA).
  pose proof (same_frame_getShard c c') as Eg. pose proof (content_refines _ _ _ k Hr) as Ek.
  split_and!; [split; [by rewrite (frame_closed c c' Hf)|by exists B, A']|by apply frame_settings| |].
  - rewrite Ek. destruct (find_key k (A (getShard c k))) as [e|]; cbn; [|by destruct HA]. unfold dead.
    destruct (decide (entry_expired now e)) as [Hx|Hx]; [rewrite decide_True by exact Hx; by destruct HA|].
    rewrite decide_False by exact Hx. by destruct HA.
  - intros k'. destruct (decide (getShard c k' = getShard c k)) as [Es|Hne].
    2: { rewrite (content_after B c A _ c' A' _ k' Hr Hr' Hf Ho Hne). rewrite decide_False; [done|]. by intros ->. }
    rewrite (content_refines _ _ _ k' Hr'), Eg, Es, Ek by done. rewrite (content_refines _ _ _ k' Hr), Es.
    destruct (find_key k (A (getShard c k))) as [e|] eqn:Ee.
    2: { destruct HA as [_ ->]. cbn. destruct (decide (k' = k)) as [->|]; [by rewrite Ee|done]. }
    cbn. destruct (decide (entry_expired now e)) as [Hx|Hx]; destruct HA as [_ ->].
    + rewrite (decide_True (P := dead now (e_expire e))) by exact Hx. rewrite find_key_without. by destruct (decide (k' = k)).
    + rewrite (decide_False (P := dead now (e_expire e))) by exact Hx. destruct (decide (k' = k)) as [->|]; [by rewrite Ee|done].
Qed.
#[export] Instance InMemoryCache_exists : CacheExists cache K V := Exists.
#[export] Instance InMemoryCache_exists_law : CacheExistsLaw cache K V.
Proof. intros n c k now. apply exists_content. Qed.

(** Every state a new cache reaches satisfies them. *)
Lemma cache_reachable_wf c n : reachable c → closed c = false → (Z.of_nat n ≤ 2 ^ 61) → wf n c.
Proof.
  intros (B & HB & Hr)%reachable_dump Hcl Hn. split; [done|]. exists B, (dump c). split_and!; [done|lia|lia].
Qed.
End Instance_.
