(* ===== verification/PatternIndex.v ===== *)
(** * The path index of the HTTP middleware ([src/internal/httpcache/index.go])

    A trie from path segments to the cache keys stored under a path.  Strings are lists of
    bytes.  The order of the two [range] loops is the argument [o].  The specification is a
    set of pairs (segments, key). *)
From Stdlib Require Import ZArith Lia.
From stdpp Require Import base numbers list gmap sets.
From S2P Require Import Prelude.
Local Open Scope Z_scope.

Module PatternIndex.

Definition bytes : Type := list Z.
Definition pathSeparator : Z := 47.
Definition wildcardChar : Z := 42.
Definition rootPath : bytes := [pathSeparator].

(** ** [strings] *)
Fixpoint trimLeft (sep : Z) (s : bytes) : bytes :=
  match s with
  | c :: s' => if c =? sep then trimLeft sep s' else s
  | [] => []
  end.
Definition trim (sep : Z) (s : bytes) : bytes := reverse (trimLeft sep (reverse (trimLeft sep s))).

(** [strings.Split]: the pieces between separators. *)
Fixpoint split (sep : Z) (s : bytes) : list bytes :=
  match s with
  | [] => [[]]
  | c :: s' =>
      if c =? sep then [] :: split sep s'
      else match split sep s' with [] => [[c]] | w :: ws => (c :: w) :: ws end
  end.

Definition hasSuffix (c : Z) (s : bytes) : bool :=
  match last s with Some x => x =? c | None => false end.
Definition trimSuffix (c : Z) (s : bytes) : bytes := if hasSuffix c s then removelast s else s.

(** ** The trie *)
#[warnings="-register-all"]
Inductive PatternNode := Node (children : gmap bytes PatternNode) (keys : gset bytes).

Definition node_children (n : PatternNode) : gmap bytes PatternNode := match n with Node cs _ => cs end.
Definition node_keys (n : PatternNode) : gset bytes := match n with Node _ ks => ks end.

Definition newPatternNode : PatternNode := Node ∅ ∅.
Definition NewPatternIndex : PatternNode := newPatternNode.

Definition normalizePath (path : bytes) : list bytes :=
  let path := if decide (path = []) then rootPath else path in
  let trimmed := trim pathSeparator path in
  if decide (trimmed = []) then []
  else filter (λ seg, seg ≠ []) (split pathSeparator trimmed).

Fixpoint add_at (segments : list bytes) (key : bytes) (n : PatternNode) : PatternNode :=
  match segments with
  | [] => Node (node_children n) ({[ key ]} ∪ node_keys n)
  | s :: segments =>
      let c := default newPatternNode (node_children n !! s) in
      Node (<[s := add_at segments key c]> (node_children n)) (node_keys n)
  end.
Definition AddKey (path key : bytes) (root : PatternNode) : PatternNode := add_at (normalizePath path) key root.

Fixpoint findNode (segments : list bytes) (n : PatternNode) : option PatternNode :=
  match segments with
  | [] => Some n
  | s :: segments => match node_children n !! s with Some c => findNode segments c | None => None end
  end.

(** [delete(node.keys, key)] on the node [findNode] returns. *)
Fixpoint remove_at (segments : list bytes) (key : bytes) (n : PatternNode) : PatternNode :=
  match segments with
  | [] => Node (node_children n) (node_keys n ∖ {[ key ]})
  | s :: segments =>
      match node_children n !! s with
      | Some c => Node (<[s := remove_at segments key c]> (node_children n)) (node_keys n)
      | None => n
      end
  end.
Definition RemoveKey (path key : bytes) (root : PatternNode) : PatternNode :=
  let segments := normalizePath path in
  match findNode segments root with Some _ => remove_at segments key root | None => root end.

Definition collectDirectKeys (o : rangeOrder) (n : PatternNode) : list bytes :=
  if decide (size (node_keys n) = 0%nat) then [] else range o (elements (node_keys n)).

Fixpoint collectAllKeys (o : rangeOrder) (n : PatternNode) : list bytes :=
  match n with
  | Node cs ks => range o (elements ks) ++ concat (range o (map_fold (λ _ c acc, collectAllKeys o c :: acc) [] cs))
  end.

Definition GetMatchingKeys (o : rangeOrder) (pattern : bytes) (root : PatternNode) : list bytes :=
  let pattern := if decide (pattern = []) then rootPath else pattern in
  let isWildcard := hasSuffix wildcardChar pattern in
  let pattern := if isWildcard then trimSuffix wildcardChar pattern else pattern in
  match findNode (normalizePath pattern) root with
  | None => []
  | Some n => if isWildcard then collectAllKeys o n else collectDirectKeys o n
  end.

Definition Clear (root : PatternNode) : PatternNode := newPatternNode.

(** ** Normalised paths *)
Definition words (s : bytes) : list bytes := filter (λ seg, seg ≠ []) (split pathSeparator s).

Lemma split_nonnil sep s : split sep s ≠ [].
Proof. destruct s as [|c s]; cbn; [done|]. destruct (c =? sep); [done|]. by destruct (split sep s). Qed.

Lemma split_app sep a b : split sep (a ++ sep :: b) = split sep a ++ split sep b.
Proof.
  induction a as [|c a IH]; cbn [app split].
  - by rewrite Z.eqb_refl.
  - rewrite IH. destruct (c =? sep); [done|]. by destruct (split sep a) eqn:E; [apply split_nonnil in E|].
Qed.
Lemma words_app a b : words (a ++ pathSeparator :: b) = words a ++ words b.
Proof. unfold words. by rewrite split_app, filter_app. Qed.
Lemma words_sep_cons b : words (pathSeparator :: b) = words b.
Proof. exact (words_app [] b). Qed.
Lemma words_sep_snoc b : words (b ++ [pathSeparator]) = words b.
Proof. rewrite words_app. apply app_nil_r. Qed.

Lemma words_trimLeft s : words (trimLeft pathSeparator s) = words s.
Proof.
  induction s as [|c s IH]; cbn [trimLeft]; [done|]. destruct (Z.eqb_spec c pathSeparator) as [->|]; [|done].
  by rewrite words_sep_cons.
Qed.
Lemma words_trimRight s : words (reverse (trimLeft pathSeparator (reverse s))) = words s.
Proof.
  rewrite <-(reverse_involutive s) at 2. generalize (reverse s). clear s. intros s.
  induction s as [|c s IH]; cbn [trimLeft]; [done|]. destruct (Z.eqb_spec c pathSeparator) as [->|]; [|done].
  by rewrite reverse_cons, words_sep_snoc.
Qed.

(** The code's trimming and splitting is just splitting and dropping empty pieces. *)
Lemma normalizePath_words p : normalizePath p = words p.
Proof.
  unfold normalizePath. destruct (decide (p = [])) as [->|_]; [reflexivity|].
  pose proof (words_trimRight (trimLeft pathSeparator p)) as H. rewrite words_trimLeft in H.
  unfold trim. case_decide as Et; [by rewrite Et in H|done].
Qed.

Definition segment (w : bytes) : Prop := w ≠ [] ∧ pathSeparator ∉ w.
Lemma split_noslash sep s : Forall (λ w, sep ∉ w) (split sep s).
Proof.
  induction s as [|c s IH]; cbn; [by repeat constructor; apply not_elem_of_nil|].
  destruct (Z.eqb_spec c sep) as [->|Hne]; [by constructor; [apply not_elem_of_nil|]|].
  destruct (split sep s); inversion IH; subst; constructor; try done; apply not_elem_of_cons; split; auto using not_elem_of_nil.
Qed.
Lemma split_segment w : pathSeparator ∉ w → split pathSeparator w = [w].
Proof.
  induction w as [|c w IH]; [done|]. rewrite not_elem_of_cons. intros [Hc Hw]. cbn.
  destruct (Z.eqb_spec c pathSeparator); [by subst|]. by rewrite IH.
Qed.

(** [strings.Join(ws, "/")]. *)
Fixpoint join (ws : list bytes) : bytes :=
  match ws with [] => [] | [w] => w | w :: ws => w ++ pathSeparator :: join ws end.

Lemma words_segment w : segment w → words w = [w].
Proof. intros [Hw Hs]. unfold words. rewrite split_segment by done. by rewrite filter_cons_True. Qed.
Lemma words_join ws : Forall segment ws → words (join ws) = ws.
Proof.
  induction ws as [|x xs IH]; intros Hs; [done|]. apply Forall_cons in Hs as [Hw Hws]. destruct xs as [|y ys]; [by apply words_segment|].
  change (join (x :: y :: ys)) with (x ++ pathSeparator :: join (y :: ys)). by rewrite words_app, IH, words_segment.
Qed.
Lemma words_segments s : Forall segment (words s).
Proof.
  apply Forall_forall. intros w Hw. apply list_elem_of_filter in Hw as [Hne Hin]. split; [done|].
  by apply (proj1 (Forall_forall _ _) (split_noslash pathSeparator s)).
Qed.

(** ** The index as a set of pairs *)
Definition holds (n : PatternNode) (segs : list bytes) (k : bytes) : Prop :=
  ∃ m, findNode segs n = Some m ∧ k ∈ node_keys m.

Lemma holds_nil n k : holds n [] k ↔ k ∈ node_keys n.
Proof. unfold holds. cbn. split; [by intros (m & [= <-] & H)|by eauto]. Qed.
Lemma holds_cons n s segs k : holds n (s :: segs) k ↔ ∃ c, node_children n !! s = Some c ∧ holds c segs k.
Proof.
  unfold holds. cbn. split.
  - intros (m & H & Hk). destruct (node_children n !! s) as [c|]; [by eauto|done].
  - intros (c & -> & m & H & Hk). eauto.
Qed.
Lemma holds_new segs k : ¬ holds newPatternNode segs k.
Proof.
  destruct segs as [|s segs]; rewrite ?holds_nil, ?holds_cons; cbn; [set_solver|].
  intros (c & H & _). by rewrite lookup_empty in H.
Qed.

Lemma add_at_holds segs k n segs' k' :
  holds (add_at segs k n) segs' k' ↔ (segs' = segs ∧ k' = k) ∨ holds n segs' k'.
Proof.
  revert n segs'. induction segs as [|s segs IH]; intros n [|s' segs']; cbn [add_at]; rewrite ?holds_nil, ?holds_cons; cbn [node_keys node_children].
  - set_solver.
  - split; [by auto|]. by intros [[? _]|?].
  - split; [by auto|]. by intros [[? _]|?].
  - destruct (decide (s' = s)) as [->|Hs].
    + rewrite lookup_insert_eq. split.
      * intros (c & [= <-] & [[-> ->]|H]%IH); [by auto|]. right. destruct (node_children n !! s) as [c|] eqn:E; cbn in H; [by eauto|].
        by apply holds_new in H.
      * intros H. eexists. split; [done|]. apply IH. destruct H as [[[= ->] ->]|(c & -> & H)]; by auto.
    + rewrite lookup_insert_ne by done. split; [by auto|]. by intros [[[= ? _] _]|?].
Qed.

Lemma remove_at_holds segs k n segs' k' :
  holds (remove_at segs k n) segs' k' ↔ holds n segs' k' ∧ ¬ (segs' = segs ∧ k' = k).
Proof.
  revert n segs'. induction segs as [|s segs IH]; intros n [|s' segs']; cbn [remove_at].
  - rewrite !holds_nil. cbn. set_solver.
  - rewrite !holds_cons. cbn. split; [|by intros [? _]]. intros H. split; [done|]. by intros [? _].
  - destruct (node_children n !! s); rewrite !holds_nil; cbn; split; try tauto; intros H; (split; [done|]); by intros [? _].
  - destruct (node_children n !! s) as [c|] eqn:E; rewrite !holds_cons; cbn [node_children].
    + destruct (decide (s' = s)) as [->|Hs].
      * rewrite lookup_insert_eq, E. split.
        -- intros (c' & [= <-] & [H Hn]%IH). split; [by eauto|]. intros [[= ->] ->]. by apply Hn.
        -- intros [(c' & [= <-] & H) Hn]. eexists. split; [done|]. apply IH. split; [done|]. intros [-> ->]. by apply Hn.
      * rewrite lookup_insert_ne by done. split; [|by intros [? _]]. intros H. split; [done|]. by intros [[= ? _] _].
    + split; [|by intros [? _]]. intros H. split; [done|]. intros [[= -> ->] ->]. destruct H as (c & Hc & _). congruence.
Qed.

Lemma RemoveKey_holds p k n segs' k' :
  holds (RemoveKey p k n) segs' k' ↔ holds n segs' k' ∧ ¬ (segs' = normalizePath p ∧ k' = k).
Proof.
  unfold RemoveKey. destruct (findNode (normalizePath p) n) eqn:E; [apply remove_at_holds|].
  split; [|by intros [? _]]. intros H. split; [done|]. intros [-> ->]. destruct H as (m & Hm & _). congruence.
Qed.

(** ** Collecting a subtree *)
Fixpoint depth (n : PatternNode) : nat :=
  match n with Node cs _ => S (map_fold (λ _ c acc, Nat.max (depth c) acc) 0%nat cs) end.
Lemma depth_child n s c : node_children n !! s = Some c → (depth c < depth n)%nat.
Proof.
  destruct n as [cs ks]. cbn [node_children depth]. intros H. apply Nat.lt_succ_r. revert H.
  apply (map_fold_weak_ind (λ r m, m !! s = Some c → (depth c ≤ r)%nat)); [by rewrite lookup_empty|].
  intros i x m r _ IH [[_ ->]|[_ H%IH]]%lookup_insert_Some; lia.
Qed.

Lemma collect_children (o : rangeOrder) (cs : gmap bytes PatternNode) k :
  k ∈ concat (range o (map_fold (λ _ c acc, collectAllKeys o c :: acc) [] cs)) ↔
  ∃ s c, cs !! s = Some c ∧ k ∈ collectAllKeys o c.
Proof.
  rewrite range_perm.
  apply (map_fold_weak_ind (λ r m, k ∈ concat r ↔ ∃ s c, m !! s = Some c ∧ k ∈ collectAllKeys o c)); cbn.
  - rewrite elem_of_nil. split; [done|]. intros (s & c & H & _). by rewrite lookup_empty in H.
  - intros i x m r Hi IH. rewrite elem_of_app, IH. split.
    + intros [H|(s & c & H & Hk)]; [exists i, x; by rewrite lookup_insert_eq|].
      exists s, c. rewrite lookup_insert_ne; [done|]. intros ->. congruence.
    + intros (s & c & [[_ <-]|[_ H]]%lookup_insert_Some & Hk); [by left|]. right. by exists s, c.
Qed.

Lemma collectAllKeys_holds (o : rangeOrder) n k : k ∈ collectAllKeys o n ↔ ∃ segs, holds n segs k.
Proof.
  remember (depth n) as d eqn:Ed. revert n Ed. induction (lt_wf d) as [d _ IH]. intros n ->.
  assert (k ∈ collectAllKeys o n ↔ k ∈ node_keys n ∨ ∃ s c, node_children n !! s = Some c ∧ k ∈ collectAllKeys o c) as ->.
  { destruct n as [cs ks]. cbn [collectAllKeys node_keys node_children]. by rewrite elem_of_app, elem_of_range, elem_of_elements, collect_children. }
  split.
  - intros [H|(s & c & Hc & Hk)]; [exists []; by apply holds_nil|].
    apply (IH (depth c) (depth_child _ _ _ Hc) c eq_refl) in Hk as [segs H]. exists (s :: segs). apply holds_cons. eauto.
  - intros [[|s segs] H]; [left; by apply holds_nil|]. right. apply holds_cons in H as (c & Hc & H). exists s, c. split; [done|].
    apply (IH (depth c) (depth_child _ _ _ Hc) c eq_refl). eauto.
Qed.

Lemma findNode_app segs rest n : findNode (segs ++ rest) n = m ← findNode segs n; findNode rest m.
Proof.
  revert n. induction segs as [|s segs IH]; intros n; cbn [app findNode]; [done|].
  destruct (node_children n !! s); [apply IH|done].
Qed.
Lemma holds_under n segs m rest k : findNode segs n = Some m → holds n (segs ++ rest) k ↔ holds m rest k.
Proof. intros E. unfold holds. by rewrite findNode_app, E. Qed.

(** What a pattern asks for. *)
Definition wildcard (pattern : bytes) : bool := hasSuffix wildcardChar pattern.
Definition matches (pattern : bytes) (segs : list bytes) : Prop :=
  if wildcard pattern then normalizePath (removelast pattern) `prefix_of` segs else segs = normalizePath pattern.

Lemma GetMatchingKeys_holds (o : rangeOrder) pattern n k :
  k ∈ GetMatchingKeys o pattern n ↔ ∃ segs, holds n segs k ∧ matches pattern segs.
Proof.
  assert (∀ p, normalizePath (if decide (p = []) then rootPath else p) = normalizePath p) as Hroot by (intros p; by case_decide; subst).
  assert (hasSuffix wildcardChar (if decide (pattern = []) then rootPath else pattern) = wildcard pattern) as Hw by (by case_decide; subst).
  unfold GetMatchingKeys, matches. rewrite Hw. destruct (wildcard pattern) eqn:E.
  - assert (pattern ≠ []) as Hne by (by intros ->). rewrite decide_False by done. unfold trimSuffix. fold (wildcard pattern). rewrite E.
    set (segs := normalizePath (removelast pattern)). destruct (findNode segs n) as [m|] eqn:Em.
    + rewrite collectAllKeys_holds. split.
      * intros [rest H]. exists (segs ++ rest). split; [by apply (holds_under n segs m)|by apply prefix_app_r].
      * intros (? & H & [rest ->]). exists rest. by apply (holds_under n segs m).
    + rewrite elem_of_nil. split; [done|]. intros (? & (m & Hm & _) & [rest ->]). rewrite findNode_app, Em in Hm. done.
  - rewrite Hroot. destruct (findNode (normalizePath pattern) n) as [m|] eqn:Em.
    + assert (k ∈ collectDirectKeys o m ↔ k ∈ node_keys m) as ->.
      { unfold collectDirectKeys. destruct (decide (size _ = _)) as [Es|]; [|by rewrite elem_of_range, elem_of_elements].
        apply size_empty_inv in Es. rewrite elem_of_nil. set_solver. }
      split; [intros H; eexists; split; [exists m|]; done|]. intros (? & (m' & Hm & Hk) & ->). congruence.
    + rewrite elem_of_nil. split; [done|]. intros (? & (m & Hm & _) & ->). congruence.
Qed.

(** ** Theorems *)
Inductive op := Add (path key : bytes) | Remove (path key : bytes) | Reset.
Definition exec (n : PatternNode) (c : op) : PatternNode :=
  match c with Add p k => AddKey p k n | Remove p k => RemoveKey p k n | Reset => Clear n end.
(** The specification: keys filed under normalised paths. *)
Definition spec_exec (S : gset (list bytes * bytes)) (c : op) : gset (list bytes * bytes) :=
  match c with
  | Add p k => {[ (normalizePath p, k) ]} ∪ S
  | Remove p k => S ∖ {[ (normalizePath p, k) ]}
  | Reset => ∅
  end.

Lemma exec_spec n S c :
  (∀ segs k, holds n segs k ↔ (segs, k) ∈ S) → ∀ segs k, holds (exec n c) segs k ↔ (segs, k) ∈ spec_exec S c.
Proof.
  intros HR segs k. destruct c as [p k'|p k'|]; cbn.
  - unfold AddKey. rewrite add_at_holds, HR, elem_of_union, elem_of_singleton. split; intros [?|?]; auto; left; [|by simplify_eq].
    by destruct_and!; subst.
  - rewrite RemoveKey_holds, HR, elem_of_difference, elem_of_singleton. split; intros [? Hn]; (split; [done|]); contradict Hn; [by simplify_eq|].
    by destruct Hn as [-> ->].
  - split; [intros H; by apply holds_new in H|set_solver].
Qed.

(** C19.  The trie implements a set of (path, key) pairs: after any sequence of additions,
    removals and resets a pattern returns exactly the keys filed under the path, or, with a
    trailing star, under a path that starts with the segments before the star. *)
Theorem pattern_index_refines_set ops o pattern k :
  k ∈ GetMatchingKeys o pattern (foldl exec NewPatternIndex ops) ↔
  ∃ segs, (segs, k) ∈ foldl spec_exec ∅ ops ∧ matches pattern segs.
Proof.
  assert (∀ segs k, holds (foldl exec NewPatternIndex ops) segs k ↔ (segs, k) ∈ foldl spec_exec ∅ ops) as HR.
  { assert (∀ segs k, holds NewPatternIndex segs k ↔ (segs, k) ∈ (∅ : gset (list bytes * bytes))) as H0
      by (intros; split; [by intros ?%holds_new|set_solver]).
    revert H0. generalize NewPatternIndex. generalize (∅ : gset (list bytes * bytes)).
    induction ops as [|c ops IH]; intros S n H0; cbn; [done|]. apply IH. by apply exec_spec. }
  rewrite GetMatchingKeys_holds. by setoid_rewrite HR.
Qed.

(** Normalisation is canonical: its segments are non-empty and contain no slash, it gives
    back any such segments joined by slashes, and slashes only separate: wherever a path is
    cut at a slash, its segments are those of the two parts.  So leading, trailing and
    repeated slashes do not matter. *)
Theorem normalizePath_canonical (p a b : bytes) (ws : list bytes) :
  Forall segment (normalizePath p) ∧
  (Forall segment ws → normalizePath (join ws) = ws) ∧
  normalizePath (join (normalizePath p)) = normalizePath p ∧
  normalizePath (a ++ pathSeparator :: b) = normalizePath a ++ normalizePath b.
Proof.
  rewrite !normalizePath_words. split_and!.
  - apply words_segments.
  - apply words_join.
  - apply words_join, words_segments.
  - apply words_app.
Qed.
End PatternIndex.
