(* ===== verification/Http.v ===== *)
(** * HTTP as the middleware sees it

    What [src/middleware.go] uses of [net/http], [strings] and [strconv]: header maps with
    canonical names, requests, and a response writer whose status line and headers are fixed
    by the first [WriteHeader] or [Write].  Strings are lists of bytes.  A handler is the list
    of calls it makes on its writer for a request. *)
From Stdlib Require Import ZArith Lia String.
From stdpp Require Import base numbers list gmap sets.
From S2P Require Import Prelude Hash PatternIndex.
Local Open Scope Z_scope.

Module Http.
Import PatternIndex.

Definition str : string → bytes := Hash.string_bytes.

(** ** [strings], [strconv] *)
Fixpoint hasPrefix (p s : bytes) : bool :=
  match p, s with
  | [], _ => true
  | a :: p, b :: s => (a =? b) && hasPrefix p s
  | _ :: _, [] => false
  end.
Definition trimPrefix (p s : bytes) : bytes := if hasPrefix p s then drop (length p) s else s.
Fixpoint contains (sub s : bytes) : bool :=
  hasPrefix sub s || match s with [] => false | _ :: s => contains sub s end.

Definition isSpace (c : Z) : bool := (c =? 32) || ((9 <=? c) && (c <=? 13)).
Fixpoint dropSpace (s : bytes) : bytes :=
  match s with c :: s' => if isSpace c then dropSpace s' else s | [] => [] end.
(** [strings.TrimSpace], for ASCII white space. *)
Definition trimSpace (s : bytes) : bytes := reverse (dropSpace (reverse (dropSpace s))).

Definition isDigit (c : Z) : bool := (48 <=? c) && (c <=? 57).
Definition digits (s : bytes) : Z := foldl (λ n c, n * 10 + (c - 48)) 0 s.
(** [strconv.Atoi]: an optional sign and decimal digits within the range of [int]. *)
Definition Atoi (s : bytes) : option Z :=
  let '(sign, ds) := match s with 45 :: ds => (-1, ds) | 43 :: ds => (1, ds) | _ => (1, s) end in
  if decide (ds = []) then None
  else if negb (forallb isDigit ds) then None
  else let n := sign * digits ds in
       if (- 2 ^ 63 <=? n) && (n <? 2 ^ 63) then Some n else None.

(** ** Headers *)
Definition Header : Type := gmap bytes (list bytes).

Definition isLower (c : Z) : bool := (97 <=? c) && (c <=? 122).
Definition isUpper (c : Z) : bool := (65 <=? c) && (c <=? 90).
(** [strings.ToLower], for ASCII. *)
Definition toLower (b : bytes) : bytes := (λ c, if isUpper c then c + 32 else c) <$> b.
Definition validHeaderFieldByte (c : Z) : bool :=
  isLower c || isUpper c || isDigit c || bool_decide (c ∈ str "!#$%&'*+-.^_`|~").
Fixpoint canonBytes (upper : bool) (s : bytes) : bytes :=
  match s with
  | [] => []
  | c :: s =>
      let c := if upper && isLower c then c - 32 else if negb upper && isUpper c then c + 32 else c in
      c :: canonBytes (c =? 45) s
  end.
Definition canon (name : bytes) : bytes :=
  if forallb validHeaderFieldByte name then canonBytes true name else name.

Definition hget (name : bytes) (h : Header) : bytes :=
  match h !! canon name with Some (v :: _) => v | _ => [] end.
Definition hset (name v : bytes) (h : Header) : Header := <[canon name := [v]]> h.
Definition hadd (name v : bytes) (h : Header) : Header :=
  <[canon name := default [] (h !! canon name) ++ [v]]> h.
Definition hdel (name : bytes) (h : Header) : Header := delete (canon name) h.

#[global] Arguments str : simpl never.
#[global] Arguments canon : simpl never.
#[global] Arguments hset : simpl never.

Lemma hset_ne name v h n : n ≠ canon name → hset name v h !! n = h !! n.
Proof. intros Hne. apply (lookup_insert_ne (M := gmap bytes)). congruence. Qed.

(** ** Requests and responses *)
Record Request := MkRequest { Method : bytes; URLString : bytes; URLPath : bytes; ReqHeader : Header }.

Record Response := MkResponse { Status : Z; RespHeader : Header; RespBody : bytes }.

(** The server's writer: the header map, the status line and headers once sent, the body. *)
Record writer := MkWriter { wheader : Header; sent : option (Z * Header); wbody : bytes }.
Definition new_writer : writer := MkWriter ∅ None [].
Definition put_header (h : Header) (w : writer) : writer := MkWriter h (sent w) (wbody w).

(** Only the first call counts, informational statuses apart. *)
Definition writeHeader (code : Z) (w : writer) : writer :=
  match sent w with
  | Some _ => w
  | None => if (100 <=? code) && (code <? 200) && negb (code =? 101) then w
            else MkWriter (wheader w) (Some (code, wheader w)) (wbody w)
  end.
Definition write (data : bytes) (w : writer) : writer :=
  let w := writeHeader 200 w in MkWriter (wheader w) (sent w) (wbody w ++ data).

(** What the client receives when the handler returns. *)
Definition finish (w : writer) : Response :=
  let w := writeHeader 200 w in
  match sent w with
  | Some (code, h) => MkResponse code h (wbody w)
  | None => MkResponse 200 (wheader w) (wbody w)
  end.

(** ** Handlers *)
Inductive action :=
  | HeaderSet (name v : bytes)
  | HeaderAdd (name v : bytes)
  | HeaderDel (name : bytes)
  | WriteHeader (code : Z)
  | Write (data : bytes).
Definition handler : Type := Request → list action.

Definition act_header (a : action) (h : Header) : Header :=
  match a with
  | HeaderSet n v => hset n v h
  | HeaderAdd n v => hadd n v h
  | HeaderDel n => hdel n h
  | _ => h
  end.
(** A handler on the server's own writer. *)
Definition act (w : writer) (a : action) : writer :=
  match a with
  | WriteHeader code => writeHeader code w
  | Write data => write data w
  | _ => put_header (act_header a (wheader w)) w
  end.
Definition serve_plain (next : handler) (r : Request) : Response := finish (foldl act new_writer (next r)).
End Http.
