(* ===== verification/Middleware.v ===== *)
(** * The HTTP cache middleware ([src/middleware.go])

    The response recorder, key generators, cache policies and the middleware itself over any
    cache that satisfies [CacheLaws].  MD5 in hexadecimal, the formatting of times and the
    parsing of RFC 1123 dates are parameters. *)
From Stdlib Require Import ZArith Lia String.
From stdpp Require Import base numbers list gmap sets.
From S2P Require Import Prelude Hash Shard Cache CacheIface PatternIndex Http.
Local Open Scope Z_scope.

Module Middleware.
Import PatternIndex Http.

(** ** The recorder *)
Record responseWriter := MkRW { under : writer; statusCode : Z; buf : bytes; headers : Header }.
Definition newResponseWriter (w : writer) : responseWriter := MkRW w 200 [] ∅.

(** The writer's entries replace those recorded before. *)
Definition rw_WriteHeader (code : Z) (rw : responseWriter) : responseWriter :=
  MkRW (writeHeader code (under rw)) code (buf rw) (wheader (under rw) ∪ headers rw).
Definition rw_Write (data : bytes) (rw : responseWriter) : responseWriter :=
  MkRW (write data (under rw)) (statusCode rw) (buf rw ++ data) (headers rw).

Definition rw_act (rw : responseWriter) (a : action) : responseWriter :=
  match a with
  | WriteHeader code => rw_WriteHeader code rw
  | Write data => rw_Write data rw
  | _ => MkRW (act (under rw) a) (statusCode rw) (buf rw) (headers rw)
  end.

(** ** Cached responses, policies, keys *)
Record CachedResponse := MkCached { CStatus : Z; CHeaders : Header; CBody : bytes; CachedAt : Z }.

(** [now] is the clock reading of [time.Until]. *)
Definition CachePolicy : Type := Z → Request → Z → Header → bytes → bool * Z.
Definition KeyGenerator : Type := Request → bytes.

Record MiddlewareConfig := MkMConfig {
  MMaxSize : Z; MShardCount : Z; MCleanupInterval : Z; MDefaultTTL : Z; MEvictionPolicy : EvictionPolicy;
  MAdmissionResetInterval : Z; MStatsEnabled : bool;
  CacheableMethods : list bytes; CacheableStatus : list Z; IgnoreHeaders : list bytes; MaxBodySize : Z;
  HitHeader : bytes; MissHeader : bytes }.

Definition DefaultMiddlewareConfig : MiddlewareConfig := {|
  MMaxSize := 100000; MShardCount := 16; MCleanupInterval := 5 * minute; MDefaultTTL := 5 * minute;
  MEvictionPolicy := FIFO; MAdmissionResetInterval := 0; MStatsEnabled := true;
  CacheableMethods := [str "GET"; str "HEAD"];
  CacheableStatus := [200; 201; 300; 301; 302; 304; 404; 410];
  IgnoreHeaders := [str "Date"; str "Server"; str "X-Request-Id"; str "X-Trace-Id"];
  MaxBodySize := 10 * 1024 * 1024;
  HitHeader := str "X-Cache"; MissHeader := str "X-Cache" |}.

(** The directives of [Cache-Control], in order; the first usable [max-age] counts. *)
Fixpoint maxAge_parts (parts : list bytes) : Z :=
  match parts with
  | [] => 0
  | part :: parts =>
      let part := trimSpace part in
      if hasPrefix (str "max-age=") part then
        match Atoi (skipn 8 part) with
        | Some seconds => if 0 <? seconds then i64 (seconds * second) else maxAge_parts parts
        | None => maxAge_parts parts
        end
      else maxAge_parts parts
  end.
Definition extractMaxAge (cacheControl : bytes) : Z :=
  if decide (cacheControl = []) then 0 else maxAge_parts (split 44 cacheControl).

Definition AlwaysCache (ttl : Z) : CachePolicy := λ _ _ status _ _, ((200 <=? status) && (status <? 300), ttl).
Definition NeverCache : CachePolicy := λ _ _ _ _ _, (false, 0).
(** The rules are a map: the first matching prefix in iteration order counts. *)
Definition CacheByContentType (o : rangeOrder) (rules : gmap bytes Z) (defaultTTL : Z) : CachePolicy :=
  λ _ _ status h _,
    if (status <? 200) || (300 <=? status) then (false, 0)
    else
      let contentType := hget (str "Content-Type") h in
      match filter (λ p, hasPrefix p.1 contentType = true) (range o (map_to_list rules)) with
      | (_, ttl) :: _ => (true, ttl)
      | [] => (true, defaultTTL)
      end.
Definition CacheBySize (minSize maxSize ttl : Z) : CachePolicy :=
  λ _ _ status _ body,
    if (status <? 200) || (300 <=? status) then (false, 0)
    else ((minSize <=? Z.of_nat (length body)) && (Z.of_nat (length body) <=? maxSize), ttl).

Definition PathBasedKeyGenerator : KeyGenerator := λ r, Method r ++ [58] ++ URLPath r.
Definition KeyWithoutQuery : KeyGenerator := λ r, Method r ++ [58] ++ URLPath r.

(** What the loop over the vary headers feeds to the hash. *)
Definition vary_input (vary : list bytes) (r : Request) : bytes :=
  concat ((λ h, let v := hget h (ReqHeader r) in if decide (v = []) then [] else h ++ [58] ++ v) <$> vary).

(** [strings.SplitN(key, ":", 2)]. *)
Fixpoint after_colon (s : bytes) : option bytes :=
  match s with [] => None | c :: s => if c =? 58 then Some s else after_colon s end.
Definition PathExtractorFromKey (key : bytes) : bytes :=
  match after_colon key with Some p => p | None => key end.
Definition DefaultPathExtractor (key : bytes) : bytes := [].

(** ** The middleware *)
Section Middleware.
Context {C : Type} `{Ops : CacheOps C bytes CachedResponse}.
Context (md5hex : bytes → bytes) (formatRFC3339 formatDuration : Z → bytes) (parseRFC1123 : bytes → option Z).

Definition DefaultKeyGenerator : KeyGenerator := λ r,
  md5hex (Method r ++ URLString r ++ vary_input [str "Accept"; str "Accept-Encoding"; str "Authorization"; str "Accept-Language"] r).
Definition KeyWithVaryHeaders (varyHeaders : list bytes) : KeyGenerator := λ r,
  md5hex (Method r ++ URLString r ++ vary_input varyHeaders r).
Definition KeyWithoutQueryHashed : KeyGenerator := λ r,
  md5hex (Method r ++ URLPath r ++ vary_input [str "Accept"; str "Accept-Encoding"; str "Authorization"] r).
Definition KeyWithUserID (userIDHeader : bytes) : KeyGenerator := λ r,
  let userID := hget userIDHeader (ReqHeader r) in
  md5hex (Method r ++ URLString r ++ if decide (userID = []) then [] else str "user:" ++ userID).

Definition DefaultCachePolicy (config : MiddlewareConfig) : CachePolicy :=
  λ now r status h body,
    if negb (bool_decide (Method r ∈ CacheableMethods config)) then (false, 0)
    else if negb (bool_decide (status ∈ CacheableStatus config)) then (false, 0)
    else if MaxBodySize config <? Z.of_nat (length body) then (false, 0)
    else
      let cacheControl := hget (str "Cache-Control") h in
      if contains (str "no-cache") cacheControl || contains (str "no-store") cacheControl ||
         contains (str "private") cacheControl then (false, 0)
      else
        let maxAge := extractMaxAge cacheControl in
        if 0 <? maxAge then (true, maxAge)
        else
          let expires := hget (str "Expires") h in
          match (if decide (expires = []) then None else parseRFC1123 expires) with
          | Some t => if 0 <? t - now then (true, t - now) else (true, MDefaultTTL config)
          | None => (true, MDefaultTTL config)
          end.

Record HTTPCacheMiddleware := MkMiddleware {
  cache : C; keyGen : KeyGenerator; policy : CachePolicy;
  onHit : bool; onMiss : bool; onSet : bool;
  hitHeader : bytes; missHeader : bytes; patternIdx : PatternNode; pathExtract : bytes → bytes }.
Definition put_cache (c : C) (idx : PatternNode) (m : HTTPCacheMiddleware) : HTTPCacheMiddleware :=
  MkMiddleware c (keyGen m) (policy m) (onHit m) (onMiss m) (onSet m) (hitHeader m) (missHeader m) idx (pathExtract m).

Definition NewHTTPCacheMiddleware (newCache : Config → C) (config : MiddlewareConfig) : HTTPCacheMiddleware :=
  let config := if MMaxSize config =? 0 then DefaultMiddlewareConfig else config in
  let cacheConfig := {| MaxSize := MMaxSize config; ShardCount := MShardCount config;
    CleanupInterval := MCleanupInterval config; DefaultTTL := MDefaultTTL config; Policy := MEvictionPolicy config;
    StatsEnabled := MStatsEnabled config; AdmissionResetInterval := MAdmissionResetInterval config;
    AdmissionScanRateThreshold := 0; AdmissionScanMissThreshold := 0; AdmissionScanRecencyThreshold := 0;
    AdmissionRecencyTieBreak := 0 |} in
  let dflt h := if decide (h = []) then str "X-Cache" else h in
  MkMiddleware (newCache cacheConfig) DefaultKeyGenerator (DefaultCachePolicy config) false false false
    (dflt (HitHeader config)) (dflt (MissHeader config)) NewPatternIndex DefaultPathExtractor.

Inductive event := OnHit (key : bytes) | OnMiss (key : bytes) | OnSet (key : bytes) (ttl : Z).

Definition SetKeyGenerator (g : KeyGenerator) (m : HTTPCacheMiddleware) : HTTPCacheMiddleware :=
  MkMiddleware (cache m) g (policy m) (onHit m) (onMiss m) (onSet m) (hitHeader m) (missHeader m) (patternIdx m) (pathExtract m).
Definition SetCachePolicy (p : CachePolicy) (m : HTTPCacheMiddleware) : HTTPCacheMiddleware :=
  MkMiddleware (cache m) (keyGen m) p (onHit m) (onMiss m) (onSet m) (hitHeader m) (missHeader m) (patternIdx m) (pathExtract m).
Definition SetPathExtractor (x : bytes → bytes) (m : HTTPCacheMiddleware) : HTTPCacheMiddleware :=
  MkMiddleware (cache m) (keyGen m) (policy m) (onHit m) (onMiss m) (onSet m) (hitHeader m) (missHeader m) (patternIdx m) x.
Definition setCallbacks (hit miss set_ : bool) (m : HTTPCacheMiddleware) : HTTPCacheMiddleware :=
  MkMiddleware (cache m) (keyGen m) (policy m) hit miss set_ (hitHeader m) (missHeader m) (patternIdx m) (pathExtract m).
Definition Close (m : HTTPCacheMiddleware) (o : rangeOrder) : HTTPCacheMiddleware :=
  put_cache (cclose (cache m) o) (patternIdx m) m.

(** The clock readings of one request. *)
Record moment := MkMoment { m_now : Z; m_now' : Z; m_policy : Z; m_at : Z; m_rt : runtime; m_age : Z }.

Definition serveCached (m : HTTPCacheMiddleware) (now : Z) (w : writer) (cached : CachedResponse) (key : bytes)
    : writer * list event :=
  let h := CHeaders cached ∪ wheader w in
  let h := hset (hitHeader m) (str "HIT") h in
  let h := hset (str "X-Cache-Date") (formatRFC3339 (CachedAt cached)) h in
  let h := hset (str "X-Cache-Age") (formatDuration (now - CachedAt cached)) h in
  let w := writeHeader (CStatus cached) (put_header h w) in
  (write (CBody cached) w, if onHit m then [OnHit key] else []).

(** The part of [Middleware] after [next] has run. *)
Definition record_response (m : HTTPCacheMiddleware) (t : moment) (r : Request) (key : bytes) (rw : responseWriter)
    : HTTPCacheMiddleware * list event :=
  let '(shouldCache, ttl) := policy m (m_policy t) r (statusCode rw) (headers rw) (buf rw) in
  if shouldCache then
    let cached := MkCached (statusCode rw) (headers rw) (buf rw) (m_at t) in
    let '(c, _) := cset (cache m) key cached ttl (m_rt t) in
    let path := pathExtract m key in
    let idx := if decide (path = []) then patternIdx m else AddKey path key (patternIdx m) in
    (put_cache c idx m, if onSet m then [OnSet key ttl] else [])
  else (m, []).

Definition ServeHTTP (m : HTTPCacheMiddleware) (next : handler) (t : moment) (r : Request)
    : HTTPCacheMiddleware * Response * list event :=
  let key := keyGen m r in
  let '(c, found) := cget (cache m) key (m_now t) (m_now' t) in
  let m := put_cache c (patternIdx m) m in
  match found with
  | Some cached => let '(w, es) := serveCached m (m_age t) new_writer cached key in (m, finish w, es)
  | None =>
      let es := if onMiss m then [OnMiss key] else [] in
      let rw := foldl rw_act (newResponseWriter new_writer) (next r) in
      let '(m, es') := record_response m t r key rw in
      let w := put_header (hset (missHeader m) (str "MISS") (wheader (under rw))) (under rw) in
      (m, finish w, es ++ es')
  end.

Definition Clear (m : HTTPCacheMiddleware) (o : rangeOrder) : HTTPCacheMiddleware :=
  put_cache (cclear (cache m) o) (PatternIndex.Clear (patternIdx m)) m.

Definition invalidate_step (st : HTTPCacheMiddleware * Z) (key : bytes) : HTTPCacheMiddleware * Z :=
  let '(m, removed) := st in
  let '(c, ok) := cdelete (cache m) key in
  if ok then
    let path := pathExtract m key in
    let idx := if decide (path = []) then patternIdx m else RemoveKey path key (patternIdx m) in
    (put_cache c idx m, removed + 1)
  else (put_cache c (patternIdx m) m, removed).
Definition Invalidate (m : HTTPCacheMiddleware) (o : rangeOrder) (urlPattern : bytes) : HTTPCacheMiddleware * Z :=
  foldl invalidate_step (m, 0) (GetMatchingKeys o urlPattern (patternIdx m)).

Definition invalidateFunc_step (fn : bytes → bool) (st : HTTPCacheMiddleware * Z) (key : bytes) : HTTPCacheMiddleware * Z :=
  let '(m, removed) := st in
  if fn key then
    let '(c, ok) := cdelete (cache m) key in
    (put_cache c (patternIdx m) m, if ok then removed + 1 else removed)
  else (m, removed).
Definition InvalidateByFunc (m : HTTPCacheMiddleware) (now : Z) (o : rangeOrder) (fn : bytes → bool) : HTTPCacheMiddleware * Z :=
  foldl (invalidateFunc_step fn) (m, 0) (ckeys (cache m) now o).

(** ** The recorder is transparent and exact *)
Lemma rw_under rw acts : under (foldl rw_act rw acts) = foldl act (under rw) acts.
Proof. revert rw. induction acts as [|a acts IH]; intros rw; cbn; [done|]. rewrite IH. by destruct a. Qed.

(** A handler that sets its headers, calls [WriteHeader] once and then writes. *)
Definition header_op (a : action) : bool := match a with WriteHeader _ | Write _ => false | _ => true end.
Definition well_behaved (code : Z) (acts : list action) : Prop :=
  ∃ pre datas, acts = pre ++ WriteHeader code :: (Write <$> datas) ∧ forallb header_op pre = true ∧ 200 ≤ code.

Lemma header_ops_act pre w :
  forallb header_op pre = true → foldl act w pre = put_header (foldl (λ h a, act_header a h) (wheader w) pre) w.
Proof.
  revert w. induction pre as [|a pre IH]; intros w; cbn; [by destruct w|]. intros [Ha Hp]%andb_prop.
  rewrite IH by done. by destruct a.
Qed.
Lemma header_ops_rw pre rw :
  forallb header_op pre = true →
  foldl rw_act rw pre = MkRW (foldl act (under rw) pre) (statusCode rw) (buf rw) (headers rw).
Proof.
  revert rw. induction pre as [|a pre IH]; intros rw; cbn; [by destruct rw|]. intros [Ha Hp]%andb_prop.
  rewrite IH by done. by destruct a.
Qed.
Lemma writes_act datas w x :
  sent w = Some x → foldl act w (Write <$> datas) = MkWriter (wheader w) (Some x) (wbody w ++ concat datas).
Proof.
  revert w. induction datas as [|d datas IH]; intros w Hs; cbn.
  { rewrite app_nil_r, <-Hs. by destruct w. }
  assert (write d w = MkWriter (wheader w) (Some x) (wbody w ++ d)) as -> by (unfold write, writeHeader; by rewrite !Hs).
  rewrite IH by done. cbn. by rewrite <-app_assoc.
Qed.
Lemma writes_rw datas rw :
  foldl rw_act rw (Write <$> datas) =
  MkRW (foldl act (under rw) (Write <$> datas)) (statusCode rw) (buf rw ++ concat datas) (headers rw).
Proof.
  revert rw. induction datas as [|d datas IH]; intros rw; cbn; [rewrite app_nil_r; by destruct rw|].
  rewrite IH. cbn. by rewrite <-app_assoc.
Qed.

Lemma writeHeader_final code w :
  sent w = None → 200 ≤ code → writeHeader code w = MkWriter (wheader w) (Some (code, wheader w)) (wbody w).
Proof.
  intros Hs Hc. unfold writeHeader. rewrite Hs. destruct (Z.ltb_spec code 200); [lia|]. by rewrite andb_false_r.
Qed.

(** What is recorded is what a well-behaved handler answers. *)
Lemma recorded_exact code acts :
  well_behaved code acts →
  let rw := foldl rw_act (newResponseWriter new_writer) acts in
  finish (foldl act new_writer acts) = MkResponse (statusCode rw) (headers rw) (buf rw) ∧ statusCode rw = code.
Proof.
  intros (pre & datas & -> & Hp & Hc). rewrite !foldl_app. cbn [foldl].
  rewrite (header_ops_act pre), (header_ops_rw pre), writes_rw, (header_ops_act pre) by done.
  cbn [act rw_act under newResponseWriter statusCode headers buf rw_WriteHeader].
  set (h := foldl _ _ pre). rewrite writeHeader_final by done. erewrite writes_act by done.
  unfold finish, writeHeader. cbn. split; [|done]. f_equal. by rewrite (right_id_L ∅ (∪)).
Qed.
End Middleware.
End Middleware.
