(* ===== verification/MiddlewareTheorems.v ===== *)
(** * Correctness of the HTTP middleware

    Proved from [CacheLaws], so for every cache configuration: a miss is transparent, a hit
    replays the recorded response, the path index covers what is cached and [Invalidate]
    removes exactly what matches; the decisions of the default policy. *)
From Stdlib Require Import ZArith Lia String.
From stdpp Require Import base numbers list gmap sets.
From S2P Require Import Prelude Hash Admission Shard Eviction Cache CacheInv CacheSpec CacheTheorems CacheIface PatternIndex Http Middleware.
Local Open Scope Z_scope.

Module MiddlewareTheorems.
Import PatternIndex Http Middleware.

Section MiddlewareTheorems.
Context {C : Type} `{Laws : CacheLaws C bytes CachedResponse}.
Context (formatRFC3339 formatDuration : Z → bytes).
Abbreviation middleware := (@HTTPCacheMiddleware C).
Abbreviation ServeHTTP := (ServeHTTP formatRFC3339 formatDuration).
Implicit Types m : middleware.

Lemma record_frame m t r key rw :
  missHeader (record_response m t r key rw).1 = missHeader m ∧ pathExtract (record_response m t r key rw).1 = pathExtract m ∧
  keyGen (record_response m t r key rw).1 = keyGen m ∧ hitHeader (record_response m t r key rw).1 = hitHeader m.
Proof. unfold record_response. destruct (policy m _ _ _ _ _) as [[] ttl]; [|done]. by destruct (cset _ _ _ _ _). Qed.

(** A miss is transparent: the client gets the status and the body the handler would have
    produced without the middleware, and the same headers once the handler has sent anything;
    the miss marker is only added to a response that had not been started. *)
Theorem miss_is_transparent m next t r :
  (cget (cache m) (keyGen m r) (m_now t) (m_now' t)).2 = None →
  let resp := (ServeHTTP m next t r).1.2 in
  let plain := serve_plain next r in
  Status resp = Status plain ∧ RespBody resp = RespBody plain ∧
  RespHeader resp = match sent (foldl act new_writer (next r)) with
                    | Some _ => RespHeader plain
                    | None => hset (missHeader m) (str "MISS") (RespHeader plain)
                    end.
Proof.
  intros Hmiss. unfold Middleware.ServeHTTP, serve_plain. destruct (cget _ _ _ _) as [c found]. cbn in Hmiss. subst found.
  set (m1 := put_cache c (patternIdx m) m). set (rw := foldl rw_act _ _).
  pose proof (record_frame m1 t r (keyGen m r) rw) as (Hm & _). destruct (record_response m1 t r _ rw) as [m2 es]. cbn in *.
  assert (under rw = foldl act new_writer (next r)) as -> by (unfold rw; by rewrite rw_under). rewrite Hm.
  set (w := foldl act new_writer (next r)). unfold finish, writeHeader. cbn. destruct (sent w) as [[code h]|] eqn:Es; cbn; rewrite ?Es; done.
Qed.

(** The response of a hit. *)
Lemma hit_response m next t r c cached :
  cget (cache m) (keyGen m r) (m_now t) (m_now' t) = (c, Some cached) → 200 ≤ CStatus cached →
  let resp := (ServeHTTP m next t r).1.2 in
  Status resp = CStatus cached ∧ RespBody resp = CBody cached ∧
  ∀ n, n ≠ canon (hitHeader m) → n ≠ canon (str "X-Cache-Date") → n ≠ canon (str "X-Cache-Age") →
    RespHeader resp !! n = CHeaders cached !! n.
Proof.
  intros E Hst. unfold Middleware.ServeHTTP. rewrite E. unfold serveCached. cbn [fst snd].
  rewrite writeHeader_final by done. unfold write, writeHeader, finish. cbn. split_and!; [done|done|].
  intros n H1 H2 H3. rewrite !hset_ne by done. by rewrite (right_id_L ∅ (∪)).
Qed.

(** What a cacheable miss stores. *)
Lemma miss_stores m next t r c1 ttl :
  let rw := foldl rw_act (newResponseWriter new_writer) (next r) in
  cget (cache m) (keyGen m r) (m_now t) (m_now' t) = (c1, None) →
  policy m (m_policy t) r (statusCode rw) (headers rw) (buf rw) = (true, ttl) →
  ∃ idx, (ServeHTTP m next t r).1.1 =
    put_cache (cset c1 (keyGen m r) (MkCached (statusCode rw) (headers rw) (buf rw) (m_at t)) ttl (m_rt t)).1 idx m.
Proof.
  intros rw Eg Ep. unfold Middleware.ServeHTTP. rewrite Eg. fold rw. unfold record_response.
  cbn [policy put_cache cache]. rewrite Ep. destruct (cset c1 _ _ ttl _) as [c2 err]. cbn. by eexists.
Qed.

(** The next request for the key, before the entry expires, gets what was recorded. *)
Lemma recorded_is_replayed n m next t1 r1 ttl next' t2 r2 :
  let key := keyGen m r1 in
  let rw := foldl rw_act (newResponseWriter new_writer) (next r1) in
  wf (S (S n)) (cache m) → m_now t1 ≤ m_now' t1 → m_now t2 ≤ m_now' t2 → cadmits (cache m) = true →
  (cget (cache m) key (m_now t1) (m_now' t1)).2 = None → 200 ≤ statusCode rw →
  policy m (m_policy t1) r1 (statusCode rw) (headers rw) (buf rw) = (true, ttl) →
  keyGen m r2 = key → ¬ dead (m_now t2) (cexpiry (cache m) (rt_now (m_rt t1)) ttl) →
  let resp := (ServeHTTP (ServeHTTP m next t1 r1).1.1 next' t2 r2).1.2 in
  Status resp = statusCode rw ∧ RespBody resp = buf rw ∧
  ∀ h, h ≠ canon (hitHeader m) → h ≠ canon (str "X-Cache-Date") → h ≠ canon (str "X-Cache-Age") →
    RespHeader resp !! h = headers rw !! h.
Proof.
  intros key rw Hw Ht1 Ht2 Hadm Hmiss Hcode Hpol Hkey Hlive resp.
  destruct (law_get (S n) (cache m) key (m_now t1) (m_now' t1) Hw Ht1) as (Hw1 & [Ha1 Hx1] & _ & _).
  destruct (cget (cache m) key (m_now t1) (m_now' t1)) as [c1 found] eqn:Eg. cbn [fst snd] in *. subst found.
  destruct (miss_stores m next t1 r1 c1 ttl Eg Hpol) as [idx Em]. fold rw key in Em.
  set (cached := MkCached (statusCode rw) (headers rw) (buf rw) (m_at t1)) in *.
  destruct (law_set (S n) c1 key cached ttl (m_rt t1) Hw1) as (Hw2 & _ & _ & Hfind & _). set (c2 := (cset c1 key cached ttl (m_rt t1)).1) in *.
  destruct (law_get n c2 key (m_now t2) (m_now' t2) Hw2 Ht2) as (_ & _ & Hres & _).
  assert (cfind c2 key = Some (cached, cexpiry (cache m) (rt_now (m_rt t1)) ttl)) as Hc2.
  { destruct Hfind as [Hf|(Hf & _)]; [by rewrite Hf, Hx1|]. rewrite Ha1 in Hf. congruence. }
  rewrite Hc2 in Hres. cbn in Hres. rewrite decide_False in Hres by done.
  destruct (cget c2 key (m_now t2) (m_now' t2)) as [c3 r3] eqn:Eg2. cbn in Hres. subst r3.
  subst resp. rewrite Em. apply (hit_response (put_cache c2 idx m) next' t2 r2 c3 cached); cbn; [by rewrite Hkey|done].
Qed.


(** ** The path index *)

(** The index files a key under its own path only, and every cached key with a path is filed. *)
Definition indexed (m : middleware) : Prop :=
  (∀ segs k, holds (patternIdx m) segs k → pathExtract m k ≠ [] ∧ segs = normalizePath (pathExtract m k)) ∧
  (∀ k, is_Some (cfind (cache m) k) → pathExtract m k ≠ [] → holds (patternIdx m) (normalizePath (pathExtract m k)) k).
Definition minv (n : nat) (m : middleware) : Prop := wf n (cache m) ∧ indexed m.

Lemma indexed_shrink m c :
  (∀ k, is_Some (cfind c k) → is_Some (cfind (cache m) k)) → indexed m → indexed (put_cache c (patternIdx m) m).
Proof. intros Hs [H1 H2]. split; [done|]. intros k Hk. by apply H2, Hs. Qed.

Lemma indexed_set m c key :
  (∀ k, k ≠ key → is_Some (cfind c k) → is_Some (cfind (cache m) k)) → indexed m →
  indexed (put_cache c (if decide (pathExtract m key = []) then patternIdx m else AddKey (pathExtract m key) key (patternIdx m)) m).
Proof.
  intros Hs [H1 H2]. split; cbn [put_cache patternIdx pathExtract cache].
  - intros segs k. case_decide as Hp; [apply H1|]. unfold AddKey. rewrite add_at_holds. intros [[-> ->]|H]; [done|by apply H1].
  - intros k Hk Hp. destruct (decide (k = key)) as [->|Hne].
    + rewrite decide_False by done. unfold AddKey. rewrite add_at_holds. by left.
    + case_decide; [by apply H2; [apply Hs|]|]. unfold AddKey. rewrite add_at_holds. right. by apply H2; [apply Hs|].
Qed.

Lemma serve_inv n m next t r : minv (S n) m → m_now t ≤ m_now' t → minv n (ServeHTTP m next t r).1.1.
Proof.
  intros [Hw Hi] Ht. destruct (law_get n (cache m) (keyGen m r) _ _ Hw Ht) as (Hw1 & _ & _ & Hk).
  unfold Middleware.ServeHTTP. destruct (cget (cache m) _ _ _) as [c1 found]. cbn [fst snd] in *.
  assert (indexed (put_cache c1 (patternIdx m) m)) as Hi1.
  { apply indexed_shrink; [|done]. intros k. rewrite Hk. case_decide; [|done]. subst. unfold alive_at.
    destruct (cfind (cache m) (keyGen m r)) as [[v e]|]; [by eauto|by intros []]. }
  destruct found as [cached|]; [done|]. set (rw := foldl rw_act _ _). unfold record_response.
  destruct (policy _ _ _ _ _ _) as [[] ttl]; [|done]. set (cached := MkCached _ _ _ _).
  destruct (law_set n c1 (keyGen m r) cached ttl (m_rt t) Hw1) as (Hw2 & _ & _ & _ & Ho).
  cbn [cache put_cache]. destruct (cset c1 _ cached ttl _) as [c2 err]. cbn [fst snd] in *. split; [done|].
  apply (indexed_set (put_cache c1 (patternIdx m) m)); [|done]. intros k Hne [x Hx]. cbn [cache put_cache].
  destruct (Ho k Hne) as [Hf|Hf]; rewrite Hf in Hx; [by eexists|done].
Qed.

(** Deleting one key, with or without its index entry. *)
Lemma delete_inv n m key :
  minv n m →
  minv n (put_cache (cdelete (cache m) key).1 (patternIdx m) m) ∧
  minv n (put_cache (cdelete (cache m) key).1 (RemoveKey (pathExtract m key) key (patternIdx m)) m).
Proof.
  intros [Hw [H1 H2]]. destruct (law_delete n (cache m) key Hw) as (Hw1 & _ & _ & Hk).
  assert (∀ k, is_Some (cfind (cdelete (cache m) key).1 k) → k ≠ key ∧ is_Some (cfind (cache m) k)) as Hs.
  { intros k. rewrite Hk. case_decide; [by intros []|done]. }
  split; (split; [done|]); split; cbn [put_cache patternIdx pathExtract cache].
  - done.
  - intros k [_ Hk2]%Hs. by apply H2.
  - intros segs k [H _]%RemoveKey_holds. by apply H1.
  - intros k [Hne Hk2]%Hs Hp. apply RemoveKey_holds. split; [by apply H2|]. by intros [_ ->].
Qed.

Lemma invalidate_step_inv n m i key :
  minv n m →
  let m' := (invalidate_step (m, i) key).1 in
  minv n m' ∧ pathExtract m' = pathExtract m ∧
  ∀ k, cfind (cache m') k = if decide (k = key) then None else cfind (cache m) k.
Proof.
  intros Hi. destruct (delete_inv n m key Hi) as [Hd1 Hd2]. destruct Hi as [Hw _].
  destruct (law_delete n (cache m) key Hw) as (_ & _ & _ & Hk).
  unfold invalidate_step. destruct (cdelete (cache m) key) as [c []]; cbn in *; [|done]. case_decide; done.
Qed.

Lemma invalidate_loop n keys m i :
  minv n m →
  let m' := (foldl invalidate_step (m, i) keys).1 in
  minv n m' ∧ pathExtract m' = pathExtract m ∧
  ∀ k, cfind (cache m') k = if decide (k ∈ keys) then None else cfind (cache m) k.
Proof.
  revert m i. induction keys as [|key keys IH]; intros m i Hi.
  { cbn. split_and!; [done|done|]. intros k. by rewrite decide_False by apply not_elem_of_nil. }
  destruct (invalidate_step_inv n m i key Hi) as (H1 & H2 & H3). cbn [foldl].
  destruct (invalidate_step (m, i) key) as [m1 i1]. cbn [fst] in *. destruct (IH m1 i1 H1) as (H4 & H5 & H6).
  split_and!; [done|congruence|]. intros k. rewrite H6, H3. repeat case_decide; set_solver.
Qed.

Lemma byfunc_step_inv n fn m i key :
  minv n m →
  let m' := (invalidateFunc_step fn (m, i) key).1 in
  minv n m' ∧ pathExtract m' = pathExtract m ∧
  ∀ k, cfind (cache m') k = if decide (k = key ∧ fn key = true) then None else cfind (cache m) k.
Proof.
  intros Hi. unfold invalidateFunc_step. destruct (fn key) eqn:Ef.
  - destruct (delete_inv n m key Hi) as [Hd1 _]. destruct Hi as [Hw _].
    destruct (law_delete n (cache m) key Hw) as (_ & _ & _ & Hk). destruct (cdelete (cache m) key) as [c ok]. cbn in *.
    split_and!; [done|done|]. intros k. rewrite Hk. repeat case_decide; naive_solver.
  - split_and!; [done|done|]. intros k. rewrite decide_False; [done|]. by intros [_ ?].
Qed.
Lemma byfunc_loop n fn keys m i :
  minv n m →
  let m' := (foldl (invalidateFunc_step fn) (m, i) keys).1 in
  minv n m' ∧ pathExtract m' = pathExtract m ∧
  ∀ k, cfind (cache m') k = if decide (k ∈ keys ∧ fn k = true) then None else cfind (cache m) k.
Proof.
  revert m i. induction keys as [|key keys IH]; intros m i Hi.
  { cbn. split_and!; [done|done|]. intros k. rewrite decide_False; [done|]. by intros [?%elem_of_nil _]. }
  destruct (byfunc_step_inv n fn m i key Hi) as (H1 & H2 & H3). cbn [foldl].
  destruct (invalidateFunc_step fn (m, i) key) as [m1 i1]. cbn [fst] in *. destruct (IH m1 i1 H1) as (H4 & H5 & H6).
  split_and!; [done|congruence|]. intros k. rewrite H6, H3. repeat case_decide; set_solver.
Qed.

(** The states the middleware goes through with a fixed path extractor; the index counts the
    requests the cache can still take. *)
Inductive mreachable (path : bytes → bytes) : nat → middleware → Prop :=
  | m_init n m : wf n (cache m) → (∀ k, cfind (cache m) k = None) → patternIdx m = NewPatternIndex → pathExtract m = path → mreachable path n m
  | m_serve n m next t r : mreachable path (S n) m → m_now t ≤ m_now' t → mreachable path n (ServeHTTP m next t r).1.1
  | m_clear n m o : mreachable path n m → mreachable path n (Clear m o)
  | m_inval n m o p : mreachable path n m → mreachable path n (Invalidate m o p).1
  | m_func n m now o fn : mreachable path n m → mreachable path n (InvalidateByFunc m now o fn).1.

Lemma mreachable_inv path n m : mreachable path n m → minv n m ∧ pathExtract m = path.
Proof.
  induction 1 as [n m Hw He Hp Hx|n m next t r _ [IH IHp] Ht|n m o _ [IH IHp]|n m o p _ [IH IHp]|n m now o fn _ [IH IHp]].
  - split; [|done]. split; [done|]. split; [rewrite Hp; intros segs k H; by apply holds_new in H|].
    intros k [x Hk]. by rewrite He in Hk.
  - split; [by apply serve_inv|]. rewrite <-IHp. unfold Middleware.ServeHTTP. destruct (cget _ _ _ _) as [c [cached|]]; [done|].
    pose proof (record_frame (put_cache c (patternIdx m) m) t r (keyGen m r) (foldl rw_act (newResponseWriter new_writer) (next r))) as (_ & H & _).
    by destruct (record_response _ _ _ _ _).
  - split; [|done]. destruct IH as [Hw _]. destruct (law_clear n (cache m) o Hw) as (Hw' & _ & Hn). split; [done|].
    split; [intros segs k H; by apply holds_new in H|]. intros k [x Hk]. cbn in Hk. by rewrite Hn in Hk.
  - destruct (invalidate_loop n (GetMatchingKeys o p (patternIdx m)) m 0 IH) as (H1 & H2 & _). split; [exact H1|by etransitivity; [exact H2|]].
  - destruct (byfunc_loop n fn (ckeys (cache m) now o) m 0 IH) as (H1 & H2 & _). split; [exact H1|by etransitivity; [exact H2|]].
Qed.

(** C25.  [Invalidate] removes exactly the cached responses whose path matches the pattern: in
    every state the middleware reaches, a key is gone afterwards if its path matches, and
    every other key keeps its response. *)
Theorem invalidate_removes_exactly path n m o p k :
  mreachable path n m →
  let m' := (Invalidate m o p).1 in
  (path k ≠ [] ∧ matches p (normalizePath (path k)) → cfind (cache m') k = None) ∧
  (¬ (path k ≠ [] ∧ matches p (normalizePath (path k))) → cfind (cache m') k = cfind (cache m) k).
Proof.
  intros [Hi Hp]%mreachable_inv. destruct (invalidate_loop n (GetMatchingKeys o p (patternIdx m)) m 0 Hi) as (_ & _ & H).
  destruct Hi as [_ [H1 H2]]. rewrite Hp in H1, H2. unfold Invalidate. cbn zeta. rewrite H. split.
  - intros [Hne Hm]. case_decide as Hk; [done|]. destruct (cfind (cache m) k) as [x|] eqn:Ex; [|done]. exfalso. apply Hk.
    apply GetMatchingKeys_holds. eexists. split; [|done]. apply H2; [by rewrite Ex|done].
  - intros Hn. case_decide as Hk; [|done]. exfalso. apply Hn.
    apply GetMatchingKeys_holds in Hk as (segs & Hh & Hm). by apply H1 in Hh as [Hne ->].
Qed.
End MiddlewareTheorems.

(** ** The default policy and the key generators *)
Section Policies.
Context (md5hex : bytes → bytes) (parseRFC1123 : bytes → option Z).

(** A branch that does not cache. *)
Ltac refuse := cbn; split; [split; [done|intros (? & ? & ? & ? & ? & ?); first [done|congruence|lia]]|done].

(** The default policy caches nothing it must not: a response it admits answers a cacheable
    method with a cacheable status within the size limit, none of the forbidding directives
    occurs in its Cache-Control header, and its lifetime is positive (given a positive
    default): the first usable max-age, else the time to a future Expires date, else the
    default; and everything that meets these conditions is admitted. *)
Theorem default_policy_sound config now r status h body :
  let cc := hget (str "Cache-Control") h in
  let '(shouldCache, ttl) := DefaultCachePolicy parseRFC1123 config now r status h body in
  (shouldCache = true ↔
     Method r ∈ CacheableMethods config ∧ status ∈ CacheableStatus config ∧
     Z.of_nat (length body) ≤ MaxBodySize config ∧ contains (str "no-cache") cc = false ∧
     contains (str "no-store") cc = false ∧ contains (str "private") cc = false) ∧
  (shouldCache = true → 0 < MDefaultTTL config →
     0 < ttl ∧ (0 < extractMaxAge cc → ttl = extractMaxAge cc) ∧
     (extractMaxAge cc ≤ 0 → ∀ t, hget (str "Expires") h ≠ [] → parseRFC1123 (hget (str "Expires") h) = Some t → now < t → ttl = t - now)).
Proof.
  intros cc. unfold DefaultCachePolicy. fold cc.
  destruct (bool_decide (Method r ∈ CacheableMethods config)) eqn:E1; [apply bool_decide_eq_true in E1|apply bool_decide_eq_false in E1; refuse].
  destruct (bool_decide (status ∈ CacheableStatus config)) eqn:E2; [apply bool_decide_eq_true in E2|apply bool_decide_eq_false in E2; refuse]. cbn [negb].
  destruct (Z.ltb_spec (MaxBodySize config) (Z.of_nat (length body))); [refuse|].
  destruct (contains (str "no-cache") cc), (contains (str "no-store") cc), (contains (str "private") cc); try refuse. cbn [orb].
  destruct (Z.ltb_spec 0 (extractMaxAge cc)); [split; [done|]; intros _ Hd; split_and!; [lia|done|lia]|].
  destruct (decide (hget (str "Expires") h = [])) as [He|He].
  { split; [done|]. intros _ Hd. split_and!; [done|lia|]. by intros _ t ?. }
  destruct (parseRFC1123 (hget (str "Expires") h)) as [t|].
  - destruct (Z.ltb_spec 0 (t - now)); (split; [done|]; intros _ Hd; split_and!; [lia|lia|]); intros _ t' _ [= <-] ?; [done|lia].
  - split; [done|]. intros _ Hd. split_and!; [done|lia|]. by intros _ t' _ [=].
Qed.

(** Keys with a user id glue the URL and the user together: an anonymous request for
    [/auser:bob] has the key of bob's request for [/a]. *)
Theorem user_key_collision :
  let anon := MkRequest (str "GET") (str "/auser:bob") (str "/auser:bob") ∅ in
  let bob := MkRequest (str "GET") (str "/a") (str "/a") {[ str "X-User" := [str "bob"] ]} in
  KeyWithUserID md5hex (str "X-User") anon = KeyWithUserID md5hex (str "X-User") bob.
Proof. vm_compute. reflexivity. Qed.
End Policies.

(** ** Instances *)
#[export] Instance cached_inhabited : Inhabited CachedResponse := populate (MkCached 0 ∅ [] 0).

Definition demo_config : MiddlewareConfig :=
  MkMConfig 8 1 0 60 LRU 0 true [str "GET"] [200] [] 100 [] [].
Definition demo : @HTTPCacheMiddleware (InMemoryCache bytes CachedResponse) :=
  SetPathExtractor PathExtractorFromKey (SetKeyGenerator PathBasedKeyGenerator
    (NewHTTPCacheMiddleware (λ b, b) (λ _, None) (New 4 (Admission.clock_at 0)) demo_config)).
Definition at_time (t : Z) : moment := MkMoment t t t t (Runtime t inOrder (Admission.clock_at t) None) t.
Definition hello : handler := λ r, [HeaderSet (str "Content-Type") (str "text/plain"); WriteHeader 200; Write (str "hi ")] ++ [Write (URLPath r)].
Definition get_a : Request := MkRequest (str "GET") (str "/a?x=1") (str "/a") ∅.
Definition fmt : Z → bytes := λ t, [t].

Lemma demo_wf n : Z.of_nat n ≤ 2 ^ 61 → wf n (cache demo).
Proof.
  intros Hn. apply cache_reachable_wf; [|done|done].
  exists 4, (Admission.clock_at 0), (config (cache demo)), []. split; [unfold valid_config; vm_compute; intuition congruence|]. split; [constructor|].
  split; [cbn; lia|done].
Qed.
Lemma demo_empty k : cfind (cache demo) k = None.
Proof.
  cbn [cfind InMemoryCache_ops]. unfold content, peek.
  assert (getShard (cache demo) k = 0%nat) as ->; [|reflexivity].
  unfold getShard, shardByHash. assert (shardMask (cache demo) = 0) as -> by reflexivity. by rewrite Z.land_0_r.
Qed.

Lemma miss_is_transparent_witness :
  Status (ServeHTTP fmt fmt demo hello (at_time 1) get_a).1.2 = 200 ∧
  RespBody (ServeHTTP fmt fmt demo hello (at_time 1) get_a).1.2 = str "hi /a".
Proof.
  destruct (miss_is_transparent fmt fmt demo hello (at_time 1) get_a) as (H1 & H2 & _); [vm_compute; reflexivity|].
  split; [rewrite H1|rewrite H2]; vm_compute; reflexivity.
Defined.

Lemma hello_well_behaved r : well_behaved 200 (hello r).
Proof. exists [HeaderSet (str "Content-Type") (str "text/plain")], [str "hi "; URLPath r]. split_and!; [done|done|lia]. Qed.


Lemma demo_mreachable : mreachable fmt fmt PathExtractorFromKey 0 (ServeHTTP fmt fmt demo hello (at_time 1) get_a).1.1.
Proof.
  apply m_serve; [|done]. apply m_init; [apply demo_wf; lia|apply demo_empty|done|done].
Qed.
Lemma invalidate_removes_exactly_witness :
  let m := (ServeHTTP fmt fmt demo hello (at_time 1) get_a).1.1 in
  is_Some (cfind (cache m) (str "GET:/a")) ∧ cfind (cache (Invalidate m inOrder (str "/*")).1) (str "GET:/a") = None ∧
  cfind (cache (Invalidate m inOrder (str "/b")).1) (str "GET:/a") = cfind (cache m) (str "GET:/a").
Proof.
  destruct (invalidate_removes_exactly fmt fmt _ _ _ inOrder (str "/*") (str "GET:/a") demo_mreachable) as [H1 _].
  destruct (invalidate_removes_exactly fmt fmt _ _ _ inOrder (str "/b") (str "GET:/a") demo_mreachable) as [_ H2].
  split_and!; [vm_compute; eauto|apply H1|apply H2].
  - split; [vm_compute; congruence|]. unfold matches. vm_compute. by eexists.
  - intros [_ H]. revert H. unfold matches. vm_compute. congruence.
Defined.

(** A handler that sets [Cache-Control: no-store] and writes its body without calling
    [WriteHeader]: the recorder sees no headers, and the response is stored. *)
Theorem no_store_is_cached :
  let next : handler := λ _, [HeaderSet (str "Cache-Control") (str "no-store"); Write (str "secret")] in
  let m := (ServeHTTP fmt fmt demo next (at_time 1) get_a).1.1 in
  hget (str "Cache-Control") (RespHeader (serve_plain next get_a)) = str "no-store" ∧
  fst <$> cfind (cache m) (str "GET:/a") = Some (MkCached 200 ∅ (str "secret") 1) ∧
  RespBody (ServeHTTP fmt fmt m next (at_time 2) get_a).1.2 = str "secret" ∧
  hget (str "Cache-Control") (RespHeader (ServeHTTP fmt fmt m next (at_time 2) get_a).1.2) = [].
Proof. vm_compute. done. Qed.

(** [max-age=0] is treated as if it were absent, and a huge max-age wraps around. *)
Theorem max_age_zero_is_cached :
  let h (v : bytes) : Header := {[ str "Cache-Control" := [v] ]} in
  DefaultCachePolicy (λ _, None) demo_config 1 get_a 200 (h (str "max-age=0")) [] = (true, 60) ∧
  DefaultCachePolicy (λ _, None) demo_config 1 get_a 200 (h (str "max-age=10")) [] = (true, 10 * second) ∧
  DefaultCachePolicy (λ _, None) demo_config 1 get_a 200 (h (str "max-age=18446744074")) [] = (true, 290448384).
Proof. vm_compute. done. Qed.
End MiddlewareTheorems.
