(* ===== verification/Manager.v ===== *)
(** * The cache manager ([src/manager.go], [src/errors.go])

    Named caches created on demand.  A cache instance is its index in [instances]; its Go type
    is an element of [T], and of its state the manager changes only whether it is closed.
    [GetCache] is cut at its accesses to shared state, so that the calls of several goroutines
    interleave. *)
From Stdlib Require Import ZArith Lia.
From stdpp Require Import base numbers list gmap sets.
From S2P Require Import Prelude Shard Eviction Cache.
Local Open Scope Z_scope.

Module Manager.

Definition bytes : Type := list Z.

(** ** Errors *)
Inductive cause := ErrCacheExists | ErrCacheNotFound | ErrTypeMismatch | ErrInvalidConfig | ErrClosed.
Inductive opname := OpRegister | OpGet | OpClose.
Record CacheError := MkCacheError { Op : opname; Name : bytes; Cause : cause }.
Definition newCacheError (op : opname) (name : bytes) (c : cause) : CacheError := MkCacheError op name c.

Section Manager.
Context {T : Type} `{EqDecision T}.

Record instance := MkInstance { ty : T; conf : Config; closed : bool }.
Record Manager := MkManager { caches : gmap bytes nat; configs : gmap bytes Config; instances : list instance }.

Definition NewManager : Manager := MkManager ∅ ∅ [].

Definition put_caches (c : gmap bytes nat) (m : Manager) : Manager := MkManager c (configs m) (instances m).
Definition put_instances (l : list instance) (m : Manager) : Manager := MkManager (caches m) (configs m) l.

Definition RegisterCache (name : bytes) (config : Config) (m : Manager) : Manager * option CacheError :=
  match configs m !! name with
  | Some _ => (m, Some (newCacheError OpRegister name ErrCacheExists))
  | None => (MkManager (caches m) (<[name := config]> (configs m)) (instances m), None)
  end.

(** [New], and [Close], which never fails. *)
Definition new_cache (t : T) (config : Config) (m : Manager) : Manager * nat :=
  (put_instances (instances m ++ [MkInstance t config false]) m, length (instances m)).
Definition close_cache (id : nat) (m : Manager) : Manager :=
  put_instances (alter (λ i, MkInstance (ty i) (conf i) true) id (instances m)) m.
Definition has_type (t : T) (id : nat) (m : Manager) : bool :=
  match instances m !! id with Some i => bool_decide (ty i = t) | None => false end.

(** ** [GetCache], step by step *)
Definition result : Type := nat + CacheError.
Inductive phase :=
  | Start
  | NeedConfig
  | Create (config : Config)
  | Publish (id : nat)
  | Lost (id actual : nat)
  | Done (r : result).

Definition typed (name : bytes) (t : T) (id : nat) (m : Manager) : result :=
  if has_type t id m then inl id else inr (newCacheError OpGet name ErrTypeMismatch).

Definition get_step (name : bytes) (t : T) (p : phase) (m : Manager) : Manager * phase :=
  match p with
  | Start =>
      match caches m !! name with
      | Some id => (m, Done (typed name t id m))
      | None => (m, NeedConfig)
      end
  | NeedConfig => (m, Create (default DefaultConfig (configs m !! name)))
  | Create config => let '(m, id) := new_cache t config m in (m, Publish id)
  | Publish id =>
      match caches m !! name with
      | Some actual => (m, Lost id actual)
      | None => (put_caches (<[name := id]> (caches m)) m, Done (inl id))
      end
  | Lost id actual => let m := close_cache id m in (m, Done (typed name t actual m))
  | Done r => (m, Done r)
  end.

(** Without interference: five steps are enough. *)
Fixpoint get_run (fuel : nat) (name : bytes) (t : T) (p : phase) (m : Manager) : Manager * phase :=
  match fuel with
  | O => (m, p)
  | S fuel => let '(m, p) := get_step name t p m in get_run fuel name t p m
  end.
Definition GetCache (name : bytes) (t : T) (m : Manager) : Manager * option result :=
  match get_run 5 name t Start m with
  | (m, Done r) => (m, Some r)
  | (m, _) => (m, None)
  end.

(** [stats] reads one instance. *)
Definition GetCacheStats {S} (stats : nat → S) (m : Manager) : gmap bytes S := stats <$> caches m.

(** [CloseAll]: two passes over the map. *)
Definition closeAll_close (o : rangeOrder) (m : Manager) : Manager :=
  foldl (λ m id, close_cache id m) m (range o (map_to_list (caches m)).*2).
Definition closeAll_clear (o : rangeOrder) (m : Manager) : Manager :=
  put_caches (foldl (λ c name, delete name c) (caches m) (range o (map_to_list (caches m)).*1)) m.
Definition CloseAll (o o' : rangeOrder) (m : Manager) : Manager := closeAll_clear o' (closeAll_close o m).

Definition RemoveCache (name : bytes) (m : Manager) : Manager :=
  match caches m !! name with
  | Some id => close_cache id (put_caches (delete name (caches m)) m)
  | None => MkManager (caches m) (delete name (configs m)) (instances m)
  end.

(** The package-level functions, on the state of the global manager. *)
Definition GlobalManager : Manager := NewManager.
Definition RegisterGlobalCache (name : bytes) (config : Config) (global : Manager) : Manager * option CacheError := RegisterCache name config global.
Definition GetGlobalCache (name : bytes) (t : T) (global : Manager) : Manager * option result := GetCache name t global.
Definition GetGlobalCacheStats {S} (stats : nat → S) (global : Manager) : gmap bytes S := GetCacheStats stats global.
Definition CloseAllGlobalCaches (o o' : rangeOrder) (global : Manager) : Manager := CloseAll o o' global.

(** ** Concurrent calls *)
Record sys := MkSys { mgr : Manager; calls : list (bytes * T * phase) }.
Inductive sstep : sys → sys → Prop :=
  | s_call s name t : sstep s (MkSys (mgr s) (calls s ++ [(name, t, Start)]))
  | s_get s i name t p m' p' :
      calls s !! i = Some (name, t, p) → get_step name t p (mgr s) = (m', p') →
      sstep s (MkSys m' (<[i := (name, t, p')]> (calls s)))
  | s_register s name config : sstep s (MkSys (RegisterCache name config (mgr s)).1 (calls s)).
Inductive sreachable : sys → Prop :=
  | sr_init : sreachable (MkSys NewManager [])
  | sr_step s s' : sreachable s → sstep s s' → sreachable s'.

(** The instance a call has created and not yet published or closed. *)
Definition pending (p : phase) : option nat :=
  match p with Publish id | Lost id _ => Some id | _ => None end.
Definition open_at (m : Manager) (id : nat) : Prop := ∃ i, instances m !! id = Some i ∧ closed i = false.

Record sinv (s : sys) : Prop := {
  si_registered name id : caches (mgr s) !! name = Some id → open_at (mgr s) id;
  si_pending j name t p id : calls s !! j = Some (name, t, p) → pending p = Some id →
    open_at (mgr s) id ∧ has_type t id (mgr s) = true ∧ ∀ name', caches (mgr s) !! name' ≠ Some id;
  si_owner j j' x x' id : calls s !! j = Some x → calls s !! j' = Some x' →
    pending x.2 = Some id → pending x'.2 = Some id → j = j';
  si_lost j name t id a : calls s !! j = Some (name, t, Lost id a) → caches (mgr s) !! name = Some a;
  si_done j name t id : calls s !! j = Some (name, t, Done (inl id)) →
    caches (mgr s) !! name = Some id ∧ has_type t id (mgr s) = true;
  si_open id : open_at (mgr s) id →
    (∃ name, caches (mgr s) !! name = Some id) ∨ (∃ j x, calls s !! j = Some x ∧ pending x.2 = Some id) }.

Lemma open_lt m id : open_at m id → (id < length (instances m))%nat.
Proof. intros (i & Hi & _). by eapply lookup_lt_Some. Qed.
Lemma typed_inl name t id m a : typed name t id m = inl a → a = id ∧ has_type t id m = true.
Proof. unfold typed. destruct (has_type t id m) eqn:E; [|done]. by intros [= <-]. Qed.

(** What creation and closing do to the instances. *)
Lemma new_open t cfg m id : open_at (new_cache t cfg m).1 id ↔ open_at m id ∨ id = length (instances m).
Proof.
  unfold open_at. cbn. setoid_rewrite lookup_app_Some. split.
  - intros (i & [H|[Hle H]] & Hc); [by eauto|]. right. apply list_lookup_singleton_Some in H as [H _]. lia.
  - intros [(i & H & Hc)|E]; [by eauto|]. exists (MkInstance t cfg false). split; [|done]. right. rewrite E, Nat.sub_diag. done.
Qed.
Lemma new_type t cfg m t' id : (id < length (instances m))%nat → has_type t' id (new_cache t cfg m).1 = has_type t' id m.
Proof. intros Hl. unfold has_type. cbn. by rewrite lookup_app_l. Qed.
Lemma close_open id m id' : open_at (close_cache id m) id' ↔ open_at m id' ∧ id' ≠ id.
Proof.
  unfold open_at. cbn. split.
  - intros (i & Hi & Hc). destruct (decide (id' = id)) as [->|Hne].
    + rewrite list_lookup_alter_eq in Hi. apply fmap_Some in Hi as (y & _ & ->). done.
    + rewrite list_lookup_alter_ne in Hi by done. eauto.
  - intros [(i & Hi & Hc) Hne]. exists i. by rewrite list_lookup_alter_ne.
Qed.
Lemma close_type id m t id' : has_type t id' (close_cache id m) = has_type t id' m.
Proof.
  unfold has_type. cbn. destruct (decide (id' = id)) as [->|]; [|by rewrite list_lookup_alter_ne].
  rewrite list_lookup_alter_eq. by destruct (instances m !! id).
Qed.

(** The other calls after call [i] moved on. *)
Lemma lookup_call s i x y j z :
  calls s !! i = Some x → <[i := y]> (calls s) !! j = Some z → j = i ∧ z = y ∨ j ≠ i ∧ calls s !! j = Some z.
Proof. intros Hi Hj. apply list_lookup_insert_Some in Hj as [(-> & <- & _)|[Hne Hj]]; auto. Qed.
Lemma call_moved s i x y : calls s !! i = Some x → <[i := y]> (calls s) !! i = Some y.
Proof. intros Hi. apply list_lookup_insert_eq. by eapply lookup_lt_Some. Qed.
Lemma call_kept s i y j : j ≠ i → <[i := y]> (calls s) !! j = calls s !! j.
Proof. intros Hne. by apply list_lookup_insert_ne. Qed.

(** A step that leaves the manager and the pending instance alone. *)
Lemma sinv_quiet s i name t p p' :
  sinv s → calls s !! i = Some (name, t, p) → pending p' = pending p →
  (∀ id a, p' = Lost id a → caches (mgr s) !! name = Some a) →
  (∀ id, p' = Done (inl id) → caches (mgr s) !! name = Some id ∧ has_type t id (mgr s) = true) →
  sinv (MkSys (mgr s) (<[i := (name, t, p')]> (calls s))).
Proof.
  intros [R P O L D U] Hi Hp Hl Hd. split; cbn [mgr calls]; [done|..].
  - intros j n t' q id [[-> [= -> -> ->]]|[Hne Hj]]%(lookup_call _ _ _ _ _ _ Hi) Hq; [|by eapply P].
    rewrite Hp in Hq. by eapply P.
  - intros j j' x x' id [[-> ->]|[Hne Hj]]%(lookup_call _ _ _ _ _ _ Hi) [[-> ->]|[Hne' Hj']]%(lookup_call _ _ _ _ _ _ Hi) Hx Hx';
      cbn in *; rewrite ?Hp in *; [done|..]; by eapply O.
  - intros j n t' id a [[-> [= -> -> E]]|[Hne Hj]]%(lookup_call _ _ _ _ _ _ Hi); [by eapply Hl|by eapply L].
  - intros j n t' id [[-> [= -> -> E]]|[Hne Hj]]%(lookup_call _ _ _ _ _ _ Hi); [by eapply Hd|by eapply D].
  - intros id [?|(j & x & Hj & Hx)]%U; [by left|]. right. destruct (decide (j = i)) as [->|Hne].
    + exists i, (name, t, p'). rewrite (call_moved _ _ _ _ Hi). split; [done|]. cbn. rewrite Hp. by simplify_eq.
    + exists j, x. by rewrite call_kept.
Qed.

Lemma sinv_create s i name t cfg :
  sinv s → calls s !! i = Some (name, t, Create cfg) →
  sinv (MkSys (new_cache t cfg (mgr s)).1 (<[i := (name, t, Publish (length (instances (mgr s))))]> (calls s))).
Proof.
  intros [R P O L D U] Hi. set (n := length (instances (mgr s))).
  assert (∀ id, open_at (mgr s) id → id ≠ n) as Hfresh by (intros id H%open_lt; unfold n; lia).
  split; cbn [mgr calls].
  - intros nm id H. apply new_open. left. by eapply R.
  - intros j nm t' q id [[-> [= -> -> ->]]|[Hne Hj]]%(lookup_call _ _ _ _ _ _ Hi) Hq.
    + injection Hq as <-. split_and!; [apply new_open; by right| |].
      * unfold has_type. cbn. rewrite lookup_app_r, Nat.sub_diag by lia. cbn. by apply bool_decide_eq_true_2.
      * intros nm' H%R. by eapply Hfresh.
    + destruct (P _ _ _ _ _ Hj Hq) as (H1 & H2 & H3). split_and!; [apply new_open; by left| |done].
      rewrite new_type; [done|by apply open_lt].
  - intros j j' x x' id [[-> ->]|[Hne Hj]]%(lookup_call _ _ _ _ _ _ Hi) [[-> ->]|[Hne' Hj']]%(lookup_call _ _ _ _ _ _ Hi) Hx Hx'; cbn in *.
    + done.
    + injection Hx as <-. destruct x' as [[nm t'] q]. destruct (P _ _ _ _ _ Hj' Hx') as (H1 & _). by apply Hfresh in H1.
    + injection Hx' as <-. destruct x as [[nm t'] q]. destruct (P _ _ _ _ _ Hj Hx) as (H1 & _). by apply Hfresh in H1.
    + by eapply O.
  - intros j nm t' id a [[-> [= -> -> E]]|[Hne Hj]]%(lookup_call _ _ _ _ _ _ Hi); by eapply L.
  - intros j nm t' id [[-> [= -> -> E]]|[Hne Hj]]%(lookup_call _ _ _ _ _ _ Hi).
    destruct (D _ _ _ _ Hj) as [H1 H2]. split; [done|]. rewrite new_type; [done|]. by eapply open_lt, R.
  - intros id [[?|(j & x & Hj & Hx)]%U| ->]%new_open; [by left| |].
    + right. destruct (decide (j = i)) as [->|Hne]; [by simplify_eq|]. exists j, x. by rewrite call_kept.
    + right. exists i. eexists. by rewrite (call_moved _ _ _ _ Hi).
Qed.

Lemma sinv_publish s i name t id :
  sinv s → calls s !! i = Some (name, t, Publish id) → caches (mgr s) !! name = None →
  sinv (MkSys (put_caches (<[name := id]> (caches (mgr s))) (mgr s)) (<[i := (name, t, Done (inl id))]> (calls s))).
Proof.
  intros [R P O L D U] Hi Hn. destruct (P _ _ _ _ _ Hi eq_refl) as (Ho & Ht & Hun).
  split; cbn [mgr calls put_caches caches].
  - intros nm id' [[_ <-]|[_ H]]%lookup_insert_Some; [done|by eapply R].
  - intros j nm t' q id' [[-> [= -> -> ->]]|[Hne Hj]]%(lookup_call _ _ _ _ _ _ Hi) Hq; [done|].
    destruct (P _ _ _ _ _ Hj Hq) as (H1 & H2 & H3). split_and!; [done|done|].
    intros nm' [[_ <-]|[_ H]]%lookup_insert_Some; [|by eapply H3]. apply Hne. by eapply (O j i).
  - intros j j' x x' id' [[-> ->]|[Hne Hj]]%(lookup_call _ _ _ _ _ _ Hi) [[-> ->]|[Hne' Hj']]%(lookup_call _ _ _ _ _ _ Hi) Hx Hx';
      cbn in *; try done. by eapply O.
  - intros j nm t' id' a [[-> [= -> -> E]]|[Hne Hj]]%(lookup_call _ _ _ _ _ _ Hi).
    pose proof (L _ _ _ _ _ Hj). rewrite lookup_insert_ne; [done|]. intros ->. congruence.
  - intros j nm t' id' [[-> [= -> -> ->]]|[Hne Hj]]%(lookup_call _ _ _ _ _ _ Hi); [by rewrite lookup_insert_eq|].
    destruct (D _ _ _ _ Hj) as [H1 H2]. split; [|done]. rewrite lookup_insert_ne; [done|]. intros ->. congruence.
  - intros id' [[nm Hm]|(j & x & Hj & Hx)]%U.
    + left. exists nm. rewrite lookup_insert_ne; [done|]. intros ->. congruence.
    + destruct (decide (j = i)) as [->|Hne].
      * left. exists name. simplify_eq. cbn in *. simplify_eq. apply lookup_insert_eq.
      * right. exists j, x. by rewrite call_kept.
Qed.

Lemma sinv_lost s i name t id a :
  sinv s → calls s !! i = Some (name, t, Lost id a) →
  sinv (MkSys (close_cache id (mgr s)) (<[i := (name, t, Done (typed name t a (close_cache id (mgr s))))]> (calls s))).
Proof.
  intros [R P O L D U] Hi. destruct (P _ _ _ _ _ Hi eq_refl) as (Ho & Ht & Hun). pose proof (L _ _ _ _ _ Hi) as Ha.
  split; cbn [mgr calls]; change (caches (close_cache id (mgr s))) with (caches (mgr s)).
  - intros nm id' H. apply close_open. split; [by eapply R|]. intros ->. by eapply Hun.
  - intros j nm t' q id' [[-> [= -> -> ->]]|[Hne Hj]]%(lookup_call _ _ _ _ _ _ Hi) Hq; [done|].
    destruct (P _ _ _ _ _ Hj Hq) as (H1 & H2 & H3). rewrite close_open, close_type. split_and!; try done.
    intros ->. apply Hne. by eapply (O j i).
  - intros j j' x x' id' [[-> ->]|[Hne Hj]]%(lookup_call _ _ _ _ _ _ Hi) [[-> ->]|[Hne' Hj']]%(lookup_call _ _ _ _ _ _ Hi) Hx Hx';
      cbn in *; try done. by eapply O.
  - intros j nm t' id' a' [[-> [= -> -> E]]|[Hne Hj]]%(lookup_call _ _ _ _ _ _ Hi); by eapply L.
  - intros j nm t' id' [[-> [= -> -> E]]|[Hne Hj]]%(lookup_call _ _ _ _ _ _ Hi).
    + symmetry in E. apply typed_inl in E as [-> E]. done.
    + rewrite close_type. by eapply D.
  - intros id' [Ho' Hne']%close_open. apply U in Ho' as [?|(j & x & Hj & Hx)]; [by left|]. right.
    exists j, x. rewrite call_kept; [done|]. intros ->. simplify_eq. cbn in *. congruence.
Qed.

Lemma sinv_call s name t : sinv s → sinv (MkSys (mgr s) (calls s ++ [(name, t, Start)])).
Proof.
  intros [R P O L D U].
  assert (∀ j x, (calls s ++ [(name, t, Start)]) !! j = Some x → calls s !! j = Some x ∨ x = (name, t, Start)) as Hc.
  { intros j x [H|[_ H]]%lookup_app_Some; [by left|]. right. by apply list_lookup_singleton_Some in H as [_ <-]. }
  split; cbn [mgr calls]; [done|..].
  - intros j nm t' q id [Hj|[= -> -> ->]]%Hc Hq; [by eapply P|done].
  - intros j j' x x' id [Hj| ->]%Hc [Hj'| ->]%Hc Hx Hx'; try done. by eapply O.
  - intros j nm t' id a [Hj|[=]]%Hc. by eapply L.
  - intros j nm t' id [Hj|[=]]%Hc. by eapply D.
  - intros id [?|(j & x & Hj & Hx)]%U; [by left|]. right. exists j, x. split; [|done]. by apply lookup_app_l_Some.
Qed.

Lemma sstep_inv s s' : sinv s → sstep s s' → sinv s'.
Proof.
  intros Hs H. destruct H as [s name t|s i name t p m' p' Hi E|s name config].
  - by apply sinv_call.
  - destruct p as [| |cfg|id|id a|r]; cbn in E.
    + destruct (caches (mgr s) !! name) as [id|] eqn:Ec; injection E as <- <-; eapply sinv_quiet; try done.
      intros id' [= [-> Ht]%typed_inl]. done.
    + injection E as <- <-. by eapply sinv_quiet.
    + injection E as <- <-. by apply sinv_create.
    + destruct (caches (mgr s) !! name) as [a|] eqn:Ec; injection E as <- <-; [|by apply sinv_publish].
      eapply sinv_quiet; try done. by intros id' a' [= _ <-].
    + injection E as <- <-. by apply sinv_lost.
    + injection E as <- <-. eapply sinv_quiet; try done. intros id [= ->]. by eapply (si_done s Hs).
  - destruct Hs as [R P O L D U]. unfold RegisterCache. destruct (configs (mgr s) !! name); by split.
Qed.
Lemma sreachable_inv s : sreachable s → sinv s.
Proof.
  induction 1 as [|s s' _ IH Hs]; [|by eapply sstep_inv]. split; cbn; try done.
  intros id (i & Hi & _). cbn in Hi. by rewrite lookup_nil in Hi.
Qed.

(** ** Theorems *)

(** C16.  One instance per name: however the calls of [GetCache] interleave, all that succeed
    for a name return the same instance, which is open and of the type they asked for, so
    they all asked for the same type; and once all calls have returned, every instance that
    is still open is the registered one of some name: the losers of the race were closed. *)
Theorem get_cache_single_instance s name t1 t2 i j a b :
  sreachable s →
  calls s !! i = Some (name, t1, Done (inl a)) → calls s !! j = Some (name, t2, Done (inl b)) →
  a = b ∧ t1 = t2 ∧ open_at (mgr s) a ∧ has_type t1 a (mgr s) = true ∧
  ((∀ k x, calls s !! k = Some x → ∃ r, x.2 = Done r) →
   ∀ id, open_at (mgr s) id → ∃ name', caches (mgr s) !! name' = Some id).
Proof.
  intros [R P O L D U]%sreachable_inv Hi Hj. destruct (D _ _ _ _ Hi) as [H1 T1], (D _ _ _ _ Hj) as [H2 T2].
  assert (a = b) as -> by congruence. split_and!; [done| |by eapply R|done|].
  - unfold has_type in T1, T2. destruct (instances (mgr s) !! b); [|done]. apply bool_decide_eq_true in T1, T2. congruence.
  - intros Hall id [H|(k & x & Hk & Hx)]%U; [done|]. destruct (Hall k x Hk) as [r Hr]. rewrite Hr in Hx. done.
Qed.

Lemma get_cache_spec name t m :
  ∃ m' r, GetCache name t m = (m', Some r) ∧
  match caches m !! name with
  | Some id => m' = m ∧ r = if has_type t id m then inl id else inr (MkCacheError OpGet name ErrTypeMismatch)
  | None => r = inl (length (instances m)) ∧ caches m' = <[name := length (instances m)]> (caches m) ∧ configs m' = configs m ∧
            instances m' = instances m ++ [MkInstance t (default DefaultConfig (configs m !! name)) false]
  end.
Proof.
  unfold GetCache, get_run, get_step. destruct (caches m !! name) as [id|] eqn:E; cbn; rewrite ?E; cbn; by eexists _, _.
Qed.

(** [GetCache] always returns, alone within five steps: the registered instance if its
    type matches, an error and no change if it does not, and otherwise a new open instance
    with the registered configuration (or the default one), which is registered. *)
Theorem get_cache_returns name t m :
  ∃ m' r, GetCache name t m = (m', Some r) ∧
  match caches m !! name with
  | Some id => m' = m ∧ r = if has_type t id m then inl id else inr (MkCacheError OpGet name ErrTypeMismatch)
  | None => r = inl (length (instances m)) ∧ caches m' = <[name := length (instances m)]> (caches m) ∧ configs m' = configs m ∧
            instances m' = instances m ++ [MkInstance t (default DefaultConfig (configs m !! name)) false]
  end.
Proof. apply get_cache_spec. Qed.

(** Registration is first come, first served, and a cache that was created keeps its
    registration when it is removed: [RemoveCache] returns before it reaches the
    configuration, so the name cannot be registered again, and the next [GetCache] builds a
    new instance with the old configuration. *)
Theorem remove_keeps_configuration name t config config' m :
  configs m !! name = None → caches m !! name = None →
  let m1 := (GetCache name t (RegisterCache name config m).1).1 in
  let m2 := RemoveCache name m1 in
  caches m2 !! name = None ∧ ¬ open_at m2 (length (instances m)) ∧
  (RegisterCache name config' m2).2 = Some (MkCacheError OpRegister name ErrCacheExists) ∧
  instances (GetCache name t m2).1 = instances m2 ++ [MkInstance t config false].
Proof.
  intros Hc Hn. unfold RegisterCache at 1. rewrite Hc. cbn [fst]. set (m0 := MkManager _ _ _).
  destruct (get_cache_spec name t m0) as (m1 & r & E & H). rewrite E. cbn [fst]. cbn [m0 caches] in H. rewrite Hn in H.
  destruct H as (-> & Hca & Hco & Hin). cbn [m0 instances configs] in *. cbv zeta.
  assert (caches m1 !! name = Some (length (instances m))) as H1 by (rewrite Hca; apply lookup_insert_eq).
  unfold RemoveCache. rewrite H1. set (m2 := close_cache _ _).
  assert (caches m2 !! name = None) as H2 by (cbn; apply lookup_delete_eq).
  assert (configs m2 !! name = Some config) as H3 by (cbn; rewrite Hco; apply lookup_insert_eq).
  split_and!; [done| | |].
  - unfold m2. rewrite close_open. by intros [_ ?].
  - unfold RegisterCache. by rewrite H3.
  - destruct (get_cache_spec name t m2) as (m3 & r3 & E3 & H). rewrite E3. rewrite H2 in H. cbn [fst].
    destruct H as (_ & _ & _ & ->). by rewrite H3.
Qed.

(** Closing a list of instances. *)
Lemma close_list ids m :
  caches (foldl (λ m id, close_cache id m) m ids) = caches m ∧ configs (foldl (λ m id, close_cache id m) m ids) = configs m ∧
  ∀ id, open_at (foldl (λ m id, close_cache id m) m ids) id ↔ open_at m id ∧ id ∉ ids.
Proof.
  revert m. induction ids as [|x ids IH]; intros m; cbn [foldl]; [set_solver|].
  destruct (IH (close_cache x m)) as (H1 & H2 & H3). split_and!; [done|done|]. intros id. rewrite H3, close_open. set_solver.
Qed.
Lemma delete_list (names : list bytes) (c : gmap bytes nat) :
  foldl (λ c name, delete name c) c names = filter (λ p, p.1 ∉ names) c.
Proof.
  revert c. induction names as [|x names IH]; intros c; cbn [foldl].
  - symmetry. apply map_filter_id. intros; apply not_elem_of_nil.
  - rewrite IH. apply map_eq. intros n. rewrite !map_lookup_filter. destruct (decide (n = x)) as [->|Hne].
    + rewrite lookup_delete_eq. cbn. destruct (c !! x); cbn; [|done]. case_guard; [|done]. set_solver.
    + rewrite lookup_delete_ne by done. destruct (c !! n); cbn; [|done]. repeat case_guard; set_solver.
Qed.

(** [CloseAll] empties the registry, closes every registered instance and no other, and
    keeps the configurations, in whatever order it visits the caches. *)
Theorem close_all_closes_exactly o o' m :
  let m' := CloseAll o o' m in
  caches m' = ∅ ∧ configs m' = configs m ∧
  ∀ id, open_at m' id ↔ open_at m id ∧ ∀ name, caches m !! name ≠ Some id.
Proof.
  cbv zeta. unfold CloseAll, closeAll_close, closeAll_clear.
  destruct (close_list (range o (map_to_list (caches m)).*2) m) as (H1 & H2 & H3). set (m1 := foldl _ m _) in *.
  split_and!; [|done|].
  - cbn [caches put_caches]. rewrite delete_list, H1. apply map_empty. intros n. rewrite map_lookup_filter.
    destruct (caches m !! n) as [id|] eqn:E; [|done]. cbn. case_guard as Hg; [|done]. exfalso. apply Hg. rewrite elem_of_range.
    apply list_elem_of_fmap. exists (n, id). split; [done|]. by apply elem_of_map_to_list.
  - intros id. change (open_at (put_caches _ m1) id) with (open_at m1 id). rewrite H3, elem_of_range. split; intros [Ho Hn]; (split; [done|]).
    + intros name E. apply Hn, list_elem_of_fmap. exists (name, id). split; [done|]. by apply elem_of_map_to_list.
    + intros ([name x] & -> & E%elem_of_map_to_list)%list_elem_of_fmap. by eapply Hn.
Qed.
End Manager.
Arguments Manager : clear implicits.
Arguments instance : clear implicits.

(** ** Instances: two goroutines race for the name [1]. *)
Definition move (i : nat) (s : @sys bool) : @sys bool :=
  match calls s !! i with
  | Some (name, t, p) => let '(m, p) := get_step name t p (mgr s) in MkSys m (<[i := (name, t, p)]> (calls s))
  | None => s
  end.
Definition race : @sys bool :=
  foldl (λ s i, move i s) (MkSys NewManager [([1], true, Start); ([1], true, Start)]) [0; 1; 0; 1; 0; 1; 1; 0; 0]%nat.

Lemma move_reachable i s : sreachable s → sreachable (move i s).
Proof.
  intros Hs. unfold move. destruct (calls s !! i) as [[[name t] p]|] eqn:E; [|done].
  destruct (get_step name t p (mgr s)) as [m p'] eqn:Ep. eapply sr_step; [done|]. by eapply s_get.
Qed.
Lemma race_reachable : sreachable race.
Proof.
  unfold race. cbn [foldl]. repeat apply move_reachable.
  apply (sr_step (MkSys NewManager [([1], true, Start)])); [|apply (s_call (MkSys NewManager [([1], true, Start)]))].
  eapply sr_step; [apply sr_init|]. apply (s_call (MkSys NewManager [])).
Qed.
Lemma get_cache_single_instance_witness :
  calls race = [([1], true, Done (inl 1%nat)); ([1], true, Done (inl 1%nat))] ∧ open_at (mgr race) 1 ∧
  map closed (instances (mgr race)) = [true; false].
Proof.
  split; [vm_compute; reflexivity|]. split; [|vm_compute; reflexivity].
  destruct (get_cache_single_instance race [1] true true 0 1 1 1 race_reachable) as (_ & _ & H & _);
    [vm_compute; reflexivity..|exact H].
Defined.

Lemma remove_keeps_configuration_witness :
  let m2 := RemoveCache [1] (GetCache [1] true (RegisterCache [1] DefaultConfig NewManager).1).1 in
  (RegisterCache [1] DefaultConfig m2).2 = Some (MkCacheError OpRegister [1] ErrCacheExists).
Proof.
  destruct (remove_keeps_configuration [1] true DefaultConfig DefaultConfig NewManager) as (_ & _ & H & _);
    [reflexivity..|exact H].
Defined.

(** A cache created between the two passes of [CloseAll] loses its registration and stays
    open. *)
Theorem close_all_can_leak :
  let m := closeAll_clear inOrder (GetCache [1] true (closeAll_close inOrder NewManager)).1 in
  caches m = ∅ ∧ map closed (instances m) = [false].
Proof. vm_compute. done. Qed.
End Manager.
