(* ===== verification/Node.v ===== *)
(** * The data plane of a cluster node ([src/cluster/node.go], [src/cluster/wire.go])

    The inbound RPCs on the local cache with last-writer-wins versions.  The local cache is any
    that satisfies [CacheLaws]; the key codec is one of [KeyCodec]; the value codec and gzip
    are parameters.  A request is one [env]: the clock readings and the runtime's choices while
    it is served.  [rpcSet] is cut at its accesses to shared state, for the theorem on
    concurrent requests. *)
From Stdlib Require Import ZArith Lia.
From stdpp Require Import base numbers list gmap sets.
From S2P Require Import Prelude Shard Eviction Cache CacheIface Hlc KeyCodec Rendezvous.
Local Open Scope Z_scope.

Module Node.
Import Hlc KeyCodec.

(** ** Messages *)
Inductive rpcErr := errKeyTooLarge | errValueTooLarge | errKeyCodec (e : decodeError) | errGzip | errEncode | errDecode | errNotFound.

Record MsgGetResp := MkGetResp { gFound : bool; gVal : bytes; gExp : Z; gCp : bool; gErr : option rpcErr }.
Record MsgGetBulkResp := MkGetBulkResp { bHits : list bool; bVals : list bytes; bExps : list Z; bCps : list bool }.
Record MsgSet := MkSet { sKey : bytes; sVal : bytes; sExp : Z; sVer : Z; sCp : bool }.
Record MsgResp := MkResp { OK : bool; Err : option rpcErr }.
Record KV := MkKV { kvK : bytes; kvV : bytes; kvE : Z; kvVer : Z; kvCp : bool }.
Record MsgDel := MkDel { dKey : bytes; dVer : Z }.

(** What the node's configuration fixes for these calls. *)
Record Config := MkConfig {
  SelfID : Rendezvous.NodeID; ReplicationFactor : Z; WriteConcern : Z; LWWEnabled : bool;
  MaxKeySize : Z; MaxValueSize : Z; CompressionThreshold : Z; MirrorTTL : Z; RebalanceLimit : Z }.

(** What the runtime decides while a request is served. *)
Record env := MkEnv {
  e_now : Z; e_now' : Z; e_ms : Z; e_rt : runtime; e_order : nat → rangeOrder; e_pool : option nat }.

Class Codec (V : Type) := { Encode : V → option bytes; Decode : bytes → option V }.

Section Node.
Context {C K V : Type} `{Ops : CacheOps C K V, KC : KeyCodec K, VC : Codec V}.
Context (gzip : bytes → bytes) (gunzip : bytes → option bytes).

Record Node := MkNode {
  cfg : Config; local : C; version : gmap bytes Z; clock : hlc;
  nring : Rendezvous.ring; hotSet : gmap bytes Z }.
Definition put_local (c : C) (n : Node) : Node := MkNode (cfg n) c (version n) (clock n) (nring n) (hotSet n).
Definition put_version (k : bytes) (v : Z) (n : Node) : Node :=
  MkNode (cfg n) (local n) (<[k := v]> (version n)) (clock n) (nring n) (hotSet n).
Definition put_clock (h : hlc) (n : Node) : Node := MkNode (cfg n) (local n) (version n) h (nring n) (hotSet n).
Definition put_ring (r : Rendezvous.ring) (n : Node) : Node := MkNode (cfg n) (local n) (version n) (clock n) r (hotSet n).
Definition put_hot (h : gmap bytes Z) (n : Node) : Node := MkNode (cfg n) (local n) (version n) (clock n) (nring n) h.

(** [n.version[k]] of a missing key is 0. *)
Definition version_of (n : Node) (k : bytes) : Z := default 0 (version n !! k).
(** The table update and the clock observation that follow an applied write. *)
Definition record_version (e : env) (k : bytes) (ver : Z) (n : Node) : Node :=
  let n := put_version k ver n in put_clock (Observe (e_ms e) ver (clock n)) n.
Definition lwwSetVersion (bk : bytes) (ver : Z) (n : Node) : Node := put_version bk ver n.

Definition maybeCompress (n : Node) (b : bytes) : bytes * bool :=
  let thr := CompressionThreshold (cfg n) in
  if (thr <=? 0) || (Z.of_nat (length b) <? thr) then (b, false)
  else let z := gzip b in
       if (length b <=? length z)%nat then (b, false) else (z, true).
Definition maybeDecompress (b : bytes) (cp : bool) : option bytes := if negb cp then Some b else gunzip b.

Definition too_large (limit : Z) (b : bytes) : bool := (0 <? limit) && (limit <? Z.of_nat (length b)).

(** ** Reads *)
Definition get_err (e : rpcErr) : MsgGetResp := MkGetResp false [] 0 false (Some e).

Definition rpcGet (e : env) (key : bytes) (n : Node) : Node * MsgGetResp :=
  match DecodeKey key with
  | inr err => (n, get_err (errKeyCodec err))
  | inl k =>
      let '(c, r) := cget (local n) k (e_now e) (e_now' e) in
      let n := put_local c n in
      match r with
      | Some v =>
          match Encode v with
          | None => (n, get_err errEncode)
          | Some b =>
              if too_large (MaxValueSize (cfg n)) b then (n, get_err errValueTooLarge)
              else let '(b2, cp) := maybeCompress n b in (n, MkGetResp true b2 0 cp None)
          end
      | None => (n, get_err errNotFound)
      end
  end.

(** One round of the loop of [rpcGetBulk]: the slots [(hit, value, expiry, compressed)]. *)
Definition getBulk_one (e : env) (n : Node) (kb : bytes) : Node * (bool * bytes * Z * bool) :=
  let miss := (false, [], 0, false) in
  match DecodeKey kb with
  | inr _ => (n, miss)
  | inl k =>
      let '(c, r) := cget (local n) k (e_now e) (e_now' e) in
      let n := put_local c n in
      match r with
      | Some v =>
          let b := default [] (Encode v) in
          if too_large (MaxValueSize (cfg n)) b then (n, miss)
          else let '(b2, cp) := maybeCompress n b in (n, (true, b2, 0, cp))
      | None => (n, miss)
      end
  end.
Fixpoint getBulk_loop (es : nat → env) (i : nat) (keys : list bytes) (n : Node) : Node * list (bool * bytes * Z * bool) :=
  match keys with
  | [] => (n, [])
  | kb :: keys =>
      let '(n, r) := getBulk_one (es i) n kb in
      let '(n, rs) := getBulk_loop es (S i) keys n in (n, r :: rs)
  end.
Definition rpcGetBulk (es : nat → env) (keys : list bytes) (n : Node) : Node * MsgGetBulkResp :=
  let '(n, rs) := getBulk_loop es 0 keys n in
  (n, MkGetBulkResp ((λ r, r.1.1.1) <$> rs) ((λ r, r.1.1.2) <$> rs) ((λ r, r.1.2) <$> rs) (snd <$> rs)).

(** ** Writes *)
Definition ok : MsgResp := MkResp true None.
Definition fail (e : rpcErr) : MsgResp := MkResp false (Some e).

(** The checks of [rpcSet] up to the key. *)
Definition set_validate (n : Node) (s : MsgSet) : bytes * K + rpcErr :=
  if too_large (MaxKeySize (cfg n)) (sKey s) then inr errKeyTooLarge
  else if too_large (MaxValueSize (cfg n)) (sVal s) then inr errValueTooLarge
  else match maybeDecompress (sVal s) (sCp s) with
       | None => inr errGzip
       | Some vbytes =>
           if too_large (MaxValueSize (cfg n)) vbytes then inr errValueTooLarge
           else match DecodeKey (sKey s) with inr err => inr (errKeyCodec err) | inl k => inl (vbytes, k) end
       end.

(** The item [rpcSet] imports. *)
Definition set_item (s : MsgSet) (k : K) (v : V) : ExportItem := MkItem k v (sExp s) (sVer s).
Definition import_one (e : env) (it : ExportItem) (n : Node) : Node :=
  put_local (cimport (local n) (e_now e) (e_order e) [(it, e_pool e)]) n.

Definition rpcSet (e : env) (s : MsgSet) (n : Node) : Node * MsgResp :=
  match set_validate n s with
  | inr err => (n, fail err)
  | inl (vbytes, k) =>
      if LWWEnabled (cfg n) && (sVer s <? version_of n (sKey s)) then (n, ok)
      else match Decode vbytes with
           | None => (n, fail errDecode)
           | Some v =>
               let n := import_one e (set_item s k v) n in
               let n := if LWWEnabled (cfg n) then record_version e (sKey s) (sVer s) n else n in
               (n, ok)
           end
  end.

(** The loop of [rpcSetBulk]: the items to import; an error ends it, with the versions of the
    earlier items already recorded. *)
Fixpoint setBulk_loop (e : env) (kvs : list KV) (items : list ExportItem) (n : Node)
    : Node * (list ExportItem + rpcErr) :=
  match kvs with
  | [] => (n, inl items)
  | kv :: kvs =>
      if too_large (MaxKeySize (cfg n)) (kvK kv) then (n, inr errKeyTooLarge)
      else if too_large (MaxValueSize (cfg n)) (kvV kv) then (n, inr errValueTooLarge)
      else match DecodeKey (kvK kv) with
           | inr err => (n, inr (errKeyCodec err))
           | inl k =>
               match maybeDecompress (kvV kv) (kvCp kv) with
               | None => (n, inr errGzip)
               | Some vbytes =>
                   if too_large (MaxValueSize (cfg n)) vbytes then (n, inr errValueTooLarge)
                   else match Decode vbytes with
                        | None => (n, inr errDecode)
                        | Some v =>
                            if LWWEnabled (cfg n) && (kvVer kv <? version_of n (kvK kv)) then setBulk_loop e kvs items n
                            else
                              let n := if LWWEnabled (cfg n) then record_version e (kvK kv) (kvVer kv) n else n in
                              setBulk_loop e kvs (items ++ [MkItem k v (kvE kv) (kvVer kv)]) n
                        end
               end
           end
  end.
Definition rpcSetBulk (e : env) (kvs : list KV) (n : Node) : Node * MsgResp :=
  match setBulk_loop e kvs [] n with
  | (n, inr err) => (n, fail err)
  | (n, inl items) => (put_local (cimport (local n) (e_now e) (e_order e) ((λ it, (it, e_pool e)) <$> items)) n, ok)
  end.

Definition rpcDel (e : env) (d : MsgDel) (n : Node) : Node * MsgResp :=
  if too_large (MaxKeySize (cfg n)) (dKey d) then (n, fail errKeyTooLarge)
  else match DecodeKey (dKey d) with
       | inr err => (n, fail (errKeyCodec err))
       | inl k =>
           if LWWEnabled (cfg n) && (dVer d <? version_of n (dKey d)) then (n, ok)
           else
             let n := if LWWEnabled (cfg n) then record_version e (dKey d) (dVer d) n else n in
             let '(c, b) := cdelete (local n) k in
             (put_local c n, MkResp b None)
       end.
End Node.
Arguments Node : clear implicits.
End Node.
