(* ===== verification/NodeTheorems.v ===== *)
(** * Last writer wins

    The theorems on the inbound writes of a node, from the laws of the cache and of the key
    codec: error atomicity, convergence of replicas, round trips through the wire encoding, and
    what goes wrong when two requests for one key overlap. *)
From Stdlib Require Import ZArith Lia.
From stdpp Require Import base numbers list gmap sets.
From S2P Require Import Prelude Admission Shard Eviction Cache CacheInv CacheSpec CacheTheorems CacheIface Hlc KeyCodec Rendezvous Node.
Local Open Scope Z_scope.

Module NodeTheorems.
Import Hlc KeyCodec Node.

Section NodeTheorems.
Context {C K V : Type} `{EqDecision K, Ops : !CacheOps C K V, Laws : !CacheLaws C K V}.
Context (KC : KeyCodec K) (dom : K → Prop) (KCL : KeyCodecLaws KC dom) `{VC : Codec V}.
Context (gunzip : bytes → option bytes).
Abbreviation node := (Node C).
Abbreviation rpcSet := (rpcSet gunzip).
Implicit Types n : node.

(** ** Effects of one message *)
Inductive msg := MSet (s : MsgSet) | MDel (d : MsgDel).
Definition m_key (m : msg) : bytes := match m with MSet s => sKey s | MDel d => dKey d end.
Definition m_ver (m : msg) : Z := match m with MSet s => sVer s | MDel d => dVer d end.
Definition deliver (n : node) (em : env * msg) : node :=
  match em.2 with MSet s => (rpcSet em.1 s n).1 | MDel d => (rpcDel em.1 d n).1 end.

(** The value a well-formed message leaves under its key [k]: [None] for a delete. *)
Definition effect (c : Config) (m : msg) (k : K) (r : option (V * Z)) : Prop :=
  is_bytes (m_key m) ∧ DecodeKey (m_key m) = inl k ∧
  too_large (MaxKeySize c) (m_key m) = false ∧ 0 ≤ m_ver m ∧
  match m with
  | MSet s => ∃ vb v, too_large (MaxValueSize c) (sVal s) = false ∧ maybeDecompress gunzip (sVal s) (sCp s) = Some vb ∧
                too_large (MaxValueSize c) vb = false ∧ Decode vb = Some v ∧ r = Some (v, sExp s)
  | MDel _ => r = None
  end.

Lemma decode_inj b b' k : is_bytes b → is_bytes b' → DecodeKey b = inl k → DecodeKey b' = inl k → b = b'.
Proof. intros Hb Hb' H H'. destruct (encode_decode b k Hb H) as [_ <-], (encode_decode b' k Hb' H') as [_ <-]. done. Qed.
Lemma effect_key c m m' k r r' : effect c m k r → effect c m' k r' → m_key m = m_key m'.
Proof. intros (H1 & H2 & _) (H3 & H4 & _). by eapply decode_inj. Qed.

(** Delivering a well-formed message: dropped if older, else recorded, applied to its key and
    possibly followed by the eviction of others. *)
Lemma deliver_effect w n e m k r :
  LWWEnabled (cfg n) = true → effect (cfg n) m k r → wf w (local n) →
  let n' := deliver n (e, m) in
  cfg n' = cfg n ∧ wf w (local n') ∧
  if m_ver m <? version_of n (m_key m) then n' = n
  else version n' = <[m_key m := m_ver m]> (version n) ∧ cfind (local n') k = r ∧ others_kept k (local n) (local n').
Proof.
  intros Hl (Hb & Hk & Hsz & _ & Hm) Hw. unfold deliver. cbn [fst snd]. destruct m as [s|d]; cbn [m_key m_ver] in *.
  - destruct Hm as (vb & v & Hv1 & Hz & Hv2 & Hd & ->). unfold Node.rpcSet, set_validate.
    rewrite Hsz, Hv1, Hz, Hv2, Hk, Hl. cbn [andb]. destruct (sVer s <? version_of n (sKey s)); [done|]. rewrite Hd.
    destruct (law_import w (local n) (e_now e) (e_order e) (set_item s k v) (e_pool e) Hw) as (Hw' & _ & Hf & Ho). cbn. rewrite Hl. cbn. done.
  - subst r. unfold rpcDel. rewrite Hsz, Hk, Hl. cbn [andb]. destruct (dVer d <? version_of n (dKey d)); [done|].
    destruct (law_delete w (local n) k Hw) as (Hw' & _ & _ & Hf). cbn. destruct (cdelete (local n) k) as [c b] eqn:E. cbn in *.
    split_and!; [done|done|done|by rewrite Hf, decide_True|]. intros k' Hne. left. by rewrite Hf, decide_False.
Qed.

(** ** Histories *)

(** After the messages [ms]: the version of a key is the largest delivered, and what is stored
    under it, if anything, is the effect of a message with that version. *)
Fixpoint newest (ms : list msg) (kb : bytes) : Z :=
  match ms with [] => 0 | m :: ms => if decide (m_key m = kb) then Z.max (m_ver m) (newest ms kb) else newest ms kb end.

Definition tracks (n : node) (ms : list msg) : Prop :=
  (∀ kb, version_of n kb = newest ms kb) ∧
  ∀ k v, cfind (local n) k = Some v → ∃ m, m ∈ ms ∧ effect (cfg n) m k (Some v) ∧ m_ver m = newest ms (m_key m).

Definition well_formed (c : Config) (ms : list msg) : Prop := ∀ m, m ∈ ms → ∃ k r, effect c m k r.

Lemma newest_nonneg ms kb : 0 ≤ newest ms kb.
Proof. induction ms as [|m ms IH]; cbn; [lia|]. case_decide; lia. Qed.
Lemma newest_ge ms m : m ∈ ms → m_ver m ≤ newest ms (m_key m).
Proof.
  induction ms as [|m' ms IH]; [by intros ?%elem_of_nil|]. intros [->|H%IH]%elem_of_cons; cbn; [rewrite decide_True by done; lia|].
  case_decide; lia.
Qed.
Lemma newest_perm ms ms' kb : ms ≡ₚ ms' → newest ms kb = newest ms' kb.
Proof. induction 1 as [|m ms ms' _ IH|m1 m2 ms|ms1 ms2 ms3 _ IH1 _ IH2]; cbn; [done|by rewrite IH|repeat case_decide; lia|congruence]. Qed.

Lemma tracks_step w n e m ms :
  LWWEnabled (cfg n) = true → wf w (local n) → well_formed (cfg n) [m] → tracks n ms →
  let n' := deliver n (e, m) in cfg n' = cfg n ∧ wf w (local n') ∧ tracks n' (m :: ms).
Proof.
  intros Hl Hw Hwf [Hv Hc]. destruct (Hwf m ltac:(set_solver)) as (k & r & He).
  destruct (deliver_effect w n e m k r Hl He Hw) as (Ec & Hw' & Hd). split_and!; [done|done|].
  destruct (Z.ltb_spec (m_ver m) (version_of n (m_key m))) as [Hlt|Hge].
  - rewrite Hd. rewrite Hv in Hlt. assert (∀ kb, newest (m :: ms) kb = newest ms kb) as Hn.
    { intros kb. cbn. case_decide; [subst; lia|done]. }
    split; [intros kb; by rewrite Hn|]. intros k' v (m' & Hin & He' & Hver)%Hc. exists m'. rewrite Hn. set_solver.
  - destruct Hd as (Hver & Hf & Ho). rewrite Hv in Hge.
    assert (∀ kb, newest (m :: ms) kb = if decide (kb = m_key m) then m_ver m else newest ms kb) as Hn.
    { intros kb. cbn. destruct (decide (m_key m = kb)) as [<-|]; [rewrite decide_True by done; lia|]. by rewrite decide_False. }
    split.
    + intros kb. rewrite Hn. unfold version_of. rewrite Hver. case_decide as E.
      * subst kb. by rewrite lookup_insert_eq.
      * rewrite lookup_insert_ne by done. apply Hv.
    + intros k' v Hk'. rewrite Ec. destruct (decide (k' = k)) as [->|Hne].
      * exists m. rewrite Hn, decide_True by done. split_and!; [set_solver| |done]. rewrite Hf in Hk'. by rewrite <-Hk'.
      * destruct (Ho k' Hne) as [Hk|Hk]; rewrite Hk in Hk'; [|done]. apply Hc in Hk' as (m' & Hin & He' & Hv').
        exists m'. rewrite Hn, decide_False; [set_solver|]. intros E. apply Hne.
        destruct He as (_ & Hd1 & _), He' as (_ & Hd2 & _). rewrite E, Hd1 in Hd2. by injection Hd2.
Qed.

Lemma tracks_run w n ems ms :
  LWWEnabled (cfg n) = true → wf w (local n) → well_formed (cfg n) ems.*2 → tracks n ms →
  let n' := foldl deliver n ems in cfg n' = cfg n ∧ wf w (local n') ∧ tracks n' (rev ems.*2 ++ ms).
Proof.
  revert n ms. induction ems as [|[e m] ems IH]; intros n ms Hl Hw Hwf Ht; [done|]. cbn [foldl fmap list_fmap snd rev].
  destruct (tracks_step w n e m ms Hl Hw) as (Ec & Hw' & Ht'); [intros m' Hin; apply Hwf; set_solver|done|].
  destruct (IH (deliver n (e, m)) (m :: ms)) as (Ec2 & Hw2 & Ht2); [by rewrite Ec|done|intros m' Hin; rewrite Ec; apply Hwf; set_solver|done|].
  split_and!; [congruence|done|]. rewrite <-app_assoc. done.
Qed.

(** A node that has applied no write yet. *)
Definition fresh (w : nat) (n : node) : Prop :=
  LWWEnabled (cfg n) = true ∧ wf w (local n) ∧ version n = ∅ ∧ ∀ k, cfind (local n) k = None.
Lemma fresh_tracks w n : fresh w n → tracks n [].
Proof.
  intros (_ & _ & Hv & Hc). split; [intros kb; unfold version_of; by rewrite Hv, lookup_empty|]. intros k v H. by rewrite Hc in H.
Qed.

Lemma delivered w n ems :
  fresh w n → well_formed (cfg n) ems.*2 → cfg (foldl deliver n ems) = cfg n ∧ tracks (foldl deliver n ems) ems.*2.
Proof.
  intros Hf Hwf. pose proof (fresh_tracks w n Hf) as Ht. destruct Hf as (Hl & Hw & _).
  destruct (tracks_run w n ems [] Hl Hw Hwf Ht) as (Ec & _ & Hv & Hc). split; [done|]. rewrite app_nil_r in Hv, Hc. split.
  - intros kb. rewrite Hv. apply newest_perm. symmetry. apply Permutation_rev.
  - intros k v (m & Hin & He & Hver)%Hc. exists m. rewrite (newest_perm ems.*2 (rev ems.*2)) by apply Permutation_rev.
    split_and!; [|done|done]. by rewrite (Permutation_rev ems.*2).
Qed.

(** Different writes of a key carry different versions. *)
Definition versions_unique (ms : list msg) : Prop :=
  ∀ m m', m ∈ ms → m' ∈ ms → m_key m = m_key m' → m_ver m = m_ver m' → m = m'.


(** Replicas converge: two nodes that receive the same well-formed writes in different
    orders end with the same version for every key, and agree on the value of every key that
    both still hold. *)
Theorem replicas_converge w w' n1 n2 ems1 ems2 k v1 v2 kb :
  fresh w n1 → fresh w' n2 → cfg n1 = cfg n2 → ems1.*2 ≡ₚ ems2.*2 →
  well_formed (cfg n1) ems1.*2 → versions_unique ems1.*2 →
  version_of (foldl deliver n1 ems1) kb = version_of (foldl deliver n2 ems2) kb ∧
  (cfind (local (foldl deliver n1 ems1)) k = Some v1 → cfind (local (foldl deliver n2 ems2)) k = Some v2 → v1 = v2).
Proof.
  intros Hf1 Hf2 Ec Hp Hwf Hu.
  assert (well_formed (cfg n2) ems2.*2) as Hwf2 by (intros m Hin; rewrite <-Ec; apply Hwf; by rewrite Hp).
  destruct (delivered w n1 ems1 Hf1 Hwf) as (Ec1 & Hv1 & Hc1), (delivered w' n2 ems2 Hf2 Hwf2) as (Ec2 & Hv2 & Hc2).
  split; [by rewrite Hv1, Hv2, (newest_perm _ _ _ Hp)|].
  intros (m1 & Hin1 & He1 & Hm1)%Hc1 (m2 & Hin2 & He2 & Hm2)%Hc2. rewrite Ec1 in He1. rewrite Ec2, <-Ec in He2.
  pose proof (effect_key _ _ _ _ _ _ He1 He2) as Ek. rewrite <-Hp in Hin2. rewrite <-(newest_perm _ _ _ Hp) in Hm2.
  assert (m1 = m2) as <- by (apply Hu; congruence).
  destruct He1 as (_ & _ & _ & _ & H1), He2 as (_ & _ & _ & _ & H2). destruct m1 as [s|d]; [|done].
  destruct H1 as (? & ? & _ & Hz & _ & Hd & E1), H2 as (? & ? & _ & Hz' & _ & Hd' & E2). congruence.
Qed.


(** The critical sections of an accepted [rpcSet]: import, then record the version. *)
Lemma rpcSet_sections e s n vb k v :
  set_validate gunzip n s = inl (vb, k) → LWWEnabled (cfg n) = true → version_of n (sKey s) ≤ sVer s → Decode vb = Some v →
  rpcSet e s n = (record_version e (sKey s) (sVer s) (import_one e (set_item s k v) n), ok).
Proof.
  intros Hs Hl Hv Hd. unfold Node.rpcSet. rewrite Hs, Hl, Hd. cbn [andb]. destruct (Z.ltb_spec (sVer s) (version_of n (sKey s))); [lia|].
  cbn. by rewrite Hl.
Qed.
End NodeTheorems.

(** ** Instances: byte-string keys and values on a small LRU cache *)
#[export] Instance bytes_inhabited : Inhabited bytes := populate [].
#[export] Instance bytes_codec : Codec bytes := {| Encode b := Some b; Decode b := if decide (b = [0]) then None else Some b |}.
#[export] Instance demo_keys : KeyCodec bytes := BytesKeyCodec (λ _, 7).
Lemma demo_keys_laws : KeyCodecLaws demo_keys is_bytes.
Proof. apply BytesKeyCodec_laws. Qed.

Definition demo_config : Config := MkConfig [1] 2 1 true 16 16 0 0 0.
Definition demo_node : Node (InMemoryCache bytes bytes) :=
  MkNode demo_config (New 4 (Admission.clock_at 0) (small LRU)) ∅ (newHLC 1) (Rendezvous.newRing 2) ∅.
Definition at_time (t : Z) : env := MkEnv t t t (Runtime t inOrder (Admission.clock_at t) None) (λ _, inOrder) None.
Definition no_gzip : bytes → option bytes := λ _, None.

Definition set1 := MSet (MkSet [5] [10] 0 100 false).
Definition set2 := MSet (MkSet [5] [20] 0 200 false).
Definition del3 := MDel (MkDel [6] 150).

Lemma demo_fresh : fresh 5 demo_node.
Proof.
  split_and!; [done| |done|].
  - apply cache_reachable_wf; [|done|cbn; lia]. exists 4, (Admission.clock_at 0), (small LRU), []. split; [apply demo_valid|].
    split; [constructor|]. split; [cbn; lia|done].
  - intros k. cbn [cfind InMemoryCache_ops local demo_node]. unfold content, peek.
    assert (getShard (New 4 (Admission.clock_at 0) (small LRU) : InMemoryCache bytes bytes) k = 0%nat) as ->; [|reflexivity].
    unfold getShard, shardByHash. assert (shardMask (New 4 (Admission.clock_at 0) (small LRU) : InMemoryCache bytes bytes) = 0) as -> by reflexivity.
    by rewrite Z.land_0_r.
Qed.
Lemma set1_effect : effect demo_keys no_gzip demo_config set1 [5] (Some ([10], 0)).
Proof. split_and!; [repeat constructor; lia|done|done|cbn; lia|]. exists [10], [10]. by split_and!. Qed.
Lemma set2_effect : effect demo_keys no_gzip demo_config set2 [5] (Some ([20], 0)).
Proof. split_and!; [repeat constructor; lia|done|done|cbn; lia|]. exists [20], [20]. by split_and!. Qed.
Lemma del3_effect : effect (V := bytes) demo_keys no_gzip demo_config del3 [6] None.
Proof. split_and!; [repeat constructor; lia|done|done|cbn; lia|done]. Qed.
Definition demo_msgs : list (env * msg) := [(at_time 1, set2); (at_time 2, del3); (at_time 3, set1)].
Lemma demo_well_formed ems : ems ⊆ demo_msgs.*2 → well_formed (V := bytes) demo_keys no_gzip demo_config ems.
Proof.
  intros Hs m Hin%Hs. cbn in Hin. rewrite !elem_of_cons, elem_of_nil in Hin.
  destruct Hin as [->|[->|[->|[]]]]; eauto using set1_effect, set2_effect, del3_effect.
Qed.
Lemma demo_unique : versions_unique demo_msgs.*2.
Proof.
  intros m m' Hm Hm'. cbn in Hm, Hm'. rewrite !elem_of_cons, elem_of_nil in Hm, Hm'.
  destruct Hm as [->|[->|[->|[]]]], Hm' as [->|[->|[->|[]]]]; cbn; congruence.
Qed.


Lemma replicas_converge_witness :
  let n1 := foldl (deliver demo_keys no_gzip) demo_node demo_msgs in
  let n2 := foldl (deliver demo_keys no_gzip) demo_node (reverse demo_msgs) in
  version_of n1 [5] = version_of n2 [5] ∧ cfind (local n1) [5] = cfind (local n2) [5].
Proof.
  destruct (replicas_converge demo_keys is_bytes demo_keys_laws no_gzip 5 5 demo_node demo_node demo_msgs (reverse demo_msgs) [5] ([20], 0) ([20], 0) [5]
    demo_fresh demo_fresh eq_refl) as [H1 H2]; [|by apply demo_well_formed|apply demo_unique|].
  - rewrite fmap_reverse, reverse_Permutation. done.
  - split; [exact H1|]. vm_compute. reflexivity.
Defined.

(** Two requests for one key overlap: both pass the version check, the newer one finishes
    first, then the older one overwrites the value and the version. *)
Theorem overlapping_sets_lose_newest :
  let old := MkSet [5] [10] 0 100 false in
  let new := MkSet [5] [20] 0 200 false in
  let section s v n := record_version (at_time 1) (sKey s) (sVer s) (import_one (at_time 1) (set_item s [5] v) n) in
  (rpcSet no_gzip (at_time 1) new demo_node).1 = section new [20] demo_node ∧
  (rpcSet no_gzip (at_time 1) old demo_node).1 = section old [10] demo_node ∧
  let n := section old [10] (section new [20] demo_node) in
  version_of n [5] = 100 ∧ cfind (local n) [5] = Some ([10], 0) ∧
  cfind (local (rpcSet no_gzip (at_time 1) old (rpcSet no_gzip (at_time 1) new demo_node).1).1) [5] = Some ([20], 0).
Proof. vm_compute. done. Qed.

(** A bulk set that fails at its second item has recorded the version of the first, whose
    value is never imported. *)
Theorem failed_bulk_loses_first_item :
  let '(n, r) := rpcSetBulk no_gzip (at_time 1) [MkKV [5] [10] 0 100 false; MkKV [6] [0] 0 101 false] demo_node in
  r = fail errDecode ∧ version_of n [5] = 100 ∧ cfind (local n) [5] = None ∧
  cfind (local (rpcSet no_gzip (at_time 2) (MkSet [5] [9] 0 99 false) n).1) [5] = None.
Proof. vm_compute. done. Qed.

(** Deleting a key that is not stored is answered with [OK = false], so a hint for it is
    replayed until it expires. *)
Theorem delete_of_absent_key_not_acknowledged :
  (rpcDel (at_time 1) (MkDel [5] 100) demo_node).2 = MkResp false None ∧
  version_of (rpcDel (at_time 1) (MkDel [5] 100) demo_node).1 [5] = 100.
Proof. vm_compute. done. Qed.
End NodeTheorems.
