(* ===== verification/Replication.v ===== *)
(** * Replication of a write to its owners ([src/cluster/replication.go])

    One call of [replicateSet] or [replicateDelete]: the sends to the other owners, each in its
    own goroutine, the acknowledgement counter, the error channel and the waiting caller.  The
    call is a list of events in the order they happen; a send that outlives the caller still
    leaves a hint when it fails.  [hint] is the call to the handoff manager that a failed send
    makes. *)
From Stdlib Require Import ZArith Lia.
From stdpp Require Import base numbers list gmap sets.
From S2P Require Import Prelude Rendezvous Handoff Replay.
Local Open Scope Z_scope.

Module Replication.
Import Rendezvous Replay.

Inductive replErr := SendFailed | ErrTimeout | CtxErr.

(** The state shared by the caller and the sends. *)
Record call := MkCall {
  remaining_ : Z;                   (* the atomic counter *)
  errCh : list (option replErr);    (* [None]: the write concern is met *)
  sending : list NodeID;            (* sends in flight *)
  result : option (option replErr); (* what the caller returned *)
  hh : option handoff;
  acked : list NodeID;
  hinted : list NodeID }.

Section Replication.
Context (hint : NodeID → handoff → handoff) (connected : NodeID → bool).

Definition add_hint (id : NodeID) (c : call) : call :=
  MkCall (remaining_ c) (errCh c) (sending c) (result c) (hint id <$> hh c) (acked c) (hinted c ++ [id]).

(** The start of the call: [required], [want], the fast path and the spawned sends. *)
Definition required (writeConcern : Z) : Z := if writeConcern <? 1 then 1 else writeConcern.
Definition self_acks (self : NodeID) (owners : list nodeMeta) : Z :=
  match owners with o :: _ => if bool_decide (ID o = self) then 1 else 0 | [] => 0 end.
Definition targets (self : NodeID) (owners : list nodeMeta) : list NodeID :=
  filter (λ id, id ≠ self) (ID <$> owners).

Definition begin (writeConcern : Z) (self : NodeID) (owners : list nodeMeta) (h : option handoff) : call :=
  let want := required writeConcern - self_acks self owners in
  if want <=? 0 then MkCall (i32 want) [] (targets self owners) (Some None) h [] []
  else
    let c := MkCall (i32 want) [] [] None h [] [] in
    foldl (λ c id, if connected id
                   then MkCall (remaining_ c) (errCh c) (sending c ++ [id]) (result c) (hh c) (acked c) (hinted c)
                   else add_hint id c) c (targets self owners).

(** A send that is through: [good] when there is a connection and the peer answered [OK].  On the fast path nobody counts. *)
Definition complete (fast : bool) (id : NodeID) (good : bool) (c : call) : call :=
  if bool_decide (id ∈ sending c) then
    let rest := filter (λ x, x ≠ id) (sending c) in
    if good && connected id then
      let r := i32 (remaining_ c - 1) in
      MkCall (if fast then remaining_ c else r)
        (if negb fast && (r <=? 0) then errCh c ++ [None] else errCh c)
        rest (result c) (hh c) (acked c ++ [id]) (hinted c)
    else
      let c := add_hint id c in
      MkCall (remaining_ c) (if fast then errCh c else errCh c ++ [Some SendFailed]) rest (result c) (hh c) (acked c) (hinted c)
  else c.

(** The caller's [select]. *)
Inductive event := Complete (id : NodeID) (good : bool) | Receive | TimerFires | CtxDone.
Definition put_result (r : option replErr) (c : call) : call :=
  MkCall (remaining_ c) (errCh c) (sending c) (Some r) (hh c) (acked c) (hinted c).
Definition step (fast : bool) (c : call) (e : event) : call :=
  match e, result c with
  | Complete id good, _ => complete fast id good c
  | Receive, None =>
      match errCh c with
      | None :: es => MkCall (remaining_ c) es (sending c) (Some None) (hh c) (acked c) (hinted c)
      | Some _ :: es => MkCall (remaining_ c) es (sending c) None (hh c) (acked c) (hinted c)
      | [] => c
      end
  | TimerFires, None => put_result (Some ErrTimeout) c
  | CtxDone, None => put_result (Some CtxErr) c
  | _, Some _ => c
  end.

Definition replicate (writeConcern : Z) (self : NodeID) (owners : list nodeMeta)
    (h : option handoff) (es : list event) : call :=
  let fast := required writeConcern - self_acks self owners <=? 0 in
  foldl (step fast) (begin writeConcern self owners h) es.

(** ** Invariant *)
Record rinv (fast : bool) (want : Z) (ts : list NodeID) (c : call) : Prop := {
  ri_split : sending c ++ acked c ++ hinted c ≡ₚ ts;
  ri_room : (length (errCh c) + length (sending c) ≤ length ts)%nat;
  ri_count : fast = false → remaining_ c = want - Z.of_nat (length (acked c));
  ri_met : fast = false → None ∈ errCh c ∨ result c = Some None → remaining_ c ≤ 0;
  ri_posted : fast = false → remaining_ c ≤ 0 → None ∈ errCh c ∨ result c ≠ None }.

Lemma filter_out (l : list NodeID) id : NoDup l → id ∈ l → id :: filter (λ x, x ≠ id) l ≡ₚ l.
Proof.
  induction l as [|x l IH]; [by intros _ ?%elem_of_nil|]. intros [Hx Hnd]%NoDup_cons [->|Hin]%elem_of_cons.
  - rewrite filter_cons_False by tauto. rewrite (filter_all (λ y, y ≠ x)); [done|]. intros y Hy ->. done.
  - rewrite filter_cons_True by (intros ->; done). rewrite Permutation_swap. by rewrite IH.
Qed.

Lemma i32_id z : - 2 ^ 31 ≤ z < 2 ^ 31 → i32 z = z.
Proof. intros Hz. unfold i32. rewrite Z.mod_small; lia. Qed.

Lemma complete_inv fast want ts id good c :
  NoDup ts → want < 2 ^ 31 → Z.of_nat (length ts) < 2 ^ 31 → 0 < want ∨ fast = true →
  rinv fast want ts c → rinv fast want ts (complete fast id good c).
Proof.
  intros Hnd Hw Hlen Hpos [Hs Hr Hc Hm Hp]. unfold complete. case_bool_decide as Hin; [|done].
  assert (NoDup (sending c)) as Hnds by (rewrite <-Hs in Hnd; by apply NoDup_app in Hnd as (? & _)).
  pose proof (filter_out (sending c) id Hnds Hin) as Hf. pose proof (Permutation_length Hf) as Hl. cbn in Hl.
  set (rest := filter _ (sending c)) in *. clearbody rest.
  assert (Z.of_nat (length (acked c)) < Z.of_nat (length ts)) as Hla.
  { pose proof (Permutation_length Hs) as Hp2. rewrite !length_app in Hp2. lia. }
  destruct (good && connected id).
  - split; cbn [sending acked hinted errCh remaining_ result].
    + rewrite <-Hs, <-Hf. solve_Permutation.
    + destruct (negb fast && _); rewrite ?length_app; cbn; lia.
    + intros ->. rewrite length_app. cbn. specialize (Hc eq_refl). destruct Hpos as [Hpos|?]; [|done].
      rewrite i32_id; lia.
    + intros ->. cbn [negb andb]. specialize (Hc eq_refl). specialize (Hm eq_refl). destruct Hpos as [Hpos|?]; [|done].
      rewrite i32_id by lia. destruct (Z.leb_spec (remaining_ c - 1) 0); [lia|].
      intros H'. specialize (Hm H'). lia.
    + intros ->. cbn [negb andb]. specialize (Hc eq_refl). destruct Hpos as [Hpos|?]; [|done]. rewrite i32_id by lia.
      destruct (Z.leb_spec (remaining_ c - 1) 0); [|lia]. intros _. left. set_solver.
  - split; cbn [add_hint sending acked hinted errCh remaining_ result].
    + rewrite <-Hs, <-Hf. solve_Permutation.
    + destruct fast; rewrite ?length_app; cbn; lia.
    + done.
    + intros ->. specialize (Hm eq_refl). intros [[H|H%list_elem_of_singleton]%elem_of_app|H]; auto. done.
    + intros ->. specialize (Hp eq_refl). set_solver.
Qed.

Lemma step_inv fast want ts c e :
  NoDup ts → want < 2 ^ 31 → Z.of_nat (length ts) < 2 ^ 31 → 0 < want ∨ fast = true →
  rinv fast want ts c → rinv fast want ts (step fast c e).
Proof.
  intros Hnd Hw Hlen Hpos Hi. destruct e as [id good| | |]; cbn [step]; [by apply complete_inv|..];
    destruct (result c) eqn:Er; try done; destruct Hi as [Hs Hr Hc Hm Hp].
  - destruct (errCh c) as [|[x|] es] eqn:Ee; [by split; rewrite ?Ee|..]; split; cbn [sending acked hinted errCh remaining_ result]; try done;
      try (cbn in Hr; lia).
    + intros Hf [H|H]; [|done]. apply Hm; [done|]. left. by right.
    + intros Hf Hle. destruct (Hp Hf Hle) as [H|H]; [|done]. left. set_solver.
    + intros Hf _. apply Hm; [done|]. left. left.
    + intros _ _. by right.
  - split; cbn; try done; [|intros _ _; by right]. intros Hf [H|H]; [|done]. apply Hm; auto.
  - split; cbn; try done; [|intros _ _; by right]. intros Hf [H|H]; [|done]. apply Hm; auto.
Qed.

Lemma targets_nodup self owners : NoDup (ID <$> owners) → NoDup (targets self owners).
Proof. intros H. unfold targets. by apply NoDup_filter. Qed.

Lemma begin_inv wc self owners h :
  let want := required wc - self_acks self owners in
  want < 2 ^ 31 → rinv (want <=? 0) want (targets self owners) (begin wc self owners h).
Proof.
  intros want Hw. unfold begin. fold want. destruct (Z.leb_spec want 0).
  { split; cbn; try done; rewrite ?app_nil_r; done || lia. }
  set (c0 := MkCall (i32 want) [] [] None h [] []).
  assert (∀ ids c, acked c = [] → errCh c = [] → result c = None → remaining_ c = want →
    let c' := foldl (λ c id, if connected id
                   then MkCall (remaining_ c) (errCh c) (sending c ++ [id]) (result c) (hh c) (acked c) (hinted c)
                   else add_hint id c) c ids in
    acked c' = [] ∧ errCh c' = [] ∧ result c' = None ∧ remaining_ c' = want ∧ sending c' ++ hinted c' ≡ₚ sending c ++ hinted c ++ ids) as HI.
  { induction ids as [|id ids IH]; intros c Ha He Hr Hm; cbn [foldl]; [by rewrite app_nil_r|].
    destruct (connected id).
    - destruct (IH (MkCall (remaining_ c) (errCh c) (sending c ++ [id]) (result c) (hh c) (acked c) (hinted c))) as (?&?&?&?&Hp); try done.
      split_and!; try done. rewrite Hp. cbn. solve_Permutation.
    - destruct (IH (add_hint id c)) as (?&?&?&?&Hp); try done. split_and!; try done. rewrite Hp. cbn. solve_Permutation. }
  destruct (HI (targets self owners) c0) as (Ha & He & Hr & Hm & Hp); try done; [cbn; apply i32_id; lia|].
  set (c := foldl _ _ _) in *. cbn in Hp. split; rewrite ?Ha, ?He; try done.
  - apply Permutation_length in Hp. rewrite length_app in Hp. cbn. lia.
  - intros _. rewrite Hm. cbn. lia.
  - intros _ [?%elem_of_nil|Hx]; [done|congruence].
  - intros _. rewrite Hm. lia.
Qed.

Lemma replicate_inv wc self owners h es :
  let want := required wc - self_acks self owners in
  NoDup (ID <$> owners) → wc < 2 ^ 31 → Z.of_nat (length owners) < 2 ^ 31 →
  rinv (want <=? 0) want (targets self owners) (replicate wc self owners h es).
Proof.
  intros want Hnd Hw Hlen. unfold replicate. fold want.
  assert (want < 2 ^ 31) as Hw'.
  { unfold want, required, self_acks. destruct (Z.ltb_spec wc 1), owners as [|o os]; repeat case_bool_decide; lia. }
  assert (Z.of_nat (length (targets self owners)) < 2 ^ 31) as Hl.
  { unfold targets. pose proof (length_filter (λ id, id ≠ self) (ID <$> owners)) as Hle. rewrite length_fmap in Hle. lia. }
  pose proof (begin_inv wc self owners h Hw') as Hb. fold want in Hb. generalize dependent (begin wc self owners h).
  induction es as [|e es IH]; intros c Hc; cbn [foldl]; [done|]. apply IH, step_inv; try done; [by apply targets_nodup|].
  destruct (Z.leb_spec want 0); [by right|left; lia].
Qed.

(** The acknowledgements behind a success. *)
Lemma concern_counted wc self owners h es :
  NoDup (ID <$> owners) → wc < 2 ^ 31 → Z.of_nat (length owners) < 2 ^ 31 →
  let c := replicate wc self owners h es in
  result c = Some None →
  required wc ≤ self_acks self owners + Z.of_nat (length (acked c)) ∧
  NoDup (acked c) ∧ ∀ id, id ∈ acked c → id ∈ ID <$> owners ∧ id ≠ self.
Proof.
  intros Hnd Hw Hlen c Hres. pose proof (replicate_inv wc self owners h es Hnd Hw Hlen) as [Hs _ Hc Hm _]. fold c in Hs, Hc, Hm.
  pose proof (targets_nodup self owners Hnd) as Hnt. rewrite <-Hs in Hnt.
  apply NoDup_app in Hnt as (_ & _ & [Hna _]%NoDup_app). split_and!; [|done|].
  - destruct (Z.leb_spec (required wc - self_acks self owners) 0) as [?|Hpos]; [lia|].
    pose proof (Hc eq_refl). pose proof (Hm eq_refl (or_intror Hres)). lia.
  - intros id Hin. assert (id ∈ targets self owners) as Ht by (rewrite <-Hs; set_solver).
    unfold targets in Ht. apply list_elem_of_filter in Ht as [? ?]. done.
Qed.

(** ** Theorems *)

(** The write concern is honest: when the call returns success, the node itself (if it is
    the primary) and distinct other owners that acknowledged together number at least the
    configured write concern. *)
Theorem write_concern_met wc self owners h es :
  NoDup (ID <$> owners) → wc < 2 ^ 31 → Z.of_nat (length owners) < 2 ^ 31 →
  let c := replicate wc self owners h es in
  result c = Some None →
  required wc ≤ self_acks self owners + Z.of_nat (length (acked c)) ∧
  NoDup (acked c) ∧ ∀ id, id ∈ acked c → id ∈ ID <$> owners ∧ id ≠ self.
Proof. apply concern_counted. Qed.

(** No replica is forgotten: at every moment each other owner is being sent to, has
    acknowledged, or has been handed to hinted handoff, and exactly one of these; so once all
    sends are through, every owner that did not acknowledge has a hint.  The sends never
    block on the error channel, whose capacity is the number of owners. *)
Theorem every_owner_acked_or_hinted wc self owners h es :
  NoDup (ID <$> owners) → wc < 2 ^ 31 → Z.of_nat (length owners) < 2 ^ 31 →
  let c := replicate wc self owners h es in
  sending c ++ acked c ++ hinted c ≡ₚ filter (λ id, id ≠ self) (ID <$> owners) ∧
  (length (errCh c) + length (sending c) ≤ length owners)%nat ∧
  (sending c = [] → ∀ o, o ∈ owners → ID o ≠ self → ID o ∈ acked c ∨ ID o ∈ hinted c).
Proof.
  intros Hnd Hw Hlen c. pose proof (replicate_inv wc self owners h es Hnd Hw Hlen) as [Hs Hr _ _ _]. fold c in Hs, Hr. split_and!.
  - exact Hs.
  - pose proof (length_filter (λ id, id ≠ self) (ID <$> owners)) as Hle. rewrite length_fmap in Hle. unfold targets in Hr. lia.
  - intros He o Ho Hne. assert (ID o ∈ sending c ++ acked c ++ hinted c) as Hin.
    { rewrite Hs. apply list_elem_of_filter. split; [done|]. by apply list_elem_of_fmap_2. }
    rewrite He in Hin. cbn in Hin. by apply elem_of_app in Hin.
Qed.

(** Receiving until the success message comes. *)
Fixpoint receives (k : nat) : list event := match k with O => [] | S k => Receive :: receives k end.
Lemma receive_until k c :
  None ∈ errCh c → result c = None → (length (errCh c) ≤ k)%nat →
  result (foldl (step false) c (receives k)) = Some None.
Proof.
  revert c. induction k as [|k IH]; intros c Hin Hr Hle.
  { destruct (errCh c); [by apply elem_of_nil in Hin|cbn in Hle; lia]. }
  cbn [receives foldl]. unfold step at 2. rewrite Hr. destruct (errCh c) as [|[x|] es] eqn:E; [by apply elem_of_nil in Hin|..].
  - apply IH; cbn; [set_solver|done|cbn in Hle; lia].
  - clear. set (c1 := MkCall _ _ _ _ _ _ _). assert (result c1 = Some None) as H1 by done. clearbody c1.
    induction k as [|k IH]; cbn [receives foldl]; [done|]. unfold step at 2. by rewrite H1.
Qed.

Definition completion (e : event) : bool := match e with Complete _ _ => true | _ => false end.
Lemma completions_wait c es :
  forallb completion es = true → result (foldl (step false) c es) = result c.
Proof.
  revert c. induction es as [|e es IH]; intros c; cbn; [done|]. intros [He Hes]%andb_prop. rewrite IH by done.
  destruct e; try done. cbn. unfold complete. case_bool_decide; [|done]. by destruct (good && connected id).
Qed.

(** The caller gets its answer: when the acknowledgements needed have arrived and neither
    the timer nor the context ended the call before, receiving what is in the channel returns
    success, however many sends failed. *)
Theorem enough_acks_succeed wc self owners h es :
  NoDup (ID <$> owners) → wc < 2 ^ 31 → Z.of_nat (length owners) < 2 ^ 31 →
  forallb completion es = true →
  required wc ≤ self_acks self owners + Z.of_nat (length (acked (replicate wc self owners h es))) →
  result (replicate wc self owners h (es ++ receives (length owners))) = Some None.
Proof.
  intros Hnd Hw Hlen Hes Hacks. pose proof (replicate_inv wc self owners h es Hnd Hw Hlen) as [_ Hr Hc _ Hp].
  unfold replicate in *. rewrite foldl_app. set (want := required wc - self_acks self owners) in *.
  destruct (Z.leb_spec want 0) as [H0|Hpos].
  - assert (∀ es c, result c = Some None → result (foldl (step true) c es) = Some None) as HI.
    { clear. induction es as [|e es IH]; intros c Hc; cbn [foldl]; [done|]. apply IH.
      destruct e; cbn [step]; rewrite ?Hc; try done. unfold complete. case_bool_decide; [|done]. by destruct (good && connected id). }
    do 2 apply HI. unfold begin. fold want. by destruct (Z.leb_spec want 0); [|lia].
  - set (c := foldl (step false) _ es) in *. assert (result c = None) as Hn.
    { unfold c. rewrite completions_wait by done. unfold begin. fold want. destruct (Z.leb_spec want 0); [lia|].
      assert (∀ ids c, result c = None → result (foldl (λ c id, if connected id
                   then MkCall (remaining_ c) (errCh c) (sending c ++ [id]) (result c) (hh c) (acked c) (hinted c)
                   else add_hint id c) c ids) = None) as HI; [|by apply HI].
      clear. induction ids as [|id ids IH]; intros c Hc; cbn [foldl]; [done|]. apply IH. by destruct (connected id). }
    apply receive_until; [|done|].
    + destruct (Hp eq_refl) as [?|?]; [rewrite (Hc eq_refl); lia|done|done].
    + unfold targets in Hr. pose proof (length_filter (λ id, id ≠ self) (ID <$> owners)) as Hle. rewrite length_fmap in Hle. lia.
Qed.
End Replication.

(** The two calls: what a failed send hands to hinted handoff. *)
Definition replicateSet (compress : list Z → list Z * bool) (connected : NodeID → bool) (added now : NodeID → Z)
    (writeConcern : Z) (self : NodeID) (key val : list Z) (exp ver : Z) (owners : list nodeMeta) (h : option handoff) (es : list event) : call :=
  let '(b2, cp) := compress val in
  replicate (λ id, enqueueSet id key b2 exp ver cp (added id) (now id)) connected writeConcern self owners h es.
Definition replicateDelete (connected : NodeID → bool) (added now : NodeID → Z)
    (writeConcern : Z) (self : NodeID) (key : list Z) (owners : list nodeMeta) (ver : Z) (h : option handoff) (es : list event) : call :=
  replicate (λ id, enqueueDel id key ver (added id) (now id)) connected writeConcern self owners h es.

(** ** Instances: three owners, the first of them the node itself, write concern two *)
Definition demo_owners : list nodeMeta := [n1; n2; n3].
Lemma demo_owners_distinct : NoDup (ID <$> demo_owners).
Proof. cbn. repeat (apply NoDup_cons; split; [set_solver|]). apply NoDup_nil_2. Qed.
Definition demo_hint : NodeID → handoff → handoff := λ id, enqueueSet id [5] [10] 0 100 false 1 1.
Definition demo_handoff : option handoff := Some (newHandoff demo_cfg).
Definition demo_run : list event := [Complete [98] false; Complete [99] true].

Lemma write_concern_met_witness :
  let c := replicate demo_hint (λ _, true) 2 [97] demo_owners demo_handoff (demo_run ++ receives 3) in
  result c = Some None ∧ required 2 ≤ self_acks [97] demo_owners + Z.of_nat (length (acked c)).
Proof.
  split; [vm_compute; reflexivity|].
  apply (write_concern_met demo_hint (λ _, true) 2 [97] demo_owners demo_handoff (demo_run ++ receives 3) demo_owners_distinct);
    [lia|cbn; lia|vm_compute; reflexivity].
Defined.
Lemma every_owner_acked_or_hinted_witness :
  let c := replicate demo_hint (λ _, true) 2 [97] demo_owners demo_handoff demo_run in
  ([98] : NodeID) ∈ hinted c ∧ ([99] ∈ acked c ∨ [99] ∈ hinted c) ∧
  (λ h, fst <$> map_to_list (peers h)) <$> hh c = Some [[98]].
Proof.
  split; [vm_compute; left|]. split; [|vm_compute; reflexivity].
  destruct (every_owner_acked_or_hinted demo_hint (λ _, true) 2 [97] demo_owners demo_handoff demo_run demo_owners_distinct) as (_ & _ & H); [lia|cbn; lia|].
  apply (H ltac:(vm_compute; reflexivity) n3); [cbn; set_solver|done].
Defined.
Lemma enough_acks_succeed_witness :
  result (replicate demo_hint (λ _, true) 2 [97] demo_owners demo_handoff (demo_run ++ receives 3)) = Some None.
Proof.
  apply (enough_acks_succeed demo_hint (λ _, true) 2 [97] demo_owners demo_handoff demo_run demo_owners_distinct);
    [lia|cbn; lia|done|vm_compute; congruence].
Defined.
End Replication.
