(* ===== verification/Client.v ===== *)
(** * Client operations of a node ([src/cluster/client.go])

    [Set] and [Delete] up to the replication they start, and [Get] with its loop over the
    remote owners.  In the code a leg of [Get] is an ordinary call: it has answered before the
    loop goes on, so the answers wait in the channel in the order of the candidates.  The loop
    is a list of events; [legs] is what each candidate answers if it is asked. *)
From Stdlib Require Import ZArith Lia.
From stdpp Require Import base numbers list gmap sets.
From S2P Require Import Prelude Admission Shard Eviction Cache CacheInv CacheSpec CacheTheorems CacheIface Hlc KeyCodec Rendezvous Node NodeTheorems.
Local Open Scope Z_scope.

Module Client.
Import Hlc KeyCodec Node.
Abbreviation nodeMeta := Rendezvous.nodeMeta.
Abbreviation NodeID := Rendezvous.NodeID.

Inductive cliErr := cKeyTooLarge | cValueTooLarge | cEncode | cNoOwner | cPanic | cCtx | cLeg (e : Z) | cGzip | cDecode.

Definition absExpiry (now ttl : Z) : Z := if ttl <=? 0 then 0 else i64 (now + ttl).

(** ** The read loop *)
Inductive ans := Hit (val : bytes) (cp : bool) | CleanMiss | LegErr (e : Z).
Inductive readResult := RHit (val : bytes) (cp : bool) | RMiss | RErr (e : Z) | RCtx.

Record reading := MkReading {
  resCh : list ans; nextIdx : nat; inflight : nat;
  clean : bool; hadErr : bool; lastErr : Z; armed : bool; out : option readResult }.

Section Read.
Context (legs : list ans) (maxFanout : nat).

Definition startLeg (s : reading) : reading :=
  MkReading (resCh s ++ default [] ((λ a, [a]) <$> legs !! nextIdx s)) (S (nextIdx s)) (S (inflight s))
    (clean s) (hadErr s) (lastErr s) (armed s) (out s).
Definition put_out (r : readResult) (s : reading) : reading :=
  MkReading (resCh s) (nextIdx s) (inflight s) (clean s) (hadErr s) (lastErr s) (armed s) (Some r).

(** The first leg is started before the loop. *)
Definition read_begin : reading := startLeg (MkReading [] 0 0 false false 0 true None).

(** [case rans := <-resCh]. *)
Definition on_answer (s : reading) : reading :=
  match resCh s with
  | [] => s
  | a :: q =>
      let s := MkReading q (nextIdx s) (inflight s - 1)
                 (match a with LegErr _ => clean s | _ => true end)
                 (match a with LegErr _ => true | _ => hadErr s end)
                 (match a with LegErr e => e | _ => lastErr s end) (armed s) (out s) in
      match a with
      | Hit v cp => put_out (RHit v cp) s
      | _ =>
          if (nextIdx s <? length legs)%nat && (inflight s <? maxFanout)%nat then startLeg s
          else if (inflight s =? 0)%nat && (length legs <=? nextIdx s)%nat then
            put_out (if negb (clean s) && hadErr s then RErr (lastErr s) else RMiss) s
          else s
      end
  end.

(** [case <-initial.C]: start legs up to the fan-out; [cancel = Some j]: the context ends the
    wait after the [j]-th of them. *)
Fixpoint hedge (fuel : nat) (cancel : option nat) (s : reading) : reading :=
  match fuel with
  | O => s
  | S fuel =>
      if (inflight s <? maxFanout)%nat && (nextIdx s <? length legs)%nat then
        let s := startLeg s in
        if (inflight s <? maxFanout)%nat && (nextIdx s <? length legs)%nat then
          match cancel with
          | Some O => put_out RCtx s
          | Some (S j) => hedge fuel (Some j) s
          | None => hedge fuel None s
          end
        else s
      else s
  end.

Inductive event := Answer | InitialTimer (cancel : option nat) | CtxDone.
Definition read_step (s : reading) (e : event) : reading :=
  match out s with
  | Some _ => s
  | None =>
      match e with
      | Answer => on_answer s
      | InitialTimer cancel =>
          if armed s then
            let s := MkReading (resCh s) (nextIdx s) (inflight s) (clean s) (hadErr s) (lastErr s) false (out s) in
            hedge (length legs) cancel s
          else s
      | CtxDone => put_out RCtx s
      end
  end.
Definition read_run (es : list event) : reading := foldl read_step read_begin es.

(** Asking the candidates one after the other. *)
Fixpoint ask (ls : list ans) (clean hadErr : bool) (lastErr : Z) : readResult :=
  match ls with
  | [] => if negb clean && hadErr then RErr lastErr else RMiss
  | Hit v cp :: _ => RHit v cp
  | CleanMiss :: ls => ask ls true hadErr lastErr
  | LegErr e :: ls => ask ls clean true e
  end.

(** What is left to do gives the same answer as the whole. *)
Record loop_inv (s : reading) : Prop := {
  li_queue : resCh s = take (inflight s) (skipn (nextIdx s - inflight s) legs);
  li_next : (inflight s ≤ nextIdx s ≤ length legs)%nat;
  li_busy : (0 < inflight s)%nat;
  li_rest : ask (skipn (nextIdx s - inflight s) legs) (clean s) (hadErr s) (lastErr s) = ask legs false false 0 }.

Lemma start_inv_core s :
  resCh s = take (inflight s) (skipn (nextIdx s - inflight s) legs) → (inflight s ≤ nextIdx s)%nat → (nextIdx s < length legs)%nat →
  ask (skipn (nextIdx s - inflight s) legs) (clean s) (hadErr s) (lastErr s) = ask legs false false 0 →
  loop_inv (startLeg s) ∧ out (startLeg s) = out s.
Proof.
  intros Hq Hle Hlt Hr. split; [|done]. destruct (lookup_lt_is_Some_2 legs (nextIdx s) Hlt) as [a Ha].
  split; cbn [startLeg resCh nextIdx inflight clean hadErr lastErr]; replace (S (nextIdx s) - S (inflight s))%nat with (nextIdx s - inflight s)%nat by lia.
  - rewrite Ha, Hq. cbn. erewrite take_S_r; [done|]. rewrite lookup_drop. by replace (nextIdx s - inflight s + inflight s)%nat with (nextIdx s) by lia.
  - lia.
  - lia.
  - done.
Qed.
Lemma start_inv s : loop_inv s → (nextIdx s < length legs)%nat → loop_inv (startLeg s) ∧ out (startLeg s) = out s.
Proof. intros [Hq Hn Hb Hr] Hlt. apply start_inv_core; [done|lia|done|done]. Qed.

Definition settled (s : reading) : Prop :=
  match out s with
  | None => loop_inv s
  | Some RCtx => True
  | Some r => r = ask legs false false 0
  end.

Lemma hedge_inv fuel cancel s : loop_inv s → out s = None → settled (hedge fuel cancel s).
Proof.
  revert cancel s. induction fuel as [|fuel IH]; intros cancel s Hi Ho; [unfold settled; cbn [hedge]; by rewrite Ho|]. cbn [hedge].
  destruct (Nat.ltb_spec (inflight s) maxFanout) as [Hf|]; cbn [andb]; [|unfold settled; by rewrite Ho].
  destruct (Nat.ltb_spec (nextIdx s) (length legs)) as [Hn|]; [|unfold settled; by rewrite Ho].
  destruct (start_inv s Hi Hn) as [Hi' Ho']. rewrite Ho in Ho'.
  destruct (_ && _); [|unfold settled; by rewrite Ho']. destruct cancel as [[|j]|]; [done|by apply IH|by apply IH].
Qed.

(** After an answer without a value. *)
Lemma go_on_inv s :
  (0 < maxFanout)%nat → resCh s = take (inflight s) (skipn (nextIdx s - inflight s) legs) →
  (inflight s ≤ nextIdx s ≤ length legs)%nat →
  ask (skipn (nextIdx s - inflight s) legs) (clean s) (hadErr s) (lastErr s) = ask legs false false 0 → out s = None →
  settled (if (nextIdx s <? length legs)%nat && (inflight s <? maxFanout)%nat then startLeg s
           else if (inflight s =? 0)%nat && (length legs <=? nextIdx s)%nat then
             put_out (if negb (clean s) && hadErr s then RErr (lastErr s) else RMiss) s
           else s).
Proof.
  intros Hmax Hq Hn Hr Ho.
  destruct (Nat.ltb_spec (nextIdx s) (length legs)) as [Hlt|Hge], (Nat.ltb_spec (inflight s) maxFanout) as [Hf|Hf]; cbn [andb].
  1: { destruct (start_inv_core s) as [Hi' Ho']; [done|lia|done|done|]. unfold settled. by rewrite Ho', Ho. }
  all: destruct (Nat.eqb_spec (inflight s) 0) as [H0|H0], (Nat.leb_spec (length legs) (nextIdx s)) as [Hl|Hl]; cbn [andb]; try lia.
  all: try (unfold settled; rewrite Ho; split; [done|lia|lia|done]).
  all: unfold settled; cbn [put_out out]; rewrite <-Hr, H0, drop_ge by lia; cbn; by destruct (negb (clean s) && hadErr s).
Qed.

Lemma answer_inv s : (0 < maxFanout)%nat → loop_inv s → out s = None → settled (on_answer s).
Proof.
  intros Hmax [Hq Hn Hb Hr] Ho. unfold on_answer.
  assert (nextIdx s - inflight s < length legs)%nat as Hlt by lia.
  destruct (lookup_lt_is_Some_2 legs _ Hlt) as [a Ha]. rewrite (drop_S legs a _ Ha) in Hq, Hr.
  assert (S (nextIdx s - inflight s) = nextIdx s - (inflight s - 1))%nat as Ei by lia. rewrite Ei in Hq, Hr.
  destruct (inflight s) as [|fl] eqn:Ef; [lia|]. cbn [take] in Hq. rewrite Hq. replace (S fl - 1)%nat with fl in * by lia.
  destruct a as [v cp| |e]; cbn [ask] in Hr; [unfold settled; cbn; by rewrite Hr|..];
    apply go_on_inv; cbn [resCh nextIdx inflight clean hadErr lastErr out]; done || lia.
Qed.

Lemma read_step_inv s e : (0 < maxFanout)%nat → settled s → settled (read_step s e).
Proof.
  intros Hmax Hs. unfold read_step. destruct (out s) as [r|] eqn:Ho; [done|]. unfold settled in Hs. rewrite Ho in Hs.
  destruct e as [|cancel|]; [by apply answer_inv| |done]. destruct (armed s); [|unfold settled; by rewrite Ho].
  apply hedge_inv; [|done]. by destruct Hs.
Qed.

Lemma read_inv es : (0 < maxFanout)%nat → legs ≠ [] → settled (read_run es).
Proof.
  intros Hmax Hne. unfold read_run. assert (settled read_begin) as H0.
  { assert (0 < length legs)%nat by (destruct legs; cbn; [done|lia]).
    destruct (start_inv_core (MkReading [] 0 0 false false 0 true None)) as [Hi Ho]; [done|done|done|by rewrite drop_0|].
    unfold settled, read_begin. by rewrite Ho. }
  revert H0. generalize read_begin. induction es as [|e es IH]; intros s Hs; cbn [foldl]; [done|]. by apply IH, read_step_inv.
Qed.

(** Every answer taken from the channel is progress: [2 * length legs] of them are enough. *)
Definition todo (s : reading) : nat := (length legs - (nextIdx s - inflight s))%nat.
Lemma answer_progress s :
  loop_inv s → out s = None → out (on_answer s) = None → (todo (on_answer s) < todo s)%nat.
Proof.
  intros [Hq Hn Hb Hr] Ho. unfold on_answer.
  assert (nextIdx s - inflight s < length legs)%nat as Hlt by lia.
  destruct (lookup_lt_is_Some_2 legs _ Hlt) as [a Ha]. rewrite (drop_S legs a _ Ha) in Hq.
  destruct (inflight s) as [|fl] eqn:Ef; [lia|]. cbn [take] in Hq. rewrite Hq. unfold todo. rewrite Ef.
  destruct a as [v cp| |e]; [done|..]; cbn [nextIdx inflight]; destruct (_ && _); cbn; try lia; destruct (_ && _); cbn; lia || done.
Qed.

Fixpoint answers (k : nat) : list event := match k with O => [] | S k => Answer :: answers k end.
Lemma answers_finish k s : (0 < maxFanout)%nat → settled s → (todo s < k)%nat → out (foldl read_step s (answers k)) ≠ None.
Proof.
  intros Hmax. revert s. induction k as [|k IH]; intros s Hs Hk; [lia|]. cbn [answers foldl].
  destruct (out s) as [r|] eqn:Ho.
  - assert (read_step s Answer = s) as -> by (unfold read_step; by rewrite Ho).
    clear -Ho. induction k as [|k IH]; cbn; [by rewrite Ho|]. unfold read_step at 2. by rewrite Ho.
  - pose proof (read_step_inv s Answer Hmax Hs) as Hs'. unfold settled in Hs. rewrite Ho in Hs.
    assert (read_step s Answer = on_answer s) as E by (unfold read_step; by rewrite Ho). rewrite E in *.
    destruct (out (on_answer s)) as [r|] eqn:Ho'; [|apply IH; [done|]; pose proof (answer_progress s Hs Ho Ho'); lia].
    clear -Ho'. set (s1 := on_answer s) in *. clearbody s1. induction k as [|k IH]; cbn; [by rewrite Ho'|]. unfold read_step at 2. by rewrite Ho'.
Qed.

Lemma read_sequential es r :
  (0 < maxFanout)%nat → legs ≠ [] → out (read_run es) = Some r → r = RCtx ∨ r = ask legs false false 0.
Proof.
  intros Hmax Hne Ho. pose proof (read_inv es Hmax Hne) as Hs. unfold settled in Hs. rewrite Ho in Hs.
  destruct r; auto.
Qed.
Lemma read_ends es : (0 < maxFanout)%nat → legs ≠ [] → out (read_run (es ++ answers (S (length legs)))) ≠ None.
Proof.
  intros Hmax Hne. unfold read_run. rewrite foldl_app. apply answers_finish; [done|by apply read_inv|]. unfold todo. lia.
Qed.

(** C32.  Hedging does not change the answer of a read: however timers and answers interleave, a
    read that is not cancelled returns what asking the candidates one after the other gives:
    the first value found, an error only if every candidate failed, a miss otherwise. *)
Theorem hedged_read_is_sequential es r :
  (0 < maxFanout)%nat → legs ≠ [] → out (read_run es) = Some r → r = RCtx ∨ r = ask legs false false 0.
Proof. apply read_sequential. Qed.

(** C33.  A read always ends: from any moment on, as many answers as there are candidates left
    (at most all of them and one more) make it return. *)
Theorem hedged_read_terminates es :
  (0 < maxFanout)%nat → legs ≠ [] → out (read_run (es ++ answers (S (length legs)))) ≠ None.
Proof. apply read_ends. Qed.
End Read.

(** ** Read tuning *)
Record readTunNode := MkTun { fanout : Z; hedgeDelay : Z; hedgeInterval : Z; perTry : Z }.
Definition rtn (readMaxFanout readHedgeDelay readHedgeInterval readPerTryTimeout readTimeout : Z) : readTunNode :=
  let fanout := if readMaxFanout <=? 0 then 2 else readMaxFanout in
  let delay := if readHedgeDelay <=? 0 then 3 * 1000000 else readHedgeDelay in
  let interval := if readHedgeInterval <=? 0 then delay else readHedgeInterval in
  let perTry := if readPerTryTimeout <=? 0 then 200 * 1000000 else readPerTryTimeout in
  MkTun fanout delay interval (if (0 <? readTimeout) && (readTimeout <? perTry) then readTimeout else perTry).

(** ** Operations *)
Section Client.
Context {C K V : Type} `{Ops : CacheOps C K V, KC : KeyCodec K, VC : Codec V}.
Context (gunzip : bytes → option bytes).

Definition remote_value (val : bytes) (cp : bool) : V + cliErr :=
  match maybeDecompress gunzip val cp with
  | None => inr cGzip
  | Some vb => match Decode vb with None => inr cDecode | Some v => inl v end
  end.

(** The other owners, those with a healthy connection first. *)
Definition candidates (self : NodeID) (healthy : NodeID → bool) (owners : list nodeMeta) : list nodeMeta :=
  let others := filter (λ o, Rendezvous.ID o ≠ self) owners in
  filter (λ o, healthy (Rendezvous.ID o) = true) others ++ filter (λ o, healthy (Rendezvous.ID o) ≠ true) others.

(** [answer] is what a candidate answers.  The result: [inl (Some v)] a hit, [inl None] a miss;
    [None] while the read is still waiting. *)
Definition Get (e : env) (t : readTunNode) (healthy : NodeID → bool) (answer : NodeID → ans) (es : list event)
    (key : K) (n : Node C) : Node C * option (option V + cliErr) :=
  match Rendezvous.ownersFromKeyHash (nring n) (Hash64 key) with
  | None => (n, Some (inr cPanic))
  | Some [] => (n, Some (inr cNoOwner))
  | Some owners =>
      let self := SelfID (cfg n) in
      let '(n, r) :=
        if existsb (λ o, bool_decide (Rendezvous.ID o = self)) owners
        then let '(c, r) := cget (local n) key (e_now e) (e_now' e) in (put_local c n, r) else (n, None) in
      match r with
      | Some v => (n, Some (inl (Some v)))
      | None =>
          let legs := (answer ∘ Rendezvous.ID) <$> candidates self healthy owners in
          if decide (legs = []) then (n, Some (inl None))
          else
            let maxFanout := Z.to_nat (Z.min (fanout t) (Z.of_nat (length legs))) in
            (n, match out (read_run legs maxFanout es) with
                | None => None
                | Some (RHit val cp) =>
                    Some (match remote_value val cp with inl v => inl (Some v) | inr err => inr err end)
                | Some RMiss => Some (inl None)
                | Some (RErr err) => Some (inr (cLeg err))
                | Some RCtx => Some (inr cCtx)
                end)
      end
  end.

(** What [Set] hands to [replicateSet], and [Delete] to [replicateDelete]. *)
Record write := MkWrite { w_key : bytes; w_val : bytes; w_exp : Z; w_ver : Z; w_owners : list nodeMeta }.

Definition next_version (e : env) (n : Node C) : Node C * Z :=
  let '(h, ver) := Next (e_ms e) (clock n) in (put_clock h n, ver).
Definition primary_is (self : NodeID) (owners : list nodeMeta) : bool :=
  match owners with o :: _ => bool_decide (Rendezvous.ID o = self) | [] => false end.

Definition Set_ (e : env) (key : K) (val : V) (ttl : Z) (n : Node C) : Node C * (write + cliErr) :=
  let bk := EncodeKey key in
  if too_large (MaxKeySize (cfg n)) bk then (n, inr cKeyTooLarge)
  else match Rendezvous.ownersFromKeyHash (nring n) (Hash64 key) with
  | None => (n, inr cPanic)
  | Some [] => (n, inr cNoOwner)
  | Some owners =>
      match Encode val with
      | None => (n, inr cEncode)
      | Some bv =>
          if too_large (MaxValueSize (cfg n)) bv then (n, inr cValueTooLarge)
          else
            let exp := absExpiry (e_now e) ttl in
            let '(n, ver) := next_version e n in
            let n := if primary_is (SelfID (cfg n)) owners then
                       let n := put_local (cset (local n) key val ttl (e_rt e)).1 n in
                       if LWWEnabled (cfg n) then lwwSetVersion bk ver n else n
                     else n in
            (n, inl (MkWrite bk bv exp ver owners))
      end
  end.

Definition Delete (e : env) (key : K) (n : Node C) : Node C * (write + cliErr) :=
  let bk := EncodeKey key in
  if too_large (MaxKeySize (cfg n)) bk then (n, inr cKeyTooLarge)
  else match Rendezvous.ownersFromKeyHash (nring n) (Hash64 key) with
  | None => (n, inr cPanic)
  | Some [] => (n, inr cNoOwner)
  | Some owners =>
      let '(n, ver) := next_version e n in
      let n := if primary_is (SelfID (cfg n)) owners then
                 let n := put_local (cdelete (local n) key).1 n in
                 if LWWEnabled (cfg n) then lwwSetVersion bk ver n else n
               else n in
      (n, inl (MkWrite bk [] 0 ver owners))
  end.
End Client.

Section ClientTheorems.
Context {C K V : Type} `{EqDecision K, Ops : !CacheOps C K V, Laws : !CacheLaws C K V}.
Context (KC : KeyCodec K) (VC : Codec V) (gunzip : bytes → option bytes).
Implicit Types n : Node C.

Lemma get_local w n e t healthy answer es key owners v exp :
  Rendezvous.ownersFromKeyHash (nring n) (Hash64 key) = Some owners → wf (S w) (local n) → e_now e ≤ e_now' e →
  (∃ o, o ∈ owners ∧ Rendezvous.ID o = SelfID (cfg n)) →
  cfind (local n) key = Some (v, exp) → ¬ dead (e_now e) exp →
  (Get gunzip e t healthy answer es key n).2 = Some (inl (Some v)).
Proof.
  intros Ho Hw Hnow (o & Hin & Hid) Hc Hd. unfold Get. rewrite Ho. destruct owners as [|o1 os]; [by apply elem_of_nil in Hin|].
  assert (existsb (λ o, bool_decide (Rendezvous.ID o = SelfID (cfg n))) (o1 :: os) = true) as ->.
  { apply existsb_exists. exists o. split; [by apply list_elem_of_In|by apply bool_decide_eq_true_2]. }
  destruct (law_get w (local n) key (e_now e) (e_now' e) Hw Hnow) as (_ & _ & Hr & _).
  destruct (cget (local n) key (e_now e) (e_now' e)) as [c r]. cbn [snd] in Hr. subst r. rewrite Hc. cbn. by rewrite decide_False.
Qed.

(** The primary reads its own writes: after a successful [Set] on the key's primary, with a
    cache that admits the key, a [Get] there before the entry expires returns the value
    without asking another node; the version table holds the version the write is replicated
    with. *)
Theorem primary_reads_own_write w n e key val ttl n' wr e' t healthy answer es :
  wf (S w) (local n) → cadmits (local n) = true → LWWEnabled (cfg n) = true →
  Set_ e key val ttl n = (n', inl wr) → primary_is (SelfID (cfg n)) (w_owners wr) = true →
  e_now e' ≤ e_now' e' → ¬ dead (e_now e') (cexpiry (local n) (rt_now (e_rt e)) ttl) →
  (Get gunzip e' t healthy answer es key n').2 = Some (inl (Some val)) ∧
  version_of n' (EncodeKey key) = w_ver wr ∧ w_key wr = EncodeKey key ∧ w_exp wr = absExpiry (e_now e) ttl.
Proof.
  intros Hw Hadm Hl E Hp Hnow Hd. unfold Set_ in E. destruct (too_large _ _); [done|].
  destruct (Rendezvous.ownersFromKeyHash (nring n) (Hash64 key)) as [[|o os]|] eqn:Ho; [done| |done].
  destruct (Encode val) as [bv|]; [|done]. destruct (too_large _ bv); [done|]. unfold next_version in E.
  destruct (Next (e_ms e) (clock n)) as [h ver]. cbn [cfg put_clock] in E.
  destruct (primary_is (SelfID (cfg n)) (o :: os)) eqn:Epr; injection E as <- <-; cbn [w_owners] in Hp; [|congruence].
  cbn [put_local cfg put_clock]. rewrite Hl. cbn [w_ver w_key w_exp].
  destruct (law_set (S w) (local n) key val ttl (e_rt e) Hw) as (Hw1 & _ & _ & Hf & _).
  split; [|split; [by unfold version_of; cbn; rewrite lookup_insert_eq|done]].
  assert (cfind (cset (local n) key val ttl (e_rt e)).1 key = Some (val, cexpiry (local n) (rt_now (e_rt e)) ttl)) as Hc.
  { destruct Hf as [?|(? & _)]; [done|congruence]. }
  apply (get_local w _ e' t healthy answer es key (o :: os) val (cexpiry (local n) (rt_now (e_rt e)) ttl)); try done.
  exists o. split; [left|]. cbn in Epr. by apply bool_decide_eq_true in Epr.
Qed.

(** On an owner that is not the primary [Set] does not touch the node's own copy, and the
    replication it starts skips the node, while [Get] there answers from that copy: the node
    keeps returning the value it had before its own write. *)
Theorem secondary_owner_reads_stale w n e key val ttl n' wr old exp e' t healthy answer es :
  wf (S w) (local n) → Set_ e key val ttl n = (n', inl wr) →
  primary_is (SelfID (cfg n)) (w_owners wr) = false → (∃ o, o ∈ w_owners wr ∧ Rendezvous.ID o = SelfID (cfg n)) →
  cfind (local n) key = Some (old, exp) → e_now e' ≤ e_now' e' → ¬ dead (e_now e') exp →
  local n' = local n ∧ version n' = version n ∧
  (Get gunzip e' t healthy answer es key n').2 = Some (inl (Some old)).
Proof.
  intros Hw E Hp Hin Hc Hnow Hd. unfold Set_ in E. destruct (too_large _ _); [done|].
  destruct (Rendezvous.ownersFromKeyHash (nring n) (Hash64 key)) as [[|o os]|] eqn:Ho; [done| |done].
  destruct (Encode val) as [bv|]; [|done]. destruct (too_large _ bv); [done|]. unfold next_version in E.
  destruct (Next (e_ms e) (clock n)) as [h ver]. cbn [cfg put_clock] in E.
  destruct (primary_is (SelfID (cfg n)) (o :: os)) eqn:Epr; injection E as <- <-; cbn [w_owners] in Hp, Hin; [congruence|].
  split; [done|]. split; [done|]. by apply (get_local w _ e' t healthy answer es key (o :: os) old exp).
Qed.
End ClientTheorems.

(** ** Instances: the ring of [Rendezvous]; hash 7 belongs to node [99], then [97] *)
Import NodeTheorems.
Definition demo_legs : list ans := [LegErr 5; Hit [1] false; CleanMiss].
Lemma hedged_read_is_sequential_witness :
  out (read_run demo_legs 2 [InitialTimer None; Answer; Answer]) = Some (RHit [1] false) ∧
  RHit [1] false = ask demo_legs false false 0.
Proof.
  assert (out (read_run demo_legs 2 [InitialTimer None; Answer; Answer]) = Some (RHit [1] false)) as E by (vm_compute; reflexivity).
  split; [exact E|]. destruct (hedged_read_is_sequential demo_legs 2 _ _ ltac:(lia) ltac:(done) E) as [H|H]; [discriminate H|exact H].
Defined.
Lemma hedged_read_terminates_witness : out (read_run demo_legs 2 ([InitialTimer None] ++ answers 4)) ≠ None.
Proof. apply (hedged_read_terminates demo_legs 2 [InitialTimer None]); [lia|done]. Defined.

Definition node_of (id : NodeID) : Node (InMemoryCache bytes bytes) :=
  MkNode (MkConfig id 2 1 true 16 16 0 0 0) (local demo_node) ∅ (newHLC 1) Rendezvous.demo_ring ∅.
Definition tun := rtn 0 0 0 0 0.

Lemma demo_local_wf : wf 5 (local demo_node).
Proof. apply demo_fresh. Qed.
Lemma primary_reads_own_write_witness :
  let n' := (Set_ (at_time 1) [5] [10] 0 (node_of [99])).1 in
  (Get no_gzip (at_time 2) tun (λ _, false) (λ _, CleanMiss) [] [5] n').2 = Some (inl (Some [10])).
Proof.
  cbv zeta. destruct (Set_ (at_time 1) [5] [10] 0 (node_of [99])) as [n' [wr|err]] eqn:E; [|vm_compute in E; discriminate E].
  refine (proj1 (primary_reads_own_write demo_keys bytes_codec no_gzip 4 (node_of [99]) (at_time 1) [5] [10] 0 n' wr
    (at_time 2) tun (λ _, false) (λ _, CleanMiss) [] demo_local_wf _ _ E _ _ _)).
  - vm_compute. reflexivity.
  - reflexivity.
  - revert E. vm_compute. by intros [= _ <-].
  - cbn. lia.
  - unfold dead. vm_compute. intros [H _]. discriminate H.
Defined.

(** The second owner holds an older copy. *)
Definition second_owner : Node (InMemoryCache bytes bytes) :=
  (rpcSet no_gzip (at_time 1) (MkSet [5] [8] 0 7 false) (node_of [97])).1.
Lemma second_owner_wf : wf 5 (local second_owner).
Proof.
  destruct (law_import 5 (local demo_node) 1 (λ _, inOrder) (MkItem [5] [8] 0 7) None demo_local_wf) as (H & _). exact H.
Qed.
Lemma secondary_owner_reads_stale_witness :
  let n' := (Set_ (at_time 2) [5] [10] 0 second_owner).1 in
  (Get no_gzip (at_time 3) tun (λ _, false) (λ _, Hit [10] false) [] [5] n').2 = Some (inl (Some [8])).
Proof.
  cbv zeta. destruct (Set_ (at_time 2) [5] [10] 0 second_owner) as [n' [wr|err]] eqn:E; [|vm_compute in E; discriminate E].
  refine (proj2 (proj2 (secondary_owner_reads_stale demo_keys bytes_codec no_gzip 4 second_owner (at_time 2) [5] [10] 0 n' wr [8] 0
    (at_time 3) tun (λ _, false) (λ _, Hit [10] false) [] second_owner_wf E _ _ _ _ _))).
  - revert E. vm_compute. by intros [= _ <-].
  - exists Rendezvous.n1. split; [|reflexivity]. revert E. vm_compute. intros [= _ <-]. cbn. set_solver.
  - vm_compute. reflexivity.
  - cbn. lia.
  - unfold dead. lia.
Defined.
End Client.
