(* ===== verification/Repair.v ===== *)
(** * Repair: backfill and rebalancing ([bf_rpc.go], [bf_join.go], [migrate.go] of [src/cluster/])

    Digests of hash-prefix buckets, the paging of differing buckets from a donor, the import on
    the joiner, and the migration of keys to their primary.  [sort.Slice] by hash is a merge
    sort: for distinct hashes there is only one result. *)
From Stdlib Require Import ZArith Lia Sorting.
From stdpp Require Import base numbers list gmap sets sorting.
From S2P Require Import Prelude Admission Shard Eviction Cache CacheInv CacheSpec CacheTheorems CacheIface Hlc KeyCodec Rendezvous Node NodeTheorems Client.
Local Open Scope Z_scope.

Module Repair.
Import Hlc KeyCodec Node Client.

Definition absExpiryAt (base ttl : Z) : Z := if ttl <=? 0 then 0 else i64 (base + ttl).

(** ** Messages *)
Record BucketDigest := MkBucket { Prefix : bytes; Count : Z; Hash : Z }.
Record DigestResp := MkDigestResp { Depth : Z; Buckets : list BucketDigest; DNotInRing : bool }.
Record KeysReq := MkKeysReq { TargetID : NodeID; KPrefix : bytes; Limit : Z; Cursor : bytes }.
Record KeysResp := MkKeysResp { Items : list KV; NextCursor : bytes; KDone : bool; KNotInRing : bool }.

Record bucketSig := MkSig { count : Z; hash : Z }.
Definition no_sig : bucketSig := MkSig 0 0.

Definition prefix_of_hash (depth : nat) (h : Z) : bytes := take depth (putUint64 h).
Definition clamp_depth (depth : Z) : nat := Z.to_nat (if (depth <=? 0) || (8 <? depth) then 2 else depth).

(** [s.count++; s.hash ^= h64 ^ ver]. *)
Definition bump (m : gmap bytes bucketSig) (p : bytes) (h ver : Z) : gmap bytes bucketSig :=
  let s := default no_sig (m !! p) in
  <[p := MkSig (u32 (count s + 1)) (Z.lxor (hash s) (Z.lxor h ver))]> m.

Section Repair.
Context {C K V : Type} `{Ops : CacheOps C K V, KC : KeyCodec K, VC : Codec V}.
Context (gzip : bytes → bytes) (gunzip : bytes → option bytes).
Abbreviation node := (Node C).

(** The version a digest uses for a key. *)
Definition digest_version (n : node) (k : K) : Z := if LWWEnabled (cfg n) then version_of n (EncodeKey k) else 0.

(** The buckets over the keys the node [target] owns on this ring: the loop that
    [computeLocalDigests] and [rpcBackfillDigest] share. *)
Definition digests (n : node) (target : NodeID) (depth : nat) (keys : list K) : gmap bytes bucketSig :=
  foldl (λ m k,
    if negb (Rendezvous.ownsHash (nring n) target (Hash64 k)) then m
    else bump m (prefix_of_hash depth (Hash64 k)) (Hash64 k) (digest_version n k)) ∅ keys.

Definition computeLocalDigests (now : Z) (o : rangeOrder) (depth : Z) (n : node) : gmap bytes bucketSig :=
  digests n (SelfID (cfg n)) (clamp_depth depth) (ckeys (local n) now o).

(** [bytes.Compare] orders like strings. *)
Definition bucket_le (a b : BucketDigest) : Prop := Rendezvous.id_ltb (Prefix b) (Prefix a) = false.
#[export] Instance bucket_le_dec : RelDecision bucket_le.
Proof. intros a b. unfold bucket_le. apply _. Defined.

Definition rpcBackfillDigest (now : Z) (o o' : rangeOrder) (target : NodeID) (reqDepth : Z) (n : node) : DigestResp :=
  let depth := clamp_depth reqDepth in
  if negb (Rendezvous.hasID (nring n) target) then MkDigestResp (Z.of_nat depth) [] true
  else
    let m := digests n target depth (ckeys (local n) now o) in
    let out := (λ p, MkBucket p.1 (count p.2) (hash p.2)) <$> range o' (map_to_list m) in
    MkDigestResp (Z.of_nat depth) (merge_sort bucket_le out) false.

(** ** Paging *)
Definition row_le (a b : Z * K) : Prop := a.1 ≤ b.1.
#[export] Instance row_le_dec : RelDecision row_le.
Proof. intros a b. unfold row_le. apply _. Defined.

(** The keys of the bucket the target owns, behind the cursor, by hash. *)
Definition page_rows (n : node) (target : NodeID) (prefix : bytes) (after : Z) (keys : list K) : list (Z * K) :=
  merge_sort row_le
    (filter (λ r, bool_decide (prefix_of_hash (length prefix) r.1 = prefix) && Rendezvous.ownsHash (nring n) target r.1 && (after <? r.1) = true)
      ((λ k, (Hash64 k, k)) <$> keys)).

(** The values of the rows that are still there. *)
Fixpoint page_items (e : env) (rows : list (Z * K)) (n : node) : node * list KV :=
  match rows with
  | [] => (n, [])
  | (_, k) :: rows =>
      let '(c, r) := cgetTTL (local n) k (e_now e) (e_now' e) in
      let n := put_local c n in
      match r with
      | None => page_items e rows n
      | Some (v, ttl) =>
          let '(b2, cp) := maybeCompress gzip n (default [] (Encode v)) in
          let kv := MkKV (EncodeKey k) b2 (absExpiryAt (e_now e) ttl) (digest_version n k) cp in
          let '(n, kvs) := page_items e rows n in (n, kv :: kvs)
      end
  end.

Definition page_limit (l : Z) : nat := Z.to_nat (if (l <=? 0) || (4096 <? l) then 1024 else l).
Definition cursor_hash (c : bytes) : Z := if (length c =? 8)%nat then uint64_be c else 0.

Definition rpcBackfillKeys (e : env) (o : rangeOrder) (req : KeysReq) (n : node) : node * KeysResp :=
  let depth := length (KPrefix req) in
  if (depth =? 0)%nat || (8 <? depth)%nat then (n, MkKeysResp [] [] true false)
  else if negb (Rendezvous.hasID (nring n) (TargetID req)) then (n, MkKeysResp [] [] true true)
  else
    let rows := take (page_limit (Limit req))
      (page_rows n (TargetID req) (KPrefix req) (cursor_hash (Cursor req)) (ckeys (local n) (e_now e) o)) in
    let '(n, items) := page_items e rows n in
    (n, MkKeysResp items (match last rows with Some r => putUint64 r.1 | None => [] end) (bool_decide (items = [])) false).

(** ** The joiner *)
Definition decode_kv (kv : KV) : option ExportItem :=
  match DecodeKey (kvK kv) with
  | inr _ => None
  | inl k =>
      match maybeDecompress gunzip (kvV kv) (kvCp kv) with
      | None => None
      | Some vb => match Decode vb with None => None | Some v => Some (MkItem k v (kvE kv) (kvVer kv)) end
      end
  end.

Definition updateLocalDigestWithBatch (n : node) (depth : nat) (batch : list (@ExportItem K V)) (m : gmap bytes bucketSig) : gmap bytes bucketSig :=
  foldl (λ m it, bump m (prefix_of_hash depth (Hash64 (Key it))) (Hash64 (Key it)) (if LWWEnabled (cfg n) then Version it else 0)) m batch.

(** The import of one page. *)
Definition import_page (e : env) (kvs : list KV) (n : node) : node * list ExportItem :=
  let toImport := omap decode_kv kvs in
  match last toImport with
  | None => (n, [])
  | Some l =>
      let n := put_local (cimport (local n) (e_now e) (e_order e) ((λ it, (it, e_pool e)) <$> toImport)) n in
      let n :=
        if LWWEnabled (cfg n) then
          let n := foldl (λ n it, put_version (EncodeKey (Key it)) (Version it) n) n toImport in
          if 0 <? Version l then put_clock (Observe (e_ms e) (Version l) (clock n)) n else n
        else n in
      (n, toImport)
  end.

(** The loop over the pages of one bucket, on both nodes: the joiner [n] and the donor [d].
    [up] tells which requests get through. *)
Fixpoint pull_bucket (fuel : nat) (up : nat → bool) (es : nat → env) (o : nat → rangeOrder) (depth : nat) (page : Z) (prefix cursor : bytes)
    (n d : node) (m : gmap bytes bucketSig) : node * node * gmap bytes bucketSig :=
  match fuel with
  | O => (n, d, m)
  | S fuel =>
      if negb (up fuel) then (n, d, m)
      else
      let '(d, kr) := rpcBackfillKeys (es fuel) (o fuel) (MkKeysReq (SelfID (cfg n)) prefix page cursor) d in
      if KNotInRing kr then (n, d, m)
      else if decide (Items kr = []) then (n, d, m)
      else
        let '(n, toImport) := import_page (es fuel) (Items kr) n in
        let m := updateLocalDigestWithBatch n depth toImport m in
        if (length (NextCursor kr) =? 8)%nat then pull_bucket fuel up es o depth page prefix (NextCursor kr) n d m
        else (n, d, m)
  end.

(** One bucket of a donor's digest: pulled when it differs from the joiner's. *)
Definition bucket_step (fuel : nat) (up : nat → bool) (es : nat → env) (o : nat → rangeOrder) (depth : nat) (page : Z)
    (st : node * node * gmap bytes bucketSig) (b : BucketDigest) : node * node * gmap bytes bucketSig :=
  let '(n, d, m) := st in
  let lp := default no_sig (m !! Prefix b) in
  if (count lp =? Count b) && (hash lp =? Hash b) then (n, d, m)
  else pull_bucket fuel up es o depth page (Prefix b) [] n d m.

(** [uint8(depth)]; every call passes [defaultBackfillDepth]. *)
Definition defaultBackfillDepth : Z := 2.

(** One donor of [backfillOnce]. *)
Definition backfill_from (fuel : nat) (up : nat → bool) (es : nat → env) (o : nat → rangeOrder) (depth : Z) (page : Z)
    (n d : node) (m : gmap bytes bucketSig) : node * node * gmap bytes bucketSig :=
  let dr := rpcBackfillDigest (e_now (es 0%nat)) (o 0%nat) (o 1%nat) (SelfID (cfg n)) (u8 depth) d in
  if negb (up fuel) then (n, d, m)
  else if DNotInRing dr then (n, d, m)
  else
    foldl (bucket_step fuel up es o (Z.to_nat depth) page) (n, d, m) (Buckets dr).

(** [backfillOnce] over the connected donors, in the order of their ids. *)
Definition backfillOnce (fuel : nat) (up : nat → bool) (es : nat → env) (o : nat → rangeOrder) (depth page : Z) (donors : list node) (n : node)
    : node * list node :=
  let m := computeLocalDigests (e_now (es 0%nat)) (o 0%nat) depth n in
  let '(n, ds, _) := foldl (λ '(n, ds, m) d,
    let '(n, d, m) := backfill_from fuel up es o depth page n d m in (n, ds ++ [d], m)) (n, [], m) donors in
  (n, ds).

(** ** Rebalancing *)
Definition ownersFor (now : Z) (key : K) (n : node) : option (list nodeMeta) :=
  match Rendezvous.ownersFromKeyHash (nring n) (Hash64 key) with
  | None => None
  | Some owners =>
      match hotSet n !! EncodeKey key with
      | Some expAt =>
          if now <? expAt then
            match Rendezvous.ownersTopNFromKeyHash (nring n) (Hash64 key) (Rendezvous.rf (nring n) + 3) with
            | None => None
            | Some cands =>
                match filter (λ c, Rendezvous.ID c ∉ Rendezvous.ID <$> owners) cands with
                | cand :: _ => Some (owners ++ [cand])
                | [] => Some owners
                end
            end
          else Some owners
      | None => Some owners
      end
  end.

(** [usable p]: a connection to [p] exists and is not penalized; [send p m]: [p] answered the
    set [m] with OK.  A connection reset after a transport error is not part of this state. *)
Definition rebalance_key (e : env) (usable : NodeID → bool) (send : NodeID → MsgSet → bool) (n : node) (k : K) : node :=
  match ownersFor (e_now e) k n with
  | None | Some [] => n
  | Some (primary :: _) =>
      if bool_decide (Rendezvous.ID primary = SelfID (cfg n)) then n
      else
        let '(c, r) := cgetTTL (local n) k (e_now e) (e_now' e) in
        let n := put_local c n in
        match r with
        | None => n
        | Some (v, ttl) =>
            match Encode v with
            | None => n
            | Some vb =>
                let '(vb, cp) := maybeCompress gzip n vb in
                if negb (usable (Rendezvous.ID primary)) then n
                else
                  let '(n, ver) := next_version e n in
                  if send (Rendezvous.ID primary) (MkSet (EncodeKey k) vb (absExpiry (e_now e) ttl) ver cp)
                  then put_local (cdelete (local n) k).1 n else n
            end
        end
  end.
Definition rebalanceOnce (es : nat → env) (o : rangeOrder) (usable : NodeID → bool) (send : NodeID → MsgSet → bool) (n : node) : node :=
  let keys := ckeys (local n) (e_now (es 0%nat)) o in
  let limit := if (RebalanceLimit (cfg n) <=? 0) || (Z.of_nat (length keys) <? RebalanceLimit (cfg n))
               then length keys else Z.to_nat (RebalanceLimit (cfg n)) in
  foldl (λ n '(i, k), rebalance_key (es i) usable send n k) n (imap (λ i k, (i, k)) (take limit keys)).
End Repair.

Section RepairTheorems.
Context {C K V : Type} `{EqDecision K, Ops : !CacheOps C K V, Laws : !CacheLaws C K V}.
Context (KC : KeyCodec K) `{VC : Codec V}.
Context (gzip : bytes → bytes) (gunzip : bytes → option bytes).
Abbreviation node := (Node C).
Implicit Types n d : node.

(** ** Digests *)
Lemma foldl_comm_perm {A B} (f : B → A → B) (l l' : list A) b :
  (∀ b x y, f (f b x) y = f (f b y) x) → l ≡ₚ l' → foldl f b l = foldl f b l'.
Proof.
  intros Hf Hp. revert b. induction Hp as [|x l l' _ IH|x y l|l1 l2 l3 _ IH1 _ IH2]; intros b; cbn; [done|apply IH|by rewrite Hf|by rewrite IH1].
Qed.

Lemma bump_comm m p h v p' h' v' : bump (bump m p h v) p' h' v' = bump (bump m p' h' v') p h v.
Proof.
  unfold bump. generalize (Z.lxor h v) (Z.lxor h' v'). intros a b. destruct (decide (p = p')) as [->|Hne].
  - rewrite !lookup_insert_eq, !insert_insert_eq. cbn. do 2 f_equal. by rewrite !Z.lxor_assoc, (Z.lxor_comm a).
  - rewrite !lookup_insert_ne by done. by apply insert_insert_ne.
Qed.

Lemma digests_perm n target depth keys keys' : keys ≡ₚ keys' → digests n target depth keys = digests n target depth keys'.
Proof.
  apply foldl_comm_perm. intros m x y. destruct (negb _), (negb _); try done. apply bump_comm.
Qed.

(** Digests only depend on the ring and the versions of the keys. *)
Lemma digests_ext n d target depth keys :
  nring n = nring d → (∀ k, k ∈ keys → digest_version n k = digest_version d k) →
  digests n target depth keys = digests d target depth keys.
Proof.
  intros Er Hv. unfold digests. rewrite Er. generalize (∅ : gmap bytes bucketSig). induction keys as [|k keys IH]; intros m; cbn; [done|].
  rewrite (Hv k) by set_solver. apply IH. intros k' Hk'. apply Hv. set_solver.
Qed.

(** Two nodes hold the same live keys in the same versions. *)
Definition in_sync (now : Z) (n d : node) : Prop :=
  nring n = nring d ∧ ∀ k, (is_Some (alive_at now (cfind (local n) k)) ↔ is_Some (alive_at now (cfind (local d) k))) ∧
    digest_version n k = digest_version d k.

Lemma in_sync_keys w w' now o o' n d :
  wf w (local n) → wf w' (local d) → in_sync now n d → ckeys (local n) now o ≡ₚ ckeys (local d) now o'.
Proof.
  intros Hn Hd [_ Hs]. destruct (law_keys w (local n) now o Hn) as [N1 K1], (law_keys w' (local d) now o' Hd) as [N2 K2].
  apply NoDup_Permutation; [done|done|]. intros k. rewrite K1, K2. apply Hs.
Qed.

(** Replicas in sync exchange nothing: if joiner and donor hold the same live keys in the
    same versions and agree on the ring, every bucket digest matches, whatever order the keys
    are visited in, and a backfill run pages no bucket and changes neither node. *)
Theorem in_sync_backfill_is_noop w w' fuel up es o depth page n d :
  wf w (local n) → wf w' (local d) → in_sync (e_now (es 0%nat)) n d →
  Rendezvous.hasID (nring n) (SelfID (cfg n)) = true → 0 ≤ depth < 256 →
  backfillOnce gzip gunzip fuel up es o depth page [d] n = (n, [d]).
Proof.
  intros Hn Hd Hs Hid Hdep. unfold backfillOnce. cbn [foldl]. set (m := computeLocalDigests _ _ _ _).
  unfold backfill_from, rpcBackfillDigest, u8. rewrite Z.mod_small by lia. destruct (negb (up fuel)); [done|]. rewrite <-(proj1 Hs), Hid. cbn [negb DNotInRing Buckets].
  assert (digests d (SelfID (cfg n)) (clamp_depth depth) (ckeys (local d) (e_now (es 0%nat)) (o 0%nat)) = m) as ->.
  { unfold m, computeLocalDigests. rewrite (digests_perm n _ _ _ _ (in_sync_keys w w' _ (o 0%nat) (o 0%nat) n d Hn Hd Hs)).
    symmetry. apply digests_ext; [apply Hs|]. intros k _. apply Hs. }
  set (bs := merge_sort _ _).
  assert (∀ b, b ∈ bs → m !! Prefix b = Some (MkSig (Count b) (Hash b))) as Hb.
  { intros b. unfold bs. rewrite merge_sort_Permutation, list_elem_of_fmap. intros ([p [c h]] & -> & Hin). cbn.
    rewrite elem_of_range in Hin. by apply elem_of_map_to_list in Hin. }
  clearbody bs. assert (∀ l, (∀ b, b ∈ l → b ∈ bs) →
    foldl (bucket_step gzip gunzip fuel up es o (Z.to_nat depth) page) (n, d, m) l = (n, d, m)) as HI.
  { induction l as [|b l IH]; intros Hl; cbn [foldl]; [done|]. unfold bucket_step at 2. rewrite (Hb b) by (apply Hl; left).
    cbn. rewrite !Z.eqb_refl. cbn. apply IH. intros b' Hb'. apply Hl. by right. }
  by rewrite (HI bs).
Qed.

(** ** Paging *)

#[local] Instance row_le_trans : Transitive (@row_le K).
Proof. intros a b c. unfold row_le. lia. Qed.
#[local] Instance row_le_total : Total (@row_le K).
Proof. intros a b. unfold row_le. lia. Qed.

(** The rows of a bucket behind a cursor. *)
Definition in_page (n : node) (target : NodeID) (prefix : bytes) (after : Z) (r : Z * K) : Prop :=
  prefix_of_hash (length prefix) r.1 = prefix ∧ Rendezvous.ownsHash (nring n) target r.1 = true ∧ after < r.1.

Lemma page_rows_elem n target prefix after keys r :
  r ∈ page_rows n target prefix after keys ↔ r.2 ∈ keys ∧ r.1 = Hash64 r.2 ∧ in_page n target prefix after r.
Proof.
  unfold page_rows, in_page. rewrite merge_sort_Permutation, list_elem_of_filter, list_elem_of_fmap.
  rewrite !andb_true_iff, bool_decide_eq_true, Z.ltb_lt. destruct r as [h k]. cbn. split.
  - intros [[[? ?] ?] (k' & [= -> ->] & ?)]. done.
  - intros (? & -> & ? & ? & ?). split; [done|]. by exists k.
Qed.
Lemma page_rows_nodup n target prefix after keys : NoDup keys → NoDup (page_rows n target prefix after keys).
Proof.
  intros Hk. unfold page_rows. rewrite merge_sort_Permutation. apply NoDup_filter, NoDup_fmap_2; [|done]. by intros k k' [= _ ->].
Qed.
Lemma page_rows_sorted n target prefix after keys : StronglySorted row_le (page_rows n target prefix after keys).
Proof. apply Sorted_StronglySorted; [apply _|]. apply Sorted_merge_sort. apply _. Qed.

(** Live keys with different hashes. *)
Definition distinct_hashes (keys : list K) : Prop := ∀ k k', k ∈ keys → k' ∈ keys → Hash64 k = Hash64 k' → k = k'.

Lemma sorted_rows_unique (l l' : list (Z * K)) :
  StronglySorted row_le l → StronglySorted row_le l' → (∀ r r', r ∈ l → r' ∈ l → r.1 = r'.1 → r = r') → l ≡ₚ l' → l = l'.
Proof.
  intros Hl Hl' Hi Hp. eapply StronglySorted_unique_strong; [|exact Hl|exact Hl'|done].
  unfold row_le. intros a b Ha Hb H1 H2. rewrite <-Hp in Hb. apply Hi; [done|done|lia].
Qed.

Lemma sorted_lookup (l : list (Z * K)) i j a b :
  StronglySorted row_le l → l !! i = Some a → l !! j = Some b → (i < j)%nat → a.1 ≤ b.1.
Proof.
  intros Hs Hi Hj Hlt. rewrite <-(take_drop j l) in Hs. eapply (StronglySorted_app_1_elem_of row_le) in Hs; [exact Hs|..].
  - apply (list_elem_of_lookup_2 _ i). by rewrite lookup_take_lt.
  - apply (list_elem_of_lookup_2 _ 0). by rewrite lookup_drop, Nat.add_0_r.
Qed.

(** A page behind the last row of a page is the rest of the rows. *)
Lemma page_rest n target prefix after keys i r :
  NoDup keys → distinct_hashes keys →
  page_rows n target prefix after keys !! i = Some r →
  page_rows n target prefix r.1 keys = skipn (S i) (page_rows n target prefix after keys).
Proof.
  intros Hnd Hd Hi. set (R := page_rows n target prefix after keys) in *.
  pose proof (page_rows_sorted n target prefix after keys) as Hs. fold R in Hs.
  pose proof (page_rows_nodup n target prefix after keys Hnd) as HN. fold R in HN.
  assert (∀ r r', r ∈ R → r' ∈ R → r.1 = r'.1 → r = r') as Hu.
  { intros [h k] [h' k'] (H1 & E1 & _)%page_rows_elem (H2 & E2 & _)%page_rows_elem E. cbn in *. subst. by rewrite (Hd k k'). }
  assert (R = take (S i) R ++ skipn (S i) R) as ER by by rewrite take_drop.
  assert (∀ x, x ∈ take (S i) R → x.1 ≤ r.1) as Hlo.
  { intros x [j Hj]%list_elem_of_lookup. apply lookup_take_Some in Hj as [Hj Hlt].
    destruct (decide (j = i)) as [->|Hne]; [assert (x = r) as -> by congruence; lia|].
    apply (sorted_lookup R j i x r Hs); [done|done|lia]. }
  assert (∀ x, x ∈ skipn (S i) R → r.1 < x.1) as Hhi.
  { intros x [j Hj]%list_elem_of_lookup. rewrite lookup_drop in Hj.
    pose proof (sorted_lookup R i (S i + j) r x Hs Hi Hj ltac:(lia)) as Hle.
    assert (r.1 ≠ x.1); [|lia]. intros E. assert (r = x) as <- by (apply Hu; [exact (list_elem_of_lookup_2 _ _ _ Hi)|exact (list_elem_of_lookup_2 _ _ _ Hj)|done]).
    pose proof (NoDup_lookup R i (S i + j) r HN Hi Hj). lia. }
  assert (after < r.1) as Ha.
  { apply list_elem_of_lookup_2 in Hi. by apply page_rows_elem in Hi as (_ & _ & _ & _ & ?). }
  apply sorted_rows_unique.
  - apply page_rows_sorted.
  - rewrite ER in Hs. by apply StronglySorted_app_1_r in Hs.
  - intros a b (H1 & E1 & _)%page_rows_elem (H2 & E2 & _)%page_rows_elem E. destruct a as [h k], b as [h' k']. cbn in *. subst. by rewrite (Hd k k').
  - rewrite ER in HN. apply NoDup_app in HN as (_ & _ & HN). apply NoDup_Permutation; [by apply page_rows_nodup|done|].
    intros x. rewrite page_rows_elem. split.
    + intros (Hk & Eh & Hp & Ho & Hgt). assert (x ∈ R) as Hx by (apply page_rows_elem; unfold in_page; split_and!; done || lia).
      rewrite ER, elem_of_app in Hx. destruct Hx as [Hx%Hlo|Hx]; [lia|done].
    + intros Hx. pose proof (Hhi x Hx). assert (x ∈ R) as (Hk & Eh & Hp & Ho & _)%page_rows_elem by (rewrite ER; apply elem_of_app; by right). unfold in_page. by split_and!.
Qed.

(** Reading the rows of a page changes no content. *)
Definition same_node (n n' : node) : Prop :=
  cfg n' = cfg n ∧ version n' = version n ∧ nring n' = nring n ∧ ∀ k, cfind (local n') k = cfind (local n) k.
Lemma same_node_refl n : same_node n n.
Proof. done. Qed.
Lemma same_node_trans n1 n2 n3 : same_node n1 n2 → same_node n2 n3 → same_node n1 n3.
Proof. intros (A1 & A2 & A3 & A4) (B1 & B2 & B3 & B4). split_and!; first [congruence|intros k; by rewrite B4]. Qed.

(** The item a page carries for a live key. *)
Definition item (e_now : Z) (n : node) (r : Z * K) : KV :=
  match alive_at e_now (cfind (local n) r.2) with
  | Some (v, ex) =>
      let '(b2, cp) := maybeCompress gzip n (default [] (Encode v)) in
      MkKV (EncodeKey r.2) b2 (absExpiryAt e_now (remaining e_now ex)) (digest_version n r.2) cp
  | None => MkKV [] [] 0 0 false
  end.
Lemma item_same e_now n n' r : same_node n n' → item e_now n' r = item e_now n r.
Proof. intros (Ec & Ev & _ & Hf). unfold item, digest_version, version_of, maybeCompress. by rewrite Hf, Ec, Ev. Qed.

Lemma page_items_spec w e rows n :
  wf (length rows + w) (local n) → e_now e ≤ e_now' e →
  (∀ r, r ∈ rows → is_Some (alive_at (e_now e) (cfind (local n) r.2))) →
  let '(n', items) := page_items gzip e rows n in
  items = item (e_now e) n <$> rows ∧ same_node n n' ∧ wf w (local n').
Proof.
  revert n. induction rows as [|[h k] rows IH]; intros n Hw Hnow Hl; cbn [page_items]; [done|].
  destruct (law_getTTL (length rows + w) (local n) k (e_now e) (e_now' e) Hw Hnow) as (Hw1 & _ & Hr & Hf).
  destruct (Hl (h, k) ltac:(left)) as [[v ex] Hk]. cbn in Hk. rewrite Hk in Hr, Hf.
  destruct (cgetTTL (local n) k (e_now e) (e_now' e)) as [c r]. cbn in Hw1, Hr, Hf. subst r. cbn [fmap option_fmap option_map fst snd].
  set (n1 := put_local c n). assert (same_node n n1) as Hs.
  { split_and!; try done. intros k'. cbn. rewrite Hf. case_decide as E; [|done]. subst k'.
    destruct (cfind (local n) k) as [[v' ex']|]; cbn in Hk; [|done]. case_decide; congruence. }
  specialize (IH n1 Hw1 Hnow). destruct (maybeCompress gzip n1 (default [] (Encode v))) as [b2 cp] eqn:Ez.
  destruct (page_items gzip e rows n1) as [n2 items]. destruct IH as (-> & Hs2 & Hw2).
  { intros r Hin. destruct Hs as (_ & _ & _ & ->). apply Hl. by right. }
  split_and!; [|by eapply same_node_trans|done]. cbn [fmap list_fmap]. f_equal.
  - unfold item. cbn [snd]. rewrite Hk. unfold maybeCompress in *. cbn [cfg put_local n1] in Ez. by rewrite Ez.
  - apply list_fmap_ext. intros i r _. by apply item_same.
Qed.

(** The pages a joiner requests for a bucket, each with the environment it is imported in. *)
Fixpoint pages (fuel : nat) (es : nat → env) (o : nat → rangeOrder) (target : NodeID) (page : Z) (prefix cursor : bytes) (d : node)
    : list (env * list KV) :=
  match fuel with
  | O => []
  | S fuel =>
      let '(d, kr) := rpcBackfillKeys gzip (es fuel) (o fuel) (MkKeysReq target prefix page cursor) d in
      if KNotInRing kr then []
      else if decide (Items kr = []) then []
      else (es fuel, Items kr) ::
        if (length (NextCursor kr) =? 8)%nat then pages fuel es o target page prefix (NextCursor kr) d else []
  end.

Lemma import_page_cfg e kvs n : cfg (import_page gunzip e kvs n).1 = cfg n.
Proof.
  unfold import_page. destruct (last _) as [l|]; [|done]. set (n1 := put_local _ n).
  assert (∀ its (n : node), cfg (foldl (λ n (it : @ExportItem K V), put_version (EncodeKey (Key it)) (Version it) n) n its) = cfg n) as Hf.
  { induction its as [|it its IH]; intros n0; cbn; [done|]. by rewrite IH. }
  destruct (LWWEnabled (cfg n1)); [|done]. cbn [fst]. destruct (0 <? Version l); cbn; by rewrite Hf.
Qed.

(** [pull_bucket] imports exactly these pages. *)
Lemma pull_imports_pages fuel es o depth page prefix cursor n d m :
  (pull_bucket gzip gunzip fuel (λ _, true) es o depth page prefix cursor n d m).1.1 =
  foldl (λ n p, (import_page gunzip p.1 p.2 n).1) n (pages fuel es o (SelfID (cfg n)) page prefix cursor d).
Proof.
  revert cursor n d m. induction fuel as [|fuel IH]; intros cursor n d m; cbn [pull_bucket pages negb]; [done|].
  destruct (rpcBackfillKeys _ _ _ _ d) as [d' kr]. destruct (KNotInRing kr); [done|]. case_decide; [done|].
  pose proof (import_page_cfg (es fuel) (Items kr) n) as Hc. cbn [foldl fst snd]. destruct (import_page gunzip (es fuel) (Items kr) n) as [n1 its] eqn:Ei.
  cbn [fst] in *. destruct (length (NextCursor kr) =? 8)%nat; [|done]. by rewrite IH, Hc.
Qed.

(** The rows do not depend on the order in which the keys are listed. *)
Lemma page_rows_perm n n' target prefix after keys keys' :
  nring n' = nring n → keys ≡ₚ keys' → NoDup keys → distinct_hashes keys →
  page_rows n' target prefix after keys' = page_rows n target prefix after keys.
Proof.
  intros Er Hp Hnd Hd. symmetry. apply sorted_rows_unique; [apply page_rows_sorted..| |].
  - intros [h k] [h' k'] (H1 & E1 & _)%page_rows_elem (H2 & E2 & _)%page_rows_elem E. cbn in *. subst. by rewrite (Hd k k').
  - unfold page_rows. rewrite !merge_sort_Permutation, Er. apply filter_Permutation. by rewrite Hp.
Qed.

Lemma same_node_keys w w' now o o' n n' :
  wf w (local n) → wf w' (local n') → same_node n n' → ckeys (local n) now o ≡ₚ ckeys (local n') now o'.
Proof.
  intros Hw Hw' (_ & _ & _ & Hf). destruct (law_keys w (local n) now o Hw) as [N1 K1], (law_keys w' (local n') now o' Hw') as [N2 K2].
  apply NoDup_Permutation; [done|done|]. intros k. by rewrite K1, K2, Hf.
Qed.

Section Donor.
Context (now : Z) (target : NodeID) (page : Z) (prefix : bytes) (es : nat → env) (o : nat → rangeOrder).
Context (Hnow : ∀ f, e_now (es f) = now ∧ e_now (es f) ≤ e_now' (es f)) (Hprefix : (0 < length prefix ≤ 8)%nat).

(** What is live and the hashes of it. *)
Definition donor_ok (d : node) : Prop :=
  Rendezvous.hasID (nring d) target = true ∧
  (∀ k k', is_Some (alive_at now (cfind (local d) k)) → is_Some (alive_at now (cfind (local d) k')) → Hash64 k = Hash64 k' → k = k') ∧
  (∀ k, is_Some (alive_at now (cfind (local d) k)) → is_u64 (Hash64 k)).

Lemma one_page w d f cursor R :
  donor_ok d → R = page_rows d target prefix (cursor_hash cursor) (ckeys (local d) now (o f)) → wf (length R + w) (local d) →
  let P := take (page_limit page) R in
  let '(d', kr) := rpcBackfillKeys gzip (es f) (o f) (MkKeysReq target prefix page cursor) d in
  KNotInRing kr = false ∧ Items kr = item now d <$> P ∧ NextCursor kr = (match last P with Some r => putUint64 r.1 | None => [] end) ∧
  same_node d d' ∧ wf (length R - length P + w) (local d').
Proof.
  intros (Hid & _ & _) ER Hw P. destruct (Hnow f) as [En Hle]. unfold rpcBackfillKeys. cbn [KPrefix TargetID Limit Cursor].
  destruct (Nat.eqb_spec (length prefix) 0); [lia|]. destruct (Nat.ltb_spec 8 (length prefix)); [lia|]. cbn [orb].
  rewrite Hid. cbn [negb]. rewrite En, <-ER. fold P.
  assert (length P ≤ length R)%nat as HPR by (unfold P; rewrite length_take; lia).
  pose proof (page_items_spec (length R - length P + w) (es f) P d) as Hi. rewrite En in Hi.
  destruct (page_items gzip (es f) P d) as [d' items]. destruct Hi as (-> & Hs & Hw').
  - eapply wf_le; [|exact Hw]. lia.
  - by rewrite <-En.
  - intros r Hin. assert (r ∈ R) as Hr by (unfold P in Hin; by eapply elem_of_take in Hin as (i & Hi & _); eapply list_elem_of_lookup_2).
    rewrite ER in Hr. apply page_rows_elem in Hr as (Hk & _). by apply (law_keys _ _ now (o f) Hw) in Hk.
  - done.
Qed.

Lemma page_limit_pos l : (0 < page_limit l)%nat.
Proof. unfold page_limit. destruct (Z.leb_spec l 0), (Z.ltb_spec 4096 l); cbn; lia. Qed.

Lemma pages_rows fuel w d cursor R :
  donor_ok d → R = page_rows d target prefix (cursor_hash cursor) (ckeys (local d) now (o 0%nat)) →
  wf (length R + w) (local d) → (length R < fuel)%nat →
  concat (pages fuel es o target page prefix cursor d).*2 = item now d <$> R.
Proof.
  revert d cursor R. induction fuel as [|fuel IH]; intros d cursor R Hok ER Hw Hf; [lia|]. cbn [pages].
  destruct (law_keys _ _ now (o 0%nat) Hw) as [HN HK]. destruct (law_keys _ _ now (o fuel) Hw) as [HN' HK'].
  assert (distinct_hashes (ckeys (local d) now (o 0%nat))) as Hd.
  { intros k k' H1%HK H2%HK E. destruct Hok as (_ & Hok & _). by apply Hok. }
  assert (R = page_rows d target prefix (cursor_hash cursor) (ckeys (local d) now (o fuel))) as ER'.
  { rewrite ER. symmetry. apply page_rows_perm; [done| |done|done]. apply NoDup_Permutation; [done|done|]. intros k. by rewrite HK, HK'. }
  pose proof (one_page w d fuel cursor R Hok ER' Hw) as Hp. cbv zeta in Hp.
  destruct (rpcBackfillKeys _ _ _ _ d) as [d' kr]. destruct Hp as (-> & Hit & Hcur & Hs & Hw'). set (P := take (page_limit page) R) in *.
  pose proof (page_limit_pos page) as Hpos. destruct (decide (R = [])) as [Er|Er].
  { rewrite decide_True by (rewrite Hit; unfold P; by rewrite Er, take_nil). by rewrite Er. }
  assert (P ≠ []) as HP by (unfold P; destruct R, (page_limit page); [done|done|lia|done]).
  rewrite decide_False by (rewrite Hit; by destruct P). cbn [fmap list_fmap snd concat]. rewrite Hit.
  destruct (last P) as [r|] eqn:El; [|by apply last_None in El]. rewrite Hcur, put_length. cbn [Nat.eqb].
  assert (P !! (length P - 1)%nat = Some r) as Hl by (rewrite <-El, last_lookup; f_equal; lia).
  assert (R !! (length P - 1)%nat = Some r) as HlR by (unfold P in Hl; by apply lookup_take_Some in Hl as [? _]).
  assert (0 < length P)%nat as HlP by (destruct P; [done|cbn; lia]).
  assert (is_u64 r.1) as Hu.
  { apply list_elem_of_lookup_2 in HlR. rewrite ER in HlR. apply page_rows_elem in HlR as (Hk%HK & -> & _). by apply Hok. }
  assert (cursor_hash (putUint64 r.1) = r.1) as Hch by (unfold cursor_hash; by rewrite put_length, be_put).
  assert (length P ≤ length R)%nat as HPR by (unfold P; rewrite length_take; lia).
  assert (page_rows d' target prefix (cursor_hash (putUint64 r.1)) (ckeys (local d') now (o 0%nat)) = skipn (length P) R) as Enext.
  { rewrite Hch. rewrite (page_rows_perm d d' target prefix r.1 (ckeys (local d) now (o 0%nat))); [|apply Hs|by eapply same_node_keys|done|done].
    rewrite ER in HlR. rewrite (page_rest d target prefix (cursor_hash cursor) _ _ r HN Hd HlR), <-ER. f_equal. lia. }
  rewrite (IH d' (putUint64 r.1) (skipn (length P) R)).
  - rewrite (list_fmap_ext _ (item now d) (skipn (length P) R)) by (intros i x _; by apply item_same). rewrite <-fmap_app. f_equal.
    unfold P. destruct (Nat.le_ge_cases (page_limit page) (length R)).
    + rewrite length_take_le by done. apply take_drop.
    + rewrite take_ge by done. rewrite drop_all. apply app_nil_r.
  - destruct Hok as (H1 & H2 & H3), Hs as (_ & _ & E3 & E4). split_and!; [by rewrite E3|intros k k'; rewrite !E4; apply H2|intros k; rewrite E4; apply H3].
  - done.
  - eapply wf_le; [|exact Hw']. rewrite length_drop. lia.
  - rewrite length_drop. lia.
Qed.
End Donor.

(** ** Rebalancing *)

(** A copy of the live entry [(v, ex)] of [k] was pushed to the primary, and acknowledged. *)
Definition pushed (e : env) (usable : NodeID → bool) (send : NodeID → MsgSet → bool) (n : node) (k : K) (v : V) (ex : Z) : Prop :=
  ∃ p os vb ver, ownersFor (e_now e) k n = Some (p :: os) ∧ Rendezvous.ID p ≠ SelfID (cfg n) ∧ usable (Rendezvous.ID p) = true ∧
    Encode v = Some vb ∧
    let '(b, cp) := maybeCompress gzip n vb in
    send (Rendezvous.ID p) (MkSet (EncodeKey k) b (absExpiry (e_now e) (remaining (e_now e) ex)) ver cp) = true.

(** What rebalancing leaves alone. *)
Definition same_setup (n n' : node) : Prop :=
  cfg n' = cfg n ∧ version n' = version n ∧ nring n' = nring n ∧ hotSet n' = hotSet n.

Lemma pushed_same e usable send n n' k v ex : same_setup n n' → pushed e usable send n' k v ex → pushed e usable send n k v ex.
Proof.
  intros (Ec & _ & Er & Eh) (p & os & vb & ver & Ho & Hp). exists p, os, vb, ver. unfold ownersFor, maybeCompress in *.
  by rewrite <-Er, <-Eh, <-Ec.
Qed.

Lemma rebalance_key_spec w e usable send n k0 :
  wf (S w) (local n) → e_now e ≤ e_now' e →
  let n' := rebalance_key gzip e usable send n k0 in
  wf w (local n') ∧ same_setup n n' ∧
  ∀ k, cfind (local n') k = cfind (local n) k ∨
    k = k0 ∧ (alive_at (e_now e) (cfind (local n) k) = None ∧ cfind (local n') k = None ∨
              ∃ v ex, cfind (local n) k = Some (v, ex) ∧ cfind (local n') k = None ∧ pushed e usable send n k v ex).
Proof.
  intros Hw Hnow. cbv zeta. assert (wf w (local n)) as Hw0 by (eapply wf_le; [|exact Hw]; lia). assert (same_setup n n) as Hs0 by done. unfold rebalance_key.
  destruct (ownersFor (e_now e) k0 n) as [[|p os]|] eqn:Eo; [by auto|idtac|by auto].
  case_bool_decide as Hp; [by auto|].
  destruct (law_getTTL w (local n) k0 (e_now e) (e_now' e) Hw Hnow) as (Hw1 & _ & Hr & Hf).
  destruct (cgetTTL (local n) k0 (e_now e) (e_now' e)) as [c r]. cbn in Hw1, Hr, Hf. subst r.
  assert (∀ k, cfind c k = cfind (local n) k ∨ k = k0 ∧ alive_at (e_now e) (cfind (local n) k) = None ∧ cfind c k = None) as Hread.
  { intros k. rewrite Hf. destruct (decide (k = k0)) as [->|]; [|by left].
    destruct (cfind (local n) k0) as [[v ex]|]; cbn; [|by left]. case_decide; [right|left]; done. }
  set (n1 := put_local c n). assert (wf w (local n1) ∧ same_setup n n1 ∧ ∀ k, cfind (local n1) k = cfind (local n) k ∨
    k = k0 ∧ (alive_at (e_now e) (cfind (local n) k) = None ∧ cfind (local n1) k = None ∨
              ∃ v ex, cfind (local n) k = Some (v, ex) ∧ cfind (local n1) k = None ∧ pushed e usable send n k v ex)) as Hkeep.
  { split_and!; [done|done|]. intros k. destruct (Hread k) as [|(? & ? & ?)]; [by left|]. right. split; [done|]. by left. }
  destruct (alive_at (e_now e) (cfind (local n) k0)) as [[v ex]|] eqn:Ea; cbn [fmap option_fmap option_map fst snd]; [|exact Hkeep].
  destruct (Encode v) as [vb|] eqn:Ev; [|exact Hkeep].
  destruct (maybeCompress gzip n1 vb) as [b cp] eqn:Ez. destruct (usable (Rendezvous.ID p)) eqn:Eu; cbn [negb]; [|exact Hkeep].
  unfold next_version. destruct (Next (e_ms e) (clock n1)) as [h ver]. cbn [local put_clock].
  destruct (send _ _) eqn:Es; [|exact Hkeep].
  destruct (law_delete w (local n1) k0 Hw1) as (Hw2 & _ & _ & Hd). split_and!; [done|done|].
  intros k. cbn [local put_local]. rewrite Hd. destruct (decide (k = k0)) as [->|Hne].
  - right. split; [done|]. right. exists v, ex. split_and!; [|done|].
    + destruct (cfind (local n) k0) as [[v' ex']|]; cbn in Ea; [|done]. case_decide; congruence.
    + exists p, os, vb, ver. unfold maybeCompress in *. cbn [cfg n1 put_local] in Ez. by rewrite Ez.
  - left. destruct (Hread k) as [|[? _]]; done.
Qed.

Section Rebalance.
Context (es : nat → env) (usable : NodeID → bool) (send : NodeID → MsgSet → bool) (Hnow : ∀ i, e_now (es i) ≤ e_now' (es i)).

Lemma rebalance_loop_spec (l : list (nat * K)) w n k v ex :
  wf (length l + w) (local n) → cfind (local n) k = Some (v, ex) → (∀ i, ¬ dead (e_now (es i)) ex) →
  let n' := foldl (λ n '(i, k), rebalance_key gzip (es i) usable send n k) n l in
  same_setup n n' ∧
  (cfind (local n') k = Some (v, ex) ∨ k ∈ l.*2 ∧ cfind (local n') k = None ∧ ∃ i, pushed (es i) usable send n k v ex).
Proof.
  intros Hw Hk Hlive. cbv zeta.
  assert (∀ l n, wf (length l + w) (local n) → cfind (local n) k = None →
    let n' := foldl (λ n '(i, k), rebalance_key gzip (es i) usable send n k) n l in same_setup n n' ∧ cfind (local n') k = None) as Hgone.
  { clear Hw Hk n l. intros l. induction l as [|[i k0] l IH]; intros n Hw Hk; [done|]. cbn [foldl].
    destruct (rebalance_key_spec (length l + w) (es i) usable send n k0 Hw (Hnow i)) as (Hw' & Hs & Hc).
    destruct (IH _ Hw') as [Hs' Hn]; [destruct (Hc k) as [E|(_ & [[_ E]|(? & ? & ? & _)])]; congruence|].
    split; [|done]. unfold same_setup in *. intuition congruence. }
  revert n Hw Hk. induction l as [|[i k0] l IH]; intros n Hw Hk; cbn [foldl]; [by split; [|left]|].
  destruct (rebalance_key_spec (length l + w) (es i) usable send n k0 Hw (Hnow i)) as (Hw' & Hs & Hc).
  destruct (Hc k) as [E|(-> & [[Ha _]|(v' & ex' & E & En & Hp)])].
  - rewrite <-E in Hk. destruct (IH _ Hw' Hk) as (Hs' & Hres). split; [unfold same_setup in *; intuition congruence|].
    destruct Hres as [H|(Hin & H & j & Hj)]; [by left|right]. split_and!; [by apply list_elem_of_further|done|]. exists j. by eapply pushed_same.
  - rewrite Hk in Ha. cbn in Ha. rewrite decide_False in Ha by apply Hlive. done.
  - assert (v' = v ∧ ex' = ex) as [-> ->] by (split; congruence). destruct (Hgone l _ Hw' En) as [Hs' Hn].
    split; [unfold same_setup in *; intuition congruence|]. right. split_and!; [apply list_elem_of_here|done|by exists i].
Qed.
End Rebalance.

(** C34.  A rebalance pass loses nothing: a live entry is afterwards still there unchanged, or
    another node is the primary of its key, is reachable, and has acknowledged a set with
    exactly that key, value and remaining lifetime. *)
Theorem rebalance_never_loses es o usable send w n k v ex :
  (∀ i, e_now (es i) ≤ e_now' (es i)) → wf (length (ckeys (local n) (e_now (es 0%nat)) o) + w) (local n) →
  cfind (local n) k = Some (v, ex) → (∀ i, ¬ dead (e_now (es i)) ex) →
  let n' := rebalanceOnce gzip es o usable send n in
  same_setup n n' ∧
  (cfind (local n') k = Some (v, ex) ∨ cfind (local n') k = None ∧ ∃ i, pushed (es i) usable send n k v ex).
Proof.
  intros Hnow Hw Hk Hlive. cbv zeta. unfold rebalanceOnce. set (l := imap _ _).
  destruct (rebalance_loop_spec es usable send Hnow l w n k v ex) as (Hs & Hres); [|done|done|].
  - eapply wf_le; [|exact Hw]. unfold l. rewrite length_imap, length_take. lia.
  - split; [done|]. destruct Hres as [|(_ & ? & ?)]; auto.
Qed.
End RepairTheorems.

(** ** Instances: keys hashed by their first byte on the ring of [Rendezvous]; hashes 2 and 3
    belong to [97] and [99], hash 5 to [99] and [98] *)
Import NodeTheorems.
Definition byte_keys : KeyCodec bytes := BytesKeyCodec (hd 0).
Definition no_zip : bytes → bytes := λ b, b.
Definition quiet : nat → env := λ _, at_time 2.
Definition orders : nat → rangeOrder := λ _, inOrder.
Definition stored (id : NodeID) (kvs : list KV) : Node (InMemoryCache bytes bytes) :=
  foldl (λ n kv, (rpcSet (KC := byte_keys) no_gzip (at_time 1) (MkSet (kvK kv) (kvV kv) (kvE kv) (kvVer kv) (kvCp kv)) n).1) (node_of id) kvs.

Lemma stored_wf id kvs : wf 5 (local (stored id kvs)).
Proof.
  unfold stored. assert (wf 5 (local (node_of id))) as Hw by exact demo_local_wf. revert Hw. generalize (node_of id) as n.
  induction kvs as [|kv kvs IH]; intros n Hw; cbn [foldl]; [done|]. apply IH. unfold rpcSet.
  destruct (set_validate _ _ _) as [[vb k]|]; [|done]. destruct (_ && _); [done|]. destruct (Decode vb) as [v|]; [|done].
  destruct (law_import 5 (local n) 1 (λ _, inOrder) (set_item (MkSet (kvK kv) (kvV kv) (kvE kv) (kvVer kv) (kvCp kv)) k v) None Hw) as (H & _).
  cbn [import_one local put_local cfg]. destruct (LWWEnabled (cfg n)); exact H.
Qed.

Definition donor := stored [99] [MkKV [3] [30] 0 103 false; MkKV [2] [20] 0 102 false].
Definition mixed := stored [99] [MkKV [3] [30] 0 103 false; MkKV [5] [50] 0 105 false].

Definition joiner := MkNode (MkConfig [97] 2 1 true 16 16 0 0 0) (local donor) (version donor) (newHLC 1) (nring donor) ∅.
Lemma donor_wf : wf 5 (local donor).
Proof. apply stored_wf. Qed.
Lemma joiner_in_sync : in_sync byte_keys 2 joiner donor.
Proof. split; [done|]. intros k. unfold joiner, digest_version, version_of. cbn [local cfg version]. done. Qed.
Lemma joiner_in_ring : Rendezvous.hasID (nring joiner) (SelfID (cfg joiner)) = true.
Proof. vm_compute. done. Qed.

Lemma in_sync_backfill_is_noop_witness :
  backfillOnce (KC := byte_keys) no_zip no_gzip 4 (λ _, true) quiet orders defaultBackfillDepth 1 [donor] joiner
  = (joiner, [donor]).
Proof.
  exact (in_sync_backfill_is_noop byte_keys no_zip no_gzip 5 5 4 (λ _, true) quiet orders defaultBackfillDepth 1 joiner donor
    donor_wf donor_wf joiner_in_sync joiner_in_ring ltac:(unfold defaultBackfillDepth; lia)).
Defined.


Lemma rebalance_never_loses_witness :
  let n' := rebalanceOnce (KC := byte_keys) no_zip quiet inOrder (λ _, true) (λ _ _, true) mixed in
  cfind (local n') [5] = Some ([50], 0) ∧ cfind (local n') [3] = None ∧
  (cfind (local n') [3] = Some ([30], 0) ∨
   cfind (local n') [3] = None ∧ ∃ i, pushed byte_keys no_zip (quiet i) (λ _, true) (λ _ _, true) mixed [3] [30] 0).
Proof.
  cbv zeta. split; [vm_compute; reflexivity|]. split; [vm_compute; reflexivity|].
  refine (proj2 (rebalance_never_loses byte_keys no_zip quiet inOrder (λ _, true) (λ _ _, true) 3 mixed [3] [30] 0 _ _ _ _)).
  - intros i. cbn. lia.
  - match goal with |- wf (length ?l + _) _ => assert (length l = 2%nat) as -> by (vm_compute; reflexivity) end. apply stored_wf.
  - vm_compute. reflexivity.
  - intros i. unfold dead. lia.
Defined.

(** *** What the repair paths do to newer or replicated data *)

(** The start cursor of a bucket excludes hash 0: the digest counts the key, no page carries
    it, and the joiner stays without it. *)
Theorem hash_zero_is_never_paged :
  let d := stored [99] [MkKV [0] [10] 0 100 false] in
  Buckets (rpcBackfillDigest (KC := byte_keys) 2 inOrder inOrder [98] 2 d) = [MkBucket [0; 0] 1 100] ∧
  (backfillOnce (KC := byte_keys) no_zip no_gzip 4 (λ _, true) quiet orders defaultBackfillDepth 0 [d] (node_of [98])).1 = node_of [98] ∧
  Rendezvous.ownsHash Rendezvous.demo_ring [98] 0 = true.
Proof. vm_compute. done. Qed.

(** A page is imported without comparing versions: the joiner's newer value and version are
    replaced by the donor's older ones. *)
Theorem backfill_overwrites_newer :
  let n := stored [97] [MkKV [3] [33] 0 300 false] in
  let n' := (backfillOnce (KC := byte_keys) no_zip no_gzip 4 (λ _, true) quiet orders defaultBackfillDepth 0 [donor] n).1 in
  version_of n [3] = 300 ∧ cfind (local n) [3] = Some ([33], 0) ∧
  version_of n' [3] = 103 ∧ cfind (local n') [3] = Some ([30], 0).
Proof. vm_compute. done. Qed.

(** A second owner deletes its replica in a rebalance pass, and the copy it pushes carries a
    fresh version: a stale replica replaces the newer value of the primary. *)
Theorem rebalance_spreads_stale_replica :
  let n := stored [99] [MkKV [3] [30] 0 103 false] in
  let primary := stored [97] [MkKV [3] [33] 0 300 false] in
  let push := MkSet [3] [30] 0 (next_version (at_time 2) n).2 false in
  let n' := rebalanceOnce (KC := byte_keys) no_zip quiet inOrder (λ _, true) (λ p m, bool_decide (p = [97] ∧ sKey m = [3] ∧ sVer m = sVer push)) n in
  Rendezvous.ownsHash Rendezvous.demo_ring [99] 3 = true ∧ cfind (local n') [3] = None ∧
  cfind (local (rpcSet (KC := byte_keys) no_gzip (at_time 2) push primary).1) [3] = Some ([30], 0).
Proof. vm_compute. done. Qed.

(** An entry read in the nanosecond of its expiry is sent on without one. *)
Theorem expiring_now_becomes_immortal :
  let d := stored [99] [MkKV [3] [30] 2 103 false] in
  (rpcBackfillKeys (KC := byte_keys) no_zip (at_time 2) inOrder (MkKeysReq [97] [0] 0 []) d).2.(Items) = [MkKV [3] [30] 0 103 false].
Proof. vm_compute. done. Qed.
End Repair.
