(* ===== verification/Transport.v ===== *)
(** * Peer connections ([src/cluster/transport.go], [src/cluster/bufpool.go])

    Length-prefixed frames, the demultiplexing of replies to the requests that wait for them,
    the timeout penalty and the pool of read buffers.  A connection is its shared state: the
    table of pending requests, their one-shot channels and the in-flight slots.  Requests and
    the read loop advance in atomic steps that interleave freely; sending on or closing a
    closed channel is a run-time panic in Go and is [None] here, as is a send that blocks.  Sockets and deadlines are
    not modelled: whether a write succeeds, and which frames arrive, are inputs. *)
From Stdlib Require Import ZArith Lia.
From stdpp Require Import base numbers list gmap sets.
From S2P Require Import Prelude KeyCodec.
Local Open Scope Z_scope.

Module Transport.
Import KeyCodec.

(** ** Frames *)
Definition putUint32 (v : Z) : bytes := (λ i, u8 (Z.shiftr v (24 - 8 * Z.of_nat i))) <$> seq 0 4.

Definition writeFrame (payload : bytes) : bytes := putUint32 (u32 (Z.of_nat (length payload))) ++ payload.

Inductive frameErr := ErrEOF | ErrFrameTooLarge.

(** [readFrame] on what the connection will deliver; a short read is an error. *)
Definition readFrame (maxFrame : Z) (stream : bytes) : bytes * bytes + frameErr :=
  if (length stream <? 4)%nat then inr ErrEOF
  else
    let n := uint64_be (take 4 stream) in
    let rest := skipn 4 stream in
    if (0 <? maxFrame) && (maxFrame <? n) then inr ErrFrameTooLarge
    else if Z.of_nat (length rest) <? n then inr ErrEOF
    else inl (take (Z.to_nat n) rest, skipn (Z.to_nat n) rest).

(** The frames a read loop gets from a stream, up to the error that ends it. *)
Fixpoint readFrames (fuel : nat) (maxFrame : Z) (stream : bytes) : list bytes * option frameErr :=
  match fuel with
  | O => ([], None)
  | S fuel =>
      match readFrame maxFrame stream with
      | inr e => ([], Some e)
      | inl (buf, rest) => let '(bufs, e) := readFrames fuel maxFrame rest in (buf :: bufs, e)
      end
  end.

(** ** Penalties *)
Definition penaltyBase : Z := 2 * 1000000000.
Definition penaltyMax : Z := 8 * 1000000000.
Definition backoffWindow : Z := 5 * 1000000000.

Record penalty := MkPenalty { penaltyUntil : Z; lastTimeout : Z; toStreak : Z }.

(** [Time.Sub] saturates. *)
Definition time_sub (a b : Z) : Z := Z.max (- 2 ^ 63) (Z.min (2 ^ 63 - 1) (a - b)).

Definition penalizeTimeout (now : Z) (p : penalty) : penalty :=
  let streak := if backoffWindow <? time_sub now (lastTimeout p) then 1 else u32 (toStreak p + 1) in
  let shift := u32 (streak - 1) in
  let shift := if 3 <? shift then 3 else shift in
  let d := i64 (Z.shiftl penaltyBase shift) in
  let d := if penaltyMax <? d then penaltyMax else d in
  MkPenalty (i64 (now + d)) now streak.

Definition penalized (now : Z) (p : penalty) : bool := now <? penaltyUntil p.

(** ** Requests and the read loop *)
Inductive reqErr := ErrInflight | ErrMarshal | ErrWrite | ErrPeerClosed | ErrTimeout.

(** A channel of capacity one. *)
Record chan := MkChan { slot : option bytes; shut : bool }.

Inductive phase :=
  | Begin                             (* before the in-flight slot *)
  | InFlight                          (* holds a slot *)
  | Registered (c : nat)              (* its channel is in [pend] *)
  | Waiting (c : nat)
  | Finished (r : bytes + reqErr).

(** [loaded]: the read loop holds a frame and the channel it found for it. *)
Record peerConn := MkConn {
  pend : gmap Z nat; chans : list chan; slots : Z; maxInflight : Z;
  loaded : option (Z * nat * bytes); dead : bool; pen : penalty;
  calls : list (Z * phase) }.

Definition dialed (inflight : Z) : peerConn := MkConn ∅ [] 0 inflight None false (MkPenalty 0 0 0) [].

Definition put_pend (m : gmap Z nat) (p : peerConn) : peerConn :=
  MkConn m (chans p) (slots p) (maxInflight p) (loaded p) (dead p) (pen p) (calls p).
Definition put_chans (cs : list chan) (p : peerConn) : peerConn :=
  MkConn (pend p) cs (slots p) (maxInflight p) (loaded p) (dead p) (pen p) (calls p).
Definition put_slots (n : Z) (p : peerConn) : peerConn :=
  MkConn (pend p) (chans p) n (maxInflight p) (loaded p) (dead p) (pen p) (calls p).
Definition put_loaded (l : option (Z * nat * bytes)) (p : peerConn) : peerConn :=
  MkConn (pend p) (chans p) (slots p) (maxInflight p) l (dead p) (pen p) (calls p).
Definition put_pen (x : penalty) (p : peerConn) : peerConn :=
  MkConn (pend p) (chans p) (slots p) (maxInflight p) (loaded p) (dead p) x (calls p).
Definition put_dead (p : peerConn) : peerConn :=
  MkConn (pend p) (chans p) (slots p) (maxInflight p) (loaded p) true (pen p) (calls p).
Definition put_call (i : nat) (x : Z * phase) (p : peerConn) : peerConn :=
  MkConn (pend p) (chans p) (slots p) (maxInflight p) (loaded p) (dead p) (pen p) (<[i := x]> (calls p)).

(** A request that returns gives its slot back. *)
Definition return_ (i : nat) (id : Z) (r : bytes + reqErr) (p : peerConn) : peerConn :=
  put_call i (id, Finished r) (put_slots (slots p - 1) p).

(** One step of [request]: [ok] is the outcome of the encoding or the write; [timer] chooses
    the timer's branch of the [select], at time [now]. *)
Definition request_step (i : nat) (ok timer : bool) (now : Z) (p : peerConn) : peerConn :=
  match calls p !! i with
  | Some (id, Begin) =>
      if slots p <? maxInflight p then put_call i (id, InFlight) (put_slots (slots p + 1) p)
      else put_call i (id, Finished (inr ErrInflight)) p
  | Some (id, InFlight) =>
      if ok then
        let c := length (chans p) in
        put_call i (id, Registered c) (put_pend (<[id := c]> (pend p)) (put_chans (chans p ++ [MkChan None false]) p))
      else return_ i id (inr ErrMarshal) p
  | Some (id, Registered c) =>
      if ok then put_call i (id, Waiting c) p
      else return_ i id (inr ErrWrite) (put_pend (delete id (pend p)) p)
  | Some (id, Waiting c) =>
      if timer then
        return_ i id (inr ErrTimeout) (put_pen (penalizeTimeout now (pen p)) (put_pend (delete id (pend p)) p))
      else
        match chans p !! c with
        | Some (MkChan (Some buf) sh) => return_ i id (inl buf) (put_chans (<[c := MkChan None sh]> (chans p)) p)
        | Some (MkChan None true) => return_ i id (inr ErrPeerClosed) p
        | _ => p
        end
  | _ => p
  end.

(** [close(ch)], and [ch <- buf] of a channel that has room. *)
Definition chan_close (c : nat) (cs : list chan) : option (list chan) :=
  match cs !! c with
  | Some (MkChan b false) => Some (<[c := MkChan b true]> cs)
  | _ => None
  end.
Definition chan_send (c : nat) (buf : bytes) (cs : list chan) : option (list chan) :=
  match cs !! c with
  | Some (MkChan None false) => Some (<[c := MkChan (Some buf) false]> cs)
  | _ => None
  end.

(** The read loop: a frame is looked up, then taken from the table and delivered. *)
Definition frame_load (id : Z) (buf : bytes) (p : peerConn) : peerConn :=
  match pend p !! id with
  | Some c => put_loaded (Some (id, c, buf)) p
  | None => p
  end.
Definition frame_deliver (p : peerConn) : option peerConn :=
  match loaded p with
  | None => Some p
  | Some (id, c, buf) =>
      let p := put_loaded None (put_pend (delete id (pend p)) p) in
      cs ← chan_send c buf (chans p); cs ← chan_close c cs; Some (put_chans cs p)
  end.

(** [failAll]: every pending channel is closed, in the order [o] of the table. *)
Definition failAll (o : rangeOrder) (p : peerConn) : option peerConn :=
  cs ← foldl (λ ocs ic, cs ← ocs; chan_close ic.2 cs) (Some (chans p)) (range o (map_to_list (pend p)));
  Some (put_dead (put_chans cs p)).

Inductive event :=
  | Call (id : Z)
  | Step (i : nat) (ok timer : bool) (now : Z)
  | Load (id : Z) (buf : bytes)
  | Deliver
  | ReadError (o : rangeOrder).

Definition step (p : peerConn) (e : event) : option peerConn :=
  match e with
  | Call id => Some (MkConn (pend p) (chans p) (slots p) (maxInflight p) (loaded p) (dead p) (pen p) (calls p ++ [(id, Begin)]))
  | Step i ok timer now => Some (request_step i ok timer now p)
  | Load id buf => if dead p || bool_decide (is_Some (loaded p)) then Some p else Some (frame_load id buf p)
  | Deliver => frame_deliver p
  | ReadError o => if dead p || bool_decide (is_Some (loaded p)) then Some p else failAll o p
  end.
Fixpoint run (p : peerConn) (es : list event) : option peerConn :=
  match es with [] => Some p | e :: es => p ← step p e; run p es end.

(** ** Read buffers *)
Record buf := MkBuf { len : Z; cap : Z }.
Record bufPool := MkPool { sizes : list Z; pools : list (list buf); indexBySize : gmap Z nat }.

Definition newBufPool (sizes : list Z) : bufPool :=
  MkPool sizes ((λ _, []) <$> sizes) (foldl (λ m p, <[p.2 := p.1]> m) ∅ (imap (λ i sz, (i, sz)) sizes)).

Fixpoint class_from (i : nat) (n : Z) (szs : list Z) : option nat :=
  match szs with [] => None | sz :: szs => if n <=? sz then Some i else class_from (S i) n szs end.
Definition class (bp : bufPool) (n : Z) : option nat := class_from 0 n (sizes bp).

(** [b[:n]] panics outside the capacity. *)
Definition reslice (b : buf) (n : Z) : option buf := if (0 <=? n) && (n <=? cap b) then Some (MkBuf n (cap b)) else None.

(** [choice]: the buffer the pool hands out; otherwise it allocates one. *)
Definition get (bp : bufPool) (n : Z) (choice : option nat) : option (bufPool * buf) :=
  match class bp n with
  | Some i =>
      let pool := default [] (pools bp !! i) in
      let fresh := MkBuf (default 0 (sizes bp !! i)) (default 0 (sizes bp !! i)) in
      match choice ≫= (λ j, pool !! j) with
      | Some b => b' ← reslice b n; Some (MkPool (sizes bp) (<[i := delete (default 0%nat choice) pool]> (pools bp)) (indexBySize bp), b')
      | None => b' ← reslice fresh n; Some (bp, b')
      end
  | None => if 0 <=? n then Some (bp, MkBuf n n) else None
  end.
Definition put (bp : bufPool) (b : buf) : option bufPool :=
  match indexBySize bp !! cap b with
  | Some i => b' ← reslice b (default 0 (sizes bp !! i)); Some (MkPool (sizes bp) (alter (cons b') i (pools bp)) (indexBySize bp))
  | None => Some bp
  end.

(** ** Frames *)
Lemma be_put32 v : 0 ≤ v < 2 ^ 32 → uint64_be (putUint32 v) = v.
Proof.
  intros Hv. assert (is_u64 v) as Hu by (unfold is_u64; lia). rewrite <-(be_put v Hu) at 2.
  assert (putUint64 v = [0; 0; 0; 0] ++ putUint32 v) as ->.
  { unfold putUint64, putUint32. cbn [seq fmap list_fmap app]. 
    assert (∀ n, 32 ≤ n → u8 (Z.shiftr v n) = 0) as H0.
    { intros n Hn. rewrite Z.shiftr_div_pow2, Z.div_small; [done| |lia]. split; [lia|]. eapply Z.lt_le_trans; [apply Hv|]. apply Z.pow_le_mono_r; lia. }
    rewrite !H0 by lia. done. }
  done.
Qed.

Lemma readFrame_write maxFrame payload rest :
  Z.of_nat (length payload) < 2 ^ 32 → (maxFrame ≤ 0 ∨ Z.of_nat (length payload) ≤ maxFrame) →
  readFrame maxFrame (writeFrame payload ++ rest) = inl (payload, rest).
Proof.
  intros Hl Hm. unfold readFrame, writeFrame. set (h := putUint32 _). assert (length h = 4%nat) as Hh by done.
  rewrite <-app_assoc. destruct (Nat.ltb_spec (length (h ++ payload ++ rest)) 4); [rewrite length_app in *; lia|].
  rewrite take_app_length', drop_app_length' by done. unfold h. rewrite be_put32, u32_id by (rewrite ?u32_id; lia).
  set (n := Z.of_nat (length payload)). destruct ((0 <? maxFrame) && (maxFrame <? n)) eqn:E; [unfold n in *; lia|].
  destruct (Z.ltb_spec (Z.of_nat (length (payload ++ rest))) n); [rewrite length_app in *; unfold n in *; lia|].
  unfold n. rewrite Nat2Z.id. by rewrite take_app_length', drop_app_length'.
Qed.

(** Framing is exact: whatever messages are written to a connection within the size limits,
    the reader gets exactly these, in order, then the end of the stream. *)
Theorem frames_roundtrip maxFrame payloads fuel :
  Forall (λ b, Z.of_nat (length b) < 2 ^ 32 ∧ (maxFrame ≤ 0 ∨ Z.of_nat (length b) ≤ maxFrame)) payloads →
  (length payloads < fuel)%nat →
  readFrames fuel maxFrame (concat (writeFrame <$> payloads)) = (payloads, Some ErrEOF).
Proof.
  intros Hp. revert fuel. induction Hp as [|b bs [H1 H2] _ IH]; intros [|fuel] Hf; cbn in Hf; try lia; [done|].
  cbn [fmap list_fmap concat readFrames]. rewrite readFrame_write by done. rewrite IH by lia. done.
Qed.

(** A frame over the limit is refused before its body is read. *)
Lemma oversized_frame maxFrame payload rest :
  Z.of_nat (length payload) < 2 ^ 32 → 0 < maxFrame < Z.of_nat (length payload) →
  readFrame maxFrame (writeFrame payload ++ rest) = inr ErrFrameTooLarge.
Proof.
  intros Hl Hm. unfold readFrame, writeFrame. set (h := putUint32 _). assert (length h = 4%nat) as Hh by done.
  rewrite <-app_assoc. destruct (Nat.ltb_spec (length (h ++ payload ++ rest)) 4); [rewrite length_app in *; lia|].
  rewrite take_app_length' by done. unfold h. rewrite be_put32, u32_id by (rewrite ?u32_id; lia).
  destruct ((0 <? maxFrame) && _) eqn:E; [done|lia].
Qed.

(** ** Penalties *)

(** A timeout penalizes a peer for two seconds, doubled for every further timeout within the
    window up to eight; the penalty is over when that time has passed, and a timeout after a
    quiet window starts again at two seconds. *)
Theorem penalty_bounds now p t :
  0 ≤ lastTimeout p ≤ now → now + penaltyMax < 2 ^ 63 → 0 ≤ toStreak p < 2 ^ 32 - 1 →
  let p' := penalizeTimeout now p in
  let streak := if decide (backoffWindow < now - lastTimeout p) then 1 else toStreak p + 1 in
  toStreak p' = streak ∧ (penalized t p' = true ↔ t < now + Z.min penaltyMax (penaltyBase * 2 ^ (Z.min 3 (streak - 1)))).
Proof.
  intros Hl Hn Hs. unfold penalizeTimeout, penalized. cbn [toStreak penaltyUntil].
  assert (time_sub now (lastTimeout p) = now - lastTimeout p) as ->.
  { unfold time_sub, penaltyMax in *. lia. }
  set (st := if backoffWindow <? now - lastTimeout p then 1 else u32 (toStreak p + 1)).
  assert (st = (if decide (backoffWindow < now - lastTimeout p) then 1 else toStreak p + 1) ∧ 1 ≤ st < 2 ^ 32) as [<- Hst].
  { unfold st. rewrite u32_id by lia. destruct (Z.ltb_spec backoffWindow (now - lastTimeout p)); [rewrite decide_True by lia|rewrite decide_False by lia]; lia. }
  split; [done|]. rewrite (u32_id (st - 1)) by lia.
  assert ((if 3 <? st - 1 then 3 else st - 1) = Z.min 3 (st - 1)) as -> by (destruct (Z.ltb_spec 3 (st - 1)); lia).
  assert (Z.min 3 (st - 1) = 0 ∨ Z.min 3 (st - 1) = 1 ∨ Z.min 3 (st - 1) = 2 ∨ Z.min 3 (st - 1) = 3) as Hcases by lia.
  unfold penaltyBase, penaltyMax in *. rewrite Z.ltb_lt.
  destruct Hcases as [->|[->|[->| ->]]];
    match goal with |- context [if ?a <? ?b then ?x else ?y] => let v := eval vm_compute in (if a <? b then x else y) in change (if a <? b then x else y) with v end;
    rewrite i64_id by (unfold is_i64; lia); lia.
Qed.

(** ** The demultiplexer *)
Definition active (ph : phase) : bool := match ph with InFlight | Registered _ | Waiting _ => true | _ => false end.
Definition holds (ph : phase) : option nat := match ph with Registered c | Waiting c => Some c | _ => None end.

(** [F]: the frames received so far, with their request ids. *)
Record core (F : list (Z * bytes)) (p : peerConn) : Prop := {
  co_pend id c : pend p !! id = Some c → (c < length (chans p))%nat ∧ (dead p = false → chans p !! c = Some (MkChan None false));
  co_inj id id' c : pend p !! id = Some c → pend p !! id' = Some c → id = id';
  co_loaded id c b : loaded p = Some (id, c, b) →
    dead p = false ∧ chans p !! c = Some (MkChan None false) ∧ (id, b) ∈ F ∧ ∀ id', pend p !! id' = Some c → id' = id;
  co_call i id ph c : calls p !! i = Some (id, ph) → holds ph = Some c →
    (c < length (chans p))%nat ∧ (∀ id', pend p !! id' = Some c → id' = id) ∧
    (∀ id' b, loaded p = Some (id', c, b) → id' = id) ∧ (∀ b sh, chans p !! c = Some (MkChan (Some b) sh) → (id, b) ∈ F);
  co_done i id b : calls p !! i = Some (id, Finished (inl b)) → (id, b) ∈ F }.

Lemma core_call F p i id ph0 ph :
  core F p → calls p !! i = Some (id, ph0) → (holds ph = None ∨ holds ph = holds ph0) →
  (∀ b, ph = Finished (inl b) → (id, b) ∈ F) → core F (put_call i (id, ph) p).
Proof.
  intros [P I L C D] Hi Hh Hb. split; cbn; [done|done|done| |].
  - intros j id' ph' c [(<- & [= <- <-] & _)|[_ Hj]]%list_lookup_insert_Some Hc; [|by eapply C].
    eapply C; [exact Hi|]. destruct Hh; congruence.
  - intros j id' b [(<- & [= <- E] & _)|[_ Hj]]%list_lookup_insert_Some; [by apply Hb|by eapply D].
Qed.
Lemma core_unpend F p id : core F p → core F (put_pend (delete id (pend p)) p).
Proof.
  intros [P I L C D]. split; cbn; [| | | |done].
  - intros id' c [_ X]%lookup_delete_Some. by apply (P id').
  - intros id1 id2 c [_ X1]%lookup_delete_Some [_ X2]%lookup_delete_Some. by eapply I.
  - intros id' c b (? & ? & ? & X)%L. split_and!; [done..|]. intros id2 [_ X2]%lookup_delete_Some. by apply X.
  - intros i id' ph c Hi Hc. destruct (C _ _ _ _ Hi Hc) as (? & X & ? & ?). split_and!; [done| |done|done].
    intros id2 [_ X2]%lookup_delete_Some. by apply X.
Qed.
Lemma core_register F p i id :
  core F p → calls p !! i = Some (id, InFlight) →
  core F (put_call i (id, Registered (length (chans p)))
    (put_pend (<[id := length (chans p)]> (pend p)) (put_chans (chans p ++ [MkChan None false]) p))).
Proof.
  intros [P I L C D] Hi. set (n := length (chans p)).
  assert (∀ id c, pend p !! id = Some c → c ≠ n) as Hne by (intros ? ? [? _]%P; unfold n; lia).
  split; cbn.
  - intros id' c. rewrite length_app. cbn. intros [[<- <-]|[_ X]]%lookup_insert_Some.
    + split; [unfold n; lia|]. intros _. by rewrite lookup_app_r, Nat.sub_diag by lia.
    + destruct (P _ _ X) as [Hl Ho]. split; [lia|]. intros E. rewrite lookup_app_l by done. by apply Ho.
  - intros id1 id2 c [[<- <-]|[_ X1]]%lookup_insert_Some [[<- E]|[_ X2]]%lookup_insert_Some; [done|by destruct (Hne _ _ X2)| |by eapply I].
    subst. by destruct (Hne _ _ X1).
  - intros id' c b E. destruct (L _ _ _ E) as (? & Hc & ? & X). assert (c < n)%nat as Hlt by (by apply lookup_lt_Some in Hc).
    split_and!; [done|by rewrite lookup_app_l by done|done|]. intros id2 [[<- <-]|[_ X2]]%lookup_insert_Some; [lia|by apply X].
  - intros j id' ph' c [(<- & [= <- <-] & _)|[_ Hj]]%list_lookup_insert_Some Hc; rewrite length_app; cbn in *.
    + injection Hc as <-. split_and!; [unfold n; lia| | |].
      * intros id2 [[<- _]|[_ X2]]%lookup_insert_Some; [done|by destruct (Hne _ _ X2)].
      * intros id2 b E. destruct (L _ _ _ E) as (_ & Hc & _). apply lookup_lt_Some in Hc. unfold n in Hc. lia.
      * intros b sh. rewrite lookup_app_r, Nat.sub_diag by lia. done.
    + destruct (C _ _ _ _ Hj Hc) as (Hlt & X & ? & X4). split_and!; [lia| |done|].
      * intros id2 [[<- <-]|[_ X2]]%lookup_insert_Some; [lia|by apply X].
      * intros b sh. rewrite lookup_app_l by done. apply X4.
  - intros j id' b [(<- & [= <- E] & _)|[_ Hj]]%list_lookup_insert_Some; by eapply D.
Qed.
Lemma core_take F p c b sh :
  core F p → chans p !! c = Some (MkChan (Some b) sh) → core F (put_chans (<[c := MkChan None sh]> (chans p)) p).
Proof.
  intros [P I L C D] Hc. split; cbn; [|done| | |done].
  - intros id c' X. rewrite length_insert. destruct (P _ _ X) as [? Ho]. split; [done|]. intros E.
    rewrite list_lookup_insert_ne; [by apply Ho|]. intros ->. rewrite Ho in Hc; done.
  - intros id c' b' E. destruct (L _ _ _ E) as (? & Ho & ? & ?). split_and!; [done| |done|done].
    rewrite list_lookup_insert_ne; [done|]. intros ->. congruence.
  - intros i id ph c' Hi Hh. rewrite length_insert. destruct (C _ _ _ _ Hi Hh) as (? & ? & ? & X4). split_and!; [done..|].
    intros b' sh' [(-> & E & _)|[_ X]]%list_lookup_insert_Some; [done|by eapply X4].
Qed.
Lemma core_load F p id b :
  core F p → dead p = false → loaded p = None → core (F ++ [(id, b)]) (frame_load id b p).
Proof.
  intros [P I L C D] Hd Hl. unfold frame_load.
  assert (∀ x, x ∈ F → x ∈ F ++ [(id, b)]) as HF by set_solver.
  destruct (pend p !! id) as [c|] eqn:E.
  - split; cbn; [done|done| | |].
    + intros id' c' b' [= <- <- <-]. destruct (P _ _ E) as [_ Ho]. split_and!; [done|by apply Ho|set_solver|]. intros id' X. by eapply I.
    + intros i id' ph c' Hi Hh. destruct (C _ _ _ _ Hi Hh) as (? & X & _ & X4). split_and!; [done|done| |].
      * intros id2 b2 [= <- <- <-]. by apply X.
      * intros b' sh H'. apply HF. by eapply X4.
    + intros i id' b' X. apply HF. by eapply D.
  - split; [done|done| | |].
    + intros id' c' b' X. congruence.
    + intros i id' ph c' Hi Hh. destruct (C _ _ _ _ Hi Hh) as (? & X & ? & X4). split_and!; [done|done|done|].
      intros b' sh H'. apply HF. by eapply X4.
    + intros i id' b' X. apply HF. by eapply D.
Qed.

Lemma deliver_eq p id c b :
  loaded p = Some (id, c, b) → chans p !! c = Some (MkChan None false) →
  frame_deliver p = Some (put_chans (<[c := MkChan (Some b) true]> (chans p)) (put_loaded None (put_pend (delete id (pend p)) p))).
Proof.
  intros E Hc. unfold frame_deliver, chan_send, chan_close. rewrite E. cbn [chans put_loaded put_pend]. rewrite Hc. cbn [mbind option_bind].
  rewrite list_lookup_insert_eq by (by eapply lookup_lt_Some). cbn. by rewrite list_insert_insert_eq.
Qed.
Lemma core_deliver F p id c b :
  core F p → loaded p = Some (id, c, b) →
  core F (put_chans (<[c := MkChan (Some b) true]> (chans p)) (put_loaded None (put_pend (delete id (pend p)) p))).
Proof.
  intros [P I L C D] E. destruct (L _ _ _ E) as (Hd & Hc & HF & Hp). split; cbn; [| |done| |done].
  - intros id' c' [Hne X]%lookup_delete_Some. rewrite length_insert. destruct (P _ _ X) as [? Ho]. split; [done|]. intros Hd'.
    rewrite list_lookup_insert_ne; [by apply Ho|]. intros ->. by rewrite (Hp id') in Hne.
  - intros id1 id2 c' [_ X1]%lookup_delete_Some [_ X2]%lookup_delete_Some. by eapply I.
  - intros i id' ph c' Hi Hh. rewrite length_insert. destruct (C _ _ _ _ Hi Hh) as (? & X & X3 & X4). split_and!; [done| |done|].
    + intros id2 [_ X2]%lookup_delete_Some. by apply X.
    + intros b' sh [(-> & [= <- _] & _)|[_ H']]%list_lookup_insert_Some; [|by eapply X4]. by rewrite <-(X3 _ _ E).
Qed.

(** Closing a set of open channels. *)
Lemma close_loop (l : list (Z * nat)) cs :
  NoDup l.*2 → (∀ c, c ∈ l.*2 → cs !! c = Some (MkChan None false)) →
  ∃ cs', foldl (λ ocs ic, cs ← ocs; chan_close ic.2 cs) (Some cs) l = Some cs' ∧ length cs' = length cs ∧
    ∀ c b sh, cs' !! c = Some (MkChan (Some b) sh) → cs !! c = Some (MkChan (Some b) sh).
Proof.
  revert cs. induction l as [|[id c] l IH]; intros cs Hn Ho; cbn [foldl]; [by exists cs|].
  cbn in Hn. apply NoDup_cons in Hn as [Hc Hn]. cbn [mbind option_bind snd]. unfold chan_close at 2. rewrite (Ho c) by (cbn; set_solver).
  destruct (IH (<[c := MkChan None true]> cs) Hn) as (cs' & E & Hl & Hs).
  { intros c' Hin. rewrite list_lookup_insert_ne by congruence. apply Ho. cbn. set_solver. }
  exists cs'. split_and!; [done|by rewrite Hl, length_insert|]. intros c' b sh X%Hs.
  apply list_lookup_insert_Some in X as [(_ & ? & _)|[_ ?]]; done.
Qed.
Lemma core_failAll F p o :
  core F p → dead p = false → loaded p = None → ∃ p', failAll o p = Some p' ∧ core F p' ∧
    pend p' = pend p ∧ calls p' = calls p ∧ slots p' = slots p ∧ maxInflight p' = maxInflight p ∧ loaded p' = None ∧ dead p' = true.
Proof.
  intros [P I L C D] Hd Hl. unfold failAll. destruct (close_loop (range o (map_to_list (pend p))) (chans p)) as (cs & -> & Hlen & Hs).
  - rewrite range_perm. apply NoDup_fmap_2_strong; [|apply NoDup_map_to_list].
    intros [id c] [id' c'] X1%elem_of_map_to_list X2%elem_of_map_to_list E. cbn in E. subst. by rewrite (I id id' c').
  - intros c ([id c'] & -> & Hin)%list_elem_of_fmap. rewrite range_perm in Hin. apply elem_of_map_to_list in Hin. by apply (P id).
  - cbn. eexists. split; [done|]. split; [|done]. split; cbn; [|done| | |done].
    + intros id c X. rewrite Hlen. split; [by eapply P|done].
    + intros id c b E. congruence.
    + intros i id ph c Hi Hh. rewrite Hlen. destruct (C _ _ _ _ Hi Hh) as (? & ? & ? & X4). split_and!; [done..|]. intros b sh X%Hs. by eapply X4.
Qed.

(** Nobody waits in vain: what the table and the read loop know of the waiting requests. *)
Definition started (ph : phase) : bool := match ph with Begin | InFlight => false | _ => true end.
Definition unique (p : peerConn) : Prop := NoDup (calls p).*1.

Record waits (p : peerConn) : Prop := {
  w_born id : (∃ c, pend p !! id = Some c) ∨ (∃ c b, loaded p = Some (id, c, b)) → ∃ i ph, calls p !! i = Some (id, ph) ∧ started ph = true;
  w_own i j x y c : calls p !! i = Some x → calls p !! j = Some y → holds x.2 = Some c → holds y.2 = Some c → i = j;
  w_lt i x c : calls p !! i = Some x → holds x.2 = Some c → (c < length (chans p))%nat;
  w_same i id ph c c' : unique p → calls p !! i = Some (id, ph) → holds ph = Some c →
    pend p !! id = Some c' ∨ (∃ b, loaded p = Some (id, c', b)) → c' = c;
  w_wait i id ph c : unique p → calls p !! i = Some (id, ph) → holds ph = Some c →
    pend p !! id = Some c ∨ (∃ b, loaded p = Some (id, c, b)) ∨ (∃ b, chans p !! c = Some (MkChan (Some b) true)) ∨ dead p = true }.

Lemma unique_call p i j id ph ph' : unique p → calls p !! i = Some (id, ph) → calls p !! j = Some (id, ph') → i = j.
Proof.
  intros Hu Hi Hj. eapply (NoDup_lookup (calls p).*1); [exact Hu|rewrite list_lookup_fmap, Hi|rewrite list_lookup_fmap, Hj]; done.
Qed.
Lemma unique_put p i id ph ph0 : calls p !! i = Some (id, ph0) → unique (put_call i (id, ph) p) → unique p.
Proof.
  intros Hi. unfold unique. cbn. rewrite list_fmap_insert. cbn. by rewrite list_insert_id by (by rewrite list_lookup_fmap, Hi).
Qed.

Lemma waits_call p i id ph0 ph :
  waits p → calls p !! i = Some (id, ph0) → (holds ph = None ∨ holds ph = holds ph0) → (started ph0 = true → started ph = true) →
  waits (put_call i (id, ph) p).
Proof.
  intros [B O Lt S W] Hi Hh Hst. assert (i < length (calls p))%nat as Hlt by (by eapply lookup_lt_Some).
  assert (∀ j x c, calls (put_call i (id, ph) p) !! j = Some x → holds x.2 = Some c → ∃ ph', calls p !! j = Some (x.1, ph') ∧ holds ph' = Some c) as Hback.
  { cbn. intros j x c [(<- & <- & _)|[_ Hj]]%list_lookup_insert_Some Hc; [|exists x.2; by destruct x]. exists ph0. split; [done|]. cbn in *. destruct Hh; congruence. }
  split.
  - intros id' X%B. destruct X as (j & ph' & Hj & Hs). cbn. destruct (decide (i = j)) as [<-|].
    + exists i, ph. rewrite list_lookup_insert_eq by done. rewrite Hi in Hj. injection Hj as <- <-. auto.
    + exists j, ph'. by rewrite list_lookup_insert_ne.
  - intros j k x y c Hj Hk Hx Hy. destruct (Hback _ _ _ Hj Hx) as (px & X1 & Y1), (Hback _ _ _ Hk Hy) as (py & X2 & Y2).
    by eapply (O j k).
  - intros j x c Hj Hx. destruct (Hback _ _ _ Hj Hx) as (px & X1 & Y1). by apply (Lt _ _ _ X1 Y1).
  - intros j id' ph' c c' Hu Hj Hc. destruct (Hback _ _ _ Hj Hc) as (px & X1 & Y1). apply (S j id' px c c'); [exact (unique_put _ _ _ _ _ Hi Hu)|done|done].
  - intros j id' ph' c Hu Hj Hc. destruct (Hback _ _ _ Hj Hc) as (px & X1 & Y1). apply (W j id' px c); [exact (unique_put _ _ _ _ _ Hi Hu)|done|done].
Qed.

(** A request that ends without an answer leaves the table. *)
Lemma waits_unpend p i id ph0 r :
  waits p → calls p !! i = Some (id, ph0) → waits (put_call i (id, Finished r) (put_pend (delete id (pend p)) p)).
Proof.
  intros Hw Hi. pose proof (waits_call p i id ph0 (Finished r) Hw Hi ltac:(by left) ltac:(done)) as [B O Lt S W].
  split; cbn in *.
  - intros id' [[c [_ X]%lookup_delete_Some]|X]; apply B; eauto.
  - done.
  - done.
  - intros j id' ph c c' Hu Hj Hc [[_ X]%lookup_delete_Some|X]; eapply S; eauto.
  - intros j id' ph c Hu Hj Hc. destruct (W j id' ph c Hu Hj Hc) as [X|[X|[X|X]]]; [left|by auto..].
    rewrite lookup_delete_ne; [done|]. intros <-.
    assert (calls (put_call i (id, Finished r) p) !! i = Some (id, Finished r)) as X2 by (cbn; apply list_lookup_insert_eq; by eapply lookup_lt_Some).
    pose proof (unique_call (put_call i (id, Finished r) p) i j id _ _ Hu X2 Hj) as <-. cbn in X2. rewrite X2 in Hj. injection Hj as <-. done.
Qed.

Lemma waits_register p i id :
  waits p → calls p !! i = Some (id, InFlight) →
  waits (put_call i (id, Registered (length (chans p)))
    (put_pend (<[id := length (chans p)]> (pend p)) (put_chans (chans p ++ [MkChan None false]) p))).
Proof.
  intros [B O Lt S W] Hi. set (n := length (chans p)). assert (i < length (calls p))%nat as Hlt by (by eapply lookup_lt_Some).
  assert (∀ j y c, calls p !! j = Some y → holds y.2 = Some c → c ≠ n) as Hne by (intros j y c X1 X2; pose proof (Lt _ _ _ X1 X2); unfold n; lia).
  assert (∀ j id' ph, unique (put_call i (id, Registered n) p) → j ≠ i → calls p !! j = Some (id', ph) → id' ≠ id) as Hid.
  { intros j id' ph Hu%(unique_put _ _ _ _ _ Hi) Hji Hj ->. apply Hji. by eapply unique_call. }
  split; cbn.
  - intros id' X. destruct (decide (id' = id)) as [->|Hn].
    + exists i, (Registered n). by rewrite list_lookup_insert_eq.
    + destruct (B id') as (j & ph & Hj & Hs); [rewrite lookup_insert_ne in X by done; exact X|].
      exists j, ph. rewrite list_lookup_insert_ne; [done|]. intros <-. congruence.
  - intros j k x y c [(<- & <- & _)|[_ Hj]]%list_lookup_insert_Some [(<- & <- & _)|[_ Hk]]%list_lookup_insert_Some Hx Hy; cbn in *.
    + done.
    + injection Hx as <-. by destruct (Hne _ _ _ Hk Hy).
    + injection Hy as <-. by destruct (Hne _ _ _ Hj Hx).
    + by eapply O.
  - intros j x c. rewrite length_app. intros [(<- & <- & _)|[_ Hj]]%list_lookup_insert_Some Hx; cbn in *; [injection Hx as <-; unfold n; lia|].
    pose proof (Lt _ _ _ Hj Hx). lia.
  - intros j id' ph c c' Hu [(<- & [= <- <-] & _)|[Hji Hj]]%list_lookup_insert_Some Hc X.
    + cbn in Hc. injection Hc as <-. destruct X as [X|[b X]]; [rewrite lookup_insert_eq in X; by injection X|].
      destruct (B id) as (k & ph & Hk & Hs); [right; eauto|]. pose proof (unique_call p i k id _ _ (unique_put _ _ _ _ _ Hi Hu) Hi Hk) as <-.
      rewrite Hi in Hk. by injection Hk as <-.
    + rewrite lookup_insert_ne in X by (symmetry; by eapply Hid). eapply S; [exact (unique_put _ _ _ _ _ Hi Hu)|exact Hj|done|done].
  - intros j id' ph c Hu [(<- & [= <- <-] & _)|[Hji Hj]]%list_lookup_insert_Some Hc.
    + left. cbn in Hc. injection Hc as <-. apply lookup_insert_eq.
    + rewrite lookup_insert_ne by (symmetry; by eapply Hid).
      destruct (W j id' ph c) as [X|[X|[[b X]|X]]]; [exact (unique_put _ _ _ _ _ Hi Hu)|done|done|by auto|by auto| |by auto].
      right. right. left. exists b. rewrite lookup_app_l; [done|]. by eapply lookup_lt_Some.
Qed.

(** The request that reads its channel is the only one that holds it. *)
Lemma waits_take p i id ph0 c sh r :
  waits p → calls p !! i = Some (id, ph0) → holds ph0 = Some c →
  waits (put_call i (id, Finished r) (put_chans (<[c := MkChan None sh]> (chans p)) p)).
Proof.
  intros Hw Hi Hc0. pose proof (w_own p Hw) as O0. pose proof (waits_call p i id ph0 (Finished r) Hw Hi ltac:(by left) ltac:(done)) as [B O Lt S W].
  split; cbn in *; [done|done| |done|].
  - intros j x c'. rewrite length_insert. apply Lt.
  - intros j id' ph c' Hu Hj Hc. destruct (W j id' ph c' Hu Hj Hc) as [X|[X|[[b X]|X]]]; [by auto|by auto| |by auto].
    right. right. left. exists b. rewrite list_lookup_insert_ne; [done|]. intros <-.
    apply list_lookup_insert_Some in Hj as [(<- & [= <- <-] & _)|[Hji Hj]]; [done|]. apply Hji. by eapply (O0 i j (id, ph0) (id', ph)).
Qed.

Lemma waits_load p id b : waits p → loaded p = None → waits (frame_load id b p).
Proof.
  intros [B O Lt S W] Hl. unfold frame_load. destruct (pend p !! id) as [c|] eqn:E; [|done]. split; cbn; [| |done| |].
  - intros id' [X|(c' & b' & [= <- <- <-])]; apply B; eauto.
  - done.
  - intros i id' ph c1 c2 Hu Hi Hc [X|[b' [= <- <- <-]]]; eapply S; eauto.
  - intros i id' ph c1 Hu Hi Hc. destruct (W i id' ph c1 Hu Hi Hc) as [X|[[b' X]|[X|X]]]; [by auto|congruence|by auto..].
Qed.
Lemma waits_deliver p id c b :
  waits p → loaded p = Some (id, c, b) → chans p !! c = Some (MkChan None false) →
  waits (put_chans (<[c := MkChan (Some b) true]> (chans p)) (put_loaded None (put_pend (delete id (pend p)) p))).
Proof.
  intros [B O Lt S W] E Hc. assert (c < length (chans p))%nat as Hl by (by eapply lookup_lt_Some). split; cbn; [|done| | |].
  - intros id' [[c' [_ X]%lookup_delete_Some]|(? & ? & ?)]; [|done]. apply B. eauto.
  - intros i x c'. rewrite length_insert. apply Lt.
  - intros i id' ph c1 c2 Hu Hi Hc1 [[_ X]%lookup_delete_Some|[? ?]]; [|done]. eapply S; eauto.
  - intros i id' ph c1 Hu Hi Hc1. destruct (decide (c1 = c)) as [->|Hne].
    + do 2 right. left. exists b. by rewrite list_lookup_insert_eq.
    + assert (id' ≠ id) as Hid by (intros ->; apply Hne; symmetry; eapply S; eauto).
      rewrite lookup_delete_ne, list_lookup_insert_ne by done.
      destruct (W i id' ph c1 Hu Hi Hc1) as [X|[[b' X]|[X|X]]]; [by auto|congruence|by auto..].
Qed.

(** ** Slots *)
Definition n_active (p : peerConn) : nat := length (filter (λ x, active x.2 = true) (calls p)).

Lemma filter_insert_length {A} (P : A → Prop) `{∀ x, Decision (P x)} (l : list A) i x y :
  l !! i = Some x →
  (length (filter P (<[i := y]> l)) + (if decide (P x) then 1 else 0) = length (filter P l) + (if decide (P y) then 1 else 0))%nat.
Proof.
  revert i. induction l as [|a l IH]; intros [|i] E; cbn in E; [done|done|injection E as ->|]; cbn [insert list_insert].
  - rewrite !filter_cons. repeat case_decide; cbn; lia.
  - rewrite !filter_cons. specialize (IH i E). destruct (decide (P a)); cbn [length Nat.add]; [f_equal|]; exact IH.
Qed.
Lemma active_put p i id ph0 ph :
  calls p !! i = Some (id, ph0) →
  (n_active (put_call i (id, ph) p) + (if active ph0 then 1 else 0) = n_active p + (if active ph then 1 else 0))%nat.
Proof.
  intros Hi. unfold n_active. cbn [calls put_call]. pose proof (filter_insert_length (λ x, active x.2 = true) (calls p) i (id, ph0) (id, ph) Hi) as E.
  cbn in E. by destruct (active ph0), (active ph).
Qed.

Record cinv (F : list (Z * bytes)) (p : peerConn) : Prop := {
  ci_core : core F p;
  ci_waits : waits p;
  ci_slots : slots p = Z.of_nat (n_active p) ∧ slots p ≤ maxInflight p }.

Lemma core_slots F n p : core F p → core F (put_slots n p).
Proof. by intros []. Qed.
Lemma waits_slots n p : waits p → waits (put_slots n p).
Proof. by intros []. Qed.
Lemma core_pen F x p : core F p → core F (put_pen x p).
Proof. by intros []. Qed.
Lemma waits_pen x p : waits p → waits (put_pen x p).
Proof. by intros []. Qed.

(** The accounting of a request that returns. *)
Lemma slots_return p q i id ph0 r :
  slots p = Z.of_nat (n_active p) ∧ slots p ≤ maxInflight p → calls p !! i = Some (id, ph0) → active ph0 = true →
  calls q = calls p → slots q = slots p → maxInflight q = maxInflight p →
  slots (return_ i id r q) = Z.of_nat (n_active (return_ i id r q)) ∧ slots (return_ i id r q) ≤ maxInflight (return_ i id r q).
Proof.
  intros [Hs Hm] Hi Ha Ec Es Em. pose proof (active_put p i id ph0 (Finished r) Hi) as E. rewrite Ha in E. cbn in E.
  unfold n_active in *. cbn in *. rewrite Ec, Es, Em. lia.
Qed.

Lemma request_cinv F i ok timer now p : cinv F p → cinv F (request_step i ok timer now p).
Proof.
  intros Hc. pose proof Hc as [Hco Hw Hs]. unfold request_step. destruct (calls p !! i) as [[id [| |c|c|r]]|] eqn:Hi; [..|done|done].
  - destruct (Z.ltb_spec (slots p) (maxInflight p)) as [Hlt|Hge].
    + split; [eapply core_call; [by apply core_slots|exact Hi|by left|done]|eapply waits_call; [by apply waits_slots|exact Hi|by left|done]|].
      pose proof (active_put p i id Begin InFlight Hi) as E. unfold n_active in *. cbn in *. lia.
    + split; [by eapply core_call; eauto|by eapply waits_call; eauto|].
      pose proof (active_put p i id Begin (Finished (inr ErrInflight)) Hi) as E. unfold n_active in *. cbn in *. lia.
  - destruct ok.
    + split; [by apply core_register|by apply waits_register|].
      pose proof (active_put p i id InFlight (Registered (length (chans p))) Hi) as E. unfold n_active in *. cbn in *. lia.
    + split; [by eapply core_call; eauto using core_slots|by eapply waits_call; eauto using waits_slots|by eapply slots_return; eauto].
  - destruct ok.
    + split; [eapply core_call; [done|exact Hi|by right|done]|eapply waits_call; [done|exact Hi|by right|done]|].
      pose proof (active_put p i id (Registered c) (Waiting c) Hi) as E. unfold n_active in *. cbn in *. lia.
    + split; [|exact (waits_slots (slots p - 1) _ (waits_unpend p i id _ _ Hw Hi))|by eapply slots_return; eauto].
      eapply core_call; [by apply core_slots, core_unpend|exact Hi|by left|done].
  - destruct timer.
    + split; [|exact (waits_slots (slots p - 1) _ (waits_pen _ _ (waits_unpend p i id _ _ Hw Hi)))|by eapply slots_return; eauto].
      eapply core_call; [by apply core_slots, core_pen, core_unpend|exact Hi|by left|done].
    + destruct (chans p !! c) as [[[b|] sh]|] eqn:Ec; [| |done].
      * split; [|exact (waits_slots (slots p - 1) _ (waits_take p i id _ c sh _ Hw Hi eq_refl))|by eapply slots_return; eauto].
        eapply core_call; [by eapply core_slots, core_take|exact Hi|by left|]. intros b' [= <-]. by eapply (co_call F p Hco i id (Waiting c) c).
      * destruct sh; [|done]. split; [by eapply core_call; eauto using core_slots|by eapply waits_call; eauto using waits_slots|by eapply slots_return; eauto].
Qed.

(** The frames among the events: those the read loop looks at. *)
Definition frame (e : event) : list (Z * bytes) := match e with Load id b => [(id, b)] | _ => [] end.
Definition frames (es : list event) : list (Z * bytes) := concat (frame <$> es).

Lemma core_more F G p : core F p → core (F ++ G) p.
Proof.
  intros [P I L C D]. assert (∀ x, x ∈ F → x ∈ F ++ G) as HF by set_solver. split; [done|done| | |].
  - intros id c b (? & ? & ? & ?)%L. auto.
  - intros i id ph c Hi Hc. destruct (C _ _ _ _ Hi Hc) as (? & ? & ? & X). split_and!; [done..|]. intros b sh Y. apply HF. by eapply X.
  - intros i id b X. apply HF. by eapply D.
Qed.

Definition add_call (id : Z) (p : peerConn) : peerConn :=
  MkConn (pend p) (chans p) (slots p) (maxInflight p) (loaded p) (dead p) (pen p) (calls p ++ [(id, Begin)]).
Lemma add_call_lookup id p i x : calls (add_call id p) !! i = Some x → holds x.2 ≠ None ∨ (∃ b, x.2 = Finished (inl b)) → calls p !! i = Some x.
Proof.
  cbn. intros [X|[_ X]]%lookup_app_Some; [done|]. apply list_elem_of_lookup_2, list_elem_of_singleton in X as ->. cbn.
  intros [Y|[b Y]]; [by destruct Y|discriminate Y].
Qed.
Lemma add_call_cinv F id p : cinv F p → cinv F (add_call id p).
Proof.
  intros [[P I L C D] [B O Lt S W] Hs].
  assert (∀ i id' ph c, calls (add_call id p) !! i = Some (id', ph) → holds ph = Some c → calls p !! i = Some (id', ph)) as Hb.
  { intros i id' ph c Hi Hh. apply (add_call_lookup id); [done|]. left. cbn. congruence. }
  assert (unique (add_call id p) → unique p) as Hu by (unfold unique; cbn; rewrite fmap_app; by intros [? _]%NoDup_app).
  split; [split; [done|done|done| |]|split|].
  - intros i id' ph c Hi Hh. by eapply C, Hh; eapply Hb.
  - intros i id' b Hi. eapply D. apply (add_call_lookup id); [exact Hi|]. right. by exists b.
  - intros id' (i & ph & Hi & Hst)%B. exists i, ph. cbn. split; [by apply lookup_app_l_Some|done].
  - intros i j [id1 ph1] [id2 ph2] c Hi Hj Hx Hy. by eapply (O i j); [eapply Hb|eapply Hb| |].
  - intros i [id1 ph1] c Hi Hx. by eapply Lt; [eapply Hb|].
  - intros i id' ph c c' Hun Hi Hc. eapply S; [by apply Hu|by eapply Hb|done].
  - intros i id' ph c Hun Hi Hc. eapply W; [by apply Hu|by eapply Hb|done].
  - unfold n_active in *. cbn [calls add_call slots maxInflight]. rewrite filter_app, filter_cons_False, filter_nil, app_nil_r by done. done.
Qed.
Lemma request_max i ok timer now p : maxInflight (request_step i ok timer now p) = maxInflight p.
Proof.
  unfold request_step. destruct (calls p !! i) as [[id [| |c|c|r]]|]; [..|done|done].
  - by destruct (slots p <? maxInflight p).
  - by destruct ok.
  - by destruct ok.
  - destruct timer; [done|]. by destruct (chans p !! c) as [[[b|] []]|].
Qed.
Lemma failAll_waits F p p' :
  core F p' → waits p → pend p' = pend p → calls p' = calls p → loaded p' = None → dead p' = true → waits p'.
Proof.
  intros [_ _ _ C _] [B O _ S _] E1 E2 E3 E4. split.
  - intros id. rewrite E1, E2, E3. intros [X|(? & ? & ?)]; [|done]. apply B. by left.
  - rewrite E2. apply O.
  - intros i [id ph] c Hi Hh. by eapply C.
  - intros i id ph c c' Hu. rewrite E1, E2, E3. intros Hi Hh [X|[? ?]]; [|done]. eapply S; [|done..|by left]. unfold unique in *. by rewrite <-E2.
  - auto.
Qed.

Lemma step_cinv F p e : cinv F p → ∃ p', step p e = Some p' ∧ cinv (F ++ frame e) p' ∧ maxInflight p' = maxInflight p.
Proof.
  intros Hc. pose proof Hc as [Hco Hw Hs].
  assert (cinv (F ++ frame e) p) as Hc' by (split; [by apply core_more|done|done]).
  destruct e as [id|i ok timer now|id b| |o]; cbn [step frame] in *; rewrite ?app_nil_r in *.
  - exists (add_call id p). split; [done|]. split; [by apply add_call_cinv|done].
  - eexists. split; [done|]. split; [by apply request_cinv|apply request_max].
  - destruct (dead p) eqn:Ed, (bool_decide_reflect (is_Some (loaded p))) as [Hl|Hl]; cbn [orb]; try by eexists.
    apply eq_None_not_Some in Hl. eexists. split; [done|]. split; [split; [by apply core_load|by apply waits_load|]|];
      unfold frame_load; by destruct (pend p !! id).
  - destruct (loaded p) as [[[id c] b]|] eqn:El; [|unfold frame_deliver; rewrite El; by eexists].
    destruct (co_loaded F p Hco id c b El) as (_ & Ho & _). rewrite (deliver_eq p id c b El Ho). eexists. split; [done|].
    split; [split; [by apply core_deliver|by apply waits_deliver|done]|done].
  - destruct (dead p) eqn:Ed, (bool_decide_reflect (is_Some (loaded p))) as [Hl|Hl]; cbn [orb]; try by eexists.
    apply eq_None_not_Some in Hl. destruct (core_failAll F p o Hco Ed Hl) as (p' & E & Hco' & E1 & E2 & E3 & E4 & E5 & E6).
    exists p'. split; [done|]. split; [|done]. split; [done| |by rewrite E3, E4; unfold n_active; rewrite E2].
    by eapply failAll_waits.
Qed.

Lemma run_cinv F p es : cinv F p → ∃ p', run p es = Some p' ∧ cinv (F ++ frames es) p' ∧ maxInflight p' = maxInflight p.
Proof.
  revert F p. induction es as [|e es IH]; intros F p Hc; cbn [run]; [exists p; by rewrite app_nil_r|].
  destruct (step_cinv F p e Hc) as (p1 & E & Hc1 & Hm). rewrite E. cbn [mbind option_bind].
  destruct (IH _ _ Hc1) as (p2 & E2 & Hc2 & Hm2). exists p2. split; [done|]. rewrite <-app_assoc in Hc2. split; [done|congruence].
Qed.
Lemma dialed_cinv n : 0 ≤ n → cinv [] (dialed n).
Proof. intros Hn. split; [split|split|]; cbn; try done; intros *; rewrite ?lookup_empty, ?lookup_nil; try done. by intros [[? ?]|(? & ? & ?)]. Qed.


Lemma deliver_settles F p : cinv F p → ∃ p1, step p Deliver = Some p1 ∧ cinv F p1 ∧ loaded p1 = None ∧ dead p1 = dead p ∧ calls p1 = calls p.
Proof.
  intros Hc. destruct (step_cinv F p Deliver Hc) as (p1 & E & Hc1 & _). cbn in Hc1. rewrite app_nil_r in Hc1. exists p1.
  split; [done|]. split; [done|]. cbn in E. destruct (loaded p) as [[[id c] b]|] eqn:El.
  - destruct (co_loaded F p (ci_core _ _ Hc) id c b El) as (_ & Ho & _). rewrite (deliver_eq p id c b El Ho) in E. by injection E as <-.
  - unfold frame_deliver in E. rewrite El in E. by injection E as <-.
Qed.

Lemma answer_ready p i id c b ok now :
  calls p !! i = Some (id, Waiting c) → chans p !! c = Some (MkChan (Some b) true) →
  calls (request_step i ok false now p) !! i = Some (id, Finished (inl b)).
Proof.
  intros Hi Hc. unfold request_step. rewrite Hi, Hc. cbn. apply list_lookup_insert_eq. by eapply lookup_lt_Some.
Qed.

(** No reply is lost: while the connection lives and request ids are not reused, the next
    frame with the id of a waiting request (or one already on its way) ends it with a payload
    that arrived under that id. *)
Theorem waiting_request_is_answered inflight es p i id c b ok now :
  0 ≤ inflight → run (dialed inflight) es = Some p → NoDup (calls p).*1 → dead p = false →
  calls p !! i = Some (id, Waiting c) →
  ∃ p' b', run p [Deliver; Load id b; Deliver; Step i ok false now] = Some p' ∧
    calls p' !! i = Some (id, Finished (inl b')) ∧ (id, b') ∈ frames es ++ [(id, b)].
Proof.
  intros Hn Hr Hu Hd Hi. destruct (run_cinv [] _ es (dialed_cinv inflight Hn)) as (p0 & E & Hc & _).
  rewrite Hr in E. injection E as <-. cbn [app] in Hc.
  destruct (run_cinv _ p [Deliver; Load id b; Deliver; Step i ok false now] Hc) as (p4 & E4 & [Hco4 _ _] & _).
  assert (∃ b', calls p4 !! i = Some (id, Finished (inl b'))) as [b' Hb'].
  { destruct (deliver_settles _ p Hc) as (p1 & E1 & Hc1 & Hl1 & Hd1 & Ec1). cbn [run] in E4. rewrite E1 in E4. cbn [mbind option_bind] in E4.
    rewrite <-Ec1 in Hi, Hu. rewrite Hd in Hd1. cbn [step] in E4. rewrite Hd1, Hl1, bool_decide_eq_false_2 in E4 by (by intros []).
    cbn [orb mbind option_bind] in E4. unfold frame_load in E4. destruct Hc1 as [Hco1 Hw1 _].
    destruct (w_wait p1 Hw1 i id (Waiting c) c Hu Hi eq_refl) as [X|[[? X]|[[b1 X]|X]]]; [|congruence| |congruence].
    - destruct (co_pend _ p1 Hco1 id c X) as [_ Ho]. specialize (Ho Hd1). rewrite X in E4.
      rewrite (deliver_eq (put_loaded (Some (id, c, b)) p1) id c b eq_refl Ho) in E4. cbn [mbind option_bind] in E4. injection E4 as <-.
      exists b. eapply answer_ready; [exact Hi|]. cbn. apply list_lookup_insert_eq. by eapply lookup_lt_Some.
    - destruct (pend p1 !! id) as [c'|] eqn:Ep.
      + assert (c' = c) as -> by (eapply (w_same p1 Hw1); eauto). destruct (co_pend _ p1 Hco1 id c Ep) as [_ Ho]. rewrite Ho in X; done.
      + unfold frame_deliver in E4. rewrite Hl1 in E4. cbn [mbind option_bind] in E4. injection E4 as <-. exists b1. by eapply answer_ready. }
  exists p4, b'. split_and!; [done|done|]. by eapply (co_done _ _ Hco4) in Hb'.
Qed.

(** ** Read buffers *)
Record pool_ok (bp : bufPool) : Prop := {
  po_len : length (pools bp) = length (sizes bp);
  po_bufs i sz pool b : sizes bp !! i = Some sz → pools bp !! i = Some pool → b ∈ pool → b = MkBuf sz sz;
  po_index sz i : indexBySize bp !! sz = Some i → sizes bp !! i = Some sz }.

Lemma newBufPool_ok szs : pool_ok (newBufPool szs).
Proof.
  split; cbn.
  - by rewrite length_fmap.
  - intros i sz pool b _ X Hb. apply list_lookup_fmap_Some in X as (? & -> & _). by apply elem_of_nil in Hb.
  - intros sz i. set (l := imap _ szs).
    assert (∀ x, x ∈ l → szs !! x.1 = Some x.2) as Hl.
    { intros x (j & y & -> & Hy)%elem_of_lookup_imap. done. }
    assert (∀ m : gmap Z nat, (∀ sz i, m !! sz = Some i → szs !! i = Some sz) →
      foldl (λ m p, <[p.2 := p.1]> m) m l !! sz = Some i → szs !! i = Some sz) as HI; [|apply HI; intros *; by rewrite lookup_empty].
    clearbody l. induction l as [|[j y] l IH]; intros m Hm; cbn [foldl]; [apply Hm|]. apply IH; [set_solver|].
    intros sz' i' [[<- <-]|[_ X]]%lookup_insert_Some; [by apply (Hl (j, y) ltac:(left))|by apply Hm].
Qed.

Lemma class_from_spec i n szs : match class_from i n szs with
  | Some j => ∃ sz, (i ≤ j)%nat ∧ szs !! (j - i)%nat = Some sz ∧ n ≤ sz ∧ ∀ k sz', (k < j - i)%nat → szs !! k = Some sz' → sz' < n
  | None => ∀ sz, sz ∈ szs → sz < n end.
Proof.
  revert i. induction szs as [|a szs IH]; intros i; cbn; [by intros sz ?%elem_of_nil|].
  destruct (Z.leb_spec n a) as [Hle|Hlt].
  - exists a. rewrite Nat.sub_diag. split_and!; [lia|done|done|lia].
  - specialize (IH (S i)). destruct (class_from (S i) n szs) as [j|].
    + destruct IH as (sz & ? & X & ? & Hk). exists sz. replace (j - i)%nat with (S (j - S i)) by lia. split_and!; [lia|done|done|].
      intros [|k] sz' Hk'; cbn; [intros [= <-]; lia|]. apply Hk. lia.
    + intros sz [->|X]%elem_of_cons; [done|by apply IH].
Qed.

(** A buffer can always be given back. *)
Lemma put_sound bp b : pool_ok bp → 0 ≤ cap b → ∃ bp'', put bp b = Some bp'' ∧ pool_ok bp''.
Proof.
  intros [Hl Hb Hi] Hc. unfold put. destruct (indexBySize bp !! cap b) as [i|] eqn:E; [|by exists bp].
  pose proof (Hi _ _ E) as Hsz. unfold reslice. rewrite Hsz. cbn [from_option id]. destruct (Z.leb_spec 0 (cap b)); [|lia].
  destruct (Z.leb_spec (cap b) (cap b)); [|lia]. cbn. eexists. split; [done|]. split; cbn; [by rewrite length_alter| |done].
  intros j sz pool b' Hj X Hin. destruct (decide (j = i)) as [->|Hne].
  - rewrite list_lookup_alter_eq in X. destruct (pools bp !! i) as [pool0|] eqn:Ep; [|done]. cbn in X. injection X as <-.
    apply elem_of_cons in Hin as [->|Hin]; [congruence|by eapply Hb].
  - rewrite list_lookup_alter_ne in X by done. by eapply Hb.
Qed.

(** The buffer pool is safe and tight: for any non-negative request [get] succeeds with a buffer
    of exactly that length whose capacity is the first size class that fits, or the length
    itself beyond the last class; giving it back succeeds; and both keep every pooled buffer
    at the full size of its class. *)
Theorem buffer_pool_sound bp n choice :
  pool_ok bp → 0 ≤ n →
  ∃ bp' b, get bp n choice = Some (bp', b) ∧ pool_ok bp' ∧ len b = n ∧ n ≤ cap b ∧
    (cap b ∈ sizes bp ∨ cap b = n ∧ ∀ sz, sz ∈ sizes bp → sz < n) ∧
    ∃ bp'', put bp' b = Some bp'' ∧ pool_ok bp''.
Proof.
  intros Hok Hn.
  pose proof Hok as [Hl Hb Hi]. unfold get, class. pose proof (class_from_spec 0 n (sizes bp)) as Hc.
  destruct (class_from 0 n (sizes bp)) as [i|].
  - destruct Hc as (sz & _ & Hsz & Hle & _). rewrite Nat.sub_0_r in Hsz. rewrite Hsz. cbn [from_option id].
    assert (∀ b, b = MkBuf sz sz → reslice b n = Some (MkBuf n sz)) as Hr.
    { intros b ->. unfold reslice. cbn. destruct (Z.leb_spec 0 n), (Z.leb_spec n sz); [done|lia..]. }
    assert (sz ∈ sizes bp) as Hin by (by eapply list_elem_of_lookup_2).
    destruct (choice ≫= (λ j, default [] (pools bp !! i) !! j)) as [b|] eqn:Eb.
    + destruct choice as [j|]; [|done]. cbn in Eb. destruct (pools bp !! i) as [pool|] eqn:Ep; [|done].
      cbn in Eb. rewrite (Hr b) by (eapply Hb; [done|done|by eapply list_elem_of_lookup_2]). cbn [mbind option_bind from_option id].
      eexists _, _. split; [done|]. match goal with |- pool_ok ?x ∧ _ => assert (pool_ok x) as Hok' end.
      { split; cbn; [by rewrite length_insert| |done]. intros k sz' pool' b' Hk [(-> & <- & _)|[_ X]]%list_lookup_insert_Some Hin'; [|by eapply Hb].
        apply (Hb k sz' pool b' Hk Ep). eapply sublist_subseteq, Hin'. apply sublist_delete. }
      split_and!; [done|done|done|by left|]. apply put_sound; [done|cbn; lia].
    + rewrite (Hr (MkBuf sz sz)) by done. cbn. eexists _, _. split; [done|]. split_and!; [done|done|done|by left|]. apply put_sound; [done|cbn; lia].
  - destruct (Z.leb_spec 0 n); [|lia]. eexists _, _. split; [done|]. split_and!; [done|done|cbn; lia|by right|]. by apply put_sound.
Qed.

(** ** Instances *)
Lemma frames_roundtrip_witness :
  readFrames 3 16 (concat (writeFrame <$> [[1; 2]; []])) = ([[1; 2]; []], Some ErrEOF).
Proof. apply (frames_roundtrip 16 [[1; 2]; []] 3); [|cbn; lia]. repeat constructor; cbn; lia. Defined.

Lemma penalty_bounds_witness :
  penalized 13000000000 (penalizeTimeout 10000000000 (MkPenalty 0 9000000000 1)) = true.
Proof.
  apply (proj2 (penalty_bounds 10000000000 (MkPenalty 0 9000000000 1) 13000000000 ltac:(cbn; lia) ltac:(unfold penaltyMax; lia) ltac:(cbn; lia))).
  vm_compute. reflexivity.
Defined.

(** Two requests; the second is answered first, the first times out, its late reply is dropped. *)
Definition demo_events : list event :=
  [Call 1; Call 2; Step 0 true false 0; Step 1 true false 0; Step 0 true false 0; Step 1 true false 0;
   Step 0 true false 0; Step 1 true false 0; Load 2 [20]; Deliver; Step 1 true false 0; Step 0 true true 9].
Lemma waiting_request_is_answered_witness :
  ∃ p p' b', run (dialed 4) (take 8 demo_events) = Some p ∧ run p [Deliver; Load 1 [7]; Deliver; Step 0 true false 0] = Some p' ∧
    calls p' !! 0%nat = Some (1, Finished (inl b')).
Proof.
  destruct (run (dialed 4) (take 8 demo_events)) as [p|] eqn:E; [|vm_compute in E; discriminate E].
  destruct (waiting_request_is_answered 4 (take 8 demo_events) p 0 1 0 [7] true 0 ltac:(lia) E) as (p' & b' & X1 & X2 & _).
  - vm_compute in E. injection E as <-. cbn. apply NoDup_cons. split; [set_solver|]. apply NoDup_singleton.
  - vm_compute in E. by injection E as <-.
  - vm_compute in E. by injection E as <-.
  - exists p, p', b'. split; [done|]. split; [exact X1|exact X2].
Defined.

Lemma buffer_pool_sound_witness :
  ∃ bp b, get (newBufPool [64; 1024]) 100 None = Some (bp, b) ∧ len b = 100 ∧ cap b = 1024.
Proof.
  destruct (buffer_pool_sound (newBufPool [64; 1024]) 100 None (newBufPool_ok _) ltac:(lia)) as (bp & b & E & _ & Hl & _).
  exists bp, b. split; [exact E|]. split; [exact Hl|]. vm_compute in E. by injection E as <- <-.
Defined.
End Transport.
