(* ===== verification/Load.v ===== *)
(** * Read-through loading ([GetOrLoad] of [src/cluster/client.go], [rpcLeaseLoad] of [src/cluster/node.go])

    Loads of one key are single-flight on the key's primary: the first call acquires a lease,
    runs the loader, stores, replicates and releases; the others wait on the lease and read
    the cache again.  Each call is a state machine whose steps are the accesses to shared
    state (the local cache, the lease table, the limiter, the clock and the version table);
    calls interleave freely.  The outcome of a loader, of a remote request and of the caller's
    context is an input of the step that receives it. *)
From Stdlib Require Import ZArith Lia.
From stdpp Require Import base numbers list gmap sets.
From S2P Require Import Prelude Admission Shard Eviction Cache CacheInv CacheSpec CacheTheorems CacheIface Hlc KeyCodec Rendezvous Lease Membership Node NodeTheorems Client Repair.
Local Open Scope Z_scope.

Module Load.
Import Hlc KeyCodec Node Client.

(** Go errors that travel through a lease are numbered; these two arise in the leader itself. *)
Definition errEncodeVal : Lease.error := Lease.OtherErr (-1).
Definition errValTooLarge : Lease.error := Lease.OtherErr (-2).

Inductive loadErr :=
  | LErr (e : Lease.error) | LNoOwner | LPanic | LAbsent | LBadPeer | LRemote (e : Z) | LNoValue | LGzip | LDecode
  | LRateLimited | LKeyCodec (e : decodeError) | LNoLoader.

Record MsgLeaseLoadResp := MkLoadResp { lFound : bool; lVal : bytes; lExp : Z; lCp : bool; lErr : option loadErr }.

Section Load.
Context {C K V : Type} `{Ops : CacheOps C K V, KC : KeyCodec K, VC : Codec V}.
Context (gzip : bytes → bytes) (gunzip : bytes → option bytes).
Abbreviation node := (Node C).

(** Shared state, and what a step takes from outside. *)
Record shared := MkShared { nd : node; leases : Lease.leaseTable; limiter : option Limiter.rateLimiter }.
Definition put_nd (n : node) (s : shared) : shared := MkShared n (leases s) (limiter s).
Definition put_leases (t : Lease.leaseTable) (s : shared) : shared := MkShared (nd s) t (limiter s).

Record input := MkInput {
  i_env : env;
  i_loader : V * Z + Lease.error;           (* what the loader returned *)
  i_ctx : option Lease.error;               (* the caller's context is done *)
  i_remote : option (MsgLeaseLoadResp + Z)  (* the primary's answer; [None]: no connection *) }.

(** ** [GetOrLoad] *)
Inductive gphase :=
  | GStart
  | GRoute
  | GAcquire (owners : list nodeMeta)
  | GLead (owners : list nodeMeta)              (* runs the loader *)
  | GStored (owners : list nodeMeta) (v : V) (ttl : Z)
  | GSent (v : V) (ver : Z)                     (* after [replicateSet] *)
  | GRelease (lease : option Lease.error) (r : V + loadErr)
  | GWait
  | GBlocked (f : nat)
  | GReread
  | GDelegate
  | GDone (r : V + loadErr).

(** The value in a reply of the primary. *)
Definition remote_load (resp : MsgLeaseLoadResp) : V + loadErr :=
  match lErr resp with
  | Some e => inr e
  | None =>
      if negb (lFound resp) then inr LNoValue
      else match maybeDecompress gunzip (lVal resp) (lCp resp) with
           | None => inr LGzip
           | Some vb => match Decode vb with None => inr LDecode | Some v => inl v end
           end
  end.

Definition local_get (e : env) (key : K) (s : shared) : shared * option V :=
  let '(c, r) := cget (local (nd s)) key (e_now e) (e_now' e) in (put_nd (put_local c (nd s)) s, r).

(** One step; [None] is a panic.  The third component is the write handed to [replicateSet]. *)
Definition getOrLoad_step (i : input) (key : K) (ph : gphase) (s : shared) : option (shared * gphase * option write) :=
  let e := i_env i in
  let bk := EncodeKey key in
  match ph with
  | GStart =>
      let '(s, r) := local_get e key s in
      Some (s, match r with Some v => GDone (inl v) | None => GRoute end, None)
  | GRoute =>
      match Rendezvous.ownersFromKeyHash (nring (nd s)) (Hash64 key) with
      | None => Some (s, GDone (inr LPanic), None)
      | Some [] => Some (s, GDone (inr LNoOwner), None)
      | Some owners => Some (s, if primary_is (SelfID (cfg (nd s))) owners then GAcquire owners else GDelegate, None)
      end
  | GAcquire owners =>
      let '(t, (_, acquired)) := Lease.acquire (e_now e) (leases s) bk in
      Some (put_leases t s, if acquired : bool then GLead owners else GWait, None)
  | GLead owners =>
      match i_loader i with
      | inr err => Some (s, GRelease (Some err) (inr (LErr err)), None)
      | inl (v, ttl) => Some (put_nd (put_local (cset (local (nd s)) key v ttl (e_rt e)).1 (nd s)) s, GStored owners v ttl, None)
      end
  | GStored owners v ttl =>
      match Encode v with
      | None => Some (s, GRelease (Some errEncodeVal) (inr (LErr errEncodeVal)), None)
      | Some bv =>
          if too_large (MaxValueSize (cfg (nd s))) bv then Some (s, GRelease (Some errValTooLarge) (inr (LErr errValTooLarge)), None)
          else
            let '(n, ver) := next_version e (nd s) in
            Some (put_nd n s, GSent v ver, Some (MkWrite bk bv (absExpiry (e_now e) ttl) ver owners))
      end
  | GSent v ver =>
      Some (if LWWEnabled (cfg (nd s)) then put_nd (lwwSetVersion bk ver (nd s)) s else s, GRelease None (inl v), None)
  | GRelease lease r => t ← Lease.release (leases s) bk lease; Some (put_leases t s, GDone r, None)
  | GWait => Some (s, match Lease.wait_begin (leases s) bk with None => GReread | Some f => GBlocked f end, None)
  | GBlocked f =>
      match i_ctx i, Lease.store (leases s) !! f with
      | Some err, _ => Some (s, GDone (inr (LErr err)), None)
      | None, Some fl =>
          Some (s, if Lease.ch fl then match Lease.err fl with Some err => GDone (inr (LErr err)) | None => GReread end else GBlocked f, None)
      | None, None => None
      end
  | GReread =>
      let '(s, r) := local_get e key s in
      Some (s, match r with Some v => GDone (inl v) | None => GDone (inr LAbsent) end, None)
  | GDelegate =>
      Some (s, match i_remote i with
               | None => GDone (inr LBadPeer)
               | Some (inr err) => GDone (inr (LRemote err))
               | Some (inl resp) => GDone (remote_load resp)
               end, None)
  | GDone r => Some (s, GDone r, None)
  end.

(** ** [rpcLeaseLoad] *)
Inductive rphase :=
  | RLimit
  | RStart (key : K)
  | RAcquire (key : K)
  | RLead (key : K)
  | RStored (key : K) (v : V) (ttl : Z)
  | RSent (key : K) (v : V) (ver : Z)
  | RRelease (key : K) (lease : option Lease.error) (r : V + loadErr)
  | RWait (key : K)
  | RBlocked (key : K) (f : nat)
  | RReread (key : K)
  | RDone (resp : MsgLeaseLoadResp).

Definition load_err (e : loadErr) : MsgLeaseLoadResp := MkLoadResp false [] 0 false (Some e).
Definition load_value (n : node) (v : V) : MsgLeaseLoadResp :=
  let '(b2, cp) := maybeCompress gzip n (default [] (Encode v)) in MkLoadResp true b2 0 cp None.

(** [hasLoader]: a loader is configured; [kb] is the key of the message. *)
Definition leaseLoad_step (hasLoader : bool) (i : input) (kb : bytes) (ph : rphase) (s : shared) : option (shared * rphase * option write) :=
  let e := i_env i in
  match ph with
  | RLimit =>
      let '(lim, allowed) := match limiter s with
                             | Some l => let '(l, ok) := Limiter.Allow l in (Some l, ok)
                             | None => (None, true)
                             end in
      let s := MkShared (nd s) (leases s) lim in
      Some (s, if allowed : bool
               then match DecodeKey kb with inr err => RDone (load_err (LKeyCodec err)) | inl k => RStart k end
               else RDone (load_err LRateLimited), None)
  | RStart k =>
      let '(s, r) := local_get e k s in
      Some (s, match r with
               | Some v => RDone (load_value (nd s) v)
               | None => if hasLoader then RAcquire k else RDone (load_err LNoLoader)
               end, None)
  | RAcquire k =>
      let '(t, (_, acquired)) := Lease.acquire (e_now e) (leases s) kb in
      Some (put_leases t s, if acquired : bool then RLead k else RWait k, None)
  | RLead k =>
      match i_loader i with
      | inr err => Some (s, RRelease k (Some err) (inr (LErr err)), None)
      | inl (v, ttl) => Some (put_nd (put_local (cset (local (nd s)) k v ttl (e_rt e)).1 (nd s)) s, RStored k v ttl, None)
      end
  | RStored k v ttl =>
      match Repair.ownersFor (e_now e) k (nd s) with
      | None => None
      | Some owners =>
          let '(n, ver) := next_version e (nd s) in
          Some (put_nd n s, RSent k v ver, Some (MkWrite kb (default [] (Encode v)) (absExpiry (e_now e) ttl) ver owners))
      end
  | RSent k v ver =>
      Some (if LWWEnabled (cfg (nd s)) then put_nd (lwwSetVersion kb ver (nd s)) s else s, RRelease k None (inl v), None)
  | RRelease k lease r =>
      t ← Lease.release (leases s) kb lease;
      Some (put_leases t s, RDone (match r with inl v => load_value (nd s) v | inr err => load_err err end), None)
  | RWait k => Some (s, match Lease.wait_begin (leases s) kb with None => RReread k | Some f => RBlocked k f end, None)
  | RBlocked k f =>
      match Lease.store (leases s) !! f with
      | Some fl =>
          Some (s, if Lease.ch fl then match Lease.err fl with Some err => RDone (load_err (LErr err)) | None => RReread k end else RBlocked k f, None)
      | None => None
      end
  | RReread k =>
      let '(s, r) := local_get e k s in
      Some (s, match r with Some v => RDone (load_value (nd s) v) | None => RDone (MkLoadResp false [] 0 false None) end, None)
  | RDone resp => Some (s, RDone resp, None)
  end.

(** ** Many calls on one node *)
Inductive call := GCall (key : K) (ph : gphase) | RCall (kb : bytes) (ph : rphase).

Definition call_step (hasLoader : bool) (i : input) (c : call) (s : shared) : option (shared * call * option write) :=
  match c with
  | GCall key ph => r ← getOrLoad_step i key ph s; let '(s, ph, w) := r in Some (s, GCall key ph, w)
  | RCall kb ph => r ← leaseLoad_step hasLoader i kb ph s; let '(s, ph, w) := r in Some (s, RCall kb ph, w)
  end.

Record sys := MkSys { sh : shared; calls : list call; sent : list write }.

Inductive event :=
  | ENew (c : call)
  | EStep (j : nat) (hasLoader : bool) (i : input)
  | ESweep (o : rangeOrder) (now : Z).
Definition fresh_call (c : call) : Prop :=
  match c with GCall _ GStart => True | RCall _ RLimit => True | _ => False end.

Definition sys_step (s : sys) (ev : event) : option sys :=
  match ev with
  | ENew c => Some (MkSys (sh s) (calls s ++ [c]) (sent s))
  | EStep j hasLoader i =>
      match calls s !! j with
      | None => Some s
      | Some c =>
          r ← call_step hasLoader i c (sh s);
          let '(s', c', w) := r in Some (MkSys s' (<[j := c']> (calls s)) (sent s ++ default [] ((λ x, [x]) <$> w)))
      end
  | ESweep o now => t ← Lease.sweep o now (leases (sh s)); Some (MkSys (put_leases t (sh s)) (calls s) (sent s))
  end.
Fixpoint sys_run (s : sys) (evs : list event) : option sys :=
  match evs with [] => Some s | ev :: evs => s ← sys_step s ev; sys_run s evs end.

(** The key whose load a call is leading: it holds the lease. *)
Definition gleads (ph : gphase) : bool :=
  match ph with GLead _ | GStored _ _ _ | GSent _ _ | GRelease _ _ => true | _ => false end.
Definition rleads (ph : rphase) : bool :=
  match ph with RLead _ | RStored _ _ _ | RSent _ _ _ | RRelease _ _ _ => true | _ => false end.
Definition leads (c : call) : option Lease.key :=
  match c with
  | GCall key ph => if gleads ph then Some (EncodeKey key) else None
  | RCall kb ph => if rleads ph then Some kb else None
  end.
End Load.

Section LoadTheorems.
Context {C K V : Type} `{EqDecision K, Ops : !CacheOps C K V, Laws : !CacheLaws C K V}.
Context (KC : KeyCodec K) `{VC : Codec V}.
Context (gzip : bytes → bytes) (gunzip : bytes → option bytes).

(** What a step of a call does to the leases. *)
Inductive lease_effect (t t' : Lease.leaseTable) : option Lease.key → option Lease.key → Prop :=
  | le_keep l : t' = t → lease_effect t t' l l
  | le_acquire now kb : t' = (Lease.acquire now t kb).1 →
      lease_effect t t' None (if (Lease.acquire now t kb).2.2 then Some kb else None)
  | le_release kb e : Lease.release t kb e = Some t' → lease_effect t t' (Some kb) None.

Lemma local_get_leases e key (s : shared (C := C)) : leases (local_get e key s).1 = leases s.
Proof. unfold local_get. by destruct (cget _ _ _ _). Qed.

Lemma call_effect h i c s s' c' w :
  call_step gzip gunzip h i c s = Some (s', c', w) → lease_effect (leases s) (leases s') (leads c) (leads c').
Proof.
  destruct c as [key ph|kb ph]; cbn [call_step].
  - destruct ph as [| |owners|owners|owners v ttl|v ver|lease r| |f| | |r]; cbn [getOrLoad_step].
    + pose proof (local_get_leases (i_env i) key s) as E. destruct (local_get (i_env i) key s) as [s1 r]. cbn in *.
      intros [= <- <- <-]. destruct r; by apply le_keep.
    + destruct (Rendezvous.ownersFromKeyHash _ _) as [[|o os]|]; cbn; intros [= <- <- <-]; [by apply le_keep| |by apply le_keep].
      destruct (bool_decide _); by apply le_keep.
    + pose proof (le_acquire (leases s) _ (e_now (i_env i)) (EncodeKey key) eq_refl) as L.
      destruct (Lease.acquire _ _ _) as [t [f []]]; cbn in *; intros [= <- <- <-]; exact L.
    + destruct (i_loader i) as [[v ttl]|err]; cbn; intros [= <- <- <-]; by apply le_keep.
    + destruct (Encode v) as [bv|]; cbn; [|intros [= <- <- <-]; by apply le_keep].
      destruct (too_large _ _); cbn; [intros [= <- <- <-]; by apply le_keep|].
      destruct (next_version (i_env i) (nd s)) as [n ver]. cbn. intros [= <- <- <-]. by apply le_keep.
    + cbn. intros [= <- <- <-]. destruct (LWWEnabled _); by apply le_keep.
    + destruct (Lease.release _ _ _) as [t|] eqn:E; cbn; [|done]. intros [= <- <- <-]. by eapply le_release.
    + cbn. intros [= <- <- <-]. destruct (Lease.wait_begin _ _); by apply le_keep.
    + destruct (i_ctx i) as [err|]; [cbn; intros [= <- <- <-]; by apply le_keep|].
      destruct (Lease.store _ !! f) as [fl|]; cbn; [|done]. intros [= <- <- <-]. destruct (Lease.ch fl); [|by apply le_keep].
      destruct (Lease.err fl); by apply le_keep.
    + pose proof (local_get_leases (i_env i) key s) as E. destruct (local_get (i_env i) key s) as [s1 r]. cbn in *.
      intros [= <- <- <-]. destruct r; by apply le_keep.
    + cbn. intros [= <- <- <-]. destruct (i_remote i) as [[resp|err]|]; by apply le_keep.
    + cbn. intros [= <- <- <-]. by apply le_keep.
  - destruct ph as [|k|k|k|k v ttl|k v ver|k lease r|k|k f|k|resp]; cbn [leaseLoad_step].
    + destruct (limiter s) as [l|]; [destruct (Limiter.Allow l) as [l' []]|]; cbn; intros [= <- <- <-]; try destruct (DecodeKey kb); by apply le_keep.
    + pose proof (local_get_leases (i_env i) k s) as E. destruct (local_get (i_env i) k s) as [s1 r]. cbn in *.
      intros [= <- <- <-]. destruct r, h; by apply le_keep.
    + pose proof (le_acquire (leases s) _ (e_now (i_env i)) kb eq_refl) as L.
      destruct (Lease.acquire _ _ _) as [t [f []]]; cbn in *; intros [= <- <- <-]; exact L.
    + destruct (i_loader i) as [[v ttl]|err]; cbn; intros [= <- <- <-]; by apply le_keep.
    + destruct (Repair.ownersFor (e_now (i_env i)) k (nd s)) as [owners|]; [|done].
      destruct (next_version (i_env i) (nd s)) as [n ver]. cbn. intros [= <- <- <-]. by apply le_keep.
    + cbn. intros [= <- <- <-]. destruct (LWWEnabled _); by apply le_keep.
    + destruct (Lease.release _ _ _) as [t|] eqn:E; cbn; [|done]. intros [= <- <- <-]. by eapply le_release.
    + cbn. intros [= <- <- <-]. destruct (Lease.wait_begin _ _); by apply le_keep.
    + destruct (Lease.store _ !! f) as [fl|]; cbn; [|done]. intros [= <- <- <-]. destruct (Lease.ch fl); [|by apply le_keep].
      destruct (Lease.err fl); by apply le_keep.
    + pose proof (local_get_leases (i_env i) k s) as E. destruct (local_get (i_env i) k s) as [s1 r]. cbn in *.
      intros [= <- <- <-]. destruct r; by apply le_keep.
    + cbn. intros [= <- <- <-]. by apply le_keep.
Qed.

(** ** Single flight *)

(** Runs in which no lease times out. *)
Definition calm (s : sys (C := C) (K := K) (V := V)) (ev : event (K := K) (V := V)) : Prop :=
  match ev with
  | ENew c => fresh_call c
  | EStep _ _ _ => True
  | ESweep _ now => ∀ k f fl, Lease.m (leases (sh s)) !! k = Some f → Lease.store (leases (sh s)) !! f = Some fl → Lease.due now fl = false
  end.
Inductive sreach (ttl : Z) : sys (C := C) (K := K) (V := V) → Prop :=
  | sr_start n lim : sreach ttl (MkSys (MkShared n (Lease.newLeaseTable ttl) lim) [] [])
  | sr_event s ev s' : sreach ttl s → calm s ev → sys_step gzip gunzip s ev = Some s' → sreach ttl s'.

Record flight (s : sys (C := C) (K := K) (V := V)) : Prop := {
  fl_inv : Lease.inv (leases (sh s));
  fl_held j c kb : calls s !! j = Some c → leads c = Some kb → is_Some (Lease.m (leases (sh s)) !! kb);
  fl_one i j c c' kb : calls s !! i = Some c → calls s !! j = Some c' → leads c = Some kb → leads c' = Some kb → i = j }.

Lemma acquire_m now t kb k :
  is_Some (Lease.m (Lease.acquire now t kb).1 !! k) ↔ is_Some (Lease.m t !! k) ∨ k = kb.
Proof.
  unfold Lease.acquire. destruct (Lease.m t !! kb) as [f|] eqn:E; cbn.
  - split; [by left|]. intros [?| ->]; [done|by exists f].
  - destruct (decide (k = kb)) as [->|Hne]; [rewrite lookup_insert_eq; split; [by right|eauto]|].
    rewrite lookup_insert_ne by done. split; [by left|by intros [?|?]].
Qed.
Lemma acquire_won now t kb : (Lease.acquire now t kb).2.2 = true → Lease.m t !! kb = None.
Proof. unfold Lease.acquire. by destruct (Lease.m t !! kb). Qed.
Lemma release_m t t' kb e k : Lease.inv t → Lease.release t kb e = Some t' → k ≠ kb → Lease.m t' !! k = Lease.m t !! k.
Proof.
  intros Hi. unfold Lease.release. destruct (Lease.m t !! kb) as [f|] eqn:E; [|by intros [= <-]].
  destruct (Lease.finish_spec t kb f e Hi E) as (fl & _ & _ & ->). intros [= <-] Hne. cbn. by rewrite lookup_delete_ne.
Qed.

Lemma flight_step s j c s' c' w h i :
  flight s → calls s !! j = Some c → call_step gzip gunzip h i c (sh s) = Some (s', c', w) →
  flight (MkSys s' (<[j := c']> (calls s)) (sent s ++ default [] ((λ x, [x]) <$> w))).
Proof.
  intros [Hi Hh Ho] Hj E. apply call_effect in E as He. assert (j < length (calls s))%nat as Hlt by (by eapply lookup_lt_Some).
  inversion He as [l Et El El'|now kb Et El El'|kb e Et El El']; cbn.
  - symmetry in El, El'. split; cbn; rewrite ?Et; [done| |].
    + intros k x kb [(<- & <- & _)|[_ Hk]]%list_lookup_insert_Some Hx; [|by eapply Hh]. eapply Hh; [exact Hj|congruence].
    + intros a b x y kb [(<- & <- & _)|[_ Ha]]%list_lookup_insert_Some [(<- & <- & _)|[_ Hb]]%list_lookup_insert_Some Hx Hy; [done|..].
      * apply (Ho j b c y kb); [done|done|congruence|done].
      * apply (Ho a j x c kb); [done|done|done|congruence].
      * by eapply (Ho a b x y).
  - symmetry in El. split; cbn; rewrite ?Et; [by apply Lease.inv_acquire| |].
    + intros k x kb' [(<- & <- & _)|[_ Hk]]%list_lookup_insert_Some Hx; apply acquire_m.
      * right. rewrite <-El' in Hx. by destruct (Lease.acquire _ _ _).2.2; [injection Hx|].
      * left. by eapply Hh.
    + assert (∀ x kb', leads c' = Some kb' → x ∈ calls s → leads x = Some kb' → False) as Hnew.
      { intros x kb' Hc' (k & Hk)%list_elem_of_lookup Hx. rewrite <-El' in Hc'.
        destruct (Lease.acquire _ _ _).2.2 eqn:Ew; [|done]. injection Hc' as <-. apply acquire_won in Ew.
        destruct (Hh _ _ _ Hk Hx) as [f Hf]. discriminate (eq_trans (eq_sym Ew) Hf). }
      intros a b x y kb' [(<- & <- & _)|[_ Ha]]%list_lookup_insert_Some [(<- & <- & _)|[_ Hb]]%list_lookup_insert_Some Hx Hy; [done|..].
      * exfalso. eapply (Hnew y); [done|by eapply list_elem_of_lookup_2|done].
      * exfalso. eapply (Hnew x); [done|by eapply list_elem_of_lookup_2|done].
      * by eapply (Ho a b x y).
  - symmetry in El, El'. split; cbn.
    + unfold Lease.release in Et. destruct (Lease.m (leases (sh s)) !! kb) as [f|] eqn:Ef; [by eapply Lease.inv_finish|congruence].
    + intros k x kb' [(<- & <- & _)|[Hkj Hk]]%list_lookup_insert_Some Hx; [congruence|].
      rewrite (release_m _ _ kb e kb' Hi Et); [by eapply Hh|]. intros ->. apply Hkj. by eapply (Ho j k).
    + intros a b x y kb' [(<- & <- & _)|[_ Ha]]%list_lookup_insert_Some [(<- & <- & _)|[_ Hb]]%list_lookup_insert_Some Hx Hy; [done|congruence..|].
      by eapply (Ho a b x y).
Qed.

Lemma sreach_flight ttl s : sreach ttl s → flight s.
Proof.
  induction 1 as [n lim|s ev s' _ IH Hcalm E].
  - split; cbn; [apply Lease.lease_inv_new|by intros *; rewrite lookup_nil|by intros *; rewrite lookup_nil].
  - destruct ev as [c|j h i|o now]; cbn in E.
    + injection E as <-. destruct IH as [Hi Hh Ho]. assert (leads c = None) as Hc by (by destruct c as [? []|? []]).
      assert (∀ j x kb, (calls s ++ [c]) !! j = Some x → leads x = Some kb → calls s !! j = Some x) as Hb.
      { intros j x kb [X|[_ X]]%lookup_app_Some Hx; [done|]. apply list_elem_of_lookup_2, list_elem_of_singleton in X as ->. congruence. }
      split; cbn; [done|eauto|]. intros i j x y kb X1 X2 Hx Hy. eapply (Ho i j x y); eauto.
    + destruct (calls s !! j) as [c|] eqn:Ej; [|congruence]. destruct (call_step gzip gunzip h i c (sh s)) as [[[s1 c1] w]|] eqn:Es; cbn in E; [|done].
      injection E as <-. by eapply flight_step.
    + destruct IH as [Hi Hh Ho]. destruct (Lease.sweep_spec o now _ Hi) as (t & Et & Hi' & _ & _ & Hm & _). rewrite Et in E. cbn in E.
      injection E as <-. split; cbn; [done| |done]. intros j c kb Hj [f Hf]%(Hh j c kb Hj). exists f. apply Hm. split; [done|].
      intros (fl & Hs & Hd). cbn in Hcalm. by rewrite (Hcalm _ _ _ Hf Hs) in Hd.
Qed.

(** C29.  Loads are single-flight: however [GetOrLoad] calls and lease-load requests interleave, as
    long as no lease times out, at most one call at a time is leading the load of a key
    (from its loader to the release), and it holds the open lease of that key. *)
Theorem loads_are_single_flight ttl s i j c c' kb :
  sreach ttl s → calls s !! i = Some c → calls s !! j = Some c' → leads c = Some kb → leads c' = Some kb →
  i = j ∧ ∃ f fl, Lease.m (leases (sh s)) !! kb = Some f ∧ Lease.store (leases (sh s)) !! f = Some fl ∧ Lease.ch fl = false.
Proof.
  intros [Hi Hh Ho]%sreach_flight Hc Hc' Hl Hl'. split; [by eapply Ho|]. destruct (Hh _ _ _ Hc Hl) as [f Hf].
  destruct (lookup_lt_is_Some_2 (Lease.store (leases (sh s))) f) as [fl Hfl]; [by eapply (Lease.inv_dom _ Hi)|].
  exists f, fl. split_and!; [done|done|]. apply (Lease.inv_open _ Hi f fl Hfl). by exists kb.
Qed.

(** ** Leaders and followers *)
Fixpoint grun (ins : list input) (key : K) (ph : gphase) (s : shared (C := C)) : option (shared * gphase * list write) :=
  match ins with
  | [] => Some (s, ph, [])
  | i :: ins =>
      r ← getOrLoad_step gunzip i key ph s; let '(s, ph, w) := r in
      r ← grun ins key ph s; let '(s, ph, ws) := r in Some (s, ph, default [] ((λ x, [x]) <$> w) ++ ws)
  end.

Lemma grun_step i ins key ph s s1 ph1 w :
  getOrLoad_step gunzip i key ph s = Some (s1, ph1, w) →
  grun (i :: ins) key ph s = (r ← grun ins key ph1 s1; let '(s, ph, ws) := r in Some (s, ph, default [] ((λ x, [x]) <$> w) ++ ws)).
Proof. intros E. cbn [grun]. by rewrite E. Qed.

Lemma release_ends (t : Lease.leaseTable) (kb : Lease.key) f e :
  Lease.inv t → Lease.m t !! kb = Some f →
  ∃ t' x, Lease.release t kb e = Some t' ∧ Lease.m t' !! kb = None ∧ Lease.store t' !! f = Some (Lease.MkInflight true e x true).
Proof.
  intros Hi Hf. destruct (Lease.finish_spec t kb f e Hi Hf) as (fl & Hs & _ & E). unfold Lease.release. rewrite Hf, E.
  eexists _, (Lease.exp fl). split; [done|]. cbn. rewrite lookup_delete_eq. split; [done|]. apply list_lookup_insert_eq. by eapply lookup_lt_Some.
Qed.

(** Reading the local cache. *)
Lemma local_get_hit w e key (s : shared (C := C)) v exp :
  wf (S w) (local (nd s)) → e_now e ≤ e_now' e → cfind (local (nd s)) key = Some (v, exp) → ¬ CacheIface.dead (e_now e) exp →
  (local_get e key s).2 = Some v.
Proof.
  intros Hw Hn Hf Hd. unfold local_get. destruct (law_get w (local (nd s)) key (e_now e) (e_now' e) Hw Hn) as (_ & _ & Hr & _).
  destruct (cget _ _ _ _) as [c r]. cbn in *. rewrite Hr, Hf. cbn. by rewrite decide_False.
Qed.


(** A failed load is reported to everyone: the leader and a waiting follower return the
    loader's error, nothing is stored and nothing is replicated. *)
Theorem followers_get_leaders_error s key owners f err i1 i2 i3 :
  Lease.inv (leases s) → Lease.m (leases s) !! (EncodeKey key : Lease.key) = Some f → i_loader i1 = inr err → i_ctx i3 = None →
  ∃ s', grun [i1; i2] key (GLead owners) s = Some (s', GDone (inr (LErr err)), []) ∧ nd s' = nd s ∧
    grun [i3] key (GBlocked f) s' = Some (s', GDone (inr (LErr err)), []).
Proof.
  intros Hi Hf Hl Hctx. destruct (release_ends (leases s) (EncodeKey key) f (Some err) Hi Hf) as (t' & x & Er & _ & Hs).
  exists (put_leases t' s). split_and!; [|done|].
  - rewrite (grun_step i1 _ key _ s s (GRelease (Some err) (inr (LErr err))) None) by (cbn; by rewrite Hl).
    rewrite (grun_step i2 _ key _ s (put_leases t' s) (GDone (inr (LErr err))) None); [done|]. cbn. by rewrite Er.
  - rewrite (grun_step i3 _ key _ _ (put_leases t' s) (GDone (inr (LErr err))) None); [done|]. cbn. by rewrite Hctx, Hs.
Qed.
End LoadTheorems.

(** ** Instances: the primary of [Client] *)
Import NodeTheorems.
Import Repair.
Definition idle : input := MkInput (V := bytes) (at_time 2) (inl ([10], 0)) None None.
Definition failing : input := MkInput (V := bytes) (at_time 2) (inr (Lease.OtherErr 7)) None None.
Definition fresh_shared : shared (C := InMemoryCache bytes bytes) := MkShared (node_of [99]) (Lease.newLeaseTable 0) None.
Definition leased : shared (C := InMemoryCache bytes bytes) := put_leases (Lease.acquire 1 (Lease.newLeaseTable 0) [5]).1 fresh_shared.
Lemma leased_inv : Lease.inv (leases leased).
Proof. apply Lease.inv_acquire, Lease.lease_inv_new. Qed.

Lemma followers_get_leaders_error_witness :
  ∃ s', grun demo_keys no_gzip [failing; idle] [5] (GLead [Rendezvous.n3]) leased = Some (s', GDone (inr (LErr (Lease.OtherErr 7))), []) ∧
    nd s' = nd leased.
Proof.
  destruct (followers_get_leaders_error demo_keys no_gzip leased [5] [Rendezvous.n3] 0 (Lease.OtherErr 7) failing idle idle
    leased_inv eq_refl eq_refl eq_refl) as (s' & E & X & _). exists s'. split; [exact E|exact X].
Defined.

(** Two calls and a request for one key: the first leads, the others wait. *)
Definition stampede : list (event (K := bytes) (V := bytes)) :=
  [ENew (GCall [5] GStart); ENew (GCall [5] GStart); ENew (RCall [5] RLimit)] ++
  ((λ j, EStep j true idle) <$> [0; 1; 2; 0; 1; 2; 0; 1; 2]%nat).
Lemma run_sreach (ttl : Z) (evs : list (event (K := bytes) (V := bytes))) (s s' : sys (C := InMemoryCache bytes bytes) (K := bytes) (V := bytes)) :
  sreach demo_keys no_zip no_gzip ttl s → Forall (λ ev, match ev with ENew c => fresh_call c | EStep _ _ _ => True | ESweep _ _ => False end) evs →
  sys_run (KC := demo_keys) no_zip no_gzip s evs = Some s' → sreach demo_keys no_zip no_gzip ttl s'.
Proof.
  intros Hs He. revert s Hs. induction He as [|ev evs Hev _ IH]; intros s Hs; cbn [sys_run]; [by intros [= <-]|].
  destruct (sys_step no_zip no_gzip s ev) as [s1|] eqn:E; cbn [mbind option_bind]; [|done]. apply IH.
  eapply sr_event; [exact Hs| |exact E]. by destruct ev.
Qed.
Lemma loads_are_single_flight_witness :
  ∃ s, sys_run (KC := demo_keys) no_zip no_gzip (MkSys fresh_shared [] []) stampede = Some s ∧
    leads <$> calls s = [Some [5]; None; None] ∧ ∀ j c, calls s !! j = Some c → leads c = Some [5] → 0%nat = j.
Proof.
  destruct (sys_run (KC := demo_keys) no_zip no_gzip (MkSys fresh_shared [] []) stampede) as [s|] eqn:E; [|vm_compute in E; discriminate E].
  exists s. split; [done|]. assert (sreach demo_keys no_zip no_gzip 0 s) as Hs.
  { eapply (run_sreach 0 stampede); [apply sr_start| |exact E]. repeat constructor. }
  assert (leads <$> calls s = [Some [5]; None; None]) as El by (vm_compute in E; injection E as <-; reflexivity).
  split; [exact El|]. intros j c Hj Hc.
  assert (∃ c0, calls s !! 0%nat = Some c0 ∧ leads c0 = Some [5]) as (c0 & H0 & Hc0).
  { destruct (calls s) as [|c0 cs]; [discriminate El|]. exists c0. split; [done|]. cbn in El. by injection El. }
  exact (proj1 (loads_are_single_flight demo_keys no_zip no_gzip 0 s 0 j c0 c [5] Hs H0 Hj Hc0 Hc)).
Defined.
End Load.
