(* ===== verification/Gossip.v ===== *)
(** * Gossip and the ring ([src/cluster/node.go]: [sendGossip], [ingestGossip], [weightLoop],
    [cleanupHot], [aliveSig])

    What a gossip message carries, what a node does with one, and the periodic tick that
    rebuilds the ring from the live members.  A ring refers to the members' records, which
    gossip updates in place, so it is a list of references into the store of [Membership].
    The weight computed from a load report is floating point and a parameter, as is
    [xxhash.Sum64]; dialing new peers is I/O and left out. *)
From Stdlib Require Import ZArith Lia Sorting.
From stdpp Require Import base numbers list gmap sets sorting.
From S2P Require Import Prelude Rendezvous Membership.
Local Open Scope Z_scope.

Module Gossip.
Import Rendezvous Membership.

Definition bytes : Type := list Z.

(** [TopK] only matters by its keys. *)
Record MsgGossip {Load : Type} := MkGossip {
  FromID : NodeID; FromAddr : bytes; Seen : gmap NodeID Z; Peers : list PeerInfo;
  Load_ : Load; TopK : list bytes; Epoch : Z }.
Arguments MsgGossip : clear implicits.

(** [kick]: the channel [backfillKick] of capacity one holds a token. *)
Record state := MkState {
  mem : membership; ringRefs : list nat; ringRf : Z; hotSet : gmap bytes Z;
  lastRingSig : Z; lastEpoch : Z; kick : bool }.

Definition newState (replicationFactor : Z) : state := MkState newMembership [] replicationFactor ∅ 0 0 false.
Definition current_ring (s : state) : ring := MkRing (deref (mem s) <$> ringRefs s) (ringRf s).

Section Gossip.
Context {Load : Type} (sum64 : bytes → Z) (computeWeight : Load → Z).

(** The message [sendGossip] builds. *)
Definition sendGossip (o : rangeOrder) (self : NodeID) (publicURL : bytes) (load : Load) (top : list bytes) (s : state) : MsgGossip Load :=
  let '(ps, seen, epoch) := snapshot (mem s) in
  MkGossip Load self publicURL seen
    ((λ ip, MkPeer ip.1 (Addr (deref (mem s) ip.2))) <$> range o (map_to_list ps)) load top epoch.

(** [now], and the clock reading [now'] of [ensure]. *)
Definition ingestGossip (o : rangeOrder) (now now' mirrorTTL : Z) (g : MsgGossip Load) (s : state) : state :=
  let prevEpoch := epoch (mem s) in
  let m := ensure sum64 now' (FromID g) (FromAddr g) (mem s) in
  let m := integrate sum64 o (FromID g) (FromAddr g) (Peers g) (Seen g) (Epoch g) now m in
  let curEpoch := epoch m in
  let m := setWeight (FromID g) (computeWeight (Load_ g)) m in
  let hot := if 0 <? mirrorTTL then foldl (λ h k, <[k := i64 (now + mirrorTTL)]> h) (hotSet s) (TopK g) else hotSet s in
  if (prevEpoch <? curEpoch) && (lastEpoch s <? curEpoch)
  then MkState m (ringRefs s) (ringRf s) hot (lastRingSig s) curEpoch true
  else MkState m (ringRefs s) (ringRf s) hot (lastRingSig s) (lastEpoch s) (kick s).

(** Deleting from a map while it is iterated. *)
Definition cleanupHot (o : rangeOrder) (now : Z) (hot : gmap bytes Z) : gmap bytes Z :=
  foldl (λ h ke, if ke.2 <=? now then delete ke.1 h else h) hot (range o (map_to_list hot)).

(** [sort.Strings]. *)
Definition id_le (a b : NodeID) : Prop := id_ltb b a = false.
#[export] Instance id_le_dec : RelDecision id_le.
Proof. intros a b. unfold id_le. apply _. Defined.

(** ["|"] is byte 124. *)
Definition aliveSig (ids : list NodeID) : Z :=
  foldl (λ acc s, Z.lxor (sum64 (s ++ [124])) (Z.lor (u64 (Z.shiftl acc 1)) (Z.shiftr acc 63))) 0 (merge_sort id_le ids).

(** One tick of [weightLoop]. *)
Definition weight_tick (o o' o'' : rangeOrder) (now suspicionAfter tombstoneAfter rf : Z) (s : state) : state :=
  let live := alive o now suspicionAfter (mem s) in
  let hot := cleanupHot o' now (hotSet s) in
  let m := pruneTombstones o'' now tombstoneAfter (mem s) in
  let sig := aliveSig (ID <$> (deref (mem s) <$> live)) in
  if sig =? lastRingSig s then MkState m live rf hot (lastRingSig s) (lastEpoch s) (kick s)
  else MkState (bumpEpoch m).1 live rf hot sig (lastEpoch s) true.

(** ** Lemmas *)
#[export] Instance id_le_trans : Transitive id_le.
Proof.
  intros a b c H1 H2. unfold id_le in *. destruct (id_ltb c a) eqn:E; [|done].
  destruct (decide (b = c)) as [->|Hne]; [congruence|]. destruct (id_ltb_total b c Hne) as [H|H]; [|congruence].
  by rewrite (id_ltb_trans b c a H E) in H1.
Qed.
#[export] Instance id_le_antisym : AntiSymm (=) id_le.
Proof. intros a b H1 H2. unfold id_le in *. destruct (decide (a = b)) as [|Hne]; [done|]. destruct (id_ltb_total a b Hne); congruence. Qed.
#[export] Instance id_le_total : Total id_le.
Proof.
  intros a b. unfold id_le. destruct (decide (a = b)) as [->|Hne]; [left; apply id_ltb_irrefl|].
  destruct (id_ltb b a) eqn:E; [|by left]. right. destruct (id_ltb a b) eqn:E'; [|done].
  pose proof (id_ltb_trans a b a E' E) as H. by rewrite id_ltb_irrefl in H.
Qed.

Lemma aliveSig_perm ids ids' : ids ≡ₚ ids' → aliveSig ids = aliveSig ids'.
Proof.
  intros Hp. unfold aliveSig. f_equal. apply (StronglySorted_unique id_le).
  - apply Sorted_StronglySorted; [apply _|]. apply Sorted_merge_sort. apply _.
  - apply Sorted_StronglySorted; [apply _|]. apply Sorted_merge_sort. apply _.
  - by rewrite !merge_sort_Permutation.
Qed.

Lemma cleanupHot_lookup o now hot k :
  cleanupHot o now hot !! k = match hot !! k with Some exp => if now <? exp then Some exp else None | None => None end.
Proof.
  unfold cleanupHot. assert (∀ l (h : gmap bytes Z), (∀ k e, (k, e) ∈ l → hot !! k = Some e) →
    foldl (λ h ke, if ke.2 <=? now then delete ke.1 h else h) h l !! k =
    if decide (k ∈ l.*1) then (match hot !! k with Some e => if e <=? now then None else h !! k | None => h !! k end) else h !! k) as HI.
  { induction l as [|[k' e'] l IH]; intros h Hl; cbn [foldl fmap list_fmap fst snd].
    - by rewrite decide_False by apply not_elem_of_nil.
    - rewrite IH by (intros; apply Hl; by right). pose proof (Hl k' e' ltac:(left)) as Hk'.
      destruct (decide (k = k')) as [->|Hne].
      + rewrite (decide_True (P := k' ∈ k' :: l.*1)) by left. rewrite Hk'. 
        destruct (Z.leb_spec e' now); [rewrite lookup_delete_eq|]; by case_decide.
      + assert ((if e' <=? now then delete k' h else h) !! k = h !! k) as -> by (destruct (e' <=? now); [by apply lookup_delete_ne|done]).
        destruct (decide (k ∈ l.*1)); [rewrite decide_True by (by right)|rewrite decide_False by (by rewrite not_elem_of_cons)]; done. }
  rewrite HI by (intros k0 e0; by rewrite elem_of_range, elem_of_map_to_list).
  assert (k ∈ (range o (map_to_list hot)).*1 ↔ is_Some (hot !! k)) as Hin.
  { rewrite range_perm, list_elem_of_fmap. split.
    - intros ([k0 e0] & -> & H%elem_of_map_to_list). by eexists.
    - intros [e He]. exists (k, e). split; [done|]. by apply elem_of_map_to_list. }
  destruct (hot !! k) as [e|] eqn:E.
  - rewrite decide_True by (apply Hin; eauto). destruct (Z.leb_spec e now), (Z.ltb_spec now e); [lia|done|done|lia].
  - by case_decide.
Qed.

(** ** Reachable states *)
Inductive gevent :=
  | GMember (e : mevent)
  | GIngest (o : rangeOrder) (now now' mirrorTTL : Z) (g : MsgGossip Load)
  | GTick (o o' o'' : rangeOrder) (now suspicionAfter tombstoneAfter rf : Z)
  | GDrain.   (* the backfill loop takes the token *)
Definition gstep (s : state) (e : gevent) : state :=
  match e with
  | GMember e => MkState (mstep sum64 (mem s) e) (ringRefs s) (ringRf s) (hotSet s) (lastRingSig s) (lastEpoch s) (kick s)
  | GIngest o now now' t g => ingestGossip o now now' t g s
  | GTick o o' o'' now sus tomb rf => weight_tick o o' o'' now sus tomb rf s
  | GDrain => MkState (mem s) (ringRefs s) (ringRf s) (hotSet s) (lastRingSig s) (lastEpoch s) false
  end.

(** Records never move and never change their id. *)
Definition same_ids (m m' : membership) : Prop := ∀ p nm, metas m !! p = Some nm → ∃ nm', metas m' !! p = Some nm' ∧ ID nm' = ID nm.
Definition ring_ok (s : state) : Prop :=
  inv (mem s) ∧ NoDup (ID <$> nodes (current_ring s)) ∧ ∀ p, p ∈ ringRefs s → is_Some (metas (mem s) !! p).

Lemma same_ids_refl m : same_ids m m.
Proof. intros p nm H. eauto. Qed.
Lemma same_ids_trans m1 m2 m3 : same_ids m1 m2 → same_ids m2 m3 → same_ids m1 m3.
Proof. intros H1 H2 p nm (nm' & H & E)%H1. apply H2 in H as (nm'' & H & E'). exists nm''. by rewrite E'. Qed.
Lemma same_ids_alter m f p ps sn ep : (∀ nm, ID (f nm) = ID nm) → same_ids m (MkMembership (alter f p (metas m)) ps sn ep).
Proof.
  intros Hf q nm H. cbn. destruct (decide (q = p)) as [->|Hne].
  - rewrite list_lookup_alter_eq, H. exists (f nm). by rewrite Hf.
  - rewrite list_lookup_alter_ne by done. eauto.
Qed.
Lemma same_ids_metas m m' : metas m' = metas m → same_ids m m'.
Proof. intros E p nm. rewrite E. eauto. Qed.
Lemma same_ids_add m id addr : same_ids m (add_peer sum64 m id addr).
Proof. intros p nm H. cbn. exists nm. split; [by apply lookup_app_l_Some|done]. Qed.
Lemma same_ids_learn m id addr : same_ids m (learn sum64 m id addr).
Proof. unfold learn. case_match; [by apply same_ids_alter|apply same_ids_add]. Qed.

Lemma prune_metas o now t m : metas (pruneTombstones o now t m) = metas m.
Proof.
  unfold pruneTombstones. generalize (range o (map_to_list (peers m))). intros l. revert m.
  induction l as [|x l IH]; intros m; cbn; [done|]. rewrite IH. unfold prune_visit. case_match; [|done]. by case_match.
Qed.
Lemma same_ids_integrate o from addr ps remote ep now m : same_ids m (integrate sum64 o from addr ps remote ep now m).
Proof.
  unfold integrate. set (m0 := if epoch m <? ep then _ else m). assert (same_ids m m0) as H0 by (unfold m0; case_match; [by apply same_ids_metas|apply same_ids_refl]).
  set (m2 := set_seen (learn sum64 m0 from addr) from now).
  assert (same_ids m0 m2) as H2 by (eapply same_ids_trans; [apply same_ids_learn|by apply same_ids_metas]).
  eapply same_ids_trans; [exact H0|]. eapply same_ids_trans; [exact H2|].
  eapply same_ids_trans; [|apply same_ids_metas; by destruct (merge_seen_frame (range o (map_to_list remote)) (foldl (λ m p, learn sum64 m (pID p) (pAddr p)) m2 ps))].
  clearbody m2. clear. revert m2. induction ps as [|p ps IH]; intros m; cbn; [apply same_ids_refl|]. eapply same_ids_trans; [apply same_ids_learn|apply IH].
Qed.
Lemma same_ids_mstep m e : same_ids m (mstep sum64 m e).
Proof.
  destruct e as [o from addr ps remote ep now|now id addr|o now t| |id w]; cbn [mstep].
  - apply same_ids_integrate.
  - unfold ensure. case_match; [by apply same_ids_metas|]. eapply same_ids_trans; [apply same_ids_add|by apply same_ids_metas].
  - apply same_ids_metas, prune_metas.
  - by apply same_ids_metas.
  - unfold setWeight. case_match; [by apply same_ids_alter|apply same_ids_refl].
Qed.
Lemma ring_ok_same s s' :
  ring_ok s → inv (mem s') → same_ids (mem s) (mem s') → ringRefs s' = ringRefs s → ring_ok s'.
Proof.
  intros (_ & Hn & Hr) Hi Hs E. split; [done|]. unfold current_ring in *. cbn in *. rewrite E. split.
  - assert (ID <$> (deref (mem s') <$> ringRefs s) = ID <$> (deref (mem s) <$> ringRefs s)) as ->; [|done].
    rewrite <-!list_fmap_compose. apply list_fmap_ext. intros i p Hp. apply list_elem_of_lookup_2, Hr in Hp as [nm Hnm].
    destruct (Hs _ _ Hnm) as (nm' & Hnm' & Eid). unfold compose, deref. by rewrite Hnm, Hnm'.
  - intros p [nm Hp]%Hr. destruct (Hs _ _ Hp) as (nm' & ? & _). eauto.
Qed.

Definition live_ids (o : rangeOrder) (now suspicionAfter : Z) (m : membership) : list NodeID :=
  ID <$> (deref m <$> alive o now suspicionAfter m).

Lemma deref_id m id p : inv m → peers m !! id = Some p → is_Some (metas m !! p) ∧ ID (deref m p) = id.
Proof. intros Hi Hp. destruct (Hi id p Hp) as (nm & Hm & E). unfold deref. rewrite Hm. split; [by eexists|done]. Qed.
Lemma live_ids_spec o now sus m : inv m →
  NoDup (live_ids o now sus m) ∧ ∀ id, id ∈ live_ids o now sus m ↔ is_Some (peers m !! id) ∧ i64 (now - sus) ≤ default 0 (seen m !! id).
Proof.
  intros Hi. split.
  - apply (alive_distinct_aux m (range o (map_to_list (peers m))) (λ id, i64 (now - sus) <=? default 0 (seen m !! id)) Hi).
    + rewrite range_perm. apply NoDup_fst_map_to_list.
    + intros id p. by rewrite elem_of_range, elem_of_map_to_list.
  - intros id. unfold live_ids. rewrite list_elem_of_fmap. setoid_rewrite list_elem_of_fmap. setoid_rewrite elem_of_alive. split.
    + intros (nm & -> & p & -> & id' & Hp & Hle). destruct (deref_id m id' p Hi Hp) as [_ ->]. split; [by eexists|done].
    + intros [[p Hp] Hle]. destruct (deref_id m id p Hi Hp) as [_ E]. eexists. split; [symmetry; exact E|]. eauto.
Qed.

Lemma pruned_inv o now t m : inv m → inv (pruneTombstones o now t m).
Proof. intros Hi. unfold pruneTombstones. by apply prune_loop_inv. Qed.

Lemma gstep_ok s e : ring_ok s → ring_ok (gstep s e).
Proof.
  intros Hs. pose proof Hs as (Hi & Hn & Hr). destruct e as [e|o now now' t g|o o' o'' now sus tomb rf|]; cbn [gstep].
  - eapply (ring_ok_same s); [done|by apply mstep_inv|apply same_ids_mstep|done].
  - set (m1 := ensure sum64 now' (FromID g) (FromAddr g) (mem s)).
    set (m2 := integrate sum64 o (FromID g) (FromAddr g) (Peers g) (Seen g) (Epoch g) now m1).
    set (m3 := setWeight (FromID g) (computeWeight (Load_ g)) m2).
    assert (inv m3 ∧ same_ids (mem s) m3) as [Hi3 Hs3].
    { pose proof (mstep_inv sum64 (mem s) (MEnsure now' (FromID g) (FromAddr g)) Hi) as H1.
      pose proof (mstep_inv sum64 m1 (MIntegrate o (FromID g) (FromAddr g) (Peers g) (Seen g) (Epoch g) now) H1) as H2.
      split; [exact (mstep_inv sum64 m2 (MWeight (FromID g) (computeWeight (Load_ g))) H2)|].
      eapply same_ids_trans; [apply (same_ids_mstep _ (MEnsure now' (FromID g) (FromAddr g)))|].
      eapply same_ids_trans; [apply same_ids_integrate|apply (same_ids_mstep m2 (MWeight _ _))]. }
    unfold ingestGossip. fold m1. fold m2. fold m3. destruct (_ && _); by eapply (ring_ok_same s).
  - assert (∀ m' h sg le kk, metas m' = metas (mem s) → inv m' →
      ring_ok (MkState m' (alive o now sus (mem s)) rf h sg le kk)) as Hok.
    { intros m' h sg le kk Em Hi'. split; [done|]. unfold current_ring. cbn. split.
      - assert (deref m' <$> alive o now sus (mem s) = deref (mem s) <$> alive o now sus (mem s)) as ->.
        { apply list_fmap_ext. intros i p _. unfold deref. by rewrite Em. }
        apply (live_ids_spec o now sus (mem s) Hi).
      - intros p (id & Hp & _)%elem_of_alive. rewrite Em. by eapply deref_id. }
    unfold weight_tick. destruct (_ =? _); apply Hok; cbn; try apply prune_metas; by apply pruned_inv.
  - by eapply (ring_ok_same s); [..|apply same_ids_refl|].
Qed.

(** C40.  The ring is always one of distinct nodes: whatever gossip, membership changes, pruning and
    ticks happen, in any order, the members the current ring refers to exist and have
    pairwise different ids, although their records are updated in place between ticks. *)
Theorem ring_nodes_stay_distinct rf es :
  let s := foldl gstep (newState rf) es in
  distinct (nodes (current_ring s)) ∧ ∀ p, p ∈ ringRefs s → is_Some (metas (mem s) !! p).
Proof.
  assert (∀ s, ring_ok s → ring_ok (foldl gstep s es)) as HI by (induction es as [|e es IH]; intros s Hs; cbn; [done|by apply IH, gstep_ok]).
  destruct (HI (newState rf)) as (_ & H1 & H2); [|by split]. split; [apply membership_inv_new|]. split; [constructor|]. intros p Hp. by apply elem_of_nil in Hp.
Qed.

(** A tick follows the live members: the new ring consists of exactly the known members seen
    within the suspicion window, the expired hot keys are gone and no others, and the epoch
    is raised and a repair requested exactly when the signature of the live ids changed;
    the signature does not depend on the order in which the members are listed, so a later
    tick that finds the same live ids leaves the epoch alone. *)
Theorem tick_follows_live_members es o o' o'' now sus tomb rf :
  let s := foldl gstep (newState rf) es in
  let s' := weight_tick o o' o'' now sus tomb rf s in
  (∀ id, id ∈ ID <$> nodes (current_ring s') ↔ is_Some (peers (mem s) !! id) ∧ i64 (now - sus) ≤ default 0 (seen (mem s) !! id)) ∧
  (∀ k, hotSet s' !! k = match hotSet s !! k with Some exp => if now <? exp then Some exp else None | None => None end) ∧
  (aliveSig (live_ids o now sus (mem s)) ≠ lastRingSig s → epoch (mem s') = u64 (epoch (mem s) + 1) ∧ kick s' = true) ∧
  (aliveSig (live_ids o now sus (mem s)) = lastRingSig s → epoch (mem s') = epoch (mem s) ∧ kick s' = kick s) ∧
  ∀ s2 p p' p'' now2, lastRingSig s2 = lastRingSig s' → live_ids p now2 sus (mem s2) ≡ₚ live_ids o now sus (mem s) →
    epoch (mem (weight_tick p p' p'' now2 sus tomb rf s2)) = epoch (mem s2).
Proof.
  cbv zeta. set (s := foldl gstep (newState rf) es). assert (inv (mem s)) as Hi.
  { assert (∀ s, ring_ok s → ring_ok (foldl gstep s es)) as HI by (clear s; induction es as [|e es' IH]; intros s Hs; cbn; [done|by apply IH, gstep_ok]).
    apply (HI (newState rf)). split; [apply membership_inv_new|]. split; [constructor|]. intros p Hp. by apply elem_of_nil in Hp. }
  assert (∀ o now t m, epoch (pruneTombstones o now t m) = epoch m) as Hep.
  { clear. intros o now t m. unfold pruneTombstones. generalize (range o (map_to_list (peers m))). intros l. revert m.
    induction l as [|x l IH]; intros m; cbn; [done|]. rewrite IH. unfold prune_visit. case_match; [|done]. by case_match. }
  assert (∀ s o o' o'' now, lastRingSig (weight_tick o o' o'' now sus tomb rf s) = aliveSig (live_ids o now sus (mem s))) as Hsig.
  { clear. intros s o o' o'' now. unfold weight_tick. fold (live_ids o now sus (mem s)). by destruct (Z.eqb_spec (aliveSig (live_ids o now sus (mem s))) (lastRingSig s)). }
  split_and!.
  - intros id. rewrite <-(proj2 (live_ids_spec o now sus (mem s) Hi) id). unfold live_ids.
    assert (deref (mem (weight_tick o o' o'' now sus tomb rf s)) <$> alive o now sus (mem s) = deref (mem s) <$> alive o now sus (mem s)) as E.
    { apply list_fmap_ext. intros i p _. unfold deref, weight_tick. destruct (_ =? _); cbn; by rewrite prune_metas. }
    rewrite <-E. unfold current_ring. cbn [nodes]. replace (ringRefs (weight_tick o o' o'' now sus tomb rf s)) with (alive o now sus (mem s)); [done|].
    unfold weight_tick. by destruct (_ =? _).
  - intros k. rewrite <-(cleanupHot_lookup o'). unfold weight_tick. by destruct (_ =? _).
  - intros Hne. unfold weight_tick. fold (live_ids o now sus (mem s)). destruct (Z.eqb_spec (aliveSig (live_ids o now sus (mem s))) (lastRingSig s)); [done|].
    cbn. by rewrite Hep.
  - intros E. unfold weight_tick. fold (live_ids o now sus (mem s)). rewrite E, Z.eqb_refl. cbn. by rewrite Hep.
  - intros s2 p p' p'' now2 E2 Hp. rewrite Hsig in E2. unfold weight_tick. fold (live_ids p now2 sus (mem s2)).
    rewrite (aliveSig_perm _ _ Hp), E2, Z.eqb_refl. cbn. apply Hep.
Qed.

(** Gossip spreads: after a node has taken in a message built from the sender's state, it
    knows every member the sender knows, its last-seen times are at least the sender's, its
    epoch is the larger of both, and it forgot nothing. *)
Theorem gossip_spreads o o' now now' t self url load top a b :
  let g := sendGossip o self url load top a in
  let b' := ingestGossip o' now now' t g b in
  epoch (mem b') = Z.max (epoch (mem b)) (epoch (mem a)) ∧
  (∀ id, is_Some (peers (mem b') !! id) ↔ is_Some (peers (mem b) !! id) ∨ id = self ∨ is_Some (peers (mem a) !! id)) ∧
  (∀ id ts, seen (mem a) !! id = Some ts → ∃ ts', seen (mem b') !! id = Some ts' ∧ ts ≤ ts') ∧
  (∀ id ts, id ≠ self → seen (mem b) !! id = Some ts → ∃ ts', seen (mem b') !! id = Some ts' ∧ ts ≤ ts').
Proof.
  cbv zeta. set (g := sendGossip o self url load top a).
  assert (FromID g = self ∧ Seen g = seen (mem a) ∧ Epoch g = epoch (mem a) ∧
    ∀ id, id ∈ pID <$> Peers g ↔ is_Some (peers (mem a) !! id)) as (Ef & Es & Ee & Hp).
  { split_and!; [done..|]. intros id. cbn [g sendGossip snapshot Peers]. rewrite <-list_fmap_compose, list_elem_of_fmap. split.
    - intros ([id' p] & -> & Hin). rewrite elem_of_range, elem_of_map_to_list in Hin. cbn. by eexists.
    - intros [p Hin]. exists (id, p). by rewrite elem_of_range, elem_of_map_to_list. }
  set (m1 := ensure sum64 now' (FromID g) (FromAddr g) (mem b)).
  destruct (integrate_keeps_newest sum64 o' (FromID g) (FromAddr g) (Peers g) (Seen g) (Epoch g) now m1) as (He & Hse & Hpe).
  set (m2 := integrate sum64 o' (FromID g) (FromAddr g) (Peers g) (Seen g) (Epoch g) now m1) in *.
  assert (epoch m1 = epoch (mem b) ∧ (∀ id, id ≠ self → seen m1 !! id = seen (mem b) !! id) ∧
    ∀ id, is_Some (peers m1 !! id) → is_Some (peers (mem b) !! id) ∨ id = self) as (E1 & S1 & P1).
  { unfold m1, ensure. rewrite Ef. destruct (peers (mem b) !! self) as [p|] eqn:Epb; cbn.
    - split_and!; [done|intros; by rewrite lookup_insert_ne|auto].
    - split_and!; [done|intros; by rewrite lookup_insert_ne|]. intros id. destruct (decide (id = self)) as [->|]; [by right|].
      rewrite lookup_insert_ne by done. by left. }
  assert (∀ id, is_Some (peers (mem b) !! id) → is_Some (peers m1 !! id)) as P2.
  { intros id Hid. unfold m1, ensure. rewrite Ef. destruct (peers (mem b) !! self) as [p|] eqn:Epb; cbn; [done|].
    rewrite lookup_insert_ne; [done|]. intros ->. rewrite Epb in Hid. by destruct Hid. }
  assert (epoch (mem (ingestGossip o' now now' t g b)) = epoch m2 ∧ seen (mem (ingestGossip o' now now' t g b)) = seen m2 ∧
    peers (mem (ingestGossip o' now now' t g b)) = peers m2) as (-> & -> & ->).
  { unfold ingestGossip. fold m1. fold m2. unfold setWeight. destruct (_ && _), (peers m2 !! FromID g); done. }
  split_and!.
  - by rewrite He, E1, Ee.
  - intros id. rewrite Hpe, Hp, Ef. split; [intros [H%P1|[H|H]]; tauto|]. intros [H%P2|[H|H]]; auto.
  - intros id ts Hts. rewrite Hse, Es, Hts. case_decide; [cbn; eexists; split; [done|lia]|].
    destruct (seen m1 !! id); cbn; eexists; (split; [done|lia]).
  - intros id ts Hne Hts. rewrite Hse, Es, Ef, decide_False, S1, Hts by done.
    destruct (seen (mem a) !! id); cbn; eexists; (split; [done|lia]).
Qed.
End Gossip.
End Gossip.
