(* ===== verification/Float.v ===== *)
(** * Floating point

    The binary64 arithmetic of Go over the Standard Library's [SpecFloat], which rounds each
    operation to nearest-even, with [math.Min], [math.Max] and the conversions the program
    uses; and what the development needs of it: on non-negative floats every operation is
    exact up to a relative error of 2^-49 and an absolute one of 2^-1071. *)
From Stdlib Require Import ZArith QArith Qpower Lia Lqa SpecFloat.
Local Open Scope Z_scope.

Module Float.
Abbreviation float64 := spec_float.

(** ** Operations *)
Definition of_int (n : Z) : float64 := binary_normalize 53 1024 n 0 false.
Definition fadd : float64 -> float64 -> float64 := SFadd 53 1024.
Definition fsub : float64 -> float64 -> float64 := SFsub 53 1024.
Definition fmul : float64 -> float64 -> float64 := SFmul 53 1024.
Definition fdiv : float64 -> float64 -> float64 := SFdiv 53 1024.
(** The constant [a/b], rounded once. *)
Definition const (a b : Z) : float64 := fdiv (of_int a) (of_int b).

Definition signbit (x : float64) : bool :=
  match x with S754_zero s | S754_infinity s | S754_finite s _ _ => s | S754_nan => false end.
Definition is_nan (x : float64) : bool := match x with S754_nan => true | _ => false end.
Definition is_inf (x : float64) (neg : bool) : bool :=
  match x with S754_infinity s => Bool.eqb s neg | _ => false end.

(** [math.Min] and [math.Max] with their special cases. *)
Definition fmin (x y : float64) : float64 :=
  if (is_inf x true || is_inf y true)%bool then S754_infinity true
  else if (is_nan x || is_nan y)%bool then S754_nan
  else if (SFeqb x (of_int 0) && SFeqb x y)%bool then (if signbit x then x else y)
  else if SFltb x y then x else y.
Definition fmax (x y : float64) : float64 :=
  if (is_inf x false || is_inf y false)%bool then S754_infinity false
  else if (is_nan x || is_nan y)%bool then S754_nan
  else if (SFeqb x (of_int 0) && SFeqb x y)%bool then (if signbit x then y else x)
  else if SFltb y x then x else y.

(** Conversion to [uint64] drops the fraction; out of range it depends on the implementation. *)
Definition truncate (m : positive) (e : Z) : Z := if 0 <=? e then Zpos m * 2 ^ e else Zpos m / 2 ^ (- e).
Definition to_uint64 (oob : float64 -> Z) (x : float64) : Z :=
  match x with
  | S754_zero _ => 0
  | S754_finite false m e => if truncate m e <? 2 ^ 64 then truncate m e else oob x
  | S754_finite true m e => if truncate m e =? 0 then 0 else oob x
  | _ => oob x
  end.

(** ** Powers of two *)
Definition P (e : Z) : Q := Qpower 2 e.
Lemma P_pos e : (0 < P e)%Q.
Proof. apply Qpower_0_lt. reflexivity. Qed.
Lemma P_add a b : (P (a + b) == P a * P b)%Q.
Proof. apply Qpower_plus. discriminate. Qed.
Lemma P_nat n : 0 <= n -> (P n == inject_Z (2 ^ n))%Q.
Proof. intros Hn. unfold P. symmetry. apply Zpower_Qpower. exact Hn. Qed.
Lemma P_le a b : a <= b -> (P a <= P b)%Q.
Proof.
  intros H. replace b with (a + (b - a)) by lia. rewrite P_add, (P_nat (b - a)) by lia.
  assert (1 <= inject_Z (2 ^ (b - a)))%Q as H1. { change 1%Q with (inject_Z 1). rewrite <-Zle_Qle. lia. }
  pose proof (P_pos a). nra.
Qed.
Lemma P_lt_inv a b : (P a < P b)%Q -> a < b.
Proof. intros H. destruct (Z_lt_le_dec a b) as [|Hle]; [assumption|]. pose proof (P_le b a Hle). lra. Qed.

(** ** Digits and shifts *)
Lemma digits_bounds p : 2 ^ (Zpos (digits2_pos p) - 1) <= Zpos p < 2 ^ Zpos (digits2_pos p).
Proof.
  induction p as [p IH|p IH|]; cbn [digits2_pos]; [| |lia].
  all: rewrite Pos2Z.inj_succ; replace (Z.succ (Zpos (digits2_pos p)) - 1) with (Z.succ (Zpos (digits2_pos p) - 1)) by lia.
  all: rewrite !Z.pow_succ_r by lia; lia.
Qed.
Lemma iter_pos_spec {A} (f : A -> A) p x : iter_pos f p x = Nat.iter (Pos.to_nat p) f x.
Proof.
  assert (forall a b y, Nat.iter (a + b) f y = Nat.iter a f (Nat.iter b f y)) as Ha.
  { intros a b y. induction a as [|a IH]; [reflexivity|]. cbn. f_equal. exact IH. }
  revert x. induction p as [p IH|p IH|]; intros x; cbn [iter_pos]; [| |reflexivity]; rewrite !IH.
  - replace (Pos.to_nat (xI p)) with (Pos.to_nat p + (Pos.to_nat p + 1))%nat by lia. rewrite !Ha. reflexivity.
  - replace (Pos.to_nat (xO p)) with (Pos.to_nat p + Pos.to_nat p)%nat by lia. rewrite Ha. reflexivity.
Qed.
Lemma shr_1_m r : 0 <= shr_m r -> shr_m (shr_1 r) = shr_m r / 2.
Proof.
  destruct r as [m r s]. cbn. intros H. destruct m as [|[p|p|]|p]; cbn [shr_1 shr_m]; [reflexivity|apply (Z.div_unique_pos _ _ _ 1); lia|apply (Z.div_unique_pos _ _ _ 0); lia|reflexivity|cbn in H; lia].
Qed.
Lemma shr_iter n r : 0 <= shr_m r -> shr_m (Nat.iter n shr_1 r) = shr_m r / 2 ^ Z.of_nat n.
Proof.
  intros H. induction n as [|n IH]; [cbn; rewrite Z.div_1_r; reflexivity|].
  change (Nat.iter (S n) shr_1 r) with (shr_1 (Nat.iter n shr_1 r)). rewrite shr_1_m, IH.
  - rewrite Z.div_div by lia. f_equal. rewrite Nat2Z.inj_succ, Z.pow_succ_r by lia. lia.
  - rewrite IH. apply Z.div_pos; [exact H|]. lia.
Qed.
(** A shift to the right is a floor division. *)
Lemma shr_spec r e n :
  0 <= shr_m r ->
  snd (shr r e n) = e + Z.max 0 n /\ shr_m (fst (shr r e n)) = shr_m r / 2 ^ Z.max 0 n /\ (n <= 0 -> fst (shr r e n) = r).
Proof.
  intros H. destruct n as [|p|p]; cbn [shr fst snd].
  - rewrite Z.max_id, Z.div_1_r. repeat split. lia.
  - rewrite iter_pos_spec, shr_iter by exact H. rewrite positive_nat_Z. repeat split; lia.
  - rewrite Z.max_l by lia. rewrite Z.div_1_r. repeat split. lia.
Qed.
Lemma div_bounds m e k : 0 <= m -> 0 <= k ->
  (inject_Z (m / 2 ^ k) * P (e + k) <= inject_Z m * P e)%Q /\ (inject_Z m * P e < (inject_Z (m / 2 ^ k) + 1) * P (e + k))%Q.
Proof.
  intros Hm Hk. pose proof (Z.div_mod m (2 ^ k) ltac:(lia)) as Hd. pose proof (Z.mod_pos_bound m (2 ^ k) ltac:(lia)) as Hr.
  set (q := m / 2 ^ k) in *. rewrite P_add, (P_nat k) by exact Hk. pose proof (P_pos e) as Hp.
  assert (inject_Z q * inject_Z (2 ^ k) <= inject_Z m)%Q as H1. { rewrite <-inject_Z_mult, <-Zle_Qle. lia. }
  assert (inject_Z m < (inject_Z q + 1) * inject_Z (2 ^ k))%Q as H2.
  { change 1%Q with (inject_Z 1). rewrite <-inject_Z_plus, <-inject_Z_mult, <-Zlt_Qlt. lia. }
  split; nra.
Qed.

(** ** Rounding *)

(** The non-negative finite floats, with their values. *)
Definition fin (x : float64) : Prop :=
  match x with S754_zero _ => True | S754_finite false m _ => Zpos m < 2 ^ 53 | _ => False end.
Definition val (x : float64) : Q := match x with S754_finite _ m e => inject_Z (Zpos m) * P e | _ => 0 end.
Lemma val_nonneg x : (0 <= val x)%Q.
Proof.
  destruct x; cbn; try lra. assert (0 <= inject_Z (Zpos m))%Q by (change 0%Q with (inject_Z 0); rewrite <-Zle_Qle; lia).
  pose proof (P_pos e). nra.
Qed.

Definition fexp53 (e : Z) : Z := Z.max (e - 53) (-1074).
Lemma fexp53_eq e : fexp 53 1024 e = fexp53 e.
Proof. reflexivity. Qed.
(** The number of digits of a non-negative number. *)
Lemma Zdigits_bounds m : 0 <= m -> 0 <= Zdigits2 m /\ m < 2 ^ Zdigits2 m /\ (0 < m -> 2 ^ (Zdigits2 m - 1) <= m).
Proof.
  intros H. destruct m as [|p|p]; cbn [Zdigits2]; [cbn; lia| |lia]. pose proof (digits_bounds p). repeat split; lia.
Qed.
Lemma Zdigits_le m n : 0 <= m -> 0 <= n -> m < 2 ^ n -> Zdigits2 m <= n.
Proof.
  intros Hm Hn H. destruct (Zdigits_bounds m Hm) as (H0 & _ & Hl). destruct (Z.eq_dec m 0) as [->|Hne]; [cbn; exact Hn|].
  specialize (Hl ltac:(lia)). destruct (Z_lt_le_dec n (Zdigits2 m)) as [Hlt|]; [|assumption].
  assert (2 ^ n <= 2 ^ (Zdigits2 m - 1)) by (apply Z.pow_le_mono_r; lia). lia.
Qed.

(** One shift to 53 digits. *)
Lemma shr_fexp_spec m e l :
  0 <= m ->
  let k := Z.max e (fexp53 (Zdigits2 m + e)) in
  let '(r, e') := shr_fexp 53 1024 m e l in
  e' = k /\ 0 <= shr_m r < 2 ^ 53 /\ (inject_Z (shr_m r) * P k <= inject_Z m * P e)%Q /\ (inject_Z m * P e < (inject_Z (shr_m r) + 1) * P k)%Q /\
  (fexp53 (Zdigits2 m + e) <= e -> r = shr_record_of_loc m l).
Proof.
  intros Hm k. unfold shr_fexp. rewrite fexp53_eq. set (n := fexp53 (Zdigits2 m + e) - e).
  assert (shr_m (shr_record_of_loc m l) = m) as El by (destruct l as [|[| |]]; reflexivity).
  destruct (shr_spec (shr_record_of_loc m l) e n) as (H1 & H2 & H3); [rewrite El; exact Hm|].
  destruct (shr (shr_record_of_loc m l) e n) as [r e']. cbn [fst snd] in *. rewrite El in H2.
  assert (k = e + Z.max 0 n) as Hk by (unfold k, n; lia). rewrite Hk, H1, H2.
  destruct (Zdigits_bounds m Hm) as (Hd0 & Hd & _).
  destruct (div_bounds m e (Z.max 0 n) Hm ltac:(lia)) as [Hb1 Hb2]. repeat split; [|..].
  - apply Z.div_pos; lia.
  - apply Z.div_lt_upper_bound; [lia|]. rewrite <-Z.pow_add_r by lia. eapply Z.lt_le_trans; [exact Hd|]. apply Z.pow_le_mono_r; [lia|].
    unfold n, fexp53 in *. lia.
  - exact Hb1.
  - exact Hb2.
  - intros Hle. apply H3. unfold n. lia.
Qed.

Lemma round_step m l : m <= round_nearest_even m l <= m + 1.
Proof. destruct l as [|[| |]]; cbn; try (destruct (Z.even m)); lia. Qed.

Lemma inject_le a b : a <= b -> (inject_Z a <= inject_Z b)%Q.
Proof. intros H. rewrite <-Zle_Qle. exact H. Qed.

(** The result of rounding [m * 2^e]. *)
Lemma round_aux_spec m e l :
  0 <= m -> e <= 900 -> Zdigits2 m + e <= 902 ->
  let k := Z.max e (fexp53 (Zdigits2 m + e)) in
  let r := binary_round_aux 53 1024 false m e l in
  fin r /\ (val r <= inject_Z m * P e + P k)%Q /\ (inject_Z m * P e - 3 * P k <= val r)%Q /\
  (l = loc_Exact -> fexp53 (Zdigits2 m + e) <= e -> (val r == inject_Z m * P e)%Q).
Proof.
  intros Hm He Hde k. unfold binary_round_aux. pose proof (shr_fexp_spec m e l Hm) as S1. fold k in S1. cbv zeta in S1.
  destruct (shr_fexp 53 1024 m e l) as [r1 e1]. destruct S1 as (-> & [H1 H1'] & L1 & U1 & X1).
  set (mr := round_nearest_even (shr_m r1) (loc_of_shr_record r1)). pose proof (round_step (shr_m r1) (loc_of_shr_record r1)) as Hmr. fold mr in Hmr.
  pose proof (shr_fexp_spec mr k loc_Exact ltac:(lia)) as S2. cbv zeta in S2. destruct (shr_fexp 53 1024 mr k loc_Exact) as [r2 e2].
  destruct S2 as (-> & [H2 H2'] & L2 & U2 & X2).
  assert (Zdigits2 mr <= 54) as Hd by (apply Zdigits_le; lia).
  assert (Z.max k (fexp53 (Zdigits2 mr + k)) <= k + 1) as Hk2 by (unfold k, fexp53 in *; lia).
  set (k2 := Z.max k (fexp53 (Zdigits2 mr + k))) in *.
  assert (P k2 <= 2 * P k)%Q as HP. { pose proof (P_le _ _ Hk2) as X. rewrite P_add in X. unfold P at 3 in X. cbn in X. lra. }
  pose proof (P_pos k) as Hpk. pose proof (inject_le _ _ (proj1 Hmr)) as Q1. pose proof (inject_le _ _ (proj2 Hmr)) as Q2. rewrite inject_Z_plus in Q2. change (inject_Z 1) with 1%Q in Q2.
  assert (inject_Z (shr_m r2) * P k2 <= inject_Z m * P e + P k)%Q as HU by nra.
  assert (inject_Z m * P e - 3 * P k <= inject_Z (shr_m r2) * P k2)%Q as HL by nra.
  assert (l = loc_Exact -> fexp53 (Zdigits2 m + e) <= e -> (inject_Z (shr_m r2) * P k2 == inject_Z m * P e)%Q) as HX.
  { intros -> Hle. assert (mr = m) as Hmm by (unfold mr; rewrite (X1 Hle); reflexivity). assert (k = e) as Hke by (unfold k; lia).
    assert (fexp53 (Zdigits2 mr + k) <= k) as Hf by (rewrite Hmm, Hke; exact Hle).
    assert (k2 = e) as -> by (unfold k2; lia). rewrite (X2 Hf), Hmm. reflexivity. }
  clearbody k2. destruct (shr_m r2) as [|p|p] eqn:E2; [| |lia].
  - cbn [fin val]. rewrite Qmult_0_l in *. repeat split; [exact HU|exact HL|]. intros A B. rewrite <-(HX A B). reflexivity.
  - destruct (Z.leb_spec k2 (1024 - 53)) as [Hle|Hgt]; [|unfold k, fexp53 in *; lia].
    cbn [fin val]. repeat split; [exact H2'|exact HU|exact HL|exact HX].
Qed.

(** ** Operations up to a small error *)
Definition eps : Q := P (-49).
Definition eta : Q := P (-1071).
(** [r] is a float for the exact value [v]. *)
Definition near (r : float64) (v : Q) : Prop :=
  fin r /\ (val r <= v + (v * eps + eta))%Q /\ (v - (v * eps + eta) <= val r)%Q.

Lemma eps_eq : (eps == 8 * P (-52))%Q.
Proof. reflexivity. Qed.
Lemma eta_eq : (eta == 8 * P (-1074))%Q.
Proof. unfold eta. change (-1071) with (3 + -1074). rewrite P_add. reflexivity. Qed.
Lemma small_pos : (0 < eps)%Q /\ (0 < eta)%Q.
Proof. split; apply P_pos. Qed.
Lemma near_eq r v v' : (v == v')%Q -> near r v -> near r v'.
Proof. intros E (H1 & H2 & H3). split; [exact H1|]. split; rewrite <-E; assumption. Qed.
Lemma near_exact r v : fin r -> (val r == v)%Q -> near r v.
Proof. intros H E. pose proof (val_nonneg r). destruct small_pos. split; [exact H|]. split; rewrite <-E; nra. Qed.

Lemma mantissa_bounds m e : 0 < m -> (inject_Z m * P e < P 900)%Q ->
  e <= 900 /\ Zdigits2 m + e <= 902 /\ (P (fexp53 (Zdigits2 m + e)) <= inject_Z m * P e * P (-52) + P (-1074))%Q.
Proof.
  intros Hm Hv. destruct (Zdigits_bounds m ltac:(lia)) as (Hd0 & _ & Hd). specialize (Hd Hm). pose proof (P_pos e) as Hp.
  assert (0 < Zdigits2 m) as Hd1. { destruct m; cbn in *; lia. }
  assert (P (Zdigits2 m - 1 + e) <= inject_Z m * P e)%Q as H1.
  { rewrite P_add, (P_nat (Zdigits2 m - 1)) by lia. apply inject_le in Hd. nra. }
  assert (Zdigits2 m - 1 + e < 900) as H2 by (apply P_lt_inv; lra).
  split; [lia|]. split; [lia|]. pose proof (P_pos (-52)) as Hp2. pose proof (P_pos (-1074)) as Hp3. unfold fexp53.
  destruct (Z.max_spec (Zdigits2 m + e - 53) (-1074)) as [[_ ->]|[_ ->]].
  - assert (0 <= inject_Z m * P e)%Q by (pose proof (P_pos (Zdigits2 m - 1 + e)); lra). nra.
  - replace (Zdigits2 m + e - 53) with (Zdigits2 m - 1 + e + -52) by lia. rewrite P_add. nra.
Qed.

(** The two sizes of error: exact operands, and a quotient cut off at exponent [e]. *)
Lemma round_exact m e : 0 < m -> (inject_Z m * P e < P 900)%Q -> near (binary_round_aux 53 1024 false m e loc_Exact) (inject_Z m * P e).
Proof.
  intros Hm Hv. destruct (mantissa_bounds m e Hm Hv) as (He & Hd & Hu).
  destruct (round_aux_spec m e loc_Exact ltac:(lia) He Hd) as (Hf & HU & HL & HX).
  destruct (Z_le_gt_dec (fexp53 (Zdigits2 m + e)) e) as [Hle|Hgt]; [apply near_exact; [exact Hf|apply HX; [reflexivity|exact Hle]]|].
  rewrite Z.max_r in HU, HL by lia. set (v := (inject_Z m * P e)%Q) in *. set (r := binary_round_aux _ _ _ _ _ _) in *.
  assert (0 <= v)%Q as Hv0. { unfold v. pose proof (P_pos e). apply Z.lt_le_incl, inject_le in Hm. change (inject_Z 0) with 0%Q in Hm. nra. }
  pose proof eps_eq as He4. pose proof eta_eq as He5.
  pose proof (P_pos (-52)). pose proof (P_pos (-1074)). clearbody v r. split; [exact Hf|]. split; rewrite He4, He5; nra.
Qed.

Lemma shl_align_val m e e' : (inject_Z (Zpos (fst (shl_align m e e'))) * P (snd (shl_align m e e')) == inject_Z (Zpos m) * P e)%Q.
Proof.
  unfold shl_align. destruct (e' - e) as [|d|d] eqn:E; try reflexivity. cbn [fst snd].
  assert (Zpos (Pos.iter xO m d) = Zpos m * 2 ^ Zpos d) as ->.
  { rewrite <-Pos2Z.inj_pow, <-Pos2Z.inj_mul. f_equal. clear E. induction d as [|d IH] using Pos.peano_ind; [cbn; lia|].
    rewrite Pos.iter_succ, Pos.pow_succ_r. cbn [Pos.mul]. lia. }
  rewrite inject_Z_mult. assert (e = Zpos d + e') as -> by lia. rewrite (P_add (Zpos d) e'), (P_nat (Zpos d)) by lia. ring.
Qed.
Lemma shl_align_down m e e' : e' <= e -> (inject_Z (Zpos (fst (shl_align m e e'))) * P e' == inject_Z (Zpos m) * P e)%Q.
Proof.
  intros H. rewrite <-(shl_align_val m e e'). unfold shl_align. destruct (e' - e) as [|d|d] eqn:E; cbn [fst snd]; [|lia|reflexivity].
  replace e' with e by lia. reflexivity.
Qed.
Lemma round_normalize m e : 0 <= m -> (inject_Z m * P e < P 900)%Q -> near (binary_normalize 53 1024 m e false) (inject_Z m * P e).
Proof.
  intros Hm Hv. destruct m as [|p|p]; cbn [binary_normalize]; [apply near_exact; [exact I|cbn; ring]| |lia].
  unfold binary_round. pose proof (shl_align_val p e (fexp 53 1024 (Zpos (digits2_pos p) + e))) as Ha.
  destruct (shl_align p e _) as [mz ez]. cbn [fst snd] in Ha. eapply near_eq; [exact Ha|]. apply round_exact; [lia|]. rewrite Ha. exact Hv.
Qed.

Lemma of_int_near n : 0 <= n < 2 ^ 64 -> near (of_int n) (inject_Z n).
Proof.
  intros H. apply (near_eq _ (inject_Z n * P 0)); [cbn; ring|]. apply round_normalize; [lia|].
  rewrite (P_nat 900), (P_nat 0) by lia. rewrite <-inject_Z_mult, <-Zlt_Qlt. cbn [Z.pow] in *. 
  assert (2 ^ 64 <= 2 ^ 900) by (apply Z.pow_le_mono_r; lia). lia.
Qed.

Lemma fadd_near x y : fin x -> fin y -> (val x + val y < P 900)%Q -> near (fadd x y) (val x + val y).
Proof.
  intros Hx Hy Hv. destruct x as [sx|sx| |[|] mx ex], y as [sy|sy| |[|] my ey]; try contradiction; cbn [fadd SFadd].
  - apply near_exact; [destruct sx, sy; exact I|]. destruct sx, sy; cbn; ring.
  - apply near_exact; [exact Hy|]. cbn. ring.
  - apply near_exact; [exact Hx|]. cbn. ring.
  - unfold fadd, SFadd, cond_Zopp. set (ez := Z.min ex ey). cbn [val] in *.
    pose proof (shl_align_down mx ex ez ltac:(lia)) as Ex. pose proof (shl_align_down my ey ez ltac:(lia)) as Ey.
    assert (inject_Z (Zpos (fst (shl_align mx ex ez)) + Zpos (fst (shl_align my ey ez))) * P ez ==
      inject_Z (Zpos mx) * P ex + inject_Z (Zpos my) * P ey)%Q as E. { rewrite inject_Z_plus, Qmult_plus_distr_l, Ex, Ey. reflexivity. }
    eapply near_eq; [exact E|]. apply round_normalize; [lia|]. rewrite E. exact Hv.
Qed.
Lemma fsub_near x y : fin x -> fin y -> (val y <= val x)%Q -> (val x < P 900)%Q -> near (fsub x y) (val x - val y).
Proof.
  intros Hx Hy Hle Hv. destruct x as [sx|sx| |[|] mx ex], y as [sy|sy| |[|] my ey]; try contradiction.
  - apply near_exact; [destruct sx, sy; exact I|]. destruct sx, sy; cbn; ring.
  - exfalso. cbn [val] in Hle. pose proof (P_pos ey). assert (0 < inject_Z (Zpos my))%Q by (change 0%Q with (inject_Z 0); rewrite <-Zlt_Qlt; lia). nra.
  - apply near_exact; [exact Hx|]. cbn. ring.
  - unfold fsub, SFsub, cond_Zopp. set (ez := Z.min ex ey). cbn [val] in *.
    pose proof (shl_align_down mx ex ez ltac:(lia)) as Ex. pose proof (shl_align_down my ey ez ltac:(lia)) as Ey.
    set (a := Zpos (fst (shl_align mx ex ez))) in *. set (b := Zpos (fst (shl_align my ey ez))) in *.
    assert (inject_Z (a - b) * P ez == inject_Z (Zpos mx) * P ex - inject_Z (Zpos my) * P ey)%Q as E.
    { unfold Z.sub. rewrite inject_Z_plus, inject_Z_opp. rewrite <-Ex, <-Ey. ring. }
    assert (b <= a) as Hab. { rewrite Zle_Qle. pose proof (P_pos ez). rewrite <-Ex, <-Ey in Hle. nra. }
    pose proof (val_nonneg (S754_finite false my ey)) as Hn. cbn [val] in Hn.
    eapply near_eq; [exact E|]. apply round_normalize; [lia|]. rewrite E. lra.
Qed.
Lemma fmul_near x y : fin x -> fin y -> (val x * val y < P 900)%Q -> near (fmul x y) (val x * val y).
Proof.
  intros Hx Hy Hv. destruct x as [sx|sx| |[|] mx ex], y as [sy|sy| |[|] my ey]; try contradiction;
    try (apply near_exact; [exact I|cbn; ring]).
  unfold fmul, SFmul. cbn [xorb val] in *. assert (inject_Z (Zpos (mx * my)) * P (ex + ey) == inject_Z (Zpos mx) * P ex * (inject_Z (Zpos my) * P ey))%Q as E.
  { rewrite Pos2Z.inj_mul, inject_Z_mult, P_add. ring. }
  eapply near_eq; [exact E|]. apply round_exact; [lia|]. rewrite E. exact Hv.
Qed.

Lemma fexp53_le d : (P (fexp53 d) <= P (d - 53) + P (-1074))%Q.
Proof. unfold fexp53. pose proof (P_pos (d - 53)). pose proof (P_pos (-1074)). destruct (Z.max_spec (d - 53) (-1074)) as [[_ ->]|[_ ->]]; lra. Qed.

(** The truncated quotient of two mantissas, at the exponent the division chooses, against the
    exact quotient [v]. *)
Definition quotExp (mx my : positive) (ex ey : Z) : Z :=
  Z.min (fexp53 (Zdigits2 (Zpos mx) + ex - (Zdigits2 (Zpos my) + ey))) (ex - ey).
Lemma quotient_bounds mx my ex ey v q r :
  let e' := quotExp mx my ex ey in
  (v * (inject_Z (Zpos my) * P ey) == inject_Z (Zpos mx) * P ex)%Q ->
  Zpos mx * 2 ^ (ex - ey - e') = Zpos my * q + r -> 0 <= r < Zpos my ->
  (inject_Z q * P e' <= v)%Q /\ (v <= (inject_Z q + 1) * P e')%Q.
Proof.
  intros e' Ev Hq Hr. set (sh := ex - ey - e') in *. assert (0 <= sh) as Hs by (unfold sh, e', quotExp; lia). clearbody e'.
  pose proof (P_pos e') as Hpe. pose proof (P_pos ey) as Hpy.
  assert (0 < inject_Z (Zpos my))%Q as Hmy by (change 0%Q with (inject_Z 0); rewrite <-Zlt_Qlt; lia).
  assert (0 < inject_Z (Zpos my) * P ey)%Q as Hy0 by nra. assert (0 < P e' * P ey)%Q as Hpp by nra.
  assert (inject_Z (Zpos mx) * P ex == inject_Z (Zpos mx * 2 ^ sh) * (P e' * P ey))%Q as Ex.
  { rewrite inject_Z_mult. replace ex with (sh + (e' + ey)) by lia. rewrite P_add, P_add, (P_nat sh) by exact Hs. ring. }
  assert (inject_Z q * inject_Z (Zpos my) <= inject_Z (Zpos mx * 2 ^ sh))%Q as Q1 by (rewrite <-inject_Z_mult; apply inject_le; lia).
  assert (inject_Z (Zpos mx * 2 ^ sh) <= (inject_Z q + 1) * inject_Z (Zpos my))%Q as Q2.
  { change 1%Q with (inject_Z 1). rewrite <-inject_Z_plus, <-inject_Z_mult. apply inject_le. lia. }
  split; apply (Qmult_le_r _ _ _ Hy0); rewrite Ev, Ex.
  - setoid_replace (inject_Z q * P e' * (inject_Z (Zpos my) * P ey))%Q with (inject_Z q * inject_Z (Zpos my) * (P e' * P ey))%Q by ring.
    apply Qmult_le_compat_r; [exact Q1|lra].
  - setoid_replace ((inject_Z q + 1) * P e' * (inject_Z (Zpos my) * P ey))%Q with ((inject_Z q + 1) * inject_Z (Zpos my) * (P e' * P ey))%Q by ring.
    apply Qmult_le_compat_r; [exact Q2|lra].
Qed.
(** That exponent is small against the quotient. *)
Lemma quotExp_small mx my ex ey v :
  (v * (inject_Z (Zpos my) * P ey) == inject_Z (Zpos mx) * P ex)%Q -> (P (quotExp mx my ex ey) <= v * P (-52) + P (-1074))%Q.
Proof.
  intros Ev. set (d1 := Zdigits2 (Zpos mx)). set (d2 := Zdigits2 (Zpos my)). pose proof (P_pos ey) as Hpy. pose proof (P_pos ex) as Hpx.
  assert (0 < inject_Z (Zpos my))%Q as Hmy by (change 0%Q with (inject_Z 0); rewrite <-Zlt_Qlt; lia).
  assert (0 < inject_Z (Zpos my) * P ey)%Q as Hy0 by nra. pose proof (P_pos (-52)) as H52. pose proof (P_pos (-1074)) as H1074.
  assert (P (d1 - 1 + ex - (d2 + ey)) <= v)%Q as D.
  { apply (Qmult_le_r _ _ _ Hy0). rewrite Ev. destruct (Zdigits_bounds (Zpos mx) ltac:(lia)) as (B0 & _ & B1). destruct (Zdigits_bounds (Zpos my) ltac:(lia)) as (C0 & C1 & _).
    fold d1 in B0, B1. fold d2 in C0, C1. specialize (B1 ltac:(lia)). assert (0 < d1) as B2 by reflexivity.
    assert (inject_Z (Zpos my) * P ey <= P (d2 + ey))%Q as A1 by (rewrite P_add, (P_nat d2) by lia; apply Qmult_le_compat_r; [apply inject_le; lia|lra]).
    assert (P (d1 - 1 + ex) <= inject_Z (Zpos mx) * P ex)%Q as A2 by (rewrite P_add, (P_nat (d1 - 1)) by lia; apply Qmult_le_compat_r; [apply inject_le; exact B1|lra]).
    eapply Qle_trans; [|exact A2]. replace (d1 - 1 + ex) with (d1 - 1 + ex - (d2 + ey) + (d2 + ey)) at 2 by lia. rewrite (P_add _ (d2 + ey)).
    pose proof (P_pos (d1 - 1 + ex - (d2 + ey))). nra. }
  eapply Qle_trans; [apply (P_le _ (fexp53 (d1 + ex - (d2 + ey)))); unfold quotExp; apply Z.le_min_l|]. eapply Qle_trans; [apply fexp53_le|].
  replace (d1 + ex - (d2 + ey) - 53) with (d1 - 1 + ex - (d2 + ey) + -52) by lia. rewrite P_add. nra.
Qed.

(** A quotient: [v] is the exact one. *)
Lemma fdiv_near x y v : fin x -> fin y -> (0 < val y)%Q -> (v * val y == val x)%Q -> (v < P 900)%Q -> near (fdiv x y) v.
Proof.
  intros Hx Hy Hy0 Ev Hv. destruct y as [sy|sy| |[|] my ey]; try contradiction; [cbn in Hy0; lra|].
  destruct x as [sx|sx| |[|] mx ex]; try contradiction.
  { apply near_exact; [exact I|]. cbn [val fdiv SFdiv] in *. nra. }
  unfold fdiv, SFdiv, SFdiv_core_binary. cbn [xorb val] in *. rewrite fexp53_eq. fold (quotExp mx my ex ey). set (e' := quotExp mx my ex ey).
  assert (0 <= ex - ey - e') as Hs by (unfold e', quotExp; lia).
  assert (match ex - ey - e' with Z0 => Zpos mx | Zpos _ => Z.shiftl (Zpos mx) (ex - ey - e') | Zneg _ => Z0 end = Zpos mx * 2 ^ (ex - ey - e')) as ->.
  { destruct (ex - ey - e'); [lia|rewrite Z.shiftl_mul_pow2; lia|lia]. }
  pose proof (Z_div_mod (Zpos mx * 2 ^ (ex - ey - e')) (Zpos my) ltac:(lia)) as Hq. destruct (Z.div_eucl _ _) as [q r]. destruct Hq as [Hq Hr].
  assert (0 <= q) as Hq0. { assert (0 <= Zpos mx * 2 ^ (ex - ey - e')) by lia. nia. }
  destruct (quotient_bounds mx my ex ey v q r Ev Hq Hr) as [L U]. pose proof (quotExp_small mx my ex ey v Ev) as E1. fold e' in L, U, E1.
  pose proof (P_pos e') as Hpe. pose proof (P_pos (-52)) as H52. pose proof (P_pos (-1074)) as H1074.
  assert (0 <= v)%Q as Hv0 by (pose proof (inject_le 0 q Hq0) as X; change (inject_Z 0) with 0%Q in X; nra).
  assert (e' <= 900) as He'.
  { apply Z.lt_le_incl, P_lt_inv. assert (P (-52) <= 1 # 4)%Q as X1 by discriminate. pose proof (P_le (-1074) 0 ltac:(lia)) as X2. pose proof (P_le 3 900 ltac:(lia)) as X3.
    change (P 0) with 1%Q in X2. change (P 3) with 8%Q in X3. nra. }
  set (t := (v * P (-52) + P (-1074))%Q) in *.
  assert (Zdigits2 q + e' <= 902 /\ (P (Z.max e' (fexp53 (Zdigits2 q + e'))) <= 2 * t)%Q) as [Hd Hk].
  { assert (0 <= t)%Q as Ht by lra. destruct (Z.eq_dec q 0) as [->|Hne].
    - cbn [Zdigits2]. split; [lia|]. assert (Z.max e' (fexp53 (0 + e')) <= Z.max e' (-1074)) as X by (unfold fexp53; lia). apply P_le in X.
      destruct (Z.max_spec e' (-1074)) as [[_ E]|[_ E]]; rewrite E in X; unfold t in *; nra.
    - destruct (mantissa_bounds q e' ltac:(lia) ltac:(lra)) as (_ & Hd & Hm). split; [exact Hd|].
      destruct (Z.max_spec e' (fexp53 (Zdigits2 q + e'))) as [[_ ->]|[_ ->]]; unfold t in *; nra. }
  destruct (round_aux_spec q e' (new_location (Zpos my) r) Hq0 He' Hd) as (Hf & HU & HL & _).
  split; [exact Hf|]. rewrite eps_eq, eta_eq. unfold t in *. split; nra.
Qed.

(** ** Bounds *)
Lemma eps_val : (eps == 1 # 562949953421312)%Q.
Proof. reflexivity. Qed.
Lemma eta_le : (0 < eta)%Q /\ (eta <= eps)%Q.
Proof. split; [apply P_pos|apply P_le; lia]. Qed.
Lemma P900_big v : (v <= inject_Z (2 ^ 80))%Q -> (v < P 900)%Q.
Proof. intros H. pose proof (P_le 81 900 ltac:(lia)) as X. rewrite (P_nat 81) in X by lia. change (inject_Z (2 ^ 81)) with (2 * inject_Z (2 ^ 80))%Q in X. change (inject_Z (2 ^ 80)) with (1208925819614629174706176 # 1)%Q in *. lra. Qed.

(** Upper bounds through the operations. *)
Definition upto (x : float64) (b : Q) : Prop := fin x /\ (val x <= b)%Q.
Lemma upto_le x a b : upto x a -> (a <= b)%Q -> upto x b.
Proof. intros [H1 H2] H. split; [exact H1|lra]. Qed.
Lemma fadd_upto x y a b : upto x a -> upto y b -> (a + b <= 1000000000)%Q -> upto (fadd x y) ((a + b) * (1 + eps) + eta).
Proof.
  intros [Hx Hxa] [Hy Hyb] Hab. pose proof eps_val as He. destruct eta_le as [Hn _]. pose proof (val_nonneg x). pose proof (val_nonneg y).
  destruct (fadd_near x y Hx Hy) as (Hf & HU & _); [apply P900_big; change (inject_Z (2 ^ 80)) with (1208925819614629174706176 # 1)%Q; lra|].
  split; [exact Hf|]. rewrite He in *. lra.
Qed.
Lemma fmul_upto x y a b : upto x a -> upto y b -> (0 <= b)%Q -> (a * b <= 1000000000)%Q -> upto (fmul x y) (a * b * (1 + eps) + eta).
Proof.
  intros [Hx Hxa] [Hy Hyb] Hb Hab. pose proof eps_val as He. destruct eta_le as [Hn _]. pose proof (val_nonneg x). pose proof (val_nonneg y).
  assert (val x * val y <= a * b)%Q as Hle by nra.
  destruct (fmul_near x y Hx Hy) as (Hf & HU & _); [apply P900_big; change (inject_Z (2 ^ 80)) with (1208925819614629174706176 # 1)%Q; lra|].
  split; [exact Hf|]. rewrite He in *. lra.
Qed.

(** One over one plus a non-negative float. *)
Lemma recip_upto x : fin x -> (val x <= inject_Z (2 ^ 70))%Q -> upto (fdiv (of_int 1) (fadd (of_int 1) x)) (1 + 8 * eps).
Proof.
  intros Hx Hb. change (inject_Z (2 ^ 70)) with (1180591620717411303424 # 1)%Q in Hb. pose proof eps_val as He. destruct eta_le as [Hn Hne]. pose proof (val_nonneg x) as H0.
  assert (fin (of_int 1)) as H1 by reflexivity. assert (val (of_int 1) == 1)%Q as V1 by reflexivity.
  destruct (fadd_near (of_int 1) x H1 Hx) as (Hf & _ & HL); [apply P900_big; change (inject_Z (2 ^ 80)) with (1208925819614629174706176 # 1)%Q; lra|].
  set (d := fadd (of_int 1) x) in *. rewrite V1, He in HL. rewrite He in Hne. assert (1 - 2 * (1 # 562949953421312) <= val d)%Q as Hd by lra.
  set (q := (/ val d)%Q). assert (q * val d == 1)%Q as Hq. { unfold q. rewrite Qmult_comm. apply Qmult_inv_r. lra. }
  assert (q <= 1 + 4 * (1 # 562949953421312))%Q as Hqu by nra. assert (0 <= q)%Q as Hq0 by nra.
  destruct (fdiv_near (of_int 1) d q H1 Hf ltac:(lra)) as (Hr & HU & _); [rewrite V1; exact Hq|apply P900_big; change (inject_Z (2 ^ 80)) with (1208925819614629174706176 # 1)%Q; lra|].
  split; [exact Hr|]. rewrite He in *. lra.
Qed.

(** The integer part stays below any integer bound of the value. *)
Lemma to_uint64_lt oob x n : fin x -> (val x < inject_Z n)%Q -> n <= 2 ^ 64 -> 0 <= to_uint64 oob x < n.
Proof.
  intros Hf Hv Hn. destruct x as [s|s| |[|] m e]; try contradiction; cbn [to_uint64].
  - cbn in Hv. change 0%Q with (inject_Z 0) in Hv. rewrite <-Zlt_Qlt in Hv. lia.
  - assert (0 <= truncate m e /\ (inject_Z (truncate m e) <= inject_Z (Zpos m) * P e)%Q) as [H0 H1].
    { unfold truncate. destruct (Z.leb_spec 0 e).
      - rewrite (P_nat e), <-inject_Z_mult by assumption. split; [nia|lra].
      - split; [apply Z.div_pos; lia|]. destruct (div_bounds (Zpos m) e (- e) ltac:(lia) ltac:(lia)) as [X _].
        replace (e + - e) with 0 in X by lia. change (P 0) with 1%Q in X. lra. }
    cbn [val] in Hv. assert (truncate m e < n) as Hlt by (rewrite Zlt_Qlt; lra).
    destruct (Z.ltb_spec (truncate m e) (2 ^ 64)); lia.
Qed.
End Float.
