(* ===== verification/Weights.v ===== *)
(** * Load-dependent weights ([src/cluster/weights.go], [NodeLoad] of [src/cluster/wire.go])

    [computeWeight] turns a load report into a rendezvous weight in binary64 arithmetic; the
    products and sums are not fused.  Converting a float that is not in the range of [uint64]
    gives an implementation-specific result, the parameter [oob]; the bounds proved here show
    that it is never needed for a report with a non-negative count of evictions. *)
From Stdlib Require Import ZArith QArith Lia Lqa SpecFloat.
From S2P Require Import Float.
Local Open Scope Z_scope.

Module Weights.
Import Float.
Abbreviation float64 := spec_float.

Record NodeLoad := MkLoad { Size : Z; Evictions : Z; FreeMemBytes : Z; CPUu16 : Z }.

Definition clamp (v : float64) : float64 := fmax (of_int 0) (fmin (of_int 1) v).

Definition weightMax : Z := 1000000.
Definition memRef : Z := Z.shiftl 8 30.

Definition score (load : NodeLoad) : float64 :=
  let fm := if 0 <? FreeMemBytes load then clamp (fdiv (of_int (FreeMemBytes load)) (of_int memRef)) else const 1 2 in
  let cpu := if 0 <? CPUu16 load then fsub (of_int 1) (clamp (fdiv (of_int (CPUu16 load)) (of_int 10000))) else const 1 2 in
  let ev := fdiv (of_int 1) (fadd (of_int 1) (of_int (Evictions load))) in
  let sz := fdiv (of_int 1) (fadd (of_int 1) (clamp (fdiv (of_int (Size load)) (of_int 1000000)))) in
  fadd (fadd (fadd (fmul fm (const 35 100)) (fmul cpu (const 35 100))) (fmul ev (const 2 10))) (fmul sz (const 1 10)).

Definition computeWeight (oob : float64 -> Z) (load : NodeLoad) : Z :=
  let w := to_uint64 oob (fmul (score load) (of_int weightMax)) in
  if w <? 1 then 1 else w.

(** ** Bounds *)
Lemma compare_ge a b : Pos.compare_cont Eq a b <> Lt -> Zpos b <= Zpos a.
Proof. change (Pos.compare_cont Eq a b) with (a ?= b)%positive. intros H. destruct (Pos.compare_spec a b); [lia|contradiction|lia]. Qed.
Lemma clamp_upto x : fin x -> upto (clamp x) 1.
Proof.
  intros Hx. destruct x as [s|s| |[|] m e]; try contradiction.
  - split; [exact I|]. cbn. lra.
  - assert (clamp (S754_finite false m e) = if SFltb (of_int 1) (S754_finite false m e) then of_int 1 else S754_finite false m e) as ->.
    { unfold clamp, fmin. cbn [is_inf is_nan orb]. change (SFeqb (of_int 1) (of_int 0)) with false. cbn [andb]. destruct (SFltb (of_int 1) (S754_finite false m e)); reflexivity. }
    destruct (SFltb (of_int 1) (S754_finite false m e)) eqn:E; [split; [reflexivity|discriminate]|]. split; [exact Hx|].
    cbn in Hx. change (of_int 1) with (S754_finite false 4503599627370496 (-52)) in E. unfold SFltb, SFcompare in E. cbn [val].
    pose proof (P_pos e) as Hp. destruct (Z.compare_spec (-52) e) as [He|He|He]; [|discriminate|].
    + subst e. assert (Zpos m <= 4503599627370496) as Hm. { apply compare_ge. intros X. rewrite X in E. discriminate. }
      apply inject_le in Hm. change (P (-52)) with (1 # 4503599627370496)%Q in *. change (inject_Z 4503599627370496) with (4503599627370496 # 1)%Q in Hm. lra.
    + pose proof (P_le e (-53) ltac:(lia)) as Hle. change (P (-53)) with (1 # 9007199254740992)%Q in Hle.
      assert (Zpos m <= 9007199254740992) as Hm by lia. apply inject_le in Hm. change (inject_Z 9007199254740992) with (9007199254740992 # 1)%Q in Hm.
      assert (0 <= inject_Z (Zpos m))%Q by (change 0%Q with (inject_Z 0); apply inject_le; lia). nra.
Qed.

(** A count over a constant. *)
Lemma ratio_fin n d : 0 <= n < 2 ^ 64 -> fin (of_int d) -> (1 <= val (of_int d))%Q -> fin (fdiv (of_int n) (of_int d)).
Proof.
  intros Hn Hd H1. destruct (of_int_near n Hn) as (Hf & HU & _). pose proof (val_nonneg (of_int n)) as H0.
  set (q := (val (of_int n) / val (of_int d))%Q). assert (q * val (of_int d) == val (of_int n))%Q as Hq by (unfold q; field; lra).
  assert (q <= val (of_int n))%Q as Hqle by nra.
  destruct (fdiv_near (of_int n) (of_int d) q Hf Hd ltac:(lra) Hq) as (Hr & _); [|exact Hr].
  apply P900_big. pose proof eps_val as He. destruct eta_le as [_ Hne]. rewrite He in *. assert (n <= 2 ^ 64) as Hn2 by lia. apply inject_le in Hn2.
  change (inject_Z (2 ^ 64)) with (18446744073709551616 # 1)%Q in Hn2. change (inject_Z (2 ^ 80)) with (1208925819614629174706176 # 1)%Q. lra.
Qed.

Definition valid (l : NodeLoad) : Prop :=
  0 <= Size l < 2 ^ 63 /\ 0 <= Evictions l < 2 ^ 63 /\ 0 <= FreeMemBytes l < 2 ^ 64 /\ 0 <= CPUu16 l < 2 ^ 16.

(** The share of the score that lies above one is below a billionth. *)
Lemma score_upto l : valid l -> upto (score l) (1 + (1 # 1000000000)).
Proof.
  intros (Hs & He & Hm & Hc). pose proof eps_val as Ev. destruct eta_le as [Hn Hne]. rewrite Ev in Hne.
  assert (upto (const 35 100) ((35 # 100) + (1 # 1000000000000)))%Q as K35 by (split; vm_compute; [reflexivity|discriminate]).
  assert (upto (const 2 10) ((2 # 10) + (1 # 1000000000000)))%Q as K2 by (split; vm_compute; [reflexivity|discriminate]).
  assert (upto (const 1 10) ((1 # 10) + (1 # 1000000000000)))%Q as K1 by (split; vm_compute; [reflexivity|discriminate]).
  assert (upto (const 1 2) 1)%Q as Kh by (split; vm_compute; [reflexivity|discriminate]).
  unfold score. set (fm := if 0 <? FreeMemBytes l then _ else _). set (cpu := if 0 <? CPUu16 l then _ else _).
  assert (upto fm 1) as Hfm.
  { unfold fm. destruct (0 <? FreeMemBytes l); [apply clamp_upto, ratio_fin; [lia|reflexivity|discriminate]|exact Kh]. }
  clearbody fm.
  assert (upto cpu (1 + (1 # 1000000000000))) as Hcpu.
  { unfold cpu. destruct (0 <? CPUu16 l); [|eapply upto_le; [exact Kh|discriminate]].
    destruct (clamp_upto (fdiv (of_int (CPUu16 l)) (of_int 10000))) as [C1 C2]; [apply ratio_fin; [lia|reflexivity|discriminate]|].
    set (c := clamp _) in C1, C2 |- *. assert (val (of_int 1) == 1)%Q as V1 by reflexivity. pose proof (val_nonneg c) as C0.
    destruct (fsub_near (of_int 1) c eq_refl C1 ltac:(rewrite V1; exact C2)) as (F1 & F2 & _); [rewrite V1; apply P900_big; discriminate|].
    split; [exact F1|]. rewrite V1, Ev in F2. lra. }
  assert (upto (fdiv (of_int 1) (fadd (of_int 1) (of_int (Evictions l)))) (1 + (1 # 1000000000000))) as Hev.
  { destruct (of_int_near (Evictions l) ltac:(lia)) as (E1 & E2 & _). eapply upto_le; [apply recip_upto; [exact E1|]|rewrite Ev; discriminate].
    assert (Evictions l <= 2 ^ 63) as X by lia. apply inject_le in X. change (inject_Z (2 ^ 63)) with (9223372036854775808 # 1)%Q in X. change (inject_Z (2 ^ 70)) with (1180591620717411303424 # 1)%Q. rewrite Ev in E2. lra. }
  assert (upto (fdiv (of_int 1) (fadd (of_int 1) (clamp (fdiv (of_int (Size l)) (of_int 1000000))))) (1 + (1 # 1000000000000))) as Hsz.
  { destruct (clamp_upto (fdiv (of_int (Size l)) (of_int 1000000))) as [C1 C2]; [apply ratio_fin; [lia|reflexivity|discriminate]|].
    eapply upto_le; [apply recip_upto; [exact C1|]|rewrite Ev; discriminate]. change (inject_Z (2 ^ 70)) with (1180591620717411303424 # 1)%Q. lra. }
  set (ev := fdiv (of_int 1) (fadd (of_int 1) (of_int (Evictions l)))) in *. set (sz := fdiv (of_int 1) (fadd (of_int 1) (clamp _))) in *. clearbody cpu ev sz.
  pose proof (fmul_upto _ _ _ _ Hfm K35 ltac:(discriminate) ltac:(discriminate)) as M1. apply (upto_le _ _ ((35 # 100) + (1 # 100000000000))) in M1; [|rewrite Ev; lra].
  pose proof (fmul_upto _ _ _ _ Hcpu K35 ltac:(discriminate) ltac:(discriminate)) as M2. apply (upto_le _ _ ((35 # 100) + (1 # 100000000000))) in M2; [|rewrite Ev; lra].
  pose proof (fmul_upto _ _ _ _ Hev K2 ltac:(discriminate) ltac:(discriminate)) as M3. apply (upto_le _ _ ((2 # 10) + (1 # 100000000000))) in M3; [|rewrite Ev; lra].
  pose proof (fmul_upto _ _ _ _ Hsz K1 ltac:(discriminate) ltac:(discriminate)) as M4. apply (upto_le _ _ ((1 # 10) + (1 # 100000000000))) in M4; [|rewrite Ev; lra].
  pose proof (fadd_upto _ _ _ _ M1 M2 ltac:(discriminate)) as A1. apply (upto_le _ _ ((70 # 100) + (3 # 100000000000))) in A1; [|rewrite Ev; lra].
  pose proof (fadd_upto _ _ _ _ A1 M3 ltac:(discriminate)) as A2. apply (upto_le _ _ ((90 # 100) + (5 # 100000000000))) in A2; [|rewrite Ev; lra].
  pose proof (fadd_upto _ _ _ _ A2 M4 ltac:(discriminate)) as A3. eapply upto_le; [exact A3|]. rewrite Ev. lra.
Qed.


Example weight_idle : computeWeight (fun _ => 0) (MkLoad 0 0 0 0) = 650000.
Proof. vm_compute. reflexivity. Qed.
End Weights.
