(* ===== verification/Rates.v ===== *)
(** * Rates ([GetStats] of [src/admission.go], the hit ratio of [Stats] in [src/cache.go])

    The two quotients of counters that the cache reports as floats, and how far they are from
    the exact ratios. *)
From Stdlib Require Import ZArith QArith Lia Lqa SpecFloat.
From S2P Require Import Float Admission Cache.
Local Open Scope Z_scope.

Module Rates.
Import Float.

(** A quotient of counters, 0 when the denominator is. *)
Definition rate (num den : Z) : float64 := if 0 <? den then fdiv (of_int num) (of_int den) else of_int 0.

Definition GetStats (aaf : Admission.adaptiveAdmissionFilter) : Z * Z * Z * float64 * Z :=
  let reqs := Admission.admissionRequests aaf in
  let grants := Admission.admissionGrants aaf in
  (reqs, grants, Admission.scanRejections aaf, rate grants reqs, Admission.admissionProbability aaf).

(** [stats.HitRatio]. *)
Definition hitRatio (s : Stats) : float64 := rate (fst (HitRatio s)) (snd (HitRatio s)).

(** A reported rate is the exact ratio up to 2^-46: for counters with [0 <= num <= den], and 0
    for no requests at all. *)
Theorem rate_accurate num den :
  0 <= num <= den -> den < 2 ^ 64 ->
  fin (rate num den) /\ (den = 0 -> (val (rate num den) == 0)%Q) /\
  (0 < den -> (inject_Z num / inject_Z den - 8 * eps <= val (rate num den) <= inject_Z num / inject_Z den + 8 * eps)%Q).
Proof.
  intros H Hd. unfold rate. destruct (Z.ltb_spec 0 den) as [Hpos|Hz]; [|split; [reflexivity|split; [reflexivity|lia]]].
  destruct (of_int_near num ltac:(lia)) as (FA & UA & LA). destruct (of_int_near den ltac:(lia)) as (FB & UB & LB).
  pose proof eps_val as Ev. destruct eta_le as [Hn Hne]. rewrite Ev in *.
  set (A := val (of_int num)) in *. set (B := val (of_int den)) in *. set (b := inject_Z den) in *. set (rho := (inject_Z num / b)%Q).
  assert (1 <= b)%Q as Hb by (change 1%Q with (inject_Z 1); apply inject_le; lia).
  assert (inject_Z num == rho * b)%Q as Er by (unfold rho; field; lra).
  assert (0 <= inject_Z num <= b)%Q as Hnum by (split; [change 0%Q with (inject_Z 0)|]; apply inject_le; lia).
  assert (0 <= rho <= 1)%Q as Hrho by (rewrite Er in Hnum; split; nra). rewrite Er in UA, LA.
  assert (b * (1 - 2 * (1 # 562949953421312)) <= B)%Q as B1 by nra. assert (B <= b * (1 + 2 * (1 # 562949953421312)))%Q as B2 by nra.
  assert (A <= b * (rho + 2 * (1 # 562949953421312)))%Q as A1 by nra. assert (b * (rho - 2 * (1 # 562949953421312)) <= A)%Q as A2 by nra.
  assert (0 < B)%Q as B0 by nra. set (q := (A / B)%Q). assert (q * B == A)%Q as Eq by (unfold q; field; lra).
  assert (q <= rho + 5 * (1 # 562949953421312))%Q as Q1.
  { apply (Qmult_le_r _ _ B B0). rewrite Eq. eapply Qle_trans; [exact A1|]. apply (Qle_trans _ ((rho + 5 * (1 # 562949953421312)) * (b * (1 - 2 * (1 # 562949953421312))))); [nra|].
    apply Qmult_le_l; [lra|exact B1]. }
  assert (rho - 5 * (1 # 562949953421312) <= q)%Q as Q2.
  { destruct (Qlt_le_dec (rho - 5 * (1 # 562949953421312)) 0) as [Hneg|Hge].
    - pose proof (val_nonneg (of_int num)) as HA. fold A in HA. assert (0 <= q)%Q by (apply (Qmult_le_r _ _ B B0); rewrite Eq; lra). lra.
    - apply (Qmult_le_r _ _ B B0). rewrite Eq. eapply Qle_trans; [|exact A2]. apply (Qle_trans _ ((rho - 5 * (1 # 562949953421312)) * (b * (1 + 2 * (1 # 562949953421312))))); [|nra].
      setoid_rewrite Qmult_comm at 1 2. apply Qmult_le_compat_r; [exact B2|exact Hge]. }
  destruct (fdiv_near (of_int num) (of_int den) q FA FB B0 Eq) as (FR & UR & LR); [apply P900_big; change (inject_Z (2 ^ 80)) with (1208925819614629174706176 # 1)%Q; lra|].
  rewrite Ev in *. split; [exact FR|]. split; [lia|]. intros _. fold rho. split; nra.
Qed.

Lemma rate_accurate_witness : (inject_Z 1 / inject_Z 3 - 8 * eps <= val (rate 1 3) <= inject_Z 1 / inject_Z 3 + 8 * eps)%Q.
Proof. apply (rate_accurate 1 3); lia. Defined.
End Rates.
