(* ===== verification/Serve.v ===== *)
(** * Serving connections ([acceptLoop] and [serveConn] of [src/cluster/node.go], [src/cluster/wire.go])

    Each inbound connection has a reader and a pool of workers around a bounded queue: the
    reader takes frames into pooled buffers, the first frame decides whether the connection is
    served at all, and the workers decode, dispatch, answer and recycle.  All connections share
    the node, the buffer pool and the handshake gate, and every reader and worker advances in
    atomic steps that interleave freely.

    The node behind the dispatch is any that provides [NodeOps]; the CBOR codec is the class
    [Wire].  The bytes a client sends are given when its connection is accepted; that a read
    times out, a handshake fails or a write breaks off are inputs of the step.  Reslicing a
    buffer out of range and a panicking handler end the process and are [inr]. *)
From Stdlib Require Import ZArith Lia.
From stdpp Require Import base numbers list gmap sets.
From S2P Require Import Prelude KeyCodec Rendezvous Membership Node Load Repair Gossip Transport Weights.
Local Open Scope Z_scope.

Module Serve.
Import KeyCodec.
Abbreviation NodeID := Rendezvous.NodeID.

(** ** Messages *)
Definition MTHello : Z := 1.
Definition MTHelloResp : Z := 2.
Definition MTGet : Z := 3.
Definition MTGetResp : Z := 4.
Definition MTGetBulk : Z := 5.
Definition MTGetBulkResp : Z := 6.
Definition MTSet : Z := 7.
Definition MTSetResp : Z := 8.
Definition MTSetBulk : Z := 9.
Definition MTSetBulkResp : Z := 10.
Definition MTDelete : Z := 11.
Definition MTDeleteResp : Z := 12.
Definition MTLeaseLoad : Z := 13.
Definition MTLeaseLoadResp : Z := 14.
Definition MTMigratePull : Z := 15.
Definition MTGossip : Z := 16.
Definition MTBackfillDigestReq : Z := 200.
Definition MTBackfillDigestResp : Z := 201.
Definition MTBackfillKeysReq : Z := 202.
Definition MTBackfillKeysResp : Z := 203.

Record Base := MkBase { T : Z; ID : Z }.
Record MsgHello := MkHello { hBase : Base; FromID : NodeID; FromAddr : bytes; Token : bytes }.
Record MsgHelloResp := MkHelloResp { rBase : Base; rOK : bool; PeerID : NodeID; rErr : bytes }.
(** ["unauthorized"]. *)
Definition errUnauthorized : bytes := [117; 110; 97; 117; 116; 104; 111; 114; 105; 122; 101; 100].

(** The Go types of the requests, and the decoded requests. *)
Inductive shape := SGet | SGetBulk | SSet | SSetBulk | SDel | SLeaseLoad | SGossip | SDigest | SKeys.
#[export] Instance shape_eq_dec : EqDecision shape.
Proof. solve_decision. Defined.

Inductive request :=
  | QGet (key : bytes)
  | QGetBulk (keys : list bytes)
  | QSet (s : Node.MsgSet)
  | QSetBulk (items : list Node.KV)
  | QDel (d : Node.MsgDel)
  | QLeaseLoad (key : bytes)
  | QGossip (g : Gossip.MsgGossip Weights.NodeLoad)
  | QDigest (target : NodeID) (depth : Z)
  | QKeys (q : Repair.KeysReq).
Inductive response :=
  | PGet (r : Node.MsgGetResp)
  | PGetBulk (r : Node.MsgGetBulkResp)
  | PSet (r : Node.MsgResp)
  | PSetBulk (r : Node.MsgResp)
  | PDel (r : Node.MsgResp)
  | PLeaseLoad (r : Load.MsgLeaseLoadResp)
  | PGossip
  | PDigest (r : Repair.DigestResp)
  | PKeys (r : Repair.KeysResp).

Inductive message := MHelloResp (r : MsgHelloResp) | MReply (base : Base) (r : response).

(** The codec: [Unmarshal] into the type of each request, [Marshal] of an answer. *)
Class Wire := {
  UnmarshalBase : bytes → option Base;
  UnmarshalHello : bytes → option MsgHello;
  Unmarshal : shape → bytes → option (Base * request);
  Marshal : message → option bytes }.

(** What the server needs of a node: membership on a hello, and the handlers, which may take
    several steps; [None] is a panic. *)
Class NodeOps (N H I : Type) := {
  learnPeer : Z → NodeID → bytes → N → N;
  start : request → H;
  advance : I → request → H → N → option (N * (H + response)) }.

Record Config := MkConfig {
  SelfID : NodeID; AuthToken : bytes; AllowUnauthenticatedClients : bool; MaxFrameSize : Z;
  PerConnWorkers : Z; PerConnQueue : Z;
  TLS : bool;                       (* enabled, with a server certificate *)
  handshakeGate : option Z          (* its capacity *) }.

(** ** The first frame *)
Definition public (t : Z) : bool :=
  (t =? MTGet) || (t =? MTGetBulk) || (t =? MTSet) || (t =? MTSetBulk) || (t =? MTDelete).

Inductive verdict := Reject | Refuse (id : Z) | Hello (id : Z) (h : MsgHello) | Request.

Section Serve.
Context `{W : Wire}.

Definition greet (cf : Config) (payload : bytes) : verdict :=
  let requireToken := negb (bool_decide (AuthToken cf = [])) in
  let allowNoHello := negb requireToken && AllowUnauthenticatedClients cf in
  match UnmarshalBase payload with
  | None => Reject
  | Some base =>
      if T base =? MTHello then
        match UnmarshalHello payload with
        | None => Reject
        | Some h => if requireToken && negb (bool_decide (Token h = AuthToken cf)) then Refuse (ID base) else Hello (ID base) h
        end
      else if requireToken || negb allowNoHello then Reject
      else if public (T base) then Request else Reject
  end.

Definition helloAck (cf : Config) (id : Z) (ok : bool) : MsgHelloResp :=
  MkHelloResp (MkBase MTHelloResp id) ok (SelfID cf) (if ok then [] else errUnauthorized).

(** ** Dispatch *)
Definition peerOnly (s : shape) : bool :=
  match s with SLeaseLoad | SGossip | SDigest | SKeys => true | _ => false end.

Definition shapeOf (t : Z) : option shape :=
  if t =? MTGet then Some SGet else if t =? MTGetBulk then Some SGetBulk
  else if t =? MTSet then Some SSet else if t =? MTSetBulk then Some SSetBulk
  else if t =? MTDelete then Some SDel else if t =? MTLeaseLoad then Some SLeaseLoad
  else if t =? MTGossip then Some SGossip else if t =? MTBackfillDigestReq then Some SDigest
  else if t =? MTBackfillKeysReq then Some SKeys else None.
Definition respType (s : shape) : Z :=
  match s with
  | SGet => MTGetResp | SGetBulk => MTGetBulkResp | SSet => MTSetResp | SSetBulk => MTSetBulkResp
  | SDel => MTDeleteResp | SLeaseLoad => MTLeaseLoadResp | SGossip => MTGossip
  | SDigest => MTBackfillDigestResp | SKeys => MTBackfillKeysResp
  end.

(** What a worker does with a frame: the header of its answer and the request to handle. *)
Definition dispatch (authedPeer : bool) (buf : bytes) : option (shape * Base * request) :=
  base ← UnmarshalBase buf;
  s ← shapeOf (T base);
  if peerOnly s && negb authedPeer then None
  else r ← Unmarshal s buf; Some (s, MkBase (respType s) (ID r.1), r.2).

(** ** Connections *)

(** A borrowed buffer; [bid] numbers the borrowings. *)
Record buffer := MkBuffer { bid : nat; bmem : Transport.buf; data : bytes }.

Inductive worker {H : Type} :=
  | WIdle
  | WDecode (b : buffer)
  | WHandle (b : buffer) (s : shape) (base : Base) (rq : request) (ph : H)
  | WSend (b : buffer) (base : Base) (resp : response)
  | WRecycle (b : buffer)
  | WExit.
#[global] Arguments worker : clear implicits.

Inductive reader :=
  | RdAccepted               (* before the gate *)
  | RdHandshake              (* holds a place of the gate *)
  | RdFirst
  | RdLoop
  | RdEnqueue (b : buffer)
  | RdClosed.

(** [stream]: all the client sends; [inp]: what is left of it.  [sent]: the messages handed to
    the writer, [out] the bytes that left, [werr] the writer's sticky error. *)
Record conn {H : Type} := MkConn {
  stream : bytes; inp : bytes; rd : reader; gated : bool; authedPeer : bool;
  jobQ : list buffer; workers : list (worker H);
  taken : list bytes; sent : list message; out : bytes; werr : bool }.
#[global] Arguments conn : clear implicits.

(** What the connections share; [returned]: the borrowings that ended. *)
Record shared {N : Type} := MkShared {
  node : N; pool : Transport.bufPool; gate : Z; borrowed : nat; returned : list nat }.
#[global] Arguments shared : clear implicits.

Inductive panic := PSlice | PHandler.
Definition and_then {A B : Type} (x : A + panic) (f : A → B + panic) : B + panic :=
  match x with inl a => f a | inr p => inr p end.

Section Steps.
Context {N H I : Type} `{NO : NodeOps N H I} (cf : Config).

Definition nWorkers : nat := Z.to_nat (if PerConnWorkers cf <=? 0 then 64 else PerConnWorkers cf).
Definition queueLen : Z := if PerConnQueue cf <=? 0 then 2 * Z.of_nat nWorkers else PerConnQueue cf.

Definition put_rd (r : reader) (c : conn H) : conn H :=
  MkConn _ (stream c) (inp c) r (gated c) (authedPeer c) (jobQ c) (workers c) (taken c) (sent c) (out c) (werr c).
Definition put_inp (i : bytes) (c : conn H) : conn H :=
  MkConn _ (stream c) i (rd c) (gated c) (authedPeer c) (jobQ c) (workers c) (taken c) (sent c) (out c) (werr c).
Definition put_gated (g : bool) (c : conn H) : conn H :=
  MkConn _ (stream c) (inp c) (rd c) g (authedPeer c) (jobQ c) (workers c) (taken c) (sent c) (out c) (werr c).
Definition put_authed (c : conn H) : conn H :=
  MkConn _ (stream c) (inp c) (rd c) (gated c) true (jobQ c) (workers c) (taken c) (sent c) (out c) (werr c).
Definition put_jobs (q : list buffer) (c : conn H) : conn H :=
  MkConn _ (stream c) (inp c) (rd c) (gated c) (authedPeer c) q (workers c) (taken c) (sent c) (out c) (werr c).
Definition put_workers (ws : list (worker H)) (c : conn H) : conn H :=
  MkConn _ (stream c) (inp c) (rd c) (gated c) (authedPeer c) (jobQ c) ws (taken c) (sent c) (out c) (werr c).
Definition put_worker (w : nat) (x : worker H) (c : conn H) : conn H := put_workers (<[w := x]> (workers c)) c.
Definition put_node (n : N) (s : shared N) : shared N := MkShared _ n (pool s) (gate s) (borrowed s) (returned s).
Definition put_gate (g : Z) (s : shared N) : shared N := MkShared _ (node s) (pool s) g (borrowed s) (returned s).

(** [readBufPool.get(nbytes)] and [readBufPool.put(buf)]. *)
Definition borrow (n : Z) (choice : option nat) (payload : bytes) (s : shared N) : (shared N * buffer) + panic :=
  match Transport.get (pool s) n choice with
  | None => inr PSlice
  | Some (p, m) => inl (MkShared _ (node s) p (gate s) (S (borrowed s)) (returned s), MkBuffer (borrowed s) m payload)
  end.
Definition recycle (b : buffer) (s : shared N) : shared N + panic :=
  match Transport.put (pool s) (bmem b) with
  | None => inr PSlice
  | Some p => inl (MkShared _ (node s) p (gate s) (borrowed s) (returned s ++ [bid b]))
  end.

(** [writeFrameBuf]: [cut] breaks the write off after that many bytes; nothing is written to a
    connection that the reader has closed. *)
Definition write (cut : option nat) (m : message) (payload : option bytes) (c : conn H) : conn H :=
  let cut := match rd c with RdClosed => Some 0%nat | _ => cut end in
  let '(o, e) := match payload, werr c, cut with
                 | None, e, _ => (out c, e)
                 | _, true, _ => (out c, true)
                 | Some p, false, None => (out c ++ Transport.writeFrame p, false)
                 | Some p, false, Some k => (out c ++ take k (Transport.writeFrame p), true)
                 end in
  MkConn _ (stream c) (inp c) (rd c) (gated c) (authedPeer c) (jobQ c) (workers c) (taken c) (sent c ++ [m]) o e.
(** [send] drops a message that cannot be encoded; the acknowledgement of a hello would be empty. *)
Definition send (cut : option nat) (m : message) (c : conn H) : conn H := write cut m (Marshal m) c.
Definition sendAck (cut : option nat) (id : Z) (ok : bool) (c : conn H) : conn H :=
  let ack := MHelloResp (helloAck cf id ok) in write cut ack (Some (default [] (Marshal ack))) c.

(** [return] from [serveConn]: the queue and the connection are closed, the gate is left. *)
Definition close (s : shared N) (c : conn H) : shared N * conn H :=
  (if gated c then put_gate (gate s - 1) s else s, put_rd RdClosed (put_gated false c)).
(** The same, with a buffer to give back. *)
Definition drop (b : buffer) (s : shared N) (c : conn H) : (shared N * conn H) + panic :=
  and_then (recycle b s) (λ s, inl (close s c)).

(** A frame into a pooled buffer.  [hdrOk] and [bodyOk]: the deadline did not pass. *)
Inductive frameRead := NoHeader | NoBody (b : buffer) | Frame (b : buffer).
Definition nextFrame (hdrOk bodyOk : bool) (choice : option nat) (s : shared N) (c : conn H)
    : (shared N * conn H * frameRead) + panic :=
  if negb hdrOk || (length (inp c) <? 4)%nat then inl (s, c, NoHeader)
  else
    let nbytes := uint64_be (take 4 (inp c)) in
    let rest := skipn 4 (inp c) in
    if (0 <? MaxFrameSize cf) && (MaxFrameSize cf <? nbytes) then inl (s, c, NoHeader)
    else
      and_then (borrow nbytes choice (take (Z.to_nat nbytes) rest) s) (λ '(s, b),
        if negb bodyOk || (Z.of_nat (length rest) <? nbytes) then inl (s, c, NoBody b)
        else inl (s, put_inp (skipn (Z.to_nat nbytes) rest) c, Frame b)).

(** The workers start once the first frame is accepted. *)
Definition serve (r : reader) (c : conn H) : conn H := put_rd r (put_workers (replicate nWorkers WIdle) c).
(** The reader has a job for the queue. *)
Definition take_job (b : buffer) (c : conn H) : conn H :=
  MkConn _ (stream c) (inp c) (RdEnqueue b) (gated c) (authedPeer c) (jobQ c) (workers c) (taken c ++ [data b]) (sent c) (out c) (werr c).

Definition firstFrame (now : Z) (cut : option nat) (b : buffer) (s : shared N) (c : conn H) : (shared N * conn H) + panic :=
  match greet cf (data b) with
  | Reject => drop b s c
  | Refuse id => and_then (recycle b s) (λ s, inl (close s (sendAck cut id false c)))
  | Hello id h =>
      and_then (recycle b s) (λ s,
        let s := put_node (learnPeer now (FromID h) (FromAddr h) (node s)) s in
        let c := sendAck cut id true (put_authed c) in
        inl (if werr c then close s c else (s, serve RdLoop c)))
  | Request => inl (s, take_job b (serve RdLoop c))
  end.

(** One step of worker [w].  It waits while the queue is open and empty. *)
Definition workerStep (w : nat) (input : I) (cut : option nat) (s : shared N) (c : conn H) : (shared N * conn H) + panic :=
  match workers c !! w with
  | Some WIdle =>
      inl (s, match jobQ c, rd c with
              | b :: q, _ => put_worker w (WDecode b) (put_jobs q c)
              | [], RdClosed => put_worker w WExit c
              | [], _ => c
              end)
  | Some (WDecode b) =>
      inl (s, put_worker w (match dispatch (authedPeer c) (data b) with
                            | Some (sh, base, rq) => WHandle b sh base rq (start rq)
                            | None => WRecycle b
                            end) c)
  | Some (WHandle b sh base rq ph) =>
      match advance input rq ph (node s) with
      | None => inr PHandler
      | Some (n, r) =>
          inl (put_node n s, put_worker w (match r with inl ph => WHandle b sh base rq ph | inr resp => WSend b base resp end) c)
      end
  | Some (WSend b base resp) => inl (s, put_worker w (WRecycle b) (send cut (MReply base resp) c))
  | Some (WRecycle b) => and_then (recycle b s) (λ s, inl (s, put_worker w WIdle c))
  | _ => inl (s, c)
  end.

Inductive cevent :=
  | EnterGate
  | Handshake (ok : bool)
  | Read (hdrOk bodyOk : bool) (choice : option nat) (now : Z) (cut : option nat)
  | Enqueue
  | Work (w : nat) (input : I) (cut : option nat).

Definition connStep (e : cevent) (s : shared N) (c : conn H) : (shared N * conn H) + panic :=
  match e, rd c with
  | EnterGate, RdAccepted =>
      if negb (TLS cf) then inl (s, put_rd RdFirst c)
      else match handshakeGate cf with
           | None => inl (s, put_rd RdHandshake c)
           | Some lim =>
               if gate s <? lim then inl (put_gate (gate s + 1) s, put_rd RdHandshake (put_gated true c))
               else inl (s, c)
           end
  | Handshake ok, RdHandshake => inl (if ok : bool then (s, put_rd RdFirst c) else close s c)
  | Read hdrOk bodyOk choice now cut, (RdFirst | RdLoop) as r =>
      and_then (nextFrame hdrOk bodyOk choice s c) (λ '(s, c, f),
        match f, r with
        | NoHeader, _ => inl (close s c)
        | NoBody b, _ => drop b s c
        | Frame b, RdFirst => firstFrame now cut b s c
        | Frame b, _ => inl (s, take_job b c)
        end)
  | Enqueue, RdEnqueue b =>
      if Z.of_nat (length (jobQ c)) <? queueLen then inl (s, put_rd RdLoop (put_jobs (jobQ c ++ [b]) c)) else inl (s, c)
  | Work w input cut, _ => workerStep w input cut s c
  | _, _ => inl (s, c)
  end.

(** ** The server *)
Record server := MkServer { sh : shared N; conns : list (conn H) }.
Inductive event := Accept (stream : bytes) | On (i : nat) (e : cevent).

Definition acceptConn (str : bytes) : conn H := MkConn _ str str RdAccepted false false [] [] [] [] [] false.

Definition step (s : server) (e : event) : server + panic :=
  match e with
  | Accept str => inl (MkServer (sh s) (conns s ++ [acceptConn str]))
  | On i e =>
      match conns s !! i with
      | None => inl s
      | Some c => and_then (connStep e (sh s) c) (λ '(x, c'), inl (MkServer x (<[i := c']> (conns s))))
      end
  end.

Fixpoint run (s : server) (es : list event) : server + panic :=
  match es with [] => inl s | e :: es => and_then (step s e) (λ s, run s es) end.

Definition readBufPool : Transport.bufPool := Transport.newBufPool ((λ i, Z.shiftl 1024 (Z.of_nat i)) <$> seq 0 7).
Definition started (n : N) : server := MkServer (MkShared _ n readBufPool 0 0 []) [].
End Steps.
#[global] Arguments server : clear implicits.
#[global] Arguments event : clear implicits.
#[global] Arguments cevent : clear implicits.
End Serve.
End Serve.
