(* ===== verification/ServeTheorems.v ===== *)
(** * Properties of the connection server

    Two kinds of invariants, kept apart: the accounts of shared resources (who holds which
    borrowed buffer, how many connections are inside the gate), stated for one connection and
    an arbitrary rest, and the history of one connection (which frames were taken, which
    messages were sent, what admitted it). *)
From Stdlib Require Import ZArith Lia.
From stdpp Require Import base numbers list gmap sets.
From S2P Require Import Prelude KeyCodec Rendezvous Membership Node Load Repair Gossip Transport Weights Serve.
Local Open Scope Z_scope.

Module ServeTheorems.
Import KeyCodec Serve.

Section Conn.
Context {N H I : Type} `{W : Wire} `{NO : NodeOps N H I} (cf : Config).
Implicit Types (s : shared N) (c : conn H) (b : buffer) (hand : list buffer).

(** ** Who holds which buffer *)
Definition held (w : worker H) : list buffer :=
  match w with WDecode b | WHandle b _ _ _ _ | WSend b _ _ | WRecycle b => [b] | WIdle | WExit => [] end.
Definition queued (r : reader) : list buffer := match r with RdEnqueue b => [b] | _ => [] end.
Definition owned (c : conn H) : list buffer := queued (rd c) ++ jobQ c ++ (workers c ≫= held).
Definition inside (c : conn H) : Z := if gated c then 1 else 0.

(** [hand]: buffers in local variables; [rest] and [others]: what other connections hold. *)
Record accounts (hand : list buffer) (rest : list nat) (others : Z) (s : shared N) (c : conn H) : Prop := {
  ac_pool : Transport.pool_ok (pool s);
  ac_caps : Forall (λ b, 0 ≤ Transport.cap (bmem b)) (hand ++ owned c);
  ac_own : returned s ++ (bid <$> hand ++ owned c) ++ rest ≡ₚ seq 0 (borrowed s);
  ac_gate : gate s = inside c + others }.

Lemma accounts_move hand hand' rest others s s' c c' :
  accounts hand rest others s c → hand' ++ owned c' ≡ₚ hand ++ owned c →
  pool s' = pool s → returned s' = returned s → borrowed s' = borrowed s → gate s' - inside c' = gate s - inside c →
  accounts hand' rest others s' c'.
Proof.
  intros [A1 A2 A3 A4] P E1 E2 E3 E4. split; rewrite ?E1, ?E2, ?E3; [done| | |lia].
  - by rewrite P.
  - by rewrite P.
Qed.
Lemma accounts_recycle b hand rest others s c :
  accounts (b :: hand) rest others s c →
  ∃ s', recycle b s = inl s' ∧ accounts hand rest others s' c ∧ node s' = node s ∧ gate s' = gate s.
Proof.
  intros [A1 A2 A3 A4]. cbn [app] in A2. apply Forall_cons in A2 as [A2 A2'].
  unfold recycle. destruct (Transport.put_sound (pool s) (bmem b) A1 A2) as (p & -> & Hp).
  eexists. split; [done|]. split; [|done]. split; cbn; [done|done| |done].
  rewrite <-A3. cbn. by rewrite <-app_assoc.
Qed.
Lemma accounts_borrow n choice payload hand rest others s c :
  0 ≤ n → accounts hand rest others s c →
  ∃ s' b, borrow n choice payload s = inl (s', b) ∧ accounts (b :: hand) rest others s' c ∧ data b = payload ∧
    node s' = node s ∧ gate s' = gate s.
Proof.
  intros Hn [A1 A2 A3 A4]. unfold borrow.
  destruct (Transport.buffer_pool_sound (pool s) n choice A1 Hn) as (p & m & -> & Hp & _ & Hc & _).
  eexists _, _. split; [done|]. split; [|done]. split; cbn; [done| | |done].
  - apply Forall_cons. split; [cbn; lia|done].
  - rewrite (cons_seq (borrowed s) 0), seq_S, <-A3. cbn. solve_Permutation.
Qed.

Lemma bind_insert {A B : Type} (g : A → list B) (l : list A) i x y :
  l !! i = Some y → g y ++ (<[i := x]> l ≫= g) ≡ₚ g x ++ (l ≫= g).
Proof.
  revert i. induction l as [|a l IH]; intros [|i] E; cbn in *; [done|done| |].
  - injection E as ->. solve_Permutation.
  - specialize (IH i E). rewrite (Permutation_app_comm (g y)), <-app_assoc, (Permutation_app_comm _ (g y)), IH. solve_Permutation.
Qed.

Lemma owned_put_worker c w x y : workers c !! w = Some y → held y ++ owned (put_worker w x c) ≡ₚ held x ++ owned c.
Proof.
  intros E. unfold owned. cbn. pose proof (bind_insert held (workers c) w x y E) as P.
  rewrite (Permutation_app_swap_app (held y)), (Permutation_app_swap_app (held y) (jobQ c)), P. solve_Permutation.
Qed.
Lemma accounts_worker w x y hand hand' rest others s s' c c' :
  accounts hand rest others s c → workers c !! w = Some y →
  owned c' = owned (put_worker w x c) → hand' ++ held x ≡ₚ hand ++ held y → gated c' = gated c →
  pool s' = pool s → returned s' = returned s → borrowed s' = borrowed s → gate s' = gate s →
  accounts hand' rest others s' c'.
Proof.
  intros A Hw E1 P E2 E3 E4 E5 E6. eapply accounts_move; [done| |done..|unfold inside; rewrite E2; lia].
  rewrite E1. apply (Permutation_app_inv_l (held y)). pose proof (owned_put_worker c w x y Hw) as Q.
  rewrite (Permutation_app_swap_app (held y)), Q, !app_assoc, P. solve_Permutation.
Qed.
Lemma accounts_close hand rest others s c :
  accounts hand rest others s c → queued (rd c) = [] → accounts hand rest others (close s c).1 (close s c).2.
Proof.
  intros A E. unfold close. eapply accounts_move; [done| | | | |]; try (by destruct (gated c)); cbn.
  - unfold owned. cbn. by rewrite E.
  - unfold inside. cbn. destruct (gated c); cbn; lia.
Qed.
Lemma accounts_drop b rest others s c :
  accounts [b] rest others s c → queued (rd c) = [] →
  ∃ s' c', drop b s c = inl (s', c') ∧ accounts [] rest others s' c'.
Proof.
  intros A E. destruct (accounts_recycle b [] rest others s c A) as (s' & E1 & A' & _).
  unfold drop. rewrite E1. cbn [and_then]. destruct (close s' c) as [s2 c2] eqn:Ec. exists s2, c2. split; [done|].
  pose proof (accounts_close [] rest others s' c A' E) as X. by rewrite Ec in X.
Qed.

Definition in_hand (f : frameRead) : list buffer := match f with NoHeader => [] | NoBody b | Frame b => [b] end.

(** A frame is read as the framing says, and leaves the connection as it was but for the input. *)
Lemma nextFrame_accounts hdrOk bodyOk choice rest others s c :
  is_bytes (inp c) → accounts [] rest others s c →
  ∃ s' i f, nextFrame cf hdrOk bodyOk choice s c = inl (s', put_inp i c, f) ∧
    accounts (in_hand f) rest others s' (put_inp i c) ∧ node s' = node s ∧
    match f with Frame b => Transport.readFrame (MaxFrameSize cf) (inp c) = inl (data b, i) | _ => i = inp c end.
Proof.
  intros Hb A. assert (put_inp (inp c) c = c) as Hc by (by destruct c).
  unfold nextFrame, Transport.readFrame.
  destruct hdrOk; cbn [negb orb]; [|exists s, (inp c), NoHeader; by rewrite Hc].
  destruct (length (inp c) <? 4)%nat; [exists s, (inp c), NoHeader; by rewrite Hc|].
  destruct ((0 <? MaxFrameSize cf) && _); [exists s, (inp c), NoHeader; by rewrite Hc|].
  assert (0 ≤ uint64_be (take 4 (inp c))) as Hn by (apply be_range; by apply Forall_take).
  set (n := uint64_be (take 4 (inp c))) in *. set (rst := skipn 4 (inp c)).
  destruct (accounts_borrow n choice (take (Z.to_nat n) rst) [] rest others s c Hn A) as (s' & b & E & A' & Hd & En & Eg).
  rewrite E. cbn [and_then]. destruct (negb bodyOk || (Z.of_nat (length rst) <? n)) eqn:Eb.
  - exists s', (inp c), (NoBody b). by rewrite Hc.
  - apply orb_false_iff in Eb as [_ ->]. exists s', (skipn (Z.to_nat n) rst), (Frame b). split; [done|]. split; [|by rewrite Hd].
    eapply accounts_move; [exact A'|done..].
Qed.

Definition early (r : reader) : bool := match r with RdAccepted | RdHandshake | RdFirst => true | _ => false end.

Definition put_sent (m : message) (o : bytes) (e : bool) (c : conn H) : conn H :=
  MkConn _ (stream c) (inp c) (rd c) (gated c) (authedPeer c) (jobQ c) (workers c) (taken c) (sent c ++ [m]) o e.
(** Writing touches nothing but the log and the output. *)
Lemma write_frame cut m p c : ∃ o e, write cut m p c = put_sent m o e c.
Proof. unfold write. destruct p, (werr c); try (by eexists _, _). destruct (match rd c with RdClosed => Some 0%nat | _ => cut end); by eexists _, _. Qed.
Lemma send_frame cut m c : ∃ o e, send cut m c = put_sent m o e c.
Proof. apply write_frame. Qed.
Lemma ack_frame cut id ok c : ∃ o e, sendAck cf cut id ok c = put_sent (MHelloResp (helloAck cf id ok)) o e c.
Proof. apply write_frame. Qed.

Lemma serve_held : replicate (nWorkers cf) (@WIdle H) ≫= held = [].
Proof. by induction (nWorkers cf). Qed.

Lemma firstFrame_accounts now cut b rest others s c :
  accounts [b] rest others s c → rd c = RdFirst → workers c = [] →
  ∃ s' c', firstFrame cf now cut b s c = inl (s', c') ∧ accounts [] rest others s' c'.
Proof.
  intros A Er Ew. unfold firstFrame. destruct (greet cf (data b)) as [|id|id h|].
  - apply accounts_drop; [done|by rewrite Er].
  - destruct (accounts_recycle _ _ _ _ _ _ A) as (s' & E & A' & _). rewrite E. cbn [and_then].
    destruct (ack_frame cut id false c) as (o & e & ->).
    eexists _, _. split; [apply f_equal, surjective_pairing|]. apply accounts_close; [|cbn; by rewrite Er].
    by eapply accounts_move.
  - destruct (accounts_recycle _ _ _ _ _ _ A) as (s' & E & A' & _). rewrite E. cbn [and_then].
    destruct (ack_frame cut id true (put_authed c)) as (o & e & ->). cbn [werr put_sent]. destruct e.
    + eexists _, _. split; [apply f_equal, surjective_pairing|]. apply accounts_close; [|cbn; by rewrite Er].
      by eapply accounts_move.
    + eexists _, _. split; [done|]. eapply accounts_move; [exact A'| |done..]. cbn [app].
      unfold owned. cbn. rewrite serve_held, Er, Ew. cbn. done.
  - eexists _, _. split; [done|]. eapply accounts_move; [exact A| |done..]. cbn [app].
    unfold owned. cbn. rewrite serve_held, Er, Ew. cbn. done.
Qed.

Lemma worker_accounts w input cut rest others s c :
  accounts [] rest others s c →
  match workerStep w input cut s c with inl (s', c') => accounts [] rest others s' c' | inr p => p = PHandler end.
Proof.
  intros A. unfold workerStep. destruct (workers c !! w) as [wk|] eqn:Ew; [|done]. destruct wk as [|b|b sp base rq ph|b base resp|b|].
  - destruct (jobQ c) as [|b q] eqn:Ej.
    + destruct (rd c) eqn:Er; try done. by eapply accounts_worker.
    + eapply accounts_move; [exact A| |done..]. cbn [app].
      pose proof (owned_put_worker c w (WDecode b) WIdle Ew) as P. unfold owned in *. cbn in *. rewrite Ej in *.
      apply (Permutation_cons_inv (a := b)). cbn [app] in P. rewrite <-P. solve_Permutation.
  - eapply accounts_worker; [exact A|exact Ew|done| |done..]. by destruct (dispatch (authedPeer c) (data b)) as [[[? ?] ?]|].
  - destruct (advance input rq ph (node s)) as [[n [ph'|resp]]|]; [..|done]; by eapply accounts_worker.
  - destruct (send_frame cut (MReply base resp) c) as (o & e & ->). by eapply accounts_worker.
  - assert (accounts [b] rest others s (put_worker w WIdle c)) as A' by (by eapply accounts_worker).
    destruct (accounts_recycle _ _ _ _ _ _ A') as (s' & E & A'' & _). by rewrite E.
  - done.
Qed.

Lemma connStep_accounts e rest others s c :
  is_bytes (inp c) → (early (rd c) = true → workers c = []) → (rd c = RdAccepted → gated c = false) →
  accounts [] rest others s c →
  match connStep cf e s c with inl (s', c') => accounts [] rest others s' c' | inr p => p = PHandler end.
Proof.
  intros Hb He Hg A. destruct e as [|okh|hdrOk bodyOk choice nowT cut| | w input cut]; cbn [connStep].
  - destruct (rd c) eqn:Er; try done. assert (owned (put_rd RdFirst c) = owned c) as Eo by (unfold owned; cbn; by rewrite Er).
    destruct (TLS cf); cbn [negb]; [|by eapply accounts_move; [exact A|rewrite Eo|..]].
    destruct (handshakeGate cf) as [lim|]; [|by eapply accounts_move; [exact A|rewrite <-Eo|..]].
    destruct (Z.ltb_spec (gate s) lim); [|done]. eapply accounts_move; [exact A|by rewrite <-Eo|done..|].
    unfold inside. cbn. rewrite (Hg eq_refl). lia.
  - destruct (rd c) eqn:Er; try done. assert (owned (put_rd RdFirst c) = owned c) as Eo by (unfold owned; cbn; by rewrite Er).
    destruct okh; [by eapply accounts_move; [exact A|rewrite Eo|..]|]. apply (accounts_close [] rest others s c A). by rewrite Er.
  - destruct (nextFrame_accounts hdrOk bodyOk choice rest others s c Hb A) as (s' & i & f & E & A' & _ & _).
    destruct (rd c) eqn:Er; try done; rewrite E; cbn [and_then]; (destruct f as [|b|b]; cbn [in_hand] in A';
      [apply (accounts_close [] rest others s' (put_inp i c) A'); cbn; by rewrite Er
      |destruct (accounts_drop b rest others s' (put_inp i c) A') as (s2 & c2 & -> & A2); [cbn; by rewrite Er|done]|]).
    + destruct (firstFrame_accounts nowT cut b rest others s' (put_inp i c) A') as (s2 & c2 & -> & A2); [done|by apply He|done].
    + eapply accounts_move; [exact A'| |done..]. unfold owned. cbn. by rewrite Er.
  - destruct (rd c) as [| | | |b|] eqn:Er; try done. destruct (_ <? queueLen cf); [|done].
    eapply accounts_move; [exact A| |done..]. unfold owned. cbn. rewrite Er. cbn. solve_Permutation.
  - by apply worker_accounts.
Qed.

(** ** The history of a connection *)

(** The frames a stream delivers, and what is left. *)
Inductive reads (str : bytes) : list bytes → bytes → Prop :=
  | reads_nil : reads str [] str
  | reads_snoc ps p i i' : reads str ps i → Transport.readFrame (MaxFrameSize cf) i = inl (p, i') → reads str (ps ++ [p]) i'.

Definition authenticated (str : bytes) : Prop :=
  ∃ p i id h, Transport.readFrame (MaxFrameSize cf) str = inl (p, i) ∧ greet cf p = Hello id h.
Definition anonymous (str : bytes) : Prop :=
  ∃ p i, Transport.readFrame (MaxFrameSize cf) str = inl (p, i) ∧ greet cf p = Request.

(** The header of the answer that a frame gets. *)
Definition expected (authed : bool) (buf : bytes) : list Base := option_list ((λ r, r.1.2) <$> dispatch authed buf).
Definition wpending (authed : bool) (w : worker H) : list Base :=
  match w with WDecode b => expected authed (data b) | WHandle _ _ base _ _ | WSend _ base _ => [base] | _ => [] end.
Definition pending (c : conn H) : list Base :=
  ((data <$> queued (rd c) ++ jobQ c) ≫= expected (authedPeer c)) ++ (workers c ≫= wpending (authedPeer c)).
Definition answer (m : message) : list Base := match m with MReply base _ => [base] | MHelloResp _ => [] end.

Definition payload (m : message) : option bytes :=
  match m with MHelloResp _ => Some (default [] (Marshal m)) | MReply _ _ => Marshal m end.

(** What left is the frames of the first messages, and after an error a piece of the next. *)
Definition wrote (ms : list message) (o : bytes) (e : bool) : Prop :=
  ∃ k tl, (k ≤ length ms)%nat ∧ o = concat (Transport.writeFrame <$> omap payload (take k ms)) ++ tl ∧
    if e then ∃ m p, ms !! k = Some m ∧ payload m = Some p ∧ tl `prefix_of` Transport.writeFrame p
    else k = length ms ∧ tl = [].

Record past (c : conn H) : Prop := {
  pa_workers : (length (workers c) ≤ nWorkers cf)%nat;
  pa_queue : Z.of_nat (length (jobQ c)) ≤ queueLen cf;
  pa_reads : ∃ greeting, reads (stream c) (greeting ++ taken c) (inp c) ∧
    (workers c ≠ [] → length greeting = if authedPeer c then 1%nat else 0%nat);
  pa_authed : authedPeer c = true → authenticated (stream c);
  pa_served : workers c ≠ [] → authedPeer c = true ∨ anonymous (stream c);
  pa_idle : workers c = [] → jobQ c = [] ∧ taken c = [];
  pa_handle b sp base rq ph : WHandle b sp base rq ph ∈ workers c → dispatch (authedPeer c) (data b) = Some (sp, base, rq);
  pa_reply : (sent c ≫= answer) ++ pending c ≡ₚ taken c ≫= expected (authedPeer c);
  pa_out : wrote (sent c) (out c) (werr c);
  pa_sent : workers c = [] → sent c = [] ∨ ∃ id okk, sent c = [MHelloResp (helloAck cf id okk)] ∧ (okk = true → authenticated (stream c)) }.

Definition reading (r : reader) : bool := match r with RdLoop | RdEnqueue _ => true | _ => false end.
(** Before the first frame nothing has happened. *)
Definition untouched (c : conn H) : Prop :=
  workers c = [] ∧ jobQ c = [] ∧ taken c = [] ∧ sent c = [] ∧ inp c = stream c ∧ authedPeer c = false ∧ out c = [] ∧ werr c = false.
Record history (c : conn H) : Prop := {
  hi_early : early (rd c) = true → untouched c;
  hi_gate : rd c = RdAccepted → gated c = false;
  hi_loop : reading (rd c) = true → workers c ≠ [];
  hi_inside : TLS cf = true → is_Some (handshakeGate cf) → rd c ≠ RdAccepted → rd c ≠ RdClosed → gated c = true;
  hi_past : past c }.

Lemma nWorkers_pos : (0 < nWorkers cf)%nat.
Proof. unfold nWorkers. destruct (Z.leb_spec (PerConnWorkers cf) 0); lia. Qed.
Lemma served_ne : replicate (nWorkers cf) (@WIdle H) ≠ [].
Proof. intros X. apply (f_equal length) in X. rewrite length_replicate in X. pose proof nWorkers_pos. cbn in X. lia. Qed.
Lemma queueLen_pos : 0 < queueLen cf.
Proof. unfold queueLen. pose proof nWorkers_pos. destruct (Z.leb_spec (PerConnQueue cf) 0); lia. Qed.

Lemma accept_history str : history (acceptConn str).
Proof.
  pose proof queueLen_pos. split; cbn; [done..|]. split; cbn; [lia|lia| |done|done|done|by intros ? ? ? ? ? ?%elem_of_nil|done| |by left].
  - exists []. split; [constructor|done].
  - by exists 0%nat, [].
Qed.

Lemma past_close s c : past c → queued (rd c) = [] → past (close s c).2.
Proof.
  intros [P1 P2 P3 P4 P5 P6 P7 P8 P9 P10] E. split; cbn; try done. unfold pending in *. cbn. by rewrite E in P8.
Qed.
Lemma closed_history s c : past c → queued (rd c) = [] → history (close s c).2.
Proof. intros P E. split; [done..|]. by apply past_close. Qed.

Lemma wrote_write cut m p (ms : list message) o e :
  wrote ms o e → p = payload m →
  let '(o', e') := match p, e, cut with
                   | None, e, _ => (o, e)
                   | _, true, _ => (o, true)
                   | Some p, false, None => (o ++ Transport.writeFrame p, false)
                   | Some p, false, Some k => (o ++ take k (Transport.writeFrame p), true)
                   end in
  wrote (ms ++ [m]) o' e'.
Proof.
  intros (k & tl & Hk & -> & He) ->. destruct e.
  - destruct He as (m' & p' & Hm & Hp & Ht). assert (wrote (ms ++ [m]) (concat (Transport.writeFrame <$> omap payload (take k ms)) ++ tl) true).
    { exists k, tl. rewrite length_app, take_app_le by lia. split; [lia|]. split; [done|]. exists m', p'. split; [by apply lookup_app_l_Some|done]. }
    by destruct (payload m).
  - destruct He as [-> ->]. rewrite app_nil_r, take_ge by lia. destruct (payload m) as [p|] eqn:Ep; [destruct cut as [j|]|].
    + exists (length ms), (take j (Transport.writeFrame p)). rewrite length_app, take_app_length. split; [lia|]. split; [done|].
      exists m, p. split; [|split; [done|apply prefix_take]]. by rewrite lookup_app_r, Nat.sub_diag by lia.
    + exists (S (length ms)), []. rewrite length_app, take_ge by (rewrite length_app; cbn; lia). cbn. split; [lia|]. split; [|split; [lia|done]].
      rewrite omap_app. cbn. rewrite Ep, fmap_app, concat_app. cbn. by rewrite !app_nil_r.
    + exists (S (length ms)), []. rewrite length_app, take_ge by (rewrite length_app; cbn; lia). cbn. split; [lia|]. split; [|split; [lia|done]].
      rewrite omap_app. cbn. rewrite Ep. by rewrite !app_nil_r.
Qed.
Lemma wrote_send cut m p c : wrote (sent c) (out c) (werr c) → p = payload m →
  ∃ o e, write cut m p c = put_sent m o e c ∧ wrote (sent c ++ [m]) o e.
Proof.
  intros Hw Hp. pose proof (wrote_write (match rd c with RdClosed => Some 0%nat | _ => cut end) m p _ _ _ Hw Hp) as X.
  revert X. unfold write. match goal with |- (let '(_, _) := ?t in _) → _ => destruct t as [o e] end. intros X. by exists o, e.
Qed.

(** The four ways a first frame is received. *)
Section FirstFrame.
Context (c : conn H) (p : bytes) (i : bytes).
Context (Hu : untouched c) (Hrd : rd c = RdFirst) (Hread : Transport.readFrame (MaxFrameSize cf) (inp c) = inl (p, i)).

Lemma serve_pending a : replicate (nWorkers cf) (@WIdle H) ≫= wpending a = [].
Proof. by induction (nWorkers cf). Qed.
Lemma reads_first : reads (stream c) [p] i.
Proof. destruct Hu as (_ & _ & _ & _ & E & _). apply (reads_snoc _ [] p (stream c)); [constructor|]. by rewrite <-E. Qed.

Lemma rejected_past : past (put_inp i c).
Proof.
  destruct Hu as (E1 & E2 & E3 & E4 & E5 & E6 & E7 & E8). pose proof queueLen_pos.
  split; cbn; rewrite ?E1, ?E2, ?E3, ?E4, ?E6, ?E7, ?E8; cbn; try done; [lia|lia| |by intros ? ? ? ? ? ?%elem_of_nil| |by exists 0%nat, []|by left].
  - exists [p]. split; [apply reads_first|done].
  - unfold pending. cbn. by rewrite Hrd, E1, E2.
Qed.
Lemma acked_past cut id okk :
  (okk = true → authenticated (stream c)) →
  past (sendAck cf cut id okk (if okk then put_authed (put_inp i c) else put_inp i c)).
Proof.
  intros Ha. destruct rejected_past as [P1 P2 P3 P4 P5 P6 P7 P8 P9 P10]. destruct Hu as (E1 & E2 & E3 & E4 & E5 & E6 & E7 & E8).
  set (c1 := if okk then put_authed (put_inp i c) else put_inp i c).
  assert (past c1 ∧ sent c1 = []) as [[Q1 Q2 Q3 Q4 Q5 Q6 Q7 Q8 Q9 Q10] Es].
  { split; [|by destruct okk]. destruct okk; [|by split]. cbn in P3, P7, P8. unfold c1. split; cbn; try done.
    - destruct P3 as (g & R & Hg). exists g. split; [done|by rewrite E1].
    - intros *. rewrite E1. by intros ?%elem_of_nil.
    - unfold pending. cbn. by rewrite Hrd, E1, E2, E3, E4. }
  unfold sendAck. destruct (wrote_send cut (MHelloResp (helloAck cf id okk)) (Some (default [] (Marshal (MHelloResp (helloAck cf id okk))))) c1 Q9 eq_refl)
    as (o & e & -> & Hw).
  split; cbn; try done; [rewrite bind_app; cbn; by rewrite app_nil_r|].
  intros _. right. exists id, okk. rewrite Es. split; [done|]. by destruct okk.
Qed.
Lemma serve_past c1 : past c1 → workers c1 = [] → authedPeer c1 = true → stream c1 = stream c → inp c1 = i → queued (rd c1) = [] →
  past (serve cf RdLoop c1).
Proof.
  intros [P1 P2 P3 P4 P5 P6 P7 P8 P9 P10] Ew Ea Es Ei Er. destruct (P6 Ew) as [Ej Et].
  split; cbn; try done; [by rewrite length_replicate| |by left| | |by intros X%served_ne].
  - exists [p]. rewrite Et, app_nil_r, Es, Ei, Ea. split; [apply reads_first|done].
  - intros b sp base rq ph. by intros [X ?]%elem_of_replicate.
  - unfold pending in *. rewrite Er, Ew in P8. cbn in P8. by rewrite serve_pending.
Qed.
Lemma request_past b : data b = p → greet cf p = Request → past (take_job b (serve cf RdLoop (put_inp i c))).
Proof.
  intros Hd Hg. destruct Hu as (E1 & E2 & E3 & E4 & E5 & E6 & E7 & E8). pose proof queueLen_pos. pose proof nWorkers_pos.
  split; cbn; rewrite ?E2, ?E3, ?E4, ?E6, ?E7, ?E8; cbn; try done; [by rewrite length_replicate|lia| | |by intros X%served_ne| | |by exists 0%nat, []|by left].
  - exists []. rewrite Hd. split; [apply reads_first|done].
  - intros _. right. exists p, i. by rewrite <-E5.
  - intros b' sp base rq ph. by intros [X ?]%elem_of_replicate.
  - by rewrite serve_pending, !app_nil_r.
Qed.
End FirstFrame.

Definition justified (authed : bool) (x : worker H) : Prop :=
  match x with WHandle b sp base rq _ => dispatch authed (data b) = Some (sp, base, rq) | _ => True end.

(** A worker moves on, perhaps after sending [ms] or taking the first jobs [js]. *)
Lemma past_worker w x y ms js q o e c :
  past c → workers c !! w = Some y → jobQ c = js ++ q → justified (authedPeer c) x →
  (ms ≫= answer) ++ wpending (authedPeer c) x ≡ₚ wpending (authedPeer c) y ++ ((data <$> js) ≫= expected (authedPeer c)) →
  wrote (sent c ++ ms) o e →
  past (MkConn _ (stream c) (inp c) (rd c) (gated c) (authedPeer c) q (<[w := x]> (workers c)) (taken c) (sent c ++ ms) o e).
Proof.
  intros [P1 P2 P3 P4 P5 P6 P7 P8 P9 P10] Hw Hj Hx Hp Ho. assert (workers c ≠ []) as Hne by (by intros X; rewrite X in Hw).
  assert (<[w := x]> (workers c) ≠ []) as Hne'.
  { intros X. apply (f_equal length) in X. rewrite length_insert in X. by destruct (workers c). }
  split; cbn; try done.
  - by rewrite length_insert.
  - rewrite Hj, length_app in P2. lia.
  - destruct P3 as (g & R & Hg). exists g. split; [done|]. by intros _; apply Hg.
  - by intros _; apply P5.
  - intros b sp base rq ph Hin. apply list_elem_of_lookup in Hin as (j & Hl).
    apply list_lookup_insert_Some in Hl as [(-> & Hl & _)|[_ Hl]]; [by subst x|]. eapply P7. by eapply list_elem_of_lookup_2.
  - pose proof (bind_insert (wpending (authedPeer c)) (workers c) w x y Hw) as B. unfold pending in *. cbn.
    rewrite Hj in P8. rewrite <-P8, !fmap_app, !bind_app.
    apply (Permutation_app_inv_l (wpending (authedPeer c) y)).
    set (WP := <[w := x]> (workers c) ≫= _) in *. set (WQ := workers c ≫= _) in *.
    set (A := sent c ≫= answer). set (M := ms ≫= answer) in *. set (Q := (data <$> q) ≫= _). set (J := (data <$> js) ≫= _) in *.
    set (R := (data <$> queued (rd c)) ≫= _). set (y1 := wpending _ y) in *. set (x1 := wpending _ x) in *.
    trans (A ++ M ++ R ++ Q ++ (y1 ++ WP)); [solve_Permutation|]. rewrite B.
    trans (A ++ R ++ Q ++ WQ ++ (M ++ x1)); [solve_Permutation|]. rewrite Hp. solve_Permutation.
Qed.

Lemma history_worker w input cut s c :
  history c → match workerStep w input cut s c with inl (_, c') => history c' | inr _ => True end.
Proof.
  intros [X1 X2 X3 X4 P]. pose proof P as [_ _ _ _ _ _ P7 _ P9 _].
  assert (∀ c', rd c' = rd c → gated c' = gated c → length (workers c') = length (workers c) → (0 < length (workers c))%nat → past c' → history c') as Hh.
  { intros c' E1 E2 E3 E4 P'. split; rewrite ?E1, ?E2; [|done| |done|done].
    - intros He. destruct (X1 He) as [E _]. rewrite E in E4. cbn in E4. lia.
    - intros _ E. rewrite E in E3. cbn in E3. lia. }
  unfold workerStep. destruct (workers c !! w) as [wk|] eqn:Ew; [|by split].
  assert (0 < length (workers c))%nat as Hlen by (apply lookup_lt_Some in Ew; lia).
  assert (wrote (sent c ++ []) (out c) (werr c)) as Ho by (by rewrite app_nil_r).
  assert (∀ c0 x js q, jobQ c = js ++ q → justified (authedPeer c) x →
    wpending (authedPeer c) x ≡ₚ wpending (authedPeer c) wk ++ ((data <$> js) ≫= expected (authedPeer c)) →
    c0 = put_worker w x (put_jobs q c) → history c0) as Hq.
  { intros c0 x js q E1 E2 E3 ->. apply Hh; try done; [cbn; apply length_insert|].
    pose proof (past_worker w x wk [] js q (out c) (werr c) c P Ew E1 E2 E3 Ho) as Q. by rewrite app_nil_r in Q. }
  assert (put_jobs (jobQ c) c = c) as Hjc by (by destruct c).
  destruct wk as [|b|b sp base rq ph|b base resp|b|]; cbn [wpending] in *.
  - destruct (jobQ c) as [|b q] eqn:Ej.
    + destruct (rd c) eqn:Er; try (by split; rewrite ?Er). eapply (Hq _ WExit [] []); [done..|by rewrite Hjc].
    + by eapply (Hq _ (WDecode b) [b] q); [..|cbn; rewrite app_nil_r|].
  - eapply (Hq _ _ [] (jobQ c)); [done| | |by rewrite Hjc].
    + destruct (dispatch (authedPeer c) (data b)) as [[[? ?] ?]|] eqn:E; cbn; [done|done].
    + unfold expected. destruct (dispatch (authedPeer c) (data b)) as [[[? ?] ?]|] eqn:E; cbn; done.
  - assert (dispatch (authedPeer c) (data b) = Some (sp, base, rq)) as Hd by (eapply P7; by eapply list_elem_of_lookup_2).
    destruct (advance input rq ph (node s)) as [[n [ph'|resp]]|]; [..|done].
    + eapply (Hq _ (WHandle b sp base rq ph') [] (jobQ c)); [done..|by rewrite Hjc].
    + eapply (Hq _ (WSend b base resp) [] (jobQ c)); [done..|by rewrite Hjc].
  - unfold send. destruct (wrote_send cut (MReply base resp) (Marshal (MReply base resp)) c P9 eq_refl) as (o & e & -> & Hw).
    apply Hh; try done; [cbn; apply length_insert|]. by apply (past_worker w (WRecycle b) (WSend b base resp) [MReply base resp] [] (jobQ c) o e c).
  - unfold recycle. destruct (Transport.put _ _); [|done]. cbn. eapply (Hq _ WIdle [] (jobQ c)); [done..|by rewrite Hjc].
  - by split.
Qed.

Lemma nextFrame_reads hdrOk bodyOk choice s c s' c' f :
  nextFrame cf hdrOk bodyOk choice s c = inl (s', c', f) →
  node s' = node s ∧ gate s' = gate s ∧ ∃ i, c' = put_inp i c ∧
    match f with Frame b => Transport.readFrame (MaxFrameSize cf) (inp c) = inl (data b, i) | _ => i = inp c end.
Proof.
  assert (c = put_inp (inp c) c) as Hc by (by destruct c). unfold nextFrame, Transport.readFrame, borrow.
  destruct hdrOk; cbn [negb orb]; [|intros [= <- <- <-]; eauto].
  destruct (length (inp c) <? 4)%nat; [intros [= <- <- <-]; eauto|].
  destruct ((0 <? MaxFrameSize cf) && _); [intros [= <- <- <-]; eauto|].
  destruct (Transport.get _ _ _) as [[q m]|]; [|done]. cbn [and_then].
  destruct (negb bodyOk || (Z.of_nat (length (skipn 4 (inp c))) <? uint64_be (take 4 (inp c)))) eqn:Eb; [intros [= <- <- <-]; eauto|].
  apply orb_false_iff in Eb as [_ ->]. intros [= <- <- <-]. split; [done|]. split; [done|]. by eexists.
Qed.

Lemma firstFrame_history now cut b s c i :
  history c → rd c = RdFirst → Transport.readFrame (MaxFrameSize cf) (inp c) = inl (data b, i) →
  match firstFrame cf now cut b s (put_inp i c) with inl (_, c') => history c' | inr _ => True end.
Proof.
  intros [X1 X2 X3 X4 P] Er Hr. assert (untouched c) as Hu by (apply X1; by rewrite Er).
  pose proof (rejected_past c (data b) i Hu Er Hr) as P0.
  assert (∀ c', past c' → workers c' ≠ [] → gated c' = gated c → rd c' = RdLoop ∨ rd c' = RdEnqueue b → history c') as Hserved.
  { intros c' P' Hw Eg [E|E]; (split; rewrite ?E, ?Eg; try done; intros; apply X4; rewrite ?Er; done). }
  pose proof served_ne as Hne.
  unfold firstFrame, drop, recycle. destruct (greet cf (data b)) as [|id|id h|] eqn:Eg.
  - destruct (Transport.put _ _); [|done]. cbn [and_then]. apply (closed_history s); [done|cbn; by rewrite Er].
  - destruct (Transport.put _ _); [|done]. cbn [and_then].
    pose proof (acked_past c (data b) i Hu Er Hr cut id false ltac:(done)) as Pa. cbv iota in Pa.
    destruct (ack_frame cut id false (put_inp i c)) as (o & e & E). rewrite E in *.
    apply (closed_history s); [done|cbn; by rewrite Er].
  - destruct (Transport.put _ _); [|done]. cbn [and_then].
    assert (authenticated (stream c)) as Ha.
    { exists (data b), i, id, h. destruct Hu as (_ & _ & _ & _ & E & _). by rewrite <-E. }
    pose proof (acked_past c (data b) i Hu Er Hr cut id true (λ _, Ha)) as Pa. cbv iota in Pa.
    destruct (ack_frame cut id true (put_authed (put_inp i c))) as (o & e & E). rewrite E in *. destruct e; cbn [werr put_sent].
    + apply (closed_history s); [done|cbn; by rewrite Er].
    + apply Hserved; [|done|done|by left]. eapply (serve_past c (data b) i); try done; [apply Hu|cbn; by rewrite Er].
  - apply Hserved; [|done|done|by right]. by apply (request_past c (data b) i).
Qed.

Lemma loop_past b c i :
  past c → workers c ≠ [] → rd c = RdLoop → Transport.readFrame (MaxFrameSize cf) (inp c) = inl (data b, i) →
  past (take_job b (put_inp i c)).
Proof.
  intros [P1 P2 P3 P4 P5 P6 P7 P8 P9 P10] Hw Er Hr. split; cbn; try done.
  - destruct P3 as (g & R & Hg). exists g. rewrite app_assoc. split; [by eapply reads_snoc|done].
  - unfold pending in *. cbn. rewrite Er in P8. cbn in P8. rewrite bind_app, <-P8. cbn. rewrite app_nil_r. solve_Permutation.
Qed.

Lemma connStep_history e s c :
  history c → match connStep cf e s c with inl (_, c') => history c' | inr _ => True end.
Proof.
  intros Hh. pose proof Hh as [X1 X2 X3 X4 P]. destruct e as [|okh|hdrOk bodyOk choice nowT cut| | w input cut]; cbn [connStep].
  - destruct (rd c) eqn:Er; try done. 
    assert (∀ r g, r = RdFirst ∨ r = RdHandshake → (TLS cf = true → is_Some (handshakeGate cf) → g = true) →
      history (put_rd r (put_gated g c))) as Hr.
    { intros r g Hr Hin. destruct (X1 eq_refl) as (U1 & U2 & U3 & U4 & U5 & U6 & U7 & U8). destruct P as [P1 P2 P3 P4 P5 P6 P7 P8 P9 P10].
      split; cbn; [done|by destruct Hr as [->| ->]|by destruct Hr as [->| ->]|by intros ? ? _ _; apply Hin|].
      split; try done. unfold pending in *. cbn. rewrite Er in P8. by destruct Hr as [->| ->]. }
    assert (put_gated (gated c) c = c) as Hg by (by destruct c).
    destruct (TLS cf); cbn [negb]; [|rewrite <-Hg; apply Hr; [by left|done]].
    destruct (handshakeGate cf) as [lim|]; [|rewrite <-Hg; apply Hr; [by right|by intros _ []]].
    destruct (gate s <? lim); [|done]. apply Hr; [by right|done].
  - destruct (rd c) eqn:Er; try done. destruct okh; [|apply (closed_history s); [done|by rewrite Er]].
    destruct P as [P1 P2 P3 P4 P5 P6 P7 P8 P9 P10]. split; try done; [by intros; apply X4|]. split; try done. unfold pending in *. cbn. by rewrite Er in P8.
  - destruct (nextFrame cf hdrOk bodyOk choice s c) as [[[s' c'] f]|pn] eqn:En; [|by destruct (rd c)].
    destruct (nextFrame_reads _ _ _ _ _ _ _ _ En) as (_ & _ & i & -> & Hi).
    assert (put_inp (inp c) c = c) as Hc by (by destruct c).
    destruct (rd c) eqn:Er; try done; cbn [and_then]; (destruct f as [|b|b];
      [subst i; rewrite Hc; apply (closed_history s); [done|by rewrite Er]
      |subst i; rewrite Hc; unfold drop, recycle; destruct (Transport.put _ _); [|done]; cbn [and_then]; apply (closed_history s); [done|by rewrite Er]|]).
    + by apply firstFrame_history.
    + split; [done|done|intros _; by apply X3|by intros; apply X4|]. apply loop_past; [done|by apply X3|done|done].
  - destruct (rd c) as [| | | |b|] eqn:Er; try done. destruct (Z.ltb_spec (Z.of_nat (length (jobQ c))) (queueLen cf)) as [Hl|]; [|done].
    destruct P as [P1 P2 P3 P4 P5 P6 P7 P8 P9 P10]. split; try done; [by intros; apply X4|]. split; cbn; try done; [rewrite length_app; cbn; lia|by intros X; destruct (X3 eq_refl)|].
    unfold pending in *. cbn. rewrite Er in P8. rewrite <-P8. cbn. rewrite fmap_app, !bind_app. cbn. solve_Permutation.
  - by apply history_worker.
Qed.

(** ** All connections *)

Lemma close_shared s c : node (close s c).1 = node s ∧ gate (close s c).1 ≤ gate s ∧ stream (close s c).2 = stream c.
Proof. unfold close. destruct (gated c); cbn; split_and!; [done|lia|done|done|lia|done]. Qed.

Definition works (c : conn H) : Prop := ∃ b sp base rq ph, WHandle b sp base rq ph ∈ workers c.

(** What a step of a connection does to the rest: the gate admits up to its limit, the node
    changes only when a hello is accepted or a handler runs. *)
Definition effect (s : shared N) (c : conn H) (s' : shared N) (c' : conn H) : Prop :=
  stream c' = stream c ∧ (gate s' ≤ gate s ∨ ∃ lim, handshakeGate cf = Some lim ∧ gate s' ≤ lim) ∧
  (node s' = node s ∨ authenticated (stream c) ∨ works c).

Lemma effect_mild s c s' c' : stream c' = stream c → gate s' ≤ gate s → node s' = node s → effect s c s' c'.
Proof. intros E1 E2 E3. split; [done|]. split; [by left|by left]. Qed.
Lemma effect_close s c x y s' c' :
  node x = node s → gate x = gate s → stream y = stream c → inl (close x y) = inl (B := panic) (s', c') → effect s c s' c'.
Proof.
  intros E1 E2 E3 E. assert (close x y = (s', c')) as Ec by congruence. pose proof (close_shared x y) as (F1 & F2 & F3).
  rewrite Ec in *. cbn in *. apply effect_mild; [congruence|lia|congruence].
Qed.
Lemma effect_recycle b s c (x : shared N) (k : shared N → (shared N * conn H) + panic) s' c' :
  and_then (recycle b x) k = inl (s', c') →
  (∀ x' : shared N, node x' = node x → gate x' = gate x → k x' = inl (s', c') → effect s c s' c') → effect s c s' c'.
Proof. unfold recycle. destruct (Transport.put _ _) as [q|]; [|done]. cbn [and_then]. intros E X. by eapply X; [..|exact E]. Qed.

Lemma firstFrame_effect now cut b s c i s1 s' c' :
  untouched c → Transport.readFrame (MaxFrameSize cf) (inp c) = inl (data b, i) → node s1 = node s → gate s1 = gate s →
  firstFrame cf now cut b s1 (put_inp i c) = inl (s', c') → effect s c s' c'.
Proof.
  intros Hu Hi Hn Hg. unfold firstFrame, drop. destruct (greet cf (data b)) as [|id|id h|] eqn:Eg.
  - intros E. eapply effect_recycle; [exact E|]. intros x E1 E2. apply effect_close; [congruence|congruence|done].
  - intros E. eapply effect_recycle; [exact E|]. intros x E1 E2. destruct (ack_frame cut id false (put_inp i c)) as (o & e & ->).
    apply effect_close; [congruence|congruence|done].
  - intros E. eapply effect_recycle; [exact E|]. intros x E1 E2. destruct (ack_frame cut id true (put_authed (put_inp i c))) as (o & e & ->).
    assert (authenticated (stream c)) as Ha. { exists (data b), i, id, h. destruct Hu as (_ & _ & _ & _ & X & _). by rewrite <-X. }
    set (x1 := put_node _ x). cbn [werr put_sent]. destruct e; intros Ex.
    + apply (effect_close x1 c) in Ex as (F1 & F2 & _); [|done..]. split; [done|]. cbn in F2. rewrite E2, Hg in F2. split; [done|by right; left].
    + injection Ex as <- <-. split; [done|]. split; [left; cbn; lia|by right; left].
  - intros [= <- <-]. apply effect_mild; [done|lia|done].
Qed.

Lemma worker_effect w input cut s c s' c' : workerStep w input cut s c = inl (s', c') → effect s c s' c'.
Proof.
  unfold workerStep. destruct (workers c !! w) as [[|b|b sp base rq ph|b base resp|b|]|] eqn:Ew;
    try (intros [= <- <-]; by apply effect_mild).
  - intros [= <- <-]. apply effect_mild; [|done|done]. destruct (jobQ c); [by destruct (rd c)|done].
  - destruct (advance input rq ph (node s)) as [[n r]|]; [|done]. intros [= <- <-]. split; [done|]. split; [left; cbn; lia|].
    right. right. exists b, sp, base, rq, ph. by eapply list_elem_of_lookup_2.
  - destruct (send_frame cut (MReply base resp) c) as (o & e & ->). intros [= <- <-]. by apply effect_mild.
  - intros E. eapply effect_recycle; [exact E|]. intros x E1 E2 [= <- <-]. apply effect_mild; [done|cbn; lia|done].
Qed.

Lemma connStep_effect e s c s' c' : history c → connStep cf e s c = inl (s', c') → effect s c s' c'.
Proof.
  intros Hh. destruct e as [|okh|hdrOk bodyOk choice nowT cut| | w input cut]; cbn [connStep]; [..|apply worker_effect].
  - destruct (rd c); try (intros [= <- <-]; by apply effect_mild).
    destruct (TLS cf); cbn [negb]; [|intros [= <- <-]; by apply effect_mild].
    destruct (handshakeGate cf) as [lim|] eqn:Eg; [|intros [= <- <-]; by apply effect_mild].
    destruct (Z.ltb_spec (gate s) lim); intros [= <- <-]; [|by apply effect_mild].
    split; [done|]. split; [|by left]. right. exists lim. split; [done|cbn; lia].
  - destruct (rd c); try (intros [= <- <-]; by apply effect_mild).
    destruct okh; [intros [= <- <-]; by apply effect_mild|]. by apply effect_close.
  - destruct (nextFrame cf hdrOk bodyOk choice s c) as [[[s1 c1] f]|pn] eqn:En; [|destruct (rd c); try done; intros [= <- <-]; by apply effect_mild].
    destruct (nextFrame_reads _ _ _ _ _ _ _ _ En) as (Hn & Hg & i & -> & Hi).
    destruct (rd c) eqn:Er; try (intros [= <- <-]; by apply effect_mild); cbn [and_then]; (destruct f as [|b|b];
      [by apply effect_close|intros E; eapply effect_recycle; [exact E|]; intros x E1 E2; apply effect_close; [congruence|congruence|done]|]).
    + apply firstFrame_effect; [apply (hi_early c Hh); by rewrite Er|done..].
    + intros [= <- <-]. apply effect_mild; [done|lia|done].
  - destruct (rd c); try (intros [= <- <-]; by apply effect_mild). destruct (_ <? queueLen cf); intros [= <- <-]; by apply effect_mild.
Qed.

Record sinv (sv : server N H) : Prop := {
  si_hist : Forall history (conns sv);
  si_gate lim : handshakeGate cf = Some lim → 0 ≤ lim → gate (sh sv) ≤ lim }.

Lemma step_sinv sv e sv' : sinv sv → step cf sv e = inl sv' → sinv sv'.
Proof.
  intros [X1 X2]. destruct e as [str|i e]; cbn [step].
  - intros [= <-]. split; [|done]. cbn. apply Forall_app. split; [done|]. apply Forall_singleton, accept_history.
  - destruct (conns sv !! i) as [c|] eqn:Ei; [|intros [= <-]; by split].
    assert (history c) as Hc by (by eapply Forall_lookup_1 in X1).
    pose proof (connStep_history e (sh sv) c Hc) as Hh. destruct (connStep cf e (sh sv) c) as [[s' c']|] eqn:Es; [|done].
    cbn. intros [= <-]. split; cbn; [by apply Forall_insert|]. intros lim E1 E2.
    destruct (connStep_effect e (sh sv) c s' c' Hc Es) as (_ & [F|(lim' & F1 & F2)] & _); [specialize (X2 lim E1 E2); lia|].
    rewrite E1 in F1. by injection F1 as <-.
Qed.
Lemma run_sinv sv es sv' : sinv sv → run cf sv es = inl sv' → sinv sv'.
Proof.
  revert sv. induction es as [|e es IH]; intros sv X; cbn [run]; [by intros [= <-]|].
  destruct (step cf sv e) as [sv1|] eqn:E; [|done]. cbn. apply IH. by eapply step_sinv.
Qed.
Lemma started_sinv n : sinv (started n).
Proof. by split. Qed.

(** *** Accounts *)
Fixpoint inside_all (cs : list (conn H)) : Z := match cs with [] => 0 | c :: cs => inside c + inside_all cs end.
Record books (sv : server N H) : Prop := {
  bk_bytes : Forall (λ c, is_bytes (stream c)) (conns sv);
  bk_pool : Transport.pool_ok (pool (sh sv));
  bk_caps : Forall (λ b, 0 ≤ Transport.cap (bmem b)) (conns sv ≫= owned);
  bk_own : returned (sh sv) ++ (bid <$> (conns sv ≫= owned)) ≡ₚ seq 0 (borrowed (sh sv));
  bk_gate : gate (sh sv) = inside_all (conns sv) }.

Lemma inside_app l1 l2 : inside_all (l1 ++ l2) = inside_all l1 + inside_all l2.
Proof. induction l1 as [|c l IH]; cbn; [done|]. rewrite IH. lia. Qed.

Lemma reads_bytes str ps i : reads str ps i → is_bytes str → is_bytes i.
Proof.
  induction 1 as [|ps p i i' _ IH Hr]; [done|]. intros Hb. specialize (IH Hb). revert Hr. unfold Transport.readFrame.
  destruct (_ <? 4)%nat; [done|]. destruct (_ && _); [done|]. destruct (_ <? _); [done|]. intros [= _ <-]. by do 2 apply Forall_drop.
Qed.

Lemma step_books sv e : sinv sv → books sv → match e with Accept str => is_bytes str | _ => True end →
  match step cf sv e with inl sv' => books sv' | inr p => p = PHandler end.
Proof.
  intros [X1 _] [B1 B2 B3 B4 B5] Hb. destruct e as [str|i e]; cbn [step].
  - split; cbn; [apply Forall_app; by split; [|apply Forall_singleton]|done|..].
    + rewrite bind_app. cbn. by rewrite app_nil_r.
    + rewrite bind_app. cbn. by rewrite app_nil_r.
    + rewrite inside_app. cbn. lia.
  - destruct (conns sv !! i) as [c|] eqn:Ei; [|by split].
    assert (history c) as Hc by (by eapply Forall_lookup_1 in X1). assert (is_bytes (stream c)) as Hbs by (by eapply Forall_lookup_1 in B1).
    pose proof (connStep_effect e (sh sv) c) as Hef. pose proof Hc as [Y1 Y2 _ _ Yp].
    assert (is_bytes (inp c)) as Hbi. { destruct (pa_reads c Yp) as (g & R & _). by eapply reads_bytes. }
    set (l1 := take i (conns sv)). set (l2 := skipn (S i) (conns sv)).
    assert (conns sv = l1 ++ c :: l2) as El by (symmetry; by apply take_drop_middle).
    assert (length l1 = i) as Hl1. { unfold l1. rewrite length_take. apply lookup_lt_Some in Ei. lia. }
    rewrite El in B1, B3, B4, B5. rewrite bind_app in B3, B4. cbn in B3, B4. rewrite inside_app in B5. cbn in B5.
    rewrite !fmap_app in B4. apply Forall_app in B3 as [B31 [B32 B33]%Forall_app].
    assert (accounts [] ((bid <$> (l1 ≫= owned)) ++ (bid <$> (l2 ≫= owned))) (inside_all l1 + inside_all l2) (sh sv) c) as A.
    { split; [done|done|rewrite <-B4; cbn; solve_Permutation|lia]. }
    pose proof (connStep_accounts e _ _ _ _ Hbi (λ X, proj1 (Y1 X)) Y2 A) as A'.
    destruct (connStep cf e (sh sv) c) as [[s' c']|] eqn:Es; cbn; [|done]. destruct A' as [A1 A2 A3 A4]. cbn in A2, A3.
    destruct (Hef s' c' Hc eq_refl) as (Est & _ & _). rewrite El, insert_app_r_alt, Hl1, Nat.sub_diag by lia. cbn.
    split; cbn; [|done|..].
    + apply Forall_app in B1 as [B11 [B12 B13]%Forall_cons]. apply Forall_app. split; [done|]. apply Forall_cons. by rewrite Est.
    + rewrite bind_app. cbn. apply Forall_app. split; [done|]. by apply Forall_app.
    + rewrite bind_app. cbn. rewrite !fmap_app, <-A3. solve_Permutation.
    + rewrite inside_app. cbn. lia.
Qed.

(** ** Theorems *)

(** The stream opens with a hello that carries the configured token. *)
Definition presentsToken (str : bytes) : Prop :=
  ∃ p rest base h, Transport.readFrame (MaxFrameSize cf) str = inl (p, rest) ∧ UnmarshalBase p = Some base ∧
    T base = MTHello ∧ UnmarshalHello p = Some h ∧ (AuthToken cf = [] ∨ Token h = AuthToken cf).

Lemma authenticated_token str : authenticated str → presentsToken str.
Proof.
  intros (p & i & id & h & Hr & Hg). revert Hg. unfold greet. destruct (UnmarshalBase p) as [base|] eqn:Eb; [|done].
  destruct (Z.eqb_spec (T base) MTHello) as [Et|]; [|by repeat case_match].
  destruct (UnmarshalHello p) as [h'|] eqn:Eh; [|done]. destruct (bool_decide_reflect (AuthToken cf = [])) as [Ea|Ea]; cbn [negb andb].
  - intros [= _ <-]. exists p, i, base, h'. by split_and!; [..|left].
  - destruct (bool_decide_reflect (Token h' = AuthToken cf)) as [Ek|]; cbn [negb]; [|done]. intros [= _ <-].
    exists p, i, base, h'. by split_and!; [..|right].
Qed.
Lemma anonymous_allowed str : anonymous str → AuthToken cf = [] ∧ AllowUnauthenticatedClients cf = true.
Proof.
  intros (p & i & _ & Hg). revert Hg. unfold greet. destruct (UnmarshalBase p) as [base|]; [|done].
  destruct (T base =? MTHello); [by repeat case_match|]. destruct (bool_decide_reflect (AuthToken cf = [])) as [Ea|]; cbn; [|done].
  by destruct (AllowUnauthenticatedClients cf).
Qed.

Lemma run_history n es sv c : run cf (started n) es = inl sv → c ∈ conns sv → history c.
Proof.
  intros Hr Hc. destruct (run_sinv _ _ _ (started_sinv n) Hr) as [X _]. rewrite Forall_forall in X. by apply X.
Qed.

(** Only authenticated peers reach the cluster's own handlers: while a worker runs a lease
    load, gossip or backfill request, or any request when a token is configured or anonymous
    clients are not allowed, its connection opened with a hello that carries the token. *)
Theorem handlers_need_authority n es sv c b sp base rq ph :
  run cf (started n) es = inl sv → c ∈ conns sv → WHandle b sp base rq ph ∈ workers c →
  (peerOnly sp = true ∨ AuthToken cf ≠ [] ∨ AllowUnauthenticatedClients cf = false) → presentsToken (stream c).
Proof.
  intros Hr Hc Hw Hneed. pose proof (hi_past c (run_history n es sv c Hr Hc)) as P. apply authenticated_token, (pa_authed c P).
  pose proof (pa_handle c P _ _ _ _ _ Hw) as Hd. assert (workers c ≠ []) as Hne by (by intros E; rewrite E in Hw; apply elem_of_nil in Hw).
  destruct Hneed as [Hp|Hneed].
  - revert Hd. unfold dispatch. destruct (UnmarshalBase (data b)) as [bb|]; [|done]. cbn. destruct (shapeOf (T bb)) as [sp'|]; [|done]. cbn.
    destruct (authedPeer c); [done|]. cbn. destruct (peerOnly sp') eqn:E; [done|]. cbn. destruct (Unmarshal sp' (data b)); [|done].
    cbn. intros [= -> _ _]. congruence.
  - destruct (pa_served c P Hne) as [?|An]; [done|]. destruct (anonymous_allowed _ An) as [E1 E2]. destruct Hneed; congruence.
Qed.

Definition strangers (sv : server N H) : Prop := ∀ c, c ∈ conns sv → ¬ presentsToken (stream c).
Lemma strangers_step n sv e sv' :
  AuthToken cf ≠ [] → sinv sv → strangers sv → node (sh sv) = n →
  match e with Accept str => ¬ presentsToken str | _ => True end → step cf sv e = inl sv' → strangers sv' ∧ node (sh sv') = n.
Proof.
  intros Ht [X1 _] Hs Hn He. destruct e as [str|i e]; cbn [step].
  - intros [= <-]. split; [|done]. intros c [Hc|Hc%list_elem_of_singleton]%elem_of_app; [by apply Hs|by subst c].
  - destruct (conns sv !! i) as [c|] eqn:Ei; [|intros [= <-]; by split].
    assert (history c) as Hc by (by eapply Forall_lookup_1 in X1). assert (c ∈ conns sv) as Hin by (by eapply list_elem_of_lookup_2).
    destruct (connStep cf e (sh sv) c) as [[s' c']|] eqn:Es; [|done]. cbn. intros [= <-]. cbn.
    destruct (connStep_effect e (sh sv) c s' c' Hc Es) as (E1 & _ & E3). split.
    + intros d [j Hj]%list_elem_of_lookup. apply list_lookup_insert_Some in Hj as [(_ & <- & _)|[_ Hj]].
      * rewrite E1. by apply Hs.
      * eapply Hs. by eapply list_elem_of_lookup_2.
    + destruct E3 as [->|[Ha|(b & sp & base & rq & ph & Hw)]]; [done|by destruct (Hs c Hin); apply authenticated_token|].
      destruct Hc as [_ _ _ _ P]. assert (workers c ≠ []) as Hne by (by intros E; rewrite E in Hw; apply elem_of_nil in Hw).
      destruct (pa_served c P Hne) as [Ha|An].
      * destruct (Hs c Hin). by apply authenticated_token, (pa_authed c P).
      * by destruct (anonymous_allowed _ An).
Qed.

(** C5.  Without the token nothing happens: if a token is configured and no connection presents
    it, then whatever the clients send, the node is exactly as it was, no request is taken, and
    a connection is answered with nothing but one refusal. *)
Theorem strangers_change_nothing n es sv :
  AuthToken cf ≠ [] → (∀ str, Accept str ∈ es → ¬ presentsToken str) → run cf (started n) es = inl sv →
  node (sh sv) = n ∧ ∀ c, c ∈ conns sv → taken c = [] ∧ (sent c = [] ∨ ∃ id, sent c = [MHelloResp (helloAck cf id false)]).
Proof.
  intros Ht Hacc Hr.
  assert (strangers sv ∧ node (sh sv) = n) as [Hs Hn].
  { assert (∀ sv0, sinv sv0 → strangers sv0 → node (sh sv0) = n → run cf sv0 es = inl sv → strangers sv ∧ node (sh sv) = n) as Hgen;
      [|apply (Hgen _ (started_sinv n)); [by intros c ?%elem_of_nil|done|done]].
    clear Hr. induction es as [|e es IH]; intros sv0 X Hs Hn; cbn [run]; [by intros [= <-]|].
    destruct (step cf sv0 e) as [sv1|] eqn:E; [|done]. cbn.
    destruct (strangers_step n sv0 e sv1 Ht X Hs Hn) as [Hs1 Hn1]; [|done|].
    - destruct e; [|done]. apply Hacc. by left.
    - apply IH; [|by eapply step_sinv|done|done]. intros str Hin. apply Hacc. by right. }
  split; [done|]. intros c Hc. pose proof (hi_past c (run_history n es sv c Hr Hc)) as P.
  assert (¬ authenticated (stream c)) as Hna by (intros ?%authenticated_token; by apply (Hs c)).
  assert (workers c = []) as Hw.
  { destruct (workers c) eqn:E; [done|]. destruct (pa_served c P) as [Ha|An]; [by rewrite E|by apply (pa_authed c P) in Ha|by destruct (anonymous_allowed _ An)]. }
  split; [by apply (pa_idle c P)|]. destruct (pa_sent c P Hw) as [?|(id & [] & E & Hok)]; [by left|by destruct Hna; apply Hok|right; by exists id].
Qed.

Lemma run_books sv es : sinv sv → books sv → Forall (λ e, match e with Accept str => is_bytes str | On _ _ => True end) es →
  match run cf sv es with inl sv' => sinv sv' ∧ books sv' | inr p => p = PHandler end.
Proof.
  intros X B Hes. revert sv X B. induction Hes as [|e es He _ IH]; intros sv X B; cbn [run]; [done|].
  pose proof (step_books sv e X B) as Hb. destruct (step cf sv e) as [sv1|] eqn:E; cbn.
  - apply IH; [by eapply step_sinv|]. apply Hb. by destruct e.
  - apply Hb. by destruct e.
Qed.
Lemma started_books n : books (started n).
Proof. split; cbn; [done|apply Transport.newBufPool_ok|done|done|done]. Qed.

Lemma owned_bound c : past c → Z.of_nat (length (owned c)) ≤ 1 + queueLen cf + Z.of_nat (nWorkers cf).
Proof.
  intros P. pose proof (pa_workers c P). pose proof (pa_queue c P). unfold owned. rewrite !length_app.
  assert (length (queued (rd c)) ≤ 1)%nat by (by destruct (rd c); cbn; lia).
  assert (length (workers c ≫= held) ≤ length (workers c))%nat; [|lia].
  induction (workers c) as [| w ws IH]; cbn; [lia|]. rewrite length_app. assert (length (held w) ≤ 1)%nat by (destruct w; cbn; lia).
  cbn in *. lia.
Qed.

(** C20.  Read buffers have exactly one owner: however connections interleave and fail, no buffer is
    resliced beyond its capacity, every buffer taken from the pool is either back or held by
    one reader, queue slot or worker, none is returned twice, and a connection never holds
    more than its queue, its workers and the frame being read. *)
Theorem buffers_have_one_owner n es :
  Forall (λ e, match e with Accept str => is_bytes str | On _ _ => True end) es →
  match run cf (started n) es with
  | inl sv => returned (sh sv) ++ (bid <$> (conns sv ≫= owned)) ≡ₚ seq 0 (borrowed (sh sv)) ∧
      NoDup (returned (sh sv) ++ (bid <$> (conns sv ≫= owned))) ∧
      Forall (λ c, Z.of_nat (length (owned c)) ≤ 1 + queueLen cf + Z.of_nat (nWorkers cf)) (conns sv)
  | inr p => p = PHandler
  end.
Proof.
  intros Hes. pose proof (run_books _ es (started_sinv n) (started_books n) Hes) as X. destruct (run cf (started n) es) as [sv|]; [|done].
  destruct X as [[X1 _] [_ _ _ B4 _]]. split; [done|]. split; [rewrite B4; apply NoDup_seq|].
  eapply Forall_impl; [exact X1|]. intros c Hc. by apply owned_bound, hi_past.
Qed.

Lemma idle_pending c : rd c = RdClosed → jobQ c = [] → Forall (λ w, w = WIdle ∨ w = WExit) (workers c) → pending c = [].
Proof.
  intros E1 E2 Hw. unfold pending. rewrite E1, E2. cbn. induction Hw as [| w ws [->| ->] _ IH]; cbn; done.
Qed.

(** C14.  Every request gets one answer: the frames a connection takes are those of its stream, in
    order, after the hello; the answers sent on it carry the ids and types that distinct
    taken frames asked for; and when a closed connection has drained, exactly those frames are
    answered that decode to a request the connection may make. *)
Theorem requests_answered_once n es sv c :
  run cf (started n) es = inl sv → c ∈ conns sv →
  (∃ fr, reads (stream c) fr (inp c) ∧ (taken c = [] ∨ fr = taken c ∨ ∃ hello, fr = hello :: taken c)) ∧
  (∃ due, (sent c ≫= answer) ++ due ≡ₚ taken c ≫= expected (authedPeer c) ∧
    (rd c = RdClosed → jobQ c = [] → Forall (λ w, w = WIdle ∨ w = WExit) (workers c) → due = [])).
Proof.
  intros Hr Hc. pose proof (hi_past c (run_history n es sv c Hr Hc)) as P. split.
  - destruct (pa_reads c P) as (g & R & Hg). exists (g ++ taken c). split; [done|].
    destruct (decide (workers c = [])) as [Ew|Ew]; [left; by apply (pa_idle c P)|]. right. specialize (Hg Ew).
    destruct g as [|x [|y g]], (authedPeer c); cbn in Hg; try lia; [by left|right; by exists x].
  - exists (pending c). split; [apply (pa_reply c P)|]. apply idle_pending.
Qed.

(** The client can read the answers: while no write has failed, the bytes that left a connection
    are the frames of the encoded messages, in the order they were sent. *)
Theorem output_parses n es sv c maxFrame :
  run cf (started n) es = inl sv → c ∈ conns sv → werr c = false →
  Forall (λ p : bytes, Z.of_nat (length p) < 2 ^ 32 ∧ (maxFrame ≤ 0 ∨ Z.of_nat (length p) ≤ maxFrame)) (omap payload (sent c)) →
  Transport.readFrames (S (length (sent c))) maxFrame (out c) = (omap payload (sent c), Some Transport.ErrEOF).
Proof.
  intros Hr Hc He Hs. destruct (pa_out c (hi_past c (run_history n es sv c Hr Hc))) as (k & tl & Hk & -> & Hx).
  rewrite He in Hx. destruct Hx as [-> ->]. rewrite app_nil_r, (take_ge (sent c)) by done. apply Transport.frames_roundtrip; [done|].
  apply Nat.lt_succ_r. clear. induction (sent c) as [|m ms IH]; cbn; [lia|]. destruct (payload m); cbn; lia.
Qed.

Definition served (c : conn H) : bool := match rd c with RdAccepted | RdClosed => false | _ => true end.
Lemma inside_count (sv : server N H) : Forall history (conns sv) → TLS cf = true → is_Some (handshakeGate cf) →
  Z.of_nat (length (filter (λ c, served c = true) (conns sv))) ≤ inside_all (conns sv).
Proof.
  intros X Ht Hg. induction X as [|c cs Hc _ IH]; cbn [inside_all]; [done|]. rewrite filter_cons.
  assert (served c = true → gated c = true) as Hs.
  { intros Hs. apply (hi_inside c Hc Ht Hg); intros E; by unfold served in Hs; rewrite E in Hs. }
  unfold inside. destruct (decide (served c = true)) as [E|E]; [rewrite (Hs E); cbn [length]; lia|]. destruct (gated c); lia.
Qed.

(** The handshake gate is held for the life of a connection: with TLS and a gate, never more
    connections than the gate's capacity are being served, whatever their handshakes do. *)
Theorem gate_caps_connections n es sv lim :
  Forall (λ e, match e with Accept str => is_bytes str | On _ _ => True end) es →
  TLS cf = true → handshakeGate cf = Some lim → 0 ≤ lim → run cf (started n) es = inl sv →
  Z.of_nat (length (filter (λ c, served c = true) (conns sv))) ≤ lim.
Proof.
  intros Hes Ht Hg Hl Hr. pose proof (run_books _ es (started_sinv n) (started_books n) Hes) as X. rewrite Hr in X.
  destruct X as [[X1 X2] [_ _ _ _ B5]]. specialize (X2 lim Hg Hl). rewrite B5 in X2.
  pose proof (inside_count sv X1 Ht ltac:(by rewrite Hg)). lia.
Qed.

(** A worker serves a request: from an idle worker and a queued frame that decodes to a request
    whose handler answers in one step, five steps of that worker leave the node as the handler
    left it, send the answer under the request's id, return the buffer and free the worker. *)
Theorem worker_serves w input i1 i2 i4 cut i5 s c b q sp base rq n resp p :
  workers c !! w = Some WIdle → jobQ c = b :: q → dispatch (authedPeer c) (data b) = Some (sp, base, rq) →
  advance input rq (start rq) (node s) = Some (n, inr resp) → Transport.put (pool s) (bmem b) = Some p →
  ∃ o e,
    and_then (connStep cf (Work w i1 None) s c) (λ '(s, c),
    and_then (connStep cf (Work w i2 None) s c) (λ '(s, c),
    and_then (connStep cf (Work w input None) s c) (λ '(s, c),
    and_then (connStep cf (Work w i4 cut) s c) (λ '(s, c),
    connStep cf (Work w i5 None) s c)))) =
    inl (MkShared _ n p (gate s) (borrowed s) (returned s ++ [bid b]),
         put_sent (MReply base resp) o e (put_jobs q c)).
Proof.
  intros Hw Hj Hd Ha Hp. assert (w < length (workers c))%nat as Hl by (by eapply lookup_lt_Some).
  assert (∀ x y c0, put_worker w x (put_worker w y c0) = put_worker w x c0) as Htwice.
  { intros x y c0. unfold put_worker, put_workers. cbn. by rewrite list_insert_insert_eq. }
  assert (∀ x c0, (w < length (workers c0))%nat → workers (put_worker w x c0) !! w = Some x) as Hget.
  { intros x c0 Hc0. cbn. by apply list_lookup_insert_eq. }
  destruct (send_frame cut (MReply base resp) (put_worker w (WSend b base resp) (put_jobs q c))) as (o & e & E). exists o, e.
  cbn [connStep]. unfold workerStep at 1. rewrite Hw, Hj. cbn [and_then].
  unfold workerStep at 1. rewrite Hget by done. change (authedPeer (put_worker w (WDecode b) (put_jobs q c))) with (authedPeer c).
  rewrite Hd. cbn [and_then]. rewrite Htwice. unfold workerStep at 1. rewrite Hget by done. rewrite Ha. cbn [and_then]. rewrite Htwice.
  unfold workerStep at 1. rewrite Hget by done. cbn [and_then]. rewrite E.
  unfold workerStep. rewrite Hget by (cbn; by rewrite length_insert).
  unfold recycle. cbn [pool put_node]. rewrite Hp. cbn [and_then]. rewrite Htwice. unfold put_sent, put_worker, put_workers. cbn.
  by rewrite list_insert_insert_eq, list_insert_id.
Qed.
End Conn.

(** ** Nodes whose handlers do not panic *)

(** [good]: the states of a well-behaved node; [fits]: the phases a request's handler can be
    in, which no later state of the node invalidates. *)
Class NodeLaws (N H I : Type) `{NO : NodeOps N H I} := {
  good : N → Prop;
  later : N → N → Prop;
  fits : N → request → H → Prop;
  later_refl n : later n n;
  fits_later n n' rq h : later n n' → fits n rq h → fits n' rq h;
  learn_ok now id addr n : good n → good (learnPeer now id addr n) ∧ later n (learnPeer now id addr n);
  fits_start n rq : fits n rq (start rq);
  advance_ok input rq h n : good n → fits n rq h →
    ∃ n' r, advance input rq h n = Some (n', r) ∧ good n' ∧ later n n' ∧ match r with inl h' => fits n' rq h' | inr _ => True end }.

Section Laws.
Context {N H I : Type} `{W : Wire, NL : NodeLaws N H I} (cf : Config).
Implicit Types (s : shared N) (c : conn H).

Definition fitting (n : N) (w : worker H) : Prop := match w with WHandle _ _ _ rq ph => fits n rq ph | _ => True end.
Definition sound (s : shared N) (c : conn H) : Prop := good (node s) ∧ Forall (fitting (node s)) (workers c).
Definition progress (s s' : shared N) (c' : conn H) : Prop := sound s' c' ∧ later (node s) (node s').

Lemma fitting_later n n' ws : later n n' → Forall (fitting n) ws → Forall (fitting n') ws.
Proof. intros Hl Hf. eapply Forall_impl; [exact Hf|]. intros [] X; try done. by eapply fits_later. Qed.
Lemma progress_same s c s' c' : sound s c → node s' = node s → workers c' = workers c → progress s s' c'.
Proof. intros [X1 X2] E1 E2. split; [split|]; rewrite ?E1, ?E2; [done|done|apply later_refl]. Qed.
Lemma progress_close s c x y : sound s c → node x = node s → workers y = workers c → progress s (close x y).1 (close x y).2.
Proof. intros X E1 E2. eapply progress_same; [exact X|by rewrite (proj1 (close_shared x y))|by destruct y]. Qed.
Lemma progress_worker w x s c s' c' :
  sound s c → node s' = node s → workers c' = <[w := x]> (workers c) → fitting (node s) x → progress s s' c'.
Proof. intros [X1 X2] E1 E2 Hx. split; [split|]; rewrite ?E1, ?E2; [done|by apply Forall_insert|apply later_refl]. Qed.
Lemma progress_serve s c' : good (node s) → workers c' = replicate (nWorkers cf) WIdle → ∀ s0, later (node s0) (node s) → progress s0 s c'.
Proof. intros X E s0 Hl. split; [split; [done|]|done]. rewrite E. by apply Forall_replicate. Qed.

Lemma firstFrame_progress now cut b s s1 c i :
  sound s c → node s1 = node s →
  match firstFrame cf now cut b s1 (put_inp i c) with inl (s', c') => progress s s' c' | inr p => p = PSlice end.
Proof.
  intros X Hn. pose proof X as [X1 X2]. unfold firstFrame, drop, recycle.
  destruct (greet cf (data b)) as [|id|id h|]; [destruct (Transport.put _ _); [cbn [and_then]|done]..|].
  - by eapply (progress_close s c).
  - destruct (ack_frame cf cut id false (put_inp i c)) as (o & e & ->). by eapply (progress_close s c).
  - destruct (ack_frame cf cut id true (put_authed (put_inp i c))) as (o & e & ->). cbn [werr put_sent].
    destruct (learn_ok now (FromID h) (FromAddr h) (node s1)) as [Hg Hl]; [by rewrite Hn|]. destruct e.
    + unfold close. cbn. rewrite Hn in *. destruct (gated c); (split; [split; [done|by eapply fitting_later]|done]).
    + apply progress_serve; [done..|]. cbn. by rewrite Hn in *.
  - apply progress_serve; [by rewrite Hn|done|]. rewrite Hn. apply later_refl.
Qed.
Lemma worker_progress w input cut s c :
  sound s c → match workerStep w input cut s c with inl (s', c') => progress s s' c' | inr p => p = PSlice end.
Proof.
  intros X. pose proof X as [X1 X2]. unfold workerStep.
  destruct (workers c !! w) as [[|b|b sp base rq ph|b base resp|b|]|] eqn:Ew; try (by eapply progress_same).
  - destruct (jobQ c) as [|b q]; [destruct (rd c); try (by eapply progress_same); by eapply (progress_worker w WExit)|].
    by eapply (progress_worker w (WDecode b)).
  - eapply progress_worker; [done..|]. destruct (dispatch (authedPeer c) (data b)) as [[[? ?] ?]|]; [apply fits_start|done].
  - pose proof (Forall_lookup_1 _ _ _ _ X2 Ew) as Hf.
    destruct (advance_ok input rq ph (node s) X1 Hf) as (n' & r & -> & Hg & Hl & Hr). split; [split|]; cbn; [done| |done].
    apply Forall_insert; [by eapply fitting_later|]. by destruct r.
  - destruct (send_frame cut (MReply base resp) c) as (o & e & ->). by eapply (progress_worker w (WRecycle b)).
  - unfold recycle. destruct (Transport.put _ _); [|done]. by eapply (progress_worker w WIdle).
Qed.
Lemma connStep_progress e s c :
  sound s c → match connStep cf e s c with inl (s', c') => progress s s' c' | inr p => p = PSlice end.
Proof.
  intros X. destruct e as [|okh|hdrOk bodyOk choice nowT cut| | w input cut]; cbn [connStep]; [..|by apply worker_progress].
  - destruct (rd c); try (by eapply progress_same). destruct (TLS cf); cbn [negb]; [|by eapply progress_same].
    destruct (handshakeGate cf) as [lim|]; [|by eapply progress_same]. destruct (_ <? lim); by eapply progress_same.
  - destruct (rd c); try (by eapply progress_same). destruct okh; [by eapply progress_same|]. by eapply (progress_close s c).
  - destruct (nextFrame cf hdrOk bodyOk choice s c) as [[[s1 c1] f]|pn] eqn:En.
    2: { assert (pn = PSlice) as ->; [|by destruct (rd c); try (by eapply progress_same)]. revert En. unfold nextFrame, borrow.
         repeat case_match; intros; simplify_eq/=; try done; by repeat case_match; simplify_eq/=. }
    destruct (nextFrame_reads cf _ _ _ _ _ _ _ _ En) as (Hn & _ & i & -> & _).
    destruct (rd c) eqn:Er; try (by eapply progress_same); cbn [and_then]; (destruct f as [|b|b];
      [by eapply (progress_close s c)|unfold drop, recycle; destruct (Transport.put _ _); [cbn [and_then]; by eapply (progress_close s c)|done]|]).
    + by apply firstFrame_progress.
    + by eapply progress_same.
  - destruct (rd c); try (by eapply progress_same). destruct (_ <? queueLen cf); by eapply progress_same.
Qed.

Definition all_sound (sv : server N H) : Prop :=
  good (node (sh sv)) ∧ Forall (λ c, Forall (fitting (node (sh sv))) (workers c)) (conns sv).
Lemma step_progress sv e : all_sound sv → match step cf sv e with inl sv' => all_sound sv' | inr p => p = PSlice end.
Proof.
  intros [Hg Hf]. destruct e as [str|i e]; cbn [step].
  - split; [done|]. cbn. apply Forall_app. split; [done|]. by apply Forall_singleton.
  - destruct (conns sv !! i) as [c|] eqn:Ei; [|done]. pose proof (Forall_lookup_1 _ _ _ _ Hf Ei) as Hfc.
    pose proof (connStep_progress e (sh sv) c (conj Hg Hfc)) as Hs. destruct (connStep cf e (sh sv) c) as [[s' c']|]; cbn; [|done].
    destruct Hs as [[Hg' Hf'] Hl]. split; [done|]. cbn. apply Forall_insert; [|done].
    eapply Forall_impl; [exact Hf|]. intros d. by apply fitting_later.
Qed.

(** The server never stops: with a node whose handlers do not panic, every run succeeds,
    whatever the clients send and however the connections interleave and fail. *)
Theorem server_never_panics n es :
  good n → Forall (λ e, match e with Accept str => is_bytes str | On _ _ => True end) es →
  ∃ sv, run cf (started n) es = inl sv ∧ good (node (sh sv)).
Proof.
  intros Hn Hes.
  assert (∀ sv, sinv cf sv → books sv → all_sound sv → ∃ sv', run cf sv es = inl sv' ∧ good (node (sh sv'))) as Hgen;
    [|apply Hgen; [apply started_sinv|apply started_books|by split]].
  clear Hn. induction Hes as [|e es He _ IH]; intros sv X B Hs; cbn [run]; [exists sv; by split; [|apply Hs]|].
  pose proof (step_books cf sv e X B He) as Hb. pose proof (step_progress sv e Hs) as Hp.
  destruct (step cf sv e) as [sv1|pn] eqn:E; cbn [and_then]; [|congruence]. by apply IH; [eapply step_sinv|..].
Qed.
End Laws.

(** ** Instances *)

(** A codec with one byte per field, and a node that logs its requests. *)
Definition demo_wire : Wire := {|
  UnmarshalBase b := match b with t :: id :: _ => Some (MkBase t id) | _ => None end;
  UnmarshalHello b := match b with t :: id :: tok => Some (MkHello (MkBase t id) [id] [] tok) | _ => None end;
  Unmarshal s b :=
    match s, b with
    | SGet, t :: id :: k => Some (MkBase t id, QGet k)
    | SDigest, [t; id] => Some (MkBase t id, QDigest [] 2)
    | _, _ => None
    end;
  Marshal m := Some match m with MHelloResp r => [MTHelloResp; ID (rBase r); if rOK r then 1 else 0] | MReply base _ => [T base; ID base] end |}.
Definition demo_node : NodeOps (list request) unit unit := {|
  learnPeer _ _ _ n := n; start _ := tt; advance _ rq _ n := Some (n ++ [rq], inr PGossip) |}.
#[local] Existing Instance demo_wire.
#[local] Existing Instance demo_node.
Definition demo_cf : Config := MkConfig [97] [7; 7] false 64 1 1 true (Some 1).

Definition frames_of (ps : list bytes) : bytes := concat (Transport.writeFrame <$> ps).
Definition rd1 (i : nat) : event unit := On i (Read true true None 0 None).
Definition go (i : nat) : event unit := On i (Work 0 tt None).
(** A peer says hello, then asks for a key and a digest, then closes. *)
Definition demo_stream : bytes := frames_of [[1; 5; 7; 7]; [3; 9; 42]; [200; 10]].
Definition demo_opening : list (event unit) := [Accept demo_stream; On 0 EnterGate; On 0 (Handshake true); rd1 0].
Definition demo_session : list (event unit) :=
  demo_opening ++ [rd1 0; On 0 Enqueue; go 0; rd1 0; go 0; On 0 Enqueue; go 0; go 0; go 0; go 0; go 0].
Definition demo_all : list (event unit) := demo_session ++ [go 0; go 0; go 0; rd1 0; go 0].

Lemma byte_events {I : Type} (es : list (event I)) :
  forallb (λ e, match e with Accept str => forallb (λ x, (0 <=? x) && (x <? 256)) str | On _ _ => true end) es = true →
  Forall (λ e, match e with Accept str => is_bytes str | On _ _ => True end) es.
Proof.
  rewrite forallb_forall, Forall_forall. intros X e He%list_elem_of_In. specialize (X e He). destruct e as [str|]; [|done].
  rewrite forallb_forall in X. apply Forall_forall. intros x Hx%list_elem_of_In. specialize (X x Hx). lia.
Qed.
Lemma handlers_need_authority_witness :
  ∃ sv c, run demo_cf (started []) demo_session = inl sv ∧ conns sv = [c] ∧ presentsToken demo_cf (stream c).
Proof.
  destruct (run demo_cf (started []) demo_session) as [sv|] eqn:E; [|vm_compute in E; discriminate E].
  assert (∃ c b sp base rq ph, conns sv = [c] ∧ workers c = [WHandle b sp base rq ph] ∧ peerOnly sp = true)
    as (c & b & sp & base & rq & ph & El & Ew & Ep).
  { vm_compute in E. injection E as <-. do 6 eexists. split; [reflexivity|]. split; reflexivity. }
  exists sv, c. split; [done|]. split; [done|].
  apply (handlers_need_authority demo_cf [] demo_session sv c b sp base rq ph E); [rewrite El; by left|rewrite Ew; by left|by left].
Defined.

(** A client without the token. *)
Definition stranger : list (event unit) :=
  [Accept (frames_of [[1; 5; 8]; [3; 9; 42]]); On 0 EnterGate; On 0 (Handshake true); rd1 0; rd1 0; go 0].
Lemma strangers_change_nothing_witness :
  ∃ sv, run demo_cf (started [QGet [1]]) stranger = inl sv ∧ node (sh sv) = [QGet [1]] ∧
    (sent <$> conns sv) = [[MHelloResp (helloAck demo_cf 5 false)]].
Proof.
  destruct (run demo_cf (started [QGet [1]]) stranger) as [sv|] eqn:E; [|vm_compute in E; discriminate E].
  exists sv. split; [done|]. split; [|vm_compute in E; by injection E as <-].
  apply (strangers_change_nothing demo_cf [QGet [1]] stranger sv); [done| |done].
  intros str Hin (p & rest & base & h & Hr & Hb & Ht & Hh & Hk). unfold stranger in Hin.
  rewrite elem_of_cons in Hin. destruct Hin as [Hin|Hin]; [|exfalso; clear - Hin; set_solver].
  injection Hin as ->. vm_compute in Hr. injection Hr as <- <-. injection Hh as <-. by destruct Hk.
Defined.

Lemma buffers_have_one_owner_witness :
  ∃ sv, run demo_cf (started []) demo_all = inl sv ∧ returned (sh sv) ++ (bid <$> (conns sv ≫= owned)) ≡ₚ seq 0 3.
Proof.
  pose proof (buffers_have_one_owner demo_cf [] demo_all) as X. destruct (run demo_cf (started []) demo_all) as [sv|] eqn:E; [|vm_compute in E; discriminate E].
  exists sv. split; [done|]. destruct X as [X _].
  - by apply byte_events.
  - vm_compute in E. injection E as <-. exact X.
Defined.

Lemma requests_answered_once_witness :
  ∃ sv c, run demo_cf (started []) demo_all = inl sv ∧ conns sv = [c] ∧ (sent c ≫= answer) ≡ₚ [MkBase MTGetResp 9; MkBase MTBackfillDigestResp 10].
Proof.
  destruct (run demo_cf (started []) demo_all) as [sv|] eqn:E; [|vm_compute in E; discriminate E].
  assert (∃ c, conns sv = [c]) as [c El] by (vm_compute in E; injection E as <-; by eexists).
  exists sv, c. split; [done|]. split; [done|].
  destruct (requests_answered_once demo_cf [] demo_all sv c E) as [_ (due & X & Hd)]; [rewrite El; by left|].
  vm_compute in E. injection E as <-. injection El as <-. rewrite Hd in X; [by rewrite app_nil_r in X|done|done|repeat constructor; by right].
Defined.

Lemma gate_caps_connections_witness :
  ∃ sv, run demo_cf (started []) (demo_session ++ [Accept []; On 1 EnterGate]) = inl sv ∧
    Z.of_nat (length (filter (λ c, served c = true) (conns sv))) ≤ 1.
Proof.
  destruct (run demo_cf (started []) (demo_session ++ [Accept []; On 1 EnterGate])) as [sv|] eqn:E; [|vm_compute in E; discriminate E].
  exists sv. split; [done|]. apply (gate_caps_connections demo_cf [] (demo_session ++ [Accept []; On 1 EnterGate]) sv 1); [|done|done|lia|exact E].
  by apply byte_events.
Defined.

Lemma output_parses_witness :
  ∃ sv c, run demo_cf (started []) demo_all = inl sv ∧ conns sv = [c] ∧
    Transport.readFrames 4 64 (out c) = ([[2; 5; 1]; [4; 9]; [201; 10]], Some Transport.ErrEOF).
Proof.
  destruct (run demo_cf (started []) demo_all) as [sv|] eqn:E; [|vm_compute in E; discriminate E].
  assert (∃ c, conns sv = [c]) as [c El] by (vm_compute in E; injection E as <-; by eexists).
  exists sv, c. split; [done|]. split; [done|]. assert (c ∈ conns sv) as Hc by (rewrite El; by left).
  pose proof (output_parses demo_cf [] demo_all sv c 64 E Hc) as X. clear Hc.
  vm_compute in E. injection E as <-. injection El as <-. apply X; [done|]. cbn.
  repeat (apply Forall_cons; split; [split; [cbn; lia|right; cbn; lia]|]). apply Forall_nil_2.
Defined.
End ServeTheorems.
