(* ===== verification/Dispatch.v ===== *)
(** * The node behind the connections ([serveConn] of [src/cluster/node.go] with its handlers)

    The handlers of [Node], [Load], [Gossip] and [Repair] on one node, as the [NodeOps] that
    the connection server calls.  [rpcSet], [rpcSetBulk], [rpcDel], [rpcGetBulk] and
    [rpcLeaseLoad] run here as the code runs them next to each other: a step ends at each
    access to the version table, the clock, the cache or the lease table.  A get, the two
    backfill requests and a gossip message are one step each. *)
From Stdlib Require Import ZArith Lia.
From stdpp Require Import base numbers list gmap sets.
From S2P Require Import Prelude Admission Shard Eviction Cache CacheInv CacheSpec CacheTheorems CacheIface Hlc KeyCodec Rendezvous Lease Membership Node NodeTheorems Client Repair Load Gossip Transport Weights Serve ServeTheorems.
Local Open Scope Z_scope.

Module Dispatch.
Import Hlc KeyCodec Node Serve.

Section Dispatch.
Context {C K V : Type} `{Ops : CacheOps C K V, KC : KeyCodec K, VC : Codec V}.
Context (gzip : bytes → bytes) (gunzip : bytes → option bytes) (sum64 : bytes → Z) (oob : Weights.float64 → Z).
Abbreviation node := (Node C).

(** The node's state; the ring and the hot set of [Node] are views of those of [Gossip].
    [pushed]: the writes handed to the replicator. *)
Record plane := MkPlane {
  nshared : Load.shared (C := C); gossip : Gossip.state; loader : bool; pushed : list Client.write }.
Definition nd (p : plane) : node := Load.nd (nshared p).
Definition put_nd (n : node) (p : plane) : plane := MkPlane (Load.put_nd n (nshared p)) (gossip p) (loader p) (pushed p).
Definition put_gossip (g : Gossip.state) (p : plane) : plane :=
  MkPlane (Load.put_nd (put_ring (Gossip.current_ring g) (put_hot (Gossip.hotSet g) (nd p))) (nshared p)) g (loader p) (pushed p).

(** What a step takes from outside. *)
Record input := MkInput { in_load : Load.input (V := V); in_order : rangeOrder; in_order' : rangeOrder }.
Definition in_env (i : input) : env := Load.i_env (in_load i).

(** Where a handler is. *)
Inductive hphase :=
  | HBegin
  | HSetImport (k : K) (v : V)
  | HSetVersion
  | HSetObserve
  | HDelVersion (k : K)
  | HDelObserve (k : K)
  | HDelApply (k : K)
  | HBulk (rest : list KV) (items : list (@ExportItem K V))
  | HBulkVersion (kv : KV) (rest : list KV) (items : list (@ExportItem K V))
  | HBulkObserve (kv : KV) (rest : list KV) (items : list (@ExportItem K V))
  | HGets (rest : list bytes) (got : list (bool * bytes * Z * bool))
  | HLoad (ph : Load.rphase (K := K) (V := V)).

Definition begin (rq : request) : hphase :=
  match rq with
  | QSetBulk items => HBulk items []
  | QGetBulk keys => HGets keys []
  | QLeaseLoad _ => HLoad Load.RLimit
  | _ => HBegin
  end.

Definition reply (r : response) (p : plane) : option (plane * (hphase + response)) := Some (p, inr r).
Definition goto (h : hphase) (p : plane) : option (plane * (hphase + response)) := Some (p, inl h).

(** [rpcSet]: checks and version test, import, version, clock. *)
Definition set_step (e : env) (s : MsgSet) (h : hphase) (p : plane) : option (plane * (hphase + response)) :=
  let n := nd p in
  match h with
  | HBegin =>
      match set_validate gunzip n s with
      | inr err => reply (PSet (fail err)) p
      | inl (vbytes, k) =>
          if LWWEnabled (cfg n) && (sVer s <? version_of n (sKey s)) then reply (PSet ok) p
          else match Decode vbytes with
               | None => reply (PSet (fail errDecode)) p
               | Some v => goto (HSetImport k v) p
               end
      end
  | HSetImport k v =>
      let p := put_nd (import_one e (set_item s k v) n) p in
      if LWWEnabled (cfg n) then goto HSetVersion p else reply (PSet ok) p
  | HSetVersion => goto HSetObserve (put_nd (put_version (sKey s) (sVer s) n) p)
  | HSetObserve => reply (PSet ok) (put_nd (put_clock (Observe (e_ms e) (sVer s) (clock n)) n) p)
  | _ => None
  end.

(** [rpcDel]: checks and version test, version, clock, delete. *)
Definition del_step (e : env) (d : MsgDel) (h : hphase) (p : plane) : option (plane * (hphase + response)) :=
  let n := nd p in
  match h with
  | HBegin =>
      if too_large (MaxKeySize (cfg n)) (dKey d) then reply (PDel (fail errKeyTooLarge)) p
      else match DecodeKey (dKey d) with
           | inr err => reply (PDel (fail (errKeyCodec err))) p
           | inl k =>
               if LWWEnabled (cfg n)
               then if dVer d <? version_of n (dKey d) then reply (PDel ok) p else goto (HDelVersion k) p
               else goto (HDelApply k) p
           end
  | HDelVersion k => goto (HDelObserve k) (put_nd (put_version (dKey d) (dVer d) n) p)
  | HDelObserve k => goto (HDelApply k) (put_nd (put_clock (Observe (e_ms e) (dVer d) (clock n)) n) p)
  | HDelApply k => let '(c, b) := cdelete (local n) k in reply (PDel (MkResp b None)) (put_nd (put_local c n) p)
  | _ => None
  end.

(** [rpcSetBulk]: per item checks and version test, version, clock; one import at the end. *)
Definition bulk_step (e : env) (h : hphase) (p : plane) : option (plane * (hphase + response)) :=
  let n := nd p in
  let refuse err := reply (PSetBulk (fail err)) p in
  match h with
  | HBulk [] items =>
      reply (PSetBulk ok) (put_nd (put_local (cimport (local n) (e_now e) (e_order e) ((λ it, (it, e_pool e)) <$> items)) n) p)
  | HBulk (kv :: kvs) items =>
      if too_large (MaxKeySize (cfg n)) (kvK kv) then refuse errKeyTooLarge
      else if too_large (MaxValueSize (cfg n)) (kvV kv) then refuse errValueTooLarge
      else match DecodeKey (kvK kv) with
           | inr err => refuse (errKeyCodec err)
           | inl k =>
               match maybeDecompress gunzip (kvV kv) (kvCp kv) with
               | None => refuse errGzip
               | Some vbytes =>
                   if too_large (MaxValueSize (cfg n)) vbytes then refuse errValueTooLarge
                   else match Decode vbytes with
                        | None => refuse errDecode
                        | Some v =>
                            let items' := items ++ [MkItem k v (kvE kv) (kvVer kv)] in
                            if LWWEnabled (cfg n)
                            then if kvVer kv <? version_of n (kvK kv) then goto (HBulk kvs items) p else goto (HBulkVersion kv kvs items') p
                            else goto (HBulk kvs items') p
                        end
               end
           end
  | HBulkVersion kv kvs items => goto (HBulkObserve kv kvs items) (put_nd (put_version (kvK kv) (kvVer kv) n) p)
  | HBulkObserve kv kvs items => goto (HBulk kvs items) (put_nd (put_clock (Observe (e_ms e) (kvVer kv) (clock n)) n) p)
  | _ => None
  end.

Definition gets_resp (got : list (bool * bytes * Z * bool)) : response :=
  PGetBulk (MkGetBulkResp ((λ r, r.1.1.1) <$> got) ((λ r, r.1.1.2) <$> got) ((λ r, r.1.2) <$> got) (snd <$> got)).

(** The dispatch to the handlers. *)
Definition step (i : input) (rq : request) (h : hphase) (p : plane) : option (plane * (hphase + response)) :=
  let e := in_env i in
  match rq, h with
  | QGet key, HBegin => let '(n, r) := rpcGet gzip e key (nd p) in reply (PGet r) (put_nd n p)
  | QGetBulk _, HGets [] got => reply (gets_resp got) p
  | QGetBulk _, HGets (kb :: rest) got => let '(n, r) := getBulk_one gzip e (nd p) kb in goto (HGets rest (got ++ [r])) (put_nd n p)
  | QSet s, _ => set_step e s h p
  | QSetBulk _, _ => bulk_step e h p
  | QDel d, _ => del_step e d h p
  | QLeaseLoad kb, HLoad ph =>
      r ← Load.leaseLoad_step gzip (loader p) (in_load i) kb ph (nshared p);
      let '(s, ph, w) := r in
      let p := MkPlane s (gossip p) (loader p) (pushed p ++ option_list w) in
      match ph with Load.RDone resp => reply (PLeaseLoad resp) p | _ => goto (HLoad ph) p end
  | QGossip g, HBegin =>
      reply PGossip (put_gossip (Gossip.ingestGossip sum64 (Weights.computeWeight oob) (in_order i) (e_now e) (e_now' e) (MirrorTTL (cfg (nd p))) g (gossip p)) p)
  | QDigest target depth, HBegin => reply (PDigest (Repair.rpcBackfillDigest (e_now e) (in_order i) (in_order' i) target depth (nd p))) p
  | QKeys q, HBegin => let '(n, r) := Repair.rpcBackfillKeys gzip e (in_order i) q (nd p) in reply (PKeys r) (put_nd n p)
  | _, _ => None
  end.

Definition learn (now : Z) (id : NodeID) (addr : bytes) (p : plane) : plane :=
  let g := gossip p in
  put_gossip (Gossip.MkState (Membership.ensure sum64 now id addr (Gossip.mem g)) (Gossip.ringRefs g) (Gossip.ringRf g)
                (Gossip.hotSet g) (Gossip.lastRingSig g) (Gossip.lastEpoch g) (Gossip.kick g)) p.

Definition node_ops : NodeOps plane hphase input := {| learnPeer := learn; start := begin; advance := step |}.

(** ** No handler panics *)
Definition leases (p : plane) : Lease.leaseTable := Load.leases (nshared p).
Definition rf (p : plane) : Z := Rendezvous.rf (nring (nd p)).

(** The lease table is consistent, and no replication factor is negative. *)
Definition healthy (p : plane) : Prop := Lease.inv (leases p) ∧ 0 ≤ rf p ∧ 0 ≤ Gossip.ringRf (gossip p).
(** Leases are only added to the store. *)
Definition grown (p p' : plane) : Prop := (length (Lease.store (leases p)) ≤ length (Lease.store (leases p')))%nat.
Definition load_fits (p : plane) (ph : Load.rphase (K := K) (V := V)) : Prop :=
  match ph with Load.RBlocked _ f => (f < length (Lease.store (leases p)))%nat | _ => True end.
Definition phase_of (p : plane) (rq : request) (h : hphase) : Prop :=
  match rq, h with
  | (QGet _ | QGossip _ | QDigest _ _ | QKeys _), HBegin => True
  | QGetBulk _, HGets _ _ => True
  | QSet _, (HBegin | HSetImport _ _ | HSetVersion | HSetObserve) => True
  | QDel _, (HBegin | HDelVersion _ | HDelObserve _ | HDelApply _) => True
  | QSetBulk _, (HBulk _ _ | HBulkVersion _ _ _ | HBulkObserve _ _ _) => True
  | QLeaseLoad _, HLoad ph => load_fits p ph
  | _, _ => False
  end.

(** A step ends in a healthy node, with an answer or a phase of the same request. *)
Definition steps_well (p : plane) (rq : request) (o : option (plane * (hphase + response))) : Prop :=
  ∃ p' r, o = Some (p', r) ∧ healthy p' ∧ grown p p' ∧ match r with inl h => phase_of p' rq h | inr _ => True end.

Lemma healthy_nd n p : healthy p → nring n = nring (nd p) → healthy (put_nd n p) ∧ grown p (put_nd n p).
Proof. intros (H1 & H2 & H3) E. split; [|unfold grown, leases; cbn; lia]. split; [done|]. split; [|done]. unfold rf, nd. cbn. by rewrite E. Qed.
Lemma replies_well n p rq r : healthy p → nring n = nring (nd p) → steps_well p rq (reply r (put_nd n p)).
Proof. intros H E. destruct (healthy_nd n p H E). by eexists _, _. Qed.
Lemma refuses_well p rq r : healthy p → steps_well p rq (reply r p).
Proof. intros H. eexists _, _. split; [done|]. split; [done|]. split; [unfold grown; lia|done]. Qed.
Lemma goes_well n h p rq : healthy p → nring n = nring (nd p) → phase_of (put_nd n p) rq h → steps_well p rq (goto h (put_nd n p)).
Proof. intros H E Hf. destruct (healthy_nd n p H E). by eexists _, _. Qed.
Lemma moves_well h p rq : healthy p → phase_of p rq h → steps_well p rq (goto h p).
Proof. intros H Hf. eexists _, _. split; [done|]. split; [done|]. split; [unfold grown; lia|done]. Qed.

Lemma set_well e s h p : healthy p → phase_of p (QSet s) h → steps_well p (QSet s) (set_step e s h p).
Proof.
  intros Hp Hf. destruct h; try done; cbn [set_step].
  - destruct (set_validate gunzip (nd p) s) as [[vb k]|err]; [|by apply refuses_well].
    destruct (_ && _); [by apply refuses_well|]. destruct (Decode vb); [by apply moves_well|by apply refuses_well].
  - destruct (LWWEnabled _); [by apply goes_well|by apply replies_well].
  - by apply goes_well.
  - by apply replies_well.
Qed.
Lemma del_well e d h p : healthy p → phase_of p (QDel d) h → steps_well p (QDel d) (del_step e d h p).
Proof.
  intros Hp Hf. destruct h; try done; cbn [del_step].
  - destruct (too_large _ _); [by apply refuses_well|]. destruct (DecodeKey (dKey d)) as [k|err]; [|by apply refuses_well].
    destruct (LWWEnabled _); [|by apply moves_well]. destruct (_ <? _); [by apply refuses_well|by apply moves_well].
  - by apply goes_well.
  - by apply goes_well.
  - destruct (cdelete (local (nd p)) k). by apply replies_well.
Qed.
Lemma bulk_well e items0 h p : healthy p → phase_of p (QSetBulk items0) h → steps_well p (QSetBulk items0) (bulk_step e h p).
Proof.
  intros Hp Hf. destruct h as [| | | | | | |[|kv kvs] items|kv kvs items|kv kvs items| |]; try done; cbn [bulk_step];
    [by apply replies_well| |by apply goes_well|by apply goes_well].
  destruct (too_large _ _); [by apply refuses_well|]. destruct (too_large _ _); [by apply refuses_well|].
  destruct (DecodeKey (kvK kv)) as [k|err]; [|by apply refuses_well].
  destruct (maybeDecompress _ _ _) as [vb|]; [|by apply refuses_well]. destruct (too_large _ _); [by apply refuses_well|].
  destruct (Decode vb); [|by apply refuses_well].
  destruct (LWWEnabled _); [|by apply moves_well]. destruct (_ <? _); by apply moves_well.
Qed.

(** One step of a lease load on a consistent table. *)
Lemma lease_step_ok hasLoader i kb (ph : Load.rphase (K := K) (V := V)) (s : Load.shared (C := C)) :
  Lease.inv (Load.leases s) → 0 ≤ Rendezvous.rf (nring (Load.nd s)) →
  match ph with Load.RBlocked _ f => (f < length (Lease.store (Load.leases s)))%nat | _ => True end →
  ∃ s' ph' w, Load.leaseLoad_step gzip hasLoader i kb ph s = Some (s', ph', w) ∧
    Lease.inv (Load.leases s') ∧ (length (Lease.store (Load.leases s)) ≤ length (Lease.store (Load.leases s')))%nat ∧
    nring (Load.nd s') = nring (Load.nd s) ∧
    match ph' with Load.RBlocked _ f => (f < length (Lease.store (Load.leases s')))%nat | _ => True end.
Proof.
  intros Hi Hr Hf.
  assert (∀ e k, nring (Load.nd (Load.local_get e k s).1) = nring (Load.nd s) ∧ Load.leases (Load.local_get e k s).1 = Load.leases s) as Hget.
  { intros e k. unfold Load.local_get. by destruct (cget _ _ _ _). }
  destruct ph as [|k|k|k|k v ttl|k v ver|k lease r|k|k f|k|resp]; cbn [Load.leaseLoad_step].
  - destruct (Load.limiter s) as [l|]; [destruct (Limiter.Allow l) as [l' okl]|]; (do 3 eexists; split_and!; [done|done|done|done|]);
      [destruct okl|]; by try destruct (DecodeKey kb).
  - specialize (Hget (Load.i_env i) k) as [E1 E2]. destruct (Load.local_get _ k _) as [s' r]. cbn in E1, E2.
    do 3 eexists. split_and!; [done|by rewrite E2|by rewrite E2|done|]. destruct r; [done|]. by destruct hasLoader.
  - pose proof (Lease.inv_acquire (e_now (Load.i_env i)) (Load.leases s) kb Hi) as Ha.
    assert (length (Lease.store (Load.leases s)) ≤ length (Lease.store (Lease.acquire (e_now (Load.i_env i)) (Load.leases s) kb).1))%nat as Hla.
    { unfold Lease.acquire. case_match; cbn; [lia|rewrite length_app; lia]. }
    destruct (Lease.acquire _ _ kb) as [t [f acq]] eqn:Ea. cbn in Ha, Hla. do 3 eexists. split_and!; [done..|]. by destruct acq.
  - destruct (Load.i_loader i) as [[v ttl]|err]; by do 3 eexists.
  - assert (∃ owners, Repair.ownersFor (e_now (Load.i_env i)) k (Load.nd s) = Some owners) as [owners ->].
    { unfold Repair.ownersFor, Rendezvous.ownersFromKeyHash, Rendezvous.ownersTopNFromKeyHash. repeat case_match; try (by eexists); zcases. }
    by do 3 eexists.
  - do 3 eexists. split_and!; [done|..]; by destruct (LWWEnabled _).
  - destruct (Lease.step_spec (Load.leases s) (Lease.ERelease kb lease) Hi) as (t & E & Ht & _ & _). cbn in E.
    assert (length (Lease.store (Load.leases s)) ≤ length (Lease.store t))%nat as Hlt.
    { revert E. unfold Lease.release, Lease.finish. cbn. repeat case_match; intros; simplify_eq; cbn; rewrite ?length_insert; lia. }
    rewrite E. by do 3 eexists.
  - destruct (Lease.wait_begin (Load.leases s) kb) as [f|] eqn:Ew; do 3 eexists; (split_and!; [done..|]); [|done].
    by eapply (Lease.inv_dom _ Hi).
  - destruct (lookup_lt_is_Some_2 (Lease.store (Load.leases s)) f Hf) as [fl ->].
    do 3 eexists. split_and!; [done..|]. destruct (Lease.ch fl); [|done]. by destruct (Lease.err fl).
  - specialize (Hget (Load.i_env i) k) as [E1 E2]. destruct (Load.local_get _ k _) as [s' r]. cbn in E1, E2.
    do 3 eexists. split_and!; [done|by rewrite E2|by rewrite E2|done|]. by destruct r.
  - by do 3 eexists.
Qed.
Lemma load_well i kb ph p : healthy p → load_fits p ph → steps_well p (QLeaseLoad kb) (step i (QLeaseLoad kb) (HLoad ph) p).
Proof.
  intros (Hi & Hr & Hg) Hf. destruct (lease_step_ok (loader p) (in_load i) kb ph (nshared p) Hi Hr Hf) as (s' & ph' & w & E & Hi' & Hl & Hn & Hf').
  cbn [step]. rewrite E. cbn [mbind option_bind]. set (p' := MkPlane _ _ _ _). assert (healthy p' ∧ grown p p') as [H1 H2].
  { split; [|done]. split; [done|]. split; [|done]. unfold rf, nd. cbn. by rewrite Hn. }
  destruct ph'; by eexists _, _.
Qed.

Lemma page_items_ring e rows n : nring (Repair.page_items gzip e rows n).1 = nring n.
Proof.
  revert n. induction rows as [|[h k] rows IH]; intros n; cbn [Repair.page_items]; [done|].
  destruct (cgetTTL _ _ _ _) as [c [[v ttl]|]]; [|by rewrite IH]. destruct (maybeCompress _ _ _) as [b2 cp].
  specialize (IH (put_local c n)). by destruct (Repair.page_items gzip e rows (put_local c n)) as [n' kvs].
Qed.
Lemma gossip_well p g : healthy p → Gossip.ringRf g = Gossip.ringRf (gossip p) → healthy (put_gossip g p) ∧ grown p (put_gossip g p).
Proof. intros (H1 & H2 & H3) E. split; [|unfold grown, leases; cbn; lia]. split; [done|]. unfold rf, nd. cbn. by rewrite E. Qed.

Lemma step_well i rq h p : healthy p → phase_of p rq h → steps_well p rq (step i rq h p).
Proof.
  intros Hp Hf. destruct rq as [key|keys|s|items|d|kb|g|target depth|q].
  - destruct h; try done. cbn [step]. unfold rpcGet. repeat case_match; simplify_eq; try (by apply replies_well).
  - destruct h as [| | | | | | | | | |rest got|]; try done. destruct rest as [|kb rest]; cbn [step]; [by apply refuses_well|].
    unfold getBulk_one. repeat case_match; simplify_eq; by apply goes_well.
  - by apply set_well.
  - by apply (bulk_well _ items).
  - by apply del_well.
  - destruct h; try done. by apply load_well.
  - destruct h; try done. cbn [step]. unfold reply, steps_well. eexists _, _. split; [done|].
    apply and_assoc. split; [|done]. apply gossip_well; [done|]. unfold Gossip.ingestGossip. by case_match.
  - destruct h; try done. cbn [step]. by apply refuses_well.
  - destruct h; try done. cbn [step]. unfold Repair.rpcBackfillKeys.
    destruct (_ || _); [by apply replies_well|]. destruct (negb _); [by apply replies_well|].
    set (rows := take _ _). pose proof (page_items_ring (in_env i) rows (nd p)) as E.
    destruct (Repair.page_items gzip (in_env i) rows (nd p)) as [n its]. by apply replies_well.
Qed.

(** The node meets what the server asks of it. *)
#[export] Instance node_laws : @ServeTheorems.NodeLaws plane hphase input node_ops.
Proof.
  refine (ServeTheorems.Build_NodeLaws plane hphase input node_ops healthy grown phase_of _ _ _ _ _).
  - intros n. unfold grown. lia.
  - intros n n' rq h Hl. destruct rq, h; try done. cbn. destruct ph; try done. cbn. unfold grown in Hl. lia.
  - intros now id addr n Hn. by apply gossip_well.
  - intros n rq. by destruct rq.
  - intros i rq h n. apply step_well.
Defined.

(** The server with this node never stops: whatever clients and peers send, and however their
    connections, workers and handlers interleave, no step panics. *)
Theorem node_serves_forever `{W : Wire} cf p es :
  healthy p → Forall (λ e, match e with Accept str => is_bytes str | On _ _ => True end) es →
  ∃ sv, run (NO := node_ops) cf (started p) es = inl sv ∧ healthy (Serve.node (sh sv)).
Proof. intros Hp Hes. exact (ServeTheorems.server_never_panics (NL := node_laws) cf p es Hp Hes). Qed.

(** ** A handler that is not interrupted *)
Fixpoint complete (fuel : nat) (i : input) (rq : request) (h : hphase) (p : plane) : option (plane * response) :=
  match fuel with
  | O => None
  | S fuel =>
      match step i rq h p with
      | Some (p', inl h') => complete fuel i rq h' p'
      | Some (p', inr r) => Some (p', r)
      | None => None
      end
  end.

Lemma put_nd_id p : put_nd (nd p) p = p.
Proof. by destruct p as [[? ? ?] ? ? ?]. Qed.
Lemma put_nd_twice n n' p : put_nd n (put_nd n' p) = put_nd n p.
Proof. done. Qed.

Lemma bulk_complete i kvs0 kvs items p n r fuel :
  setBulk_loop gunzip (in_env i) kvs items (nd p) = (n, r) → (3 * length kvs < fuel)%nat →
  complete fuel i (QSetBulk kvs0) (HBulk kvs items) p =
  Some match r with
       | inr err => (put_nd n p, PSetBulk (fail err))
       | inl its => (put_nd (put_local (cimport (local n) (e_now (in_env i)) (e_order (in_env i)) ((λ it, (it, e_pool (in_env i))) <$> its)) n) p, PSetBulk ok)
       end.
Proof.
  revert items p n r fuel. induction kvs as [|kv kvs IH]; intros items p n r fuel; cbn [setBulk_loop length]; intros E Hf.
  - injection E as <- <-. destruct fuel as [|fuel]; [lia|]. done.
  - destruct fuel as [|fuel]; [lia|]. cbn [complete step bulk_step].
    destruct (too_large (MaxKeySize _) _); [injection E as <- <-; by rewrite put_nd_id|].
    destruct (too_large (MaxValueSize _) (kvV kv)); [injection E as <- <-; by rewrite put_nd_id|].
    destruct (DecodeKey (kvK kv)) as [k|err]; [|injection E as <- <-; by rewrite put_nd_id].
    destruct (maybeDecompress _ _ _) as [vb|]; [|injection E as <- <-; by rewrite put_nd_id].
    destruct (too_large _ vb); [injection E as <- <-; by rewrite put_nd_id|].
    destruct (Decode vb) as [v|]; [|injection E as <- <-; by rewrite put_nd_id]. cbv zeta in E.
    destruct (LWWEnabled (cfg (nd p))) eqn:El; cbn [andb] in E; cbn [goto].
    + destruct (kvVer kv <? version_of (nd p) (kvK kv)); [by apply IH; [|lia]|].
      destruct fuel as [|[|fuel]]; [lia..|]. cbn [complete step bulk_step goto].
      etrans; [apply IH; [exact E|lia]|]. by destruct r.
    + by apply IH; [|lia].
Qed.

Lemma gets_complete i keys0 keys got p fuel :
  (length keys < fuel)%nat →
  complete fuel i (QGetBulk keys0) (HGets keys got) p =
  (let '(n, rs) := getBulk_loop gzip (λ _, in_env i) 0 keys (nd p) in Some (put_nd n p, gets_resp (got ++ rs))).
Proof.
  assert (∀ j keys n, getBulk_loop gzip (λ _, in_env i) j keys n = getBulk_loop gzip (λ _, in_env i) 0 keys n) as Hj.
  { intros j ks. revert j. induction ks as [|k ks IHk]; intros j n; cbn; [done|]. destruct (getBulk_one _ _ _ _). by rewrite IHk, (IHk 1%nat). }
  revert got p fuel. induction keys as [|kb keys IH]; intros got p [|fuel] Hf; cbn in Hf; try lia; cbn [complete step getBulk_loop].
  - cbn [reply]. by rewrite put_nd_id, app_nil_r.
  - destruct (getBulk_one gzip (in_env i) (nd p) kb) as [n r]. cbn [goto]. rewrite IH by lia. cbn [nd put_nd nshared]. rewrite (Hj 1%nat).
    unfold nd, put_nd, Load.put_nd. cbn. destruct (getBulk_loop _ _ 0 keys n) as [n' rs]. by rewrite <-app_assoc.
Qed.

(** The steps of a handler are the handler: run without interruption, the steps into which
    the server cuts a set, a bulk set, a delete and a bulk get end after the given number of
    steps with the node and the answer of [rpcSet], [rpcSetBulk], [rpcDel] and [rpcGetBulk]. *)
Theorem handlers_uninterrupted i p :
  (∀ s, complete 4 i (QSet s) (begin (QSet s)) p =
     Some (put_nd (rpcSet gunzip (in_env i) s (nd p)).1 p, PSet (rpcSet gunzip (in_env i) s (nd p)).2)) ∧
  (∀ d, complete 4 i (QDel d) (begin (QDel d)) p =
     Some (put_nd (rpcDel (in_env i) d (nd p)).1 p, PDel (rpcDel (in_env i) d (nd p)).2)) ∧
  (∀ kvs, complete (3 * length kvs + 1) i (QSetBulk kvs) (begin (QSetBulk kvs)) p =
     Some (put_nd (rpcSetBulk gunzip (in_env i) kvs (nd p)).1 p, PSetBulk (rpcSetBulk gunzip (in_env i) kvs (nd p)).2)) ∧
  (∀ keys, complete (length keys + 1) i (QGetBulk keys) (begin (QGetBulk keys)) p =
     Some (put_nd (rpcGetBulk gzip (λ _, in_env i) keys (nd p)).1 p, PGetBulk (rpcGetBulk gzip (λ _, in_env i) keys (nd p)).2)).
Proof.
  split_and!.
  - intros s. cbn [begin complete step set_step]. unfold rpcSet.
    destruct (set_validate gunzip (nd p) s) as [[vb k]|err]; [|cbn; by rewrite put_nd_id].
    destruct (LWWEnabled (cfg (nd p)) && _) eqn:Ev; [cbn; by rewrite put_nd_id|]. destruct (Decode vb) as [v|]; [|cbn; by rewrite put_nd_id].
    cbn [goto]. cbn [cfg import_one put_local]. destruct (LWWEnabled (cfg (nd p))) eqn:El; cbn [set_step]; by rewrite El.
  - intros d. cbn [begin complete step del_step]. unfold rpcDel. destruct (too_large _ _); [cbn; by rewrite put_nd_id|].
    destruct (DecodeKey (dKey d)) as [k|err]; [|cbn; by rewrite put_nd_id].
    destruct (LWWEnabled (cfg (nd p))); cbn [andb].
    + destruct (dVer d <? version_of (nd p) (dKey d)); [cbn; by rewrite put_nd_id|]. cbn. by destruct (cdelete _ k).
    + cbn. by destruct (cdelete _ k).
  - intros kvs. unfold rpcSetBulk. cbn [begin]. destruct (setBulk_loop gunzip (in_env i) kvs [] (nd p)) as [n r] eqn:E.
    rewrite (bulk_complete i kvs kvs [] p n r) by (done || lia). by destruct r.
  - intros keys. cbn [begin]. rewrite gets_complete by lia. unfold rpcGetBulk. by destruct (getBulk_loop _ _ _ _ _).
Qed.
End Dispatch.

(** ** Instance: byte keys and values; a peer reads a key and asks for a digest *)
#[local] Existing Instance NodeTheorems.demo_keys.
#[local] Existing Instance NodeTheorems.bytes_codec.
#[local] Existing Instance NodeTheorems.bytes_inhabited.
Definition demo_plane : plane (C := InMemoryCache bytes bytes) :=
  MkPlane (Load.MkShared NodeTheorems.demo_node (Lease.newLeaseTable 0) None) (Gossip.newState 2) false [].
Definition demo_ops : NodeOps (plane (C := InMemoryCache bytes bytes)) (hphase (K := bytes) (V := bytes)) input :=
  node_ops (λ b, b) NodeTheorems.no_gzip (hd 0) (λ _, 0).
Definition demo_input : input (V := bytes) := MkInput Load.idle inOrder inOrder.
Definition demo_events : list (event (input (V := bytes))) :=
  let rd := On 0 (Read true true None 0 None) in
  let go := On 0 (Work 0 demo_input None) in
  [Accept ServeTheorems.demo_stream; On 0 EnterGate; On 0 (Handshake true); rd; rd; On 0 Enqueue; go; rd; go; On 0 Enqueue;
   go; go; go; go; go; go; go; go; rd].

Lemma node_serves_forever_witness :
  ∃ sv, run (W := ServeTheorems.demo_wire) (NO := demo_ops) ServeTheorems.demo_cf (started demo_plane) demo_events = inl sv ∧ healthy (Serve.node (sh sv)).
Proof.
  apply (node_serves_forever (W := ServeTheorems.demo_wire) (λ b, b) NodeTheorems.no_gzip (hd 0) (λ _, 0) ServeTheorems.demo_cf demo_plane demo_events).
  - split; [apply Lease.lease_inv_new|]. by split.
  - by apply ServeTheorems.byte_events.
Defined.
Example demo_node_answers :
  match run (W := ServeTheorems.demo_wire) (NO := demo_ops) ServeTheorems.demo_cf (started demo_plane) demo_events with
  | inl sv => (sent <$> conns sv) = [[MHelloResp (helloAck ServeTheorems.demo_cf 5 true);
      MReply (MkBase MTGetResp 9) (PGet (get_err errNotFound)); MReply (MkBase MTBackfillDigestResp 10) (PDigest (Repair.MkDigestResp 2 [] true))]]
  | inr _ => False
  end.
Proof. vm_compute. reflexivity. Qed.
End Dispatch.
