(* ===== verification/Config.v ===== *)
(** * Configuration ([src/cluster/config.go]; [initTLS] and the derived settings of [src/cluster/node.go]
    and [src/cluster/bf_join.go])

    The configuration records with their defaults, the node's id, the TLS settings of both
    sides, the capacity of the handshake gate and the periods of the background loops.  Strings
    are byte lists, durations are nanoseconds.  [xxhash.Sum64String], the loading of key pairs
    and certificate pools, and [GOMAXPROCS] are parameters. *)
From Stdlib Require Import ZArith Lia.
From stdpp Require Import base numbers list gmap.
From S2P Require Import Prelude KeyCodec Rendezvous Handoff Replay Serve.
Local Open Scope Z_scope.

Module Config.
Import KeyCodec.
Abbreviation NodeID := Rendezvous.NodeID.

Definition Millisecond : Z := 1000000.
Definition Second : Z := 1000 * Millisecond.
Definition Minute : Z := 60 * Second.

(** ** Records *)
Record TLSMode := MkTLS {
  Enable : bool; CertFile : bytes; KeyFile : bytes; CAFile : bytes; RequireClientCert : bool;
  MinVersion : Z; PreferServerCipherSuites : bool; CipherSuites : list Z; CurvePreferences : list Z }.

Record Security := MkSec {
  AuthToken : bytes; TLS : TLSMode; MaxFrameSize : Z; MaxKeySize : Z; MaxValueSize : Z;
  ReadTimeout : Z; WriteTimeout : Z; IdleTimeout : Z; MaxInflightPerPeer : Z; CompressionThreshold : Z;
  LeaseLoadQPS : Z; ReadBufSize : Z; WriteBufSize : Z; AllowUnauthenticatedClients : bool; MaxConcurrentHandshakes : Z }.

Record Config := MkConfig {
  ID : NodeID; BindAddr : bytes; PublicURL : bytes; Seeds : list bytes; ReplicationFactor : Z; WriteConcern : Z;
  ReadMaxFanout : Z; ReadHedgeDelay : Z; ReadHedgeInterval : Z; ReadPerTryTimeout : Z; GossipInterval : Z;
  SuspicionAfter : Z; TombstoneAfter : Z; WeightUpdate : Z; HotsetPeriod : Z; HotsetSize : Z; MirrorTTL : Z;
  LeaseTTL : Z; RebalanceInterval : Z; BackfillInterval : Z; RebalanceLimit : Z; Sec : Security; LWWEnabled : bool;
  PerConnWorkers : Z; PerConnQueue : Z; Handoff_ : Replay.HandoffConfig }.

Definition Default : Config :=
  MkConfig [] [] [] [] 2 1 2 (3 * Millisecond) (3 * Millisecond) (200 * Millisecond) (500 * Millisecond)
    (2 * Second) (30 * Second) (1 * Second) (2 * Second) 1024 (30 * Second)
    (300 * Millisecond) (2 * Second) (30 * Second) 500
    (MkSec [] (MkTLS false [] [] [] false 0 true [] []) (Z.shiftl 4 20) (Z.shiftl 128 10) (Z.shiftl 2 20)
       (3 * Second) (3 * Second) (10 * Second) 256 (Z.shiftl 64 10) 0 (Z.shiftl 32 10) (Z.shiftl 32 10) true 0)
    true 64 128
    (Replay.MkHandoffConfig (Some true) false 500000 (Z.shiftl 2 30) 50000 (Z.shiftl 512 20) (10 * Minute) 20000
       Handoff.DropOldest (500000 * 9 / 10) (Z.shiftl 2 30 * 9 / 10)).

(** ** The node's id *)
Definition hexdigit (d : Z) : Z := if d <? 10 then 48 + d else 87 + d.
(** [fmt.Sprintf("%016x", v)]. *)
Definition hex16 (v : Z) : bytes := (λ i, hexdigit (Z.land (Z.shiftr v (60 - 4 * Z.of_nat i)) 15)) <$> seq 0 16.

Definition put_id (i : NodeID) (c : Config) : Config :=
  MkConfig i (BindAddr c) (PublicURL c) (Seeds c) (ReplicationFactor c) (WriteConcern c) (ReadMaxFanout c) (ReadHedgeDelay c)
    (ReadHedgeInterval c) (ReadPerTryTimeout c) (GossipInterval c) (SuspicionAfter c) (TombstoneAfter c) (WeightUpdate c)
    (HotsetPeriod c) (HotsetSize c) (MirrorTTL c) (LeaseTTL c) (RebalanceInterval c) (BackfillInterval c) (RebalanceLimit c)
    (Sec c) (LWWEnabled c) (PerConnWorkers c) (PerConnQueue c) (Handoff_ c).
Definition EnsureID (sum64 : bytes → Z) (c : Config) : Config :=
  if bool_decide (ID c ≠ []) then c else put_id (hex16 (sum64 (PublicURL c))) c.

(** ** TLS *)
Definition VersionTLS13 : Z := 0x0304.
(** The four ECDHE suites of the code, by their registered numbers, and two curves. *)
Definition defaultSuites : list Z := [0xc02b; 0xc02f; 0xcca9; 0xcca8].
Definition X25519 : Z := 29.
Definition CurveP256 : Z := 23.

(** [crypto/tls.Config]; a certificate pool of [None] is the host's set of roots. *)
Record tlsConfig {Cert Pool : Type} := MkTlsConfig {
  Certificates : list Cert; tMinVersion : Z; tPrefer : bool; tSuites : list Z; tCurves : list Z;
  verifyClient : bool; ClientCAs : option Pool; RootCAs : option Pool }.
Arguments tlsConfig : clear implicits.

Section TLS.
Context {Cert Pool : Type} (loadKeyPair : bytes → bytes → option Cert) (readPool : bytes → option Pool).

Definition loadCertPool (p : bytes) : option Pool := if bool_decide (p = []) then None else readPool p.
Definition minVer (t : TLSMode) : Z := if MinVersion t =? 0 then VersionTLS13 else MinVersion t.
Definition suites (t : TLSMode) : list Z :=
  if bool_decide (CipherSuites t ≠ []) then CipherSuites t
  else if minVer t <? VersionTLS13 then defaultSuites else [].
Definition curves (t : TLSMode) : list Z :=
  if bool_decide (CurvePreferences t ≠ []) then CurvePreferences t else [X25519; CurveP256].

(** [initTLS]: the server's configuration, if the key pair loads, and the client's. *)
Definition initTLS (t : TLSMode) : option (tlsConfig Cert Pool) * tlsConfig Cert Pool :=
  let server :=
    match loadKeyPair (CertFile t) (KeyFile t) with
    | Some cert =>
        Some (MkTlsConfig _ _ [cert] (minVer t) (PreferServerCipherSuites t) (suites t) (curves t) (RequireClientCert t)
                (if RequireClientCert t then loadCertPool (CAFile t) else None) None)
    | None => None
    end in
  let certs :=
    if bool_decide (CertFile t ≠ []) && bool_decide (KeyFile t ≠ [])
    then match loadKeyPair (CertFile t) (KeyFile t) with Some cert => [cert] | None => [] end else [] in
  (server, MkTlsConfig _ _ certs (minVer t) false [] [] false None (loadCertPool (CAFile t))).

(** ** The server's settings *)

(** The capacity of the handshake gate that [NewNode] makes; [maxprocs] is [runtime.GOMAXPROCS(0)]. *)
Definition gateCapacity (maxprocs : Z) (s : Security) : option Z :=
  if negb (Enable (TLS s)) then None
  else
    let lim := MaxConcurrentHandshakes s in
    let lim := if lim <? 0 then 0 else if lim =? 0 then (if maxprocs * 32 <? 64 then 64 else maxprocs * 32) else lim in
    if 0 <? lim then Some lim else None.

(** What [serveConn] sees: TLS is used when it is enabled and there is a server configuration. *)
Definition serveConfig (maxprocs : Z) (c : Config) : Serve.Config :=
  let s := Sec c in
  let tlsServerConf := if Enable (TLS s) then (initTLS (TLS s)).1 else None in
  Serve.MkConfig (ID c) (AuthToken s) (AllowUnauthenticatedClients s) (MaxFrameSize s) (PerConnWorkers c) (PerConnQueue c)
    (Enable (TLS s) && bool_decide (is_Some tlsServerConf)) (gateCapacity maxprocs s).
End TLS.

(** ** Periods of the background loops *)

(** [time.NewTicker] panics unless the period is positive. *)
Definition NewTicker (d : Z) : option Z := if 0 <? d then Some d else None.

(** The loops [Start] launches: gossip and weights tick at their configured periods; the
    rebalancer does not run without one; the backfill falls back twice. *)
Definition gossipTicker (c : Config) : option Z := NewTicker (GossipInterval c).
Definition weightTicker (c : Config) : option Z := NewTicker (WeightUpdate c).
Definition rebalancerTicker (c : Config) : option (option Z) :=
  if RebalanceInterval c <=? 0 then Some None else Some <$> NewTicker (RebalanceInterval c).
Definition backfillTicker (c : Config) : option Z :=
  let iv := BackfillInterval c in
  let iv := if iv <=? 0 then (let iv := RebalanceInterval c in if iv <=? 0 then 30 * Second else iv) else iv in
  NewTicker iv.

Definition readyPollInterval (c : Config) : Z :=
  let p := 150 * Millisecond in
  let p := if (0 <? GossipInterval c) && (Z.quot (GossipInterval c) 4 <? p) then Z.quot (GossipInterval c) 4 else p in
  let p := if (0 <? WeightUpdate c) && (Z.quot (WeightUpdate c) 4 <? p) then Z.quot (WeightUpdate c) 4 else p in
  let p := if p <? 100 * Millisecond then 100 * Millisecond else p in
  if 500 * Millisecond <? p then 500 * Millisecond else p.
Definition readyTimeout (c : Config) : Z :=
  let timeout := 3 * Second in
  let timeout := if 0 <? GossipInterval c then let d := i64 (3 * GossipInterval c) in if timeout <? d then d else timeout else timeout in
  if 0 <? WeightUpdate c then let d := i64 (3 * WeightUpdate c) in if timeout <? d then d else timeout else timeout.

(** [backfillLoop]: it waits until a peer is connected, the ring has a second node or the
    deadline has passed, then backfills, and again on each tick and kick. *)
Inductive bphase := BWait (deadline : Z) | BLoop | BStopped.
Inductive bevent :=
  | BCheck (peers ringNodes : nat) (now : Z)   (* one round of the waiting loop *)
  | BTick
  | BKick
  | BStop.
Definition defaultBackfillDepth : Z := 2.
(** The second component: the calls of [backfillOnce(depth, page)]. *)
Definition backfillStep (ph : bphase) (e : bevent) : bphase * list (Z * Z) :=
  match ph, e with
  | BWait deadline, BCheck peers ringNodes now =>
      if (0 <? peers)%nat || (1 <? ringNodes)%nat || (deadline <? now) then (BLoop, [(defaultBackfillDepth, 1024)]) else (ph, [])
  | BLoop, (BTick | BKick) => (BLoop, [(defaultBackfillDepth, 512)])
  | (BWait _ | BLoop), BStop => (BStopped, [])
  | _, _ => (ph, [])
  end.
Definition backfillBegin (c : Config) (now : Z) : bphase := BWait (i64 (now + readyTimeout c)).
Fixpoint backfillRun (ph : bphase) (es : list bevent) : bphase * list (Z * Z) :=
  match es with
  | [] => (ph, [])
  | e :: es => let '(ph, l) := backfillStep ph e in let '(ph, l') := backfillRun ph es in (ph, l ++ l')
  end.

(** ** Theorems *)
Lemma hexdigit_inj a b : 0 ≤ a < 16 → 0 ≤ b < 16 → hexdigit a = hexdigit b → a = b.
Proof. unfold hexdigit. intros. zcases. Qed.
Lemma nibble_range v k : 0 ≤ Z.land (Z.shiftr v k) 15 < 16.
Proof. pose proof (land_bound_r (Z.shiftr v k) 15). lia. Qed.
Lemma hex16_inj v w : is_u64 v → is_u64 w → hex16 v = hex16 w → v = w.
Proof.
  intros Hv Hw E. apply Z.bits_inj'. intros j Hj. destruct (decide (j < 64)) as [Hlt|Hge].
  2: { rewrite !(bounded_bits 64) by (unfold is_u64 in *; lia). done. }
  set (i := Z.to_nat (15 - j / 4)). pose proof (Z.div_mod j 4). pose proof (Z.mod_pos_bound j 4).
  assert (0 ≤ j / 4 ≤ 15) by (split; [apply Z.div_pos; lia|]; pose proof (Z.div_lt_upper_bound j 4 16); lia).
  assert (∀ x, hex16 x !! i = Some (hexdigit (Z.land (Z.shiftr x (60 - 4 * Z.of_nat i)) 15))) as Hl.
  { intros x. etrans; [exact (list_lookup_fmap _ (seq 0 16) i)|]. by rewrite lookup_seq_lt by lia. }
  assert (hex16 v !! i = hex16 w !! i) as Ei by (by rewrite E). rewrite !Hl in Ei. injection Ei as Ei.
  apply hexdigit_inj in Ei; [|apply nibble_range..].
  replace (60 - 4 * Z.of_nat i) with (4 * (j / 4)) in Ei by lia.
  assert (∀ x, Z.testbit (Z.land (Z.shiftr x (4 * (j / 4))) 15) (j mod 4) = Z.testbit x j) as Ht.
  { intros x. rewrite Z.land_spec, Z.shiftr_spec by lia. replace (j mod 4 + 4 * (j / 4)) with j by lia.
    change 15 with (Z.ones 4). rewrite Z.ones_spec_low by lia. apply andb_true_r. }
  by rewrite <-(Ht v), <-(Ht w), Ei.
Qed.
Lemma hex16_digits v : length (hex16 v) = 16%nat ∧ Forall (λ x, 48 ≤ x ≤ 57 ∨ 97 ≤ x ≤ 102) (hex16 v).
Proof.
  split; [unfold hex16; by rewrite length_fmap, length_seq|]. unfold hex16. apply Forall_fmap, Forall_forall. intros i _. cbn.
  pose proof (nibble_range v (60 - 4 * Z.of_nat i)). unfold hexdigit. zcases.
Qed.

(** A node always gets an id: a configured one is kept; otherwise it is sixteen lower-case hex
    digits that two nodes share only if their public URLs have the same 64-bit digest.
    Assigning it twice changes nothing. *)
Theorem node_id_assigned (sum64 : bytes → Z) c c' :
  (∀ b, is_u64 (sum64 b)) →
  ID (EnsureID sum64 c) ≠ [] ∧ EnsureID sum64 (EnsureID sum64 c) = EnsureID sum64 c ∧
  (ID c ≠ [] → ID (EnsureID sum64 c) = ID c) ∧
  (ID c = [] → length (ID (EnsureID sum64 c)) = 16%nat ∧ Forall (λ x, 48 ≤ x ≤ 57 ∨ 97 ≤ x ≤ 102) (ID (EnsureID sum64 c)) ∧
    (ID c' = [] → ID (EnsureID sum64 c) = ID (EnsureID sum64 c') → sum64 (PublicURL c) = sum64 (PublicURL c'))).
Proof.
  intros Hs. assert (ID (EnsureID sum64 c) ≠ []) as Hne.
  { unfold EnsureID. case_bool_decide as E; [done|]. cbn [ID put_id]. intros X. by destruct (hex16_digits (sum64 (PublicURL c))) as [L _]; rewrite X in L. }
  split; [done|]. split; [unfold EnsureID at 1; by rewrite bool_decide_eq_true_2|]. unfold EnsureID.
  split; [intros E; by rewrite bool_decide_eq_true_2|]. intros E. rewrite bool_decide_eq_false_2 by (intros X; by apply X). cbn [ID put_id].
  destruct (hex16_digits (sum64 (PublicURL c))) as [L F]. split; [done|]. split; [done|].
  intros E'. rewrite bool_decide_eq_false_2 by (intros X; by apply X). cbn [ID put_id]. by apply hex16_inj.
Qed.

(** Connections are encrypted exactly when TLS is enabled and the key pair loads: a node whose
    key pair does not load serves in plaintext. *)
Theorem tls_used_iff_key_pair_loads {Cert Pool : Type} (load : bytes → bytes → option Cert) (readPool : bytes → option Pool) maxprocs c :
  Serve.TLS (serveConfig load readPool maxprocs c) = true ↔
  Enable (TLS (Sec c)) = true ∧ is_Some (load (CertFile (TLS (Sec c))) (KeyFile (TLS (Sec c)))).
Proof.
  unfold serveConfig. cbn. destruct (Enable (TLS (Sec c))); cbn [andb]; [|naive_solver].
  rewrite bool_decide_eq_true. unfold initTLS. cbn. destruct (load _ _); cbn; unfold is_Some; naive_solver.
Qed.

Lemma poll_bounds c : 100 * Millisecond ≤ readyPollInterval c ≤ 150 * Millisecond.
Proof. unfold readyPollInterval, Millisecond. cbv zeta. zcases; cbn [andb]; zcases. Qed.

Lemma timeout_bound c : 3 * Second ≤ readyTimeout c.
Proof. unfold readyTimeout. cbv zeta. zcases. Qed.

Definition checks (t0 poll : Z) (j : nat) (ps : list (nat * nat)) : list bevent :=
  imap (λ k p, BCheck p.1 p.2 (t0 + Z.of_nat (j + k) * poll)) ps.
Lemma looping_ignores t0 poll j ps : backfillRun BLoop (checks t0 poll j ps) = (BLoop, []).
Proof.
  revert j. induction ps as [|p ps IH]; intros j; cbn; [done|].
  rewrite (imap_ext _ (λ k p, BCheck p.1 p.2 (t0 + Z.of_nat (S j + k) * poll))) by (intros i q _; cbn; do 2 f_equal; lia).
  specialize (IH (S j)). unfold checks in IH. by rewrite IH.
Qed.
Lemma waiting_ends deadline t0 poll j ps :
  deadline < t0 + (Z.of_nat j + Z.of_nat (length ps) - 1) * poll → (0 < length ps)%nat →
  backfillRun (BWait deadline) (checks t0 poll j ps) = (BLoop, [(defaultBackfillDepth, 1024)]).
Proof.
  revert j. induction ps as [|p ps IH]; intros j Hd Hl; [cbn in Hl; lia|].
  assert (checks t0 poll j (p :: ps) = BCheck p.1 p.2 (t0 + Z.of_nat j * poll) :: checks t0 poll (S j) ps) as ->.
  { unfold checks. cbn. rewrite Nat.add_0_r. f_equal. apply imap_ext. intros i q _. cbn. do 2 f_equal. lia. }
  cbn [backfillRun backfillStep]. destruct (_ || _) eqn:E; [by rewrite looping_ignores|].
  apply orb_false_iff in E as [_ E]. apply Z.ltb_ge in E. destruct ps as [|q ps]; [cbn [length] in Hd; lia|].
  rewrite IH; [done| |cbn; lia]. cbn [length] in *. lia.
Qed.

(** The first backfill is never skipped or delayed: checked at each poll, the wait ends after
    at most the ready timeout, with exactly one full backfill, however long the node stays
    alone; and the poll period is between 100 and 150 milliseconds. *)
Theorem first_backfill_in_time c t0 ps :
  - 2 ^ 63 ≤ t0 + readyTimeout c < 2 ^ 63 → readyTimeout c < (Z.of_nat (length ps) - 1) * readyPollInterval c →
  backfillRun (backfillBegin c t0) (checks t0 (readyPollInterval c) 0 ps) = (BLoop, [(defaultBackfillDepth, 1024)]) ∧
  100 * Millisecond ≤ readyPollInterval c ≤ 150 * Millisecond.
Proof.
  intros Hr Hl. pose proof (poll_bounds c) as Hp. pose proof (timeout_bound c) as Ht. split; [|done]. unfold backfillBegin. rewrite i64_id by done.
  assert (0 < length ps)%nat by (destruct ps; cbn [length] in *; [unfold Second, Millisecond in *; lia|lia]).
  apply waiting_ends; [cbn; lia|done].
Qed.

(** ** Instances *)
Lemma node_id_assigned_witness : ID (EnsureID (λ _, 0xab) Default) = [48; 48; 48; 48; 48; 48; 48; 48; 48; 48; 48; 48; 48; 48; 97; 98] ∧
  EnsureID (λ _, 0xab) (EnsureID (λ _, 0xab) Default) = EnsureID (λ _, 0xab) Default.
Proof. split; [vm_compute; reflexivity|]. apply (node_id_assigned (λ _, 0xab) Default Default). intros _. split; done. Defined.

Lemma first_backfill_in_time_witness :
  backfillRun (backfillBegin Default 0) (checks 0 (readyPollInterval Default) 0 (replicate 26 (0, 1)%nat)) = (BLoop, [(2, 1024)]).
Proof. apply (first_backfill_in_time Default 0 (replicate 26 (0, 1)%nat)); vm_compute; done. Defined.

(** Every ticker of the default configuration has a positive period. *)
Example default_tickers :
  gossipTicker Default = Some (500 * Millisecond) ∧ weightTicker Default = Some Second ∧
  rebalancerTicker Default = Some (Some (2 * Second)) ∧ backfillTicker Default = Some (30 * Second).
Proof. done. Qed.
End Config.
