(* ===== verification/Peers.v ===== *)
(** * Outbound connections ([ensurePeer], [ensureSeed], [resetPeer], [closePeers], [getPeer] of
    [src/cluster/node.go]; [dialPeer], [hello] and [close] of [src/cluster/transport.go])

    The table of connections to peers, filled and emptied by tasks that run concurrently: the
    weight loop and hint replay dial peers, the start dials seeds, failed requests reset a
    peer, a broken read loop closes its connection, stopping closes all.  A task advances in the
    code's critical sections; the table is guarded by a lock that [resetPeer] and [closePeers]
    hold while they close.  Closing tests the channel [closed] and then closes it, in two
    steps; closing it twice is a panic, [None].  The outcome of dialing, the id that the other
    side announces, is an input. *)
From Stdlib Require Import ZArith Lia.
From stdpp Require Import base numbers list gmap sets.
From S2P Require Import Prelude KeyCodec Rendezvous Membership Transport Serve ServeTheorems.
Local Open Scope Z_scope.

Module Peers.
Import KeyCodec.
Abbreviation NodeID := Rendezvous.NodeID.

(** ** The client's side of the hello *)
Inductive helloErr := HMarshal | HFrame (e : Transport.frameErr) | HDecode | HBadResp | HRefused (why : bytes).

(** The client's codec of the handshake. *)
Class HelloWire := {
  MarshalHello : Serve.MsgHello → option bytes;
  UnmarshalHelloResp : bytes → option Serve.MsgHelloResp }.

Section Hello.
Context `{W : Serve.Wire, HW : HelloWire}.

Definition helloMsg (now : Z) (selfID : NodeID) (selfAddr token : bytes) : Serve.MsgHello :=
  Serve.MkHello (Serve.MkBase Serve.MTHello (u64 now)) selfID selfAddr token.
Definition helloSend (now : Z) (selfID : NodeID) (selfAddr token : bytes) : bytes + helloErr :=
  match MarshalHello (helloMsg now selfID selfAddr token) with
  | Some raw => inl (Transport.writeFrame raw)
  | None => inr HMarshal
  end.
(** The answer, read from what the connection delivers: the peer's id. *)
Definition helloReceive (maxFrame : Z) (stream : bytes) : NodeID + helloErr :=
  match Transport.readFrame maxFrame stream with
  | inr e => inr (HFrame e)
  | inl (raw, _) =>
      match Serve.UnmarshalBase raw with
      | None => inr HDecode
      | Some base =>
          if negb (Serve.T base =? Serve.MTHelloResp) then inr HBadResp
          else match UnmarshalHelloResp raw with
               | None => inr HDecode
               | Some hr =>
                   if Serve.rOK hr then inl (Serve.PeerID hr)
                   else inr (HRefused (if bool_decide (Serve.rErr hr = []) then Serve.errUnauthorized else Serve.rErr hr))
               end
      end
  end.
(** [dialPeer] once the socket is connected or not: the id of the peer, which the connection is
    filed under; a failed hello closes the socket.  [stream]: what the other side sends. *)
Definition dialPeer (connects : bool) (now : Z) (selfID : NodeID) (selfAddr token : bytes) (maxFrame : Z) (stream : bytes) : option NodeID :=
  if negb connects then None
  else match helloSend now selfID selfAddr token with
       | inr _ => None
       | inl _ => match helloReceive maxFrame stream with inl id => Some id | inr _ => None end
       end.
End Hello.

(** ** The table *)

(** [up]: the socket is open; [closedCh]: the channel [closed] is closed. *)
Record link := MkLink { peerID : NodeID; addr : bytes; up : bool; closedCh : bool }.

Inductive finish := FDelete (id : NodeID) | FClear.
(** What follows a close: a return, or, under the lock, more closing and the table's update. *)
Inductive after := AReturn (r : option nat) | ALocked (rest : list nat) (f : finish).

Inductive task :=
  | EnsureRead (id : NodeID)
  | EnsureAddr (id : NodeID)
  | Dial (expect : option NodeID) (a : bytes)
  | CheckID (expect : option NodeID) (l : nat)
  | Store (id : NodeID) (l : nat)
  | ResetLock (id : NodeID)
  | StopLock
  | CloseTest (l : nat) (k : after)
  | CloseNow (l : nat) (k : after)
  | Done (r : option nat).

(** [lost]: connections that a later one replaced in the table. *)
Record state := MkState {
  links : list link; table : gmap NodeID nat; mem : Membership.membership; locked : bool;
  tasks : list task; lost : list nat }.

Definition put_links (ls : list link) (s : state) : state := MkState ls (table s) (mem s) (locked s) (tasks s) (lost s).
Definition put_table (t : gmap NodeID nat) (s : state) : state := MkState (links s) t (mem s) (locked s) (tasks s) (lost s).
Definition put_mem (m : Membership.membership) (s : state) : state := MkState (links s) (table s) m (locked s) (tasks s) (lost s).
Definition put_lock (b : bool) (s : state) : state := MkState (links s) (table s) (mem s) b (tasks s) (lost s).
Definition put_task (i : nat) (t : task) (s : state) : state := MkState (links s) (table s) (mem s) (locked s) (<[i := t]> (tasks s)) (lost s).
Definition add_lost (o : option nat) (s : state) : state := MkState (links s) (table s) (mem s) (locked s) (tasks s) (lost s ++ option_list o).

Definition getPeer (id : NodeID) (s : state) : option nat := table s !! id.
Definition peerIDs (o : rangeOrder) (s : state) : list NodeID := (range o (map_to_list (table s))).*1.

(** After a close: the next connection to close, or the update of the table and the unlock. *)
Definition continue (k : after) (s : state) : state * task :=
  match k with
  | AReturn r => (s, Done r)
  | ALocked (l :: rest) f => (s, CloseTest l (ALocked rest f))
  | ALocked [] (FDelete id) => (put_lock false (put_table (delete id (table s)) s), Done None)
  | ALocked [] FClear => (put_lock false (put_table ∅ s), Done None)
  end.

Section Steps.
Context (sum64 : bytes → Z).

(** One step of a task.  [dialed]: the id the peer announced, or a failure. *)
Definition taskStep (now : Z) (o : rangeOrder) (dialed : option NodeID) (t : task) (s : state) : option (state * task) :=
  match t with
  | EnsureRead id =>
      if locked s then Some (s, t)
      else match getPeer id s with Some l => Some (s, Done (Some l)) | None => Some (s, EnsureAddr id) end
  | EnsureAddr id =>
      match Membership.peers (mem s) !! id with
      | None => Some (s, Done None)
      | Some p =>
          let a := Rendezvous.Addr (Membership.deref (mem s) p) in
          Some (s, if bool_decide (a = []) then Done None else Dial (Some id) a)
      end
  | Dial expect a =>
      match dialed with
      | None => Some (s, Done None)
      | Some pid => Some (put_links (links s ++ [MkLink pid a true false]) s, CheckID expect (length (links s)))
      end
  | CheckID expect l =>
      match links s !! l with
      | None => Some (s, Done None)
      | Some lk =>
          match expect with
          | Some id => Some (s, if bool_decide (peerID lk = id) then Store id l else CloseTest l (AReturn None))
          | None => Some (put_mem (Membership.ensure sum64 now (peerID lk) (addr lk) (mem s)) s, Store (peerID lk) l)
          end
      end
  | Store id l =>
      if locked s then Some (s, t)
      else Some (put_table (<[id := l]> (table s)) (add_lost (table s !! id) s), Done (Some l))
  | ResetLock id =>
      if locked s then Some (s, t)
      else match table s !! id with
           | Some l => Some (put_lock true s, CloseTest l (ALocked [] (FDelete id)))
           | None => Some (s, Done None)
           end
  | StopLock =>
      if locked s then Some (s, t) else Some (continue (ALocked (range o (map_to_list (table s))).*2 FClear) (put_lock true s))
  | CloseTest l k =>
      match links s !! l with
      | None => Some (s, Done None)
      | Some lk =>
          let s := put_links (<[l := MkLink (peerID lk) (addr lk) false (closedCh lk)]> (links s)) s in
          Some (if closedCh lk then continue k s else (s, CloseNow l k))
      end
  | CloseNow l k =>
      match links s !! l with
      | None => Some (s, Done None)
      | Some lk => if closedCh lk then None else Some (continue k (put_links (<[l := MkLink (peerID lk) (addr lk) (up lk) true]> (links s)) s))
      end
  | Done r => Some (s, Done r)
  end.

Inductive event :=
  | EnsurePeer (id : NodeID)
  | EnsureSeed (a : bytes)
  | ResetPeer (id : NodeID)
  | ClosePeers
  | LinkFails (l : nat)        (* the read loop calls [failAll] *)
  | Run (i : nat) (now : Z) (o : rangeOrder) (dialed : option NodeID).

Definition spawn (t : task) (s : state) : state := MkState (links s) (table s) (mem s) (locked s) (tasks s ++ [t]) (lost s).

Definition step (s : state) (e : event) : option state :=
  match e with
  | EnsurePeer id => Some (spawn (EnsureRead id) s)
  | EnsureSeed a => Some (spawn (Dial None a) s)
  | ResetPeer id => Some (spawn (ResetLock id) s)
  | ClosePeers => Some (spawn StopLock s)
  | LinkFails l => if (l <? length (links s))%nat then Some (spawn (CloseTest l (AReturn None)) s) else Some s
  | Run i now o dialed =>
      match tasks s !! i with
      | None => Some s
      | Some t => r ← taskStep now o dialed t s; Some (put_task i r.2 r.1)
      end
  end.
Fixpoint run (s : state) (es : list event) : option state :=
  match es with [] => Some s | e :: es => s ← step s e; run s es end.

Definition fresh (m : Membership.membership) : state := MkState [] ∅ m false [] [].

(** ** Invariant *)
Definition down (s : state) (l : nat) : Prop := ∃ lk, links s !! l = Some lk ∧ up lk = false.
Definition names (s : state) (l : nat) (id : NodeID) : Prop := ∃ lk, links s !! l = Some lk ∧ peerID lk = id.
Definition holds (t : task) : list nat :=
  match t with CheckID _ l | Store _ l | CloseTest l (AReturn _) => [l] | _ => [] end.
Definition in_lock (t : task) : bool :=
  match t with CloseTest _ (ALocked _ _) | CloseNow _ (ALocked _ _) => true | _ => false end.

(** What a task under the lock still has to close covers the table's update. *)
Definition after_ok (s : state) (l : nat) (k : after) : Prop :=
  match k with
  | AReturn _ => True
  | ALocked rest (FDelete id) => rest = [] ∧ table s !! id = Some l
  | ALocked rest FClear => Forall (λ x, (x < length (links s))%nat) rest ∧ ∀ id l', table s !! id = Some l' → down s l' ∨ l' = l ∨ l' ∈ rest
  end.
Definition task_ok (s : state) (t : task) : Prop :=
  match t with
  | CheckID _ l => (l < length (links s))%nat
  | Store id l => names s l id
  | CloseTest l k => (l < length (links s))%nat ∧ after_ok s l k
  | CloseNow l k => down s l ∧ after_ok s l k
  | _ => True
  end.
Record inv (s : state) : Prop := {
  in_table id l : table s !! id = Some l → names s l id;
  in_tasks i t : tasks s !! i = Some t → task_ok s t;
  in_locked i t : tasks s !! i = Some t → in_lock t = true → locked s = true;
  in_single i j t t' : tasks s !! i = Some t → tasks s !! j = Some t' → in_lock t = true → in_lock t' = true → i = j;
  in_open l lk : links s !! l = Some lk → up lk = true →
    (∃ id, table s !! id = Some l) ∨ (∃ i t, tasks s !! i = Some t ∧ l ∈ holds t) ∨ l ∈ lost s }.

(** Links keep their peers, and never come up again. *)
Definition links_le (ls ls' : list link) : Prop :=
  ∀ l lk, ls !! l = Some lk → ∃ lk', ls' !! l = Some lk' ∧ peerID lk' = peerID lk ∧ (up lk = false → up lk' = false).
Lemma links_refl ls : links_le ls ls.
Proof. intros l lk E. by exists lk. Qed.
Lemma links_app ls x : links_le ls (ls ++ x).
Proof. intros l lk E. exists lk. split; [by apply lookup_app_l_Some|done]. Qed.
Lemma links_insert ls l lk lk' : ls !! l = Some lk → peerID lk' = peerID lk → (up lk = false → up lk' = false) → links_le ls (<[l := lk']> ls).
Proof.
  intros E E1 E2 j x Hj. destruct (decide (j = l)) as [->|Hne].
  - exists lk'. rewrite list_lookup_insert_eq by (by eapply lookup_lt_Some). by simplify_eq.
  - exists x. by rewrite list_lookup_insert_ne.
Qed.
Lemma links_length ls ls' l : links_le ls ls' → (l < length ls)%nat → (l < length ls')%nat.
Proof. intros Hle [lk E]%lookup_lt_is_Some_2. destruct (Hle l lk E) as (lk' & E' & _). by eapply lookup_lt_Some. Qed.

Lemma names_mono s s' l id : links_le (links s) (links s') → names s l id → names s' l id.
Proof. intros Hle (lk & E & <-). destruct (Hle l lk E) as (lk' & E' & Hp & _). by exists lk'. Qed.
Lemma down_mono s s' l : links_le (links s) (links s') → down s l → down s' l.
Proof. intros Hle (lk & E & Hu). destruct (Hle l lk E) as (lk' & E' & _ & X). exists lk'. auto. Qed.
Lemma after_mono s s' l k : links_le (links s) (links s') → table s' = table s → after_ok s l k → after_ok s' l k.
Proof.
  intros Hle Et. destruct k as [r|rest [id|]]; cbn; rewrite ?Et; [done|done|]. intros [F X]. split.
  - eapply Forall_impl; [exact F|]. intros x. by apply links_length.
  - intros id l' E. destruct (X id l' E) as [Hd|?]; [left; by eapply down_mono|by right].
Qed.
Lemma task_mono s s' t : links_le (links s) (links s') → table s' = table s ∨ in_lock t = false → task_ok s t → task_ok s' t.
Proof.
  intros Hle Ht. destruct t as [| | |e l|id l| | |l k|l k|]; cbn; try done.
  - by apply links_length.
  - by apply names_mono.
  - intros [X1 X2]. split; [by eapply links_length|]. destruct Ht as [Ht|Ht]; [by eapply after_mono|by destruct k].
  - intros [X1 X2]. split; [by eapply down_mono|]. destruct Ht as [Ht|Ht]; [by eapply after_mono|by destruct k].
Qed.

(** A task's step keeps the invariant if it respects the lock and the accounts. *)
Lemma inv_run i t t' s s' :
  inv s → tasks s !! i = Some t → tasks s' = tasks s → links_le (links s) (links s') →
  (∀ id l, table s' !! id = Some l → names s' l id) → task_ok s' t' →
  (table s' = table s ∨ locked s = false ∨ in_lock t = true) →
  (in_lock t' = true → locked s' = true ∧ (in_lock t = true ∨ locked s = false)) →
  (locked s' = false → locked s = false ∨ in_lock t = true) →
  (∀ l lk, links s' !! l = Some lk → up lk = true →
     (∃ id, table s' !! id = Some l) ∨ l ∈ holds t' ∨ l ∈ lost s' ∨
     (∃ lk0, links s !! l = Some lk0 ∧ up lk0 = true ∧ l ∉ holds t ∧ (∀ id, table s !! id ≠ Some l) ∧ l ∉ lost s)) →
  inv (put_task i t' s').
Proof.
  intros [I1 I2 I3 I4 I5] Hi Et Hle Htab Hok Hc Hd He Hf.
  assert (∀ j u, tasks s !! j = Some u → in_lock u = true → locked s = false ∨ in_lock t = true → j = i) as Hone.
  { intros j u Hj Hu [Hl|Hl]; [by rewrite (I3 j u Hj Hu) in Hl|by eapply I4]. }
  split; cbn [table tasks locked links put_task]; rewrite ?Et.
  - exact Htab.
  - intros j u [(<- & <- & _)|[Hne Hj]]%list_lookup_insert_Some; [done|]. change (task_ok s' u). eapply task_mono; [done| |by eapply I2].
    destruct Hc as [?|Hc]; [by left|right]. destruct (in_lock u) eqn:Eu; [|done]. by destruct Hne; symmetry; eapply Hone.
  - intros j u [(<- & <- & _)|[Hne Hj]]%list_lookup_insert_Some Hu; [by apply Hd|].
    destruct (locked s') eqn:El; [done|]. by destruct Hne; symmetry; eapply Hone; [..|apply He].
  - intros j j' u u' [(<- & <- & _)|[Hne Hj]]%list_lookup_insert_Some [(<- & <- & _)|[Hne' Hj']]%list_lookup_insert_Some Hu Hu'; [done|..].
    + symmetry. eapply Hone; [done|done|]. destruct (Hd Hu) as [_ [?|?]]; auto.
    + eapply Hone; [done|done|]. destruct (Hd Hu') as [_ [?|?]]; auto.
    + by eapply I4.
  - intros l lk Hl Hu. assert (i < length (tasks s))%nat as Hlt by (by eapply lookup_lt_Some).
    destruct (Hf l lk Hl Hu) as [?|[Hh|[?|(lk0 & E & Hu0 & Hn1 & Hn2 & Hn3)]]]; [by left| |by right; right|].
    + right. left. exists i, t'. by rewrite list_lookup_insert_eq.
    + destruct (I5 l lk0 E Hu0) as [[id X]|[(j & u & Hj & Hin)|?]]; [by destruct (Hn2 id)| |done].
      right. left. exists j, u. rewrite list_lookup_insert_ne; [done|]. intros <-. by simplify_eq.
Qed.

(** The owner of an open link does not change when nothing about it changes. *)
Lemma kept_open s l lk t : inv s → links s !! l = Some lk → up lk = true → l ∉ holds t →
  (∃ id, table s !! id = Some l) ∨ l ∈ lost s ∨
  (∃ lk0, links s !! l = Some lk0 ∧ up lk0 = true ∧ l ∉ holds t ∧ (∀ id, table s !! id ≠ Some l) ∧ l ∉ lost s).
Proof.
  intros X Hl Hu Hn. destruct (decide (l ∈ lost s)) as [|Hlost]; [by right; left|].
  destruct (decide (map_Exists (λ _ x, x = l) (table s))) as [(id & x & E & ->)|Hex]; [left; by exists id|].
  right. right. exists lk. split_and!; try done. intros id E. destruct Hex. by exists id, l.
Qed.

(** A task that touches neither links, table nor lock. *)
Lemma inv_quiet i t t' s : inv s → tasks s !! i = Some t → task_ok s t' → in_lock t' = false → in_lock t = false → holds t ⊆ holds t' → inv (put_task i t' s).
Proof.
  intros X Hi Hok Hn Hn' Hh. eapply (inv_run i t t' s s X Hi eq_refl (links_refl _)); try done.
  - intros id l. apply (in_table s X).
  - by left.
  - intros E. congruence.
  - intros E. by left.
  - intros l lk Hl Hu. destruct (decide (l ∈ holds t)) as [Hin|Hnin]; [right; left; by apply Hh|].
    destruct (kept_open s l lk t X Hl Hu Hnin) as [?|[?|?]]; auto.
Qed.

(** Finishing under the lock. *)
Lemma inv_continue i t l k s s1 :
  inv s → tasks s !! i = Some t → holds t = [] ∨ holds t = [l] → in_lock t = (match k with AReturn _ => false | _ => true end) →
  tasks s1 = tasks s → table s1 = table s → locked s1 = locked s → lost s1 = lost s → links_le (links s) (links s1) →
  (∀ x, x ≠ l → links s1 !! x = links s !! x) → down s1 l → after_ok s1 l k →
  inv (put_task i (continue k s1).2 (continue k s1).1).
Proof.
  intros X Hi Hh Hlk E1 E2 E3 E4 Hle Hsame Hdown Hafter.
  assert (∀ id x, table s !! id = Some x → names s1 x id) as Hnames by (intros id x E; eapply names_mono; [done|by apply (in_table s X)]).
  assert (∀ x lk, links s1 !! x = Some lk → up lk = true → x ≠ l ∧ links s !! x = Some lk ∧ x ∉ holds t) as Hup.
  { intros x lk Hx Hu. assert (x ≠ l) as Hne. { intros ->. destruct Hdown as (lk' & E & Hd). simplify_eq. congruence. }
    split; [done|]. split; [by rewrite <-Hsame|]. destruct Hh as [->| ->]; [apply not_elem_of_nil|by rewrite list_elem_of_singleton]. }
  assert (∀ id x lk, table s !! id = Some x → links s1 !! x = Some lk → up lk = true → ¬ down s1 x) as Hndown.
  { intros id x lk _ Hx Hu (lk' & E & Hd). simplify_eq. congruence. }
  destruct k as [r|rest f]; [|destruct rest as [|l' rest]; [destruct f as [id|]|]]; cbn [continue fst snd];
    (eapply (inv_run i t _ s _ X Hi); cbn [tasks links table locked lost put_lock put_table]; [done|done|..]).
  all: rewrite ?E1, ?E2, ?E3, ?E4; cbn [holds in_lock]; try done.
  - by left.
  - by left.
  - intros x lk Hx Hu. destruct (Hup x lk Hx Hu) as (_ & Hx' & Hn). destruct (kept_open s x lk t X Hx' Hu Hn) as [?|[?|?]]; auto.
  - intros id' x [_ E]%lookup_delete_Some. by apply Hnames.
  - by right; right.
  - by right.
  - intros x lk Hx Hu. destruct (Hup x lk Hx Hu) as (Hne & Hx' & Hn). destruct (kept_open s x lk t X Hx' Hu Hn) as [[id' E]|[?|?]]; [|by auto..].
    left. exists id'. apply lookup_delete_Some. split; [|done]. intros <-. destruct Hafter as [_ E']. rewrite E2 in E'. congruence.
  - by right; right.
  - by right.
  - intros x lk Hx Hu. destruct (Hup x lk Hx Hu) as (Hne & Hx' & Hn). destruct (kept_open s x lk t X Hx' Hu Hn) as [[id' E]|[?|?]]; [|by auto..].
    destruct Hafter as [_ Ha]. rewrite E2 in Ha. destruct (Ha id' x E) as [Hd|[->|Hin]]; [|done|by apply elem_of_nil in Hin].
    by destruct (Hndown id' x lk E Hx Hu).
  - destruct f as [id|]; [by destruct Hafter|]. cbn in Hafter. destruct Hafter as [Hf Ha]. apply Forall_cons in Hf as [Hf1 Hf2].
    split; [done|]. split; [done|]. intros id x E. destruct (Ha id x E) as [?|[->|[->|?]%elem_of_cons]]; auto.
  - by left.
  - intros _. split; [|by left; rewrite Hlk]. by eapply (in_locked s X i t Hi); rewrite Hlk.
  - by left.
  - intros x lk Hx Hu. destruct (Hup x lk Hx Hu) as (_ & Hx' & Hn). destruct (kept_open s x lk t X Hx' Hu Hn) as [?|[?|?]]; auto.
Qed.

Lemma inv_locks i t t' s :
  inv s → tasks s !! i = Some t → locked s = false → task_ok (put_lock true s) t' → in_lock t' = true → holds t = [] → inv (put_task i t' (put_lock true s)).
Proof.
  intros X Hi Hl Hok Hin Hh. eapply (inv_run i t t' s (put_lock true s) X Hi eq_refl (links_refl _)); cbn; try done.
  - intros id l. apply (in_table s X).
  - by left.
  - intros _. split; [done|by right].
  - intros l lk Hx Hu. destruct (kept_open s l lk t X Hx Hu) as [?|[?|?]]; [rewrite Hh; apply not_elem_of_nil|by auto..].
Qed.

Lemma inv_dialed i e a pid s :
  inv s → tasks s !! i = Some (Dial e a) →
  inv (put_task i (CheckID e (length (links s))) (put_links (links s ++ [MkLink pid a true false]) s)).
Proof.
  intros X Hi. eapply (inv_run i _ _ s _ X Hi); cbn; try done.
  - apply links_app.
  - intros id l E. eapply (names_mono s); [apply links_app|by apply (in_table s X)].
  - rewrite length_app. cbn. lia.
  - by left.
  - by left.
  - intros l lk [Hl|[Hge Hl]]%lookup_app_Some Hu.
    + destruct (kept_open s l lk (Dial e a) X Hl Hu) as [?|[?|?]]; [apply not_elem_of_nil|by auto..].
    + apply lookup_lt_Some in Hl as Hlt. cbn in Hlt. right. left. replace l with (length (links s)) by lia. by left.
Qed.
Lemma inv_stored i id l s :
  inv s → tasks s !! i = Some (Store id l) → locked s = false →
  inv (put_task i (Done (Some l)) (put_table (<[id := l]> (table s)) (add_lost (table s !! id) s))).
Proof.
  intros X Hi Hl. pose proof (in_tasks s X i _ Hi) as Hn. cbn in Hn.
  eapply (inv_run i _ _ s _ X Hi); cbn; try done.
  - apply links_refl.
  - intros id' l' [[<- <-]|[_ E]]%lookup_insert_Some; [done|by apply (in_table s X)].
  - by right; left.
  - by left.
  - intros x lk Hx Hu. destruct (decide (x = l)) as [->|Hne]; [left; exists id; by rewrite lookup_insert_eq|].
    destruct (kept_open s x lk (Store id l) X Hx Hu) as [[id' E]|[?|(lk0 & E & Hu0 & H1 & H2 & H3)]].
    + cbn. by rewrite list_elem_of_singleton.
    + destruct (decide (id' = id)) as [->|Hid]; [|left; exists id'; by rewrite lookup_insert_ne].
      right. right. left. rewrite E. cbn. set_solver.
    + right. right. left. set_solver.
    + right. right. right. by exists lk0.
Qed.

(** The two steps of a close. *)
Lemma inv_closeTest now o dialed i l k s s' t' :
  inv s → tasks s !! i = Some (CloseTest l k) → taskStep now o dialed (CloseTest l k) s = Some (s', t') → inv (put_task i t' s').
Proof.
  intros X Hi. pose proof (in_tasks s X i _ Hi) as Hok. cbn [taskStep]. cbn [task_ok] in Hok.
  destruct Hok as [Hlt Ha]. destruct (lookup_lt_is_Some_2 _ _ Hlt) as [lk Elk]. rewrite Elk. set (lk' := MkLink _ _ false _).
  set (s1 := put_links _ s). assert (links_le (links s) (links s1)) as Hle by (by eapply links_insert).
  assert (down s1 l) as Hd by (exists lk'; cbn; by rewrite list_lookup_insert_eq).
  assert (∀ x, x ≠ l → links s1 !! x = links s !! x) as Hsame by (intros x Hne; cbn; by rewrite list_lookup_insert_ne).
  assert (after_ok s1 l k) as Ha1 by (by eapply after_mono). destruct (closedCh lk).
  - intros E. assert (continue k s1 = (s', t')) as Ec by congruence.
    pose proof (inv_continue i (CloseTest l k) l k s s1 X Hi) as Y. rewrite Ec in Y. cbn in Y. apply Y; try done; destruct k; cbn; auto.
  - intros [= <- <-]. eapply (inv_run i _ _ s s1 X Hi eq_refl Hle); try done.
    + intros id x E. eapply names_mono; [exact Hle|by apply (in_table s X)].
    + by left.
    + intros E. split; [|by left; destruct k]. eapply (in_locked s X i _ Hi). by destruct k.
    + by left.
    + intros x lkx Hx Hu. assert (x ≠ l) as Hne. { intros ->. destruct Hd as (y & Ey & Hy). rewrite Ey in Hx. congruence. }
      rewrite Hsame in Hx by done.
      destruct (kept_open s x lkx (CloseTest l k) X Hx Hu) as [?|[?|?]]; [destruct k; cbn; [by rewrite list_elem_of_singleton|apply not_elem_of_nil]|by auto..].
Qed.
Lemma inv_closeNow now o dialed i l k s s' t' :
  inv s → tasks s !! i = Some (CloseNow l k) → taskStep now o dialed (CloseNow l k) s = Some (s', t') → inv (put_task i t' s').
Proof.
  intros X Hi. pose proof (in_tasks s X i _ Hi) as Hok. cbn [taskStep]. cbn [task_ok] in Hok.
  destruct Hok as [Hd Ha]. destruct Hd as (lk & Elk & Hu). rewrite Elk. destruct (closedCh lk); [done|]. intros E.
  set (s1 := put_links _ s) in E. assert (continue k s1 = (s', t')) as Ec by congruence.
  assert (links_le (links s) (links s1)) as Hle by (by eapply links_insert).
  pose proof (inv_continue i (CloseNow l k) l k s s1 X Hi) as Y. rewrite Ec in Y. cbn in Y.
  apply Y; try done; [by left|intros x Hne; by rewrite list_lookup_insert_ne|eexists; split; [by apply list_lookup_insert_eq; eapply lookup_lt_Some|done]|by eapply after_mono].
Qed.

Lemma inv_taskStep now o dialed i t s s' t' :
  inv s → tasks s !! i = Some t → taskStep now o dialed t s = Some (s', t') → inv (put_task i t' s').
Proof.
  intros X Hi. pose proof (in_tasks s X i t Hi) as Hok. destruct t as [id|id|e a|e l|id l|id| |l k|l k|r]; cbn [taskStep].
  - destruct (locked s); [intros [= <- <-]; by eapply inv_quiet|]. destruct (getPeer id s); intros [= <- <-]; by eapply inv_quiet.
  - destruct (Membership.peers (mem s) !! id) as [p|]; intros [= <- <-]; [case_bool_decide|]; by eapply inv_quiet.
  - destruct dialed as [pid|]; intros [= <- <-]; [by apply inv_dialed|by eapply inv_quiet].
  - cbn in Hok. destruct (links s !! l) as [lk|] eqn:El; [|apply lookup_ge_None in El; lia]. destruct e as [id|]; intros [= <- <-].
    + case_bool_decide as E; eapply inv_quiet; try done. by exists lk.
    + set (m' := Membership.ensure _ _ _ _ _).
      assert (inv (put_mem m' s)) as X' by (by destruct X; split).
      eapply (inv_quiet i (CheckID None l)); try done. by exists lk.
  - destruct (locked s) eqn:El; intros [= <- <-]; [by eapply inv_quiet|by apply inv_stored].
  - destruct (locked s) eqn:El; [intros [= <- <-]; by eapply inv_quiet|]. destruct (table s !! id) as [l|] eqn:E; intros [= <- <-]; [|by eapply inv_quiet].
    eapply inv_locks; try done. split; [|done]. destruct (in_table s X id l E) as (lk & Hlk & _). by eapply lookup_lt_Some.
  - destruct (locked s) eqn:El; [intros [= <- <-]; by eapply inv_quiet|].
    set (ls := (range o (map_to_list (table s))).*2).
    assert (∀ id l, table s !! id = Some l → l ∈ ls) as Hin.
    { intros id l E. apply list_elem_of_fmap. exists (id, l). split; [done|]. by apply elem_of_range, elem_of_map_to_list. }
    assert (Forall (λ x, (x < length (links s))%nat) ls) as Hf.
    { apply Forall_forall. intros x ((id & x') & -> & Hx)%list_elem_of_fmap. apply elem_of_range, elem_of_map_to_list in Hx. cbn.
      destruct (in_table s X id x' Hx) as (lk & Hlk & _). by eapply lookup_lt_Some. }
    destruct ls as [|l rest]; cbn [continue]; intros [= <- <-].
    + assert (table s = ∅) as Et by (apply map_empty; intros id; destruct (table s !! id) as [l|] eqn:E; [by apply Hin, elem_of_nil in E|done]).
      assert (put_lock false (put_table ∅ (put_lock true s)) = s) as -> by (destruct s; cbn in *; by subst).
      by eapply inv_quiet.
    + apply Forall_cons in Hf as [Hf1 Hf2]. eapply inv_locks; try done. split; [done|]. split; [done|].
      intros id x E. right. by apply elem_of_cons, (Hin id).
  - by apply (inv_closeTest now o dialed).
  - by apply (inv_closeNow now o dialed).
  - intros [= <- <-]. by eapply inv_quiet.
Qed.

Lemma inv_spawn t s : inv s → task_ok s t → in_lock t = false → inv (spawn t s).
Proof.
  intros [I1 I2 I3 I4 I5] Hok Hn. assert (∀ i u, (tasks s ++ [t]) !! i = Some u → tasks s !! i = Some u ∨ u = t) as Hl.
  { intros i u [?|[_ ?%list_elem_of_lookup_2%list_elem_of_singleton]]%lookup_app_Some; auto. }
  split; cbn [spawn table tasks locked links lost].
  - apply I1.
  - intros i u [?| ->]%Hl; [by eapply I2|done].
  - intros i u [?| ->]%Hl Hu; [by eapply I3|congruence].
  - intros i j u u' [?| ->]%Hl [?| ->]%Hl Hu Hu'; try congruence. by eapply I4.
  - intros l lk Hx Hu. destruct (I5 l lk Hx Hu) as [?|[(i & u & Hi & Hin)|?]]; [by left| |by right; right].
    right. left. exists i, u. split; [by apply lookup_app_l_Some|done].
Qed.
Lemma peers_step_inv s e s' : inv s → step s e = Some s' → inv s'.
Proof.
  intros X. destruct e as [id|a|id| |l|i now o dialed]; cbn [step]; try (intros [= <-]; by apply inv_spawn).
  - destruct (Nat.ltb_spec l (length (links s))); intros [= <-]; [by apply inv_spawn|done].
  - destruct (tasks s !! i) as [t|] eqn:Hi; [|by intros [= <-]]. destruct (taskStep now o dialed t s) as [[s1 t1]|] eqn:E; [|done].
    cbn. intros [= <-]. by eapply inv_taskStep.
Qed.
Lemma fresh_inv m : inv (fresh m).
Proof. split; cbn; intros *; rewrite ?lookup_empty, ?lookup_nil; done. Qed.
Lemma peers_run_inv s es s' : inv s → run s es = Some s' → inv s'.
Proof.
  revert s. induction es as [|e es IH]; intros s X; cbn [run]; [by intros [= <-]|].
  destruct (step s e) as [s1|] eqn:E; [|done]. cbn. apply IH. by eapply peers_step_inv.
Qed.

(** C24.  Connections are what they are filed under, and none is forgotten: however dials, resets,
    failures and the final close interleave, a connection found under an id was announced by
    that peer, and every open connection is in the table, in the hands of the task that
    dialed it, or was replaced in the table by a later one. *)
Theorem connections_accounted m es s :
  run (fresh m) es = Some s →
  (∀ id l, getPeer id s = Some l → ∃ lk, links s !! l = Some lk ∧ peerID lk = id) ∧
  (∀ l lk, links s !! l = Some lk → up lk = true →
     (∃ id, getPeer id s = Some l) ∨ (∃ i t, tasks s !! i = Some t ∧ l ∈ holds t) ∨ l ∈ lost s).
Proof. intros Hr. destruct (peers_run_inv _ es s (fresh_inv m) Hr) as [I1 _ _ _ I5]. by split. Qed.

(** ** Closing without a failing read loop *)
Definition refs (t : task) : list nat :=
  match t with CheckID _ l | Store _ l | CloseTest l (AReturn _) | CloseNow l (AReturn _) => [l] | _ => [] end.
Definition unclosed (s : state) (l : nat) : Prop := ∃ lk, links s !! l = Some lk ∧ closedCh lk = false.
Record private (s : state) : Prop := {
  pr_range i t l : tasks s !! i = Some t → l ∈ refs t → (l < length (links s))%nat;
  pr_table i t l id : tasks s !! i = Some t → l ∈ refs t → table s !! id ≠ Some l;
  pr_single i j t t' l : tasks s !! i = Some t → tasks s !! j = Some t' → l ∈ refs t → l ∈ refs t' → i = j;
  pr_locked i l rest f : (tasks s !! i = Some (CloseTest l (ALocked rest f)) ∨ tasks s !! i = Some (CloseNow l (ALocked rest f))) →
    Forall (λ x, ∃ id, table s !! id = Some x) (l :: rest);
  pr_now i l k : tasks s !! i = Some (CloseNow l k) → unclosed s l }.

Lemma closers_distinct s i j l k k' :
  inv s → private s → tasks s !! i = Some (CloseNow l k) → tasks s !! j = Some (CloseNow l k') → i = j.
Proof.
  intros X [P1 P2 P3 P4 P5] Hi Hj.
  destruct k as [r|rest f], k' as [r'|rest' f'].
  - by eapply (P3 i j _ _ l Hi Hj); left.
  - destruct (Forall_cons_1 _ _ _ (P4 j l rest' f' (or_intror Hj))) as [[id E] _]. by destruct (P2 i _ l id Hi (list_elem_of_here _ _)).
  - destruct (Forall_cons_1 _ _ _ (P4 i l rest f (or_intror Hi))) as [[id E] _]. by destruct (P2 j _ l id Hj (list_elem_of_here _ _)).
  - by eapply (in_single s X i j _ _ Hi Hj).
Qed.

Definition closes (t : task) : list nat := match t with CloseNow l _ => [l] | _ => [] end.
Lemma private_run i t t' s s' :
  inv s → private s → tasks s !! i = Some t → tasks s' = tasks s → links_le (links s) (links s') →
  (∀ l, unclosed s l → l ∉ closes t → unclosed s' l) →
  (∀ id l, table s' !! id = Some l → table s !! id = Some l ∨ l ∈ refs t) →
  (table s' = table s ∨ locked s = false ∨ in_lock t = true) →
  (∀ l, l ∈ refs t' → (l < length (links s'))%nat ∧ (∀ id, table s' !! id ≠ Some l) ∧ (l ∈ refs t ∨ l = length (links s))) →
  (∀ l rest f, t' = CloseTest l (ALocked rest f) ∨ t' = CloseNow l (ALocked rest f) → Forall (λ x, ∃ id, table s' !! id = Some x) (l :: rest)) →
  (∀ l k, t' = CloseNow l k → unclosed s' l) →
  private (put_task i t' s').
Proof.
  intros X P Hi Et Hle Hun Htab Hc Hrefs Hlock Hnow. pose proof P as [P1 P2 P3 P4 P5].
  split; cbn [tasks table links put_task]; rewrite ?Et.
  - intros j u l [(<- & <- & _)|[Hne Hj]]%list_lookup_insert_Some Hl; [by apply Hrefs|]. eapply links_length; [done|by eapply P1].
  - intros j u l id [(<- & <- & _)|[Hne Hj]]%list_lookup_insert_Some Hl; [by apply Hrefs|].
    intros [E|Hr]%Htab; [by eapply P2|]. by destruct Hne; symmetry; eapply P3.
  - intros j j' u u' l [(<- & <- & _)|[Hne Hj]]%list_lookup_insert_Some [(<- & <- & _)|[Hne' Hj']]%list_lookup_insert_Some Hl Hl'; [done|..].
    + destruct (Hrefs l Hl) as (_ & _ & [Hr| ->]); [by eapply P3|]. pose proof (P1 _ _ _ Hj' Hl'). lia.
    + destruct (Hrefs l Hl') as (_ & _ & [Hr| ->]); [by eapply P3|]. pose proof (P1 _ _ _ Hj Hl). lia.
    + by eapply P3.
  - intros j l rest f Hj. destruct (decide (j = i)) as [->|Hne].
    + assert (i < length (tasks s))%nat by (by eapply lookup_lt_Some). rewrite list_lookup_insert_eq in Hj by done. eapply (Hlock l rest f).
      destruct Hj as [[= ->]|[= ->]]; auto.
    + rewrite list_lookup_insert_ne in Hj by done. pose proof (P4 j l rest f Hj) as F.
      assert (table s' = table s) as ->; [|done]. destruct Hc as [?|Hc]; [done|]. exfalso. apply Hne.
      assert (∃ u, tasks s !! j = Some u ∧ in_lock u = true) as (u & Hu & Hul) by (destruct Hj; by eexists).
      destruct Hc as [Hc|Hc]; [by rewrite (in_locked s X j u Hu Hul) in Hc|]. by eapply (in_single s X j i u t).
  - intros j l k [(<- & E & _)|[Hne Hj]]%list_lookup_insert_Some; [by eapply Hnow|]. apply (Hun l (P5 j l k Hj)).
    intros Hcl. destruct t as [| | | | | | | |l0 k0|]; cbn in Hcl; try by apply elem_of_nil in Hcl. apply list_elem_of_singleton in Hcl as ->.
    by destruct Hne; eapply closers_distinct.
Qed.
(** Tasks that only move on. *)
Lemma private_quiet i t t' s : inv s → private s → tasks s !! i = Some t → refs t' ⊆ refs t → in_lock t' = false →
  (∀ l k, t' ≠ CloseNow l k) → private (put_task i t' s).
Proof.
  intros X P Hi Hr Hl Hn. eapply (private_run i t t' s s X P Hi eq_refl (links_refl _)); try done.
  - by left.
  - by left.
  - intros l Hin%Hr. split_and!; [by eapply (pr_range s P)|intros id; by eapply (pr_table s P)|by left].
  - intros l rest f [->| ->]; done.
  - intros l k ->. by destruct (Hn l k).
Qed.

Lemma private_continue i t l k s s1 :
  inv s → private s → tasks s !! i = Some t → (t = CloseTest l k ∨ t = CloseNow l k) →
  tasks s1 = tasks s → table s1 = table s → links_le (links s) (links s1) → (∀ x, unclosed s x → x ∉ closes t → unclosed s1 x) →
  private (put_task i (continue k s1).2 (continue k s1).1).
Proof.
  intros X P Hi Ht E1 E2 Hle Hun.
  assert (∀ rest f, k = ALocked rest f → Forall (λ x, ∃ id, table s !! id = Some x) (l :: rest) ∧ in_lock t = true) as Hlocked.
  { intros rest f ->. split; [|by destruct Ht as [->| ->]]. apply (pr_locked s P i l rest f). destruct Ht as [->| ->]; auto. }
  destruct k as [r|rest f]; [|destruct (Hlocked rest f eq_refl) as [Hf Hin]; destruct rest as [|l' rest]; [destruct f as [id|]|]];
    cbn [continue fst snd]; (eapply (private_run i t _ s _ X P Hi); cbn [tasks links table put_lock put_table]; [done|done|done|..]);
    rewrite ?E1, ?E2; try done; try (by left); try (by right; right); try (intros *; by rewrite elem_of_nil); try (by intros ? ? ? [?|?]).
  - intros id' x [_ E]%lookup_delete_Some. by left.
  - intros x rest' f' [[= <- <- <-]|?]; [|done]. by apply Forall_cons in Hf as [_ Hf].
Qed.

Lemma unclosed_insert s l lk lk' x :
  links s !! l = Some lk → closedCh lk' = closedCh lk ∨ x ≠ l → unclosed s x → unclosed (put_links (<[l := lk']> (links s)) s) x.
Proof.
  intros El Hc (y & Ey & Hy). destruct (decide (x = l)) as [->|Hne].
  - exists lk'. cbn. rewrite list_lookup_insert_eq by (by eapply lookup_lt_Some). split; [done|]. destruct Hc; [congruence|done].
  - exists y. cbn. by rewrite list_lookup_insert_ne.
Qed.

Lemma private_taskStep now o dialed i t s :
  inv s → private s → tasks s !! i = Some t → ∃ s' t', taskStep now o dialed t s = Some (s', t') ∧ private (put_task i t' s').
Proof.
  intros X P Hi. pose proof (in_tasks s X i t Hi) as Hok.
  destruct t as [id|id|e a|e l|id l|id| |l k|l k|r]; cbn [taskStep].
  - destruct (locked s); [|destruct (getPeer id s)]; do 2 eexists; (split; [done|]); by eapply private_quiet.
  - destruct (Membership.peers (mem s) !! id) as [p|]; [case_bool_decide|]; do 2 eexists; (split; [done|]); by eapply private_quiet.
  - destruct dialed as [pid|]; do 2 eexists; (split; [done|]); [|by eapply private_quiet].
    eapply (private_run i _ _ s _ X P Hi); cbn; try done; [apply links_app| |by left|by left| |by intros ? ? ? [?|?]].
    + intros l (lk & E & Hc) _. exists lk. split; [by apply lookup_app_l_Some|done].
    + intros l ->%list_elem_of_singleton. rewrite length_app. cbn. split_and!; [lia| |by right].
      intros id E. destruct (in_table s X id _ E) as (lk & Hlk & _). apply lookup_lt_Some in Hlk. lia.
  - cbn in Hok. destruct (lookup_lt_is_Some_2 _ _ Hok) as [lk ->]. destruct e as [id|]; do 2 eexists; (split; [done|]).
    + case_bool_decide; by eapply private_quiet.
    + set (m' := Membership.ensure _ _ _ _ _). assert (inv (put_mem m' s)) as X' by (by destruct X; split).
      assert (private (put_mem m' s)) as P' by (by destruct P; split). by eapply (private_quiet i (CheckID None l)).
  - destruct (locked s) eqn:El; do 2 eexists; (split; [done|]); [by eapply private_quiet|].
    eapply (private_run i _ _ s _ X P Hi); cbn; try done; [apply links_refl| |by right; left|intros *; by rewrite elem_of_nil|by intros ? ? ? [?|?]].
    intros id' l' [[<- <-]|[_ E]]%lookup_insert_Some; [right; by left|by left].
  - destruct (locked s) eqn:El; [do 2 eexists; split; [done|by eapply private_quiet]|].
    destruct (table s !! id) as [l|] eqn:E; do 2 eexists; (split; [done|]); [|by eapply private_quiet].
    eapply (private_run i _ _ s _ X P Hi); cbn; try done; [apply links_refl|by left|by left|intros *; by rewrite elem_of_nil|].
    intros l' rest f [[= <- <- <-]|?]; [|done]. apply Forall_singleton. by exists id.
  - destruct (locked s) eqn:El; [do 2 eexists; split; [done|by eapply private_quiet]|].
    destruct (range o (map_to_list (table s))).*2 as [|l rest] eqn:Er; cbn [continue]; do 2 eexists; (split; [done|]).
    + eapply (private_run i _ _ s _ X P Hi); cbn; try done; [apply links_refl|by right; left|intros *; by rewrite elem_of_nil|by intros ? ? ? [?|?]].
    + eapply (private_run i _ _ s _ X P Hi); cbn; try done; [apply links_refl|by left|by left|intros *; by rewrite elem_of_nil|].
      intros l' rest' f [[= <- <- <-]|?]; [|done]. rewrite <-Er. apply Forall_forall. intros x ((id & x') & -> & Hx)%list_elem_of_fmap.
      apply elem_of_range, elem_of_map_to_list in Hx. by exists id.
  - destruct Hok as [Hlt _]. destruct (lookup_lt_is_Some_2 _ _ Hlt) as [lk Elk]. rewrite Elk. set (lk' := MkLink _ _ false _).
    set (s1 := put_links _ s). assert (links_le (links s) (links s1)) as Hle by (by eapply links_insert).
    assert (∀ x, unclosed s x → unclosed s1 x) as Hun by (intros x; apply (unclosed_insert s l lk lk' x Elk); by left).
    destruct (closedCh lk) eqn:Ec; do 2 eexists; (split; [by rewrite <-surjective_pairing|]).
    + by eapply (private_continue i (CloseTest l k) l k s s1 X P Hi); auto.
    + eapply (private_run i _ _ s s1 X P Hi eq_refl Hle); cbn [table s1 put_links]; try done; [by auto|by left|by left|..].
      * destruct k; cbn; [|intros x; by rewrite elem_of_nil]. intros x Hx. apply list_elem_of_singleton in Hx as ->. split_and!; [by eapply links_length| |by left; left].
        intros id. eapply (pr_table s P i); [done|by left].
      * intros l0 rest f [?|[= <- ->]]; [done|]. eapply (pr_locked s P i). by left.
      * intros l0 k0 [= <- <-]. exists lk'. split; [|done]. apply list_lookup_insert_eq. done.
  - destruct (pr_now s P i l k Hi) as (lk & Elk & Hc). rewrite Elk, Hc. do 2 eexists. split; [by rewrite <-surjective_pairing|].
    eapply (private_continue i (CloseNow l k) l k s _ X P Hi); [by auto|done|done|by eapply links_insert|].
    intros x Hx Hn. eapply unclosed_insert; [done| |done]. right. intros ->. apply Hn. by left.
  - do 2 eexists. split; [done|]. by eapply private_quiet.
Qed.

Lemma private_spawn t s : private s → refs t = [] → in_lock t = false → (∀ l k, t ≠ CloseNow l k) → private (spawn t s).
Proof.
  intros [P1 P2 P3 P4 P5] Hr Hl Hn. assert (∀ i u, (tasks s ++ [t]) !! i = Some u → tasks s !! i = Some u ∨ u = t) as Hin.
  { intros i u [?|[_ ?%list_elem_of_lookup_2%list_elem_of_singleton]]%lookup_app_Some; auto. }
  assert (∀ l, l ∉ refs t) as Hno by (intros l; rewrite Hr; apply not_elem_of_nil).
  split; cbn [spawn tasks table links].
  - intros i u l [?| ->]%Hin Hx; [by eapply P1|by apply Hno in Hx].
  - intros i u l id [?| ->]%Hin Hx; [by eapply P2|by apply Hno in Hx].
  - intros i j u u' l [?| ->]%Hin [?| ->]%Hin Hx Hx'; try (by apply Hno in Hx); try (by apply Hno in Hx'). by eapply P3.
  - intros i l rest f Hi. apply (P4 i l rest f). destruct Hi as [[?|E]%Hin|[?|E]%Hin]; [by left|by rewrite <-E in Hl|by right|by rewrite <-E in Hl].
  - intros i l k [?|E]%Hin; [by eapply P5|by destruct (Hn l k)].
Qed.

(** Closing is safe but for broken connections: while no read loop fails, the tasks never
    close a connection's channel twice, however dials, resets and the final close interleave. *)
Theorem managed_closes_never_panic m es :
  Forall (λ e, match e with LinkFails _ => False | _ => True end) es → ∃ s, run (fresh m) es = Some s.
Proof.
  intros Hes. assert (∀ s, inv s → private s → ∃ s', run s es = Some s') as Hgen.
  { induction Hes as [|e es He _ IH]; intros s X P; cbn [run]; [by eexists|].
    assert (∃ s1, step s e = Some s1 ∧ private s1) as (s1 & E & P1).
    { destruct e as [id|a|id| |l|i now o dialed]; cbn [step]; try done; try (eexists; split; [done|]; by apply private_spawn).
      destruct (tasks s !! i) as [t|] eqn:Hi; [|by eexists].
      destruct (private_taskStep now o dialed i t s X P Hi) as (s' & t' & -> & P'). cbn. by eexists. }
    rewrite E. cbn. apply IH; [by eapply peers_step_inv|done]. }
  apply Hgen; [apply fresh_inv|]. split; cbn; intros *; rewrite ?lookup_nil; try done. by intros [?|?].
Qed.

(** A close is not exclusive: when the read loop of a connection in the table fails while a
    request resets the peer, both can find the channel open, and the second close panics. *)
Theorem racing_closes_panic s id l lk :
  locked s = false → table s !! id = Some l → links s !! l = Some lk → closedCh lk = false →
  let loop := length (tasks s) in
  let reset := S (length (tasks s)) in
  let go i := Run i 0 inOrder None in
  run s [LinkFails l; ResetPeer id; go loop; go reset; go reset; go loop; go reset] = None.
Proof.
  intros Hl Ht Hk Hc loop reset go. assert (l < length (links s))%nat as Hlt by (by eapply lookup_lt_Some).
  assert (∃ ts, run s [LinkFails l; ResetPeer id; go loop; go reset; go reset; go loop; go reset] =
    run (MkState (links s) (table s) (mem s) false ts (lost s)) [go loop; go reset; go reset; go loop; go reset] ∧
    length ts = S reset ∧ ts !! loop = Some (CloseTest l (AReturn None)) ∧ ts !! reset = Some (ResetLock id)) as (ts & -> & Hlen & E1 & E2).
  { eexists ((tasks s ++ [CloseTest l (AReturn None)]) ++ [ResetLock id]). split; [|split_and!].
    - cbn [run step]. rewrite (proj2 (Nat.ltb_lt _ _) Hlt). unfold spawn. cbn. by rewrite Hl.
    - rewrite !length_app. unfold reset. cbn. lia.
    - rewrite lookup_app_l by (rewrite length_app; cbn; lia). by apply list_lookup_middle.
    - apply list_lookup_middle. rewrite length_app. unfold reset. cbn. lia. }
  assert (loop ≠ reset) as Hne by (unfold reset, loop; lia). assert (loop < length ts)%nat as H1 by (unfold reset, loop in *; lia).
  assert (reset < length ts)%nat as H2 by lia. clearbody loop reset.
  repeat first [progress cbn|rewrite E1|rewrite E2|rewrite Hk|rewrite Hc|rewrite Ht|rewrite list_lookup_insert_eq by (by rewrite ?length_insert)
       |rewrite list_lookup_insert_ne by done].
  done.
Qed.
End Steps.

(** ** Both sides of a hello *)

(** What is encoded is decoded again, under its header. *)
Class HelloWireLaws `{W : Serve.Wire, HW : HelloWire} := {
  hello_decodes h raw : MarshalHello h = Some raw → Serve.UnmarshalBase raw = Some (Serve.hBase h) ∧ Serve.UnmarshalHello raw = Some h;
  resp_decodes r raw : Serve.Marshal (Serve.MHelloResp r) = Some raw →
    Serve.UnmarshalBase raw = Some (Serve.rBase r) ∧ UnmarshalHelloResp raw = Some r }.

Section Agreement.
Context {N H I : Type} `{W : Serve.Wire, HW : HelloWire, HL : !HelloWireLaws, NO : Serve.NodeOps N H I} (cf : Serve.Config).
Definition fits_frame (limit : Z) (b : bytes) : Prop := Z.of_nat (length b) < 2 ^ 32 ∧ (limit ≤ 0 ∨ Z.of_nat (length b) ≤ limit).

Lemma receive_ack maxFrame id okk raw :
  Serve.Marshal (Serve.MHelloResp (Serve.helloAck cf id okk)) = Some raw → fits_frame maxFrame raw →
  helloReceive maxFrame (Transport.writeFrame raw) = if okk then inl (Serve.SelfID cf) else inr (HRefused Serve.errUnauthorized).
Proof.
  intros Hm [H1 H2]. destruct (resp_decodes _ _ Hm) as [E1 E2]. unfold helloReceive.
  rewrite <-(app_nil_r (Transport.writeFrame raw)), Transport.readFrame_write by done. rewrite E1. cbn. rewrite E2. by destruct okk.
Qed.

(** A whole frame is read into a buffer that the pool takes back. *)
Lemma nextFrame_whole choice (s : Serve.shared N) (c : Serve.conn H) raw rest :
  is_bytes (Serve.inp c) → Transport.pool_ok (Serve.pool s) → Transport.readFrame (Serve.MaxFrameSize cf) (Serve.inp c) = inl (raw, rest) →
  ∃ s' b, Serve.nextFrame cf true true choice s c = inl (s', Serve.put_inp rest c, Serve.Frame b) ∧ Serve.data b = raw ∧
    ∃ s2, Serve.recycle b s' = inl s2 ∧ Serve.node s2 = Serve.node s ∧ Serve.gate s2 = Serve.gate s.
Proof.
  intros Hb Hp. unfold Serve.nextFrame, Transport.readFrame. cbn [negb orb].
  destruct (length (Serve.inp c) <? 4)%nat; [done|]. destruct ((0 <? Serve.MaxFrameSize cf) && _); [done|].
  assert (0 ≤ uint64_be (take 4 (Serve.inp c))) as Hn by (apply be_range; by apply Forall_take).
  set (n := uint64_be _) in *. destruct (Z.of_nat _ <? n); [done|]. intros [= <- <-].
  unfold Serve.borrow. destruct (Transport.buffer_pool_sound (Serve.pool s) n choice Hp Hn) as (p & m & Eg & Hp' & _ & Hcap & _).
  rewrite Eg. cbn [Serve.and_then]. do 2 eexists. split; [done|]. split; [done|]. unfold Serve.recycle. cbn [Serve.pool Serve.bmem].
  destruct (Transport.put_sound p m Hp') as (p2 & Hput & _); [lia|]. rewrite Hput. by eexists.
Qed.

(** Client and server agree on the hello: when a client that presents its id, address and
    token opens a connection, the server accepts it, files the client under that id and
    address and serves the connection, and the client learns the server's id, exactly when no
    token is configured or the tokens are equal; otherwise the node is unchanged, the
    connection is closed and the client reports the refusal. *)
Theorem hello_agreement now t choice id ad tok raw rest maxFrame s :
  MarshalHello (helloMsg now id ad tok) = Some raw → fits_frame (Serve.MaxFrameSize cf) raw → is_bytes (Transport.writeFrame raw ++ rest) →
  (∀ okk, ∃ ack, Serve.Marshal (Serve.MHelloResp (Serve.helloAck cf (u64 now) okk)) = Some ack ∧ fits_frame maxFrame ack) →
  Transport.pool_ok (Serve.pool s) →
  ∃ s' c', Serve.connStep cf (Serve.Read true true choice t None) s (Serve.put_rd Serve.RdFirst (Serve.acceptConn (Transport.writeFrame raw ++ rest))) = inl (s', c') ∧
    if decide (Serve.AuthToken cf = [] ∨ tok = Serve.AuthToken cf)
    then Serve.node s' = Serve.learnPeer t id ad (Serve.node s) ∧ Serve.rd c' = Serve.RdLoop ∧ Serve.authedPeer c' = true ∧
         dialPeer true now id ad tok maxFrame (Serve.out c') = Some (Serve.SelfID cf)
    else Serve.node s' = Serve.node s ∧ Serve.rd c' = Serve.RdClosed ∧ Serve.authedPeer c' = false ∧
         dialPeer true now id ad tok maxFrame (Serve.out c') = None ∧ helloReceive maxFrame (Serve.out c') = inr (HRefused Serve.errUnauthorized).
Proof.
  intros Hm Hf Hb Hack Hp. set (c := Serve.put_rd _ _). destruct (hello_decodes _ _ Hm) as [Eb Eh].
  pose proof (Transport.readFrame_write (Serve.MaxFrameSize cf) raw rest (proj1 Hf) (proj2 Hf)) as Hr. unfold dialPeer, helloSend. rewrite Hm. cbn [negb].
  assert (Serve.greet cf raw = if decide (Serve.AuthToken cf = [] ∨ tok = Serve.AuthToken cf)
    then Serve.Hello (u64 now) (helloMsg now id ad tok) else Serve.Refuse (u64 now)) as Hg.
  { unfold Serve.greet. rewrite Eb, Eh. cbn. destruct (decide (_ ∨ _)) as [[E|E]|E]; repeat case_bool_decide; cbn; naive_solver. }
  destruct (nextFrame_whole choice s c raw rest Hb Hp Hr) as (s1 & b & En & Hd & s2 & Hrec & Hnode & _).
  cbn [Serve.connStep Serve.rd c Serve.put_rd]. fold c. rewrite En. cbn [Serve.and_then]. unfold Serve.firstFrame. rewrite Hd, Hg.
  destruct (decide (Serve.AuthToken cf = [] ∨ tok = Serve.AuthToken cf)) as [Ha|Ha]; rewrite Hrec; cbn [Serve.and_then]; unfold Serve.sendAck.
  - destruct (Hack true) as (ack & Ema & Hfa). rewrite Ema. cbn. do 2 eexists. split; [done|]. cbn. rewrite Hnode. split_and!; [done..|].
    match goal with |- context [helloReceive maxFrame ?l] => change l with (Transport.writeFrame ack) end. by rewrite (receive_ack maxFrame (u64 now) true).
  - destruct (Hack false) as (ack & Ema & Hfa). rewrite Ema. cbn. do 2 eexists. split; [done|]. cbn.
    match goal with |- context [helloReceive maxFrame ?l] => change l with (Transport.writeFrame ack) end. rewrite (receive_ack maxFrame (u64 now) false) by done. by rewrite Hnode.
Qed.
End Agreement.

(** ** Instances *)

(** A codec with one byte per field that refuses what it cannot express. *)
Definition byte_wire : Serve.Wire := {|
  Serve.UnmarshalBase b := match b with t :: id :: _ => Some (Serve.MkBase t id) | _ => None end;
  Serve.UnmarshalHello b := match b with t :: id :: x :: tok => Some (Serve.MkHello (Serve.MkBase t id) [x] [] tok) | _ => None end;
  Serve.Unmarshal _ _ := None;
  Serve.Marshal m :=
    match m with
    | Serve.MHelloResp (Serve.MkHelloResp (Serve.MkBase t id) okk [x] err) =>
        if bool_decide (err = if okk then [] else Serve.errUnauthorized) then Some [t; id; if okk then 1 else 0; x] else None
    | _ => None
    end |}.
Definition byte_hello : HelloWire := {|
  MarshalHello h :=
    match h with Serve.MkHello (Serve.MkBase t id) [x] [] tok => Some (t :: id :: x :: tok) | _ => None end;
  UnmarshalHelloResp b :=
    match b with
    | [t; id; 1; x] => Some (Serve.MkHelloResp (Serve.MkBase t id) true [x] [])
    | [t; id; 0; x] => Some (Serve.MkHelloResp (Serve.MkBase t id) false [x] Serve.errUnauthorized)
    | _ => None
    end |}.
Definition silent_node : Serve.NodeOps (list NodeID) unit unit := {|
  Serve.learnPeer _ id _ n := n ++ [id]; Serve.start _ := tt; Serve.advance _ _ _ n := Some (n, inr Serve.PGossip) |}.
#[local] Existing Instance byte_wire.
#[local] Existing Instance byte_hello.
#[local] Existing Instance silent_node.
#[local] Instance byte_laws : HelloWireLaws.
Proof.
  split.
  - intros [[t id] [|x [|]] [|] tok] raw; cbn; try done. by intros [= <-].
  - intros [[t id] okk [|x [|]] err] raw; cbn; try done. case_bool_decide as E; [|done]. intros [= <-]. subst. by destruct okk.
Qed.
Definition demo_server : Serve.Config := Serve.MkConfig [97] [7; 7] false 64 1 1 false None.
Definition demo_shared : Serve.shared (list NodeID) := Serve.sh (Serve.started (H := unit) []).

Lemma bytes_check (b : bytes) : forallb (λ x, (0 <=? x) && (x <? 256)) b = true → is_bytes b.
Proof. rewrite forallb_forall. intros X. apply Forall_forall. intros x Hx%list_elem_of_In%X. lia. Qed.

Lemma hello_agreement_witness :
  (∃ s' c', Serve.connStep demo_server (Serve.Read true true None 0 None) demo_shared
      (Serve.put_rd Serve.RdFirst (Serve.acceptConn (Transport.writeFrame [1; 5; 98; 7; 7]))) = inl (s', c') ∧
    Serve.node s' = [[98]] ∧ dialPeer true 5 [98] [] [7; 7] 64 (Serve.out c') = Some [97]) ∧
  (∃ s' c', Serve.connStep demo_server (Serve.Read true true None 0 None) demo_shared
      (Serve.put_rd Serve.RdFirst (Serve.acceptConn (Transport.writeFrame [1; 5; 98; 7; 8]))) = inl (s', c') ∧
    Serve.node s' = [] ∧ helloReceive 64 (Serve.out c') = inr (HRefused Serve.errUnauthorized)).
Proof.
  assert (∀ okk, ∃ ack, Serve.Marshal (Serve.MHelloResp (Serve.helloAck demo_server (u64 5) okk)) = Some ack ∧ fits_frame 64 ack) as Hack.
  { intros [|]; eexists; (split; [reflexivity|]); split; cbn; lia. }
  assert (Transport.pool_ok (Serve.pool demo_shared)) as Hp by apply Transport.newBufPool_ok.
  split.
  - destruct (hello_agreement (N := list NodeID) demo_server 5 0 None [98] [] [7; 7] [1; 5; 98; 7; 7] [] 64 demo_shared)
      as (s' & c' & E & X); [reflexivity|split; cbn; lia|by apply bytes_check|exact Hack|exact Hp|].
    exists s', c'. rewrite app_nil_r in E. split; [exact E|]. cbn in X. rewrite decide_True in X by (by right). by destruct X as (X1 & _ & _ & X2).
  - destruct (hello_agreement (N := list NodeID) demo_server 5 0 None [98] [] [7; 8] [1; 5; 98; 7; 8] [] 64 demo_shared)
      as (s' & c' & E & X); [reflexivity|split; cbn; lia|by apply bytes_check|exact Hack|exact Hp|].
    exists s', c'. rewrite app_nil_r in E. split; [exact E|]. cbn in X. rewrite decide_False in X by (intros [?|?]; done). by destruct X as (X1 & _ & _ & _ & X2).
Defined.

Definition hash0 (_ : bytes) : Z := 0.
Definition turn (i : nat) : event := Run i 0 inOrder None.
(** Task [i] dials and the other side says it is [id]. *)
Definition answers (i : nat) (id : NodeID) : event := Run i 0 inOrder (Some id).
Definition seed (i : nat) (a : bytes) (id : NodeID) : list event := [EnsureSeed a; answers i id; turn i; turn i].

Lemma connections_accounted_witness :
  ∃ s, run hash0 (fresh Membership.newMembership) (seed 0 [1] [98] ++ [EnsurePeer [98]; turn 1; ResetPeer [98]; turn 2; turn 2; turn 2]) = Some s ∧
    getPeer [98] s = None ∧ tasks s = [Done (Some 0%nat); Done (Some 0%nat); Done None] ∧ ∀ lk, links s !! 0%nat = Some lk → up lk = false.
Proof.
  destruct (run hash0 (fresh Membership.newMembership) (seed 0 [1] [98] ++ [EnsurePeer [98]; turn 1; ResetPeer [98]; turn 2; turn 2; turn 2]))
    as [s|] eqn:E; [|vm_compute in E; discriminate E].
  destruct (connections_accounted hash0 Membership.newMembership _ s E) as [_ X]. exists s. split; [done|].
  assert (table s = ∅ ∧ tasks s = [Done (Some 0%nat); Done (Some 0%nat); Done None] ∧ lost s = []) as (Et & Ets & Elo).
  { vm_compute in E. injection E as <-. split; [|by split]. by apply (bool_decide_unpack _); vm_compute. }
  unfold getPeer in *. rewrite Et, Ets, Elo in *. split; [done|]. split; [done|]. intros lk Hl. destruct (up lk) eqn:Eu; [|done].
  destruct (X 0%nat lk Hl Eu) as [[id Hi]|[(i & t & Hi & Ht)|Hin]].
  - by rewrite lookup_empty in Hi.
  - destruct i as [|[|[|]]]; cbn in Hi; try done; injection Hi as <-; by apply elem_of_nil in Ht.
  - by apply elem_of_nil in Hin.
Defined.

Lemma managed_closes_never_panic_witness :
  ∃ s, run hash0 (fresh Membership.newMembership) (seed 0 [1] [98] ++ [ResetPeer [98]; ClosePeers; turn 1; turn 2; turn 1; turn 1; turn 2]) = Some s.
Proof. apply (managed_closes_never_panic hash0 Membership.newMembership). by repeat constructor. Defined.

Lemma racing_closes_panic_witness :
  run hash0 (fresh Membership.newMembership) (seed 0 [1] [98] ++ [LinkFails 0; ResetPeer [98]; turn 1; turn 2; turn 2; turn 1; turn 2]) = None.
Proof.
  assert (∀ s es es', run hash0 s (es ++ es') = s ← run hash0 s es; run hash0 s es') as Happ.
  { intros s es es'. revert s. induction es as [|e es IH]; intros s; [done|]. cbn. destruct (step hash0 s e); [apply IH|done]. }
  rewrite Happ. destruct (run hash0 _ (seed 0 [1] [98])) as [s|] eqn:E; [|done]. cbn [mbind option_bind].
  assert (locked s = false ∧ table s !! [98] = Some 0%nat ∧ links s !! 0%nat = Some (MkLink [98] [1] true false) ∧ length (tasks s) = 1%nat)
    as (E1 & E2 & E3 & E4) by (vm_compute in E; injection E as <-; by split_and!).
  pose proof (racing_closes_panic hash0 s [98] 0%nat (MkLink [98] [1] true false) E1 E2 E3 eq_refl) as X. cbv zeta in X. rewrite E4 in X. exact X.
Defined.

(** Two addresses of one node: the first connection is replaced in the table and stays open,
    also when the node stops. *)
Example seeds_leak :
  (s ← run hash0 (fresh Membership.newMembership) (seed 0 [1] [98] ++ seed 1 [2] [98] ++ [ClosePeers; turn 2; turn 2; turn 2]);
   Some (links s, getPeer [98] s, tasks s, lost s)) =
  Some ([MkLink [98] [1] true false; MkLink [98] [2] false true], None, [Done (Some 0%nat); Done (Some 1%nat); Done None], [0%nat]).
Proof. by vm_compute. Qed.

(** A reset is by id, not by connection: one that two failed requests ask for can close the
    healthy connection dialed in between. *)
Example reset_hits_replacement :
  (s ← run hash0 (fresh Membership.newMembership)
     (seed 0 [1] [98] ++ [ResetPeer [98]; ResetPeer [98]; turn 1; turn 1; turn 1; EnsurePeer [98]; turn 3; turn 3; answers 3 [98]; turn 3; turn 3; turn 2; turn 2; turn 2]);
   Some (links s, getPeer [98] s, tasks s)) =
  Some ([MkLink [98] [1] false true; MkLink [98] [1] false true], None, [Done (Some 0%nat); Done None; Done None; Done (Some 1%nat)]).
Proof. by vm_compute. Qed.

(** A dial that is under way when the node stops leaves its connection open in the table. *)
Example dial_outlives_stop :
  (s ← run hash0 (fresh Membership.newMembership) ([EnsureSeed [1]; answers 0 [98]; ClosePeers; turn 1; turn 0; turn 0]);
   Some (links s, getPeer [98] s, tasks s)) =
  Some ([MkLink [98] [1] true false], Some 0%nat, [Done (Some 0%nat); Done None]).
Proof. by vm_compute. Qed.
End Peers.
