(* ===== verification/Lifecycle.v ===== *)
(** * Life cycle ([NewNode], [Start], [Stop], [nextReqID], [sampleLoad], [sendGossip] and the
    loops of [src/cluster/node.go]; [src/cluster/adapter.go])

    A node as [NewNode] assembles it from its configuration: the data plane of [Dispatch], the
    hot-key heat, hinted handoff, the outbound connections of [Peers], the listener and the
    stop channel.  [Start] and [Stop] run their connection tasks to the end, as the calling
    goroutine does, with nothing in between; closing a closed channel is a panic, [None].
    The membership is part of both the gossip state and the connections; [put_conns] keeps the
    two views equal. *)
From Stdlib Require Import ZArith Lia.
From stdpp Require Import base numbers list gmap sets sorting.
From S2P Require Import Prelude Admission Shard Eviction Cache CacheInv CacheSpec CacheTheorems CacheIface Hlc KeyCodec Rendezvous Lease Membership Heat Handoff Replay Node NodeTheorems Client Repair Load Gossip Transport Weights Serve ServeTheorems Dispatch Config Peers.
Local Open Scope Z_scope.

(** What the node and the adapter read of the cache's counters. *)
Class CacheStats (C : Type) := cstats : C → Stats.
#[export] Instance InMemoryCache_stats {K V} `{Countable K} : CacheStats (InMemoryCache K V) := get_stats.

Module Lifecycle.
Import KeyCodec Dispatch.
Abbreviation NodeID := Rendezvous.NodeID.

(** A task that nothing interrupts, to its end. *)
Fixpoint complete (sum64 : bytes → Z) (fuel : nat) (now : Z) (o : rangeOrder) (dialed : option NodeID) (t : Peers.task) (s : Peers.state)
    : option (Peers.state * option nat) :=
  match t, fuel with
  | Peers.Done r, _ => Some (s, r)
  | _, O => None
  | _, S fuel => r ← Peers.taskStep sum64 now o dialed t s; complete sum64 fuel now o dialed r.2 r.1
  end.

Definition closePeers (sum64 : bytes → Z) (o : rangeOrder) (s : Peers.state) : option Peers.state :=
  fst <$> complete sum64 (S (S (2 * base.size (Peers.table s)))) 0 o None Peers.StopLock s.
Definition ensureSeed (sum64 : bytes → Z) (now : Z) (dialed : option NodeID) (a : bytes) (s : Peers.state) : option Peers.state :=
  fst <$> complete sum64 3 now inOrder dialed (Peers.Dial None a) s.

(** ** Closing the table *)

(** [s'] is [s] with the links in [ls] closed. *)
Definition closed_links (ls : list nat) (s s' : Peers.state) : Prop :=
  ∀ x lk, Peers.links s !! x = Some lk → ∃ lk', Peers.links s' !! x = Some lk' ∧ Peers.peerID lk' = Peers.peerID lk ∧
    (x ∈ ls ∨ Peers.up lk = false ∧ Peers.closedCh lk = true → Peers.up lk' = false ∧ Peers.closedCh lk' = true) ∧ (x ∉ ls → lk' = lk).
Lemma closed_links_one l lk s s' :
  Peers.links s !! l = Some lk → Peers.links s' = <[l := Peers.MkLink (Peers.peerID lk) (Peers.addr lk) false true]> (Peers.links s) → closed_links [l] s s'.
Proof.
  intros El E x lkx Hx. rewrite E. destruct (decide (x = l)) as [->|Hne].
  - eexists. rewrite list_lookup_insert_eq by (by eapply lookup_lt_Some). simplify_eq. split; [done|]. split; [done|]. split; [done|]. set_solver.
  - exists lkx. rewrite list_lookup_insert_ne by done. split; [done|]. split; [done|]. split; [|done]. set_solver.
Qed.
Lemma closed_links_cons l ls s s1 s2 : closed_links [l] s s1 → closed_links ls s1 s2 → closed_links (l :: ls) s s2.
Proof.
  intros H1 H2 x lk Hx. destruct (H1 x lk Hx) as (lk1 & E1 & P1 & C1 & S1). destruct (H2 x lk1 E1) as (lk2 & E2 & P2 & C2 & S2).
  exists lk2. split; [done|]. split; [congruence|]. split.
  - intros Hc. apply C2. destruct (decide (x ∈ ls)) as [|Hn]; [by left|right]. apply C1. set_solver.
  - intros Hn. rewrite S2 by set_solver. apply S1. set_solver.
Qed.

Lemma complete_clear sum64 o rest fuel l s :
  (2 * length (l :: rest) ≤ fuel)%nat → Forall (λ x, (x < length (Peers.links s))%nat) (l :: rest) →
  ∃ s', complete sum64 fuel 0 o None (Peers.CloseTest l (Peers.ALocked rest Peers.FClear)) s = Some (s', None) ∧
    Peers.table s' = ∅ ∧ Peers.locked s' = false ∧ Peers.mem s' = Peers.mem s ∧ closed_links (l :: rest) s s'.
Proof.
  revert fuel l s. induction rest as [|l' rest IH]; intros fuel l s Hf [Hl Hr]%Forall_cons.
  all: destruct (lookup_lt_is_Some_2 _ _ Hl) as [lk El]; set (lk' := Peers.MkLink (Peers.peerID lk) (Peers.addr lk) false true).
  all: set (s1 := Peers.put_links (<[l := lk']> (Peers.links s)) s); assert (closed_links [l] s s1) as H1 by (by eapply closed_links_one).
  all: assert (∀ fuel k, complete sum64 (S (S fuel)) 0 o None (Peers.CloseTest l k) s =
         complete sum64 (if Peers.closedCh lk then S fuel else fuel) 0 o None (Peers.continue k s1).2 (Peers.continue k s1).1) as Hstep.
  1, 3: intros fuel' k; cbn [complete Peers.taskStep]; rewrite El; destruct (Peers.closedCh lk) eqn:Ec; cbn [mbind option_bind];
    [by unfold s1, lk'|]; cbn [fst snd complete Peers.taskStep]; cbn [Peers.links Peers.put_links];
    rewrite list_lookup_insert_eq by done; cbn; unfold s1, Peers.put_links; cbn; by rewrite list_insert_insert_eq.
  - destruct fuel as [|[|fuel]]; [cbn in Hf; lia..|]. rewrite Hstep. cbn [Peers.continue fst snd].
    exists (Peers.put_lock false (Peers.put_table ∅ s1)). split; [by destruct (Peers.closedCh lk), fuel|]. done.
  - destruct fuel as [|[|fuel]]; [cbn in Hf; lia..|]. rewrite Hstep. cbn [Peers.continue fst snd].
    destruct (IH (if Peers.closedCh lk then S fuel else fuel) l' s1) as (s' & E & X1 & X2 & X3 & X4).
    + cbn in *. destruct (Peers.closedCh lk); lia.
    + cbn. by rewrite length_insert.
    + exists s'. split; [done|]. split_and!; [done..|]. by eapply closed_links_cons.
Qed.

(** Closing the table closes exactly the links in it. *)
Lemma closePeers_spec sum64 o s :
  Peers.inv s → Peers.locked s = false →
  ∃ s' ls, closePeers sum64 o s = Some s' ∧ Peers.table s' = ∅ ∧ Peers.locked s' = false ∧ Peers.mem s' = Peers.mem s ∧
    closed_links ls s s' ∧ ∀ l, l ∈ ls ↔ ∃ id, Peers.getPeer id s = Some l.
Proof.
  intros X Hl. unfold closePeers. set (ls := (range o (map_to_list (Peers.table s))).*2).
  assert (∀ l, l ∈ ls ↔ ∃ id, Peers.getPeer id s = Some l) as Hls.
  { intros l. unfold ls. rewrite list_elem_of_fmap. split.
    - intros ([id l'] & -> & Hx). apply elem_of_range, elem_of_map_to_list in Hx. by exists id.
    - intros [id E]. exists (id, l). split; [done|]. by apply elem_of_range, elem_of_map_to_list. }
  assert (length ls = base.size (Peers.table s)) as Hlen by (unfold ls; by rewrite length_fmap, range_perm, length_map_to_list).
  remember (S (2 * base.size (Peers.table s))) as fuel eqn:Ef. cbn [complete Peers.taskStep]. rewrite Hl. fold ls. cbn [mbind option_bind]. destruct ls as [|l rest] eqn:El; cbn [Peers.continue fst snd].
  - exists (Peers.put_lock false (Peers.put_table ∅ (Peers.put_lock true s))), []. split; [by destruct fuel|]. split_and!; try done.
    intros x lk Hx. exists lk. split; [done|]. split; [done|]. split; [|done]. intros [?%elem_of_nil|?]; done.
  - destruct (complete_clear sum64 o rest fuel l (Peers.put_lock true s)) as (s' & E & X1 & X2 & X3 & X4).
    + rewrite Hlen. lia.
    + cbn [Peers.links Peers.put_lock]. apply Forall_forall. intros x Hx. apply Hls in Hx as [id Hx]. destruct (Peers.in_table s X id x Hx) as (lk & Hk & _).
      by eapply lookup_lt_Some.
    + exists s', (l :: rest). rewrite E. done.
Qed.

(** ** Dialing a seed *)
Definition seeded (sum64 : bytes → Z) (now : Z) (dialed : option NodeID) (a : bytes) (s : Peers.state) : Peers.state :=
  match dialed with
  | None => s
  | Some pid =>
      let s := Peers.put_mem (Membership.ensure sum64 now pid a (Peers.mem s)) (Peers.put_links (Peers.links s ++ [Peers.MkLink pid a true false]) s) in
      Peers.put_table (<[pid := (length (Peers.links s) - 1)%nat]> (Peers.table s)) (Peers.add_lost (Peers.table s !! pid) s)
  end.
Lemma ensureSeed_eq sum64 now dialed a s : Peers.locked s = false → ensureSeed sum64 now dialed a s = Some (seeded sum64 now dialed a s).
Proof.
  intros Hl. unfold ensureSeed, seeded. destruct dialed as [pid|]; [|done]. cbn.
  rewrite lookup_app_r, Nat.sub_diag by lia. cbn. rewrite Hl. cbn. rewrite length_app. cbn. by replace (length (Peers.links s) + 1 - 1)%nat with (length (Peers.links s)) by lia.
Qed.
Lemma seeded_inv sum64 now dialed a s :
  Peers.inv s → Peers.locked s = false → Peers.inv (seeded sum64 now dialed a s) ∧ Peers.locked (seeded sum64 now dialed a s) = false.
Proof.
  intros X Hl. split; [|by destruct dialed]. destruct dialed as [pid|]; [|done]. pose proof X as [I1 I2 I3 I4 I5].
  assert (∀ i t, Peers.tasks s !! i = Some t → Peers.in_lock t = false) as Hnl.
  { intros i t Hi. destruct (Peers.in_lock t) eqn:E; [|done]. pose proof (I3 i t Hi E). congruence. }
  set (s' := seeded _ _ _ _ _). assert (Peers.links s' = Peers.links s ++ [Peers.MkLink pid a true false]) as El by done.
  assert (Peers.table s' = <[pid := length (Peers.links s)]> (Peers.table s)) as Et.
  { cbn. rewrite length_app. cbn. by replace (length (Peers.links s) + 1 - 1)%nat with (length (Peers.links s)) by lia. }
  assert (Peers.links_le (Peers.links s) (Peers.links s')) as Hle by apply Peers.links_app. split.
  - rewrite Et. intros id l [[<- <-]|[_ E]]%lookup_insert_Some; [|eapply Peers.names_mono; [exact Hle|by apply I1]].
    eexists. rewrite El. split; [by apply list_lookup_middle|done].
  - intros i t Hi. eapply Peers.task_mono; [exact Hle|right; by eapply Hnl|by eapply I2].
  - intros i t Hi E. by rewrite (Hnl i t Hi) in E.
  - apply I4.
  - rewrite El, Et. intros l lk [Hx|[Hge Hx]]%lookup_app_Some Hu.
    + destruct (decide (Peers.table s !! pid = Some l)) as [E|Hn]; [right; right; cbn; rewrite E; set_solver|].
      destruct (I5 l lk Hx Hu) as [[id E]|[?|?]]; [|by right; left|right; right; cbn; set_solver].
      left. exists id. rewrite lookup_insert_ne; [done|]. congruence.
    + apply lookup_lt_Some in Hx. cbn in Hx. left. exists pid. rewrite lookup_insert_eq. f_equal. lia.
Qed.

Section Life.
Context {C K V : Type} `{Ops : CacheOps C K V, St : CacheStats C, KC : KeyCodec K, VC : Node.Codec V}.
Context (gzip : bytes → bytes) (gunzip : bytes → option bytes) (sum64 : bytes → Z) (oob : Weights.float64 → Z) (makeSeed : nat → Z).
Abbreviation nplane := (plane (C := C)).

(** [listening]: [None] before [Start]. *)
Record node := MkNode {
  cfg : Config.Config; dplane : nplane; heat : Heat.heat; hh : option Replay.handoff; conns : Peers.state;
  reqID : Z; listening : option bool; stopCh : bool; stopOnce : bool }.
Definition put_plane (p : nplane) (n : node) : node :=
  MkNode (cfg n) p (heat n) (hh n) (conns n) (reqID n) (listening n) (stopCh n) (stopOnce n).
Definition put_listening (l : option bool) (n : node) : node :=
  MkNode (cfg n) (dplane n) (heat n) (hh n) (conns n) (reqID n) l (stopCh n) (stopOnce n).

(** ** [NewNode] *)
Definition put_handoff (h : Replay.HandoffConfig) (c : Config.Config) : Config.Config :=
  Config.MkConfig (Config.ID c) (Config.BindAddr c) (Config.PublicURL c) (Config.Seeds c) (Config.ReplicationFactor c) (Config.WriteConcern c)
    (Config.ReadMaxFanout c) (Config.ReadHedgeDelay c) (Config.ReadHedgeInterval c) (Config.ReadPerTryTimeout c) (Config.GossipInterval c)
    (Config.SuspicionAfter c) (Config.TombstoneAfter c) (Config.WeightUpdate c) (Config.HotsetPeriod c) (Config.HotsetSize c) (Config.MirrorTTL c)
    (Config.LeaseTTL c) (Config.RebalanceInterval c) (Config.BackfillInterval c) (Config.RebalanceLimit c) (Config.Sec c) (Config.LWWEnabled c)
    (Config.PerConnWorkers c) (Config.PerConnQueue c) h.
Definition nodeConfig (c : Config.Config) : Node.Config :=
  let s := Config.Sec c in
  Node.MkConfig (Config.ID c) (Config.ReplicationFactor c) (Config.WriteConcern c) (Config.LWWEnabled c)
    (Config.MaxKeySize s) (Config.MaxValueSize s) (Config.CompressionThreshold s) (Config.MirrorTTL c) (Config.RebalanceLimit c).

Definition NewNode (c : Config.Config) (local : C) (loader : bool) : node :=
  let c := put_handoff (Replay.FillDefaults (Config.Handoff_ c)) c in
  let c := Config.EnsureID sum64 c in
  let n := Node.MkNode (nodeConfig c) local ∅ (Hlc.newHLC (u16 (sum64 (Config.ID c)))) (Rendezvous.newRing (Config.ReplicationFactor c)) ∅ in
  let qps := Config.LeaseLoadQPS (Config.Sec c) in
  let limiter := if 0 <? qps then Some (Limiter.newRateLimiter qps) else None in
  MkNode c
    (MkPlane (Load.MkShared n (Lease.newLeaseTable (Config.LeaseTTL c)) limiter) (Gossip.newState (Config.ReplicationFactor c)) loader [])
    (Heat.newHeat makeSeed 4 4096 (Config.HotsetSize c) 16)
    (if Replay.IsEnabled (Config.Handoff_ c) then Some (Replay.newHandoff (Config.Handoff_ c)) else None)
    (Peers.fresh Membership.newMembership) 0 None false false.

(** ** [Start] *)
Definition put_conns (s : Peers.state) (n : node) : node :=
  let g := gossip (dplane n) in
  let g := Gossip.MkState (Peers.mem s) (Gossip.ringRefs g) (Gossip.ringRf g) (Gossip.hotSet g) (Gossip.lastRingSig g) (Gossip.lastEpoch g) (Gossip.kick g) in
  MkNode (cfg n) (put_gossip g (dplane n)) (heat n) (hh n) s (reqID n) (listening n) (stopCh n) (stopOnce n).
(** The ring with the node itself, a record of its own. *)
Definition prime (n : node) : node :=
  let g := gossip (dplane n) in
  let m := Gossip.mem g in
  let self := Rendezvous.newMeta sum64 (Config.ID (cfg n)) (Config.PublicURL (cfg n)) in
  let m' := Membership.MkMembership (Membership.metas m ++ [self]) (Membership.peers m) (Membership.seen m) (Membership.epoch m) in
  let g := Gossip.MkState m' [length (Membership.metas m)] (Config.ReplicationFactor (cfg n)) (Gossip.hotSet g)
             (Gossip.lastRingSig g) (Gossip.lastEpoch g) (Gossip.kick g) in
  MkNode (cfg n) (put_gossip g (dplane n)) (heat n) (hh n) (Peers.put_mem m' (conns n)) (reqID n) (listening n) (stopCh n) (stopOnce n).

(** [times] and [dials]: when each seed is dialed, and the id it announced. *)
Fixpoint seeds_loop (times : nat → Z) (dials : nat → option NodeID) (i : nat) (seeds : list bytes) (n : node) : option node :=
  match seeds with
  | [] => Some n
  | a :: seeds =>
      if bool_decide (a = []) then seeds_loop times dials (S i) seeds n
      else s ← ensureSeed sum64 (times i) (dials i) a (conns n); seeds_loop times dials (S i) seeds (put_conns s n)
  end.
(** [listens]: whether the address could be bound.  The answer says whether [Start] succeeded. *)
Definition Start (listens : bool) (now : Z) (times : nat → Z) (dials : nat → option NodeID) (n : node) : option (node * bool) :=
  if negb listens then Some (n, false)
  else
    let n := put_listening (Some true) n in
    let n := put_conns (Peers.put_mem (Membership.ensure sum64 now (Config.ID (cfg n)) (Config.PublicURL (cfg n)) (Peers.mem (conns n))) (conns n)) n in
    n ← seeds_loop times dials 0 (Config.Seeds (cfg n)) (prime n);
    Some (n, true).

(** ** [Stop] *)
Definition Stop (o : rangeOrder) (n : node) : option node :=
  if stopOnce n then Some n
  else if stopCh n then None
  else
    let sh := nshared (dplane n) in
    limiter ← (match Load.limiter sh with Some l => Some <$> Limiter.Stop l | None => Some None end);
    s ← closePeers sum64 o (conns n);
    Some (MkNode (cfg n)
      (MkPlane (Load.MkShared (Load.nd sh) (Lease.Stop (Load.leases sh)) limiter) (gossip (dplane n)) (loader (dplane n)) (pushed (dplane n)))
      (heat n) (Replay.Stop <$> hh n) s (reqID n) ((λ _, false) <$> listening n) true true).

(** ** Gossip *)
Definition nextReqID (n : node) : node * Z :=
  let id := u64 (reqID n + 1) in
  (MkNode (cfg n) (dplane n) (heat n) (hh n) (conns n) id (listening n) (stopCh n) (stopOnce n), id).
(** [sys] and [heapAlloc] are what the runtime reports. *)
Definition sampleLoad (sys heapAlloc : Z) (c : C) : Weights.NodeLoad :=
  let st := cstats c in
  let free := if heapAlloc <? sys then sys - heapAlloc else 0 in
  Weights.MkLoad (StatsSize st) (Evictions st) free 0.
(** The request and the peers it goes to, one after the other. *)
Definition sendGossip (o o' : rangeOrder) (sys heapAlloc : Z) (n : node) : node * (Z * Gossip.MsgGossip Weights.NodeLoad * list NodeID) :=
  let ld := sampleLoad sys heapAlloc (Node.local (nd (dplane n))) in
  let '(n, id) := nextReqID n in
  let msg := Gossip.sendGossip o (Config.ID (cfg n)) (Config.PublicURL (cfg n)) ld (Heat.exportTopK (heat n)).*1 (gossip (dplane n)) in
  (n, (id, msg, filter (λ p, p ≠ Config.ID (cfg n)) (Peers.peerIDs o' (conns n)))).

(** ** A started node *)
Definition self_meta (n : node) : Rendezvous.nodeMeta := Rendezvous.newMeta sum64 (Config.ID (cfg n)) (Config.PublicURL (cfg n)).

(** The node as [NewNode] made it but for membership and connections, with the ring of itself. *)
Record primed (n0 n : node) : Prop := {
  pr_cfg : cfg n = cfg n0;
  pr_node : Node.cfg (nd (dplane n)) = Node.cfg (nd (dplane n0));
  pr_leases : Load.leases (nshared (dplane n)) = Load.leases (nshared (dplane n0));
  pr_limiter : Load.limiter (nshared (dplane n)) = Load.limiter (nshared (dplane n0));
  pr_local : Node.local (nd (dplane n)) = Node.local (nd (dplane n0));
  pr_ring : Node.nring (nd (dplane n)) = Rendezvous.MkRing [self_meta n0] (Config.ReplicationFactor (cfg n0));
  pr_refs : Gossip.current_ring (gossip (dplane n)) = Rendezvous.MkRing [self_meta n0] (Config.ReplicationFactor (cfg n0));
  pr_hot : Node.hotSet (nd (dplane n)) = Gossip.hotSet (gossip (dplane n)) ∧ Gossip.hotSet (gossip (dplane n)) = ∅;
  pr_mem : Peers.mem (conns n) = Gossip.mem (gossip (dplane n));
  pr_conns : Peers.inv (conns n) ∧ Peers.locked (conns n) = false;
  pr_open : stopCh n = false ∧ stopOnce n = false;
  pr_rest : heat n = heat n0 ∧ hh n = hh n0 ∧ listening n = Some true }.

Lemma ensure_metas now id a m : ∃ x, Membership.metas (Membership.ensure sum64 now id a m) = Membership.metas m ++ x.
Proof. unfold Membership.ensure. destruct (Membership.peers m !! id); [exists []; by rewrite app_nil_r|by eexists]. Qed.

Lemma primed_seeded n0 n now dialed a : primed n0 n → primed n0 (put_conns (seeded sum64 now dialed a (conns n)) n).
Proof.
  intros P. pose proof P as [P1 P1' P2 P3 P4 P5 P6 P7 P8 [P9 P10] P11 P12]. destruct (seeded_inv sum64 now dialed a (conns n) P9 P10) as [Hi Hl].
  assert (∃ x, Membership.metas (Peers.mem (seeded sum64 now dialed a (conns n))) = Membership.metas (Gossip.mem (gossip (dplane n))) ++ x) as [x Hx].
  { rewrite <-P8. destruct dialed; [apply ensure_metas|exists []; by rewrite app_nil_r]. }
  assert (Gossip.current_ring (gossip (dplane (put_conns (seeded sum64 now dialed a (conns n)) n))) = Rendezvous.MkRing [self_meta n0] (Config.ReplicationFactor (cfg n0))) as Hr.
  { revert P6. unfold Gossip.current_ring. cbn. intros [= P6 <-]. f_equal. destruct (Gossip.ringRefs (gossip (dplane n))) as [|p [|]]; try done.
    cbn in *. injection P6 as P6. f_equal. unfold Membership.deref in *. rewrite Hx.
    destruct (Membership.metas (Gossip.mem (gossip (dplane n))) !! p) as [nm|] eqn:E; [by rewrite (lookup_app_l_Some _ _ _ _ E)|].
    apply (f_equal Rendezvous.weight) in P6. cbn in P6. done. }
  split; try done. destruct P7. by split.
Qed.

Lemma seeds_loop_primed times dials seeds n0 n i : primed n0 n → ∃ n', seeds_loop times dials i seeds n = Some n' ∧ primed n0 n'.
Proof.
  revert n i. induction seeds as [|a seeds IH]; intros n i P; cbn [seeds_loop]; [by exists n|].
  case_bool_decide; [by apply IH|]. rewrite ensureSeed_eq by apply P. cbn. apply IH. by apply primed_seeded.
Qed.

Lemma start_primes c local loader now times dials :
  ∃ n, Start true now times dials (NewNode c local loader) = Some (n, true) ∧ primed (NewNode c local loader) n.
Proof.
  set (n0 := NewNode c local loader). unfold Start. cbn [negb]. set (n1 := put_listening (Some true) n0).
  set (m1 := Membership.ensure sum64 now (Config.ID (cfg n1)) (Config.PublicURL (cfg n1)) (Peers.mem (conns n1))).
  set (n2 := put_conns (Peers.put_mem m1 (conns n1)) n1).
  assert (primed n0 (prime n2)) as P.
  { assert (Gossip.current_ring (gossip (dplane (prime n2))) = Rendezvous.MkRing [self_meta n0] (Config.ReplicationFactor (cfg n0))) as Hr.
    { unfold Gossip.current_ring. cbn. unfold Membership.deref. cbn. done. }
    split; done. }
  destruct (seeds_loop_primed times dials (Config.Seeds (cfg n2)) n0 (prime n2) 0 P) as (n' & E & P').
  exists n'. split; [by rewrite E|done].
Qed.

Lemma started_serves `{W : Serve.Wire} {Cert Pool : Type} (loadKeyPair : bytes → bytes → option Cert) (readPool : bytes → option Pool)
    maxprocs c local loader now times dials es :
  0 ≤ Config.ReplicationFactor c →
  Forall (λ e, match e with Serve.Accept str => is_bytes str | Serve.On _ _ => True end) es →
  ∃ n sv, Start true now times dials (NewNode c local loader) = Some (n, true) ∧
    Serve.run (NO := node_ops gzip gunzip sum64 oob) (Config.serveConfig loadKeyPair readPool maxprocs (cfg n)) (Serve.started (dplane n)) es = inl sv.
Proof.
  intros Hrf Hes. destruct (start_primes c local loader now times dials) as (n & E & P).
  assert (Config.ReplicationFactor (cfg (NewNode c local loader)) = Config.ReplicationFactor c) as Erf.
  { cbn. unfold Config.EnsureID. by case_bool_decide. }
  assert (healthy (dplane n)) as Hh.
  { split; [|split].
    - unfold leases. rewrite (pr_leases _ _ P). apply Lease.lease_inv_new.
    - unfold rf. rewrite (pr_ring _ _ P). cbn [Rendezvous.rf]. by rewrite Erf.
    - pose proof (f_equal Rendezvous.rf (pr_refs _ _ P)) as X. cbn [Gossip.current_ring Rendezvous.rf] in X. by rewrite X, Erf. }
  destruct (ServeTheorems.server_never_panics (NO := node_ops gzip gunzip sum64 oob) (NL := node_laws gzip gunzip sum64 oob)
    (Config.serveConfig loadKeyPair readPool maxprocs (cfg n)) (dplane n) es Hh Hes) as (sv & Hr & _).
  by exists n, sv.
Qed.


(** A started node is its own ring: before it has heard of anybody it owns every key and is its
    only owner, so that no operation finds a key without an owner. *)
Theorem started_node_owns_all c local loader now times dials k t :
  1 ≤ Config.ReplicationFactor c →
  ∃ n, Start true now times dials (NewNode c local loader) = Some (n, true) ∧
    Repair.ownersFor t k (nd (dplane n)) = Some [self_meta n] ∧
    Rendezvous.ownsHash (Node.nring (nd (dplane n))) (Config.ID (cfg n)) (Hash64 k) = true.
Proof.
  intros Hrf. destruct (start_primes c local loader now times dials) as (n & E & P). exists n. split; [done|].
  assert (Config.ReplicationFactor (cfg (NewNode c local loader)) = Config.ReplicationFactor c) as Erf.
  { cbn. unfold Config.EnsureID. by case_bool_decide. }
  unfold Repair.ownersFor. destruct (pr_hot _ _ P) as [-> ->]. rewrite (pr_ring _ _ P), lookup_empty, Erf. unfold self_meta. rewrite (pr_cfg _ _ P). split.
  - set (self := Rendezvous.newMeta _ _ _). unfold Rendezvous.ownersFromKeyHash. cbn [Rendezvous.nodes Rendezvous.rf].
    change (merge_sort _ [self]) with [self]. change (Z.of_nat (length [self])) with 1.
    destruct (Z.ltb_spec 1 (Config.ReplicationFactor c)); [done|]. by replace (Config.ReplicationFactor c) with 1 by lia.
  - unfold Rendezvous.ownsHash. cbn [Rendezvous.nodes Rendezvous.rf length]. rewrite bool_decide_eq_false_2 by done. cbn [orb].
    destruct (Z.leb_spec (Config.ReplicationFactor c) 0); [lia|]. replace (Z.to_nat _) with 1%nat by lia. cbn. by rewrite bool_decide_eq_true_2.
Qed.

(** Stopping closes everything once: the stop channel, the listener, the limiter, the lease
    sweeper, the hint replayer and every connection in the table, and stopping again does nothing. *)
Theorem stop_closes_once o o' n :
  stopCh n = false → stopOnce n = false → (∀ l, Load.limiter (nshared (dplane n)) = Some l → Limiter.stopped l = false) →
  Peers.inv (conns n) → Peers.locked (conns n) = false →
  ∃ n', Stop o n = Some n' ∧ stopCh n' = true ∧ listening n' = (λ _, false) <$> listening n ∧
    (∀ l, Load.limiter (nshared (dplane n')) = Some l → Limiter.stopped l = true) ∧ Lease.stopCh (leases (dplane n')) = true ∧
    (∀ h, hh n' = Some h → Replay.stopped h = true) ∧
    (∀ id l, Peers.getPeer id (conns n) = Some l → ∃ lk, Peers.links (conns n') !! l = Some lk ∧ Peers.up lk = false ∧ Peers.closedCh lk = true) ∧
    (∀ id, Peers.getPeer id (conns n') = None) ∧ Stop o' n' = Some n'.
Proof.
  intros Hc Ho Hlim X Hl. unfold Stop at 1. rewrite Ho, Hc. destruct (closePeers_spec sum64 o (conns n) X Hl) as (s' & ls & Es & Et & _ & _ & Hcl & Hls).
  assert (∃ lim, match Load.limiter (nshared (dplane n)) with Some l => Some <$> Limiter.Stop l | None => Some None end = Some lim ∧
    ∀ l, lim = Some l → Limiter.stopped l = true) as (lim & -> & Hst).
  { destruct (Load.limiter (nshared (dplane n))) as [l|]; [|by exists None]. unfold Limiter.Stop. rewrite (Hlim l eq_refl). eexists. split; [done|]. by intros ? [= <-]. }
  cbn [mbind option_bind]. rewrite Es. cbn [mbind option_bind]. eexists. split; [done|]. cbn. split_and!; try done.
  - intros h. destruct (hh n); [|done]. by intros [= <-].
  - intros id l Hg. assert (l ∈ ls) as Hin by (apply Hls; by exists id). destruct (Peers.in_table _ X id l Hg) as (lk & Hk & _).
    destruct (Hcl l lk Hk) as (lk' & E' & _ & Hx & _). exists lk'. destruct Hx; [by left|]. done.
  - intros id. unfold Peers.getPeer. by rewrite Et, lookup_empty.
Qed.
End Life.

(** ** Instances: the default configuration with two seeds, of which one answers *)
#[local] Existing Instance NodeTheorems.demo_keys.
#[local] Existing Instance NodeTheorems.bytes_codec.
#[local] Existing Instance NodeTheorems.bytes_inhabited.
Definition demo_config : Config.Config :=
  let d := Config.Default in
  Config.MkConfig [97] [58] [65] [[66]; []; [67]] (Config.ReplicationFactor d) (Config.WriteConcern d) (Config.ReadMaxFanout d) (Config.ReadHedgeDelay d)
    (Config.ReadHedgeInterval d) (Config.ReadPerTryTimeout d) (Config.GossipInterval d) (Config.SuspicionAfter d) (Config.TombstoneAfter d) (Config.WeightUpdate d)
    (Config.HotsetPeriod d) (Config.HotsetSize d) (Config.MirrorTTL d) (Config.LeaseTTL d) (Config.RebalanceInterval d) (Config.BackfillInterval d)
    (Config.RebalanceLimit d) (Config.Sec d) (Config.LWWEnabled d) (Config.PerConnWorkers d) (Config.PerConnQueue d) (Config.Handoff_ d).
Definition demo_local : InMemoryCache bytes bytes := Node.local NodeTheorems.demo_node.
Definition demo_new : node (C := InMemoryCache bytes bytes) := NewNode (hd 0) (λ _, 0) demo_config demo_local false.
Definition demo_dials (i : nat) : option NodeID := if (i =? 0)%nat then Some [98] else None.

Lemma started_node_owns_all_witness :
  ∃ n, Start (hd 0) true 1 (λ _, 2) demo_dials demo_new = Some (n, true) ∧
    Repair.ownersFor 3 ([5] : bytes) (nd (dplane n)) = Some [self_meta (hd 0) n] ∧
    Rendezvous.ownsHash (Node.nring (nd (dplane n))) (Config.ID (cfg n)) (Hash64 ([5] : bytes)) = true.
Proof. apply (started_node_owns_all (hd 0) (λ _, 0) demo_config demo_local false 1 (λ _, 2) demo_dials [5] 3). cbn. lia. Defined.
Lemma stop_closes_once_witness :
  ∃ n n', Start (hd 0) true 1 (λ _, 2) demo_dials demo_new = Some (n, true) ∧ Peers.getPeer [98] (conns n) = Some 0%nat ∧
    Stop (hd 0) inOrder n = Some n' ∧ Peers.getPeer [98] (conns n') = None ∧ Stop (hd 0) inOrder n' = Some n'.
Proof.
  destruct (start_primes (hd 0) (λ _, 0) demo_config demo_local false 1 (λ _, 2) demo_dials) as (n & E & P).
  destruct (pr_open _ _ _ P) as [H1 H2]. destruct (pr_conns _ _ _ P) as [H3 H4].
  destruct (stop_closes_once (hd 0) inOrder inOrder n H1 H2 ltac:(rewrite (pr_limiter _ _ _ P); done) H3 H4) as (n' & Es & _ & _ & _ & _ & _ & _ & Hg & Hs).
  exists n, n'. split; [exact E|]. split; [|split; [exact Es|split; [apply Hg|exact Hs]]].
  revert E. unfold Start. vm_compute. by intros [= <-].
Defined.
End Lifecycle.
