(* ===== verification/Adapter.v ===== *)
(** * The adapter ([src/cluster/adapter.go]) and the whole client calls of [src/cluster/client.go]

    [DistributedCache] makes a node look like the single-node cache.  Its calls are those of
    the node: here the local part of [Client], the replication of [Replication] over the
    connections of [Peers], the hints and the hot-key sampling act on one [Lifecycle.node].
    A call takes what the outside does meanwhile: the completions of its sends, the answers of
    its read legs, timers and the end of its context.  [None] as a result is a call that has
    not returned; [None] as a state is a panic. *)
From Stdlib Require Import ZArith Lia.
From stdpp Require Import base numbers list gmap sets sorting.
From S2P Require Import Prelude Heap Admission Shard Eviction Cache CacheInv CacheSpec CacheTheorems CacheIface Hlc KeyCodec Rendezvous Lease Membership Heat Handoff Replay Replication Node NodeTheorems Client Repair Load Gossip Transport Weights Serve ServeTheorems Dispatch Config Peers Lifecycle.
Local Open Scope Z_scope.

Module Adapter.
Import KeyCodec Lifecycle Dispatch.

(** [getCtx]: the time a call may take. *)
Definition getCtx (s : Config.Security) (write : bool) : Z :=
  let to := if write then Config.WriteTimeout s else Config.ReadTimeout s in
  if to <=? 0 then 3 * Config.Second else to.

(** The error of a read leg without a connection. *)
Definition errBadPeer : Z := 0.

Inductive callErr := EClient (e : Client.cliErr) | ERepl (e : Replication.replErr).

Section Adapter.
Context {C K V : Type} `{Ops : CacheOps C K V, St : CacheStats C, KC : KeyCodec K, VC : Node.Codec V}.
Context (gzip : bytes → bytes) (gunzip : bytes → option bytes) (sum64 : bytes → Z) (maphash : Z → bytes → Z).
Abbreviation node := (node (C := C)).

(** What happens while a call runs.  [healthy id]: the connection to [id] is not penalized. *)
Record surroundings := MkSurr {
  s_env : Node.env; s_added : NodeID → Z; s_now : NodeID → Z; s_sends : list Replication.event;
  s_healthy : NodeID → bool; s_answer : NodeID → Client.ans; s_read : list Client.event }.

Definition connected (n : node) (id : NodeID) : bool := bool_decide (is_Some (Peers.getPeer id (conns n))).
Definition put_nd (x : Node.Node C) (n : node) : node := put_plane (Dispatch.put_nd x (dplane n)) n.
Definition put_hh (h : option Replay.handoff) (n : node) : node :=
  MkNode (cfg n) (dplane n) (heat n) h (conns n) (reqID n) (listening n) (stopCh n) (stopOnce n).
Definition put_heat (h : Heat.heat) (n : node) : node :=
  MkNode (cfg n) (dplane n) h (hh n) (conns n) (reqID n) (listening n) (stopCh n) (stopOnce n).
Definition tuning (n : node) : Client.readTunNode :=
  let c := cfg n in Client.rtn (Config.ReadMaxFanout c) (Config.ReadHedgeDelay c) (Config.ReadHedgeInterval c) (Config.ReadPerTryTimeout c) (Config.ReadTimeout (Config.Sec c)).

(** A write that is replicated: the node keeps the hints, the caller gets the outcome. *)
Definition replicated (c : Replication.call) (n : node) : node * option (option callErr) :=
  (put_hh (Replication.hh c) n, option_map (option_map ERepl) (Replication.result c)).

Definition SetCtx (w : surroundings) (key : K) (val : V) (ttl : Z) (n : node) : node * option (option callErr) :=
  let '(x, r) := Client.Set_ (s_env w) key val ttl (nd (dplane n)) in
  let n := put_nd x n in
  match r with
  | inr e => (n, Some (Some (EClient e)))
  | inl wr => replicated (Replication.replicateSet (Node.maybeCompress gzip x) (connected n) (s_added w) (s_now w) (Config.WriteConcern (cfg n)) (Config.ID (cfg n))
                (Client.w_key wr) (Client.w_val wr) (Client.w_exp wr) (Client.w_ver wr) (Client.w_owners wr) (hh n) (s_sends w)) n
  end.
Definition DeleteCtx (w : surroundings) (key : K) (n : node) : node * option (option callErr) :=
  let '(x, r) := Client.Delete (s_env w) key (nd (dplane n)) in
  let n := put_nd x n in
  match r with
  | inr e => (n, Some (Some (EClient e)))
  | inl wr => replicated (Replication.replicateDelete (connected n) (s_added w) (s_now w) (Config.WriteConcern (cfg n)) (Config.ID (cfg n))
                (Client.w_key wr) (Client.w_owners wr) (Client.w_ver wr) (hh n) (s_sends w)) n
  end.
(** The key is sampled when the call returns. *)
Definition GetCtx (w : surroundings) (key : K) (n : node) : option (node * option (option V + Client.cliErr)) :=
  let '(x, r) := Client.Get gunzip (s_env w) (tuning n) (λ id, connected n id && s_healthy w id)
    (λ id, if connected n id then s_answer w id else Client.LegErr errBadPeer) (s_read w) key (nd (dplane n)) in
  let n := put_nd x n in
  match r with
  | None => Some (n, None)
  | Some r => h ← Heat.sample maphash (heat n) (EncodeKey key); Some (put_heat h n, Some r)
  end.
(** One step of [GetOrLoad]; a write it hands out is replicated on the side. *)
Definition GetOrLoadCtx (i : Load.input (V := V)) (key : K) (ph : Load.gphase (V := V)) (n : node) : option (node * Load.gphase * option Client.write) :=
  r ← Load.getOrLoad_step gunzip i key ph (nshared (dplane n));
  let '(s, ph, wr) := r in
  Some (put_plane (MkPlane s (gossip (dplane n)) (loader (dplane n)) (pushed (dplane n) ++ option_list wr)) n, ph, wr).

(** The calls without a context. *)
Definition Set_ (w : surroundings) (key : K) (val : V) (ttl : Z) (n : node) : node * option (option callErr) := SetCtx w key val ttl n.
Definition Delete (w : surroundings) (key : K) (n : node) : node * option bool :=
  let '(n, r) := DeleteCtx w key n in (n, option_map (λ e, match e with None => true | Some _ => false end) r).
Definition Get (w : surroundings) (key : K) (n : node) : option (node * option (option V)) :=
  match GetCtx w key n with
  | None => None
  | Some (n, r) => Some (n, option_map (λ x, match x with inl v => v | inr _ => None end) r)
  end.
Definition Clear (o : rangeOrder) (n : node) : node := put_nd (Node.put_local (cclear (Node.local (nd (dplane n))) o) (nd (dplane n))) n.
Definition Size (n : node) : Z := StatsSize (cstats (Node.local (nd (dplane n)))).
Definition Stats_ (n : node) : Stats := cstats (Node.local (nd (dplane n))).
Definition Close (o : rangeOrder) (n : node) : option node := Stop sum64 o n.

(** ** Deadlines *)
Lemma replicate_ctx hint conn wc self owners h es :
  Replication.CtxDone ∈ es → Replication.result (Replication.replicate hint conn wc self owners h es) ≠ None.
Proof.
  intros Hin. unfold Replication.replicate. set (fast := _ <=? 0). generalize (Replication.begin hint conn wc self owners h).
  assert (∀ es c, Replication.result c ≠ None → Replication.result (foldl (Replication.step hint conn fast) c es) ≠ None) as Hkeep.
  { induction es0 as [|e es0 IH]; intros c Hc; cbn [foldl]; [done|]. apply IH. destruct (Replication.result c) as [r|] eqn:E; [|done].
    destruct e as [id good| | |]; cbn [Replication.step]; [|rewrite E; by rewrite E..].
    unfold Replication.complete. case_bool_decide; [|congruence]. by destruct (_ && _); cbn; rewrite E. }
  intros c. revert c. clear -Hin Hkeep. induction es as [|e es IH]; [by apply elem_of_nil in Hin|]. intros c. cbn [foldl].
  apply elem_of_cons in Hin as [<-|Hin]; [|by apply IH]. apply Hkeep. cbn. destruct (Replication.result c) eqn:E; [by rewrite E|done].
Qed.
Lemma read_ctx legs maxFanout es : Client.CtxDone ∈ es → Client.out (Client.read_run legs maxFanout es) ≠ None.
Proof.
  intros Hin. unfold Client.read_run. generalize (Client.read_begin legs).
  assert (∀ es s, Client.out s ≠ None → Client.out (foldl (Client.read_step legs maxFanout) s es) ≠ None) as Hkeep.
  { induction es0 as [|e es0 IH]; intros s Hs; cbn [foldl]; [done|]. apply IH. unfold Client.read_step. destruct (Client.out s) eqn:E; [|done]. by rewrite E. }
  intros s. revert s. induction es as [|e es IH]; [by apply elem_of_nil in Hin|]. intros s. cbn [foldl].
  apply elem_of_cons in Hin as [<-|Hin]; [|by apply IH]. apply Hkeep. unfold Client.read_step.
  destruct (Client.out s) eqn:E; [by rewrite E|done].
Qed.

Ltac sampled := cbn; destruct (Heat.sample _ _ _); [|done]; cbn; by intros [= _ <-].

(** Every call returns when its context ends, and the contexts of the calls without one always
    end: their time is positive. *)
Theorem calls_return_by_deadline w key val ttl n s wr :
  Replication.CtxDone ∈ s_sends w → Client.CtxDone ∈ s_read w →
  (Set_ w key val ttl n).2 ≠ None ∧ (Delete w key n).2 ≠ None ∧ (∀ n' r, Get w key n = Some (n', r) → r ≠ None) ∧ 0 < getCtx s wr.
Proof.
  intros H1 H2. split_and!.
  - unfold Set_, SetCtx. destruct (Client.Set_ _ _ _ _ _) as [x [r|e]]; [|done]. unfold replicated, Replication.replicateSet. cbn.
    destruct (Node.maybeCompress gzip x (Client.w_val r)) as [b cp]. pose proof (replicate_ctx) as X.
    match goal with |- context [Replication.replicate ?h ?c ?wc ?self ?os ?hh ?es] => specialize (X h c wc self os hh es H1); destruct (Replication.result (Replication.replicate h c wc self os hh es)) end; done.
  - unfold Delete, DeleteCtx. destruct (Client.Delete _ _ _) as [x [r|e]]; [|done]. unfold replicated, Replication.replicateDelete. cbn.
    pose proof (replicate_ctx) as X.
    match goal with |- context [Replication.replicate ?h ?c ?wc ?self ?os ?hh ?es] => specialize (X h c wc self os hh es H1); destruct (Replication.result (Replication.replicate h c wc self os hh es)) end; done.
  - intros n' r. unfold Get, GetCtx, Client.Get. destruct (Rendezvous.ownersFromKeyHash _ _) as [[|o os]|].
    1, 3: sampled.
    destruct (existsb _ _); [destruct (cget _ _ _ _) as [c [v|]]; [sampled|]|].
    all: case_decide; [sampled|].
    all: match goal with |- context [Client.read_run ?l ?m ?es] =>
           pose proof (read_ctx l m es H2) as X; destruct (Client.out (Client.read_run l m es)) as [rr|]; [|done] end.
    all: destruct rr; sampled.
  - unfold getCtx. case_match eqn:E; [done|]. lia.
Qed.

(** ** A cluster of one *)
Definition heat_ok (h : Heat.heat) : Prop := Heat.ss_inv (Heat.ss h) ∧ Heat.width (Heat.cms h) ≠ 0.
Lemma sample_ok h b : heat_ok h → ∃ h', Heat.sample maphash h b = Some h' ∧ heat_ok h'.
Proof.
  intros [H1 H2]. assert (∀ h, heat_ok h → ∃ h', Heat.record maphash h b = Some h' ∧ heat_ok h') as Hr.
  { intros h' [X1 X2]. unfold Heat.record, Heat.cms_add. rewrite (proj2 (Z.eqb_neq _ _) X2). cbn.
    destruct (Heat.ss_add_spec (Heat.ss h') b 1 X1) as (s' & l & E & X & _); [unfold is_u64; lia|]. rewrite E. cbn. by eexists. }
  unfold Heat.sample. case_match; [by apply Hr|]. case_match; [by apply Hr|]. by eexists.
Qed.

Inductive op := OSet (k : K) (v : V) (ttl : Z) | OGet (k : K) | ODelete (k : K) | OClear (o : rangeOrder).
Inductive answer := AWritten (e : option callErr) | AFound (r : option V) | ADeleted (b : bool) | ACleared.

Definition adapter_op (n : node) (wo : surroundings * op) : option (node * option answer) :=
  match wo.2 with
  | OSet k v ttl => let '(n, r) := Set_ wo.1 k v ttl n in Some (n, option_map AWritten r)
  | OGet k => match Get wo.1 k n with None => None | Some (n, r) => Some (n, option_map AFound r) end
  | ODelete k => let '(n, r) := Delete wo.1 k n in Some (n, option_map ADeleted r)
  | OClear o => Some (Clear o n, Some ACleared)
  end.
Fixpoint adapter_run (n : node) (ops : list (surroundings * op)) : option (node * list (option answer)) :=
  match ops with
  | [] => Some (n, [])
  | wo :: ops =>
      match adapter_op n wo with
      | None => None
      | Some (n, a) => match adapter_run n ops with None => None | Some (n, r) => Some (n, a :: r) end
      end
  end.

(** The same calls on the cache alone; a write and a deletion always succeed. *)
Definition cache_op (c : C) (wo : surroundings * op) : C * answer :=
  let e := s_env wo.1 in
  match wo.2 with
  | OSet k v ttl => ((cset c k v ttl (Node.e_rt e)).1, AWritten None)
  | OGet k => let '(c, r) := cget c k (Node.e_now e) (Node.e_now' e) in (c, AFound r)
  | ODelete k => ((cdelete c k).1, ADeleted true)
  | OClear o => (cclear c o, ACleared)
  end.
Fixpoint cache_run (c : C) (ops : list (surroundings * op)) : C * list answer :=
  match ops with
  | [] => (c, [])
  | wo :: ops => let '(c, a) := cache_op c wo in let '(c, r) := cache_run c ops in (c, a :: r)
  end.

Definition local_of (n : node) : C := Node.local (nd (dplane n)).
Definition fits (n : node) (wo : surroundings * op) : Prop :=
  let c := Node.cfg (nd (dplane n)) in
  match wo.2 with
  | OSet k v _ => Node.too_large (Node.MaxKeySize c) (EncodeKey k) = false ∧
      ∃ bv, Node.Encode v = Some bv ∧ Node.too_large (Node.MaxValueSize c) bv = false
  | ODelete k => Node.too_large (Node.MaxKeySize c) (EncodeKey k) = false
  | _ => True
  end.

(** The ring holds the node and nobody else, and one acknowledgement is enough. *)
Record lone (n : node) : Prop := {
  lo_ring : ∃ m r, Node.nring (nd (dplane n)) = Rendezvous.MkRing [m] r ∧ Rendezvous.ID m = Config.ID (cfg n) ∧ 1 ≤ r;
  lo_self : Node.SelfID (Node.cfg (nd (dplane n))) = Config.ID (cfg n);
  lo_wc : Config.WriteConcern (cfg n) ≤ 1;
  lo_heat : heat_ok (heat n) }.

Lemma owners_one m r h : 1 ≤ r → Rendezvous.ownersFromKeyHash (Rendezvous.MkRing [m] r) h = Some [m].
Proof.
  intros Hr. unfold Rendezvous.ownersFromKeyHash. cbn [Rendezvous.nodes Rendezvous.rf].
  change (merge_sort _ [m]) with [m]. change (Z.of_nat (length [m])) with 1.
  destruct (Z.ltb_spec 1 r); [done|]. by replace r with 1 by lia.
Qed.
(** With itself as the only owner a write is through at once. *)
Lemma replicate_alone hint conn wc m es h :
  wc ≤ 1 → Replication.result (Replication.replicate hint conn wc (Rendezvous.ID m) [m] h es) = Some None.
Proof.
  intros Hw. unfold Replication.replicate. assert (Replication.required wc - Replication.self_acks (Rendezvous.ID m) [m] = 0) as ->.
  { unfold Replication.required. cbn. rewrite bool_decide_eq_true_2 by done. destruct (Z.ltb_spec wc 1); lia. }
  cbn [Z.leb Z.compare]. unfold Replication.begin. assert (Replication.required wc - Replication.self_acks (Rendezvous.ID m) [m] = 0) as ->.
  { unfold Replication.required. cbn. rewrite bool_decide_eq_true_2 by done. destruct (Z.ltb_spec wc 1); lia. }
  cbn [Z.leb Z.compare]. set (c := Replication.MkCall _ _ _ _ _ _ _). assert (Replication.result c = Some None) as Hc by done. clearbody c. revert c Hc.
  induction es as [|e es IH]; intros c Hc; cbn [foldl]; [done|]. apply IH.
  destruct e as [id good| | |]; cbn [Replication.step]; [|by rewrite Hc..]. unfold Replication.complete. case_bool_decide; [|done]. by destruct (_ && _).
Qed.

Lemma lone_nd x h n :
  lone n → Node.nring x = Node.nring (nd (dplane n)) → Node.cfg x = Node.cfg (nd (dplane n)) → lone (put_hh h (put_nd x n)).
Proof. intros [(m & r & X1 & X2 & X3) L2 L3 L4] E1 E2. split; cbn; [|by rewrite E2|done|done]. exists m, r. by rewrite E1. Qed.

Lemma alone_op n wo :
  lone n → fits n wo →
  ∃ n', adapter_op n wo = Some (n', Some (cache_op (local_of n) wo).2) ∧ local_of n' = (cache_op (local_of n) wo).1 ∧ lone n' ∧
    Node.cfg (nd (dplane n')) = Node.cfg (nd (dplane n)).
Proof.
  intros L Hf. pose proof L as [(m & r & Er & Em & Hr) Hself Hwc Hheat]. destruct wo as [w [k v ttl|k|k|o]]; cbn [adapter_op cache_op fst snd].
  - destruct Hf as (Hk & bv & Ev & Hv). unfold Set_, SetCtx, Client.Set_. rewrite Hk, Er, owners_one, Ev, Hv by done. unfold Client.next_version.
    destruct (Hlc.Next _ _) as [hc ver]. cbn [Client.primary_is Node.cfg Node.put_clock]. rewrite Em, Hself, bool_decide_eq_true_2 by done.
    set (x := if Node.LWWEnabled _ then _ else _). assert (Node.local x = (cset (local_of n) k v ttl (Node.e_rt (s_env w))).1 ∧
      Node.nring x = Node.nring (nd (dplane n)) ∧ Node.cfg x = Node.cfg (nd (dplane n))) as (Hx1 & Hx2 & Hx3) by (unfold x; by destruct (Node.LWWEnabled _)).
    clearbody x. unfold replicated, Replication.replicateSet. cbn [cfg put_nd put_plane Client.w_val Client.w_owners]. rewrite <-Em.
    destruct (Node.maybeCompress gzip x bv) as [b cp]. rewrite replicate_alone by done. eexists. split; [done|]. split; [done|]. split; [by apply lone_nd|done].
  - unfold Get, GetCtx, Client.Get. rewrite Er, owners_one by done. cbn [existsb]. rewrite Em, Hself, bool_decide_eq_true_2 by done. cbn [orb].
    fold (local_of n). destruct (cget (local_of n) k _ _) as [c rv] eqn:Ec. destruct (sample_ok (heat n) (EncodeKey k) Hheat) as (h' & Eh & Hh').
    assert (∀ f, Client.candidates (Config.ID (cfg n)) f [m] = []) as Hcand.
    { intros f. unfold Client.candidates. by rewrite filter_cons_False by (rewrite Em; tauto). }
    set (x := Node.put_local c (nd (dplane n))). exists (put_heat h' (put_nd x n)).
    assert (lone (put_heat h' (put_nd x n))) as L'. { split; try done. exists m, r. by rewrite <-Er. }
    destruct rv as [v|]; cbn [snd]; [|rewrite Hcand; cbn [fmap list_fmap]; rewrite decide_True by done]; cbn [heat put_nd put_plane]; by rewrite Eh.
  - unfold Delete, DeleteCtx, Client.Delete. cbn in Hf. rewrite Hf, Er, owners_one by done. unfold Client.next_version.
    destruct (Hlc.Next _ _) as [hc ver]. cbn [Client.primary_is Node.cfg Node.put_clock]. rewrite Em, Hself, bool_decide_eq_true_2 by done.
    set (x := if Node.LWWEnabled _ then _ else _). assert (Node.local x = (cdelete (local_of n) k).1 ∧
      Node.nring x = Node.nring (nd (dplane n)) ∧ Node.cfg x = Node.cfg (nd (dplane n))) as (Hx1 & Hx2 & Hx3) by (unfold x; by destruct (Node.LWWEnabled _)).
    clearbody x. unfold replicated, Replication.replicateDelete. cbn [cfg put_nd put_plane Client.w_owners]. rewrite <-Em.
    rewrite replicate_alone by done. eexists. split; [done|]. split; [done|]. split; [by apply lone_nd|done].
  - eexists. split; [done|]. split; [done|]. split; [|done]. split; try done. exists m, r. by rewrite <-Er.
Qed.


(** A started node is alone until it hears of others. *)
Theorem started_is_alone makeSeed c local loader now times dials :
  1 ≤ Config.ReplicationFactor c → Config.WriteConcern c ≤ 1 →
  ∃ n, Start sum64 true now times dials (NewNode sum64 makeSeed c local loader) = Some (n, true) ∧ lone n ∧ local_of n = local.
Proof.
  intros Hr Hw. destruct (start_primes sum64 makeSeed c local loader now times dials) as (n & E & P). exists n. split; [done|].
  assert (∀ f : Config.Config → Z, (∀ i d, f (Config.put_id i d) = f d) → (∀ h d, f (put_handoff h d) = f d) →
    f (cfg (NewNode (C := C) sum64 makeSeed c local loader)) = f c) as Hcfg.
  { intros f H1 H2. cbn. unfold Config.EnsureID. case_bool_decide; by rewrite ?H1, H2. }
  split; [|exact (pr_local _ _ _ P)]. pose proof (pr_node _ _ _ P) as Hn. split.
  - exists (self_meta sum64 (NewNode sum64 makeSeed c local loader)), (Config.ReplicationFactor c). split_and!; [|by rewrite (pr_cfg _ _ _ P)|done].
    rewrite (pr_ring _ _ _ P). f_equal. by apply Hcfg.
  - by rewrite Hn, (pr_cfg _ _ _ P).
  - rewrite (pr_cfg _ _ _ P). by rewrite (Hcfg Config.WriteConcern).
  - destruct (pr_rest _ _ _ P) as (-> & _). split; [apply Heat.ss_new_inv|done].
Qed.
End Adapter.

(** ** Instances: the started node of [Lifecycle] *)
#[local] Existing Instance NodeTheorems.demo_keys.
#[local] Existing Instance NodeTheorems.bytes_codec.
#[local] Existing Instance NodeTheorems.bytes_inhabited.
Definition surr (t : Z) : surroundings :=
  MkSurr (NodeTheorems.at_time t) (λ _, t) (λ _, t) [Replication.CtxDone] (λ _, true) (λ _, Client.CleanMiss) [Client.CtxDone].
Definition demo_ops : list (surroundings * op (K := bytes) (V := bytes)) :=
  [(surr 3, OGet [5]); (surr 4, OSet [5] [10] 0); (surr 5, OGet [5]); (surr 6, ODelete [5]); (surr 7, OGet [5]); (surr 8, ODelete [5])].


Lemma calls_return_by_deadline_witness :
  (Set_ (λ b, b) (surr 4) ([5] : bytes) ([10] : bytes) 0 demo_new).2 ≠ None ∧ 0 < getCtx (Config.Sec demo_config) true.
Proof.
  destruct (calls_return_by_deadline (λ b, b) NodeTheorems.no_gzip (λ s b, s) (surr 4) ([5] : bytes) ([10] : bytes) 0 demo_new (Config.Sec demo_config) true)
    as (H1 & _ & _ & H2); [by left|by left|]. by split.
Defined.
End Adapter.
