(* ===== verification/Cluster.v ===== *)
(** * A cluster of nodes

    Several nodes as [Lifecycle] builds them, with the calls of [src/cluster/client.go] and
    [src/cluster/replication.go] on one of them and the handlers of [src/cluster/node.go] on the
    others put together: a write reaches the other owners as the message that the replicator
    sends and the reply decides what the sender counts; a leg of a read is answered by [rpcGet].
    What the network does is an argument: in which order messages arrive, which of them are
    lost, which replies are lost, when the caller looks at its channel or gives up. *)
From Stdlib Require Import ZArith Lia.
From stdpp Require Import base numbers list gmap sets sorting.
From S2P Require Import Prelude Heap Admission Shard Eviction Cache CacheInv CacheSpec CacheTheorems CacheIface Hlc KeyCodec Rendezvous Lease Membership Heat Handoff Replay Replication Node NodeTheorems Client Repair Load Gossip Transport Weights Serve ServeTheorems Dispatch Config Peers Lifecycle Adapter.
Local Open Scope Z_scope.

Module Cluster.
Import KeyCodec Lifecycle Dispatch Adapter.

Section Cluster.
Context {C K V : Type} `{Ops : CacheOps C K V, St : CacheStats C, KC : KeyCodec K, VC : Node.Codec V}.
Context (gzip : bytes → bytes) (gunzip : bytes → option bytes) (maphash : Z → bytes → Z).
Abbreviation node := (node (C := C)).
Abbreviation data n := (nd (dplane n)).
Abbreviation cluster := (gmap NodeID node).

(** ** One message *)

(** Whether the request arrives, and whether the reply does. *)
Inductive fate := Delivered | ReplyLost | Lost.
Definition arrives (f : fate) : bool := match f with Lost => false | _ => true end.
Definition answered (f : fate) : bool := match f with Delivered => true | _ => false end.

Definition on_node {A} (id : NodeID) (f : Node.Node C → Node.Node C * A) (cl : cluster) : cluster * option A :=
  match cl !! id with
  | None => (cl, None)
  | Some n => let '(x, r) := f (data n) in (<[id := put_nd x n]> cl, Some r)
  end.

(** ** Writes *)

(** What happens while a write is replicated. *)
Inductive netEvent := Send (id : NodeID) (e : Node.env) (f : fate) | Caller (ev : Replication.event).

(** [pending]: the owners whose send is not through.  A send without a connection reaches
    nobody; it is good when the reply came and said [OK]. *)
Fixpoint network (handler : Node.env → Node.Node C → Node.Node C * Node.MsgResp) (connected : NodeID → bool)
    (pending : list NodeID) (evs : list netEvent) (cl : cluster) : cluster * list Replication.event :=
  match evs with
  | [] => (cl, [])
  | Send id e f :: evs =>
      if bool_decide (id ∈ pending) then
        let '(cl, r) := if connected id && arrives f then on_node id (handler e) cl else (cl, None) in
        let good := answered f && match r with Some resp => Node.OK resp | None => false end in
        let '(cl, es) := network handler connected (filter (λ x, x ≠ id) pending) evs cl in
        (cl, Replication.Complete id good :: es)
      else network handler connected pending evs cl
  | Caller (Replication.Complete _ _) :: evs => network handler connected pending evs cl
  | Caller ev :: evs => let '(cl, es) := network handler connected pending evs cl in (cl, ev :: es)
  end.

Definition with_sends (es : list Replication.event) (w : surroundings) : surroundings :=
  MkSurr (s_env w) (s_added w) (s_now w) es (s_healthy w) (s_answer w) (s_read w).

Definition clusterSet (a : NodeID) (w : surroundings) (evs : list netEvent) (key : K) (val : V) (ttl : Z) (cl : cluster)
    : cluster * option (option callErr) :=
  match cl !! a with
  | None => (cl, None)
  | Some n =>
      let '(x, r) := Client.Set_ (s_env w) key val ttl (data n) in
      let '(cl, es) :=
        match r with
        | inr _ => (cl, [])
        | inl wr =>
            let '(b2, cp) := Node.maybeCompress gzip x (Client.w_val wr) in
            let msg := Node.MkSet (Client.w_key wr) b2 (Client.w_exp wr) (Client.w_ver wr) cp in
            network (λ e, Node.rpcSet gunzip e msg) (connected n) (Replication.targets (Config.ID (cfg n)) (Client.w_owners wr)) evs cl
        end in
      let '(n, r) := SetCtx gzip (with_sends es w) key val ttl n in (<[a := n]> cl, r)
  end.
Definition clusterDelete (a : NodeID) (w : surroundings) (evs : list netEvent) (key : K) (cl : cluster)
    : cluster * option (option callErr) :=
  match cl !! a with
  | None => (cl, None)
  | Some n =>
      let '(x, r) := Client.Delete (s_env w) key (data n) in
      let '(cl, es) :=
        match r with
        | inr _ => (cl, [])
        | inl wr =>
            let msg := Node.MkDel (Client.w_key wr) (Client.w_ver wr) in
            network (λ e, Node.rpcDel e msg) (connected n) (Replication.targets (Config.ID (cfg n)) (Client.w_owners wr)) evs cl
        end in
      let '(n, r) := DeleteCtx (with_sends es w) key n in (<[a := n]> cl, r)
  end.

(** ** Reads *)

(** What [startLeg] makes of a reply; the text of an error other than "not found" is not kept. *)
Definition errText : Z := 1.
Definition leg_of (r : Node.MsgGetResp) : Client.ans :=
  match Node.gErr r with
  | Some Node.errNotFound => Client.CleanMiss
  | Some _ => Client.LegErr errText
  | None => if Node.gFound r then Client.Hit (Node.gVal r) (Node.gCp r) else Client.CleanMiss
  end.
(** [at_] is the moment at which a node handles the request, [f] what the network does to it. *)
Definition answer_of (at_ : NodeID → Node.env) (f : NodeID → fate) (key : K) (cl : cluster) (id : NodeID) : Client.ans :=
  if answered (f id) then
    match (on_node id (Node.rpcGet gzip (at_ id) (EncodeKey key)) cl).2 with
    | Some r => leg_of r
    | None => Client.LegErr errBadPeer
    end
  else Client.LegErr errBadPeer.
Definition serve_get (at_ : NodeID → Node.env) (f : NodeID → fate) (key : K) (cl : cluster) (id : NodeID) : cluster :=
  if arrives (f id) then (on_node id (Node.rpcGet gzip (at_ id) (EncodeKey key)) cl).1 else cl.

(** The candidates the loop has asked when it ends. *)
Definition consulted (w : surroundings) (answer : NodeID → Client.ans) (key : K) (n : node) : list NodeID :=
  let x := data n in
  match Rendezvous.ownersFromKeyHash (Node.nring x) (Hash64 key) with
  | None | Some [] => []
  | Some owners =>
      let self := Node.SelfID (Node.cfg x) in
      let found := existsb (λ o, bool_decide (Rendezvous.ID o = self)) owners &&
                   bool_decide (is_Some (cget (Node.local x) key (Node.e_now (s_env w)) (Node.e_now' (s_env w))).2) in
      if found then []
      else
        let cands := Rendezvous.ID <$> Client.candidates self (λ id, connected n id && s_healthy w id) owners in
        let maxFanout := Z.to_nat (Z.min (Client.fanout (tuning n)) (Z.of_nat (length cands))) in
        filter (λ id, connected n id = true) (take (Client.nextIdx (Client.read_run (answer <$> cands) maxFanout (s_read w))) cands)
  end.

Definition clusterGet (b : NodeID) (w : surroundings) (at_ : NodeID → Node.env) (f : NodeID → fate) (key : K) (cl : cluster)
    : option (cluster * option (option V + Client.cliErr)) :=
  match cl !! b with
  | None => Some (cl, None)
  | Some n =>
      let w := MkSurr (s_env w) (s_added w) (s_now w) (s_sends w) (s_healthy w) (answer_of at_ f key cl) (s_read w) in
      let asked := consulted w (λ id, if connected n id then answer_of at_ f key cl id else Client.LegErr errBadPeer) key n in
      '(n, r) ← GetCtx gunzip maphash w key n; Some (<[b := n]> (foldl (serve_get at_ f key) cl asked), r)
  end.

End Cluster.

(** ** What the network does to one node *)
Section Network.
Context {C : Type}.
Abbreviation node := (node (C := C)).
Abbreviation cluster := (gmap NodeID node).
Abbreviation data n := (nd (dplane n)).
Implicit Types (handler : Node.env → Node.Node C → Node.Node C * Node.MsgResp) (conn : NodeID → bool) (pending : list NodeID) (evs : list netEvent) (id : NodeID).

(** The first message to [id] decides what happens to it. *)
Fixpoint first_send (id : NodeID) (evs : list netEvent) : option (Node.env * fate) :=
  match evs with
  | [] => None
  | Send i e f :: evs => if decide (i = id) then Some (e, f) else first_send id evs
  | Caller _ :: evs => first_send id evs
  end.
Definition reached (handler : Node.env → Node.Node C → Node.Node C * Node.MsgResp) (conn : NodeID → bool) (pending : list NodeID)
    (evs : list netEvent) (id : NodeID) (n : node) : node :=
  match first_send id evs with
  | Some (e, f) => if bool_decide (id ∈ pending) && conn id && arrives f then put_nd (handler e (data n)).1 n else n
  | None => n
  end.

Lemma network_effect handler conn pending evs (cl : cluster) id :
  (network handler conn pending evs cl).1 !! id = reached handler conn pending evs id <$> cl !! id.
Proof.
  revert pending cl. induction evs as [|[i e f|r] evs IH]; intros pending cl; cbn [network].
  - cbn [fst]. by destruct (cl !! id).
  - destruct (bool_decide_reflect (i ∈ pending)) as [Hi|Hi].
    + set (step := if conn i && arrives f then on_node i (handler e) cl else (cl, None)).
      assert (step.1 !! id = (λ n, if decide (i = id) then if conn i && arrives f then put_nd (handler e (data n)).1 n else n else n) <$> cl !! id) as Hstep.
      { unfold step, on_node. destruct (decide (i = id)) as [<-|Hne].
        - destruct (conn i && arrives f); cbn [fst]; [|by destruct (cl !! i)]. destruct (cl !! i) as [n|] eqn:E; cbn [fst]; [|by rewrite E].
          cbn [fmap option_fmap option_map]. destruct (handler e (data n)). cbn [fst]. by rewrite lookup_insert_eq.
        - destruct (conn i && arrives f); cbn [fst]; [|by destruct (cl !! id)].
          destruct (cl !! i) as [n|]; cbn [fst]; [|by destruct (cl !! id)].
          destruct (handler e (data n)). cbn [fst]. rewrite lookup_insert_ne by done. by destruct (cl !! id). }
      destruct step as [cl1 r]. cbn [fst] in Hstep. pose proof (IH (filter (λ x, x ≠ i) pending) cl1) as HI.
      destruct (network handler conn (filter (λ x, x ≠ i) pending) evs cl1) as [cl2 es]. cbn [fst] in *. rewrite HI, Hstep, <-option_fmap_compose.
      destruct (cl !! id) as [n|]; [|done]. cbn [fmap option_fmap option_map]. f_equal. unfold compose, reached. cbn [first_send]. destruct (decide (i = id)) as [<-|Hne].
      * rewrite (bool_decide_eq_false_2 (i ∈ filter _ _)) by (rewrite list_elem_of_filter; tauto). rewrite bool_decide_eq_true_2 by done. cbn [andb].
        by destruct (first_send i evs) as [[]|], (conn i && arrives f).
      * destruct (first_send id evs) as [[e' f']|]; [|done].
        rewrite (bool_decide_ext (id ∈ filter _ _) (id ∈ pending)) by (rewrite list_elem_of_filter; naive_solver). done.
    + rewrite IH. destruct (cl !! id) as [n|]; [|done]. cbn [fmap option_fmap option_map]. f_equal. unfold reached. cbn [first_send]. destruct (decide (i = id)) as [<-|]; [|done].
      rewrite (bool_decide_eq_false_2 (i ∈ pending)) by done. cbn. by destruct (first_send i evs) as [[]|].
  - specialize (IH pending cl). destruct r; try exact IH; destruct (network handler conn pending evs cl); exact IH.
Qed.

End Network.

(** ** A cluster in agreement

    All nodes use one ring and the same limits.  [T] is a time that no clock is ahead of, [b]
    how many more reads the caches can take, [S] what a single map would hold. *)
Section Agreement.
Context {C K V : Type} `{EqDecision K, Ops : !CacheOps C K V, Laws : !CacheLaws C K V, St : CacheStats C}.
Context (KC : KeyCodec K) (dom : K → Prop) (KCL : KeyCodecLaws KC dom) `{VC : Node.Codec V}.
Context (gzip : bytes → bytes) (gunzip : bytes → option bytes) (maphash : Z → bytes → Z).
Context (ring : Rendezvous.ring) (maxKey maxVal : Z).
Abbreviation node := (node (C := C)).
Abbreviation cluster := (gmap NodeID node).
Abbreviation data n := (nd (dplane n)).
Abbreviation local_data n := (Node.local (nd (dplane n))).
Implicit Types (T t : Z) (b : nat) (S : K → option V) (k : K) (id a : NodeID) (n m : node).
Implicit Types (handler : Node.env → Node.Node C → Node.Node C * Node.MsgResp) (conn : NodeID → bool) (pending : list NodeID) (evs : list netEvent).

Definition owners (k : K) : list Rendezvous.nodeMeta := default [] (Rendezvous.ownersFromKeyHash ring (Hash64 k)).
Definition owner_ids (k : K) : list NodeID := Rendezvous.ID <$> owners k.

Record in_step (T : Z) (b : nat) (id : NodeID) (x : Node.Node C) : Prop := {
  st_self : Node.SelfID (Node.cfg x) = id;
  st_ring : Node.nring x = ring;
  st_lww : Node.LWWEnabled (Node.cfg x) = true;
  st_limits : Node.MaxKeySize (Node.cfg x) = maxKey ∧ Node.MaxValueSize (Node.cfg x) = maxVal;
  st_wf : wf b (Node.local x);
  st_clock : Hlc.in_range (Node.clock x) ∧ Hlc.physMS (Node.clock x) ≤ T;
  st_versions : ∀ kb, Node.version_of x kb < (T + 1) * 2 ^ 16 }.
Record member (T : Z) (b : nat) (id : NodeID) (n : node) : Prop := {
  mb_id : Config.ID (cfg n) = id;
  mb_data : in_step T b id (data n);
  mb_heat : heat_ok (heat n) }.
Record agrees (T : Z) (b : nat) (S : K → option V) (cl : cluster) : Prop := {
  ag_member id n : cl !! id = Some n → member T b id n;
  ag_copies k id n v e : dom k → id ∈ owner_ids k → cl !! id = Some n → cfind (local_data n) k = Some (v, e) → S k = Some v }.

Definition upd (k : K) (r : option V) (S : K → option V) : K → option V := λ k', if decide (k' = k) then r else S k'.

(** ** Time *)
Lemma in_step_later T T' b b' id x : T ≤ T' → (b' ≤ b)%nat → in_step T b id x → in_step T' b' id x.
Proof.
  intros HT Hb [H1 H2 H3 H4 H5 [H6 H6'] H7]. split; try done; [by eapply wf_le|split; [done|lia]|].
  intros kb. specialize (H7 kb). lia.
Qed.

(** A write issued after [T] is newer than anything stored. *)
Lemma next_is_newer T b id x e x' ver :
  in_step T b id x → T < Node.e_ms e < 2 ^ 48 - 2 → Client.next_version e x = (x', ver) →
  ver = Node.e_ms e * 2 ^ 16 + Hlc.nodeID (Node.clock x) ∧ 0 ≤ Hlc.nodeID (Node.clock x) < 256 ∧
  x' = Node.put_clock (Hlc.MkHLC (Node.e_ms e) 0 (Hlc.nodeID (Node.clock x))) x.
Proof.
  intros X Ht. unfold Client.next_version, Hlc.Next. destruct (st_clock _ _ _ _ X) as [(Hp & Hs & Hn) Hle].
  destruct (Z.ltb_spec (Hlc.physMS (Node.clock x)) (Node.e_ms e)); [|lia]. cbn. intros [= <- <-].
  rewrite Hlc.packHLC_eq by lia. split; [lia|]. done.
Qed.

(** What a write of [k], issued at [t0] and through by [t1], leaves on a node it reached. *)
Definition wrote (t1 : Z) (b : nat) (id : NodeID) (k : K) (r : option V) (x x' : Node.Node C) : Prop :=
  in_step t1 b id x' ∧ (∀ v e, cfind (Node.local x') k = Some (v, e) → r = Some v) ∧ others_kept k (Node.local x) (Node.local x').

Lemma observe_step T t1 b id x e kb ver c :
  in_step T b id x → wf b c → 0 ≤ Node.e_ms e ≤ t1 → t1 < 2 ^ 48 - 1 → T < t1 →
  0 ≤ ver < t1 * 2 ^ 16 →
  in_step t1 b id (Node.record_version e kb ver (Node.put_local c x)).
Proof.
  intros [H1 H2 H3 H4 H5 [H6 H6'] H7] Hw He Ht HT Hv. assert (is_u64 ver) as Hu by (unfold is_u64; lia).
  destruct (Hlc.unpack_range ver Hu) as (p & s & n & Eu & Es & Hp & Hs & Hn & ->).
  destruct (Hlc.Observe_spec (Node.e_ms e) (p * 2 ^ 16 + (s * 2 ^ 8 + n)) (Node.clock x) p s n) as (X1 & X2 & _ & _ & X3); [done|lia|lia|done..|lia|lia|].
  cbv zeta in X1, X2, X3. split; try done.
  - cbn [Node.record_version Node.clock Node.put_clock Node.put_version Node.put_local]. split; [done|]. lia.
  - intros kb'. unfold Node.version_of. cbn [Node.record_version Node.version Node.put_clock Node.put_version Node.put_local]. destruct (decide (kb' = kb)) as [->|Hne].
    + rewrite lookup_insert_eq. cbn. lia.
    + rewrite lookup_insert_ne by done. specialize (H7 kb'). unfold Node.version_of in H7. lia.
Qed.

(** ** Handlers *)
Lemma set_reaches T t1 b id x e kb s k v vb :
  in_step T b id x → 0 ≤ Node.e_ms e ≤ t1 → t1 < 2 ^ 48 - 1 → T < t1 → (T + 1) * 2 ^ 16 ≤ Node.sVer s < t1 * 2 ^ 16 →
  Node.sKey s = kb → DecodeKey kb = inl k → Node.too_large maxKey kb = false → Node.too_large maxVal (Node.sVal s) = false →
  Node.maybeDecompress gunzip (Node.sVal s) (Node.sCp s) = Some vb → Node.too_large maxVal vb = false → Node.Decode vb = Some v →
  wrote t1 b id k (Some v) x (Node.rpcSet gunzip e s x).1 ∧ Node.OK (Node.rpcSet gunzip e s x).2 = true ∧
  cfind (Node.local (Node.rpcSet gunzip e s x).1) k = Some (v, Node.sExp s).
Proof.
  intros X He Ht HT Hv <- Hk Hs1 Hs2 Hz Hs3 Hd. destruct (st_limits _ _ _ _ X) as [Em Ev].
  rewrite (NodeTheorems.rpcSet_sections KC gunzip e s x vb k v); [|unfold Node.set_validate; by rewrite Em, Ev, Hs1, Hs2, Hz, Hs3, Hk|apply X| |done].
  2: { pose proof (st_versions _ _ _ _ X (Node.sKey s)). lia. }
  destruct (law_import b (Node.local x) (Node.e_now e) (Node.e_order e) (Node.set_item s k v) (Node.e_pool e) (st_wf _ _ _ _ X)) as (Hw & _ & Hf & Ho).
  cbn [fst snd]. split_and!; [split; [|split]|done|exact Hf].
  - unfold Node.import_one. eapply observe_step; try done. pose proof (st_clock _ _ _ _ X) as [(? & _) ?]. lia.
  - intros v' e' E. pose proof (eq_trans (eq_sym Hf) E) as E'. cbn in E'. congruence.
  - exact Ho.
Qed.
Lemma del_reaches T t1 b id x e d k :
  in_step T b id x → 0 ≤ Node.e_ms e ≤ t1 → t1 < 2 ^ 48 - 1 → T < t1 → (T + 1) * 2 ^ 16 ≤ Node.dVer d < t1 * 2 ^ 16 →
  DecodeKey (Node.dKey d) = inl k → Node.too_large maxKey (Node.dKey d) = false →
  wrote t1 b id k None x (Node.rpcDel e d x).1 ∧ cfind (Node.local (Node.rpcDel e d x).1) k = None.
Proof.
  intros X He Ht HT Hv Hk Hs. destruct (st_limits _ _ _ _ X) as [Em _]. unfold Node.rpcDel. rewrite Em, Hs, Hk, (st_lww _ _ _ _ X). cbn [andb].
  pose proof (st_versions _ _ _ _ X (Node.dKey d)). destruct (Z.ltb_spec (Node.dVer d) (Node.version_of x (Node.dKey d))); [lia|].
  change (Node.local (Node.record_version e (Node.dKey d) (Node.dVer d) x)) with (Node.local x).
  destruct (law_delete b (Node.local x) k (st_wf _ _ _ _ X)) as (Hw & _ & _ & Hf). destruct (cdelete (Node.local x) k) as [c r]. cbn [fst snd] in *.
  assert (cfind c k = None) as Hn by by rewrite Hf, decide_True. split; [split; [|split]|exact Hn].
  - assert (0 ≤ T) by (pose proof (st_clock _ _ _ _ X) as [(? & _) ?]; lia).
    exact (observe_step T t1 b id x e (Node.dKey d) (Node.dVer d) c X Hw He Ht HT ltac:(lia)).
  - intros v e'. cbn. rewrite Hn. done.
  - intros k' Hne. left. cbn. by rewrite Hf, decide_False.
Qed.

(** ** Writes keep the agreement *)
Lemma member_later T T' b b' id n : T ≤ T' → (b' ≤ b)%nat → member T b id n → member T' b' id n.
Proof. intros HT Hb [H1 H2 H3]. split; [done|by eapply in_step_later|done]. Qed.
Lemma member_put_nd T t1 b b' id x n : member T b id n → in_step t1 b' id x → member t1 b' id (put_nd x n).
Proof. intros [H1 H2 H3] Hx. by split. Qed.

Lemma kept_copy S k (r : option V) (c c' : C) k' v e :
  others_kept k c c' → (∀ v e, cfind c' k = Some (v, e) → r = Some v) →
  (∀ v e, cfind c k' = Some (v, e) → S k' = Some v) → cfind c' k' = Some (v, e) → upd k r S k' = Some v.
Proof.
  intros Ho Hk HS E. unfold upd. destruct (decide (k' = k)) as [->|Hne]; [by eapply Hk|].
  destruct (Ho k' Hne) as [E'|E']; rewrite E' in E; [by eapply HS|done].
Qed.

Lemma write_agrees T t1 b S (cl cl' : cluster) a n n' k (r : option V) (reach : NodeID → node → node) :
  agrees T b S cl → T ≤ t1 → cl !! a = Some n → (∀ id, cl' !! id = reach id <$> cl !! id) →
  member t1 b a n' → others_kept k (local_data n) (local_data n') →
  (dom k → a ∈ owner_ids k → ∀ v e, cfind (local_data n') k = Some (v, e) → r = Some v) →
  (∀ id m, cl !! id = Some m → id ≠ a →
     (∃ x, reach id m = put_nd x m ∧ wrote t1 b id k r (data m) x) ∨ id ∉ owner_ids k ∧ reach id m = m) →
  agrees t1 b (upd k r S) (<[a := n']> cl').
Proof.
  intros [A1 A2] HT Ea Hcl Hn' Hko Hka Hreach. split.
  - intros id m [[<- <-]|[Hne Hm]]%lookup_insert_Some; [done|]. rewrite Hcl in Hm. apply fmap_Some in Hm as (m0 & E & ->).
    pose proof (A1 id m0 E) as Hm0. destruct (Hreach id m0 E ltac:(done)) as [(x & -> & Hx & _)|[_ ->]]; [by eapply member_put_nd|].
    by eapply member_later; [exact HT|done|].
  - intros k' id m v e Hd Ho Hm Hv. apply lookup_insert_Some in Hm as [[<- <-]|[Hne Hm]].
    + unfold upd. destruct (decide (k' = k)) as [->|Hk]; [by eapply Hka|].
      destruct (Hko k' Hk) as [E'|E']; rewrite E' in Hv; [by eapply (A2 k' a n)|done].
    + rewrite Hcl in Hm. apply fmap_Some in Hm as (m0 & E & ->).
      destruct (Hreach id m0 E ltac:(done)) as [(x & Ex & _ & Hk & Hko')|[Hn Ex]]; rewrite Ex in Hv.
      * eapply (kept_copy S k r (local_data m0) (Node.local x)); [done|done| |exact Hv]. intros v' e' E'. by eapply (A2 k' id m0).
      * unfold upd. rewrite decide_False by (intros ->; done). by eapply (A2 k' id m0).
Qed.

(** Compressed values are no larger, and come back. *)
Hypothesis gzip_roundtrip : ∀ b : bytes, gunzip (gzip b) = Some b.
Hypothesis codec_roundtrip : ∀ (v : V) (b : bytes), Node.Encode v = Some b → Node.Decode b = Some v.

Lemma compress_back (x : Node.Node C) (b b2 : bytes) cp :
  Node.maybeCompress gzip x b = (b2, cp) → Node.maybeDecompress gunzip b2 cp = Some b ∧ (length b2 ≤ length b)%nat.
Proof.
  unfold Node.maybeCompress, Node.maybeDecompress. destruct (_ || _); [by intros [= <- <-]|].
  destruct (Nat.leb_spec (length b) (length (gzip b))); intros [= <- <-]; [done|]. cbn. split; [apply gzip_roundtrip|lia].
Qed.
Lemma too_large_le limit (b b' : bytes) : (length b' ≤ length b)%nat → Node.too_large limit b = false → Node.too_large limit b' = false.
Proof. unfold Node.too_large. destruct (0 <? limit); [cbn|done]. intros Hl. destruct (Z.ltb_spec limit (Z.of_nat (length b))); [done|]. intros _. lia. Qed.

(** What the world does during a write of [k] at [a]: it starts after [T] and is through by
    [t1], and every other owner is connected and gets the message. *)
Record undisturbed (T t1 : Z) (k : K) (a : NodeID) (n : node) (e : Node.env) (evs : list netEvent) : Prop := {
  un_start : T < Node.e_ms e < t1;
  un_end : t1 < 2 ^ 48 - 2;
  un_coordinator : a ∈ owner_ids k → hd_error (owner_ids k) = Some a;
  un_delivered id : id ∈ owner_ids k → id ≠ a → connected n id = true ∧
    ∃ e f, first_send id evs = Some (e, f) ∧ arrives f = true ∧ 0 ≤ Node.e_ms e ≤ t1 }.

Definition written (r : option (option callErr)) (k : K) (v : option V) (S : K → option V) : K → option V :=
  match r with Some (Some (EClient _)) => S | _ => upd k v S end.

Lemma set_inv e k v ttl x x' wr :
  Client.Set_ e k v ttl x = (x', wr) →
  (∃ err, wr = inr err ∧ x' = x) ∨
  ∃ os bv x1 ver, (Rendezvous.ownersFromKeyHash (Node.nring x) (Hash64 k) = Some os ∧ os ≠ []) ∧ Node.too_large (Node.MaxKeySize (Node.cfg x)) (EncodeKey k) = false ∧
    Node.Encode v = Some bv ∧ Node.too_large (Node.MaxValueSize (Node.cfg x)) bv = false ∧ Client.next_version e x = (x1, ver) ∧
    wr = inl (Client.MkWrite (EncodeKey k) bv (Client.absExpiry (Node.e_now e) ttl) ver os) ∧
    x' = if Client.primary_is (Node.SelfID (Node.cfg x)) os then
           (let x1 := Node.put_local (cset (Node.local x) k v ttl (Node.e_rt e)).1 x1 in
            if Node.LWWEnabled (Node.cfg x) then Node.lwwSetVersion (EncodeKey k) ver x1 else x1) else x1.
Proof.
  unfold Client.Set_. destruct (Node.too_large _ (EncodeKey k)) eqn:E1; [intros [= <- <-]; left; eauto|].
  destruct (Rendezvous.ownersFromKeyHash _ _) as [[|o os]|]; [intros [= <- <-]; left; eauto| |intros [= <- <-]; left; eauto].
  destruct (Node.Encode v) as [bv|]; [|intros [= <- <-]; left; eauto].
  destruct (Node.too_large _ bv) eqn:E2; [intros [= <- <-]; left; eauto|]. unfold Client.next_version.
  destruct (Hlc.Next _ _) as [h ver]. intros [= <- <-]. right. by exists (o :: os), bv, (Node.put_clock h x), ver.
Qed.

(** The coordinator itself: it replaces its copy by [c] if it is the primary. *)
Lemma coordinator_wrote T t1 b a k n e c x1 ver x' :
  in_step T b a (data n) → T < Node.e_ms e < t1 → t1 < 2 ^ 48 - 2 →
  Client.next_version e (data n) = (x1, ver) → (a ∈ owner_ids k → hd_error (owner_ids k) = Some a) →
  wf b c → others_kept k (local_data n) c →
  x' = (if Client.primary_is a (owners k) then Node.lwwSetVersion (EncodeKey k) ver (Node.put_local c x1) else x1) →
  (T + 1) * 2 ^ 16 ≤ ver < t1 * 2 ^ 16 ∧ in_step t1 b a x' ∧ others_kept k (local_data n) (Node.local x') ∧
  (a ∈ owner_ids k → Node.local x' = c).
Proof.
  intros X Ht Hend En Hc Hw Ho Ex. destruct (next_is_newer T b a (data n) e x1 ver X) as (Ever & Hid & Ex1); [lia|done|].
  pose proof (st_clock _ _ _ _ X) as [(Hp & Hs & _) Hle]. split; [lia|].
  assert (∀ c x2, wf b c → x2 = Node.put_local c x1 ∨ x2 = Node.lwwSetVersion (EncodeKey k) ver (Node.put_local c x1) → in_step t1 b a x2) as Hin.
  { intros c' x2 Hw' Hx2. destruct X as [H1 H2 H3 H4 H5 H6 H7]. subst x1. destruct Hx2 as [->| ->]; (split; [done..|split; [unfold Hlc.in_range; cbn; lia|cbn; lia]|]).
    all: intros kb; specialize (H7 kb); unfold Node.version_of in *; cbn. 1: lia.
    destruct (decide (kb = EncodeKey k)) as [->|Hne].
    - rewrite lookup_insert_eq. cbn. lia.
    - rewrite lookup_insert_ne by done. lia. }
  destruct (Client.primary_is a (owners k)) eqn:Ep; subst x'.
  - split_and!; [by eapply Hin; [exact Hw|right]|exact Ho|done].
  - assert (a ∉ owner_ids k) as Hn.
    { intros Hin'. specialize (Hc Hin'). unfold owner_ids in Hc. revert Ep Hc. destruct (owners k) as [|o os]; [done|]. cbn. intros ?%bool_decide_eq_false. congruence. }
    subst x1. split_and!; [|by intros k' _; left|done]. eapply (Hin (local_data n)); [apply X|left]. by destruct (data n).
Qed.

(** The other owners get the message, and nobody else does. *)
Lemma others_reached T t1 b S (cl : cluster) a n k e evs handler (r : option V) id m :
  agrees T b S cl → undisturbed T t1 k a n e evs → Config.ID (cfg n) = a →
  (∀ e' id m, in_step T b id (data m) → 0 ≤ Node.e_ms e' ≤ t1 → wrote t1 b id k r (data m) (handler e' (data m)).1) →
  cl !! id = Some m → id ≠ a →
  (∃ x, reached handler (connected n) (Replication.targets (Config.ID (cfg n)) (owners k)) evs id m = put_nd x m ∧ wrote t1 b id k r (data m) x) ∨
  id ∉ owner_ids k ∧ reached handler (connected n) (Replication.targets (Config.ID (cfg n)) (owners k)) evs id m = m.
Proof.
  intros A U Ea Hh Em Hne. unfold reached, Replication.targets. fold (owner_ids k). destruct (decide (id ∈ owner_ids k)) as [Hin|Hn].
  - left. destruct (un_delivered _ _ _ _ _ _ _ U id Hin Hne) as (Hc & e' & f & Ef & Hf & He'). rewrite Ef, Hc, Hf.
    rewrite bool_decide_eq_true_2 by (apply list_elem_of_filter; split; [congruence|done]). cbn [andb].
    eexists. split; [done|]. apply Hh; [|done]. apply (mb_data _ _ _ _ (ag_member _ _ _ _ A id m Em)).
  - right. split; [done|]. rewrite bool_decide_eq_false_2 by (rewrite list_elem_of_filter; tauto). cbn. by destruct (first_send id evs) as [[]|].
Qed.
Lemma not_reached handler conn evs a k n m :
  Config.ID (cfg n) = a → reached handler conn (Replication.targets (Config.ID (cfg n)) (owners k)) evs a m = m.
Proof.
  intros <-. unfold reached, Replication.targets. rewrite bool_decide_eq_false_2 by (rewrite list_elem_of_filter; tauto). cbn.
  by destruct (first_send _ evs) as [[]|].
Qed.

Lemma refused_agrees T t1 b S (cl : cluster) a n : T ≤ t1 → agrees T b S cl → cl !! a = Some n → agrees t1 b S (<[a := put_nd (data n) n]> cl).
Proof.
  intros HT [A1 A2] Ea. split.
  - intros id m [[<- <-]|[Hne Hm]]%lookup_insert_Some; (eapply (member_later T); [done|done|]); [|by apply A1].
    apply (member_put_nd T T b b a (data n) n); by apply A1.
  - intros k' id m v' e' Hd' Ho' Hm. apply lookup_insert_Some in Hm as [[<- <-]|[Hne Hm]]; [by apply (A2 k' a n)|by apply (A2 k' id m)].
Qed.

(** A write that the coordinator accepted: what it does itself, and the message it sends. *)
Record accepted (T t1 : Z) (b : nat) (a : NodeID) (n : node) (k : K) (c : C) (r : option V) (handler : Node.env → Node.Node C → Node.Node C * Node.MsgResp)
    (evs : list netEvent) (cl cl' : cluster) : Prop := {
  ac_cluster : ∃ cl1 n', cl' = <[a := n']> cl1 ∧ member t1 b a n' ∧ others_kept k (local_data n) (local_data n') ∧ (a ∈ owner_ids k → local_data n' = c) ∧
    ∀ id, cl1 !! id = reached handler (connected n) (Replication.targets (Config.ID (cfg n)) (owners k)) evs id <$> cl !! id;
  ac_handler e' id m : in_step T b id (data m) → 0 ≤ Node.e_ms e' ≤ t1 → wrote t1 b id k r (data m) (handler e' (data m)).1 }.

Lemma accepted_agrees T t1 b S (cl cl' : cluster) a n k c (r : option V) handler evs e :
  agrees T b S cl → dom k → cl !! a = Some n → undisturbed T t1 k a n e evs → (∀ v ex, cfind c k = Some (v, ex) → r = Some v) →
  accepted T t1 b a n k c r handler evs cl cl' → agrees t1 b (upd k r S) cl'.
Proof.
  intros A Hd Ea U Hc [(cl1 & n' & -> & Hn' & Hk & Hl & Hnet) Hh]. pose proof (un_start _ _ _ _ _ _ _ U).
  eapply write_agrees; [exact A|lia|exact Ea|exact Hnet|done|exact Hk| |].
  - intros _ Hin v' e'. rewrite (Hl Hin). apply Hc.
  - intros id m Em Hne. eapply others_reached; try done. apply (ag_member _ _ _ _ A a n Ea).
Qed.

(** The message a set sends. *)
Definition set_handler (n : node) (e : Node.env) (k : K) (v : V) (ttl : Z) (x : Node.Node C) (ver : Z) : Node.env → Node.Node C → Node.Node C * Node.MsgResp :=
  let '(b2, cp) := Node.maybeCompress gzip x (default [] (Node.Encode v)) in
  λ e', Node.rpcSet gunzip e' (Node.MkSet (EncodeKey k) b2 (Client.absExpiry (Node.e_now e) ttl) ver cp).

Lemma set_accepted T t1 b S (cl : cluster) a n w evs k (v : V) ttl cl' res :
  agrees T b S cl → dom k → cl !! a = Some n → undisturbed T t1 k a n (s_env w) evs →
  clusterSet gzip gunzip a w evs k v ttl cl = (cl', res) →
  (∃ err, res = Some (Some (EClient err)) ∧ cl' = <[a := put_nd (data n) n]> cl) ∨
  (∀ err, res ≠ Some (Some (EClient err))) ∧ (owners k ≠ [] ∧ ∃ bv, Node.Encode v = Some bv ∧ Node.too_large maxVal bv = false) ∧
  ∃ x ver, accepted T t1 b a n k (cset (local_data n) k v ttl (Node.e_rt (s_env w))).1 (Some v) (set_handler n (s_env w) k v ttl x ver) evs cl cl' ∧
    ∀ e' id m, in_step T b id (data m) → 0 ≤ Node.e_ms e' ≤ t1 →
      cfind (Node.local (set_handler n (s_env w) k v ttl x ver e' (data m)).1) k = Some (v, Client.absExpiry (Node.e_now (s_env w)) ttl).
Proof.
  intros A Hd Ea U. pose proof (ag_member _ _ _ _ A a n Ea) as [Hid X Hheat]. pose proof (un_start _ _ _ _ _ _ _ U) as Ht. pose proof (un_end _ _ _ _ _ _ _ U) as Hend.
  unfold clusterSet. rewrite Ea. unfold SetCtx. cbn [s_env with_sends]. destruct (Client.Set_ (s_env w) k v ttl (data n)) as [x wr] eqn:E.
  destruct (set_inv _ _ _ _ _ _ _ E) as [(err & -> & ->)|(os & bv & x1 & ver & [Eo Hos] & Hk & Ev & Hv & En & -> & Ex)].
  { intros [= <- <-]. left. by exists err. }
  cbn [Client.w_val Client.w_key Client.w_exp Client.w_ver Client.w_owners]. rewrite (st_self _ _ _ _ X), (st_lww _ _ _ _ X) in Ex.
  assert (os = owners k) as -> by (unfold owners; by rewrite <-(st_ring _ _ _ _ X), Eo). destruct (st_limits _ _ _ _ X) as [Em1 Em2].
  rewrite Em1 in Hk. rewrite Em2 in Hv. destruct (Node.maybeCompress gzip x bv) as [b2 cp] eqn:Ec.
  destruct (compress_back _ _ _ _ Ec) as [Hz Hl]. set (msg := Node.MkSet _ _ _ _ _).
  pose proof (λ id, network_effect (λ e, Node.rpcSet gunzip e msg) (connected n) (Replication.targets (Config.ID (cfg n)) (owners k)) evs cl id) as Hnet.
  destruct (network _ _ _ evs cl) as [cl1 es]. cbn [fst] in Hnet. unfold replicated. set (call := Replication.replicateSet _ _ _ _ _ _ _ _ _ _ _ _ _).
  intros [= <- <-]. right. split; [by destruct (Replication.result call) as [[]|]|]. split; [split; [done|by exists bv]|]. exists x, ver.
  destruct (law_set b (local_data n) k v ttl (Node.e_rt (s_env w)) (st_wf _ _ _ _ X)) as (Hw & _ & _ & Hf & Ho).
  destruct (coordinator_wrote T t1 b a k n (s_env w) _ x1 ver x X Ht Hend En (un_coordinator _ _ _ _ _ _ _ U) Hw Ho Ex) as (Hver & Hx & Hkx & Hlx).
  unfold set_handler. rewrite Ev. cbn [default from_option id]. rewrite Ec. fold msg.
  assert (∀ e' id m, in_step T b id (data m) → 0 ≤ Node.e_ms e' ≤ t1 → wrote t1 b id k (Some v) (data m) (Node.rpcSet gunzip e' msg (data m)).1 ∧
    Node.OK (Node.rpcSet gunzip e' msg (data m)).2 = true ∧ cfind (Node.local (Node.rpcSet gunzip e' msg (data m)).1) k = Some (v, Node.sExp msg)) as Hh.
  { intros e' id m X' He'. apply (set_reaches T t1 b id (data m) e' (EncodeKey k) msg k v bv X'); try done; [lia|lia|by apply decode_encode|by eapply too_large_le|by apply codec_roundtrip]. }
  split; [split|]; [|intros e' id m X' He'; by apply Hh|intros e' id m X' He'; apply (Hh e' id m X' He')].
  eexists cl1, _. split; [done|]. split; [by split|]. done.
Qed.
Lemma set_agrees T t1 b S (cl : cluster) a n w evs k (v : V) ttl cl' res :
  agrees T b S cl → dom k → cl !! a = Some n → undisturbed T t1 k a n (s_env w) evs →
  clusterSet gzip gunzip a w evs k v ttl cl = (cl', res) → agrees t1 b (written res k (Some v) S) cl'.
Proof.
  intros A Hd Ea U E. destruct (set_accepted _ _ _ _ _ _ _ _ _ _ _ _ _ _ A Hd Ea U E) as [(err & -> & ->)|(Hr & _ & x & ver & Hac & _)].
  { apply (refused_agrees T); [pose proof (un_start _ _ _ _ _ _ _ U); lia|done..]. }
  replace (written res k (Some v) S) with (upd k (Some v) S) by (destruct res as [[[e|e]|]|]; [by destruct (Hr e)|done..]).
  eapply accepted_agrees; try done.
  destruct (law_set b (local_data n) k v ttl (Node.e_rt (s_env w)) (st_wf _ _ _ _ (mb_data _ _ _ _ (ag_member _ _ _ _ A a n Ea)))) as (_ & _ & _ & Hf & _).
  intros v' ex Hx. destruct Hf as [Hf|(_ & _ & Hf)]; congruence.
Qed.

Lemma delete_cases e k x x' wr :
  Client.Delete e k x = (x', wr) →
  (∃ err, wr = inr err ∧ x' = x) ∨
  ∃ os x1 ver, Rendezvous.ownersFromKeyHash (Node.nring x) (Hash64 k) = Some os ∧ Node.too_large (Node.MaxKeySize (Node.cfg x)) (EncodeKey k) = false ∧
    Client.next_version e x = (x1, ver) ∧ wr = inl (Client.MkWrite (EncodeKey k) [] 0 ver os) ∧
    x' = if Client.primary_is (Node.SelfID (Node.cfg x)) os then
           (let x1 := Node.put_local (cdelete (Node.local x) k).1 x1 in
            if Node.LWWEnabled (Node.cfg x) then Node.lwwSetVersion (EncodeKey k) ver x1 else x1) else x1.
Proof.
  unfold Client.Delete. destruct (Node.too_large _ (EncodeKey k)) eqn:E1; [intros [= <- <-]; left; eauto|].
  destruct (Rendezvous.ownersFromKeyHash _ _) as [[|o os]|]; [intros [= <- <-]; left; eauto| |intros [= <- <-]; left; eauto].
  unfold Client.next_version. destruct (Hlc.Next _ _) as [h ver]. intros [= <- <-]. right. by exists (o :: os), (Node.put_clock h x), ver.
Qed.

Lemma delete_agrees T t1 b S (cl : cluster) a n w evs k cl' res :
  agrees T b S cl → dom k → cl !! a = Some n → undisturbed T t1 k a n (s_env w) evs →
  clusterDelete a w evs k cl = (cl', res) → agrees t1 b (written res k None S) cl'.
Proof.
  intros A Hd Ea U. pose proof (ag_member _ _ _ _ A a n Ea) as [Hid X Hheat]. pose proof (un_start _ _ _ _ _ _ _ U) as Ht. pose proof (un_end _ _ _ _ _ _ _ U) as Hend.
  unfold clusterDelete. rewrite Ea. unfold DeleteCtx. cbn [s_env with_sends].
  destruct (Client.Delete (s_env w) k (data n)) as [x wr] eqn:E.
  destruct (delete_cases _ _ _ _ _ E) as [(err & -> & ->)|(os & x1 & ver & Eo & Hk & En & -> & Ex)].
  { intros [= <- <-]. by apply (refused_agrees T); [lia|..]. }
  cbn [Client.w_val Client.w_key Client.w_exp Client.w_ver Client.w_owners]. rewrite (st_self _ _ _ _ X), (st_lww _ _ _ _ X) in Ex.
  assert (os = owners k) as -> by (unfold owners; by rewrite <-(st_ring _ _ _ _ X), Eo). destruct (st_limits _ _ _ _ X) as [Em1 Em2].
  rewrite Em1 in Hk. set (msg := Node.MkDel _ _).
  pose proof (λ id, network_effect (λ e, Node.rpcDel e msg) (connected n) (Replication.targets (Config.ID (cfg n)) (owners k)) evs cl id) as Hnet.
  destruct (network _ _ _ evs cl) as [cl1 es]. cbn [fst] in Hnet. unfold replicated.
  set (call := Replication.replicateDelete _ _ _ _ _ _ _ _ _ _). cbn [cfg put_nd put_plane].
  intros [= <- <-]. destruct (law_delete b (local_data n) k (st_wf _ _ _ _ X)) as (Hw & _ & _ & Hf).
  assert (others_kept k (local_data n) (cdelete (local_data n) k).1) as Ho by (intros k' Hne; left; by rewrite Hf, decide_False).
  destruct (coordinator_wrote T t1 b a k n (s_env w) _ x1 ver x X Ht Hend En (un_coordinator _ _ _ _ _ _ _ U) Hw Ho Ex) as (Hver & Hx & Hkx & Hlx).
  replace (written _ k None S) with (upd k None S) by (destruct (Replication.result call) as [[]|]; done).
  eapply (accepted_agrees T t1 b S cl _ a n k (cdelete (local_data n) k).1 None (λ e, Node.rpcDel e msg)); try done.
  { intros v ex. by rewrite Hf, decide_True. }
  split; [eexists cl1, _; split; [done|]; split; [by split|]; done|]. intros e' id m X' He'.
  apply (del_reaches T t1 b id (data m) e' msg k X'); try done; [lia|lia|by apply decode_encode].
Qed.

(** ** Reads keep the agreement and tell the truth *)
Lemma rpcGet_truth T b id x e k :
  in_step T (S b) id x → dom k → Node.e_now e ≤ Node.e_now' e →
  let '(x', resp) := Node.rpcGet gzip e (EncodeKey k) x in
  in_step T b id x' ∧ (∀ k' p, cfind (Node.local x') k' = Some p → cfind (Node.local x) k' = Some p) ∧
  match leg_of resp with
  | Client.Hit val cp => ∃ v ex, cfind (Node.local x) k = Some (v, ex) ∧ Client.remote_value gunzip val cp = inl v
  | _ => True
  end.
Proof.
  intros X Hd He. unfold Node.rpcGet. rewrite decode_encode by done.
  destruct (law_get b (Node.local x) k (Node.e_now e) (Node.e_now' e) (st_wf _ _ _ _ X) He) as (Hw & _ & Hr & Hf).
  destruct (cget (Node.local x) k (Node.e_now e) (Node.e_now' e)) as [c rv]. cbn [fst snd] in *.
  assert (in_step T b id (Node.put_local c x)) as X' by (destruct X; by split).
  assert (∀ k' p, cfind c k' = Some p → cfind (Node.local x) k' = Some p) as Hsub.
  { intros k' p. rewrite Hf. destruct (decide (k' = k)) as [->|]; [|done]. unfold alive_at. destruct (cfind (Node.local x) k) as [[v ex]|]; [|done]. by case_decide. }
  assert (∀ v, rv = Some v → ∃ ex, cfind (Node.local x) k = Some (v, ex)) as Hrv.
  { intros v ->. symmetry in Hr. apply fmap_Some in Hr as ([v' ex] & E & ->). unfold alive_at in E. destruct (cfind (Node.local x) k) as [[v1 e1]|]; [|done].
    case_decide; [done|]. injection E as -> ->. by exists ex. }
  destruct rv as [v|]; [|done]. destruct (Hrv v eq_refl) as [ex Hex]. destruct (Node.Encode v) as [bv|] eqn:Ev; [|done].
  destruct (Node.too_large _ bv); [done|]. destruct (Node.maybeCompress gzip _ bv) as [b2 cp] eqn:Ec. split; [done|]. split; [done|].
  cbn [leg_of Node.gErr Node.gFound Node.gVal Node.gCp]. exists v, ex. split; [done|]. destruct (compress_back _ _ _ _ Ec) as [Hz _]. unfold Client.remote_value.
  by rewrite Hz, (codec_roundtrip v bv Ev).
Qed.

Definition served (at_ : NodeID → Node.env) (f : NodeID → fate) (k : K) (asked : list NodeID) (id : NodeID) (n : node) : node :=
  if bool_decide (id ∈ asked) && arrives (f id) then put_nd (Node.rpcGet gzip (at_ id) (EncodeKey k) (data n)).1 n else n.
Lemma serve_gets (at_ : NodeID → Node.env) (f : NodeID → fate) k (asked : list NodeID) (cl : cluster) id :
  NoDup asked → foldl (serve_get gzip at_ f k) cl asked !! id = served at_ f k asked id <$> cl !! id.
Proof.
  revert cl. induction asked as [|i asked IH]; intros cl Hnd; cbn [foldl].
  { unfold served. rewrite bool_decide_eq_false_2 by apply not_elem_of_nil. by destruct (cl !! id). }
  apply NoDup_cons in Hnd as [Hi Hnd]. rewrite IH by done. clear IH.
  assert (serve_get gzip at_ f k cl i !! id = (if decide (id = i) then served at_ f k [i] id else λ n, n) <$> cl !! id) as ->.
  { unfold serve_get, on_node, served. destruct (decide (id = i)) as [->|Hne].
    - rewrite bool_decide_eq_true_2 by left. cbn [andb]. destruct (arrives (f i)); [|by destruct (cl !! i)].
      destruct (cl !! i) as [n|] eqn:E; cbn [fst fmap option_fmap option_map]; [|by rewrite E]. destruct (Node.rpcGet _ _ _ _). cbn [fst]. by rewrite lookup_insert_eq.
    - destruct (arrives (f i)); [|by destruct (cl !! id)]. destruct (cl !! i) as [n|]; cbn [fst]; [|by destruct (cl !! id)].
      destruct (Node.rpcGet _ _ _ _). cbn [fst]. rewrite lookup_insert_ne by done. by destruct (cl !! id). }
  rewrite <-option_fmap_compose. destruct (cl !! id) as [n|]; [|done]. cbn [fmap option_fmap option_map]. f_equal. unfold compose, served.
  destruct (decide (id = i)) as [->|Hne].
  - rewrite (bool_decide_eq_false_2 (i ∈ asked)), !bool_decide_eq_true_2 by (done || set_solver). done.
  - by rewrite (bool_decide_ext (id ∈ i :: asked) (id ∈ asked)) by set_solver.
Qed.

Lemma ask_hit legs cl er le val cp : Client.ask legs cl er le = Client.RHit val cp → Client.Hit val cp ∈ legs.
Proof.
  revert cl er le. induction legs as [|[v c| |e] legs IH]; intros cl er le; cbn; [by destruct (_ && _)|intros [= <- <-]; left|..]; intros H%IH; by right.
Qed.

Hypothesis ring_distinct : Rendezvous.distinct (Rendezvous.nodes ring).

Lemma owner_ids_distinct k : NoDup (owner_ids k).
Proof.
  unfold owner_ids, owners, Rendezvous.ownersFromKeyHash. set (arr := merge_sort _ _).
  assert (NoDup (Rendezvous.ID <$> arr)) as Hnd.
  { eapply NoDup_Permutation_proper; [apply fmap_Permutation, merge_sort_Permutation|]. exact ring_distinct. }
  destruct (_ <? 0); cbn [default from_option]; [by apply NoDup_nil_2|]. unfold id. rewrite fmap_take. eapply sublist_NoDup; [exact Hnd|apply sublist_take].
Qed.
Lemma fmap_sublist {A B} (f : A → B) (l l' : list A) : sublist l l' → sublist (f <$> l) (f <$> l').
Proof. induction 1; by constructor. Qed.
Lemma candidates_owned self healthy (os : list Rendezvous.nodeMeta) :
  (∀ o, o ∈ Client.candidates self healthy os → o ∈ os ∧ Rendezvous.ID o ≠ self) ∧
  (NoDup (Rendezvous.ID <$> os) → NoDup (Rendezvous.ID <$> Client.candidates self healthy os)).
Proof.
  unfold Client.candidates. split.
  - intros o. rewrite elem_of_app, !list_elem_of_filter. naive_solver.
  - set (others := filter _ os). intros Hnd. assert (sublist others os) as Hs by apply sublist_filter.
    assert (NoDup (Rendezvous.ID <$> others)) as Hno by (eapply sublist_NoDup; [exact Hnd|by apply fmap_sublist]).
    eapply NoDup_Permutation_proper; [|exact Hno]. apply fmap_Permutation. apply (filter_app_complement (λ o, healthy (Rendezvous.ID o) = true)).
Qed.

Lemma fanout_pos n (legs : list Client.ans) : legs ≠ [] → (0 < Z.to_nat (Z.min (Client.fanout (tuning n)) (Z.of_nat (length legs))))%nat.
Proof.
  intros Hl. assert (0 < Z.of_nat (length legs)) by (destruct legs; [done|cbn; lia]).
  unfold tuning, Client.rtn. cbn [Client.fanout]. destruct (Z.leb_spec (Config.ReadMaxFanout (cfg n)) 0); lia.
Qed.

(** Where the value of a read comes from. *)
Definition source (w : surroundings) (k : K) (a : NodeID) (n : node) (v : V) : Prop :=
  (a ∈ owner_ids k ∧ ∃ e, cfind (local_data n) k = Some (v, e)) ∨
  ∃ id val cp, id ∈ owner_ids k ∧ connected n id = true ∧ s_answer w id = Client.Hit val cp ∧ Client.remote_value gunzip val cp = inl v.

Lemma get_source T b a n w k x' r :
  in_step T (S b) a (data n) → Node.e_now (s_env w) ≤ Node.e_now' (s_env w) →
  Client.Get gunzip (s_env w) (tuning n) (λ id, connected n id && s_healthy w id)
    (λ id, if connected n id then s_answer w id else Client.LegErr errBadPeer) (s_read w) k (data n) = (x', r) →
  in_step T b a x' ∧ (∀ k' p, cfind (Node.local x') k' = Some p → cfind (local_data n) k' = Some p) ∧
  ∀ v, r = Some (inl (Some v)) → source w k a n v.
Proof.
  intros X He. unfold Client.Get. rewrite (st_ring _ _ _ _ X). pose proof (in_step_later T T (S b) b a (data n) ltac:(lia) ltac:(lia) X) as Xb.
  destruct (Rendezvous.ownersFromKeyHash ring (Hash64 k)) as [[|o os]|] eqn:Eo; [by intros [= <- <-]| |by intros [= <- <-]].
  assert (owners k = o :: os) as Eos by (unfold owners; by rewrite Eo). rewrite (st_self _ _ _ _ X), <-Eos.
  destruct (law_get b (local_data n) k (Node.e_now (s_env w)) (Node.e_now' (s_env w)) (st_wf _ _ _ _ X) He) as (Hw & _ & Hr & Hf).
  set (own := existsb _ (owners k)). assert (own = true → a ∈ owner_ids k) as Hown.
  { unfold own. intros (o' & Hin & E%bool_decide_eq_true)%existsb_exists. rewrite <-E. apply list_elem_of_fmap_2. by apply list_elem_of_In. }
  set (read := if own then _ else _). assert (∃ x1 rv, read = (x1, rv) ∧ in_step T b a x1 ∧ (∀ k' p, cfind (Node.local x1) k' = Some p → cfind (local_data n) k' = Some p) ∧
    ∀ v, rv = Some v → a ∈ owner_ids k ∧ ∃ e, cfind (local_data n) k = Some (v, e)) as (x1 & rv & -> & X1 & Hsub & Hrv).
  { unfold read. destruct own; [|by exists (data n), None]. destruct (cget _ _ _ _) as [c rv]. cbn [fst snd] in *. eexists _, rv. split; [done|]. split_and!.
    - destruct X; by split.
    - intros k' p. cbn. rewrite Hf. destruct (decide (k' = k)) as [->|]; [|done]. unfold alive_at. destruct (cfind (local_data n) k) as [[v ex]|]; [|done]. by case_decide.
    - intros v ->. split; [by apply Hown|]. symmetry in Hr. apply fmap_Some in Hr as ([v' ex] & E & ->). unfold alive_at in E.
      destruct (cfind (local_data n) k) as [[v1 e1]|]; [|done]. case_decide; [done|]. injection E as -> ->. by exists ex. }
  destruct rv as [v|]. { intros [= <- <-]. split; [done|]. split; [done|]. intros v' [= <-]. left. by apply Hrv. }
  set (legs := _ <$> Client.candidates _ _ _). case_decide as Hl; intros [= <- <-]; (split; [done|]; split; [done|]); [done|]. intros v.
  set (fan := Z.to_nat _). assert (0 < fan)%nat as Hfan by by apply fanout_pos.
  destruct (Client.out (Client.read_run legs fan (s_read w))) as [[val cp| |err|]|] eqn:Eout; try done.
  destruct (Client.read_sequential legs fan (s_read w) _ Hfan Hl Eout) as [?|Hask]; [done|]. symmetry in Hask. apply ask_hit in Hask.
  destruct (Client.remote_value gunzip val cp) as [v'|] eqn:Erv; [|done]. intros [= <-]. right.
  apply list_elem_of_fmap in Hask as (o' & Ho' & Hin). destruct (proj1 (candidates_owned _ _ _) o' Hin) as [Hin' _]. unfold compose in Ho'.
  destruct (connected n (Rendezvous.ID o')) eqn:Ec; [|done]. exists (Rendezvous.ID o'), val, cp. split; [by apply list_elem_of_fmap_2|done].
Qed.

Lemma consulted_distinct T b a n w answer k : in_step T b a (data n) → NoDup (consulted w answer k n) ∧ a ∉ consulted w answer k n.
Proof.
  intros X. unfold consulted. rewrite (st_ring _ _ _ _ X), (st_self _ _ _ _ X).
  assert (NoDup ([] : list NodeID) ∧ a ∉ []) as Hnil by (split; [apply NoDup_nil_2|apply not_elem_of_nil]).
  destruct (Rendezvous.ownersFromKeyHash ring (Hash64 k)) as [[|o os]|] eqn:Eo; [done| |done]. destruct (_ && _); [done|].
  assert (owners k = o :: os) as <- by (unfold owners; by rewrite Eo). set (cands := Rendezvous.ID <$> _).
  destruct (candidates_owned a (λ id, connected n id && s_healthy w id) (owners k)) as [H1 H2]. specialize (H2 (owner_ids_distinct k)). split.
  - apply NoDup_filter. eapply sublist_NoDup; [exact H2|apply sublist_take].
  - intros [_ Hin]%list_elem_of_filter. assert (a ∈ cands) as (o' & E & Ho')%list_elem_of_fmap by (eapply elem_of_sublist; [exact Hin|apply sublist_take]).
    by apply H1 in Ho' as [_ ?].
Qed.

(** What was stored before is all there is. *)
Lemma fewer_agrees T b S (cl cl' : cluster) :
  agrees T (Datatypes.S b) S cl →
  (∀ id n', cl' !! id = Some n' → ∃ n, cl !! id = Some n ∧ member T b id n' ∧ ∀ k' p, cfind (local_data n') k' = Some p → cfind (local_data n) k' = Some p) →
  agrees T b S cl'.
Proof.
  intros [A1 A2] H. split.
  - intros id n' (n & _ & ? & _)%H. done.
  - intros k id n' v e Hd Ho (n & E & _ & Hs)%H Hv. by eapply (A2 k id n v e), Hs.
Qed.

Lemma get_agrees T b S (cl : cluster) a n w at_ (f : NodeID → fate) k :
  agrees T (Datatypes.S b) S cl → dom k → cl !! a = Some n → Node.e_now (s_env w) ≤ Node.e_now' (s_env w) → (∀ id, Node.e_now (at_ id) ≤ Node.e_now' (at_ id)) →
  ∃ cl' res, clusterGet gzip gunzip maphash a w at_ f k cl = Some (cl', res) ∧ agrees T b S cl' ∧ ∀ v, res = Some (inl (Some v)) → S k = Some v.
Proof.
  intros A Hd Ea He Hat. pose proof (ag_member _ _ _ _ A a n Ea) as [Hid X Hheat]. unfold clusterGet. rewrite Ea.
  set (w' := MkSurr _ _ _ _ _ _ _). set (asked := consulted _ _ _ _). destruct (consulted_distinct T (Datatypes.S b) a n w' _ k X : NoDup asked ∧ a ∉ asked) as [Hnd Hna].
  unfold GetCtx. change (s_env w') with (s_env w). destruct (Client.Get _ _ _ _ _ _ k (data n)) as [x r] eqn:Eg.
  destruct (get_source T b a n w' k x r X He Eg) as (Xx & Hsub & Hsrc).
  assert (∀ v, r = Some (inl (Some v)) → S k = Some v) as Htruth.
  { intros v Hv. destruct (Hsrc v Hv) as [(Ho & e & Hc)|(id & val & cp & Ho & _ & Hans & Hrv)]; [by eapply (ag_copies _ _ _ _ A k a n v e)|].
    cbn in Hans. unfold answer_of, on_node in Hans. destruct (answered (f id)); [|done]. destruct (cl !! id) as [m|] eqn:Em; [|done].
    pose proof (rpcGet_truth T b id (data m) (at_ id) k (mb_data _ _ _ _ (ag_member _ _ _ _ A id m Em)) Hd (Hat id)) as Ht.
    destruct (Node.rpcGet _ _ _ _) as [xm resp]. cbn in Hans. destruct Ht as (_ & _ & Ht). rewrite Hans in Ht. destruct Ht as (v' & ex & Hc & Hv').
    assert (v = v') as -> by congruence. by eapply (ag_copies _ _ _ _ A k id m v' ex). }
  assert (∀ n', member T b a n' → (∀ k' p, cfind (local_data n') k' = Some p → cfind (local_data n) k' = Some p) →
    agrees T b S (<[a := n']> (foldl (serve_get gzip at_ f k) cl asked))) as Hag.
  { intros n' Hn' Hs'. apply (fewer_agrees T b S cl); [done|]. intros id m [[<- <-]|[Hne Hm]]%lookup_insert_Some; [by exists n|].
    rewrite serve_gets in Hm by done. apply fmap_Some in Hm as (m0 & E & ->). exists m0. split; [done|]. pose proof (ag_member _ _ _ _ A id m0 E) as Hm0.
    unfold served. destruct (_ && _); [|split; [by eapply (member_later T); [| |exact Hm0]; lia|done]].
    pose proof (rpcGet_truth T b id (data m0) (at_ id) k (mb_data _ _ _ _ Hm0) Hd (Hat id)) as Ht. destruct (Node.rpcGet _ _ _ _) as [xm resp].
    destruct Ht as (Hx & Hs & _). split; [by eapply member_put_nd|exact Hs]. }
  destruct r as [r|].
  - destruct (sample_ok maphash (heat n) (EncodeKey k) Hheat) as (h & Eh & Hh). cbn [heat put_nd put_plane]. rewrite Eh. cbn.
    eexists _, _. split; [done|]. split; [|done]. apply Hag; [|exact Hsub]. by split.
  - cbn. eexists _, _. split; [done|]. split; [|done]. apply Hag; [|exact Hsub]. by split.
Qed.

(** ** Runs *)
Inductive op :=
  | OSet (a : NodeID) (w : surroundings) (evs : list netEvent) (k : K) (v : V) (ttl : Z)
  | ODelete (a : NodeID) (w : surroundings) (evs : list netEvent) (k : K)
  | OGet (a : NodeID) (w : surroundings) (at_ : NodeID → Node.env) (f : NodeID → fate) (k : K).
Inductive answer := AWrite (r : option (option callErr)) | ARead (r : option (option V + Client.cliErr)).

Definition cluster_op (o : op) (cl : cluster) : option (cluster * answer) :=
  match o with
  | OSet a w evs k v ttl => let '(cl, r) := clusterSet gzip gunzip a w evs k v ttl cl in Some (cl, AWrite r)
  | ODelete a w evs k => let '(cl, r) := clusterDelete a w evs k cl in Some (cl, AWrite r)
  | OGet a w at_ f k => '(cl, r) ← clusterGet gzip gunzip maphash a w at_ f k cl; Some (cl, ARead r)
  end.
(** Each operation is given with the time by which it is through. *)
Fixpoint cluster_run (cl : cluster) (ops : list (op * Z)) : option (cluster * list answer) :=
  match ops with
  | [] => Some (cl, [])
  | (o, _) :: ops => '(cl, r) ← cluster_op o cl; '(cl, rs) ← cluster_run cl ops; Some (cl, r :: rs)
  end.

Definition calm_op (T t : Z) (o : op) (cl : cluster) : Prop :=
  match o with
  | OSet a w evs k _ _ | ODelete a w evs k => dom k ∧ ∃ n, cl !! a = Some n ∧ undisturbed T t k a n (s_env w) evs
  | OGet a w at_ _ k => T ≤ t ∧ dom k ∧ is_Some (cl !! a) ∧ Node.e_now (s_env w) ≤ Node.e_now' (s_env w) ∧ ∀ id, Node.e_now (at_ id) ≤ Node.e_now' (at_ id)
  end.
Fixpoint calm (T : Z) (cl : cluster) (ops : list (op * Z)) : Prop :=
  match ops with
  | [] => True
  | (o, t) :: ops => calm_op T t o cl ∧ ∀ cl' r, cluster_op o cl = Some (cl', r) → calm t cl' ops
  end.

(** The specification: one map, from which entries may vanish. *)
Inductive map_step (S : K → option V) : op → answer → (K → option V) → Prop :=
  | ms_set a w evs k v ttl r : map_step S (OSet a w evs k v ttl) (AWrite r) (written r k (Some v) S)
  | ms_delete a w evs k r : map_step S (ODelete a w evs k) (AWrite r) (written r k None S)
  | ms_get a w at_ f k r : (∀ v, r = Some (inl (Some v)) → S k = Some v) → map_step S (OGet a w at_ f k) (ARead r) S.
Inductive map_run (S : K → option V) : list (op * Z) → list answer → Prop :=
  | mr_nil : map_run S [] []
  | mr_cons o t ops r rs S' : map_step S o r S' → map_run S' ops rs → map_run S ((o, t) :: ops) (r :: rs).

Lemma calm_op_agrees T t b S (o : op) (cl : cluster) :
  agrees T (Datatypes.S b) S cl → calm_op T t o cl → ∃ cl' r S', cluster_op o cl = Some (cl', r) ∧ map_step S o r S' ∧ agrees t b S' cl'.
Proof.
  intros A H. assert (∀ S' cl', agrees t (Datatypes.S b) S' cl' → agrees t b S' cl') as Hdown.
  { intros S' cl' [A1 A2]. split; [|done]. intros id n E. eapply member_later; [| |by apply A1]; lia. }
  destruct o as [a w evs k v ttl|a w evs k|a w at_ f k]; cbn [cluster_op].
  - destruct H as (Hd & n & Ea & U). destruct (clusterSet _ _ _ _ _ _ _ _ _) as [cl' r] eqn:E. eexists _, _, _. split; [done|]. split; [constructor|].
    by eapply Hdown, set_agrees.
  - destruct H as (Hd & n & Ea & U). destruct (clusterDelete _ _ _ _ _) as [cl' r] eqn:E. eexists _, _, _. split; [done|]. split; [constructor|].
    by eapply Hdown, delete_agrees.
  - destruct H as (HT & Hd & [n Ea] & He & Hat). destruct (get_agrees T b S cl a n w at_ f k A Hd Ea He Hat) as (cl' & res & E & A' & Ht).
    rewrite E. eexists _, _, _. split; [done|]. split; [by constructor|]. destruct A' as [A1 A2]. split; [|done]. intros id m Hm. by eapply member_later; [exact HT| |apply A1].
Qed.


(** Calls leave the connections alone, so a cluster stays connected. *)
Definition same_conns (cl cl' : cluster) : Prop := ∀ id, conns <$> cl' !! id = conns <$> cl !! id.
Lemma same_conns_insert (cl cl' : cluster) a n n' : cl !! a = Some n → same_conns cl cl' → conns n' = conns n → same_conns cl (<[a := n']> cl').
Proof.
  intros Ea H E id. destruct (decide (id = a)) as [->|Hne]; [rewrite lookup_insert_eq, Ea; cbn; by rewrite E|by rewrite lookup_insert_ne].
Qed.
Lemma network_conns handler conn pending evs (cl : cluster) : same_conns cl (network handler conn pending evs cl).1.
Proof.
  intros id. rewrite network_effect, <-option_fmap_compose. destruct (cl !! id) as [n|]; [|done]. cbn. f_equal. unfold reached.
  destruct (first_send id evs) as [[e f]|]; [|done]. by destruct (_ && _).
Qed.
Lemma serve_conns (at_ : NodeID → Node.env) (f : NodeID → fate) k (asked : list NodeID) (cl : cluster) : same_conns cl (foldl (serve_get gzip at_ f k) cl asked).
Proof.
  assert (∀ cl i, same_conns cl (serve_get gzip at_ f k cl i)) as H1.
  { intros cl0 i. unfold serve_get, on_node. destruct (arrives (f i)); [|done]. destruct (cl0 !! i) as [n|] eqn:E; [|done].
    destruct (Node.rpcGet _ _ _ _). by eapply same_conns_insert. }
  revert cl. induction asked as [|i asked IH]; intros cl; cbn [foldl]; [done|]. intros id. by rewrite IH, H1.
Qed.
Lemma op_keeps_conns (o : op) (cl cl' : cluster) (r : answer) : cluster_op o cl = Some (cl', r) → same_conns cl cl'.
Proof.
  destruct o as [a w evs k v ttl|a w evs k|a w at_ f k]; cbn [cluster_op].
  - unfold clusterSet. destruct (cl !! a) as [n|] eqn:Ea; [|by intros [= <- _]]. unfold SetCtx. cbn [s_env with_sends].
    destruct (Client.Set_ _ _ _ _ _) as [x [wr|err]]; [|intros [= <- _]; by eapply same_conns_insert]. destruct (Node.maybeCompress _ _ _) as [b2 cp].
    pose proof (network_conns) as Hn. match goal with |- context [network ?h ?c ?p ?e ?l] => specialize (Hn h c p e l); destruct (network h c p e l) as [cl1 es] end.
    intros [= <- _]. by eapply same_conns_insert.
  - unfold clusterDelete. destruct (cl !! a) as [n|] eqn:Ea; [|by intros [= <- _]]. unfold DeleteCtx. cbn [s_env with_sends].
    destruct (Client.Delete _ _ _) as [x [wr|err]]; [|intros [= <- _]; by eapply same_conns_insert].
    pose proof (network_conns) as Hn. match goal with |- context [network ?h ?c ?p ?e ?l] => specialize (Hn h c p e l); destruct (network h c p e l) as [cl1 es] end.
    intros [= <- _]. by eapply same_conns_insert.
  - unfold clusterGet. destruct (cl !! a) as [n|] eqn:Ea; [|by intros [= <- _]]. unfold GetCtx. destruct (Client.Get _ _ _ _ _ _ _ _) as [x [r'|]].
    + destruct (Heat.sample _ _ _) as [h|]; [|done]. cbn. intros [= <- _]. eapply same_conns_insert; [exact Ea|apply serve_conns|done].
    + cbn. intros [= <- _]. eapply same_conns_insert; [exact Ea|apply serve_conns|done].
Qed.

(** ** A write is there for everybody *)

(** The copies a write leaves: on the primary with the expiry of its cache, elsewhere with the
    one in the message. *)
Definition copy_expiry (n : node) (e : Node.env) (ttl : Z) (primary : bool) : Z :=
  if primary then cexpiry (local_data n) (rt_now (Node.e_rt e)) ttl else Client.absExpiry (Node.e_now e) ttl.

Lemma set_stores T t1 b S (cl : cluster) a n w evs k (v : V) ttl cl' res id m :
  agrees T b S cl → dom k → cl !! a = Some n → undisturbed T t1 k a n (s_env w) evs → cadmits (local_data n) = true →
  clusterSet gzip gunzip a w evs k v ttl cl = (cl', res) → (∀ err, res ≠ Some (Some (EClient err))) →
  id ∈ owner_ids k → cl' !! id = Some m →
  cfind (local_data m) k = Some (v, copy_expiry n (s_env w) ttl (bool_decide (id = a))).
Proof.
  intros A Hd Ea U Hadm E Hres Hin Hm. destruct (set_accepted _ _ _ _ _ _ _ _ _ _ _ _ _ _ A Hd Ea U E) as [(err & -> & _)|(_ & _ & x & ver & [Hcl _] & Hst)].
  { by destruct (Hres err). }
  destruct Hcl as (cl1 & n' & -> & _ & _ & Hl & Hnet). apply lookup_insert_Some in Hm as [[<- <-]|[Hne Hm]].
  - rewrite bool_decide_eq_true_2, (Hl Hin) by done.
    destruct (law_set b (local_data n) k v ttl (Node.e_rt (s_env w)) (st_wf _ _ _ _ (mb_data _ _ _ _ (ag_member _ _ _ _ A a n Ea)))) as (_ & _ & _ & Hf & _).
    destruct Hf as [Hf|(Hf & _)]; [exact Hf|congruence].
  - rewrite bool_decide_eq_false_2 by congruence. rewrite Hnet in Hm. apply fmap_Some in Hm as (m0 & Em & ->). unfold reached, Replication.targets. fold (owner_ids k).
    pose proof (ag_member _ _ _ _ A a n Ea) as [Hid _ _]. pose proof (ag_member _ _ _ _ A id m0 Em) as [_ X' _].
    destruct (un_delivered _ _ _ _ _ _ _ U id Hin ltac:(done)) as (Hc & e' & f & Ef & Hfa & He'). rewrite Ef, Hc, Hfa.
    rewrite bool_decide_eq_true_2 by (apply list_elem_of_filter; split; [congruence|done]). cbn [andb]. by apply (Hst e' id m0).
Qed.

Lemma rpcGet_hit T b id x e k (v : V) ex bv :
  in_step T (S b) id x → dom k → Node.e_now e ≤ Node.e_now' e → cfind (Node.local x) k = Some (v, ex) → ¬ dead (Node.e_now e) ex →
  Node.Encode v = Some bv → Node.too_large maxVal bv = false →
  ∃ val cp, leg_of (Node.rpcGet gzip e (EncodeKey k) x).2 = Client.Hit val cp ∧ Client.remote_value gunzip val cp = inl v.
Proof.
  intros X Hd He Hc Hdead Ev Hv. unfold Node.rpcGet. rewrite decode_encode by done.
  destruct (law_get b (Node.local x) k (Node.e_now e) (Node.e_now' e) (st_wf _ _ _ _ X) He) as (_ & _ & Hr & _).
  rewrite Hc in Hr. unfold alive_at in Hr. rewrite decide_False in Hr by done. cbn in Hr.
  destruct (cget (Node.local x) k (Node.e_now e) (Node.e_now' e)) as [c rv]. cbn [fst snd] in *. subst rv. rewrite Ev.
  cbn [Node.cfg Node.put_local]. rewrite (proj2 (st_limits _ _ _ _ X)), Hv. destruct (Node.maybeCompress gzip _ bv) as [b2 cp] eqn:Ec.
  exists b2, cp. split; [done|]. destruct (compress_back _ _ _ _ Ec) as [Hz _]. unfold Client.remote_value. by rewrite Hz, (codec_roundtrip v bv Ev).
Qed.

(** A reader that waits: its context does not end. *)
Definition patient (es : list Client.event) : Prop :=
  Forall (λ e, match e with Client.CtxDone | Client.InitialTimer (Some _) => False | _ => True end) es.
Lemma patient_out legs fan es : patient es → Client.out (Client.read_run legs fan es) ≠ Some Client.RCtx.
Proof.
  unfold Client.read_run. assert (Client.out (Client.read_begin legs) ≠ Some Client.RCtx) as H0 by done. revert H0. generalize (Client.read_begin legs).
  induction es as [|e es IH]; intros s Hs Hp; cbn [foldl]; [done|]. apply Forall_cons in Hp as [He Hp]. apply IH; [|done].
  unfold Client.read_step. destruct (Client.out s) as [r|] eqn:Eo; [by rewrite Eo|]. destruct e as [|[]|]; [|done| |done].
  - unfold Client.on_answer. destruct (Client.resCh s) as [|a q]; [by rewrite Eo|]. destruct a; [done| |]; (destruct (_ && _); [cbn; by rewrite Eo|]); (destruct (_ && _); [cbn; by repeat case_match|cbn; by rewrite Eo]).
  - destruct (Client.armed s); [|by rewrite Eo]. set (s1 := Client.MkReading _ _ _ _ _ _ _ _). assert (Client.out s1 = None) as E1 by done. clearbody s1.
    generalize (length legs). intros fuel. revert s1 E1. induction fuel as [|fuel IHf]; intros s1 E1; cbn [Client.hedge]; [by rewrite E1|].
    destruct (_ && _); [|by rewrite E1]. destruct (_ && _); [|cbn; by rewrite E1]. by apply IHf.
Qed.

Definition hit_of (v : V) (a : Client.ans) : Prop := ∃ val cp, a = Client.Hit val cp ∧ Client.remote_value gunzip val cp = inl v.
Lemma all_hits legs fan es (v : V) :
  legs ≠ [] → (0 < fan)%nat → Forall (hit_of v) legs → patient (es ++ Client.answers (S (length legs))) →
  ∃ val cp, Client.out (Client.read_run legs fan (es ++ Client.answers (S (length legs)))) = Some (Client.RHit val cp) ∧ Client.remote_value gunzip val cp = inl v.
Proof.
  intros Hne Hfan Hall Hp. pose proof (Client.read_ends legs fan es Hfan Hne) as Hdone. pose proof (patient_out legs fan _ Hp) as Hctx.
  destruct (Client.out _) as [r|] eqn:Eo; [|done]. destruct (Client.read_sequential legs fan _ r Hfan Hne Eo) as [->| ->]; [done|].
  destruct legs as [|l legs]; [done|]. apply Forall_cons in Hall as [(val & cp & -> & Hv) _]. by exists val, cp.
Qed.

Lemma candidates_of_stranger c healthy k :
  c ∉ owner_ids k → length (Client.candidates c healthy (owners k)) = length (owners k) ∧
  ∀ o, o ∈ Client.candidates c healthy (owners k) → Rendezvous.ID o ∈ owner_ids k ∧ Rendezvous.ID o ≠ c.
Proof.
  intros Hn. split.
  - unfold Client.candidates. rewrite (filter_app_complement (λ o, healthy (Rendezvous.ID o) = true)). f_equal.
    apply filter_all. intros o Ho E. apply Hn. rewrite <-E. by apply list_elem_of_fmap_2.
  - intros o Ho. destruct (proj1 (candidates_owned c healthy (owners k)) o Ho). split; [by apply list_elem_of_fmap_2|done].
Qed.

Lemma set_then_get_anywhere T t1 b S (cl cl' : cluster) a n w evs k (v : V) ttl res c m w' at_ (f : NodeID → fate) es :
  agrees T (Datatypes.S b) S cl → dom k → cl !! a = Some n → undisturbed T t1 k a n (s_env w) evs → cadmits (local_data n) = true →
  clusterSet gzip gunzip a w evs k v ttl cl = (cl', res) → (∀ err, res ≠ Some (Some (EClient err))) →
  cl' !! c = Some m → (∀ id, id ∈ owner_ids k → id ≠ c → is_Some (cl' !! id) ∧ connected m id = true ∧ answered (f id) = true) →
  Node.e_now (s_env w') ≤ Node.e_now' (s_env w') → (∀ id, Node.e_now (at_ id) ≤ Node.e_now' (at_ id)) →
  (∀ p, ¬ dead (Node.e_now (s_env w')) (copy_expiry n (s_env w) ttl p)) →
  (∀ p id, ¬ dead (Node.e_now (at_ id)) (copy_expiry n (s_env w) ttl p)) →
  s_read w' = es ++ Client.answers (Datatypes.S (length (owners k))) → patient (s_read w') →
  ∃ cl'', clusterGet gzip gunzip maphash c w' at_ f k cl' = Some (cl'', Some (inl (Some v))).
Proof.
  intros A Hd Ea U Hadm E Hres Em Hreach He Hat Hd1 Hd2 Hes Hp. pose proof (set_agrees _ _ _ _ _ _ _ _ _ _ _ _ _ _ A Hd Ea U E) as A'.
  assert (∀ id n', id ∈ owner_ids k → cl' !! id = Some n' → ∃ p, cfind (local_data n') k = Some (v, copy_expiry n (s_env w) ttl p)) as Hst.
  { intros id n' Hin Hn'. eexists. exact (set_stores T t1 (Datatypes.S b) S cl a n w evs k v ttl cl' res id n' A Hd Ea U Hadm E Hres Hin Hn'). }
  destruct (set_accepted _ _ _ _ _ _ _ _ _ _ _ _ _ _ A Hd Ea U E) as [(err & -> & _)|(_ & [Hos (bv & Ev & Hv)] & _)]; [by destruct (Hres err)|].
  destruct (get_agrees t1 b _ cl' c m w' at_ f k A' Hd Em He Hat) as (cl'' & r & Eg & _). rewrite Eg. exists cl''. do 2 f_equal.
  revert Eg. unfold clusterGet. rewrite Em. unfold GetCtx. set (ww := MkSurr _ _ _ _ _ _ _). change (s_env ww) with (s_env w'). change (s_read ww) with (s_read w').
  pose proof (ag_member _ _ _ _ A' c m Em) as [_ X _]. set (cget_ := Client.Get _ _ _ _ _ _ _ _).
  assert (cget_.2 = Some (inl (Some v))) as Hget; [|destruct cget_ as [x r']; cbn in Hget; subst r'; destruct (Heat.sample _ _ _); [|done]; by intros [= _ <-]].
  destruct (decide (c ∈ owner_ids k)) as [Hin|Hnin].
  - destruct (Hst c m Hin Em) as [p Hc]. apply list_elem_of_fmap in Hin as (o & Eo & Ho).
    eapply (Client.get_local KC VC gunzip b (data m)); [|apply X|done|by exists o; rewrite (st_self _ _ _ _ X)|exact Hc|apply Hd1].
    rewrite (st_ring _ _ _ _ X). revert Hos Ho. unfold owners. by destruct (Rendezvous.ownersFromKeyHash ring (Hash64 k)).
  - unfold cget_, Client.Get. rewrite (st_ring _ _ _ _ X), (st_self _ _ _ _ X). clear cget_.
    assert (Rendezvous.ownersFromKeyHash ring (Hash64 k) = Some (owners k)) as ->.
    { revert Hos. unfold owners. by destruct (Rendezvous.ownersFromKeyHash ring (Hash64 k)). }
    assert (existsb (λ o, bool_decide (Rendezvous.ID o = c)) (owners k) = false) as ->.
    { destruct (existsb _ _) eqn:Ex; [|done]. apply existsb_exists in Ex as (o & Hin & Eo%bool_decide_eq_true). destruct Hnin. rewrite <-Eo.
      apply list_elem_of_fmap_2. by apply list_elem_of_In. }
    destruct (owners k) as [|o os] eqn:Eos; [done|]. rewrite <-Eos in *. set (legs := _ <$> Client.candidates _ _ _).
    destruct (candidates_of_stranger c (λ id, connected m id && s_healthy ww id) k Hnin) as [Hlen Hcand].
    assert (length legs = length (owners k)) as Hll by (unfold legs; by rewrite length_fmap). assert (legs ≠ []) as Hne by (intros El; rewrite El, Eos in Hll; done).
    rewrite decide_False by done. rewrite Hes, <-Hll in *. cbn [snd].
    destruct (all_hits legs (Z.to_nat (Z.min (Client.fanout (tuning m)) (Z.of_nat (length legs)))) es v Hne) as (val & cp & -> & ->); [by apply fanout_pos| |done|done].
    apply Forall_fmap, Forall_forall. intros o' Ho'. apply Hcand in Ho' as [Ho' Hne']. unfold compose. destruct (Hreach _ Ho' Hne') as ([n' En'] & -> & Ha).
    cbn [s_answer ww]. unfold answer_of, on_node. rewrite Ha, En'. destruct (Hst _ n' Ho' En') as [p Hc].
    destruct (rpcGet_hit t1 b _ (data n') (at_ (Rendezvous.ID o')) k v _ bv (mb_data _ _ _ _ (ag_member _ _ _ _ A' _ n' En')) Hd (Hat _) Hc (Hd2 p _) Ev Hv) as (val & cp & Hh & Hrv).
    destruct (Node.rpcGet _ _ _ _) as [x resp]. cbn in *. by exists val, cp.
Qed.

End Agreement.

(** ** Instances: three nodes, of which the last and the first own the key *)
#[local] Existing Instance NodeTheorems.demo_keys.
#[local] Existing Instance NodeTheorems.bytes_inhabited.
#[local] Instance plain_codec : Node.Codec bytes := {| Node.Encode b := Some (bytes_encode b); Node.Decode b := Some (bytes_decode b) |}.

Lemma plain_roundtrip (v b : bytes) : Node.Encode v = Some b → Node.Decode b = Some v.
Proof. by intros [= <-]. Qed.

Definition demo_conns : Peers.state :=
  Peers.put_table {[ [97] := 0%nat; [98] := 1%nat; [99] := 2%nat ]}
    (Peers.put_links ((λ id, Peers.MkLink [id] [id] true false) <$> [97; 98; 99]) (Peers.fresh Membership.newMembership)).
Definition demo_member (id : NodeID) : node (C := InMemoryCache bytes bytes) :=
  let n := NewNode (hd 0) (λ _, 0) (Config.put_id id Lifecycle.demo_config) Lifecycle.demo_local false in
  MkNode (cfg n) (Dispatch.put_nd (Node.put_ring Rendezvous.demo_ring (nd (dplane n))) (dplane n)) (heat n) (hh n) demo_conns 0 (Some true) false false.
Definition demo_cluster : gmap NodeID (node (C := InMemoryCache bytes bytes)) :=
  {[ [97] := demo_member [97]; [98] := demo_member [98]; [99] := demo_member [99] ]}.

Abbreviation demo_agrees := (agrees NodeTheorems.demo_keys is_bytes Rendezvous.demo_ring (Z.shiftl 128 10) (Z.shiftl 2 20)).
Lemma demo_members id n : demo_cluster !! id = Some n → n = demo_member id ∧ (id = [97] ∨ id = [98] ∨ id = [99]).
Proof. unfold demo_cluster. rewrite !lookup_insert_Some, lookup_singleton_Some. naive_solver. Qed.
Lemma demo_in_agreement b : (b ≤ 5)%nat → demo_agrees 0 b (λ _ : bytes, None) demo_cluster.
Proof.
  intros Hb. split.
  - intros id n [-> Hid]%demo_members. assert (wf b Lifecycle.demo_local) as Hw by (eapply wf_le; [exact Hb|apply Client.demo_local_wf]).
    destruct Hid as [->|[->| ->]]; (split; [done|split; [done|done|done|done|exact Hw|split; [unfold Hlc.in_range; by vm_compute|done]|done]|split; [apply Heat.ss_new_inv|done]]).
  - intros k id n v e _ _ [-> _]%demo_members E. destruct NodeTheorems.demo_fresh as (_ & _ & _ & H). pose proof (eq_trans (eq_sym (H k)) E). done.
Qed.

Definition demo_surr (t : Z) : surroundings :=
  MkSurr (NodeTheorems.at_time t) (λ _, t) (λ _, t) [] (λ _, true) (λ _, Client.CleanMiss) (Client.answers 3).
(** The messages of a write at [t], the second owner first; the reply of the first is lost. *)
Definition demo_net (t : Z) : list netEvent :=
  [Send [97] (NodeTheorems.at_time (t + 1)) Delivered; Send [99] (NodeTheorems.at_time (t + 2)) ReplyLost; Caller Replication.Receive].
Lemma demo_undisturbed a T t : T < t < 1000 → 0 ≤ T → a = [98] ∨ a = [99] →
  undisturbed NodeTheorems.demo_keys Rendezvous.demo_ring T (t + 2) ([5] : bytes) a (demo_member a) (NodeTheorems.at_time t) (demo_net t).
Proof.
  intros Ht HT Ha. assert (owner_ids NodeTheorems.demo_keys Rendezvous.demo_ring ([5] : bytes) = [[99]; [97]]) as Eo by by vm_compute.
  split; rewrite ?Eo; clear Eo.
  - change (Node.e_ms (NodeTheorems.at_time t)) with t. lia.
  - lia.
  - destruct Ha as [->| ->]; [|reflexivity]. rewrite !elem_of_cons, elem_of_nil. intros [H|[H|[]]]; discriminate H.
  - intros id Hin _. unfold connected. change (conns (demo_member a)) with demo_conns. rewrite !elem_of_cons, elem_of_nil in Hin.
    destruct Hin as [->|[->|[]]]; (split; [by vm_compute|]); eexists _, _; (split; [reflexivity|]); (split; [done|]); cbn [Node.e_ms NodeTheorems.at_time]; lia.
Qed.

(** A run: a write on a node that does not own the key, reads on an owner and on that node, a
    deletion on the primary, a read. *)
Definition demo_get (a : NodeID) (t : Z) : op (K := bytes) (V := bytes) * Z :=
  (OGet a (demo_surr t) (λ _, NodeTheorems.at_time t) (λ _, Delivered) [5], t).
Definition demo_ops : list (op * Z) :=
  [(OSet [98] (demo_surr 10) (demo_net 10) [5] [7] 0, 12); demo_get [97] 20; demo_get [98] 30;
   (ODelete [99] (demo_surr 40) (demo_net 40) [5], 42); demo_get [98] 50].
Abbreviation demo_op := (cluster_op NodeTheorems.demo_keys (λ b, b) Some (λ s _, s)).
Abbreviation demo_connected cl := (same_conns demo_cluster cl).
Abbreviation demo_calm := (calm NodeTheorems.demo_keys is_bytes (λ b, b) Some (λ s _, s) Rendezvous.demo_ring).

Lemma demo_conns_kept (cl : gmap NodeID (node (C := InMemoryCache bytes bytes))) (id : NodeID) : demo_connected cl → id = [97] ∨ id = [98] ∨ id = [99] → ∃ m, cl !! id = Some m ∧ conns m = demo_conns.
Proof.
  intros Hs Hid. specialize (Hs id). assert (demo_cluster !! id = Some (demo_member id)) as Hin by by destruct Hid as [->|[->| ->]]; vm_compute.
  rewrite Hin in Hs. cbn [fmap option_fmap option_map] in Hs. apply fmap_Some in Hs as (m & Em & Ec). exists m. split; [exact Em|]. symmetry. exact Ec.
Qed.
Lemma demo_is_calm : demo_calm 0 demo_cluster demo_ops.
Proof.
  assert (is_bytes [5]) as Hb by (repeat constructor; lia).
  assert (∀ cl a T t, demo_connected cl → T < t < 1000 → 0 ≤ T → a = [98] ∨ a = [99] → ∃ n, cl !! a = Some n ∧
    undisturbed NodeTheorems.demo_keys Rendezvous.demo_ring T (t + 2) ([5] : bytes) a n (NodeTheorems.at_time t) (demo_net t)) as Hu.
  { intros cl a T t Hs Ht HT Ha. destruct (demo_conns_kept cl a Hs ltac:(tauto)) as (n & En & Ec). exists n. split; [exact En|].
    pose proof (demo_undisturbed a T t Ht HT Ha) as [U1 U2 U3 U4]. split; [done..|]. unfold connected in *. rewrite Ec. exact U4. }
  assert (∀ cl a T t, demo_connected cl → T ≤ t → a = [97] ∨ a = [98] ∨ a = [99] →
    calm_op NodeTheorems.demo_keys is_bytes Rendezvous.demo_ring T t (demo_get a t).1 cl) as Hg.
  { intros cl a T t Hs Ht Ha. split; [done|]. split; [exact Hb|]. split; [|done].
    destruct (demo_conns_kept cl a Hs Ha) as (n & En & _). exists n. exact En. }
  cbn [calm demo_ops demo_get]. split; [split; [exact Hb|]; apply (Hu _ [98] 0 10); [done|lia|lia|by left]|].
  intros cl1 r1 C1%(op_keeps_conns _ _ _ _). split; [apply (Hg cl1 [97] 12 20); [done|lia|auto]|].
  intros cl2 r2 C2%(op_keeps_conns _ _ _ _). assert (demo_connected cl2) as D2 by (intros id; by rewrite C2). split; [apply (Hg cl2 [98] 20 30); [done|lia|auto]|].
  intros cl3 r3 C3%(op_keeps_conns _ _ _ _). assert (demo_connected cl3) as D3 by (intros id; by rewrite C3).
  split; [split; [exact Hb|]; apply (Hu cl3 [99] 30 40); [done|lia|lia|by right]|].
  intros cl4 r4 C4%(op_keeps_conns _ _ _ _). split; [|done]. apply (Hg cl4 [98] 42 50); [intros id; by rewrite C4|lia|auto].
Qed.



(** A write with the default lifetime gets it on the primary only: the message carries "never"
    to the other owners.  When the primary's copy has expired, a read there is answered by a
    replica, with the value that should be gone. *)
Definition short_lived (id : NodeID) : node (C := InMemoryCache bytes bytes) :=
  let s := small LRU in
  let c := {| MaxSize := MaxSize s; ShardCount := 1; CleanupInterval := 0; DefaultTTL := 5; Policy := LRU; StatsEnabled := true; AdmissionResetInterval := 0;
              AdmissionScanRateThreshold := 0; AdmissionScanMissThreshold := 0; AdmissionScanRecencyThreshold := 0; AdmissionRecencyTieBreak := 0 |} in
  let n := demo_member id in put_nd (Node.put_local (New 4 (Admission.clock_at 0) c) (nd (dplane n))) n.
Theorem default_ttl_not_replicated :
  let cl := {[ [97] := short_lived [97]; [99] := short_lived [99] ]} in
  let '(cl', r) := clusterSet (λ b, b) Some [99] (demo_surr 10) (demo_net 10) ([5] : bytes) ([7] : bytes) DefaultExpiration cl in
  r = Some None ∧
  (λ n, cfind (Node.local (nd (dplane n))) [5]) <$> cl' !! [99] = Some (Some ([7], 15)) ∧
  (λ n, cfind (Node.local (nd (dplane n))) [5]) <$> cl' !! [97] = Some (Some ([7], 0)) ∧
  snd <$> clusterGet (λ b, b) Some (λ s _, s) [99] (demo_surr 1000) (λ _, NodeTheorems.at_time 1000) (λ _, Delivered) ([5] : bytes) cl' =
    Some (Some (inl (Some [7]))).
Proof. vm_compute. done. Qed.
End Cluster.
