(* ===== verification/Recovery.v ===== *)
(** * Acknowledgements and hints in a cluster

    What survives lost messages.  A write whose caller is told of success is on as many nodes as
    its write concern asks for; an owner that the write did not reach has a hint, and the pass of
    [replayOne] ([src/cluster/handoff.go]) over the peers, with the handlers of [Cluster]'s nodes
    at the other end of every send, brings such owners up to date. *)
From Stdlib Require Import ZArith Lia.
From stdpp Require Import base numbers list gmap sets sorting.
From S2P Require Import Prelude Heap Admission Shard Eviction Cache CacheInv CacheSpec CacheTheorems CacheIface Hlc KeyCodec Rendezvous Lease Membership Heat Handoff HandoffInv HandoffSpec HandoffTheorems Replay Replication Node NodeTheorems Client Repair Load Gossip Transport Weights Serve ServeTheorems Dispatch Config Peers Lifecycle Adapter Cluster.
Local Open Scope Z_scope.

Module Recovery.
Import KeyCodec Lifecycle Dispatch Adapter Cluster.

Section Replay.
Context {C K V : Type} `{Ops : CacheOps C K V, St : CacheStats C, KC : KeyCodec K, VC : Node.Codec V}.
Context (gunzip : bytes → option bytes).
Abbreviation node := (node (C := C)).
Abbreviation data n := (nd (dplane n)).
Abbreviation cluster := (gmap NodeID node).

(** The message a hint is sent as, at its receiver. *)
Definition hint_handler (hi : Handoff.hintItem) (e : Node.env) : Node.Node C → Node.Node C * Node.MsgResp :=
  if Handoff.isDel hi then Node.rpcDel e (Node.MkDel (Handoff.hkey hi) (Handoff.ver hi))
  else Node.rpcSet gunzip e (Node.MkSet (Handoff.hkey hi) (Handoff.hval hi) (Handoff.exp hi) (Handoff.ver hi) (Handoff.cp hi)).

(** What a send meets: whether there is a connection or one can be dialed, the moment of its
    arrival, the fate of the message, and the times at which a failure is rescheduled. *)
Record passage := MkPassage { linked : bool; p_env : Node.env; p_fate : fate; p_fatal : bool; p_retry : Z; p_requeue : Z }.

Definition send_hint (p : passage) (id : NodeID) (hi : Handoff.hintItem) (cl : cluster) : cluster * Replay.sendResult :=
  if linked p then
    let '(cl, r) := if arrives (p_fate p) then on_node id (hint_handler hi (p_env p)) cl else (cl, None) in
    (cl, match r with
         | Some resp => if answered (p_fate p) then if Node.OK resp then Replay.Acked else Replay.Refused else Replay.TransportError (p_fatal p)
         | None => Replay.TransportError (p_fatal p)
         end)
  else (cl, Replay.NoPeer).

(** The loop of [replayOne] over the peers. *)
Fixpoint replay_pass (ps : NodeID → passage) (now : Z) (ids : list NodeID) (h : Replay.handoff) (cl : cluster)
    : Replay.handoff * cluster * option (NodeID * Handoff.hintItem) :=
  match ids with
  | [] => (h, cl, None)
  | id :: ids =>
      let '(h, q) := Replay.queue id h in
      let '(q, r) := Handoff.popReady now q in
      match r with
      | None => replay_pass ps now ids (Replay.put_peer id q h) cl
      | Some hi =>
          let '(cl, out) := send_hint (ps id) id (Handoff.obj q hi) cl in
          match out with
          | Replay.Acked => (Replay.put_peer id q h, cl, Some (id, Handoff.obj q hi))
          | _ => replay_pass ps now ids (Replay.put_peer id (Replay.scheduleRetry (Replay.MkAttempt out (p_retry (ps id)) (p_requeue (ps id))) hi q) h) cl
          end
      end
  end.
Definition replay_from (o : rangeOrder) (ps : NodeID → passage) (now : Z) (h : Replay.handoff) (cl : cluster)
    : Replay.handoff * cluster * option (NodeID * Handoff.hintItem) :=
  let ids := range o ((map_to_list (Replay.peers h)).*1) in
  match ids with
  | [] => (h, cl, None)
  | _ =>
      let idx := Z.to_nat (Replay.rr h) in
      let h := Replay.MkHandoff (Replay.cfg h) (Replay.peers h) (Replay.totalItems h) (Replay.totalBytes h) (Replay.paused h) (Replay.stopped h) (u32 (Replay.rr h + 1)) in
      replay_pass ps now (Replay.rotate_from idx ids) h cl
  end.
(** One call of [replayOne] on node [a]. *)
Definition clusterReplay (a : NodeID) (o : rangeOrder) (ps : NodeID → passage) (now : Z) (cl : cluster) : cluster * option (NodeID * Handoff.hintItem) :=
  match n ← cl !! a; hh n with
  | None => (cl, None)
  | Some h => let '(h, cl, r) := replay_from o ps now h cl in (alter (put_hh (Some h)) a cl, r)
  end.

(** ** One pass is [replayOne] *)
Implicit Types (hi : Handoff.hintItem) (id i : NodeID) (p : passage) (ps : NodeID → passage) (h : Replay.handoff) (now : Z) (ids : list NodeID) (o : rangeOrder).
Definition attempts (ps : NodeID → passage) (cl : cluster) (id : NodeID) (hi : Handoff.hintItem) : Replay.attempt :=
  Replay.MkAttempt (send_hint (ps id) id hi cl).2 (p_retry (ps id)) (p_requeue (ps id)).

Lemma send_hint_elsewhere p id hi (cl : cluster) i : i ≠ id → (send_hint p id hi cl).1 !! i = cl !! i.
Proof.
  intros Hne. unfold send_hint, on_node. destruct (linked p); [|done]. destruct (arrives _); [|done].
  destruct (cl !! id) as [n|]; [|done]. destruct (hint_handler _ _ _). cbn. by rewrite lookup_insert_ne.
Qed.
Lemma send_hint_result p id hi (cl cl' : cluster) : cl' !! id = cl !! id → (send_hint p id hi cl').2 = (send_hint p id hi cl).2.
Proof.
  intros E. unfold send_hint, on_node. rewrite E. destruct (linked p); [|done]. destruct (arrives _); [|done].
  destruct (cl !! id) as [n|]; [|done]. by destruct (hint_handler _ _ _).
Qed.

Lemma replay_pass_loop ps now ids h (cl0 cl : cluster) :
  NoDup ids → (∀ id, id ∈ ids → cl !! id = cl0 !! id) →
  let '(h', _, r) := replay_pass ps now ids h cl in (h', r) = Replay.replay_loop (attempts ps cl0) now ids h.
Proof.
  revert h cl. induction ids as [|id ids IH]; intros h cl Hnd Hcl; [done|]. apply NoDup_cons in Hnd as [Hid Hnd]. cbn [replay_pass Replay.replay_loop].
  destruct (Replay.queue id h) as [h1 q]. destruct (Handoff.popReady now q) as [q1 [hi|]]; [|apply IH; [done|set_solver]].
  pose proof (send_hint_result (ps id) id (Handoff.obj q1 hi) cl0 cl (Hcl id ltac:(set_solver))) as Er.
  assert (∀ i, i ∈ ids → (send_hint (ps id) id (Handoff.obj q1 hi) cl).1 !! i = cl0 !! i) as Hcl'.
  { intros i Hi. rewrite send_hint_elsewhere by (intros ->; done). apply Hcl. set_solver. }
  unfold attempts at 1 2. cbn [Replay.outcome]. rewrite <-Er. destruct (send_hint (ps id) id (Handoff.obj q1 hi) cl) as [cl1 out]. cbn [fst snd] in *.
  unfold attempts at 1. rewrite <-Er. destruct out; try done; by apply IH.
Qed.

(** The handoff manager of a node in a cluster does what [replayOne] does with the answers of
    the peers as they are when the pass starts: no peer is sent to twice in a pass. *)
Lemma replay_from_one o ps now h (cl : cluster) :
  let '(h', _, r) := replay_from o ps now h cl in Replay.replayOne o (attempts ps cl) now h = (h', r).
Proof.
  unfold replay_from, Replay.replayOne. pose proof (range_perm o (map_to_list (Replay.peers h)).*1) as Hp. destruct (range o _) as [|x l] eqn:El; [done|].
  rewrite <-El in *. match goal with |- context [replay_pass ps now ?ids ?h1 cl] => pose proof (replay_pass_loop ps now ids h1 cl cl) as H; destruct (replay_pass ps now ids h1 cl) as [[h' cl'] r] end.
  symmetry. apply H; [|done]. rewrite Replay.rotate_perm, Hp. apply NoDup_fst_map_to_list.
Qed.
End Replay.

(** ** What an acknowledgement means *)
Section Durable.
Context {C K V : Type} `{EqDecision K, Ops : !CacheOps C K V, Laws : !CacheLaws C K V, St : CacheStats C}.
Context (KC : KeyCodec K) `{VC : Node.Codec V} (gzip : bytes → bytes) (gunzip : bytes → option bytes).
Abbreviation node := (node (C := C)).
Abbreviation cluster := (gmap NodeID node).
Abbreviation data n := (nd (dplane n)).
Implicit Types (hi : Handoff.hintItem) (id i a : NodeID) (n m : node) (x : Node.Node C) (cl : cluster) (k : K) (v : V) (kb : bytes).

(** Versions never go back. *)
Definition newer (x x' : Node.Node C) : Prop :=
  Node.cfg x' = Node.cfg x ∧ ∀ kb, Node.version_of x kb ≤ Node.version_of x' kb.
#[local] Instance newer_preorder : PreOrder newer.
Proof.
  split; [by split|]. intros x y z [E1 H1] [E2 H2]. split; [congruence|]. intros kb. specialize (H1 kb). specialize (H2 kb). lia.
Qed.
Lemma newer_local c x : newer x (Node.put_local c x).
Proof. done. Qed.
Lemma newer_version x x' kb ver :
  Node.cfg x' = Node.cfg x → Node.version x' = <[kb := ver]> (Node.version x) → Node.version_of x kb ≤ ver → newer x x'.
Proof.
  intros Ec Ev Hle. split; [done|]. intros kb'. unfold Node.version_of in *. rewrite Ev. destruct (decide (kb' = kb)) as [->|].
  - by rewrite lookup_insert_eq.
  - by rewrite lookup_insert_ne.
Qed.

Record stored (e : Node.env) (s : Node.MsgSet) (x x' : Node.Node C) : Prop := {
  so_newer : newer x x';
  so_version : Node.sVer s ≤ Node.version_of x' (Node.sKey s);
  so_value : Node.sVer s < Node.version_of x (Node.sKey s) ∨
    ∃ vb k v, Node.set_validate gunzip x s = inl (vb, k) ∧ Node.Decode vb = Some v ∧ (wf 0 (Node.local x) → cfind (Node.local x') k = Some (v, Node.sExp s)) }.
Lemma rpcSet_newer e s x :
  newer x (Node.rpcSet gunzip e s x).1 ∧ (Node.LWWEnabled (Node.cfg x) = true → Node.OK (Node.rpcSet gunzip e s x).2 = true → stored e s x (Node.rpcSet gunzip e s x).1).
Proof.
  unfold Node.rpcSet. destruct (Node.set_validate gunzip x s) as [[vb k]|err] eqn:Ev; [|by split].
  destruct (Node.LWWEnabled (Node.cfg x)) eqn:El; cbn [andb].
  - destruct (Z.ltb_spec (Node.sVer s) (Node.version_of x (Node.sKey s))) as [Hlt|Hge]. { split; [done|]. intros _ _. split; [done|cbn; lia|by left]. }
    destruct (Node.Decode vb) as [v|] eqn:Ed; [|by split]. change (Node.cfg (Node.import_one e (Node.set_item s k v) x)) with (Node.cfg x). rewrite El. cbn [fst snd].
    assert (newer x (Node.record_version e (Node.sKey s) (Node.sVer s) (Node.import_one e (Node.set_item s k v) x))) as Hn by by eapply newer_version.
    split; [done|]. intros _ _. split; [done| |].
    + unfold Node.version_of. cbn [Node.record_version Node.put_clock Node.put_version Node.version]. by rewrite lookup_insert_eq.
    + right. exists vb, k, v. split; [done|]. split; [done|]. intros Hw.
      destruct (law_import 0 (Node.local x) (Node.e_now e) (Node.e_order e) (Node.set_item s k v) (Node.e_pool e) Hw) as (_ & _ & Hf & _). exact Hf.
  - destruct (Node.Decode vb) as [v|] eqn:Ed; [|by split]. change (Node.cfg (Node.import_one e (Node.set_item s k v) x)) with (Node.cfg x). rewrite El. cbn [fst snd].
    by split.
Qed.
Lemma rpcDel_newer e d x :
  newer x (Node.rpcDel e d x).1 ∧ (Node.LWWEnabled (Node.cfg x) = true → Node.OK (Node.rpcDel e d x).2 = true → Node.dVer d ≤ Node.version_of (Node.rpcDel e d x).1 (Node.dKey d)).
Proof.
  unfold Node.rpcDel. destruct (Node.too_large _ _); [by split|]. destruct (DecodeKey (Node.dKey d)) as [k|]; [|by split].
  destruct (Node.LWWEnabled (Node.cfg x)) eqn:El; cbn [andb].
  - destruct (Z.ltb_spec (Node.dVer d) (Node.version_of x (Node.dKey d))) as [Hlt|Hge]. { split; [done|]. intros _ _. cbn. lia. }
    destruct (cdelete _ k) as [c b]. cbn [fst snd]. split; [by eapply newer_version|]. intros _ _.
    unfold Node.version_of. cbn [Node.put_local Node.record_version Node.put_clock Node.put_version Node.version]. by rewrite lookup_insert_eq.
  - destruct (cdelete _ k) as [c b]. by split.
Qed.

Lemma hint_newer hi e x :
  newer x (hint_handler gunzip hi e x).1 ∧
  (Node.LWWEnabled (Node.cfg x) = true → Node.OK (hint_handler gunzip hi e x).2 = true → Handoff.ver hi ≤ Node.version_of (hint_handler gunzip hi e x).1 (Handoff.hkey hi)).
Proof.
  unfold hint_handler. destruct (Handoff.isDel hi).
  - exact (rpcDel_newer e (Node.MkDel _ _) x).
  - destruct (rpcSet_newer e (Node.MkSet (Handoff.hkey hi) (Handoff.hval hi) (Handoff.exp hi) (Handoff.ver hi) (Handoff.cp hi)) x) as [H1 H2].
    split; [exact H1|]. intros Hl Hok. exact (so_version _ _ _ _ (H2 Hl Hok)).
Qed.

(** A node of the cluster under the id it is filed under, with last-writer-wins on. *)
Record replica (id : NodeID) (n : node) : Prop := {
  rp_id : Config.ID (cfg n) = id;
  rp_self : Node.SelfID (Node.cfg (data n)) = id;
  rp_lww : Node.LWWEnabled (Node.cfg (data n)) = true;
  rp_wf : wf 0 (Node.local (data n)) }.

(** ** Acknowledged sends *)
Lemma network_acked handler (conn : NodeID → bool) (pending : list NodeID) (evs : list netEvent) cl id :
  Replication.Complete id true ∈ (network handler conn pending evs cl).2 →
  ∃ e m, cl !! id = Some m ∧ Node.OK (handler e (data m)).2 = true ∧ (network handler conn pending evs cl).1 !! id = Some (put_nd (handler e (data m)).1 m).
Proof.
  intros Hin. assert (∃ e f m, first_send id evs = Some (e, f) ∧ id ∈ pending ∧ conn id = true ∧ arrives f = true ∧ cl !! id = Some m ∧ Node.OK (handler e (data m)).2 = true)
    as (e & f & m & Ef & Hp & Hc & Ha & Em & Hok).
  { revert pending cl Hin. induction evs as [|[i e f|r] evs IH]; intros pending cl; cbn [network first_send].
    - by intros ?%elem_of_nil.
    - destruct (bool_decide_reflect (i ∈ pending)) as [Hi|Hi].
      + set (step := if conn i && arrives f then on_node i (handler e) cl else (cl, None)). destruct step as [cl1 r] eqn:Es. subst step.
        destruct (network handler conn (filter (λ y, y ≠ i) pending) evs cl1) as [cl2 es] eqn:En. intros [E|Hin]%elem_of_cons.
        * injection E as -> Eg. symmetry in Eg. apply andb_true_iff in Eg as [_ Eg]. rewrite decide_True by done. exists e, f.
          destruct (conn i) eqn:Ec; cbn [andb] in Es; [|by injection Es as <- <-]. destruct (arrives f) eqn:Ea; [|by injection Es as <- <-].
          unfold on_node in Es. destruct (cl !! i) as [m|]; [|by injection Es as <- <-]. exists m. destruct (handler e (data m)) as [x resp]. by injection Es as <- <-.
        * destruct (IH (filter (λ y, y ≠ i) pending) cl1) as (e' & f' & m & Ef & Hp & Hc & Ha & Em & Hok); [by rewrite En|].
          apply list_elem_of_filter in Hp as [Hne Hp]. rewrite decide_False by congruence. exists e', f', m. split_and!; try done.
          rewrite <-Em. destruct (conn i && arrives f); [|by injection Es as <- _]. unfold on_node in Es.
          destruct (cl !! i) as [mi|]; [|by injection Es as <- _]. destruct (handler e (data mi)). injection Es as <- _. by rewrite lookup_insert_ne.
      + intros Hin. destruct (IH pending cl Hin) as (e' & f' & m & Ef & Hp & H). rewrite decide_False by congruence. by exists e', f', m.
    - intros Hin. apply (IH pending cl). destruct r; [done|..]; destruct (network handler conn pending evs cl) as [cl2 es]; by apply elem_of_cons in Hin as [?|?]. }
  exists e, m. split; [done|]. split; [done|]. rewrite network_effect, Em. cbn [fmap option_fmap option_map]. unfold reached. rewrite Ef, Hc, Ha. by rewrite bool_decide_eq_true_2.
Qed.

Lemma acked_completed hint conn fast es c id :
  id ∈ Replication.acked (foldl (Replication.step hint conn fast) c es) → id ∈ Replication.acked c ∨ Replication.Complete id true ∈ es.
Proof.
  revert c. induction es as [|e es IH]; intros c; cbn [foldl]; [by left|]. intros [Hin|Hin]%IH; [|right; by right].
  destruct e as [i g| | |]; cbn [Replication.step] in Hin.
  2-4: left; revert Hin; by repeat case_match.
  unfold Replication.complete in Hin. case_bool_decide; [|by left]. destruct g; cbn [andb] in Hin; [|by left].
  destruct (conn i); [|by left]. cbn in Hin. apply elem_of_app in Hin as [?|Hin]; [by left|]. apply list_elem_of_singleton in Hin as ->. right. left.
Qed.
Lemma begin_acked hint conn wc self owners h : Replication.acked (Replication.begin hint conn wc self owners h) = [].
Proof.
  unfold Replication.begin. destruct (_ <=? 0); [done|]. generalize (Replication.targets self owners) as ids. intros ids.
  assert (∀ c, Replication.acked c = [] → Replication.acked (foldl (λ c id, if conn id then Replication.MkCall (Replication.remaining_ c) (Replication.errCh c) (Replication.sending c ++ [id]) (Replication.result c)
    (Replication.hh c) (Replication.acked c) (Replication.hinted c) else Replication.add_hint hint id c) c ids) = []) as H; [|by apply H].
  induction ids as [|id ids IH]; intros c Hc; cbn [foldl]; [done|]. apply IH. by destruct (conn id).
Qed.

(** ** A write that reports success *)
Context (dom : K → Prop) (KCL : KeyCodecLaws KC dom).
Hypothesis gzip_roundtrip : ∀ b : bytes, gunzip (gzip b) = Some b.
Hypothesis codec_roundtrip : ∀ (v : V) (b : bytes), Node.Encode v = Some b → Node.Decode b = Some v.

(** The pieces of [clusterSet] once the write has a version. *)
Definition set_msg (x : Node.Node C) (wr : Client.write) : Node.MsgSet :=
  Node.MkSet (Client.w_key wr) (Node.maybeCompress gzip x (Client.w_val wr)).1 (Client.w_exp wr) (Client.w_ver wr) (Node.maybeCompress gzip x (Client.w_val wr)).2.
Definition set_call (w : surroundings) (n : node) (x : Node.Node C) (wr : Client.write) (es : list Replication.event) : Replication.call :=
  Replication.replicateSet (Node.maybeCompress gzip x) (connected n) (s_added w) (s_now w) (Config.WriteConcern (cfg n)) (Config.ID (cfg n))
    (Client.w_key wr) (Client.w_val wr) (Client.w_exp wr) (Client.w_ver wr) (Client.w_owners wr) (hh n) es.
Lemma clusterSet_pieces a (w : surroundings) (evs : list netEvent) k v (ttl : Z) cl n x wr :
  cl !! a = Some n → Client.Set_ (s_env w) k v ttl (data n) = (x, inl wr) →
  let net := network (λ e, Node.rpcSet gunzip e (set_msg x wr)) (connected n) (Replication.targets (Config.ID (cfg n)) (Client.w_owners wr)) evs cl in
  let c := set_call w n x wr net.2 in
  clusterSet gzip gunzip a w evs k v ttl cl = (<[a := put_hh (Replication.hh c) (put_nd x n)]> net.1, option_map (option_map ERepl) (Replication.result c)).
Proof.
  intros Ea E. unfold clusterSet, SetCtx. rewrite Ea. cbn [s_env with_sends]. rewrite E. unfold set_msg. destruct (Node.maybeCompress gzip x (Client.w_val wr)) as [b2 cp].
  cbn [fst snd]. by destruct (network _ _ _ _ _) as [cl1 es].
Qed.

Lemma acked_stored a w evs k v ttl cl n x wr id es :
  (∀ id m, cl !! id = Some m → replica id m) → dom k → cl !! a = Some n → Client.Set_ (s_env w) k v ttl (data n) = (x, inl wr) →
  let net := network (λ e, Node.rpcSet gunzip e (set_msg x wr)) (connected n) (Replication.targets (Config.ID (cfg n)) (Client.w_owners wr)) evs cl in
  es = net.2 → id ∈ Replication.acked (set_call w n x wr es) →
  ∃ m m', cl !! id = Some m ∧ net.1 !! id = Some m' ∧ Client.w_ver wr ≤ Node.version_of (data m') (EncodeKey k) ∧
    (Client.w_ver wr < Node.version_of (data m) (EncodeKey k) ∨ cfind (Node.local (data m')) k = Some (v, Client.absExpiry (Node.e_now (s_env w)) ttl)).
Proof.
  intros R Hd Ea E net -> Hin. unfold set_call, Replication.replicateSet in Hin.
  destruct (Node.maybeCompress gzip x (Client.w_val wr)) as [b2 cp] eqn:Ec. unfold Replication.replicate in Hin.
  apply acked_completed in Hin as [Hin|Hin]; [rewrite begin_acked in Hin; by apply elem_of_nil in Hin|].
  apply network_acked in Hin as (e & m & Em & Hok & Em'). pose proof (R id m Em) as [_ _ Hl Hw].
  destruct (rpcSet_newer e (set_msg x wr) (data m)) as [_ Hs]. destruct (Hs Hl Hok) as [_ Hv Hval]. exists m. eexists. split; [done|]. split; [exact Em'|].
  destruct (set_inv KC _ _ _ _ _ _ _ E) as [(err & ? & _)|(os & bv & x1 & ver & _ & _ & Ev & _ & _ & [= Ewr] & _)]; [done|].
  assert (set_msg x wr = Node.MkSet (EncodeKey k) b2 (Client.absExpiry (Node.e_now (s_env w)) ttl) (Client.w_ver wr) cp) as Em0 by (unfold set_msg; rewrite Ec; by subst wr).
  rewrite Em0 in Hv, Hval |- *. split; [exact Hv|]. subst wr. cbn [Client.w_val] in Ec.
  destruct Hval as [?|(vb & k' & v' & Hvd & Hdec & Hf)]; [by left|]. right. specialize (Hf Hw).
  unfold Node.set_validate in Hvd. cbn [Node.sKey Node.sVal Node.sCp] in Hvd. destruct (Node.too_large _ _); [done|]. destruct (Node.too_large _ _); [done|].
  destruct (compress_back gzip gunzip gzip_roundtrip _ _ _ _ Ec) as [Hz _]. rewrite Hz in Hvd. destruct (Node.too_large _ _); [done|].
  rewrite (decode_encode k Hd) in Hvd. injection Hvd as <- <-. rewrite (codec_roundtrip v bv Ev) in Hdec. injection Hdec as <-. exact Hf.
Qed.


(** ** A write that missed an owner *)
Lemma step_hinted hint conn fast c e :
  ∃ ids, Replication.hinted (Replication.step hint conn fast c e) = Replication.hinted c ++ ids ∧
    Replication.hh (Replication.step hint conn fast c e) = foldl (λ oh id, hint id <$> oh) (Replication.hh c) ids.
Proof.
  assert (∀ c', Replication.hinted c' = Replication.hinted c → Replication.hh c' = Replication.hh c →
    ∃ ids, Replication.hinted c' = Replication.hinted c ++ ids ∧ Replication.hh c' = foldl (λ oh id, hint id <$> oh) (Replication.hh c) ids) as Hsame.
  { intros c' E1 E2. exists []. by rewrite app_nil_r. }
  destruct e as [i g| | |]; cbn [Replication.step]; [|by repeat case_match; apply Hsame..].
  unfold Replication.complete. case_bool_decide; [|by apply Hsame]. destruct (g && conn i); [by apply Hsame|by exists [i]].
Qed.
Lemma replicate_hinted hint conn wc self owners h es :
  let c := Replication.replicate hint conn wc self owners h es in
  Replication.hh c = foldl (λ oh id, hint id <$> oh) h (Replication.hinted c).
Proof.
  unfold Replication.replicate. set (fast := _ <=? 0). assert (∀ c, Replication.hh c = foldl (λ oh id, hint id <$> oh) h (Replication.hinted c) →
    Replication.hh (foldl (Replication.step hint conn fast) c es) = foldl (λ oh id, hint id <$> oh) h (Replication.hinted (foldl (Replication.step hint conn fast) c es))) as Hs.
  { induction es as [|e es IH]; intros c Hc; cbn [foldl]; [done|]. apply IH. destruct (step_hinted hint conn fast c e) as (ids & -> & ->). by rewrite foldl_app, Hc. }
  apply Hs. unfold Replication.begin. destruct (_ <=? 0); [done|]. generalize (Replication.targets self owners) as ids. intros ids.
  set (c0 := Replication.MkCall _ _ _ _ _ _ _). assert (Replication.hh c0 = foldl (λ oh id, hint id <$> oh) h (Replication.hinted c0)) as H0 by done. revert H0. generalize c0 as c. clear c0.
  induction ids as [|id ids IH]; intros c Hc; cbn [foldl]; [done|]. apply IH. destruct (conn id); [done|]. cbn. by rewrite foldl_app, Hc.
Qed.

End Durable.

(** ** Hints drain *)
Section Drain.
Context {C K V : Type} `{EqDecision K, Ops : !CacheOps C K V, Laws : !CacheLaws C K V, St : CacheStats C}.
Context (KC : KeyCodec K) `{VC : Node.Codec V} (gunzip : bytes → option bytes).
Import Handoff HandoffInv HandoffTheorems Replay.
Abbreviation hdata := HandoffInv.data.
Abbreviation node := (node (C := C)).
Abbreviation cluster := (gmap NodeID node).
Abbreviation data n := (nd (dplane n)).
Implicit Types (hi : hintItem) (id i a : NodeID) (n m : node) (x : Node.Node C) (cl : cluster) (q : hintQueue) (h : handoff) (p : nat) (now : Z) (ids : list NodeID).

(** [hi] waits for [id]. *)
Definition queued h id hi : Prop := ∃ q p, peers h !! id = Some q ∧ p ∈ mem q ∧ hdata (obj q p) = hi.
(** Every waiting hint may be sent at [now]. *)
Definition ripe now h : Prop := ∀ id q p, peers h !! id = Some q → p ∈ mem q → nextAt (obj q p) ≤ now ∧ expired (ttl q) now (obj q p) = false.
(** The peer is there and takes the value. *)
Definition acceptable cl id hi : Prop :=
  ∃ m vb k v, cl !! id = Some m ∧ Node.LWWEnabled (Node.cfg (data m)) = true ∧ isDel hi = false ∧
    Node.set_validate gunzip (data m) (Node.MkSet (hkey hi) (hval hi) (exp hi) (ver hi) (cp hi)) = inl (vb, k) ∧ Node.Decode vb = Some v.
Definition backlog h : nat := sum_list ((length ∘ mem) <$> (map_to_list (peers h)).*2).
Definition good_passage (ps : passage) : Prop := linked ps = true ∧ p_fate ps = Delivered.

Lemma backlog_put id q q' h : peers h !! id = Some q → (backlog (put_peer id q' h) + length (mem q) = backlog h + length (mem q'))%nat.
Proof.
  intros Hq. unfold backlog. cbn [peers put_peer]. rewrite <-(insert_delete_eq (peers h) id q').
  assert (∀ q1, sum_list ((length ∘ mem) <$> (map_to_list (<[id := q1]> (delete id (peers h)))).*2) = (length (mem q1) + sum_list ((length ∘ mem) <$> (map_to_list (delete id (peers h))).*2))%nat) as H.
  { intros q1. rewrite map_to_list_insert by apply lookup_delete_eq. done. }
  rewrite H. rewrite <-(insert_delete_id (peers h) id q Hq) at 2. rewrite H. lia.
Qed.

(** [popReady] on a queue of ripe hints takes one and keeps the others. *)
Lemma pop_ripe now q q' r :
  Rep q → (∀ p, p ∈ mem q → nextAt (obj q p) ≤ now ∧ expired (ttl q) now (obj q p) = false) → popReady now q = (q', r) →
  ttl q' = ttl q ∧ (∀ p, p ∈ mem q' → p ∈ mem q) ∧ (∀ p, hdata (obj q' p) = hdata (obj q p)) ∧
  match r with
  | None => mem q = []
  | Some p => p ∈ mem q ∧ (length (mem q') < length (mem q))%nat ∧ ∀ p', p' ∈ mem q → p' = p ∨ p' ∈ mem q'
  end.
Proof.
  intros Hr Hripe E. pose proof (popReady_spec now q Hr) as Hp. rewrite E in Hp. destruct Hp as (Hr' & (_ & _ & Ht & _) & _ & D & _ & Hm & moved & gone & Hmv & Hg & H3).
  assert (∀ p, p ∈ mem q → p ∈ rdy q ++ moved) as Hall.
  { intros p Hp. rewrite elem_of_app, Hmv. unfold mem in Hp. apply elem_of_app in Hp as [Hp|Hp]; [by left|right]. split; [done|]. apply Hripe. unfold mem. set_solver. }
  assert (∀ p, p ∈ rdy q ++ moved → p ∈ mem q) as Hall'.
  { intros p Hp. unfold mem. rewrite elem_of_app, Hmv in Hp. unfold rdy in Hp. set_solver. }
  split; [done|]. split; [intros p Hp; by eapply elem_of_submseteq|]. split; [done|]. destruct r as [p|].
  - destruct H3 as (E1 & _ & (_ & Hd & _) & Hin). assert (gone = []) as ->.
    { destruct gone as [|g gone]; [done|]. assert (g ∈ mem q) as Hgm by (apply Hall'; rewrite E1; left). destruct (Hripe g Hgm) as [_ Hx]. by rewrite (Hg g ltac:(left)) in Hx. }
    split; [done|]. split.
    + apply submseteq_Permutation in Hm as [k Hk]. rewrite Hk, length_app. destruct k; [|cbn; lia]. rewrite app_nil_r in Hk. by rewrite Hk in Hin.
    + intros p' Hp'. apply Hall in Hp'. rewrite E1 in Hp'. cbn in Hp'. apply elem_of_cons in Hp' as [->|Hp']; [by left|right]. unfold mem. unfold rdy in Hp'. set_solver.
  - destruct H3 as [E1 _]. destruct (mem q) as [|p l] eqn:Em; [done|]. exfalso. destruct (Hripe p) as [_ Hx]; [left|].
    rewrite (Hg p) in Hx; [done|]. rewrite <-E1. apply Hall. left.
Qed.

(** Nothing is added to any queue. *)
Definition fewer h h' : Prop :=
  (∀ id q', peers h' !! id = Some q' → ∃ q, peers h !! id = Some q ∧ ttl q' = ttl q ∧ ∀ p, p ∈ mem q' → p ∈ mem q ∧ hdata (obj q' p) = hdata (obj q p)) ∧
  (∀ id, is_Some (peers h !! id) → is_Some (peers h' !! id)).
#[local] Instance fewer_preorder : PreOrder fewer.
Proof.
  split.
  - intros h. split; [|done]. intros id q Hq. exists q. by split_and!.
  - intros h1 h2 h3 [H1 H1'] [H2 H2']. split; [|by intros id ?%H1'%H2']. intros id q3 (q2 & Hq2 & Ht2 & Hm2)%H2. destruct (H1 id q2 Hq2) as (q1 & Hq1 & Ht1 & Hm1).
    exists q1. split_and!; [done|congruence|]. intros p [Hp E]%Hm2. destruct (Hm1 p Hp). split; [done|congruence].
Qed.
Lemma fewer_put id q q' h :
  peers h !! id = Some q → ttl q' = ttl q → (∀ p, p ∈ mem q' → p ∈ mem q) → (∀ p, hdata (obj q' p) = hdata (obj q p)) → fewer h (put_peer id q' h).
Proof.
  intros Hq Ht Hm Hd. split.
  - intros i qi. cbn. intros [[<- <-]|[Hne Hi]]%lookup_insert_Some; [exists q; split_and!; auto|exists qi; by split_and!].
  - intros i Hi. cbn. by apply lookup_insert_is_Some'; right.
Qed.
Lemma fewer_ripe now h h' : fewer h h' → ripe now h → ripe now h'.
Proof.
  intros [H _] Hr id q p (q0 & Hq0 & Ht & Hm)%H [Hp E]%Hm. destruct (Hr id q0 p Hq0 Hp) as [H1 H2]. rewrite Ht, (data_expired _ _ _ _ E).
  split; [|done]. pose proof (data_fields _ _ E). intuition lia.
Qed.
Lemma fewer_queued h h' id hi : fewer h h' → queued h' id hi → queued h id hi.
Proof. intros [H _] (q & p & (q0 & Hq0 & _ & Hm)%H & [Hp E]%Hm & <-). by exists q0, p. Qed.

(** A good send of an acceptable hint is acknowledged, and the peer has the version. *)
Lemma send_acked (ps : passage) id hi cl :
  good_passage ps → acceptable cl id (hdata hi) →
  ∃ m, cl !! id = Some m ∧ send_hint gunzip ps id hi cl = (<[id := put_nd (hint_handler gunzip hi (p_env ps) (data m)).1 m]> cl, Acked) ∧
    newer (data m) (hint_handler gunzip hi (p_env ps) (data m)).1 ∧
    ver hi ≤ Node.version_of (hint_handler gunzip hi (p_env ps) (data m)).1 (hkey hi).
Proof.
  intros [Hl Hf] (m & vb & k & v & Em & Hlww & Hd & Hv & Hdec). exists m. split; [done|]. destruct (hint_newer KC gunzip hi (p_env ps) (data m)) as [Hn Hack].
  assert (Node.OK (hint_handler gunzip hi (p_env ps) (data m)).2 = true) as Hok.
  { unfold hint_handler. change (isDel (hdata hi)) with (isDel hi) in Hd. rewrite Hd. unfold Node.rpcSet.
    change (Node.set_validate gunzip (data m) (Node.MkSet (hkey hi) (hval hi) (exp hi) (ver hi) (cp hi)) = inl (vb, k)) in Hv. rewrite Hv. destruct (_ && _); [done|]. by rewrite Hdec. }
  split; [|by auto]. unfold send_hint, on_node. rewrite Hl, Hf, Em. cbn [arrives answered]. destruct (hint_handler _ _ _ _) as [x resp]. cbn in Hok |- *. by rewrite Hok.
Qed.

(** What a pass over the peers [ids] does. *)
Record delivered_one (ids : list NodeID) (ps : NodeID → passage) h cl h' cl' (r : option (NodeID * hintItem)) : Prop := {
  de_fewer : fewer h h';
  de_inv : hinv h';
  de_result : match r with
    | None => cl' = cl ∧ (backlog h' ≤ backlog h)%nat ∧ (∀ id q, id ∈ ids → peers h !! id = Some q → mem q = []) ∧ ∀ id hi, queued h id hi → queued h' id hi ∨ id ∈ ids
    | Some (id, hi) => (backlog h' < backlog h)%nat ∧ queued h id (hdata hi) ∧
        (∃ m, cl !! id = Some m ∧ cl' = <[id := put_nd (hint_handler gunzip hi (p_env (ps id)) (data m)).1 m]> cl ∧
          newer (data m) (hint_handler gunzip hi (p_env (ps id)) (data m)).1 ∧ ver hi ≤ Node.version_of (hint_handler gunzip hi (p_env (ps id)) (data m)).1 (hkey hi)) ∧
        ∀ id' hi', queued h id' hi' → id' = id ∧ hi' = hdata hi ∨ queued h' id' hi'
    end }.

Lemma queued_put id q h id' hi : id' ≠ id → queued (put_peer id q h) id' hi ↔ queued h id' hi.
Proof. intros Hne. unfold queued. cbn. by setoid_rewrite lookup_insert_ne; [|done..]. Qed.
Lemma queued_none h id q hi : peers h !! id = Some q → mem q = [] → ¬ queued h id hi.
Proof. intros Hq Hm (q' & p & Hq' & Hp & _). assert (q' = q) as -> by congruence. rewrite Hm in Hp. by apply elem_of_nil in Hp. Qed.

Lemma pass_delivers (ps : NodeID → passage) now ids h cl :
  hinv h → NoDup ids → (∀ id, id ∈ ids → is_Some (peers h !! id)) → ripe now h →
  (∀ id hi, queued h id hi → good_passage (ps id) ∧ acceptable cl id hi) →
  let '(h', cl', r) := replay_pass gunzip ps now ids h cl in delivered_one ids ps h cl h' cl' r.
Proof.
  revert h. induction ids as [|id ids IH]; intros h Hh Hnd Hex Hr Hg; cbn [replay_pass].
  { split; [done|done|]. split_and!; [done|done|by intros ? ? ?%elem_of_nil|by left]. }
  apply NoDup_cons in Hnd as [Hid Hnd]. destruct (Hex id) as [q Hq]; [left|]. unfold queue. rewrite Hq. pose proof (Hh id q Hq) as Hqi.
  destruct (popReady now q) as [q1 r] eqn:Ep. destruct (pop_ripe now q q1 r (qi_rep _ Hqi) (λ p, Hr id q p Hq) Ep) as (Ht & Hm & Hd & Hres).
  pose proof (fewer_put id q q1 h Hq Ht Hm Hd) as Hf. pose proof (backlog_put id q q1 h Hq) as Hb. destruct r as [p|].
  - destruct Hres as (Hp & Hlen & Hkeep). assert (queued h id (hdata (obj q1 p))) as Hqd by (exists q, p; by rewrite Hd).
    destruct (Hg _ _ Hqd) as [Hgp Hacc]. destruct (send_acked (ps id) id (obj q1 p) cl Hgp Hacc) as (m & Em & -> & Hn & Hv). split; [done| |].
    + apply put_peer_inv; [done|]. assert (qinv (q1, [p])) as Hq1 by (apply (qstep_inv _ _ Hqi); by apply (q_pop now)). apply (qstep_inv (q1, [] ++ p :: []) _ Hq1). apply q_done.
    + split; [lia|]. split; [done|]. split; [by exists m|]. intros id' hi'. destruct (decide (id' = id)) as [->|Hne]; [|right; by apply queued_put].
      intros (q0 & p' & Hq0 & Hp' & <-). assert (q0 = q) as -> by congruence. destruct (Hkeep p' Hp') as [->|Hp'']; [left; by rewrite Hd|right].
      exists q1, p'. cbn. by rewrite lookup_insert_eq.
  - assert (mem q1 = []) as Hm1 by (destruct (mem q1) as [|p l] eqn:E1; [done|]; specialize (Hm p ltac:(left)); rewrite Hres in Hm; by apply elem_of_nil in Hm).
    assert (hinv (put_peer id q1 h)) as Hh1 by (apply put_peer_inv; [done|]; apply (qstep_inv _ _ Hqi); by apply (q_idle now)).
    specialize (IH (put_peer id q1 h) Hh1 Hnd). destruct (replay_pass gunzip ps now ids (put_peer id q1 h) cl) as [[h' cl'] r].
    destruct IH as [Hf' Hi' Hr'].
    + intros i Hi. apply Hf, Hex. by right.
    + by eapply fewer_ripe.
    + intros i hi Hi. apply Hg. by eapply fewer_queued.
    + split; [by etrans|done|]. assert (∀ id' hi', queued h id' hi' → queued (put_peer id q1 h) id' hi') as Hq'.
      { intros id' hi' H'. destruct (decide (id' = id)) as [->|Hne]; [by destruct (queued_none h id q hi' Hq Hres)|by apply queued_put]. }
      destruct r as [[id' hi']|].
      * destruct Hr' as (H1 & H2 & H3 & H4). split_and!; [cbn in *; rewrite Hm1, Hres in Hb; cbn in Hb; lia|by eapply fewer_queued|done|]. intros i hi Hi. by apply H4, Hq'.
      * destruct Hr' as (-> & H2 & H3 & H4). split_and!; [done|rewrite Hm1, Hres in Hb; cbn in Hb; lia| |].
        -- intros i qi [->|Hi]%elem_of_cons Hqi'; [congruence|]. apply (H3 i qi Hi). cbn. rewrite lookup_insert_ne; [done|]. by intros ->.
        -- intros i hi Hi. destruct (H4 i hi (Hq' _ _ Hi)) as [?|?]; [by left|right; by right].
Qed.

(** ** Rounds of replay *)
Definition grown (cl cl' : cluster) : Prop := ∀ id n, cl !! id = Some n → ∃ n', cl' !! id = Some n' ∧ newer (data n) (data n').
#[local] Existing Instance newer_preorder.
#[local] Instance grown_preorder : PreOrder grown.
Proof.
  split; [by intros cl id n ?; exists n|]. intros c1 c2 c3 H1 H2 id n (n2 & E2 & Hn2)%H1. destruct (H2 id n2 E2) as (n3 & E3 & Hn3). exists n3. split; [done|by etrans].
Qed.
Lemma grown_insert cl id m m' : cl !! id = Some m → newer (data m) (data m') → grown cl (<[id := m']> cl).
Proof.
  intros Em Hn i n Hi. destruct (decide (i = id)) as [->|Hne]; [|rewrite lookup_insert_ne by done; by exists n].
  rewrite lookup_insert_eq. exists m'. split; [done|]. by assert (n = m) as -> by congruence.
Qed.
Lemma grown_put_hh cl a (h : option handoff) : grown cl (alter (put_hh h) a cl).
Proof.
  intros i n Hi. destruct (decide (i = a)) as [->|Hne]; [rewrite lookup_alter_eq, Hi; by eexists|rewrite lookup_alter_ne by done; by exists n].
Qed.
Lemma grown_acceptable cl cl' id hi : grown cl cl' → acceptable cl id hi → acceptable cl' id hi.
Proof.
  intros Hg (m & vb & k & v & (m' & Em' & Ec & _)%Hg & Hl & Hd & Hv & Hdec). exists m', vb, k, v. rewrite Ec. split_and!; try done.
  rewrite <-Hv. unfold Node.set_validate. by rewrite Ec.
Qed.
(** The peer has seen the write of a hint or a newer one. *)
Definition up_to_date cl id hi : Prop := ∃ m, cl !! id = Some m ∧ ver hi ≤ Node.version_of (data m) (hkey hi).
Lemma grown_up_to_date cl cl' id hi : grown cl cl' → up_to_date cl id hi → up_to_date cl' id hi.
Proof. intros Hg (m & (m' & Em' & _ & Hv)%Hg & Hle). exists m'. split; [done|]. specialize (Hv (hkey hi)). lia. Qed.

Lemma backlog_zero h : (∀ id q, peers h !! id = Some q → mem q = []) → backlog h = O.
Proof.
  intros H. unfold backlog. assert (∀ l : list (NodeID * hintQueue), (∀ e, e ∈ l → mem e.2 = []) → sum_list ((length ∘ mem) <$> l.*2) = O) as Hl.
  { induction l as [|[i q] l IH]; intros He; [done|]. cbn. rewrite IH by (intros e Hin; apply He; by right). pose proof (He (i, q) ltac:(left)) as Ei. cbn in Ei. by rewrite Ei. }
  apply Hl. intros [i q] Hin%elem_of_map_to_list. by apply (H i).
Qed.
Lemma zero_backlog h id q : backlog h = O → peers h !! id = Some q → mem q = [].
Proof.
  unfold backlog. intros Hb Hq%elem_of_map_to_list. revert Hb Hq. generalize (map_to_list (peers h)) as l. induction l as [|[i qi] l IH]; [by intros _ ?%elem_of_nil|].
  cbn. intros Hb [[= <- <-]|Hin]%elem_of_cons; [|apply IH; [lia|done]]. destruct (mem q); [done|cbn in Hb; lia].
Qed.

Definition round := (rangeOrder * (NodeID → passage) * Z)%type.
Definition replay_round a cl (r : round) : cluster := let '(o, ps, now) := r in (clusterReplay gunzip a o ps now cl).1.
(** A round in which every message gets through and every hint of [h] may be sent. *)
Definition calm_round h (r : round) : Prop := let '(o, ps, now) := r in ripe now h ∧ ∀ id hi, queued h id hi → good_passage (ps id).

Lemma round_progress a cl n h (r : round) :
  cl !! a = Some n → hh n = Some h → hinv h → calm_round h r → (∀ id hi, queued h id hi → acceptable cl id hi) →
  ∃ n' h', replay_round a cl r !! a = Some n' ∧ hh n' = Some h' ∧ hinv h' ∧ fewer h h' ∧ grown cl (replay_round a cl r) ∧
    (backlog h' < backlog h ∨ backlog h' = 0)%nat ∧ ∀ id hi, queued h id hi → queued h' id hi ∨ up_to_date (replay_round a cl r) id hi.
Proof.
  destruct r as [[o ps] now]. intros Ea Eh Hh [Hr Hg] Hacc. unfold replay_round, clusterReplay. rewrite Ea. cbn [mbind option_bind]. rewrite Eh. unfold replay_from.
  pose proof (range_perm o (map_to_list (peers h)).*1) as Hp. destruct (range o _) as [|i0 l0] eqn:El.
  { cbn [fst]. exists (put_hh (Some h) n), h. rewrite lookup_alter_eq, Ea. split_and!; try done; [apply grown_put_hh| |by left]. right. apply backlog_zero. intros id q Hq%elem_of_map_to_list.
    assert (id ∈ ([] : list NodeID)) as ?%elem_of_nil; [|done]. rewrite Hp. by apply (list_elem_of_fmap_2 fst) in Hq. }
  rewrite <-El in *. clear El i0 l0. set (ids := rotate_from _ _). set (h0 := MkHandoff _ _ _ _ _ _ _).
  assert (∀ id, id ∈ ids ↔ is_Some (peers h !! id)) as Hids.
  { intros id. unfold ids. rewrite rotate_perm, Hp, list_elem_of_fmap. split; [intros ([i q] & -> & Hin%elem_of_map_to_list); by exists q|].
    intros [q Hq%elem_of_map_to_list]. by exists (id, q). }
  pose proof (pass_delivers ps now ids h0 cl) as Hd. destruct (replay_pass gunzip ps now ids h0 cl) as [[h' cl'] r].
  destruct Hd as [Hf Hi Hres]; [done|unfold ids; rewrite rotate_perm, Hp; apply NoDup_fst_map_to_list|intros id; apply Hids|done|intros id hi Hq; split; [by eapply Hg|by apply Hacc]|].
  cbn [fst]. assert (grown cl cl') as Hgr.
  { destruct r as [[id hi]|]; [|by destruct Hres as [-> _]]. destruct Hres as (_ & _ & (m & Em & -> & Hn & _) & _). by eapply grown_insert. }
  destruct (Hgr a n Ea) as (n1 & En1 & _). exists (put_hh (Some h') n1), h'. rewrite lookup_alter_eq, En1. split_and!; try done; [etrans; [exact Hgr|apply grown_put_hh]| |].
  - destruct r as [[id hi]|]; [left; by destruct Hres as [? _]|right]. destruct Hres as (_ & Hle & Hempty & _). enough (backlog h = O) by (change (backlog h0) with (backlog h) in Hle; lia).
    apply backlog_zero. intros id q Hq. apply (Hempty id q); [|done]. apply Hids. by exists q.
  - intros id hi Hq. destruct r as [[id0 hi0]|].
    + destruct Hres as (_ & _ & (m & Em & -> & Hn & Hv) & Hkeep). destruct (Hkeep id hi Hq) as [[-> ->]|?]; [right|by left].
      eapply grown_up_to_date; [apply grown_put_hh|]. eexists. rewrite lookup_insert_eq. split; [done|exact Hv].
    + destruct Hres as (_ & _ & Hempty & Hkeep). destruct (Hkeep id hi Hq) as [?|Hin]; [by left|]. apply Hids in Hin as [q Eq]. by destruct (queued_none h id q hi Eq (Hempty id q (proj2 (Hids id) (ex_intro _ q Eq)) Eq)).
Qed.

Lemma fewer_calm h h' (r : round) : fewer h h' → calm_round h r → calm_round h' r.
Proof.
  destruct r as [[o ps] now]. intros Hf [H1 H2]. split; [by eapply fewer_ripe|]. intros id hi Hq. eapply H2. by eapply fewer_queued.
Qed.
Lemma rounds_run a cl n h (rs : list round) :
  cl !! a = Some n → hh n = Some h → hinv h → (∀ r, r ∈ rs → calm_round h r) → (∀ id hi, queued h id hi → acceptable cl id hi) →
  let cl' := foldl (replay_round a) cl rs in
  ∃ n' h', cl' !! a = Some n' ∧ hh n' = Some h' ∧ hinv h' ∧ grown cl cl' ∧ (backlog h' + length rs ≤ backlog h ∨ backlog h' = 0)%nat ∧
    ∀ id hi, queued h id hi → queued h' id hi ∨ up_to_date cl' id hi.
Proof.
  revert cl n h. induction rs as [|r rs IH]; intros cl n h Ea Eh Hh Hc Hacc; cbn [foldl].
  { exists n, h. split_and!; try done; [left; cbn; lia|by left]. }
  destruct (round_progress a cl n h r Ea Eh Hh (Hc r ltac:(left)) Hacc) as (n1 & h1 & Ea1 & Eh1 & Hh1 & Hf & Hg & Hb & Hk).
  destruct (IH (replay_round a cl r) n1 h1 Ea1 Eh1 Hh1) as (n' & h' & E1 & E2 & Hi & Hg' & Hb' & Hup).
  { intros r' Hr'. eapply fewer_calm; [exact Hf|]. apply Hc. by right. }
  { intros id hi Hq. eapply grown_acceptable; [exact Hg|]. apply Hacc. by eapply fewer_queued. }
  exists n', h'. split_and!; try done; [by etrans|cbn; lia|]. intros id hi Hq. destruct (Hk id hi Hq) as [Hq1|Hu]; [by apply Hup|right; by eapply grown_up_to_date].
Qed.

End Drain.

(** ** Instances: the cluster of [Cluster], key [[5]] owned by [[99]] and [[97]] *)
#[local] Existing Instance NodeTheorems.demo_keys.
#[local] Existing Instance plain_codec.
Abbreviation demo_value := ([7] : bytes).
Abbreviation demo_key := ([5] : bytes).

Lemma demo_replicas (id : NodeID) (m : node (C := InMemoryCache bytes bytes)) : demo_cluster !! id = Some m → replica id m.
Proof.
  intros E. pose proof (demo_in_agreement 0 ltac:(lia)) as A. destruct (ag_member _ _ _ _ _ _ _ _ _ A id m E) as [H1 [H2 _ H3 _ H4 _ _] _]. by split.
Qed.
Lemma demo_owner_list : Rendezvous.ownersFromKeyHash (Node.nring (nd (dplane (demo_member [99])))) (Hash64 demo_key) = Some (owners NodeTheorems.demo_keys Rendezvous.demo_ring demo_key).
Proof. by vm_compute. Qed.
Lemma demo_owners_nodup : NoDup (Rendezvous.ID <$> owners NodeTheorems.demo_keys Rendezvous.demo_ring demo_key).
Proof. change (NoDup [[99]; [97]]). apply NoDup_cons. split; [set_solver|apply NoDup_singleton]. Qed.
Lemma demo_key_bytes : is_bytes [5].
Proof. repeat constructor; lia. Qed.


(** The message to the other owner is lost and the caller gives up. *)
Definition lost_net (t : Z) : list netEvent :=
  [Send [97] (NodeTheorems.at_time (t + 1)) Lost; Caller Replication.Receive; Caller Replication.TimerFires].
Definition lost_write := clusterSet (λ b, b) Some [99] (demo_surr 10) (lost_net 10) demo_key demo_value 0 demo_cluster.


(** The hint of the lost write, and a round of replay in which it gets through. *)
Definition demo_handoff_after : Replay.handoff :=
  Replay.enqueueSet [97] [5] [7] 0 655459 false 10 10 (default (Replay.newHandoff (Replay.FillDefaults (Replay.MkHandoffConfig None false 0 0 0 0 0 0 Handoff.DropOldest 0 0))) (hh (demo_member [99]))).
Definition demo_round : round := (inOrder, λ _, MkPassage true (NodeTheorems.at_time 20) Delivered false 0 0, 20).
Definition demo_queue : Handoff.hintQueue := default (Handoff.newHintQueue 0 0 0 Handoff.DropOldest) (Replay.peers demo_handoff_after !! [97]).
Lemma demo_waiting id q : Replay.peers demo_handoff_after !! id = Some q → id = [97] ∧ q = demo_queue ∧ HandoffInv.mem q = [0%nat].
Proof.
  assert (Replay.peers demo_handoff_after = {[ [97] := demo_queue ]}) as -> by by vm_compute. intros [<- <-]%lookup_singleton_Some. split_and!; [done|done|by vm_compute].
Qed.
Lemma demo_handoff_inv : Replay.hinv demo_handoff_after.
Proof. eapply Replay.hstep_inv; [|apply Replay.h_set]. intros id q. assert (hh (demo_member [99]) = Some (Replay.newHandoff (Replay.cfg demo_handoff_after))) as -> by by vm_compute. done. Qed.

End Recovery.
