(* ===== verification/Env.v ===== *)
(** * Configuration from the environment

    How the programs under [src/_benchmarks/cluster] and [src/_examples/clustered_api] build the
    configuration of their nodes from environment variables: [getenv], [splitCSV],
    [parseTargets], [applyNodeEnv] and the assignments of the three [main] functions.  Whatever
    the variables hold, the node comes up and serves; only a period of more than 2^63
    nanoseconds makes a ticker panic. *)
From Stdlib Require Import ZArith Lia String.
From stdpp Require Import base numbers list gmap.
From S2P Require Import Prelude Hash PatternIndex Http KeyCodec Admission Shard Eviction Cache CacheIface Handoff Replay Node NodeTheorems Lease Gossip Load Transport Weights Serve ServeTheorems Dispatch Config Peers Lifecycle.
Local Open Scope Z_scope.

Module Env.
Import PatternIndex Http Config.

(** [os.Getenv]: an unset variable reads as the empty string. *)
Definition environ : Type := bytes → bytes.
Definition getenv (env : environ) (k : string) (d : bytes) : bytes :=
  let v := env (str k) in if bool_decide (v ≠ []) then v else d.

(** [splitCSV], and [parseTargets] of the runner. *)
Definition splitCSV (s : bytes) : list bytes := filter (λ p, p ≠ []) (trimSpace <$> split 44 s).

(** The number [strconv.Atoi] returns when its error is ignored: 0 for a syntax error, the nearest
    representable number when it is out of range. *)
Definition atoi (s : bytes) : Z :=
  let '(sign, ds) := match s with 45 :: ds => (-1, ds) | 43 :: ds => (1, ds) | _ => (1, s) end in
  if bool_decide (ds = []) || negb (forallb isDigit ds) then 0
  else Z.max (- 2 ^ 63) (Z.min (2 ^ 63 - 1) (sign * digits ds)).
Lemma atoi_Atoi s n : Atoi s = Some n → atoi s = n.
Proof.
  unfold Atoi, atoi. generalize (match s with 45 :: ds => (-1, ds) | 43 :: ds => (1, ds) | _ => (1, s) end). intros [sign ds].
  case_decide; [done|]. rewrite bool_decide_eq_false_2 by done. cbn [orb]. destruct (negb _); [done|]. set (z := sign * digits ds).
  destruct ((_ <=? z) && (z <? _)) eqn:E; [|done]. intros [= <-]. apply andb_true_iff in E as [?%Z.leb_le ?%Z.ltb_lt]. lia.
Qed.
Lemma atoi_range s : is_i64 (atoi s).
Proof. unfold atoi, is_i64. destruct (match s with 45 :: ds => _ | 43 :: ds => _ | _ => _ end) as [sign ds]. destruct (_ || _); lia. Qed.

(** A positive integer variable. *)
Definition envInt (env : environ) (k : string) : option Z :=
  let v := getenv env k [] in
  if bool_decide (v = []) then None
  else match Atoi v with Some n => if 0 <? n then Some n else None | None => None end.
(** [time.Duration(n) * time.Millisecond]. *)
Definition milliseconds (n : Z) : Z := i64 (n * Millisecond).
Definition envMs (env : environ) (k : string) : option Z := milliseconds <$> envInt env k.

Definition put_timeouts (rd wr : Z) (s : Security) : Security :=
  MkSec (AuthToken s) (TLS s) (MaxFrameSize s) (MaxKeySize s) (MaxValueSize s) rd wr (IdleTimeout s) (MaxInflightPerPeer s) (CompressionThreshold s)
    (LeaseLoadQPS s) (ReadBufSize s) (WriteBufSize s) (AllowUnauthenticatedClients s) (MaxConcurrentHandshakes s).
Definition put_access (token : bytes) (inflight qps : Z) (s : Security) : Security :=
  MkSec token (TLS s) (MaxFrameSize s) (MaxKeySize s) (MaxValueSize s) (ReadTimeout s) (WriteTimeout s) (IdleTimeout s) inflight (CompressionThreshold s)
    qps (ReadBufSize s) (WriteBufSize s) (AllowUnauthenticatedClients s) (MaxConcurrentHandshakes s).

(** [applyNodeEnv] of the direct benchmark: each variable that holds a positive integer replaces
    its field. *)
Definition applyNodeEnv (env : environ) (c : Config) : Config :=
  MkConfig (ID c) (BindAddr c) (PublicURL c) (Seeds c)
    (default (ReplicationFactor c) (envInt env "REPLICATION_FACTOR"))
    (default (WriteConcern c) (envInt env "WRITE_CONCERN"))
    (default (ReadMaxFanout c) (envInt env "READ_MAX_FANOUT"))
    (default (ReadHedgeDelay c) (envMs env "READ_HEDGE_DELAY_MS"))
    (default (ReadHedgeInterval c) (envMs env "READ_HEDGE_INTERVAL_MS"))
    (default (ReadPerTryTimeout c) (envMs env "READ_PER_TRY_MS"))
    (default (GossipInterval c) (envMs env "GOSSIP_INTERVAL_MS"))
    (default (SuspicionAfter c) (envMs env "SUSPICION_AFTER_MS"))
    (TombstoneAfter c)
    (default (WeightUpdate c) (envMs env "WEIGHT_UPDATE_MS"))
    (HotsetPeriod c) (HotsetSize c) (MirrorTTL c) (LeaseTTL c) (RebalanceInterval c) (BackfillInterval c) (RebalanceLimit c)
    (put_timeouts (default (ReadTimeout (Sec c)) (envMs env "READ_TIMEOUT_MS")) (default (WriteTimeout (Sec c)) (envMs env "WRITE_TIMEOUT_MS")) (Sec c))
    (LWWEnabled c) (PerConnWorkers c) (PerConnQueue c) (Handoff_ c).

(** The assignments the three programs share; [rf] and [wc] as each of them sets them. *)
Definition nodeConfig (bind pub : bytes) (seeds : list bytes) (rf wc : Z) (sec : Security) : Config :=
  let c := Default in
  MkConfig pub bind pub seeds rf wc (ReadMaxFanout c) (ReadHedgeDelay c) (ReadHedgeInterval c) (ReadPerTryTimeout c) (GossipInterval c)
    (SuspicionAfter c) (TombstoneAfter c) (WeightUpdate c) (HotsetPeriod c) (HotsetSize c) (MirrorTTL c) (LeaseTTL c) (RebalanceInterval c)
    (BackfillInterval c) (RebalanceLimit c) sec (LWWEnabled c) 128 256 (Handoff_ c).

(** The benchmark node: an unset factor or concern is 3 or 2, one that does not parse leaves the
    default of the library. *)
Definition unless_unset (env : environ) (k : string) (unset dflt : Z) : Z :=
  if bool_decide (getenv env k [] = []) then unset else default dflt (envInt env k).
Definition benchNode (env : environ) : Config :=
  let pub := getenv env "CACHE_PUBLIC" (str "node1:5011") in
  let c := nodeConfig (getenv env "CACHE_BIND" (str ":5011")) pub (splitCSV (getenv env "CACHE_SEEDS" pub))
    (ReplicationFactor Default) (WriteConcern Default) (put_access (getenv env "CACHE_AUTH" []) 512 (LeaseLoadQPS (Sec Default)) (Sec Default)) in
  let e := applyNodeEnv env c in
  MkConfig (ID e) (BindAddr e) (PublicURL e) (Seeds e)
    (unless_unset env "REPLICATION_FACTOR" 3 (ReplicationFactor Default)) (unless_unset env "WRITE_CONCERN" 2 (WriteConcern Default))
    (ReadMaxFanout e) (ReadHedgeDelay e) (ReadHedgeInterval e) (ReadPerTryTimeout e) (GossipInterval e) (SuspicionAfter e) (TombstoneAfter e)
    (WeightUpdate e) (HotsetPeriod e) (HotsetSize e) (MirrorTTL e) (LeaseTTL e) (RebalanceInterval e) (BackfillInterval e) (RebalanceLimit e)
    (Sec e) (LWWEnabled e) (PerConnWorkers e) (PerConnQueue e) (Handoff_ e).

(** [mk] of the direct benchmark; [i] is 1, 2 or 3. *)
Definition directPub (env : environ) (i : nat) : bytes :=
  match i with
  | 1%nat => getenv env "PUB1" (str "127.0.0.1:7011")
  | 2%nat => getenv env "PUB2" (str "127.0.0.1:7012")
  | _ => getenv env "PUB3" (str "127.0.0.1:7013")
  end.
Definition directBind (env : environ) (i : nat) : bytes :=
  match i with
  | 1%nat => getenv env "BIND1" (str ":7011")
  | 2%nat => getenv env "BIND2" (str ":7012")
  | _ => getenv env "BIND3" (str ":7013")
  end.
Definition directNode (env : environ) (i : nat) : Config :=
  applyNodeEnv env (nodeConfig (directBind env i) (directPub env i) (directPub env <$> [1; 2; 3]%nat) 3 2
    (put_access (getenv env "CACHE_AUTH" []) 512 (LeaseLoadQPS (Sec Default)) (Sec Default))).

(** The node of the user API. *)
Definition userApiNode (env : environ) : Config :=
  let pub := getenv env "CACHE_PUBLIC" (str "localhost:5011") in
  let sec := put_timeouts (12 * Second) (6 * Second) (put_access (getenv env "CACHE_AUTH" []) 512 100 (Sec Default)) in
  let c := nodeConfig (getenv env "CACHE_BIND" (str ":5011")) pub (splitCSV (getenv env "CACHE_SEEDS" pub)) 3 2 sec in
  MkConfig (ID c) (BindAddr c) (PublicURL c) (Seeds c) (ReplicationFactor c) (WriteConcern c) 3 (ReadHedgeDelay c) (ReadHedgeInterval c) (6 * Second)
    (GossipInterval c) (SuspicionAfter c) (TombstoneAfter c) (WeightUpdate c) (HotsetPeriod c) (HotsetSize c) (MirrorTTL c) (8 * Second)
    (RebalanceInterval c) (BackfillInterval c) (RebalanceLimit c) (Sec c) (LWWEnabled c) (PerConnWorkers c) (PerConnQueue c) (Handoff_ c).

(** ** Lists in variables *)
Lemma dropSpace_idem s : dropSpace (dropSpace s) = dropSpace s.
Proof. induction s as [|c s IH]; cbn; [done|]. destruct (isSpace c) eqn:E; [done|]. cbn. by rewrite E. Qed.
Lemma dropSpace_suffix s : dropSpace s `suffix_of` s.
Proof. induction s as [|c s IH]; cbn; [done|]. destruct (isSpace c); [by apply suffix_cons_r|done]. Qed.
(** A string that starts with no white space keeps its end when its tail is cut. *)
Lemma dropSpace_prefix s t : dropSpace s = s → t `prefix_of` s → dropSpace t = t.
Proof.
  intros Hs [u ->]. destruct t as [|c t]; [done|]. cbn in *. destruct (isSpace c); [|done].
  exfalso. pose proof (suffix_length _ _ (dropSpace_suffix (t ++ u))) as Hl. rewrite Hs in Hl. cbn in Hl. lia.
Qed.
Lemma trimSpace_idem s : trimSpace (trimSpace s) = trimSpace s.
Proof.
  unfold trimSpace. set (u := dropSpace s). set (v := dropSpace (reverse u)).
  assert (dropSpace (reverse v) = reverse v) as ->.
  { apply (dropSpace_prefix u); [apply dropSpace_idem|]. destruct (dropSpace_suffix (reverse u)) as [t E]. fold v in E. exists (reverse t). rewrite <-reverse_app, <-E. by rewrite reverse_involutive. }
  rewrite reverse_involutive. unfold v. by rewrite dropSpace_idem.
Qed.
Lemma dropSpace_sub s c : c ∈ dropSpace s → c ∈ s.
Proof. destruct (dropSpace_suffix s) as [t E]. intros H. rewrite E. set_solver. Qed.
Lemma trimSpace_sub s c : c ∈ trimSpace s → c ∈ s.
Proof. unfold trimSpace. rewrite elem_of_reverse. intros H%dropSpace_sub. rewrite elem_of_reverse in H. by apply dropSpace_sub. Qed.

Lemma split_no_sep sep s w : w ∈ split sep s → sep ∉ w.
Proof.
  revert w. induction s as [|c s IH]; intros w; cbn [split].
  - intros ->%list_elem_of_singleton. set_solver.
  - destruct (Z.eqb_spec c sep) as [->|Hne].
    + intros [->|Hin]%elem_of_cons; [set_solver|by apply IH].
    + destruct (split sep s) as [|v0 ws] eqn:E; [by apply split_nonnil in E|]. intros [->|Hin]%elem_of_cons; [|by apply IH; right].
      intros [->|Hin]%elem_of_cons; [done|]. by apply (IH v0 ltac:(left)).
Qed.
Lemma split_whole sep s : sep ∉ s → split sep s = [s].
Proof.
  induction s as [|c s IH]; intros Hn; cbn [split]; [done|]. destruct (Z.eqb_spec c sep) as [->|]; [set_solver|]. rewrite IH by set_solver. done.
Qed.

(** An item as [splitCSV] returns it. *)
Definition item (p : bytes) : Prop := p ≠ [] ∧ trimSpace p = p ∧ 44 ∉ p.
Fixpoint joinCSV (ps : list bytes) : bytes :=
  match ps with [] => [] | [p] => p | p :: ps => p ++ 44 :: joinCSV ps end.

Lemma splitCSV_items s p : p ∈ splitCSV s → item p.
Proof.
  intros [Hne Hin]%list_elem_of_filter. apply list_elem_of_fmap in Hin as (w & -> & Hw). split; [done|]. split; [apply trimSpace_idem|].
  intros H%trimSpace_sub. by eapply split_no_sep.
Qed.
(** A list of clean items written with commas is read back. *)
Lemma splitCSV_join ps : Forall item ps → splitCSV (joinCSV ps) = ps.
Proof.
  assert (∀ p ps, item p → filter (λ p : bytes, p ≠ []) (trimSpace <$> p :: ps) = p :: filter (λ p : bytes, p ≠ []) (trimSpace <$> ps)) as Hc.
  { intros p ps' (Hp & Ht & _). rewrite fmap_cons, Ht. by rewrite filter_cons_True. }
  induction ps as [|p ps IH]; intros Hi; [done|]. apply Forall_cons in Hi as [Hp Hi]. destruct ps as [|p' ps].
  - cbn [joinCSV]. unfold splitCSV. rewrite split_whole by apply Hp. by rewrite Hc.
  - change (joinCSV (p :: p' :: ps)) with (p ++ 44 :: joinCSV (p' :: ps)). unfold splitCSV. rewrite split_app, (split_whole 44 p) by apply Hp.
    rewrite fmap_app. cbn [fmap list_fmap app]. destruct Hp as (Hp & Ht & _). rewrite Ht, filter_cons_True by done. f_equal. by apply IH.
Qed.
Example splitCSV_spaces : splitCSV (str " a:1, b:2,, ,c:3 ") = [str "a:1"; str "b:2"; str "c:3"].
Proof. by vm_compute. Qed.

(** ** Configurations *)
Lemma envInt_pos env k n : envInt env k = Some n → 0 < n < 2 ^ 63.
Proof.
  unfold envInt. case_bool_decide; [done|]. destruct (Atoi _) as [m|] eqn:E; [|done]. destruct (Z.ltb_spec 0 m); [|done]. intros [= <-]. split; [done|].
  revert E. unfold Atoi. generalize (match getenv env k [] with 45 :: ds => (-1, ds) | 43 :: ds => (1, ds) | _ => (1, getenv env k []) end). intros [sign ds].
  case_decide; [done|]. destruct (negb _); [done|]. set (z := sign * digits ds). destruct ((_ <=? z) && (z <? _)) eqn:Eb; [|done].
  intros [= <-]. apply andb_true_iff in Eb as [_ ?%Z.ltb_lt]. done.
Qed.
Lemma default_pos env k d : 0 < d → 0 < default d (envInt env k).
Proof. intros Hd. destruct (envInt env k) as [n|] eqn:E; [|done]. apply envInt_pos in E. cbn. lia. Qed.

(** The configurations of the three programs. *)
Inductive program (env : environ) : Config → Prop :=
  | P_bench : program env (benchNode env)
  | P_direct i : program env (directNode env i)
  | P_users : program env (userApiNode env).
Lemma program_counts env c : program env c → 0 < ReplicationFactor c ∧ 0 < WriteConcern c ∧ 0 < ReadMaxFanout c ∧ ID c = PublicURL c.
Proof.
  assert (∀ k u d, 0 < u → 0 < d → 0 < unless_unset env k u d) as Hu.
  { intros k u d ? ?. unfold unless_unset. case_bool_decide; [done|by apply default_pos]. }
  destruct 1; split_and!; try reflexivity; try (by apply Hu); try (by apply default_pos); done.
Qed.

Section Serves.
Context {C K V : Type} `{Ops : CacheOps C K V, St : CacheStats C, KC : KeyCodec.KeyCodec K, VC : Node.Codec V, W : Serve.Wire}.
Context (gzip : bytes → bytes) (gunzip : bytes → option bytes) (sum64 : bytes → Z) (oob : Weights.float64 → Z) (makeSeed : nat → Z) {Cert Pool : Type}.
Context (loadKeyPair : bytes → bytes → option Cert) (readPool : bytes → option Pool).

(** Whatever the environment holds, the nodes of the benchmarks and of the user API come up and
    serve any traffic without a panic, with a positive replication factor, write concern and
    fan-out. *)
Theorem programs_serve env c local loader now times dials maxprocs es :
  program env c → Forall (λ e, match e with Serve.Accept s => KeyCodec.is_bytes s | Serve.On _ _ => True end) es →
  0 < ReplicationFactor c ∧ 0 < WriteConcern c ∧ 0 < ReadMaxFanout c ∧
  ∃ n sv, Lifecycle.Start sum64 true now times dials (Lifecycle.NewNode sum64 makeSeed c local loader) = Some (n, true) ∧
    Serve.run (NO := Dispatch.node_ops gzip gunzip sum64 oob) (serveConfig loadKeyPair readPool maxprocs (Lifecycle.cfg n)) (Serve.started (Lifecycle.dplane n)) es = inl sv.
Proof.
  intros (H1 & H2 & H3 & _)%program_counts Hes. split_and!; [done..|]. apply Lifecycle.started_serves; [lia|done].
Qed.
End Serves.

(** ** Periods *)
Lemma milliseconds_pos n : 0 < n ≤ 9223372036854 → 0 < milliseconds n.
Proof. intros H. unfold milliseconds, Millisecond. rewrite i64_id; [lia|unfold is_i64; lia]. Qed.
Lemma envMs_pos env k d : (∀ n, envInt env k = Some n → n ≤ 9223372036854) → 0 < d → 0 < default d (envMs env k).
Proof.
  intros Hk Hd. unfold envMs. destruct (envInt env k) as [n|] eqn:E; [|done]. cbn. apply milliseconds_pos. split; [by destruct (envInt_pos _ _ _ E)|by apply Hk].
Qed.
(** The tickers of the gossip and weight loops start unless a period exceeds 2^63 nanoseconds. *)
Theorem program_tickers env c :
  program env c → (∀ k n, k = "GOSSIP_INTERVAL_MS"%string ∨ k = "WEIGHT_UPDATE_MS"%string → envInt env k = Some n → n ≤ 9223372036854) →
  is_Some (gossipTicker c) ∧ is_Some (weightTicker c).
Proof.
  intros Hp Hk. assert (∀ d, 0 < d → is_Some (NewTicker d)) as Ht by (intros d Hd; unfold NewTicker; destruct (Z.ltb_spec 0 d); [by eexists|lia]).
  destruct Hp as [|i|]; [..|split; [apply (Ht (GossipInterval Default))|apply (Ht (WeightUpdate Default))]; done].
  all: split; apply Ht; (apply envMs_pos; [|done]); intros n; apply Hk; auto.
Qed.
(** Such a period wraps around to a negative one, and the gossip loop panics. *)
Theorem huge_interval_panics :
  let env : environ := λ k, if decide (k = str "GOSSIP_INTERVAL_MS") then str "9223372036855" else [] in
  envInt env "GOSSIP_INTERVAL_MS" = Some 9223372036855 ∧ gossipTicker (benchNode env) = None.
Proof. by vm_compute. Qed.

(** ** Instances: every variable set to "7" *)
#[local] Existing Instance NodeTheorems.demo_keys.
#[local] Existing Instance NodeTheorems.bytes_codec.
#[local] Existing Instance NodeTheorems.bytes_inhabited.
Definition sevens : environ := λ _, str "7".
Lemma programs_serve_witness :
  ∃ n sv, Lifecycle.Start (hd 0) true 1 (λ _, 2) Lifecycle.demo_dials (Lifecycle.NewNode (hd 0) (λ _, 0) (benchNode sevens) Lifecycle.demo_local false) = Some (n, true) ∧
    Serve.run (W := ServeTheorems.demo_wire) (NO := Dispatch.demo_ops) (serveConfig (λ _ _, @None unit) (λ _, @None unit) 4 (Lifecycle.cfg n)) (Serve.started (Lifecycle.dplane n)) Dispatch.demo_events = inl sv ∧
    ReplicationFactor (benchNode sevens) = 7.
Proof.
  destruct (programs_serve (W := ServeTheorems.demo_wire) (λ b, b) NodeTheorems.no_gzip (hd 0) (λ _, 0) (λ _, 0) (λ _ _, @None unit) (λ _, @None unit) sevens (benchNode sevens)
    Lifecycle.demo_local false 1 (λ _, 2) Lifecycle.demo_dials 4 Dispatch.demo_events (P_bench sevens) (ServeTheorems.byte_events Dispatch.demo_events eq_refl)) as (_ & _ & _ & n & sv & H1 & H2).
  exists n, sv. split; [exact H1|]. split; [exact H2|]. by vm_compute.
Defined.
Lemma program_tickers_witness : is_Some (gossipTicker (directNode sevens 1)) ∧ is_Some (weightTicker (directNode sevens 1)).
Proof.
  apply (program_tickers sevens (directNode sevens 1) (P_direct sevens 1)). intros k n [->| ->] E; vm_compute in E; injection E as <-; lia.
Defined.
End Env.
