(* ===== verification/BenchNode.v ===== *)
(** * The HTTP front of a benchmark node ([src/_benchmarks/cluster/node/main.go])

    The handlers [/get], [/set], [/stats], [/ready] and [/kill] over a node of a [Cluster], with
    what they use of [net/http] and [net/url].  A handler yields the calls it makes on its
    response writer.  The JSON codec and the texts of the library's errors are parameters. *)
From Stdlib Require Import ZArith Lia String.
From stdpp Require Import base numbers list gmap sets.
From S2P Require Import Prelude PatternIndex Http Admission Shard Eviction Cache CacheInv CacheSpec CacheTheorems CacheIface Hlc KeyCodec Rendezvous Lease Membership Heat Handoff Replay Replication Node NodeTheorems Client Repair Load Gossip Transport Weights Serve Dispatch Config Peers Lifecycle Adapter Cluster Env.
Local Open Scope Z_scope.

Module BenchNode.
Import KeyCodec Http Lifecycle Dispatch Adapter Cluster.

(** ** [net/url] *)
Definition ishex (c : Z) : bool := isDigit c || ((97 <=? c) && (c <=? 102)) || ((65 <=? c) && (c <=? 70)).
Definition unhex (c : Z) : Z := if isDigit c then c - 48 else if 97 <=? c then c - 97 + 10 else c - 65 + 10.
Fixpoint QueryUnescape (s : bytes) : option bytes :=
  match s with
  | [] => Some []
  | 37 :: a :: b :: s => if ishex a && ishex b then cons (unhex a * 16 + unhex b) <$> QueryUnescape s else None
  | 37 :: _ => None
  | 43 :: s => cons 32 <$> QueryUnescape s
  | c :: s => cons c <$> QueryUnescape s
  end.
(** [strings.Cut] at a byte. *)
Fixpoint cut (sep : Z) (s : bytes) : bytes * bytes :=
  match s with
  | [] => ([], [])
  | c :: s => if c =? sep then ([], s) else let '(a, b) := cut sep s in (c :: a, b)
  end.
(** One setting of a query; one with a semicolon or a bad escape is dropped. *)
Definition setting (p : bytes) : option (bytes * bytes) :=
  if bool_decide (59 ∈ p) || bool_decide (p = []) then None
  else let '(k, v) := cut 61 p in k ← QueryUnescape k; v ← QueryUnescape v; Some (k, v).
(** [URL.Query().Get]. *)
Definition queryGet (k raw : bytes) : bytes :=
  match filter (λ p, p.1 = k) (omap setting (PatternIndex.split 38 raw)) with (_, v) :: _ => v | [] => [] end.

(** ** [net/http] *)
Definition Error (msg : bytes) (code : Z) : list action :=
  [HeaderDel (str "Content-Length"); HeaderSet (str "Content-Type") (str "text/plain; charset=utf-8");
   HeaderSet (str "X-Content-Type-Options") (str "nosniff"); WriteHeader code; Write (msg ++ [10])].
Definition NotFound : list action := Error (str "404 page not found") 404.
Definition htmlEscape (s : bytes) : bytes :=
  concat ((λ c, if c =? 38 then str "&amp;" else if c =? 60 then str "&lt;" else if c =? 62 then str "&gt;"
                else if c =? 34 then str "&#34;" else if c =? 39 then str "&#39;" else [c]) <$> s).
(** The redirect of the [ServeMux] to a registered subtree, for a URL in ASCII. *)
Definition redirect (method url query : bytes) : list action :=
  let url := if bool_decide (query = []) then url else url ++ [63] ++ query in
  [HeaderSet (str "Location") url] ++
  (if bool_decide (method = str "GET") || bool_decide (method = str "HEAD") then [HeaderSet (str "Content-Type") (str "text/html; charset=utf-8")] else []) ++
  [WriteHeader 301] ++
  (if bool_decide (method = str "GET") then [Write (str "<a href=" ++ [34] ++ htmlEscape url ++ [34] ++ str ">Moved Permanently</a>." ++ [10; 10])] else []).
(** What the client receives. *)
Definition respond (acts : list action) : Response := finish (foldl act new_writer acts).

Record httpReq := MkReq { rMethod : bytes; rQuery : bytes; rBody : bytes }.
Record setReq := MkSetReq { rK : bytes; rV : bytes; rTTLms : Z }.

Section Handlers.
Context {C : Type} `{Ops : CacheOps C bytes bytes, Ex : CacheExists C bytes bytes, St : CacheStats C, KC : KeyCodec bytes, VC : Node.Codec bytes}.
Context (gzip : bytes → bytes) (gunzip : bytes → option bytes) (maphash : Z → bytes → Z).
Context (decodeSet : bytes → setReq + bytes) (getErr : Client.cliErr → bytes) (setErr : callErr → bytes) (statsJSON : Stats → bytes).
Abbreviation node := (node (C := C)).
Abbreviation cluster := (gmap NodeID node).
Abbreviation data n := (nd (dplane n)).

(** [local.Exists] on node [a]. *)
Definition localExists (a : NodeID) (k : bytes) (now : Z) (cl : cluster) : cluster * bool :=
  match cl !! a with
  | None => (cl, false)
  | Some n => let '(c, b) := cexists (Node.local (data n)) k now in (<[a := put_nd (Node.put_local c (data n)) n]> cl, b)
  end.

(** GET /get?k=...; no answer while the read is waiting. *)
Definition handleGet (a : NodeID) (w : surroundings) (at_ : NodeID → Node.env) (f : NodeID → fate) (now : Z) (r : httpReq) (cl : cluster)
    : option (cluster * option (list action)) :=
  let k := queryGet (str "k") (rQuery r) in
  if bool_decide (k = []) then Some (cl, Some (Error (str "missing k") 400))
  else
    '(cl, res) ← clusterGet (V := bytes) gzip gunzip maphash a w at_ f k cl;
    match res with
    | None => Some (cl, None)
    | Some (inr e) => Some (cl, Some (Error (getErr e) 502))
    | Some (inl None) => Some (cl, Some (HeaderSet (str "X-Cache") (str "MISS") :: Error (str "not found") 404))
    | Some (inl (Some v)) =>
        let '(cl, here) := localExists a k now cl in
        Some (cl, Some [HeaderSet (str "X-Cache") (if here then str "HIT_LOCAL" else str "HIT_REMOTE"); WriteHeader 200; Write v])
    end.

(** POST /set. *)
Definition handleSet (a : NodeID) (w : surroundings) (evs : list netEvent) (r : httpReq) (cl : cluster) : cluster * option (list action) :=
  if negb (bool_decide (rMethod r = str "POST")) then (cl, Some NotFound)
  else match decodeSet (rBody r) with
       | inr err => (cl, Some (Error err 400))
       | inl q =>
           let '(cl, res) := clusterSet gzip gunzip a w evs (rK q) (rV q) (Env.milliseconds (rTTLms q)) cl in
           (cl, match res with
                | None => None
                | Some (Some e) => Some (Error (setErr e) 502)
                | Some None => Some [WriteHeader 200; Write (str "OK")]
                end)
       end.

Definition handleStats (n : node) : list action :=
  [HeaderSet (str "Content-Type") (str "application/json"); Write (statsJSON (cstats (Node.local (data n))))].
Definition handleReady : list action := [WriteHeader 200].
(** Whether the process may be stopped over HTTP, and with which token. *)
Definition killSettings (env : Env.environ) : bool * bytes :=
  (bool_decide (toLower (Env.getenv env "ALLOW_KILL" (str "false")) = str "true"), Env.getenv env "KILL_TOKEN" []).
(** POST /kill: the answer, and after how many nanoseconds the process stops, if it does. *)
Definition handleKill (allowKill : bool) (killToken : bytes) (r : httpReq) : list action * option Z :=
  if negb allowKill then (Error (str "kill disabled") 403, None)
  else if bool_decide (killToken ≠ []) && negb (bool_decide (queryGet (str "token") (rQuery r) = killToken)) then (Error (str "unauthorized") 401, None)
  else
    let afterMs := Env.atoi (queryGet (str "after_ms") (rQuery r)) in
    ([WriteHeader 200; Write (str "bye")], Some (50 * Config.Millisecond + (if 0 <? afterMs then Z.max 0 (Env.milliseconds afterMs) else 0))).
End Handlers.

(** ** Queries *)

(** A value that needs no escaping is read back. *)
Definition plain (c : Z) : bool := isDigit c || isLower c || isUpper c || (c =? 45) || (c =? 46) || (c =? 95) || (c =? 58).
Lemma unescape_plain s : forallb plain s = true → QueryUnescape s = Some s.
Proof.
  induction s as [|c s IH]; intros H; [done|]. cbn in H. apply andb_true_iff in H as [Hc Hs]. specialize (IH Hs).
  assert (c ≠ 37 ∧ c ≠ 43) as [H1 H2]. { split; intros ->; done. }
  cbn [QueryUnescape]. repeat case_match; subst; try done; by rewrite IH.
Qed.
Lemma plain_not c s : forallb plain s = true → plain c = false → c ∉ s.
Proof. intros H Hc Hin%list_elem_of_In. rewrite forallb_forall in H. by rewrite (H c Hin) in Hc. Qed.
Lemma cut_app sep a b : sep ∉ a → cut sep (a ++ sep :: b) = (a, b).
Proof.
  induction a as [|c a IH]; cbn [app cut]; intros Hn; [by rewrite Z.eqb_refl|]. destruct (Z.eqb_spec c sep) as [->|]; [set_solver|]. rewrite IH by set_solver. done.
Qed.
Lemma queryGet_plain k v : k ≠ [] → forallb plain k = true → forallb plain v = true → queryGet k (k ++ 61 :: v) = v.
Proof.
  intros Hk Pk Pv. assert (∀ c, plain c = false → c ≠ 61 → c ∉ k ++ 61 :: v) as Hn.
  { intros c Hc Hne. rewrite elem_of_app, elem_of_cons. pose proof (plain_not c k Pk Hc). pose proof (plain_not c v Pv Hc). tauto. }
  unfold queryGet. rewrite Env.split_whole by by apply Hn. cbn [omap list_omap]. unfold setting.
  rewrite bool_decide_eq_false_2 by by apply Hn. rewrite bool_decide_eq_false_2 by by destruct k. cbn [orb].
  rewrite cut_app by by apply plain_not. rewrite (unescape_plain k), (unescape_plain v) by done. cbn. by rewrite decide_True.
Qed.
Example queryGet_escapes : queryGet (str "k") (str "x=1&k=a%3Ab+c;&k=a%3ab+c&k=2") = str "a:b c".
Proof. by vm_compute. Qed.

(** ** What the handlers do *)

(** The status of a plain answer. *)
Lemma respond_error msg code : 200 ≤ code → Status (respond (Error msg code)) = code ∧ RespBody (respond (Error msg code)) = msg ++ [10].
Proof.
  intros Hc. unfold respond, Error. cbn [foldl act act_header put_header new_writer wheader sent wbody writeHeader write].
  destruct (Z.leb_spec 100 code); [|lia]. destruct (Z.ltb_spec code 200); [lia|]. cbn [andb]. done.
Qed.

(** [/kill] stops the process only when it is enabled and the token, if there is one, is given. *)
Theorem kill_guarded allowKill killToken r acts d :
  handleKill allowKill killToken r = (acts, Some d) →
  allowKill = true ∧ (killToken = [] ∨ queryGet (str "token") (rQuery r) = killToken) ∧ 50 * Config.Millisecond ≤ d.
Proof.
  unfold handleKill. destruct allowKill; cbn [negb]; [|done]. destruct (bool_decide (killToken ≠ []) && _) eqn:E; [done|]. intros [= _ <-]. split; [done|]. split.
  - apply andb_false_iff in E as [E|E]; [apply bool_decide_eq_false in E; left; by destruct (decide (killToken = []))|right].
    apply negb_false_iff, bool_decide_eq_true in E. done.
  - destruct (0 <? _); lia.
Qed.

Section RoundTrip.
Context {C : Type} `{Ops : !CacheOps C bytes bytes, Laws : !CacheLaws C bytes bytes, Ex : !CacheExists C bytes bytes, ExL : !CacheExistsLaw C bytes bytes, St : CacheStats C}.
Context (KC : KeyCodec bytes) (KCL : KeyCodecLaws KC is_bytes) `{VC : Node.Codec bytes}.
Context (gzip : bytes → bytes) (gunzip : bytes → option bytes) (maphash : Z → bytes → Z).
Context (decodeSet : bytes → setReq + bytes) (getErr : Client.cliErr → bytes) (setErr : callErr → bytes).
Context (ring : Rendezvous.ring) (maxKey maxVal : Z).
Hypothesis gzip_roundtrip : ∀ b : bytes, gunzip (gzip b) = Some b.
Hypothesis codec_roundtrip : ∀ v b : bytes, Node.Encode v = Some b → Node.Decode b = Some v.
Hypothesis ring_distinct : Rendezvous.distinct (Rendezvous.nodes ring).
Abbreviation node := (node (C := C)).
Abbreviation cluster := (gmap NodeID node).
Abbreviation data n := (nd (dplane n)).

(** A read on node [c] of a key that node [n] wrote at [e0] with lifetime [ttl]: the owners answer,
    no copy has expired, and the caller waits. *)
Record readable (n : node) (e0 : Node.env) (k : bytes) (ttl : Z) (c : NodeID) (m : node) (w : surroundings) (at_ : NodeID → Node.env) (f : NodeID → fate) (cl : cluster) : Prop := {
  re_reach id : id ∈ owner_ids KC ring k → id ≠ c → is_Some (cl !! id) ∧ connected m id = true ∧ answered (f id) = true;
  re_clock : Node.e_now (s_env w) ≤ Node.e_now' (s_env w);
  re_clocks id : Node.e_now (at_ id) ≤ Node.e_now' (at_ id);
  re_alive p : ¬ dead (Node.e_now (s_env w)) (copy_expiry n e0 ttl p);
  re_alive_there p id : ¬ dead (Node.e_now (at_ id)) (copy_expiry n e0 ttl p);
  re_waits : ∃ es, s_read w = es ++ Client.answers (S (length (owners KC ring k)));
  re_patient : patient (s_read w) }.

(** The HTTP interface round-trips: after a POST to [/set] that any node answered with 200, a GET
    of the key on any node that reaches the owners answers 200 with the very value, and says
    HIT_LOCAL exactly when that node holds a live copy of its own. *)
Theorem http_set_then_get (T t1 : Z) (b : nat) (S : bytes → option bytes) (cl cl' : cluster) (a : NodeID) (n : node) (w : surroundings) (evs : list netEvent)
    (r : httpReq) (q : setReq) (acts : list action) (c : NodeID) (m : node) (w' : surroundings) (at_ : NodeID → Node.env) (f : NodeID → fate) (now : Z) (r' : httpReq) :
  agrees KC is_bytes ring maxKey maxVal T (Datatypes.S b) S cl → decodeSet (rBody r) = inl q → is_bytes (rK q) → rK q ≠ [] → cl !! a = Some n →
  undisturbed KC ring T t1 (rK q) a n (s_env w) evs → cadmits (Node.local (data n)) = true →
  handleSet gzip gunzip decodeSet setErr a w evs r cl = (cl', Some acts) → Status (respond acts) = 200 →
  queryGet (str "k") (rQuery r') = rK q → cl' !! c = Some m → readable n (s_env w) (rK q) (Env.milliseconds (rTTLms q)) c m w' at_ f cl' →
  ∃ cl'' m'' acts', handleGet gzip gunzip maphash getErr c w' at_ f now r' cl' = Some (cl'', Some acts') ∧ cl'' !! c = Some m'' ∧
    Status (respond acts') = 200 ∧ RespBody (respond acts') = rV q ∧
    hget (str "X-Cache") (RespHeader (respond acts')) =
      if decide (is_Some (alive_at now (cfind (Node.local (data m'')) (rK q)))) then str "HIT_LOCAL" else str "HIT_REMOTE".
Proof.
  intros A Eq Hb Hne Ea U Hadm Es Hst Ek Em [R1 R2 R3 R4 R5 [es R6] R7]. unfold handleSet in Es. destruct (negb _).
  { injection Es as <- <-. destruct (respond_error (str "404 page not found") 404 ltac:(lia)) as [X _]. unfold NotFound in Hst. congruence. }
  rewrite Eq in Es. destruct (clusterSet gzip gunzip a w evs (rK q) (rV q) (Env.milliseconds (rTTLms q)) cl) as [cl1 res] eqn:Ec.
  assert (cl1 = cl' ∧ res = Some None) as [-> ->].
  { injection Es as <- Er. split; [done|]. destruct res as [[e|]|]; [|done|done]. injection Er as <-. destruct (respond_error (setErr e) 502 ltac:(lia)) as [X _]. congruence. }
  destruct (set_then_get_anywhere KC is_bytes KCL gzip gunzip maphash ring maxKey maxVal gzip_roundtrip codec_roundtrip ring_distinct T t1 b S cl cl' a n w evs (rK q) (rV q) _ (Some None)
    c m w' at_ f es A Hb Ea U Hadm Ec ltac:(done) Em R1 R2 R3 R4 R5 R6 R7) as (cl2 & Eg).
  pose proof (set_agrees KC is_bytes KCL gzip gunzip maphash ring maxKey maxVal gzip_roundtrip codec_roundtrip T t1 (Datatypes.S b) S cl a n w evs (rK q) (rV q) _ cl' _ A Hb Ea U Ec) as A1.
  destruct (get_agrees KC is_bytes KCL gzip gunzip maphash ring maxKey maxVal gzip_roundtrip codec_roundtrip ring_distinct t1 b _ cl' c m w' at_ f (rK q) A1 Hb Em R2 R3) as (cl3 & res3 & Eg' & A2 & _).
  rewrite Eg in Eg'. injection Eg' as <- _. unfold handleGet. rewrite Ek, bool_decide_eq_false_2, Eg by done. cbn [mbind option_bind].
  assert (∃ m'', cl2 !! c = Some m'') as (m2 & Em2).
  { assert (cluster_op KC gzip gunzip maphash (OGet c w' at_ f (rK q)) cl' = Some (cl2, ARead (Some (inl (Some (rV q)))))) as Ho%op_keeps_conns by (cbn [cluster_op]; by rewrite Eg).
    specialize (Ho c). rewrite Em in Ho. destruct (cl2 !! c) as [m2|]; [by exists m2|done]. }
  destruct (law_exists b (Node.local (data m2)) (rK q) now (st_wf _ _ _ _ _ _ _ (mb_data _ _ _ _ _ _ _ (ag_member _ _ _ _ _ _ _ _ _ A2 c m2 Em2)))) as (_ & _ & Hex & Hc).
  unfold localExists. rewrite Em2. destruct (cexists _ _ _) as [cc here]. cbn [fst snd] in *.
  eexists _, _, _. split; [done|]. rewrite lookup_insert_eq. split; [done|]. split; [done|]. split; [done|].
  assert (Node.local (data (put_nd (Node.put_local cc (data m2)) m2)) = cc) as -> by done. rewrite Hc, (decide_True (P := rK q = rK q)) by done. subst here.
  assert (∀ o : option (bytes * Z), alive_at now (alive_at now o) = alive_at now o) as -> by (intros [[v e]|]; cbn; [|done]; case_decide; cbn; [done|by rewrite decide_False]).
  case_bool_decide; [by rewrite decide_True|by rewrite decide_False].
Qed.
End RoundTrip.

(** ** Instances: the cluster of [Cluster]; the body of a POST is the value of key [[5]] *)
#[local] Existing Instance NodeTheorems.demo_keys.
#[local] Existing Instance NodeTheorems.bytes_inhabited.
#[local] Existing Instance plain_codec.
Definition demo_decode (b : bytes) : setReq + bytes := inl (MkSetReq [5] b 0).
Definition demo_post : httpReq := MkReq (str "POST") [] [7].
Definition demo_fetch : httpReq := MkReq (str "GET") (str "k=" ++ [5]) [].
Definition demo_posted := handleSet (C := InMemoryCache bytes bytes) (λ b, b) Some demo_decode (λ _, []) [99] (demo_surr 10) (demo_net 10) demo_post demo_cluster.

Lemma kill_guarded_witness : ∃ acts d, handleKill true (str "t") (MkReq [] (str "token=t&after_ms=20") []) = (acts, Some d) ∧ d = 70 * Config.Millisecond.
Proof.
  destruct (handleKill true (str "t") (MkReq [] (str "token=t&after_ms=20") [])) as [acts [d|]] eqn:E; [|vm_compute in E; discriminate E].
  destruct (kill_guarded _ _ _ _ _ E) as (_ & _ & _). exists acts, d. split; [done|]. vm_compute in E. by injection E as <- <-.
Defined.

Lemma http_set_then_get_witness :
  ∃ cl'' acts', handleGet (λ b, b) Some (λ s _, s) (λ _, []) [98] (demo_surr 20) (λ _, NodeTheorems.at_time 20) (λ _, Delivered) 20 demo_fetch demo_posted.1 = Some (cl'', Some acts') ∧
    Status (respond acts') = 200 ∧ RespBody (respond acts') = [7].
Proof.
  destruct demo_posted as [cl' oacts] eqn:E. cbn [fst].
  assert (oacts = Some [WriteHeader 200; Write (str "OK")]) as -> by (apply (f_equal snd) in E; vm_compute in E; by rewrite <-E).
  assert (demo_cluster !! [99] = Some (demo_member [99])) as Ea by by vm_compute.
  assert (∃ r, clusterSet (λ b, b) Some [99] (demo_surr 10) (demo_net 10) ([5] : bytes) ([7] : bytes) 0 demo_cluster = (cl', r)) as (r & Ec).
  { destruct (clusterSet (λ b, b) Some [99] (demo_surr 10) (demo_net 10) ([5] : bytes) ([7] : bytes) 0 demo_cluster) as [cl1 r] eqn:Ec. exists r. f_equal.
    unfold demo_posted, handleSet in E. rewrite bool_decide_eq_true_2 in E by done. cbn [negb demo_decode rK rV rTTLms demo_post rBody] in E.
    change (Env.milliseconds 0) with 0 in E. rewrite Ec in E. by injection E. }
  assert (cluster_op NodeTheorems.demo_keys (λ b, b) Some (λ s _, s) (OSet [99] (demo_surr 10) (demo_net 10) ([5] : bytes) ([7] : bytes) 0) demo_cluster = Some (cl', AWrite r)) as Hs%op_keeps_conns
    by (cbn [cluster_op]; by rewrite Ec).
  pose proof (λ id, demo_conns_kept cl' id Hs) as Hm. destruct (Hm [98] ltac:(auto)) as (m & Em & Ecn).
  destruct (http_set_then_get NodeTheorems.demo_keys NodeTheorems.demo_keys_laws (λ b, b) Some (λ s _, s) demo_decode (λ _, []) (λ _, []) Rendezvous.demo_ring (Z.shiftl 128 10) (Z.shiftl 2 20)
    (λ b, eq_refl) plain_roundtrip Rendezvous.demo_distinct 0 12 4 (λ _, None) demo_cluster cl' [99] (demo_member [99]) (demo_surr 10) (demo_net 10) demo_post (MkSetReq [5] [7] 0) _
    [98] m (demo_surr 20) (λ _, NodeTheorems.at_time 20) (λ _, Delivered) 20 demo_fetch (demo_in_agreement 5 ltac:(lia)) eq_refl ltac:(repeat constructor; lia) ltac:(done) Ea
    (demo_undisturbed [99] 0 10 ltac:(lia) ltac:(lia) ltac:(auto)) ltac:(by vm_compute) E ltac:(done) ltac:(by vm_compute) Em) as (cl'' & m'' & acts' & H1 & _ & H2 & H3 & _).
  - split; cbn [rK rTTLms].
    + assert (owner_ids NodeTheorems.demo_keys Rendezvous.demo_ring ([5] : bytes) = [[99]; [97]]) as -> by by vm_compute.
      intros id Hin _. rewrite !elem_of_cons, elem_of_nil in Hin. assert (id = [97] ∨ id = [98] ∨ id = [99]) as Hid by tauto.
      destruct (Hm id Hid) as (m' & Em' & _). split; [by exists m'|]. split; [|done]. unfold connected. rewrite Ecn. by destruct Hid as [->|[->| ->]]; vm_compute.
    + cbn. lia.
    + intros id. cbn. lia.
    + intros []; unfold dead; vm_compute; intuition congruence.
    + intros [] id; unfold dead; vm_compute; intuition congruence.
    + exists []. by vm_compute.
    + by repeat constructor.
  - exists cl'', acts'. split; [exact H1|]. split; [exact H2|exact H3].
Defined.
End BenchNode.
