(* ===== verification/Runner.v ===== *)
(** * Load generators ([src/_benchmarks/cluster/runner], [src/_benchmarks/cluster/direct],
      [src/_examples/clustered_api/loadgen])

    The three programs that drive a cluster with concurrent workers: the keys and values they
    write, the counters their workers bump with atomic additions, the percentiles they report.
    A worker's iteration is the list of updates it makes; however the updates of all workers
    interleave, the summary is that of the iterations one after the other. *)
From Stdlib Require Import ZArith QArith Lia Lqa String SpecFloat.
From stdpp Require Import base numbers list sets sorting gmap.
From S2P Require Import Prelude Hash PatternIndex Http Float Rates Env.
Local Open Scope Z_scope.

Module Runner.
Import PatternIndex Http Float.

(** ** [fmt] and [strconv] *)

(** Decimal digits, most significant first; [fuel] bounds their number. *)
Fixpoint decimal_ (fuel : nat) (n : Z) : bytes :=
  match fuel with
  | O => []
  | S fuel => (if n <? 10 then [] else decimal_ fuel (n / 10)) ++ [48 + n mod 10]
  end.
Definition decimal (n : Z) : bytes := decimal_ 20 n.
Definition padded (width : nat) (n : Z) : bytes :=
  let d := decimal n in replicate (width - length d) 48 ++ d.
(** "k%08d" and "v:%s:%d". *)
Definition benchKey (kidx : Z) : bytes := str "k" ++ padded 8 kidx.
Definition valuePrefix (key : bytes) : bytes := str "v:" ++ key ++ str ":".
Definition benchValue (key : bytes) (seq : Z) : bytes := str "v:" ++ key ++ str ":" ++ decimal seq.

(** ** [percentile] *)
Definition to_int (oob : float64 → Z) (x : float64) : Z :=
  match x with
  | S754_zero _ => 0
  | S754_finite false m e => if truncate m e <? 2 ^ 63 then truncate m e else oob x
  | S754_finite true m e => if truncate m e <=? 2 ^ 63 then - truncate m e else oob x
  | _ => oob x
  end.
Definition sorted (vals : list Z) : list Z := merge_sort Z.le vals.
(** [None]: an index out of range. *)
Definition index (l : list Z) (i : Z) : option Z := if (0 <=? i) && (i <? Z.of_nat (length l)) then l !! Z.to_nat i else None.
Definition percentile (oob : float64 → Z) (vals : list Z) (p : float64) : option float64 :=
  if bool_decide (vals = []) then Some (of_int 0)
  else
    let cp := sorted vals in
    let n := Z.of_nat (length cp) in
    let rank := fmul p (of_int (n - 1)) in
    let lo := to_int oob rank in
    let hi := i64 (lo + 1) in
    if n <=? hi then of_int <$> index cp lo
    else
      let frac := fsub rank (of_int lo) in
      a ← index cp lo; b ← index cp hi;
      Some (fadd (fmul (of_int a) (fsub (of_int 1) frac)) (fmul (of_int b) frac)).

(** ** The runner over HTTP *)
Record stats := MkStats {
  Total : Z; Gets : Z; Sets : Z; Errs : Z; HitLocal : Z; HitRemote : Z; Miss : Z; WrongValue : Z;
  GetLatUs : list Z; SetLatUs : list Z }.
Definition zeroStats : stats := MkStats 0 0 0 0 0 0 0 0 [] [].
(** An atomic addition to a counter, or an append under [latMu]. *)
Inductive update := UTotal | UGets | USets | UErrs | UHitLocal | UHitRemote | UMiss | UWrong | UGetLat (us : Z) | USetLat (us : Z).
Definition bump (s : stats) (u : update) : stats :=
  let '(MkStats t g st e hl hr m wv gl sl) := s in
  match u with
  | UTotal => MkStats (i64 (t + 1)) g st e hl hr m wv gl sl
  | UGets => MkStats t (i64 (g + 1)) st e hl hr m wv gl sl
  | USets => MkStats t g (i64 (st + 1)) e hl hr m wv gl sl
  | UErrs => MkStats t g st (i64 (e + 1)) hl hr m wv gl sl
  | UHitLocal => MkStats t g st e (i64 (hl + 1)) hr m wv gl sl
  | UHitRemote => MkStats t g st e hl (i64 (hr + 1)) m wv gl sl
  | UMiss => MkStats t g st e hl hr (i64 (m + 1)) wv gl sl
  | UWrong => MkStats t g st e hl hr m (i64 (wv + 1)) gl sl
  | UGetLat us => MkStats t g st e hl hr m wv (gl ++ [us]) sl
  | USetLat us => MkStats t g st e hl hr m wv gl (sl ++ [us])
  end.

(** One iteration of a worker: what it drew and what the client got; [None]: an error.  A SET whose
    sequence number is a multiple of 64 reads the key from every target. *)
Inductive iteration :=
  | IGet (key : bytes) (lat : Z) (resp : option Response)
  | ISet (key : bytes) (seq : Z) (lat : Z) (ok : bool) (checks : list (option Response)).
Definition wrong (key body : bytes) : bool := negb (hasPrefix (valuePrefix key) body).
Definition check_updates (key : bytes) (r : option Response) : list update :=
  match r with Some r => if wrong key (RespBody r) then [UWrong] else [] | None => [] end.
Definition updates (i : iteration) : list update :=
  match i with
  | IGet key lat resp =>
      [UTotal; UGets; UGetLat lat] ++
      match resp with
      | None => [UErrs]
      | Some r =>
          let src := hget (str "X-Cache") (RespHeader r) in
          (if bool_decide (src = str "HIT_LOCAL") then [UHitLocal]
           else if bool_decide (src = str "HIT_REMOTE") then [UHitRemote]
           else if bool_decide (src = str "MISS") then [UMiss] else []) ++
          (if (Status r =? 200) && wrong key (RespBody r) then [UWrong] else [])
      end
  | ISet key seq lat ok checks =>
      [UTotal; USets] ++ (if ok then [USetLat lat] else [UErrs]) ++
      (if seq mod 64 =? 0 then flat_map (check_updates key) checks else [])
  end.
(** The hit ratio of the requests. *)
Definition hitRatio (s : stats) : float64 :=
  if 0 <? Gets s then fdiv (of_int (i64 (HitLocal s + HitRemote s))) (of_int (Gets s)) else of_int 0.

(** The statistics of the nodes, as decoded from their [/stats], summed over those that answer. *)
Record CacheStats := MkCacheStats {
  csHits : Z; csMisses : Z; csEvictions : Z; csExpirations : Z; csSize : Z; csCapacity : Z; csHitRatio : float64; csShards : Z }.
Record agg := MkAgg { aggHits : Z; aggMiss : Z; aggEv : Z; aggExp : Z; aggSize : Z; aggCap : Z }.
Definition addStats (a : agg) (cs : option CacheStats) : agg :=
  match cs with
  | None => a
  | Some cs => MkAgg (i64 (aggHits a + csHits cs)) (i64 (aggMiss a + csMisses cs)) (i64 (aggEv a + csEvictions cs))
                 (i64 (aggExp a + csExpirations cs)) (i64 (aggSize a + csSize cs)) (i64 (aggCap a + csCapacity cs))
  end.
Definition nodeStats (fetched : list (option CacheStats)) : agg := foldl addStats (MkAgg 0 0 0 0 0 0) fetched.
Definition localRatio (a : agg) : float64 :=
  let getReqs := i64 (aggHits a + aggMiss a) in
  if 0 <? getReqs then fmul (fdiv (of_int (aggHits a)) (of_int getReqs)) (of_int 100) else of_int 0.

(** Failure injection: where the shutdown request goes; [draw] is the number [pick] draws. *)
Inductive kill := NoKill | KillPanics | KillAt (url : bytes).
Definition killURL (env : Env.environ) (targets : list bytes) (draw : nat) : kill :=
  let killMode := toLower (Env.getenv env "KILL_MODE" (str "none")) in
  let token := Env.getenv env "KILL_TOKEN" [] in
  let at_ target := KillAt (target ++ str "/kill" ++ (if bool_decide (token ≠ []) then str "?token=" ++ token else [])) in
  if bool_decide (killMode = str "random") then match targets !! draw with Some t => at_ t | None => KillPanics end
  else if bool_decide (killMode = str "target") then
    let target := Env.getenv env "KILL_TARGET" [] in
    if bool_decide (target = []) then match targets !! 0%nat with Some t => at_ t | None => KillPanics end else at_ target
  else NoKill.

(** ** The direct benchmark *)
Record dstats := MkDirect { dTotal : Z; dGets : Z; dSets : Z; dErrs : Z; dHits : Z; dMiss : Z; dGetLat : list Z; dSetLat : list Z }.
Inductive dupdate := DTotal | DGets | DSets | DErrs | DHits | DMiss | DGetLat (us : Z) | DSetLat (us : Z).
Definition dbump (s : dstats) (u : dupdate) : dstats :=
  let '(MkDirect t g st e h m gl sl) := s in
  match u with
  | DTotal => MkDirect (i64 (t + 1)) g st e h m gl sl
  | DGets => MkDirect t (i64 (g + 1)) st e h m gl sl
  | DSets => MkDirect t g (i64 (st + 1)) e h m gl sl
  | DErrs => MkDirect t g st (i64 (e + 1)) h m gl sl
  | DHits => MkDirect t g st e (i64 (h + 1)) m gl sl
  | DMiss => MkDirect t g st e h (i64 (m + 1)) gl sl
  | DGetLat us => MkDirect t g st e h m (gl ++ [us]) sl
  | DSetLat us => MkDirect t g st e h m gl (sl ++ [us])
  end.
(** What a call returned: [None] is an error; a SET that fails is not counted as an operation. *)
Inductive diteration := DGet (lat : Z) (found : option bool) | DSet (lat : Z) (ok : bool).
Definition dupdates (i : diteration) : list dupdate :=
  match i with
  | DGet lat found => [DTotal; DGets; DGetLat lat] ++ match found with None => [DErrs] | Some true => [DHits] | Some false => [DMiss] end
  | DSet lat ok => if ok then [DSetLat lat; DSets; DTotal] else [DErrs]
  end.
(** The lifetime a SET asks for. *)
Definition directTTL (setTTLms : Z) : Z := if setTTLms <? 0 then 0 else if 0 <? setTTLms then Env.milliseconds setTTLms else 0.

(** ** The load generator of the user API *)
Record lstats := MkLoad { lTotal : Z; lGets : Z; lUpdates : Z; lCreates : Z; lErrs : Z; lCacheHits : Z; lDBHits : Z; LatencySum : Z }.
Inductive lupdate := LTotal | LGets | LUpdates | LCreates | LErrs | LCacheHits | LDBHits | LLatency (us : Z).
Definition lbump (s : lstats) (u : lupdate) : lstats :=
  let '(MkLoad t g up c e ch db lat) := s in
  match u with
  | LTotal => MkLoad (i64 (t + 1)) g up c e ch db lat
  | LGets => MkLoad t (i64 (g + 1)) up c e ch db lat
  | LUpdates => MkLoad t g (i64 (up + 1)) c e ch db lat
  | LCreates => MkLoad t g up (i64 (c + 1)) e ch db lat
  | LErrs => MkLoad t g up c (i64 (e + 1)) ch db lat
  | LCacheHits => MkLoad t g up c e (i64 (ch + 1)) db lat
  | LDBHits => MkLoad t g up c e ch (i64 (db + 1)) lat
  | LLatency us => MkLoad t g up c e ch db (i64 (lat + us))
  end.
Inductive literation := LGet (lat : Z) (resp : option Response) | LUpdate (lat : Z) (resp : option Response) | LCreate (lat : Z) (resp : option Response).
Definition success (r : Response) : bool := Status r / 100 =? 2.
Definition lupdates (i : literation) : list lupdate :=
  match i with
  | LGet lat resp =>
      [LTotal; LGets; LLatency lat] ++
      match resp with
      | None => [LErrs]
      | Some r => let src := hget (str "X-Source") (RespHeader r) in
                  if bool_decide (src = str "cache") || bool_decide (src = str "remote-cache") then [LCacheHits] else [LDBHits]
      end
  | LUpdate lat resp => [LTotal; LUpdates; LLatency lat] ++ match resp with Some r => if success r then [] else [LErrs] | None => [LErrs] end
  | LCreate lat resp => [LTotal; LCreates; LLatency lat] ++ match resp with Some r => if success r then [] else [LErrs] | None => [LErrs] end
  end.
Definition avgMs (s : lstats) : float64 := fdiv (fdiv (of_int (LatencySum s)) (of_int 1000)) (of_int (Z.max (lTotal s) 1)).

(** ** Formats *)
Lemma digits_app a c : digits (a ++ [c]) = digits a * 10 + (c - 48).
Proof. unfold digits. by rewrite foldl_app. Qed.
Lemma decimal_digits fuel n : 0 ≤ n < 10 ^ Z.of_nat fuel → digits (decimal_ fuel n) = n ∧ Forall (λ c, isDigit c = true) (decimal_ fuel n).
Proof.
  revert n. induction fuel as [|fuel IH]; intros n Hn; [assert (n = 0) as -> by (cbn in Hn; lia); by split|]. cbn [decimal_]. rewrite digits_app.
  pose proof (Z.mod_pos_bound n 10 ltac:(lia)) as Hm. assert (isDigit (48 + n mod 10) = true) as Hd.
  { unfold isDigit. apply andb_true_iff. split; [apply Z.leb_le|apply Z.leb_le]; lia. }
  destruct (Z.ltb_spec n 10).
  - rewrite (Z.mod_small n 10) in * by lia. split; [cbn; lia|]. by repeat constructor.
  - rewrite Nat2Z.inj_succ, Z.pow_succ_r in Hn by lia. pose proof (Z.div_mod n 10 ltac:(lia)). destruct (IH (n / 10)) as [-> Hf]; [nia|].
    split; [lia|]. apply Forall_app. split; [done|]. by repeat constructor.
Qed.
Lemma decimal_nonnil n : decimal n ≠ [].
Proof. unfold decimal. cbn [decimal_]. by destruct (if n <? 10 then _ else _). Qed.
Lemma zeros_digits k d : digits (replicate k 48 ++ d) = digits d.
Proof. unfold digits. rewrite foldl_app. f_equal. induction k as [|k IH]; [done|]. cbn. exact IH. Qed.

(** What is printed reads back. *)
Lemma Atoi_decimal n : 0 ≤ n < 2 ^ 63 → Atoi (decimal n) = Some n.
Proof.
  intros Hn. destruct (decimal_digits 20 n ltac:(lia)) as [Hd Hf]. fold (decimal n) in *. unfold Atoi.
  assert (∀ c d, decimal n = c :: d → c ≠ 45 ∧ c ≠ 43) as Hc by (intros c d E; rewrite E in Hf; apply Forall_cons in Hf as [Hc _]; split; intros ->; done).
  assert (match decimal n with 45 :: ds => (-1, ds) | 43 :: ds => (1, ds) | _ => (1, decimal n) end = (1, decimal n)) as ->.
  { destruct (decimal n) as [|c d] eqn:E; [done|]. destruct (Hc c d eq_refl). repeat case_match; congruence. }
  rewrite decide_False by apply decimal_nonnil. assert (forallb isDigit (decimal n) = true) as ->. { apply forallb_forall. intros c Hin. rewrite Forall_forall in Hf. apply Hf. by apply list_elem_of_In. }
  cbn [negb]. rewrite Hd, Z.mul_1_l. destruct (Z.leb_spec (- 2 ^ 63) n); [|lia]. destruct (Z.ltb_spec n (2 ^ 63)); [done|lia].
Qed.
Lemma padded_digits w n : 0 ≤ n < 10 ^ 20 → digits (padded w n) = n ∧ 58 ∉ padded w n.
Proof.
  intros Hn. destruct (decimal_digits 20 n ltac:(lia)) as [Hd Hf]. fold (decimal n) in *. unfold padded. rewrite zeros_digits. split; [done|].
  rewrite elem_of_app. intros [H|H]; [by apply elem_of_replicate in H as [? _]|]. rewrite Forall_forall in Hf. by specialize (Hf 58 H).
Qed.

(** Different indexes give different keys, and no key has a colon. *)
Lemma benchKey_inj i j : 0 ≤ i < 10 ^ 20 → 0 ≤ j < 10 ^ 20 → benchKey i = benchKey j → i = j.
Proof.
  intros Hi Hj E. unfold benchKey in E. apply app_inv_head in E. destruct (padded_digits 8 i Hi) as [<- _], (padded_digits 8 j Hj) as [<- _]. by rewrite E.
Qed.
Lemma benchKey_no_colon i : 0 ≤ i < 10 ^ 20 → 58 ∉ benchKey i.
Proof.
  intros Hi. destruct (padded_digits 8 i Hi) as [_ H]. unfold benchKey. rewrite elem_of_app. intros [Hk|Hk]; [|done]. vm_compute in Hk. by apply list_elem_of_singleton in Hk.
Qed.

Lemma hasPrefix_spec p s : hasPrefix p s = true ↔ ∃ t, s = p ++ t.
Proof.
  revert s. induction p as [|a p IH]; intros s; cbn [hasPrefix]; [split; [by exists s|done]|]. destruct s as [|b s]; [split; [done|by intros [t ?]]|].
  rewrite andb_true_iff, Z.eqb_eq, IH. split; [intros [-> [t ->]]; by exists t|]. intros [t [= -> ->]]. split; [done|by exists t].
Qed.
Lemma app_sep_inj {A} (x : A) (a b u v : list A) : x ∉ a → x ∉ b → a ++ x :: u = b ++ x :: v → a = b.
Proof.
  revert b. induction a as [|c a IH]; intros [|d b] Ha Hb E; try done; cbn in E; injection E as ? E; subst; [set_solver|set_solver|]. f_equal. apply IH; [set_solver|set_solver|done].
Qed.
(** The consistency check of the runner is exact: a value passes for a key iff it was written for it. *)
Theorem prefix_check_exact k k' seq : 58 ∉ k → 58 ∉ k' → wrong k (benchValue k' seq) = false ↔ k = k'.
Proof.
  intros Hk Hk'. unfold wrong. rewrite negb_false_iff, hasPrefix_spec. unfold valuePrefix, benchValue. change (str ":") with [58]. split.
  - intros [t E]. rewrite <-!(assoc_L app) in E. apply app_inv_head in E. symmetry. by eapply (app_sep_inj 58).
  - intros ->. exists (decimal seq). by rewrite <-!(assoc_L app).
Qed.

(** ** Interleaved workers *)

(** [interleaves ws l]: [l] is what happens when each worker makes its updates in order. *)
Inductive interleaves {A} : list (list A) → list A → Prop :=
  | il_done ws : Forall (λ l, l = []) ws → interleaves ws []
  | il_step ws1 x w ws2 l : interleaves (ws1 ++ w :: ws2) l → interleaves (ws1 ++ (x :: w) :: ws2) (x :: l).
Lemma interleaves_perm {A} (ws : list (list A)) l : interleaves ws l → l ≡ₚ concat ws.
Proof.
  induction 1 as [ws Hw|ws1 x w ws2 l _ IH].
  - induction Hw as [|? ? -> _ IH]; [done|]. exact IH.
  - rewrite IH, !concat_app. cbn. by rewrite Permutation_middle.
Qed.

#[export] Instance update_eq_dec : EqDecision update.
Proof. solve_decision. Defined.
#[export] Instance dupdate_eq_dec : EqDecision dupdate.
Proof. solve_decision. Defined.
#[export] Instance lupdate_eq_dec : EqDecision lupdate.
Proof. solve_decision. Defined.

(** How often an update occurs. *)
Section Count.
Context {U : Type} `{!EqDecision U}.
Implicit Types (u x : U) (us : list U).
Definition cnt u us : Z := Z.of_nat (length (filter (λ x, x = u) us)).
#[export] Instance cnt_proper u : Proper ((≡ₚ) ==> (=)) (cnt u).
Proof. intros us us' Hp. unfold cnt. by rewrite Hp. Qed.
Lemma cnt_app u us us' : cnt u (us ++ us') = cnt u us + cnt u us'.
Proof. unfold cnt. rewrite filter_app, length_app. lia. Qed.
Lemma cnt_bound u us : 0 ≤ cnt u us ≤ Z.of_nat (length us).
Proof. unfold cnt. pose proof (length_filter (λ x, x = u) us). lia. Qed.
Lemma cnt_one u x : cnt u [x] = if decide (x = u) then 1 else 0.
Proof. unfold cnt. rewrite filter_cons. by destruct (decide (x = u)). Qed.
Lemma cnt_next u us : Z.of_nat (length us) < 2 ^ 63 - 1 → i64 (cnt u us + 1) = cnt u us + 1.
Proof. intros Hl. pose proof (cnt_bound u us). apply i64_id. unfold is_i64. lia. Qed.
End Count.
Definition getLats (us : list update) : list Z := omap (λ u, match u with UGetLat l => Some l | _ => None end) us.
Definition setLats (us : list update) : list Z := omap (λ u, match u with USetLat l => Some l | _ => None end) us.

(** While the counters do not overflow they count. *)
Lemma run_counts us :
  Z.of_nat (length us) < 2 ^ 63 →
  foldl bump zeroStats us = MkStats (cnt UTotal us) (cnt UGets us) (cnt USets us) (cnt UErrs us) (cnt UHitLocal us) (cnt UHitRemote us) (cnt UMiss us) (cnt UWrong us) (getLats us) (setLats us).
Proof.
  induction us as [|x us IH] using rev_ind; intros Hl; [done|]. rewrite length_app in Hl. cbn in Hl. rewrite foldl_app, IH by lia. cbn [foldl].
  pose proof (λ u, cnt_next u us ltac:(lia)) as Hi.
  unfold getLats, setLats. rewrite !omap_app, !cnt_app, !cnt_one.
  destruct x; cbn [bump omap list_omap]; rewrite ?decide_True by done; rewrite ?decide_False by done; rewrite ?Z.add_0_r, ?app_nil_r, ?Hi; done.
Qed.

(** One iteration. *)
Definition is_get (i : iteration) : bool := match i with IGet _ _ _ => true | _ => false end.
Record adds_up (us : list update) (g n : Z) : Prop := {
  au_total : cnt UTotal us = n;
  au_gets : cnt UGets us = g;
  au_sets : cnt USets us = n - g;
  au_getlat : Z.of_nat (length (getLats us)) = g;
  au_setlat : Z.of_nat (length (setLats us)) ≤ n - g;
  au_setdone : Z.of_nat (length (setLats us)) + cnt UErrs us + cnt UHitLocal us + cnt UHitRemote us + cnt UMiss us ≤ n;
  au_hits : cnt UHitLocal us + cnt UHitRemote us + cnt UMiss us ≤ g }.
Lemma adds_up_app us us' g g' n n' : adds_up us g n → adds_up us' g' n' → adds_up (us ++ us') (g + g') (n + n').
Proof. intros [] []. split; unfold getLats, setLats in *; rewrite ?omap_app, ?length_app, ?cnt_app; lia. Qed.

Lemma checks_only_wrong key rs : Forall (λ u, u = UWrong) (flat_map (check_updates key) rs).
Proof. induction rs as [|r rs IH]; [done|]. cbn. apply Forall_app. split; [|done]. unfold check_updates. destruct r; [|done]. destruct (wrong _ _); by repeat constructor. Qed.
Lemma only_wrong us : Forall (λ u, u = UWrong) us → (∀ u, u ≠ UWrong → cnt u us = 0) ∧ getLats us = [] ∧ setLats us = [].
Proof.
  induction 1 as [|? us -> _ (H1 & H2 & H3)]; [done|]. split; [|done]. intros u Hu. change (UWrong :: us) with ([UWrong] ++ us). rewrite cnt_app, cnt_one, decide_False by done. by rewrite H1.
Qed.
Lemma wrong_adds us us' g n : Forall (λ u, u = UWrong) us' → adds_up us g n → adds_up (us ++ us') g n.
Proof.
  intros (H1 & H2 & H3)%only_wrong []. split; unfold getLats, setLats in *; rewrite ?omap_app, ?length_app, ?cnt_app, ?H2, ?H3, ?H1 by done; cbn; lia.
Qed.
Lemma iteration_adds i : adds_up (updates i) (if is_get i then 1 else 0) 1.
Proof.
  destruct i as [key lat [r|]|key seq lat ok checks]; cbn [updates is_get].
  - rewrite (assoc_L app). apply wrong_adds; [destruct (_ && _); by repeat constructor|]. repeat case_bool_decide; by split; vm_compute.
  - by split; vm_compute.
  - rewrite (assoc_L app). apply wrong_adds; [destruct (_ =? 0); [apply checks_only_wrong|done]|]. destruct ok; by split; vm_compute.
Qed.

Lemma concat_bind {A B} (f : A → list B) (ws : list (list A)) : concat ((λ its, its ≫= f) <$> ws) = concat ws ≫= f.
Proof. induction ws as [|l ls IH]; [done|]. cbn. by rewrite IH, bind_app. Qed.

Definition gets_of (its : list iteration) : Z := Z.of_nat (length (filter (λ i, is_get i = true) its)).
Lemma iterations_add (its : list iteration) : adds_up (its ≫= updates) (gets_of its) (Z.of_nat (length its)).
Proof.
  induction its as [|i its IH]; [by split; vm_compute|]. cbn [mbind list_bind]. unfold gets_of in *. rewrite filter_cons. cbn [length].
  pose proof (adds_up_app _ _ _ _ _ _ (iteration_adds i) IH) as H. destruct (is_get i) eqn:E.
  - rewrite decide_True by done. cbn [length]. rewrite !Nat2Z.inj_succ. replace (Z.succ _) with (1 + Z.of_nat (length (filter (λ i, is_get i = true) its))) by lia.
    replace (Z.succ _) with (1 + Z.of_nat (length its)) by lia. exact H.
  - rewrite decide_False by done. rewrite Nat2Z.inj_succ. replace (Z.succ _) with (1 + Z.of_nat (length its)) by lia. exact H.
Qed.
Lemma adds_up_perm us us' g n : us ≡ₚ us' → adds_up us g n → adds_up us' g n.
Proof.
  intros Hp []. split; unfold getLats, setLats in *; by rewrite <-?Hp.
Qed.

(** The exact hit ratio is at most one, so the reported one is accurate. *)
Definition close (x : float64) (q : Q) : Prop := fin x ∧ (q - 8 * eps <= val x <= q + 8 * eps)%Q.

(** C37.  The summary of a benchmark does not depend on how its workers interleave and adds up: the
    counters are those of the iterations run one after the other, the total is the GETs and
    the SETs, every GET has a latency, no request is counted as two outcomes, the latencies
    are the same up to order, and the hit ratio is the exact one up to 2^-46. *)
Theorem summary_adds_up (workers : list (list iteration)) us :
  interleaves ((λ its, its ≫= updates) <$> workers) us → Z.of_nat (length us) < 2 ^ 63 →
  let s := foldl bump zeroStats us in
  let s' := foldl bump zeroStats (concat workers ≫= updates) in
  (Total s, Gets s, Sets s, Errs s, HitLocal s, HitRemote s, Miss s, WrongValue s) =
  (Total s', Gets s', Sets s', Errs s', HitLocal s', HitRemote s', Miss s', WrongValue s') ∧
  GetLatUs s ≡ₚ GetLatUs s' ∧ SetLatUs s ≡ₚ SetLatUs s' ∧
  Total s = Gets s + Sets s ∧ Total s = Z.of_nat (length (concat workers)) ∧ Z.of_nat (length (GetLatUs s)) = Gets s ∧
  Z.of_nat (length (SetLatUs s)) + Errs s + HitLocal s + HitRemote s + Miss s ≤ Total s ∧
  (0 < Gets s → close (hitRatio s) (inject_Z (HitLocal s + HitRemote s) / inject_Z (Gets s))).
Proof.
  intros Hi%interleaves_perm Hl s s'.
  rewrite concat_bind in Hi. assert (Z.of_nat (length (concat workers ≫= updates)) < 2 ^ 63) as Hl' by by rewrite <-Hi.
  pose proof (adds_up_perm _ _ _ _ (symmetry Hi) (iterations_add (concat workers))) as A. unfold s, s'. clear s s'. rewrite !run_counts by done. cbn [Total Gets Sets Errs HitLocal HitRemote Miss WrongValue GetLatUs SetLatUs].
  assert (∀ u, cnt u us = cnt u (concat workers ≫= updates)) as Hc by (intros u; by apply cnt_proper).
  split; [by rewrite !Hc|]. split; [by apply omap_Permutation|]. split; [by apply omap_Permutation|]. clear Hc Hi. destruct A as [A1 A2 A3 A4 A5 A6 A7].
  split; [lia|]. split; [done|]. split; [lia|]. split; [lia|]. intros Hg. unfold hitRatio. cbn [Gets HitLocal HitRemote].
  pose proof (cnt_bound UHitLocal us). pose proof (cnt_bound UHitRemote us). pose proof (cnt_bound UMiss us). pose proof (cnt_bound UGets us). rewrite i64_id by (unfold is_i64; lia).
  destruct (Rates.rate_accurate (cnt UHitLocal us + cnt UHitRemote us) (cnt UGets us)) as (X1 & _ & X2); [lia|lia|].
  unfold Rates.rate in *. destruct (Z.ltb_spec 0 (cnt UGets us)); [|lia]. by split; [|apply X2].
Qed.

(** The sums are over the nodes that answered, in whatever order, as long as they fit. *)
Definition total (f : CacheStats → Z) (l : list (option CacheStats)) : Z := foldr Z.add 0 (f <$> omap id l).
Lemma total_cons f o (l : list (option CacheStats)) : total f (o :: l) = match o with Some x => f x | None => 0 end + total f l.
Proof. unfold total. by destruct o. Qed.
Lemma nodeStats_sums (l : list (option CacheStats)) :
  (∀ f, f ∈ [csHits; csMisses; csEvictions; csExpirations; csSize; csCapacity] → Forall (λ o, match o with Some x => 0 ≤ f x | None => True end) l ∧ total f l < 2 ^ 63) →
  nodeStats l = MkAgg (total csHits l) (total csMisses l) (total csEvictions l) (total csExpirations l) (total csSize l) (total csCapacity l).
Proof.
  unfold nodeStats. assert (∀ a, (0 ≤ aggHits a ∧ 0 ≤ aggMiss a ∧ 0 ≤ aggEv a ∧ 0 ≤ aggExp a ∧ 0 ≤ aggSize a ∧ 0 ≤ aggCap a) →
    (∀ f g, (f, g) ∈ [(csHits, aggHits); (csMisses, aggMiss); (csEvictions, aggEv); (csExpirations, aggExp); (csSize, aggSize); (csCapacity, aggCap)] →
      Forall (λ o, match o with Some x => 0 ≤ f x | None => True end) l ∧ g a + total f l < 2 ^ 63) →
    foldl addStats a l = MkAgg (aggHits a + total csHits l) (aggMiss a + total csMisses l) (aggEv a + total csEvictions l) (aggExp a + total csExpirations l) (aggSize a + total csSize l) (aggCap a + total csCapacity l)) as Hgen.
  { induction l as [|o l IH]; intros a Ha Hf; [destruct a; cbn; unfold total; cbn; f_equal; lia|].
    assert (∀ f, Forall (λ o, match o with Some x => 0 ≤ f x | None => True end) l → 0 ≤ total f l) as Hpos.
    { intros f. clear. induction 1 as [|o l Ho _ IH]; [done|]. rewrite total_cons. destruct o; lia. }
    destruct o as [x|]; cbn [foldl addStats].
    - assert (∀ f g, (f, g) ∈ [(csHits, aggHits); (csMisses, aggMiss); (csEvictions, aggEv); (csExpirations, aggExp); (csSize, aggSize); (csCapacity, aggCap)] →
        0 ≤ f x ∧ Forall (λ o, match o with Some x => 0 ≤ f x | None => True end) l ∧ 0 ≤ total f l ∧ g a + f x + total f l < 2 ^ 63) as Hx.
      { intros f g Hin. destruct (Hf f g Hin) as [[H1 H2]%Forall_cons H3]. rewrite total_cons in H3. split_and!; [done|done|by apply Hpos|lia]. }
      pose proof (Hx csHits aggHits ltac:(set_solver)). pose proof (Hx csMisses aggMiss ltac:(set_solver)). pose proof (Hx csEvictions aggEv ltac:(set_solver)).
      pose proof (Hx csExpirations aggExp ltac:(set_solver)). pose proof (Hx csSize aggSize ltac:(set_solver)). pose proof (Hx csCapacity aggCap ltac:(set_solver)).
      rewrite !i64_id by (unfold is_i64; lia). rewrite IH; cbn [aggHits aggMiss aggEv aggExp aggSize aggCap]; [rewrite !total_cons; f_equal; lia|lia|].
      intros f g Hin. repeat (apply elem_of_cons in Hin as [[= -> ->]|Hin]); cbn; [..|by apply elem_of_nil in Hin]; (split; [tauto|lia]).
    - rewrite IH; [by rewrite !total_cons|done|]. intros f g Hin. destruct (Hf f g Hin) as [[_ H2]%Forall_cons H3]. by rewrite total_cons in H3. }
  intros Hf. rewrite Hgen; [done|cbn; lia|]. intros f g Hin. repeat (apply elem_of_cons in Hin as [[= -> ->]|Hin]); [..|by apply elem_of_nil in Hin]; cbn; apply Hf; set_solver.
Qed.

(** ** The other two programs *)
Lemma drun_counts us :
  Z.of_nat (length us) < 2 ^ 63 →
  ∃ gl sl, foldl dbump (MkDirect 0 0 0 0 0 0 [] []) us = MkDirect (cnt DTotal us) (cnt DGets us) (cnt DSets us) (cnt DErrs us) (cnt DHits us) (cnt DMiss us) gl sl.
Proof.
  induction us as [|x us IH] using rev_ind; intros Hl; [by do 2 eexists|]. rewrite length_app in Hl. cbn in Hl. destruct (IH ltac:(lia)) as (gl & sl & E). rewrite foldl_app, E. cbn [foldl].
  pose proof (λ u, cnt_next u us ltac:(lia)) as Hi. rewrite !cnt_app, !cnt_one.
  destruct x; cbn [dbump]; rewrite ?decide_True by done; rewrite ?decide_False by done; rewrite ?Z.add_0_r, ?Hi; by do 2 eexists.
Qed.
Lemma lrun_counts us :
  Z.of_nat (length us) < 2 ^ 63 →
  ∃ lat, foldl lbump (MkLoad 0 0 0 0 0 0 0 0) us = MkLoad (cnt LTotal us) (cnt LGets us) (cnt LUpdates us) (cnt LCreates us) (cnt LErrs us) (cnt LCacheHits us) (cnt LDBHits us) lat.
Proof.
  induction us as [|x us IH] using rev_ind; intros Hl; [by eexists|]. rewrite length_app in Hl. cbn in Hl. destruct (IH ltac:(lia)) as (lat & E). rewrite foldl_app, E. cbn [foldl].
  pose proof (λ u, cnt_next u us ltac:(lia)) as Hi. rewrite !cnt_app, !cnt_one.
  destruct x; cbn [lbump]; rewrite ?decide_True by done; rewrite ?decide_False by done; rewrite ?Z.add_0_r, ?Hi; by eexists.
Qed.

(** The direct benchmark counts the SETs that succeeded: its total is the GETs and those, a GET is a
    hit, a miss or an error, and everything else that was tried is an error. *)
Definition dbalance (us : list dupdate) (n : Z) : Prop :=
  cnt DTotal us = cnt DGets us + cnt DSets us ∧ cnt DHits us + cnt DMiss us ≤ cnt DGets us ∧ cnt DHits us + cnt DMiss us + cnt DSets us + cnt DErrs us = n.
Lemma dbalance_all (its : list diteration) : dbalance (its ≫= dupdates) (Z.of_nat (length its)).
Proof.
  induction its as [|i its (H1 & H2 & H3)]; [done|]. unfold dbalance. cbn [mbind list_bind]. rewrite !cnt_app.
  assert (dbalance (dupdates i) 1) as (X1 & X2 & X3) by (destruct i as [lat [[]|]|lat []]; split_and!; vm_compute; done).
  cbn [length]. split_and!; lia.
Qed.
Theorem direct_adds_up (workers : list (list diteration)) us :
  interleaves ((λ its, its ≫= dupdates) <$> workers) us → Z.of_nat (length us) < 2 ^ 63 →
  let s := foldl dbump (MkDirect 0 0 0 0 0 0 [] []) us in
  dTotal s = dGets s + dSets s ∧ dHits s + dMiss s ≤ dGets s ∧ dHits s + dMiss s + dSets s + dErrs s = Z.of_nat (length (concat workers)).
Proof.
  intros Hp%interleaves_perm Hl s. destruct (drun_counts us Hl) as (gl & sl & E). unfold s. rewrite E. clear s E. cbn [dTotal dGets dSets dErrs dHits dMiss].
  rewrite concat_bind in Hp. destruct (dbalance_all (concat workers)) as (H1 & H2 & H3). rewrite !(cnt_proper _ _ _ Hp). done.
Qed.

(** The load generator: every request is a GET, an update or a creation, and a GET without an error
    came from the cache or from the database. *)
Definition lbalance (us : list lupdate) (n : Z) : Prop :=
  cnt LTotal us = n ∧ cnt LGets us + cnt LUpdates us + cnt LCreates us = n ∧ cnt LCacheHits us + cnt LDBHits us ≤ cnt LGets us ∧
  cnt LGets us ≤ cnt LCacheHits us + cnt LDBHits us + cnt LErrs us.
Lemma lbalance_all (its : list literation) : lbalance (its ≫= lupdates) (Z.of_nat (length its)).
Proof.
  induction its as [|i its (H1 & H2 & H3 & H4)]; [done|]. unfold lbalance. cbn [mbind list_bind]. rewrite !cnt_app.
  assert (lbalance (lupdates i) 1) as (X1 & X2 & X3 & X4).
  { destruct i as [lat [r|]|lat [r|]|lat [r|]]; cbn [lupdates]; repeat case_match; split_and!; vm_compute; done. }
  cbn [length]. split_and!; lia.
Qed.
Theorem load_adds_up (workers : list (list literation)) us :
  interleaves ((λ its, its ≫= lupdates) <$> workers) us → Z.of_nat (length us) < 2 ^ 63 →
  let s := foldl lbump (MkLoad 0 0 0 0 0 0 0 0) us in
  lTotal s = lGets s + lUpdates s + lCreates s ∧ lTotal s = Z.of_nat (length (concat workers)) ∧ lCacheHits s + lDBHits s ≤ lGets s ∧ lGets s ≤ lCacheHits s + lDBHits s + lErrs s.
Proof.
  intros Hp%interleaves_perm Hl s. destruct (lrun_counts us Hl) as (lat & E). unfold s. rewrite E. clear s E. cbn [lTotal lGets lUpdates lCreates lErrs lCacheHits lDBHits].
  rewrite concat_bind in Hp. destruct (lbalance_all (concat workers)) as (H1 & H2 & H3 & H4). rewrite !(cnt_proper _ _ _ Hp). split_and!; lia.
Qed.

(** ** Percentiles *)
Lemma sorted_perm vals vals' : vals ≡ₚ vals' → sorted vals = sorted vals'.
Proof.
  intros Hp. unfold sorted. apply (Sorted_unique Z.le); [apply Sorted_merge_sort; apply _..|]. by rewrite !merge_sort_Permutation.
Qed.
#[export] Instance percentile_proper oob : Proper ((≡ₚ) ==> (=) ==> (=)) (percentile oob).
Proof.
  intros vals vals' Hp p p' <-. unfold percentile. rewrite (sorted_perm _ _ Hp).
  rewrite (bool_decide_ext (vals = []) (vals' = [])); [done|]. split; intros ->; [by apply Permutation_nil_l in Hp|by apply Permutation_nil_r in Hp].
Qed.
Lemma to_int_lt oob x n : fin x → (val x < inject_Z n)%Q → n ≤ 2 ^ 63 → 0 ≤ to_int oob x < n.
Proof.
  intros Hf Hv Hn. pose proof (to_uint64_lt (λ _, 2 ^ 63) x n Hf Hv ltac:(lia)) as H. destruct x as [s|s| |[|] m e]; try done.
  unfold to_uint64 in H. unfold to_int. destruct (Z.ltb_spec (truncate m e) (2 ^ 64)); [|lia]. destruct (Z.ltb_spec (truncate m e) (2 ^ 63)); [done|lia].
Qed.
Lemma rank_below p n : fin p → (val p <= 1)%Q → 0 < n ≤ 2 ^ 40 → fin (fmul p (of_int (n - 1))) ∧ (val (fmul p (of_int (n - 1))) < inject_Z n)%Q.
Proof.
  intros Fp Vp Hn. destruct (of_int_near (n - 1) ltac:(lia)) as (FN & UN & _). pose proof eps_val as Ev. destruct eta_le as [Hn0 Hne]. rewrite Ev in *.
  set (N := val (of_int (n - 1))) in *. assert (inject_Z (n - 1) == inject_Z n - 1)%Q as En by (replace (n - 1) with (n + -1) by lia; rewrite inject_Z_plus; change (inject_Z (-1)) with (-(1))%Q; lra).
  assert (1 <= inject_Z n)%Q as H1 by (change 1%Q with (inject_Z 1); apply inject_le; lia).
  assert (inject_Z n <= 1099511627776 # 1)%Q as H2 by (change (1099511627776 # 1)%Q with (inject_Z 1099511627776); apply inject_le; lia).
  rewrite En in UN. pose proof (val_nonneg p). pose proof (val_nonneg (of_int (n - 1))) as HN. fold N in HN.
  assert (val p * N <= N)%Q as Hle by nra. assert (N <= inject_Z n - (99 # 100))%Q as HN1 by lra.
  destruct (fmul_near p (of_int (n - 1)) Fp FN) as (FR & UR & _).
  { apply P900_big. change (inject_Z (2 ^ 80)) with (1208925819614629174706176 # 1)%Q. fold N. lra. }
  rewrite Ev in UR. fold N in UR. split; [done|]. lra.
Qed.
Lemma index_in l i : 0 ≤ i < Z.of_nat (length l) → ∃ x, index l i = Some x ∧ x ∈ l.
Proof.
  intros Hi. unfold index. destruct (Z.leb_spec 0 i); [|lia]. destruct (Z.ltb_spec i (Z.of_nat (length l))); [|lia]. cbn [andb].
  destruct (lookup_lt_is_Some_2 l (Z.to_nat i) ltac:(lia)) as [x E]. exists x. split; [done|]. by eapply list_elem_of_lookup_2.
Qed.

(** The percentiles of up to 2^40 latencies never index out of range, whatever the samples are,
    and do not depend on their order. *)
Theorem percentile_total oob vals vals' p :
  fin p → (val p <= 1)%Q → Z.of_nat (length vals) ≤ 2 ^ 40 → vals ≡ₚ vals' → ∃ x, percentile oob vals p = Some x ∧ percentile oob vals' p = Some x.
Proof.
  intros Fp Vp Hl Hp. assert (∃ x, percentile oob vals p = Some x) as (x & E); [|exists x; split; [done|]; by rewrite <-(percentile_proper oob _ _ Hp p p eq_refl)].
  unfold percentile. case_bool_decide as Hne; [by eexists|]. set (cp := sorted vals). assert (length cp = length vals) as Hc by (unfold cp, sorted; by rewrite merge_sort_Permutation).
  assert (0 < Z.of_nat (length cp) ≤ 2 ^ 40) as Hn by (destruct vals; [done|]; rewrite Hc; cbn [length] in *; lia). set (n := Z.of_nat (length cp)) in *.
  destruct (rank_below p n Fp Vp Hn) as [FR VR]. pose proof (to_int_lt oob _ n FR VR ltac:(lia)) as Hlo. set (lo := to_int oob _) in *.
  rewrite i64_id by (unfold is_i64; lia). destruct (index_in cp lo Hlo) as (a & -> & _). destruct (Z.leb_spec n (lo + 1)); [by eexists|].
  destruct (index_in cp (lo + 1) ltac:(lia)) as (b & -> & _). by eexists.
Qed.

(** ** Instances *)
Definition demo_workers : list (list iteration) :=
  [[ISet (benchKey 5) 64 30 true [Some (MkResponse 200 ∅ (benchValue (benchKey 5) 64)); Some (MkResponse 404 ∅ (str "not found"))]];
   [IGet (benchKey 5) 7 (Some (MkResponse 200 (hset (str "X-Cache") (str "HIT_REMOTE") ∅) (benchValue (benchKey 5) 64))); IGet (benchKey 6) 9 None]].
(** The second worker runs between the updates of the first. *)
Definition demo_updates : list update :=
  [UTotal; UTotal; UGets; USets; UGetLat 7; UHitRemote; USetLat 30; UTotal; UGets; UWrong; UGetLat 9; UErrs].
Lemma demo_interleaved : interleaves ((λ its, its ≫= updates) <$> demo_workers) demo_updates.
Proof.
  assert (∃ a b, (λ its, its ≫= updates) <$> demo_workers = [a; b] ∧ a = [UTotal; USets; USetLat 30; UWrong] ∧ b = [UTotal; UGets; UGetLat 7; UHitRemote; UTotal; UGets; UGetLat 9; UErrs])
    as (a & b & -> & -> & ->) by by do 2 eexists; split_and!; vm_compute.
  apply (il_step [] UTotal _ [_]). apply (il_step [_] UTotal _ []). apply (il_step [_] UGets _ []). apply (il_step [] USets _ [_]). apply (il_step [_] (UGetLat 7) _ []).
  apply (il_step [_] UHitRemote _ []). apply (il_step [] (USetLat 30) _ [_]). apply (il_step [_] UTotal _ []). apply (il_step [_] UGets _ []). apply (il_step [] UWrong _ [_]).
  apply (il_step [_] (UGetLat 9) _ []). apply (il_step [_] UErrs _ []). apply il_done. by repeat constructor.
Qed.
Lemma summary_adds_up_witness :
  let s := foldl bump zeroStats demo_updates in Total s = 3 ∧ Gets s = 2 ∧ Sets s = 1 ∧ Total s = Gets s + Sets s ∧ close (hitRatio s) (inject_Z 1 / inject_Z 2).
Proof.
  destruct (summary_adds_up demo_workers demo_updates demo_interleaved ltac:(by vm_compute)) as (_ & _ & _ & H & _ & _ & _ & Hr).
  split_and!; [by vm_compute|by vm_compute|by vm_compute|exact H|exact (Hr ltac:(by vm_compute))].
Defined.
Lemma prefix_check_exact_witness : wrong (benchKey 5) (benchValue (benchKey 5) 9) = false ∧ wrong (benchKey 5) (benchValue (benchKey 6) 9) = true.
Proof.
  split; [apply (prefix_check_exact (benchKey 5) (benchKey 5) 9); [by apply benchKey_no_colon|by apply benchKey_no_colon|done]|].
  destruct (wrong (benchKey 5) (benchValue (benchKey 6) 9)) eqn:E; [done|]. exfalso.
  apply (prefix_check_exact (benchKey 5) (benchKey 6) 9) in E; [by vm_compute in E|by apply benchKey_no_colon..].
Defined.
Lemma percentile_total_witness : ∃ x, percentile (λ _, 0) [30; 10; 20; 40] (const 95 100) = Some x ∧ percentile (λ _, 0) [10; 20; 30; 40] (const 95 100) = Some x.
Proof.
  apply percentile_total; [by vm_compute|by vm_compute|by vm_compute|]. solve_Permutation.
Defined.

(** A miss is counted as a wrong value by the check after a SET: it does not look at the status. *)
Theorem miss_counts_as_wrong key : check_updates key (Some (MkResponse 404 ∅ (str "not found" ++ [10]))) = [UWrong].
Proof. done. Qed.
End Runner.
