(* ===== verification/UserApi.v ===== *)
(** * The user API ([src/_examples/clustered_api/userapi/main.go])

    A web service in front of a slow database: reads go through the distributed cache and load on
    a miss, writes go to the database and then to the cache.  The handlers are over the class
    [Shared], what the service uses of its cluster node; [SharedLaws] is what it relies on, and a
    node that is alone in its cluster satisfies it.  The JSON codec is a parameter, the waits of
    the mock database are not modelled. *)
From Stdlib Require Import ZArith Lia String.
From stdpp Require Import base numbers list gmap sets.
From S2P Require Import Prelude Hash PatternIndex Http Admission Shard Eviction Cache CacheInv CacheSpec CacheTheorems CacheIface KeyCodec Lease Node NodeTheorems Client Load Config Env BenchNode Runner.
Local Open Scope Z_scope.

Module UserApi.
Import PatternIndex Http.
Abbreviation Error := BenchNode.Error.
Abbreviation NotFound := BenchNode.NotFound.
Abbreviation respond := BenchNode.respond.
Abbreviation redirect := BenchNode.redirect.

Record User := MkUser { uID : bytes; Name : bytes; Email : bytes }.

(** ** The mock database *)
Abbreviation mockDB := (gmap bytes User).
Definition GetUser (db : mockDB) (id : bytes) : option User := db !! id.
Definition GetUsers (o : rangeOrder) (db : mockDB) : list User := range o (map_to_list db).*2.
(** [now] is the clock that names a user without an id. *)
Definition CreateUser (now : Z) (u : User) (db : mockDB) : mockDB * User :=
  let u := if bool_decide (uID u = []) then MkUser (Runner.decimal now) (Name u) (Email u) else u in
  (<[uID u := u]> db, u).
Definition UpdateUser (id : bytes) (u : User) (db : mockDB) : mockDB * option User :=
  match db !! id with
  | None => (db, None)
  | Some _ => let u := MkUser id (Name u) (Email u) in (<[id := u]> db, Some u)
  end.
(** The users the program starts with. *)
Definition seedUser (i : Z) : User :=
  MkUser (str "u" ++ Runner.padded 3 i) (str "User " ++ Runner.padded 3 i) (str "user" ++ Runner.padded 3 i ++ str "@example.com").
Definition seedDB (n : nat) : mockDB := list_to_map ((λ i, let u := seedUser (Z.of_nat i) in (uID u, u)) <$> seq 0 n).

(** ** The node, as the service sees it *)
Class Shared (S : Type) := {
  dcGet : S → bytes → Z → S * option bytes;
  nodeGet : S → bytes → Z → S * option bytes;   (* [err == nil && found] *)
  (** The result of the loader is given; it is used if the key is not there.  An error is its text. *)
  getOrLoad : S → bytes → Z → (bytes * Z) + bytes → S * (bytes + bytes);
  dcSet : S → bytes → bytes → Z → Z → S;
  dcDelete : S → bytes → S;
  stored : S → bytes → option bytes }.

Section Handlers.
Context {S : Type} `{!Shared S} (userJSON : User → bytes) (usersJSON : list User → bytes) (decodeIn : bytes → (bytes * bytes) + bytes).
Implicit Types (db : mockDB) (s : S) (now : Z).

Definition userKey (id : bytes) : bytes := str "user:" ++ id.
Definition allKey : bytes := str "users:all".
Definition notFound : bytes := str "not found".
Definition loadUser db (id : bytes) : (bytes * Z) + bytes :=
  match GetUser db id with Some u => inl (userJSON u, 2 * Config.Minute) | None => inr notFound end.
Definition loadUsers (o : rangeOrder) db : (bytes * Z) + bytes := inl (usersJSON (GetUsers o db), 1 * Config.Minute).
(** [node.Loader], for loads that other nodes ask for. *)
Definition Loader (o : rangeOrder) db (k : bytes) : (bytes * Z) + bytes :=
  if hasPrefix (str "user:") k then loadUser db (trimPrefix (str "user:") k)
  else if bool_decide (k = allKey) then loadUsers o db
  else inr (str "no loader for key").

Definition served (source body : bytes) : list action := [HeaderSet (str "X-Source") source; WriteHeader 200; Write body].

(** Through the cache: a local hit, a remote one, or a load; [fallback] when the load fails. *)
Definition through (key : bytes) (load : (bytes * Z) + bytes) (fallback : bytes → list action) now s : S * list action :=
  let '(s, v) := dcGet s key now in
  match v with
  | Some v => (s, served (str "cache") v)
  | None =>
      let '(s, v) := nodeGet s key now in
      match v with
      | Some v => (s, served (str "remote-cache") v)
      | None =>
          let '(s, r) := getOrLoad s key now load in
          match r with inl b => (s, served (str "owner-routed") b) | inr err => (s, fallback err) end
      end
  end.

(** GET /users/{id}. *)
Definition handleUser (method path : bytes) db now s : S * list action :=
  if negb (bool_decide (method = str "GET")) then (s, NotFound)
  else
    let id := trimPrefix (str "/users/") path in
    if bool_decide (id = []) then (s, NotFound)
    else through (userKey id) (loadUser db (trimPrefix (str "user:") (userKey id)))
           (λ err, if contains notFound (toLower err) then Error notFound 404
                   else match GetUser db id with
                        | None => Error notFound 404
                        | Some u => served (str "db-fallback") (userJSON u)
                        end) now s.
(** GET /users; the fallback reads the database again, in whatever order. *)
Definition handleUsers (method : bytes) (o o' : rangeOrder) db now s : S * list action :=
  if negb (bool_decide (method = str "GET")) then (s, NotFound)
  else through allKey (loadUsers o db) (λ _, served (str "db-fallback") (usersJSON (GetUsers o' db))) now s.

Definition writeJSON (status : Z) (body : bytes) : list action :=
  [HeaderSet (str "Content-Type") (str "application/json"); WriteHeader status; Write (body ++ [10])].
(** The writes that follow a change of the database. *)
Definition refresh (u : User) now s : S := dcDelete (dcSet s (userKey (uID u)) (userJSON u) (2 * Config.Minute) now) allKey.

(** POST /users/create. *)
Definition handleCreate (method body : bytes) (clock now : Z) db s : mockDB * S * list action :=
  if negb (bool_decide (method = str "POST")) then (db, s, NotFound)
  else match decodeIn body with
       | inr err => (db, s, Error err 400)
       | inl (name, email) =>
           let '(db, u) := CreateUser clock (MkUser [] name email) db in
           (db, refresh u now s, writeJSON 201 (userJSON u))
       end.
(** PUT /users/update/{id}. *)
Definition handleUpdate (method path body : bytes) now db s : mockDB * S * list action :=
  if negb (bool_decide (method = str "PUT")) then (db, s, NotFound)
  else
    let id := trimPrefix (str "/users/update/") path in
    if bool_decide (id = []) then (db, s, NotFound)
    else match decodeIn body with
         | inr err => (db, s, Error err 400)
         | inl (name, email) =>
             let '(db, u) := UpdateUser id (MkUser [] name email) db in
             match u with
             | None => (db, s, Error notFound 404)
             | Some u => (db, refresh u now s, writeJSON 200 (userJSON u))
             end
         end.

(** The [ServeMux] on a clean path without a query: the longest matching pattern. *)
Record apiReq := MkApi { aMethod : bytes; aPath : bytes; aBody : bytes; aClock : Z; aNow : Z; aOrder : rangeOrder; aOrder' : rangeOrder }.
Definition handle (r : apiReq) (db : mockDB) s : mockDB * S * list action :=
  if bool_decide (aPath r = str "/users/update") then (db, s, redirect (aMethod r) (str "/users/update/") [])
  else if hasPrefix (str "/users/update/") (aPath r) then handleUpdate (aMethod r) (aPath r) (aBody r) (aNow r) db s
  else if bool_decide (aPath r = str "/users/create") then handleCreate (aMethod r) (aBody r) (aClock r) (aNow r) db s
  else if hasPrefix (str "/users/") (aPath r) then let '(s, acts) := handleUser (aMethod r) (aPath r) db (aNow r) s in (db, s, acts)
  else if bool_decide (aPath r = str "/users") then let '(s, acts) := handleUsers (aMethod r) (aOrder r) (aOrder' r) db (aNow r) s in (db, s, acts)
  else (db, s, NotFound).
Fixpoint serve (rs : list apiReq) (db : mockDB) s : mockDB * S * list (list action) :=
  match rs with
  | [] => (db, s, [])
  | r :: rs => let '(db, s, a) := handle r db s in let '(db, s, l) := serve rs db s in (db, s, a :: l)
  end.
End Handlers.

(** ** What the service relies on *)
Class SharedLaws (S : Type) `{!Shared S} := {
  (** [ready n s]: the node can take [n] more calls. *)
  ready : nat → S → Prop;
  (** Nothing appears in the cache by reading. *)
  law_dcGet n s k now : ready (Datatypes.S n) s →
    ready n (dcGet s k now).1 ∧ (∀ k' v, stored (dcGet s k now).1 k' = Some v → stored s k' = Some v) ∧ ∀ v, (dcGet s k now).2 = Some v → stored s k = Some v;
  law_nodeGet n s k now : ready (Datatypes.S n) s →
    ready n (nodeGet s k now).1 ∧ (∀ k' v, stored (nodeGet s k now).1 k' = Some v → stored s k' = Some v) ∧ ∀ v, (nodeGet s k now).2 = Some v → stored s k = Some v;
  (** A load stores and returns what is there or what was loaded; an error is that of the loader, or
      one of the cluster, which does not say that something was not found. *)
  law_getOrLoad n s k now l : ready (Datatypes.S n) s →
    ready n (getOrLoad s k now l).1 ∧
    (∀ k' v, stored (getOrLoad s k now l).1 k' = Some v → stored s k' = Some v ∨ k' = k ∧ ∃ ttl, l = inl (v, ttl)) ∧
    match (getOrLoad s k now l).2 with inl v => stored s k = Some v ∨ ∃ ttl, l = inl (v, ttl) | inr err => l = inr err ∨ contains notFound (toLower err) = false end;
  (** A write leaves no older value under its key. *)
  law_dcSet n s k v ttl now : ready (Datatypes.S n) s →
    ready n (dcSet s k v ttl now) ∧ ∀ k' v', stored (dcSet s k v ttl now) k' = Some v' → k' = k ∧ v' = v ∨ k' ≠ k ∧ stored s k' = Some v';
  law_dcDelete n s k : ready (Datatypes.S n) s →
    ready n (dcDelete s k) ∧ ∀ k' v, stored (dcDelete s k) k' = Some v → k' ≠ k ∧ stored s k' = Some v;
  ready_le n m s : (m ≤ n)%nat → ready n s → ready m s }.

Section Coherence.
Context {S : Type} `{!Shared S, !SharedLaws S} (userJSON : User → bytes) (usersJSON : list User → bytes) (decodeIn : bytes → (bytes * bytes) + bytes).
Implicit Types (db : mockDB) (s : S) (now : Z) (id : bytes).
Abbreviation handle := (handle userJSON usersJSON decodeIn).
Abbreviation serve := (serve userJSON usersJSON decodeIn).

(** The cache holds what the database does. *)
Record coherent (n : nat) db s : Prop := {
  co_ready : ready n s;
  co_ids id u : db !! id = Some u → uID u = id;
  co_user id b : stored s (userKey id) = Some b → ∃ u, db !! id = Some u ∧ b = userJSON u;
  co_all b : stored s allKey = Some b → ∃ l, l ≡ₚ (map_to_list db).*2 ∧ b = usersJSON l }.
(** A body that shows the present state of the database. *)
Definition current_user db id (b : bytes) : Prop := ∃ u, db !! id = Some u ∧ b = userJSON u.
Definition current_list db (b : bytes) : Prop := ∃ l, l ≡ₚ (map_to_list db).*2 ∧ b = usersJSON l.

Lemma userKey_inj id id' : userKey id = userKey id' → id = id'.
Proof. unfold userKey. apply app_inv_head. Qed.
Lemma userKey_not_all id : userKey id ≠ allKey.
Proof. intros E. apply (f_equal (lookup 4%nat)) in E. vm_compute in E. done. Qed.
Lemma hasPrefix_app p t : hasPrefix p (p ++ t) = true.
Proof. apply Runner.hasPrefix_spec. by exists t. Qed.
Lemma trim_userKey id : trimPrefix (str "user:") (userKey id) = id.
Proof. unfold trimPrefix, userKey. rewrite hasPrefix_app. apply drop_app_length. Qed.

(** Fewer entries are as coherent. *)
Lemma coherent_sub n m db s s' : coherent n db s → ready m s' → (∀ k v, stored s' k = Some v → stored s k = Some v) → coherent m db s'.
Proof. intros [_ H1 H2 H3] Hr Hs. split; [done|done|intros id b ?%Hs; by apply H2|intros b ?%Hs; by apply H3]. Qed.

(** What a read answers, if it answers. *)
Definition answers (P : bytes → Prop) (acts : list action) : Prop := ∃ src b, acts = served src b ∧ P b.
Lemma through_coherent n db s key l fb now s' acts (P : bytes → Prop) :
  coherent (3 + n) db s → through key l fb now s = (s', acts) →
  (∀ v, stored s key = Some v → P v) → (∀ v ttl, l = inl (v, ttl) → P v) →
  (∀ s1, ready n s1 → (∀ k v, stored s1 k = Some v → stored s k = Some v ∨ k = key ∧ ∃ ttl, l = inl (v, ttl)) → coherent n db s1) →
  coherent n db s' ∧ (answers P acts ∨ ∃ err, (l = inr err ∨ contains notFound (toLower err) = false) ∧ acts = fb err).
Proof.
  intros Hc E Hs Hl Hco. unfold through in E. destruct (law_dcGet (2 + n) s key now (co_ready _ _ _ Hc)) as (A0 & A1 & A2). destruct (dcGet s key now) as [s1 [v|]]; cbn [fst snd] in *.
  { injection E as <- <-. split; [eapply coherent_sub; [exact Hc|eapply ready_le; [|exact A0]; lia|done]|]. left. eexists _, _. split; [done|]. by apply Hs, A2. }
  destruct (law_nodeGet (1 + n) s1 key now A0) as (B0 & B1 & B2). destruct (nodeGet s1 key now) as [s2 [v|]]; cbn [fst snd] in *.
  { injection E as <- <-. split; [eapply coherent_sub; [exact Hc|eapply ready_le; [|exact B0]; lia|]; auto|]. left. eexists _, _. split; [done|]. by apply Hs, A1, B2. }
  destruct (law_getOrLoad n s2 key now l B0) as (C0 & C1 & C2). destruct (getOrLoad s2 key now l) as [s3 r]; cbn [fst snd] in *.
  assert (coherent n db s3) as Hc3. { apply Hco; [done|]. intros k v [Hk|?]%C1; [left; auto|by right]. }
  destruct r as [b|err]; injection E as <- <-; (split; [done|]); [left|right; by exists err].
  eexists _, _. split; [done|]. destruct C2 as [C2|[ttl C2]]; [apply Hs; auto|by eapply Hl].
Qed.

(** What the answer to a request says about the database. *)
Definition truthful (r : apiReq) db (acts : list action) : Prop :=
  let id := trimPrefix (str "/users/") (aPath r) in
  if negb (bool_decide (aMethod r = str "GET")) then True
  else if bool_decide (aPath r = str "/users") then answers (current_list db) acts
  else if hasPrefix (str "/users/") (aPath r) && negb (bool_decide (aPath r = str "/users/create")) && negb (bool_decide (aPath r = str "/users/update")) &&
          negb (hasPrefix (str "/users/update/") (aPath r)) && negb (bool_decide (id = [])) then
    answers (current_user db id) acts ∨ acts = Error notFound 404 ∧ db !! id = None
  else True.

Lemma handleUser_coherent n path db now s s' acts :
  coherent (3 + n) db s → handleUser userJSON (str "GET") path db now s = (s', acts) →
  let id := trimPrefix (str "/users/") path in
  coherent n db s' ∧ (id ≠ [] → answers (current_user db id) acts ∨ acts = Error notFound 404 ∧ db !! id = None).
Proof.
  intros Hc E id. unfold handleUser in E. rewrite bool_decide_eq_true_2 in E by done. cbn [negb] in E. fold id in E. case_bool_decide as Hid; [injection E as <- <-; split; [|done]; eapply coherent_sub; [exact Hc| |done]; eapply ready_le; [|apply Hc]; lia|].
  rewrite trim_userKey in E. destruct (through_coherent n db s _ _ _ now s' acts (current_user db id) Hc E) as [Hc' Ha].
  - intros v Hv. by apply (co_user _ _ _ Hc).
  - intros v ttl. unfold loadUser, GetUser. destruct (db !! id) as [u|] eqn:Eu; [|done]. intros [= <- _]. by exists u.
  - intros s1 Hr1 Hs1. destruct Hc as [_ H1 H2 H3]. split; [done|done| |].
    + intros id' b [?|[Hk%userKey_inj (ttl & El)]]%Hs1; [by apply H2|]. subst id'. unfold loadUser, GetUser in El. destruct (db !! id) as [u|] eqn:Eu; [|done]. injection El as <- _. by exists u.
    + intros b [?|[Hk _]]%Hs1; [by apply H3|]. symmetry in Hk. by apply userKey_not_all in Hk.
  - split; [done|]. intros _. destruct Ha as [?|(err & Herr & ->)]; [by left|]. destruct (contains notFound (toLower err)) eqn:Ec.
    + right. split; [done|]. destruct Herr as [Herr|?]; [|done]. unfold loadUser, GetUser in Herr. by destruct (db !! id).
    + unfold GetUser. destruct (db !! id) as [u|] eqn:Eu; [left|by right]. eexists _, _. split; [done|]. by exists u.
Qed.
Lemma handleUsers_coherent n o o' db now s s' acts :
  coherent (3 + n) db s → handleUsers usersJSON (str "GET") o o' db now s = (s', acts) → coherent n db s' ∧ answers (current_list db) acts.
Proof.
  intros Hc E. unfold handleUsers in E. rewrite bool_decide_eq_true_2 in E by done. cbn [negb] in E.
  assert (∀ o, current_list db (usersJSON (GetUsers o db))) as Hl by (intros o1; eexists; split; [apply range_perm|done]).
  destruct (through_coherent n db s _ _ _ now s' acts (current_list db) Hc E) as [Hc' Ha].
  - intros v Hv. by apply (co_all _ _ _ Hc).
  - intros v ttl [= <- _]. apply Hl.
  - intros s1 Hr1 Hs1. destruct Hc as [_ H1 H2 H3]. split; [done|done| |].
    + intros id' b [?|[Hk _]]%Hs1; [by apply H2|]. by apply userKey_not_all in Hk.
    + intros b [?|[_ (ttl & El)]]%Hs1; [by apply H3|]. injection El as <- _. apply Hl.
  - split; [done|]. destruct Ha as [?|(err & _ & ->)]; [done|]. eexists _, _. split; [done|]. apply Hl.
Qed.

Lemma refresh_coherent n db s u now : coherent (3 + n) db s → coherent n (<[uID u := u]> db) (refresh userJSON u now s).
Proof.
  intros [H0 H1 H2 H3]. unfold refresh. destruct (law_dcSet (2 + n) s (userKey (uID u)) (userJSON u) (2 * Config.Minute) now H0) as [A0 A1].
  destruct (law_dcDelete (1 + n) _ allKey A0) as [B0 B1]. split; [eapply ready_le; [|exact B0]; lia| | |].
  - intros id u' [[<- <-]|[_ Hu]]%lookup_insert_Some; [done|by apply H1].
  - intros id b [_ [[Hk%userKey_inj ->]|[Hne Hb]]%A1]%B1; [subst id; exists u; by rewrite lookup_insert_eq|].
    destruct (H2 id b Hb) as (u' & Hu & ->). exists u'. rewrite lookup_insert_ne; [done|]. intros <-. done.
  - intros b [? _]%B1. done.
Qed.
Lemma coherent_le n m db s : (m ≤ n)%nat → coherent n db s → coherent m db s.
Proof. intros Hle Hc. eapply coherent_sub; [exact Hc| |done]. eapply ready_le; [exact Hle|apply Hc]. Qed.
Lemma handle_coherent n (r : apiReq) db s db' s' acts : coherent (3 + n) db s → handle r db s = (db', s', acts) → coherent n db' s' ∧ truthful r db' acts.
Proof.
  intros Hc. assert (coherent n db s) as Hn by (eapply coherent_le; [|exact Hc]; lia). unfold UserApi.handle, truthful. case_bool_decide as E1.
  { intros [= <- <- <-]. split; [done|]. rewrite E1. by repeat case_match. }
  destruct (hasPrefix (str "/users/update/") (aPath r)) eqn:E2.
  { assert (aPath r ≠ str "/users") as Hne by (intros Ep; rewrite Ep in E2; done). intros E. split; [|destruct (negb _); [done|]; rewrite (bool_decide_eq_false_2 _ Hne); rewrite !andb_false_r; cbn; by rewrite ?andb_false_r].
    unfold handleUpdate in E. destruct (negb _); [by injection E as <- <- _|]. case_bool_decide; [by injection E as <- <- _|]. destruct (decodeIn (aBody r)) as [[name email]|]; [|by injection E as <- <- _].
    unfold UpdateUser in E. destruct (db !! _) as [u0|]; [|by injection E as <- <- _]. injection E as <- <- _. exact (refresh_coherent n db s (MkUser _ name email) _ Hc). }
  case_bool_decide as E3.
  { intros E. split; [|rewrite E3; by repeat case_match]. unfold handleCreate in E. destruct (negb _); [by injection E as <- <- _|]. destruct (decodeIn (aBody r)) as [[name email]|]; [|by injection E as <- <- _].
    destruct (CreateUser (aClock r) (MkUser [] name email) db) as [db1 u] eqn:Ecr. injection E as <- <- _. unfold CreateUser in Ecr. injection Ecr as <- <-. by apply refresh_coherent. }
  destruct (hasPrefix (str "/users/") (aPath r)) eqn:E4.
  { destruct (handleUser _ _ _ _ _ _) as [s1 a1] eqn:E. intros [= <- <- <-]. assert (aPath r ≠ str "/users") as Hne by (intros Ep; rewrite Ep in E4; done).
    destruct (bool_decide_reflect (aMethod r = str "GET")) as [Em|Em].
    - rewrite Em in E. destruct (handleUser_coherent n _ _ _ _ _ _ Hc E) as [Hc' Ha]. split; [done|]. cbn [negb]. rewrite (bool_decide_eq_false_2 _ Hne). cbn [andb negb]. case_bool_decide; [done|by apply Ha].
    - cbn [negb]. unfold handleUser in E. rewrite bool_decide_eq_false_2 in E by done. by injection E as <- <-. }
  case_bool_decide as E5.
  - destruct (handleUsers _ _ _ _ _ _ _) as [s1 a1] eqn:E. intros [= <- <- <-]. destruct (bool_decide_reflect (aMethod r = str "GET")) as [Em|Em].
    + rewrite Em in E. destruct (handleUsers_coherent n _ _ _ _ _ _ _ Hc E) as [Hc' Ha]. split; [done|]. done.
    + cbn [negb]. unfold handleUsers in E. rewrite bool_decide_eq_false_2 in E by done. by injection E as <- <-.
  - intros [= <- <- <-]. split; [done|]. by destruct (negb _).
Qed.

Lemma seed_coherent bud n s : ready bud s → (∀ k, stored s k = None) → coherent bud (seedDB n) s.
Proof.
  intros Hr Hs. split; [done| |intros id b; by rewrite Hs|intros b; by rewrite Hs]. intros id u Hu. unfold seedDB in Hu. apply elem_of_list_to_map_2, list_elem_of_fmap in Hu as (i & [= -> ->] & _). done.
Qed.

End Coherence.

(** ** A node alone in its cluster

    Its adapter is its local cache ([Adapter.alone_is_the_cache]); a load reads, and stores what
    the loader brings. *)
Section Lone.
Context {C : Type} `{Ops : !CacheOps C bytes bytes, Laws : !CacheLaws C bytes bytes}.
Definition lone_load (c : C) (k : bytes) (now : Z) (l : (bytes * Z) + bytes) : C * (bytes + bytes) :=
  let '(c, v) := cget c k now now in
  match v, l with
  | Some v, _ => (c, inl v)
  | None, inl (v, ttl) => ((cset c k v ttl (Node.e_rt (NodeTheorems.at_time now))).1, inl v)
  | None, inr err => (c, inr err)
  end.
#[export] Instance lone_shared : Shared C := {
  dcGet c k now := cget c k now now;
  nodeGet c k now := cget c k now now;
  getOrLoad := lone_load;
  dcSet c k v ttl now := (cset c k v ttl (Node.e_rt (NodeTheorems.at_time now))).1;
  dcDelete c k := (cdelete c k).1;
  stored c k := fst <$> cfind c k }.

Lemma alive_some {V} now (r : option (V * Z)) p : alive_at now r = Some p → r = Some p.
Proof. destruct r as [[v e]|]; cbn; [|done]. by case_decide. Qed.
Lemma cget_kept n (c : C) k now :
  wf (Datatypes.S n) c → wf n (cget c k now now).1 ∧ (∀ k' v, fst <$> cfind (cget c k now now).1 k' = Some v → fst <$> cfind c k' = Some v) ∧
  ∀ v, (cget c k now now).2 = Some v → fst <$> cfind c k = Some v.
Proof.
  intros Hw. destruct (law_get n c k now now Hw ltac:(lia)) as (Hw' & _ & Hr & Hf). split_and!; [done| |].
  - intros k' v. rewrite Hf. case_decide as Ek; [|done]. subst k'. intros (p & Hp%alive_some & ->)%fmap_Some_1. by rewrite Hp.
  - intros v. rewrite Hr. intros (p & Hp%alive_some & ->)%fmap_Some_1. by rewrite Hp.
Qed.
Lemma cset_kept n (c : C) k v ttl rt :
  wf n c → wf n (cset c k v ttl rt).1 ∧ ∀ k' v', fst <$> cfind (cset c k v ttl rt).1 k' = Some v' → k' = k ∧ v' = v ∨ k' ≠ k ∧ fst <$> cfind c k' = Some v'.
Proof.
  intros Hw. destruct (law_set n c k v ttl rt Hw) as (Hw' & _ & _ & Hk & Ho). split; [done|]. intros k' v'. destruct (decide (k' = k)) as [->|Hne].
  - destruct Hk as [->|(_ & _ & ->)]; [|done]. intros [= <-]. by left.
  - destruct (Ho k' Hne) as [->| ->]; [|done]. by right.
Qed.
Lemma lone_load_kept n (c : C) k now l :
  wf (Datatypes.S n) c → wf n (lone_load c k now l).1 ∧
  (∀ k' v, fst <$> cfind (lone_load c k now l).1 k' = Some v → fst <$> cfind c k' = Some v ∨ k' = k ∧ ∃ ttl, l = inl (v, ttl)) ∧
  match (lone_load c k now l).2 with inl v => fst <$> cfind c k = Some v ∨ ∃ ttl, l = inl (v, ttl) | inr err => l = inr err ∨ contains notFound (toLower err) = false end.
Proof.
  intros Hw. destruct (cget_kept n c k now Hw) as (Hw1 & Hs1 & Hr1). unfold lone_load. destruct (cget c k now now) as [c1 [v|]]; cbn [fst snd] in *; [by auto 6|].
  destruct l as [[v ttl]|err]; cbn [fst snd]; [|by auto 6]. destruct (cset_kept n c1 k v ttl (Node.e_rt (NodeTheorems.at_time now)) Hw1) as [Hw2 Hs2]. split_and!; [done| |by eauto].
  intros k' v' [[-> ->]|[_ Hv]]%Hs2; eauto.
Qed.
#[export] Instance lone_laws : SharedLaws C.
Proof.
  refine {| ready := wf |}; cbn [dcGet nodeGet getOrLoad dcSet dcDelete stored lone_shared].
  - intros n c k now. apply cget_kept.
  - intros n c k now. apply cget_kept.
  - intros n c k now l. apply lone_load_kept.
  - intros n c k v ttl now Hw. apply cset_kept. eapply wf_le; [|exact Hw]. lia.
  - intros n c k Hw. assert (wf n c) as Hn by (eapply wf_le; [|exact Hw]; lia). destruct (law_delete n c k Hn) as (Hw' & _ & _ & Hf). split; [done|].
    intros k' v. rewrite Hf. case_decide; [done|]. by auto.
  - intros n m c. apply wf_le.
Defined.
End Lone.

(** ** Instances *)
Definition demo_user (u : User) : bytes := uID u ++ [44] ++ Name u.
Definition demo_users (l : list User) : bytes := concat ((λ u, demo_user u ++ [59]) <$> l).
Definition demo_body (b : bytes) : (bytes * bytes) + bytes := inl (b, []).
Definition demo_request (method path body : bytes) (now : Z) : apiReq := MkApi method path body now now inOrder inOrder.
Definition demo_cache : InMemoryCache bytes bytes := Node.local NodeTheorems.demo_node.
Lemma demo_cache_wf : wf 9 demo_cache.
Proof.
  apply cache_reachable_wf; [|done|cbn; lia]. exists 4, (Admission.clock_at 0), (small LRU), []. split; [apply demo_valid|].
  split; [constructor|]. split; [cbn; lia|done].
Qed.
Definition demo_before : list apiReq :=
  [demo_request (str "GET") (str "/users/u001") [] 1; demo_request (str "PUT") (str "/users/update/u001") (str "Ann") 2].
Definition demo_last : apiReq := demo_request (str "GET") (str "/users/u001") [] 3.
Definition demo_served := serve demo_user demo_users demo_body demo_before (seedDB 3) demo_cache.
Definition demo_answer := handle demo_user demo_users demo_body demo_last demo_served.1.1 demo_served.1.2.


(** ** A load that an update overtakes *)
Import Lease Client Load NodeTheorems.
Definition race_db : mockDB := seedDB 3.
Definition race_key : bytes := userKey (str "u001").
Definition race_loader : Load.input (V := bytes) :=
  Load.MkInput (at_time 2) (match loadUser demo_user race_db (str "u001") with inl l => inl l | inr _ => inr (Lease.OtherErr 0) end) None None.
(** A reader misses and reads the database; before the load stores what it read, an update changes
    the database and sets the key.  The load then stores the old user over the new one, with a
    newer version, and the cache serves it. *)
Theorem load_undoes_update :
  ∃ s1 owners, Load.grun demo_keys no_gzip [race_loader; race_loader; race_loader] race_key Load.GStart Load.fresh_shared = Some (s1, Load.GLead owners, []) ∧
  ∃ db' u', UpdateUser (str "u001") (MkUser [] (str "Ann") []) race_db = (db', Some u') ∧
  let s2 := Load.put_nd (Client.Set_ (at_time 3) race_key (demo_user u') (2 * Config.Minute) (Load.nd s1)).1 s1 in
  (fst <$> cfind (Node.local (Load.nd s2)) race_key) = Some (demo_user u') ∧
  ∃ s3 w, Load.grun demo_keys no_gzip [race_loader; race_loader; race_loader; race_loader] race_key (Load.GLead owners) s2 = Some (s3, Load.GDone (inl (demo_user (seedUser 1))), [w]) ∧
  (fst <$> cfind (Node.local (Load.nd s3)) race_key) = Some (demo_user (seedUser 1)) ∧ demo_user (seedUser 1) ≠ demo_user u'.
Proof.
  eexists _, _. split; [vm_compute; reflexivity|]. eexists _, _. split; [vm_compute; reflexivity|]. split; [vm_compute; reflexivity|].
  eexists _, _. split; [vm_compute; reflexivity|]. split; [vm_compute; reflexivity|]. vm_compute. discriminate.
Qed.
End UserApi.
