(* ===== verification/MiddlewareApp.v ===== *)
(** * The middleware example ([src/_examples/middleware/main.go])

    A server whose endpoints are behind five cache middlewares, with pages that show their
    statistics and clear them.  The JSON encoder and the time formats are parameters; the pauses
    and the printed texts are not modelled. *)
From Stdlib Require Import ZArith Lia String.
From stdpp Require Import base numbers list gmap sets.
From S2P Require Import Prelude Hash PatternIndex Http Admission Shard Eviction Cache CacheInv CacheSpec CacheTheorems CacheIface Middleware MiddlewareTheorems Lifecycle Config BenchNode Runner.
Local Open Scope Z_scope.

Module MiddlewareApp.
Import PatternIndex Http Middleware MiddlewareTheorems.

(** ** What the endpoints encode *)
Record User := MkUser { ID : bytes; Name : bytes; Email : bytes }.
(** A price is its digits and how many of them are decimals. *)
Record Product := MkProduct { pid : Z; pname : bytes; price : Z * nat; category : bytes }.
Inductive Data := Nothing | Users (l : list User) | OneUser (u : User) | Products (l : list Product) | Strings (l : list bytes) | Pairs (l : list (bytes * bytes)).
Inductive json :=
  | APIResponse (message : bytes) (timestamp : Z) (data : Data)
  | ContentJSON (type_ ttl : bytes) (time : Z)
  | LargeJSON (size description : bytes) (timestamp : Z) (data : list Z)
  | StatsJSON (l : list (bytes * Stats)).
Definition users : list User := [
  MkUser (str "1") (str "Alina Malina") (str "alice@example.com");
  MkUser (str "2") (str "Bob Knob") (str "bob@example.com");
  MkUser (str "3") (str "Charlie Sterone") (str "charlie@example.com")].
Definition products : list Product := [
  MkProduct 1 (str "Laptop Super Pro") (129999, 2%nat) (str "Electronics");
  MkProduct 2 (str "Wireless Flying Board") (2999, 2%nat) (str "Electronics");
  MkProduct 3 (str "Coffee Machine But for Tea") (1299, 2%nat) (str "Kitchen")].

Section App.
Context {C : Type} `{Ops : CacheOps C bytes CachedResponse, St : CacheStats C}.
Context (md5hex : bytes → bytes) (formatRFC3339 formatDuration formatClock : Z → bytes) (parseRFC1123 : bytes → option Z) (encode : json → bytes).
Abbreviation middleware := (@HTTPCacheMiddleware C).

(** ** The middlewares *)
Record app := MkApp { basic : middleware; api : middleware; user : middleware; content : middleware; conditional : middleware }.
Definition with_ttl (ttl : Z) (c : MiddlewareConfig) : MiddlewareConfig :=
  MkMConfig (MMaxSize c) (MShardCount c) (MCleanupInterval c) ttl (MEvictionPolicy c) (MAdmissionResetInterval c) (MStatsEnabled c)
    (CacheableMethods c) (CacheableStatus c) (IgnoreHeaders c) (MaxBodySize c) (HitHeader c) (MissHeader c).
Definition apiConfig : MiddlewareConfig :=
  let c := DefaultMiddlewareConfig in
  MkMConfig 50000 32 (MCleanupInterval c) (5 * minute) (MEvictionPolicy c) (MAdmissionResetInterval c) (MStatsEnabled c)
    (CacheableMethods c) (CacheableStatus c) (IgnoreHeaders c) (5 * 1024 * 1024) (HitHeader c) (MissHeader c).
Definition contentRules : gmap bytes Z :=
  <[str "application/json" := 5 * minute]> (<[str "text/html" := 10 * minute]> {[str "image/" := 60 * minute]}).
Definition newApp (newCache : Config → C) (o : rangeOrder) : app :=
  let new := NewHTTPCacheMiddleware md5hex parseRFC1123 newCache in
  {| basic := setCallbacks true true false (new (with_ttl (2 * minute) DefaultMiddlewareConfig));
     api := setCallbacks true false false (new apiConfig);
     user := setCallbacks true false false (SetKeyGenerator (KeyWithUserID md5hex (str "X-User-ID")) (new (with_ttl (10 * minute) DefaultMiddlewareConfig)));
     content := SetCachePolicy (CacheByContentType o contentRules (2 * minute)) (new DefaultMiddlewareConfig);
     conditional := SetCachePolicy (CacheBySize 100 (1024 * 1024) (3 * minute)) (new DefaultMiddlewareConfig) |}.
(** What the callbacks print: [key[:8]]; [None] is a panic. *)
Definition printed (e : event) : option bytes :=
  let key := match e with OnHit key | OnMiss key | OnSet key _ => key end in
  if decide (8 ≤ length key)%nat then Some (take 8 key) else None.

(** ** The endpoints, at the time [now] *)
Implicit Types (now : Z) (r : Request).
Definition rawQuery r : bytes := (BenchNode.cut 63 (URLString r)).2.
Definition asJSON : action := HeaderSet (str "Content-Type") (str "application/json").
Definition orElse (d s : bytes) : bytes := if bool_decide (s = []) then d else s.

Definition basicUsers now : handler := λ r,
  [asJSON; HeaderSet (str "Cache-Control") (str "public, max-age=180"); Write (encode (APIResponse (str "Users retrieved successfully") now (Users users)))].
Definition basicUser now : handler := λ r,
  let userID := trimPrefix (str "/basic/user/") (URLPath r) in
  [asJSON] ++
  match list_find (λ u, ID u = userID) users with
  | Some (_, u) => [Write (encode (APIResponse (str "User found") now (OneUser u)))]
  | None => [WriteHeader 404; Write (encode (APIResponse (str "User not found") now Nothing))]
  end.
Definition apiProducts now : handler := λ r,
  [asJSON; HeaderSet (str "Cache-Control") (str "public, max-age=300"); Write (encode (APIResponse (str "Products retrieved") now (Products products)))].
Definition apiSearch now : handler := λ r,
  let query := orElse (str "all") (BenchNode.queryGet (str "q") (rawQuery r)) in
  let result i := str "result-" ++ i ++ str "-for-" ++ query in
  [asJSON; Write (encode (APIResponse (str "Search results for '" ++ query ++ str "'") now (Strings (result <$> [str "1"; str "2"; str "3"]))))].
(** [login] is the second reading of the clock. *)
Definition userProfile now (login : Z) : handler := λ r,
  let userID := orElse (str "anonymous") (hget (str "X-User-ID") (ReqHeader r)) in
  [asJSON; Write (encode (APIResponse (str "Profile for user " ++ userID) now
    (Pairs [(str "user_id", userID); (str "name", str "User " ++ userID); (str "preferences", str "theme=dark,lang=en");
            (str "last_login", formatRFC3339 (login - 120 * minute))])))].
Definition contentJSON now : handler := λ r, [asJSON; Write (encode (ContentJSON (str "json") (str "5 minutes") now))].
Definition contentHTML now : handler := λ r,
  [HeaderSet (str "Content-Type") (str "text/html");
   Write (str "<html><body><h1>HTML Content</h1><p>TTL: 10 minutes</p><p>Time: " ++ formatRFC3339 now ++ str "</p></body></html>")].
Definition contentImage now : handler := λ r,
  [HeaderSet (str "Content-Type") (str "image/png"); Write (str "fake-png-data-cached-for-1-hour-" ++ formatClock now)].
Definition conditionalSmall : handler := λ r, [asJSON; Write (str "{" ++ [34] ++ str "size" ++ [34] ++ str ":" ++ [34] ++ str "small" ++ [34] ++ str "}")].
Definition conditionalLarge now : handler := λ r,
  [asJSON; Write (encode (LargeJSON (str "large") (str "This response is large enough to be cached by our size-based policy") now (Z.of_nat <$> seq 0 50)))].

(** ** Statistics and clearing *)
Definition stats (a : app) : handler := λ r,
  [asJSON; Write (encode (StatsJSON [(str "basic", cstats (cache (basic a))); (str "api", cstats (cache (api a))); (str "user", cstats (cache (user a)));
    (str "content", cstats (cache (content a))); (str "conditional", cstats (cache (conditional a)))]))].
Definition clearing (which : bytes) (o : rangeOrder) (a : app) : app * Z :=
  if bool_decide (which = str "basic") then (MkApp (Clear (basic a) o) (api a) (user a) (content a) (conditional a), 1)
  else if bool_decide (which = str "api") then (MkApp (basic a) (Clear (api a) o) (user a) (content a) (conditional a), 1)
  else if bool_decide (which = str "user") then (MkApp (basic a) (api a) (Clear (user a) o) (content a) (conditional a), 1)
  else if bool_decide (which = str "content") then (MkApp (basic a) (api a) (user a) (Clear (content a) o) (conditional a), 1)
  else if bool_decide (which = str "conditional") then (MkApp (basic a) (api a) (user a) (content a) (Clear (conditional a) o), 1)
  else (MkApp (Clear (basic a) o) (Clear (api a) o) (Clear (user a) o) (Clear (content a) o) (Clear (conditional a) o), 5).
Definition cacheClear (o : rangeOrder) now r (a : app) : app * list action :=
  if negb (bool_decide (Method r = str "POST")) then (a, BenchNode.Error (str "Method not allowed") 405)
  else
    let cacheType := BenchNode.queryGet (str "type") (rawQuery r) in
    let '(a, cleared) := clearing cacheType o a in
    (a, [asJSON; Write (encode (APIResponse (str "Cleared " ++ Runner.decimal cleared ++ str " cache(s)") now (Pairs [(str "type", cacheType)])))]).
Definition uncachedTime now : handler := λ r,
  [asJSON; HeaderSet (str "Cache-Control") (str "no-cache"); Write (encode (APIResponse (str "Current time (never cached)") now Nothing))].

(** ** The server *)
Inductive group := Basic | Api | PerUser | Content | Conditional.
#[export] Instance group_eq_dec : EqDecision group.
Proof. solve_decision. Defined.
Definition member (g : group) (a : app) : middleware :=
  match g with Basic => basic a | Api => api a | PerUser => user a | Content => content a | Conditional => conditional a end.
Definition put_member (g : group) (m : middleware) (a : app) : app :=
  match g with
  | Basic => MkApp m (api a) (user a) (content a) (conditional a)
  | Api => MkApp (basic a) m (user a) (content a) (conditional a)
  | PerUser => MkApp (basic a) (api a) m (content a) (conditional a)
  | Content => MkApp (basic a) (api a) (user a) m (conditional a)
  | Conditional => MkApp (basic a) (api a) (user a) (content a) m
  end.
(** The middleware and the handler registered for a path. *)
Definition route (path : bytes) now (login : Z) : option (group * handler) :=
  if bool_decide (path = str "/basic/users") then Some (Basic, basicUsers now)
  else if hasPrefix (str "/basic/user/") path then Some (Basic, basicUser now)
  else if bool_decide (path = str "/api/products") then Some (Api, apiProducts now)
  else if bool_decide (path = str "/api/search") then Some (Api, apiSearch now)
  else if bool_decide (path = str "/user/profile") then Some (PerUser, userProfile now login)
  else if bool_decide (path = str "/content/json") then Some (Content, contentJSON now)
  else if bool_decide (path = str "/content/html") then Some (Content, contentHTML now)
  else if bool_decide (path = str "/content/image") then Some (Content, contentImage now)
  else if bool_decide (path = str "/conditional/small") then Some (Conditional, conditionalSmall)
  else if bool_decide (path = str "/conditional/large") then Some (Conditional, conditionalLarge now)
  else None.
(** A request on a clean path: the next state, the response, and the events for the callbacks. *)
Definition handle (o : rangeOrder) (t : moment) now (login : Z) r (a : app) : app * Response * list event :=
  match route (URLPath r) now login with
  | Some (g, next) => let '(m, resp, es) := ServeHTTP formatRFC3339 formatDuration (member g a) next t r in (put_member g m a, resp, es)
  | None =>
      let '(a, acts) :=
        if bool_decide (URLPath r = str "/stats") then (a, stats a r)
        else if bool_decide (URLPath r = str "/cache/clear") then cacheClear o now r a
        else if bool_decide (URLPath r = str "/uncached/time") then (a, uncachedTime now r)
        else if bool_decide (URLPath r = str "/basic/user") then (a, BenchNode.redirect (Method r) (str "/basic/user/") (rawQuery r))
        else (a, BenchNode.NotFound) in
      (a, BenchNode.respond acts, [])
  end.
End App.

(** ** What is recorded of a handler that never calls [WriteHeader] *)
Lemma bare_recorded pre datas :
  forallb header_op pre = true →
  let rw := foldl rw_act (newResponseWriter new_writer) (pre ++ (Write <$> datas)) in
  statusCode rw = 200 ∧ headers rw = ∅ ∧ buf rw = concat datas.
Proof. intros Hp. cbn zeta. by rewrite foldl_app, (header_ops_rw pre), writes_rw. Qed.
Lemma bare_answer pre data :
  forallb header_op pre = true → let w := finish (foldl act new_writer (pre ++ [Write data])) in Status w = 200 ∧ RespBody w = data.
Proof. intros Hp. cbn zeta. rewrite foldl_app, (header_ops_act pre) by done. done. Qed.

Section AppTheorems.
Context {C : Type} `{Laws : CacheLaws C bytes CachedResponse, St : CacheStats C}.
Context (md5hex : bytes → bytes) (formatRFC3339 formatDuration formatClock : Z → bytes) (parseRFC1123 : bytes → option Z) (encode : json → bytes).
Context (newCache : Config → C) (order : rangeOrder).
Abbreviation middleware := (@HTTPCacheMiddleware C).
Abbreviation app := (@app C).
Abbreviation route := (route formatRFC3339 formatClock encode).
Abbreviation handle := (handle formatRFC3339 formatDuration formatClock encode).
Abbreviation ServeHTTP := (ServeHTTP formatRFC3339 formatDuration).
Abbreviation initial := (newApp md5hex parseRFC1123 newCache order).
Abbreviation recorded next r := (foldl rw_act (newResponseWriter new_writer) (next r)).

(** What stays of a middleware. *)
Definition setup (m : middleware) := (keyGen m, policy m, (onHit m, onMiss m, onSet m), (hitHeader m, missHeader m), pathExtract m).
Definition set_up (a : app) : Prop := ∀ g, setup (member g a) = setup (member g initial).
Lemma serve_setup m next t r : setup (ServeHTTP m next t r).1.1 = setup m.
Proof.
  unfold Middleware.ServeHTTP. destruct (cget _ _ _ _) as [c [cached|]]; [done|]. unfold record_response. cbn [policy put_cache].
  destruct (policy m _ _ _ _ _) as [[] ttl]; [|done]. by destruct (cset _ _ _ _ _).
Qed.
Lemma member_put g g' m (a : app) : member g' (put_member g m a) = if decide (g' = g) then m else member g' a.
Proof. by destruct g, g'. Qed.
Lemma clearing_setup which o (a : app) g : setup (member g (clearing which o a).1) = setup (member g a).
Proof. unfold clearing. repeat case_bool_decide; by destruct g. Qed.
Lemma handle_setup o t now login r (a : app) : set_up a → set_up (handle o t now login r a).1.1.
Proof.
  intros Ha g. unfold MiddlewareApp.handle. destruct (route _ _ _) as [[g' next]|].
  - pose proof (serve_setup (member g' a) next t r) as Hm. destruct (ServeHTTP _ _ _ _) as [[m resp] es]. cbn [fst] in *. rewrite member_put.
    case_decide as Eg; [|apply Ha]. subst g'. rewrite Hm. apply Ha.
  - repeat case_bool_decide; try apply Ha. unfold cacheClear. case_bool_decide; cbn [negb]; [|apply Ha]. pose proof (clearing_setup (BenchNode.queryGet (str "type") (rawQuery r)) o a g) as Hc.
    destruct (clearing _ _ _) as [a' n]. cbn [fst] in *. rewrite Hc. apply Ha.
Qed.

(** The callbacks print the first eight bytes of the key, which is an MD5 sum in hexadecimal. *)
Lemma serve_events m next t r e : e ∈ (ServeHTTP m next t r).2 → ∃ ttl, e = OnHit (keyGen m r) ∨ e = OnMiss (keyGen m r) ∨ e = OnSet (keyGen m r) ttl.
Proof.
  unfold Middleware.ServeHTTP. destruct (cget _ _ _ _) as [c [cached|]].
  - unfold serveCached. cbn [snd onHit put_cache]. destruct (onHit m); [|by intros ?%elem_of_nil]. intros ->%list_elem_of_singleton. exists 0. auto.
  - unfold record_response. cbn [policy put_cache onMiss]. destruct (policy m _ _ _ _ _) as [[] ttl]; [destruct (cset _ _ _ _ _) as [c' ?]|]; cbn [snd onSet put_cache];
      (intros [He|He]%elem_of_app; [destruct (onMiss m); [|by apply elem_of_nil in He]; apply list_elem_of_singleton in He as ->; exists 0; auto|]); [|by apply elem_of_nil in He].
    destruct (onSet m); [|by apply elem_of_nil in He]. apply list_elem_of_singleton in He as ->. exists ttl. auto.
Qed.
Lemma key_is_sum (a : app) g r : set_up a → ∃ x, keyGen (member g a) r = md5hex x.
Proof.
  intros Ha. assert (keyGen (member g a) = keyGen (member g initial)) as -> by (specialize (Ha g); unfold setup in Ha; congruence). destruct g; by eexists.
Qed.
Theorem callbacks_never_panic o t now login r (a : app) :
  (∀ x, length (md5hex x) = 32%nat) → set_up a → Forall (λ e, is_Some (printed e)) (handle o t now login r a).2.
Proof.
  intros H5 Ha. apply Forall_forall. intros e. unfold MiddlewareApp.handle. destruct (route _ _ _) as [[g next]|].
  - pose proof (serve_events (member g a) next t r e) as He. destruct (ServeHTTP _ _ _ _) as [[m resp] es]. cbn [snd] in *. intros Hin.
    destruct (key_is_sum a g r Ha) as [x Hx]. assert (length (keyGen (member g a) r) = 32%nat) as Hk by (rewrite Hx; apply H5).
    destruct (He Hin) as [ttl [->|[->| ->]]]; unfold printed; rewrite decide_True by lia; by eexists.
  - by repeat case_match; intros ?%elem_of_nil.
Qed.

(** ** What the middlewares keep *)
Definition bare (acts : list action) : Prop := ∃ pre data, acts = pre ++ [Write data] ∧ forallb header_op pre = true.
Lemma route_bare path now login g next r :
  route path now login = Some (g, next) →
  bare (next r) ∨ g = Basic ∧ ∃ data, next r = [asJSON; WriteHeader 404; Write data].
Proof.
  unfold MiddlewareApp.route. intros E. repeat (case_match; [injection E as <- <-|]); try done; try (left; by eexists [_; _], _); try (left; by eexists [_], _).
  unfold basicUser. destruct (list_find _ _) as [[i u]|]; [left; by eexists [_], _|right; split; [done|by eexists]].
Qed.
(** The client of a miss gets what is recorded; no header of a bare response is. *)
Lemma route_recorded path now login g next r :
  route path now login = Some (g, next) →
  let rw := recorded next r in
  statusCode rw = Status (serve_plain next r) ∧ buf rw = RespBody (serve_plain next r) ∧
  (statusCode rw = 200 ∧ headers rw = ∅ ∨ g = Basic ∧ statusCode rw = 404 ∧ hget (str "Cache-Control") (headers rw) = [] ∧ hget (str "Expires") (headers rw) = []).
Proof.
  intros E rw. destruct (route_bare path now login g next r E) as [(pre & data & Ea & Hp)|(-> & data & Ea)]; unfold rw, serve_plain; rewrite Ea.
  - destruct (bare_answer pre data Hp) as [-> ->]. change [Write data] with (Write <$> [data]). destruct (bare_recorded pre [data] Hp) as (-> & -> & ->). cbn [concat]. rewrite app_nil_r. auto.
  - split; [done|]. split; [done|]. right. split_and!; [done|done| |]; vm_compute; reflexivity.
Qed.

(** For how long a group keeps a response, and which bodies it keeps. *)
Definition lifetime (g : group) : Z := match g with Basic => 2 | Api => 5 | PerUser => 10 | Content => 2 | Conditional => 3 end * minute.
Definition storable (g : group) (body : bytes) : Prop :=
  match g with
  | Basic | PerUser => Z.of_nat (length body) ≤ 10 * 1024 * 1024
  | Api => Z.of_nat (length body) ≤ 5 * 1024 * 1024
  | Content => True
  | Conditional => 100 ≤ Z.of_nat (length body) ≤ 1024 * 1024
  end.
(** Without headers the default policy keeps a cacheable response for the default time. *)
Lemma default_keeps config now r status h body :
  Method r = str "GET" → CacheableMethods config = CacheableMethods DefaultMiddlewareConfig → CacheableStatus config = CacheableStatus DefaultMiddlewareConfig →
  status = 200 ∨ status = 404 → Z.of_nat (length body) ≤ MaxBodySize config → hget (str "Cache-Control") h = [] → hget (str "Expires") h = [] →
  DefaultCachePolicy parseRFC1123 config now r status h body = (true, MDefaultTTL config).
Proof.
  intros Hm Hcm Hcs Hst Hb Hcc Hex. unfold DefaultCachePolicy. rewrite Hm, Hcm, Hcs, Hcc, Hex. rewrite bool_decide_eq_true_2 by (cbn; set_solver). cbn [negb].
  rewrite bool_decide_eq_true_2 by (destruct Hst as [->| ->]; cbn; set_solver). cbn [negb]. destruct (Z.ltb_spec (MaxBodySize config) (Z.of_nat (length body))); [lia|]. done.
Qed.
Lemma no_rule_matches o : filter (λ p : bytes * Z, hasPrefix p.1 [] = true) (range o (map_to_list contentRules)) = [].
Proof.
  destruct (filter _ _) as [|p l] eqn:E; [done|]. assert (p ∈ p :: l) as Hp by left. rewrite <-E in Hp. apply list_elem_of_filter in Hp as [Hp Hin]. exfalso.
  rewrite range_perm in Hin. assert (Forall (λ p : bytes * Z, hasPrefix p.1 [] = false) (map_to_list contentRules)) as Hall by (vm_compute; repeat constructor).
  rewrite Forall_forall in Hall. by rewrite (Hall p Hin) in Hp.
Qed.
Lemma policy_of (a : app) g : set_up a → policy (member g a) = policy (member g initial).
Proof. intros Ha. specialize (Ha g). unfold setup in Ha. congruence. Qed.
Lemma group_keeps (a : app) path now login g next r t :
  set_up a → route path now login = Some (g, next) → Method r = str "GET" → storable g (buf (recorded next r)) →
  policy (member g a) t r (statusCode (recorded next r)) (headers (recorded next r)) (buf (recorded next r)) = (true, lifetime g).
Proof.
  intros Ha E Hm Hst. rewrite (policy_of a g Ha). destruct (route_recorded path now login g next r E) as (_ & _ & Hrec).
  assert (g ≠ Basic → statusCode (recorded next r) = 200 ∧ headers (recorded next r) = ∅) as Hbare by (destruct Hrec as [?|(? & _)]; done).
  destruct g; cbn [member newApp basic api user content conditional policy setCallbacks SetKeyGenerator SetCachePolicy]; cbn [storable] in Hst.
  - change (NewHTTPCacheMiddleware md5hex parseRFC1123 newCache (with_ttl (2 * minute) DefaultMiddlewareConfig)).(policy) with (DefaultCachePolicy parseRFC1123 (with_ttl (2 * minute) DefaultMiddlewareConfig)).
    apply default_keeps; try done; destruct Hrec as [[Hs Hh]|(_ & Hs & Hcc & Hex)]; rewrite ?Hs, ?Hh; auto.
  - destruct (Hbare ltac:(done)) as [-> ->]. by apply (default_keeps apiConfig); auto.
  - destruct (Hbare ltac:(done)) as [-> ->]. by apply (default_keeps (with_ttl (10 * minute) DefaultMiddlewareConfig)); auto.
  - destruct (Hbare ltac:(done)) as [-> ->]. unfold CacheByContentType. cbn [Z.ltb Z.leb orb]. change (hget (str "Content-Type") ∅) with (@nil Z). by rewrite no_rule_matches.
  - destruct (Hbare ltac:(done)) as [-> ->]. unfold CacheBySize. destruct (Z.leb_spec 100 (Z.of_nat (length (buf (recorded next r))))); [|lia].
    destruct (Z.leb_spec (Z.of_nat (length (buf (recorded next r)))) (1024 * 1024)); [done|lia].
Qed.

(** A page that was answered and kept is answered again with the same status and body, by any
    request with the same key within the time of its group, whatever the handler would say.  Of a
    status 200 none of the headers come back, the content type neither: they were never recorded. *)
Theorem second_request_is_replayed n o t1 t2 now1 now2 login1 login2 r1 r2 g next next' (a : app) :
  set_up a → route (URLPath r1) now1 login1 = Some (g, next) → route (URLPath r2) now2 login2 = Some (g, next') →
  wf (S (S n)) (cache (member g a)) → m_now t1 ≤ m_now' t1 → m_now t2 ≤ m_now' t2 → cadmits (cache (member g a)) = true →
  (cget (cache (member g a)) (keyGen (member g a) r1) (m_now t1) (m_now' t1)).2 = None →
  Method r1 = str "GET" → storable g (RespBody (serve_plain next r1)) → keyGen (member g a) r2 = keyGen (member g a) r1 →
  ¬ dead (m_now t2) (cexpiry (cache (member g a)) (rt_now (m_rt t1)) (lifetime g)) →
  let first := handle o t1 now1 login1 r1 a in
  let second := handle o t2 now2 login2 r2 first.1.1 in
  Status second.1.2 = Status first.1.2 ∧ RespBody second.1.2 = RespBody first.1.2 ∧
  (Status first.1.2 = 200 → RespHeader second.1.2 !! canon (str "Content-Type") = None).
Proof.
  intros Ha E1 E2 Hw Ht1 Ht2 Hadm Hmiss Hget Hst Hkey Hlive. cbn zeta. destruct (route_recorded _ _ _ _ _ r1 E1) as (Hs & Hb & Hrec).
  rewrite <-Hb in Hst. pose proof (group_keeps a _ _ _ _ _ r1 (m_policy t1) Ha E1 Hget Hst) as Hp.
  pose proof (miss_is_transparent formatRFC3339 formatDuration (member g a) next t1 r1 Hmiss) as (Hs1 & Hb1 & _).
  assert (200 ≤ statusCode (recorded next r1)) as Hc by (destruct Hrec as [[-> _]|(_ & -> & _)]; lia).
  pose proof (recorded_is_replayed formatRFC3339 formatDuration n (member g a) next t1 r1 _ next' t2 r2 Hw Ht1 Ht2 Hadm Hmiss Hc Hp Hkey Hlive) as (Hs2 & Hb2 & Hh).
  unfold MiddlewareApp.handle. rewrite E1, E2. destruct (ServeHTTP (member g a) next t1 r1) as [[m1 resp1] es1]. cbn [fst snd] in *. rewrite member_put, decide_True by done.
  destruct (ServeHTTP m1 next' t2 r2) as [[m2 resp2] es2]. cbn [fst snd] in *. rewrite Hs2, Hb2, Hs1, Hb1. split_and!; [done|done|]. rewrite <-Hs. intros H200.
  assert (hitHeader (member g a) = str "X-Cache") as Hhit. { specialize (Ha g). unfold setup in Ha. assert (hitHeader (member g a) = hitHeader (member g initial)) as -> by congruence. by destruct g. }
  rewrite Hh; [|rewrite Hhit; vm_compute; discriminate|vm_compute; discriminate|vm_compute; discriminate]. destruct Hrec as [[_ ->]|(_ & Hx & _)]; [done|lia].
Qed.

(** A small body is never kept: the cache is only read. *)
Theorem small_never_cached o t now login r (a : app) :
  set_up a → URLPath r = str "/conditional/small" →
  let c := cget (cache (conditional a)) (keyGen (conditional a) r) (m_now t) (m_now' t) in
  cache (conditional (handle o t now login r a).1.1) = c.1.
Proof.
  intros Ha Hp. cbn zeta. unfold MiddlewareApp.handle. rewrite Hp. assert (route (str "/conditional/small") now login = Some (Conditional, conditionalSmall)) as -> by reflexivity.
  pose proof (policy_of a Conditional Ha) as Hpol. cbn [member] in *. unfold Middleware.ServeHTTP. destruct (cget _ _ _ _) as [c [cached|]]; [done|].
  unfold record_response. cbn [policy put_cache]. by rewrite Hpol.
Qed.

(** Clearing: a named group is emptied and no other is touched; any other name empties them all. *)
Definition named (g : group) : bytes :=
  str match g with Basic => "basic" | Api => "api" | PerUser => "user" | Content => "content" | Conditional => "conditional" end.
Theorem clearing_empties which o n (a : app) g :
  (∀ g, wf n (cache (member g a))) →
  (which = named g ∨ (∀ g', which ≠ named g') → ∀ k, cfind (cache (member g (clearing which o a).1)) k = None) ∧
  (∀ g', which = named g' → g' ≠ g → member g (clearing which o a).1 = member g a).
Proof.
  intros Hw. assert (∀ k, cfind (cclear (cache (member g a)) o) k = None) as Hc by apply (law_clear n _ o (Hw g)). split.
  - intros [->|Hno] k; [by destruct g; apply Hc|]. unfold clearing.
    rewrite !bool_decide_eq_false_2 by (apply (Hno Basic) || apply (Hno Api) || apply (Hno PerUser) || apply (Hno Content) || apply (Hno Conditional)). destruct g; apply Hc.
  - intros g' -> Hne. by destruct g', g.
Qed.
End AppTheorems.

(** ** An instance *)
Definition demo_encode (j : json) : bytes :=
  match j with APIResponse m t _ => m ++ Runner.decimal t | ContentJSON _ _ t => Runner.decimal t | _ => [] end.
Definition demo_app : @app (InMemoryCache bytes CachedResponse) := newApp (λ x, x) (λ _, None) (New 4 (Admission.clock_at 0)) inOrder.
Definition demo_get (path : bytes) : Request := MkRequest (str "GET") path path ∅.
Definition demo_run (path : bytes) (ts : list Z) : list bytes :=
  (foldl (λ st t, let '(a, resp, _) := handle Runner.decimal Runner.decimal Runner.decimal demo_encode inOrder (MiddlewareTheorems.at_time t) t t (demo_get path) st.1 in
                  (a, st.2 ++ [RespBody resp])) (demo_app, []) ts).2.

(** The page that promises five minutes is kept for two; the page whose [Cache-Control] says three
    minutes is kept for two. *)
Theorem promised_lifetimes_not_kept :
  demo_run (str "/content/json") [1; 1 + minute; 2 + 2 * minute] = [str "1"; str "1"; Runner.decimal (2 + 2 * minute)] ∧
  demo_run (str "/basic/users") [1; 1 + minute; 2 + 2 * minute] =
    [str "Users retrieved successfully1"; str "Users retrieved successfully1"; str "Users retrieved successfully" ++ Runner.decimal (2 + 2 * minute)].
Proof. split; vm_compute; reflexivity. Qed.
End MiddlewareApp.
