(* ===== verification/Errors.v ===== *)
(** * Errors ([src/cluster/errors.go], [src/errors.go])

    Error values as the chains that [errors.Is] and [errors.As] walk: the sentinels of the
    program and of the standard library, system call numbers, network errors with their
    [Timeout] and what they wrap, and errors that wrap another one, [CacheError] among them.
    A [syscall.Errno] has a [Timeout] method and so is a [net.Error] itself. *)
From Stdlib Require Import ZArith Lia.
From stdpp Require Import base numbers list.
From S2P Require Import Prelude.
Local Open Scope Z_scope.

Module Errors.
Abbreviation bytes := (list Z).

Inductive sentinel :=
  | ErrNoOwner | ErrTimeout | ErrClosed | ErrBadPeer | ErrNoLoader | ErrLeaseTimeout | ErrPeerClosed
  | NetErrClosed | EOF
  | ErrCacheExists | ErrCacheNotFound | ErrTypeMismatch | ErrInvalidConfig | ErrCacheClosed.
#[export] Instance sentinel_eq_dec : EqDecision sentinel.
Proof. solve_decision. Defined.

(** Linux numbers. *)
Definition EAGAIN : Z := 11.
Definition EPIPE : Z := 32.
Definition ECONNABORTED : Z := 103.
Definition ECONNRESET : Z := 104.
Definition ETIMEDOUT : Z := 110.

Inductive error :=
  | Sentinel (s : sentinel)
  | Text (msg : bytes)                                     (* errors.New *)
  | Errno (n : Z)
  | NetError (timeout : bool)                              (* a deadline, an unreachable host *)
  | OpError (timeout : bool) (inner : error)               (* net.OpError and the like *)
  | Wrapped (msg : bytes) (inner : error)                  (* fmt.Errorf with a verb w *)
  | CacheError (op name : bytes) (cause : error).

(** The errors that [errors.Unwrap] reaches, the error itself first. *)
Fixpoint chain (e : error) : list error :=
  e :: match e with
       | OpError _ i | Wrapped _ i | CacheError _ _ i => chain i
       | _ => []
       end.

Definition is_sentinel (s : sentinel) (e : error) : bool := match e with Sentinel s' => bool_decide (s = s') | _ => false end.
Definition is_errno (n : Z) (e : error) : bool := match e with Errno n' => n =? n' | _ => false end.
(** [errors.Is] with a sentinel, or with a number. *)
Definition Is (s : sentinel) (e : error) : bool := existsb (is_sentinel s) (chain e).
Definition IsErrno (n : Z) (e : error) : bool := existsb (is_errno n) (chain e).

(** The [Timeout] of a [net.Error]; [net.ErrClosed] is one too. *)
Definition net_timeout (e : error) : option bool :=
  match e with
  | NetError t | OpError t _ => Some t
  | Errno n => Some ((n =? EAGAIN) || (n =? ETIMEDOUT))
  | Sentinel NetErrClosed => Some false
  | _ => None
  end.
Definition first_some {A B} (f : A → option B) (l : list A) : option B := foldr (λ x r, match f x with Some y => Some y | None => r end) None l.
(** [errors.As] into a [net.Error]. *)
Definition AsNetError (e : error) : option bool := first_some net_timeout (chain e).

(** ** Transport *)
Definition isFatalTransport (err : option error) : bool :=
  match err with
  | None => false
  | Some e =>
      if Is ErrTimeout e then false
      else if Is ErrPeerClosed e || Is NetErrClosed e || Is EOF e then true
      else match AsNetError e with
           | Some timeout => negb timeout
           | None => IsErrno ECONNRESET e || IsErrno EPIPE e || IsErrno ECONNABORTED e
           end
  end.

(** ** The cache's errors *)
Definition newCacheError (op name : bytes) (cause : error) : error := CacheError op name cause.
Definition wrapError (op : bytes) (err : error) : error := CacheError op [] err.
Definition Unwrap (e : error) : option error :=
  match e with OpError _ i | Wrapped _ i | CacheError _ _ i => Some i | _ => None end.

(** ["cache "], [": "] and [" "]. *)
Definition cachePrefix : bytes := [99; 97; 99; 104; 101; 32].
(** [Error()] of a [CacheError]; [show]: that of every other error. *)
Fixpoint Error (show : error → bytes) (e : error) : bytes :=
  match e with
  | CacheError op name cause =>
      if bool_decide (name ≠ []) then cachePrefix ++ op ++ [32] ++ name ++ [58; 32] ++ Error show cause
      else cachePrefix ++ op ++ [58; 32] ++ Error show cause
  | _ => show e
  end.

(** ** Lemmas *)
Lemma first_some_elem {A B} (f : A → option B) l : first_some f l = None ↔ ∀ x, x ∈ l → f x = None.
Proof.
  induction l as [|x l IH]; cbn; [split; [by intros _ y ?%elem_of_nil|done]|]. destruct (f x) eqn:E.
  - split; [done|]. intros H. specialize (H x (list_elem_of_here _ _)). congruence.
  - rewrite IH. split; [intros H y [->|?]%elem_of_cons; auto|intros H y Hy; apply H; by right].
Qed.
Lemma Is_iff s e : Is s e = true ↔ Sentinel s ∈ chain e.
Proof.
  unfold Is. rewrite existsb_exists. setoid_rewrite <-list_elem_of_In. split.
  - intros (x & Hx & E). destruct x; try done. cbn in E. apply bool_decide_eq_true in E as ->. done.
  - intros H. exists (Sentinel s). split; [done|]. cbn. by apply bool_decide_eq_true.
Qed.
Lemma IsErrno_iff n e : IsErrno n e = true ↔ Errno n ∈ chain e.
Proof.
  unfold IsErrno. rewrite existsb_exists. setoid_rewrite <-list_elem_of_In. split.
  - intros (x & Hx & E). destruct x; try done. cbn in E. apply Z.eqb_eq in E as ->. done.
  - intros H. exists (Errno n). split; [done|]. cbn. apply Z.eqb_refl.
Qed.

(** Which errors reset a connection: no timeout of this package is in the chain, and either the
    peer, the socket or the stream is closed, or the outermost network error, a system call
    number included, is not a timeout.  The numbers that the code tests at the end need no
    test of their own. *)
Theorem fatal_iff e :
  isFatalTransport (Some e) = true ↔
  Sentinel ErrTimeout ∉ chain e ∧
  (Sentinel ErrPeerClosed ∈ chain e ∨ Sentinel EOF ∈ chain e ∨ Sentinel NetErrClosed ∈ chain e ∨ AsNetError e = Some false).
Proof.
  unfold isFatalTransport. destruct (Is ErrTimeout e) eqn:Et; [apply Is_iff in Et; split; [done|by intros [[] _]]|].
  assert (Sentinel ErrTimeout ∉ chain e) as Hn by (by rewrite <-Is_iff, Et). rewrite <-!Is_iff.
  destruct (Is ErrPeerClosed e), (Is NetErrClosed e), (Is EOF e); cbn; try (by intuition congruence).
  destruct (AsNetError e) as [t|] eqn:Ea; [destruct t; cbn; intuition congruence|].
  assert (∀ n, IsErrno n e = false) as Hno.
  { intros n. destruct (IsErrno n e) eqn:E; [|done]. apply IsErrno_iff in E.
    pose proof (proj1 (first_some_elem _ _) Ea (Errno n) E) as X. done. }
  rewrite !Hno. cbn. intuition congruence.
Qed.

(** Wrapping keeps the verdict, however deep: a wrapped or cache error is fatal exactly when its
    cause is; and the cause of a cache error stays visible to [errors.Is]. *)
Theorem wrapping_keeps_verdict op name msg cause s n :
  isFatalTransport (Some (newCacheError op name cause)) = isFatalTransport (Some cause) ∧
  isFatalTransport (Some (wrapError op cause)) = isFatalTransport (Some cause) ∧
  isFatalTransport (Some (Wrapped msg cause)) = isFatalTransport (Some cause) ∧
  Is s (newCacheError op name cause) = Is s cause ∧ IsErrno n (wrapError op cause) = IsErrno n cause ∧
  Unwrap (newCacheError op name cause) = Some cause.
Proof. done. Qed.

Example fatal_reset : isFatalTransport (Some (Wrapped [] (OpError false (Errno ECONNRESET)))) = true.
Proof. done. Qed.
Example fatal_not_timeout : isFatalTransport (Some (NetError true)) = false ∧ isFatalTransport (Some (Errno ETIMEDOUT)) = false.
Proof. done. Qed.
End Errors.
