(* ===== verification/Compress.v ===== *)
(** * Buffers and inflation ([bytesBuffer], [bytesReader], [maybeDecompress] of [src/cluster/node.go])

    The byte buffer that grows as it is written, the reader over a slice, and the loop that
    reads a stream to its end in pieces of 32 KiB.  A stream is any [Reader]; the gzip package
    is a constructor of one from a slice.  The loop is cut by fuel; that it returns is proved
    for every stream that ends. *)
From Stdlib Require Import ZArith Lia.
From stdpp Require Import base numbers list.
From S2P Require Import Prelude KeyCodec Node.
Local Open Scope Z_scope.

Module Compress.
Import KeyCodec.

Inductive ioErr := EOF | Failed (e : Z).
(** [Read(p)] for a slice [p] of the given length: what was written to it, and the error. *)
Class Reader (S : Type) := Read : S → nat → S * bytes * option ioErr.

Record bytesBuffer := MkBuf { content : bytes }.
Definition Write (bb : bytesBuffer) (p : bytes) : bytesBuffer * Z := (MkBuf (content bb ++ p), Z.of_nat (length p)).
Definition Bytes (bb : bytesBuffer) : bytes := content bb.
Definition Len (bb : bytesBuffer) : Z := Z.of_nat (length (content bb)).

Record bytesReader := MkReader { slice : bytes; pos : nat }.
#[export] Instance bytesReader_Read : Reader bytesReader := λ br n,
  if (length (slice br) <=? pos br)%nat then (br, [], Some EOF)
  else let got := take n (skipn (pos br) (slice br)) in (MkReader (slice br) (pos br + length got), got, None).

(** [var tmp [32 << 10]byte]; [None]: the fuel is spent. *)
Definition tmpLen : nat := Z.to_nat (Z.shiftl 32 10).
Fixpoint ReadFrom {S : Type} `{Reader S} (fuel : nat) (bb : bytesBuffer) (total : Z) (r : S) : option (bytesBuffer * Z * option Z) :=
  match fuel with
  | O => None
  | Datatypes.S fuel =>
      let '(r, got, err) := Read r tmpLen in
      let bb := MkBuf (content bb ++ got) in
      let total := total + Z.of_nat (length got) in
      match err with
      | None => ReadFrom fuel bb total r
      | Some EOF => Some (bb, total, None)
      | Some (Failed e) => Some (bb, total, Some e)
      end
  end.

Section Inflate.
Context {S : Type} `{R : Reader S} (newReader : bytesReader → option S).

Definition maybeDecompress (fuel : nat) (b : bytes) (cp : bool) : option (option bytes) :=
  if negb cp then Some (Some b)
  else match newReader (MkReader b 0) with
       | None => Some None
       | Some r =>
           match ReadFrom fuel (MkBuf []) 0 r with
           | None => None
           | Some (_, _, Some _) => Some None
           | Some (out, _, None) => Some (Some (Bytes out))
           end
       end.

(** What a stream delivers until it ends, and how it ends. *)
Inductive delivers : S → bytes → option Z → Prop :=
  | delivers_eof r r' got : Read r tmpLen = (r', got, Some EOF) → delivers r got None
  | delivers_failed r r' got e : Read r tmpLen = (r', got, Some (Failed e)) → delivers r got (Some e)
  | delivers_more r r' got rest e : Read r tmpLen = (r', got, None) → delivers r' rest e → delivers r (got ++ rest) e.

Lemma ReadFrom_delivers r out e : delivers r out e →
  ∃ fuel, ∀ bb total, ReadFrom fuel bb total r = Some (MkBuf (content bb ++ out), total + Z.of_nat (length out), e).
Proof.
  induction 1 as [r r' got E|r r' got e E|r r' got rest e E _ [fuel IH]].
  - exists 1%nat. intros. cbn [ReadFrom]. by rewrite E.
  - exists 1%nat. intros. cbn [ReadFrom]. by rewrite E.
  - exists (Datatypes.S fuel). intros. cbn [ReadFrom]. rewrite E, IH. cbn [content]. rewrite <-(assoc_L (++)), length_app. do 3 f_equal. lia.
Qed.

(** The inflation loop implements the function that the handlers use: where every stream of the
    gzip reader ends, the loop returns, with all the bytes the stream delivered, and with an
    error exactly when the header or the stream is broken. *)
Theorem decompress_refines (gunzip : bytes → option bytes) b cp :
  (∀ b, match newReader (MkReader b 0) with
        | None => gunzip b = None
        | Some r => ∃ out e, delivers r out e ∧ gunzip b = match e with None => Some out | Some _ => None end
        end) →
  ∃ fuel, maybeDecompress fuel b cp = Some (Node.maybeDecompress gunzip b cp).
Proof.
  intros Hg. unfold maybeDecompress, Node.maybeDecompress. destruct cp; cbn [negb]; [|by exists 0%nat].
  specialize (Hg b). destruct (newReader (MkReader b 0)) as [r|]; [|exists 0%nat; by rewrite Hg].
  destruct Hg as (out & e & Hd & Eg). destruct (ReadFrom_delivers r out e Hd) as [fuel Hf]. exists fuel. rewrite Hf, Eg. by destruct e.
Qed.
End Inflate.

(** ** The reader over a slice *)
Lemma slice_delivers b i : delivers (MkReader b i) (skipn i b) None.
Proof.
  remember (length b - i)%nat as n eqn:En. revert i En. induction (lt_wf n) as [n _ IH]. intros i ->.
  destruct (decide (length b ≤ i)%nat) as [Hle|Hgt].
  - rewrite skipn_all2 by lia. apply (delivers_eof _ (MkReader b i)). unfold Read, bytesReader_Read. cbn [slice pos].
    by rewrite (proj2 (Nat.leb_le _ _) Hle).
  - rewrite <-(take_drop tmpLen (skipn i b)) at 1. rewrite drop_drop. eapply delivers_more.
    + unfold Read, bytesReader_Read. cbn [slice pos]. by rewrite (proj2 (Nat.leb_gt _ _)) by lia.
    + assert (0 < tmpLen)%nat as Ht by (apply Nat.ltb_lt; vm_compute; reflexivity). rewrite length_take, length_drop.
      destruct (decide (tmpLen ≤ length b - i)%nat) as [Hl|Hl].
      * rewrite Nat.min_l by lia. eapply IH; [|done]. lia.
      * rewrite Nat.min_r by lia. rewrite (skipn_all2 b) by lia. rewrite <-(skipn_all2 b (n := (i + (length b - i))%nat)) by lia. eapply IH; [|done]. lia.
Qed.

(** Reading a slice from any position to its end copies exactly the rest, after what the buffer
    held, in however many pieces. *)
Theorem copy_is_complete b i bb :
  ∃ fuel, ReadFrom fuel bb 0 (MkReader b i) = Some (MkBuf (content bb ++ skipn i b), Z.of_nat (length (skipn i b)), None).
Proof. destruct (ReadFrom_delivers _ _ _ (slice_delivers b i)) as [fuel Hf]. exists fuel. by rewrite Hf. Qed.

Example decompress_refines_witness : ∃ fuel, maybeDecompress (λ r, Some r) fuel [1; 2] true = Some (Node.maybeDecompress (λ b, Some b) [1; 2] true).
Proof.
  apply (decompress_refines (λ r, Some r) (λ b, Some b) [1; 2] true). intros b. exists b, None. split; [apply (slice_delivers b 0)|done].
Defined.
End Compress.
